(* ===== verification/_CoqProject ===== *)
-Q . S2P
Prelude.v
GoLib.v
Fsm.v
Sha256.v
Os.v
Download.v
Slot.v
SlotLogic.v
SlotSpec.v
Boot.v
Kube.v
Kubeconfig.v
Agent.v
AgentLogic.v
Upgrade.v
Completion.v
FirstBoot.v
System.v
AgentSpec.v
Commands.v
FileServer.v
ApiTypes.v
Crd.v
DeviceController.v
DeviceLife.v
DeviceStatus.v
RolloutController.v
RolloutSpec.v
RolloutPlan.v
RolloutFleet.v
Rollout.v
Replicas.v
Contract.v
Delivery.v
Schema.v
DeepCopy.v
InPlace.v
Scheme.v
