(* ===== verification/Prelude.v ===== *)
(** * Edge fleet operator: a verified model (root file)

    This library models the Go program of this repository - a Kubernetes operator
    for a fleet of edge devices and the agent that runs on each device - and proves
    the properties its comments promise.  Files and functions are those under src/.

    ** The program

    A device holds two firmware slots and a [current] symlink (internal/agent/slot.go).
    Its agent (agent.go) polls its EdgeDevice object (kube.go), and when the wanted
    version differs runs one firmware transaction through a state machine (fsm.go):
    download with resume and checksum (download.go), stage into the idle slot, verify,
    promote, boot check, self-check, confirm, or roll back.  Two reconcilers run in the
    operator: one projects device health and provisions a credential
    (internal/controller/edgedevice_controller.go), one drives staged campaigns over
    many devices with a circuit breaker (fleetrollout_controller.go).  They meet only
    in the API objects (api/v1alpha1).

    ** How effects are modelled

    A component is a [prog] over a signature of operations (this file): the operations
    are its calls out - system calls, HTTP exchanges, API calls, clock, memory.  A
    signature is given a meaning by a relation over a world ([Sem]); faults, lost
    answers, other writers and crashes are choices of that relation.  [wpi] is the
    program logic, with an invariant that holds between any two operations, so a crash
    at any point is covered; [each] speaks of the operations performed; [traced] is the
    world that records the history, and [traced_replay] carries what holds of every
    history into any other world.  A program over one signature is used in another
    through [Subsig] and [lift].  The tree is inductive: every program terminates for
    every behaviour of its environment; the endless loops of the agent are step
    relations whose body is such a program.  No theorem rests on fuel: loops of the
    source are structural recursions on their bound ([retries], [update_loop]) or on
    the list they walk, and [trim_left] is given the length of its text.

    ** The files

    - Prelude (this file): results, programs, their logic, histories, programs run
      side by side ([interleaved], and the rely-guarantee rule [rg_sound]).
    - GoLib: errors, strings, strconv, filepath, integers at their width.
    - Sha256: SHA-256 and hex, executable.  Os: package os on one data directory, with
      faults.
    - Fsm: fsm.go.  [To], the transition table, the observer.
    - Download: download.go.  [downloadOnce], [DownloadWithResume], [VerifySHA256], and
      their theorems: the image is assembled, verified means matching, requests and
      pauses are bounded, and where the 64-bit backoff breaks.
    - Slot: slot.go, the operations.  SlotLogic: reasoning about them on an abstract
      device ([rep] relates directory and device).  SlotSpec: their specifications.
      Boot: the abstract bootloader they refine, and brick safety.
    - Kube: kube.go, with optimistic concurrency, the server being a part of any larger
      world.  Kubeconfig: its reader's round trip.
    - Agent: agent.go, the operations.  AgentLogic: reasoning about one goroutine.
      Upgrade: one transaction never bricks.  Completion: with a sound server it ends in
      the new firmware (the transaction alone, then the whole cycle).  FirstBoot: the provisioning of an empty
      directory, from any point a power failure left it at.  System: all goroutines interleaved, with
      power failures between system calls and in the middle of them; the invariant of the
      device and mutual exclusion.  AgentSpec: what
      [evaluate] decides and the reports contain.
    - Commands: the [main] functions of cmd/agent/main.go and cmd/main.go, from their
      parsed flags on, with [filepath.Join].
    - FileServer: cmd/firmware-server/main.go and the part of http.FileServer it relies
      on (opening below the root, byte ranges); such a server is honest and prompt about
      an image's URL.
    - ApiTypes: the resources of api/v1alpha1 and, as classes with laws and an instance,
      the library helpers the controllers call.  Crd: the validation of config/crd, with
      its patterns as regular expressions.
    - DeviceController: edgedevice_controller.go, one pass.  DeviceLife: the credential
      never outlives its device, among other writers and with a lagging cache.
      DeviceStatus: the projection, the wake-up time, the gates, error reporting.
    - RolloutController: fleetrollout_controller.go, one pass.  RolloutSpec: its counters
      and breaker.  RolloutPlan: the plan a pass refines.  RolloutFleet: the effect on a
      fleet.  Rollout: the properties.  Replicas: passes of several replicas interleaved,
      behind lagging caches.  Contract: the agent's reports as both reconcilers read them.
      Delivery: agent, data directory, file server and API server in one world.
      Schema: both controllers write objects their CRDs admit and their own fields only.
    - DeepCopy: zz_generated.deepcopy.go, on a heap of typed cells, with maps, slices and
      pointers as references; the other files pass these objects by value, as its
      theorem allows.  InPlace: the status gates of both controllers on that heap, where
      conditions are set in place; the comparison with the old status sees the change.
    - Scheme: the package variables and init functions that register the API types, and
      the scheme the manager is given.

    ** What the theorems show

    The device: wherever power fails, in the middle of a write or between two, and
    whichever writes fail but those of the two markers, one slot stays confirmed; the
    boot sequence comes back to it, the running slot is never written, nothing is
    flashed that does not hash to the wanted digest, retries are bounded and spaced, at
    most one transaction runs at a time, and one that meets no failure ends in the new
    firmware.  The client: an update is computed from the state it replaces.  The
    device reconciler: the phase is true, expiry is noticed on time, a redundant event
    costs no write, no failure is passed over, a credential never outlives its device.  The rollout reconciler: a pass refines a plan over unbounded
    integers, the blast radius is kept whichever writes took effect, a tripped breaker
    freezes the fleet, order and history are irrelevant while none is on record, what
    is written is valid for the CRDs, a campaign ends; several replicas with stale
    caches keep the blast radius together, as long as nobody joins.  Between the two: what an upgrade reports is true of the directory and is read by both
    reconcilers as it is meant; an image published on the file server ends up running
    and reported, whoever else writes the object.  The commands: a manager starts
    complete or not at all, agents on one host keep apart, and a first boot can be
    restarted.  Deep copies are isolated from their originals, which is what the status gates need; every kind the
    controllers use is registered.  Witnesses
    ([..._witness]) apply the theorems to concrete runs.  Several theorems show where
    the code falls short of its comments; they are marked as findings where they stand.

    ** Bounds

    Counters are int32 and durations int64, wrapped as Go does; the theorems state the
    sizes up to which that is harmless (21 474 836 devices for the breaker, about 73
    years for the heartbeat timeout and clock skew) and what happens beyond.

    ** Not modelled

    - Package flag; of http.FileServer the listings, the headers and the answers to
      several ranges at once, which no client here asks for; the framework behind the
      manager's calls, which is the environment of [manager_main].
    - The builder chains of SetupWithManager, RBAC, YAML but for the schemas, scripts,
      tests and their helpers.
    - The write-back cache of the kernel: the agent issues no fsync, and a write is
      durable here once its call returned.
    - Log lines, except the state machine's observer.  A panic ends the process; what
      the directory holds then is covered as a crash.
    - Checksums containing a path separator: the CRD admits only 64 hexadecimal digits.
    - The texts of path errors are relative to the data directory; the deadline of one
      download attempt is one of the ways its transfer can end.
    - Base64, X.509, TLS and HTTP framing are parameters or carried as the values they
      encode.  The API server and the informer cache are relations that promise what
      Kubernetes documents: optimistic concurrency, finalizers, status subresources. *)

From stdpp Require Export prelude gmap strings list sorting relations pretty functions.

(** ** Results

    Go's [(T, error)] return pairs.  A function that returns only an [error]
    returns [option E] ([None] is [nil]); one that returns a value and an error
    of which exactly one is meaningful returns [result E T]. *)

Inductive result (E A : Type) : Type :=
  | Ok (a : A)
  | Err (e : E).
Arguments Ok {E A} a.
Arguments Err {E A} e.

Global Instance result_eq_dec {E A} `{EqDecision E, EqDecision A} :
  EqDecision (result E A).
Proof. solve_decision. Defined.

Definition is_ok {E A} (r : result E A) : bool :=
  match r with Ok _ => true | Err _ => false end.

(** ** Lists and sets *)

Lemma StronglySorted_filter {A} (R : relation A) (P : A → Prop) `{!∀ x, Decision (P x)} l :
  StronglySorted R l → StronglySorted R (filter P l).
Proof.
  induction 1 as [|x l Hs IH Hx]; [by constructor|]. rewrite filter_cons. case_decide; [|done].
  constructor; [done|]. rewrite list.Forall_forall in *. intros y [_ Hy]%list_elem_of_filter. auto.
Qed.

Lemma size_list_to_set_le (l : list string) : (size (list_to_set l : gset string) ≤ length l)%nat.
Proof.
  induction l as [|x l IH]; [done|]. cbn [list_to_set length].
  rewrite size_union_alt, size_singleton.
  assert (size (list_to_set l ∖ {[ x ]} : gset string) ≤ size (list_to_set l : gset string))%nat
    by (apply subseteq_size; by intros y [? _]%elem_of_difference).
  lia.
Qed.

(** ** Effectful programs

    A component's code is a program over a signature of operations (system
    calls, HTTP exchanges, accesses to shared memory).  The tree is inductive:
    every program of the development terminates for every behaviour of its
    environment, and loops without an end are modelled as step relations whose
    body is such a program. *)

Structure sig := Sig { act : Type; res : act → Type }.
Arguments res {s} _.

Inductive prog (S : sig) (A : Type) : Type :=
  | Ret (a : A)
  | Act (o : act S) (k : res o → prog S A).
Arguments Ret {S A} a.
Arguments Act {S A} o k.

Definition trigger {S : sig} (o : act S) : prog S (res o) := Act o Ret.

Fixpoint bind {S A B} (p : prog S A) (f : A → prog S B) : prog S B :=
  match p with
  | Ret a => f a
  | Act o k => Act o (λ r, bind (k r) f)
  end.

Declare Scope prog_scope.
Delimit Scope prog_scope with prog.
Bind Scope prog_scope with prog.
#[global] Open Scope prog_scope.

(** [x <- p ;; q] is sequencing; [try x <- p catch e => h ;; q] is Go's
    [x, err := p; if err != nil { h }; q]; [guard p catch e => h ;; q] is
    [if err := p; err != nil { h }; q]. *)
Notation "x <- p ;; q" := (bind p (λ x, q))
  (at level 100, p at next level, right associativity) : prog_scope.
Notation "'do' p ;; q" := (bind p (λ _, q))
  (at level 100, p at next level, right associativity) : prog_scope.
Notation "'try' x <- p 'catch' e => h ;; q" :=
  (bind p (λ r, match r with Ok x => q | Err e => h end))
  (at level 100, x name, p at next level, e name, h at next level,
   right associativity) : prog_scope.
Notation "'guard' p 'catch' e => h ;; q" :=
  (bind p (λ r, match r with None => q | Some e => h end))
  (at level 100, p at next level, e name, h at next level,
   right associativity) : prog_scope.

(** ** Semantics of programs

    A signature is given a meaning over a world [W] by a relation: [sem o w r w']
    says that the operation [o], started in [w], may answer [r] and leave [w'].
    Faults of the environment (an I/O error, a lost connection, a conflicting
    writer) are choices of this relation. *)

Class Sem (S : sig) (W : Type) : Type :=
  sem : ∀ o : act S, W → res o → W → Prop.

Section semantics.
Context {S : sig} {W : Type} `{!Sem S W}.
Implicit Types (w : W) (I : W → Prop).

(** One operation of a program. *)
Definition pstep {A} (c1 c2 : prog S A * W) : Prop :=
  match c1.1 with
  | Ret _ => False
  | Act o k => ∃ r, sem o c1.2 r c2.2 ∧ c2.1 = k r
  end.

(** [wpi p I Q w]: every run of [p] from [w] keeps [I] between any two
    operations (so [I] holds of every world a crash can leave behind), and
    when it returns [a] in [w'], [Q a w'] holds. *)
Fixpoint wpi {A} (p : prog S A) I (Q : A → W → Prop) w : Prop :=
  I w ∧
  match p with
  | Ret a => Q a w
  | Act o k => ∀ r w', sem o w r w' → wpi (k r) I Q w'
  end.

Definition always : W → Prop := λ _, True.
Definition wp {A} (p : prog S A) (Q : A → W → Prop) : W → Prop :=
  wpi p always Q.

Lemma wpi_inv {A} (p : prog S A) I Q w : wpi p I Q w → I w.
Proof. destruct p; by intros [? _]. Qed.

Lemma wpi_mono {A} (p : prog S A) I1 I2 (Q1 Q2 : A → W → Prop) w :
  wpi p I1 Q1 w →
  (∀ w', I1 w' → I2 w') → (∀ a w', I1 w' → Q1 a w' → Q2 a w') →
  wpi p I2 Q2 w.
Proof.
  revert w. induction p as [a|o k IH]; simpl; intros w [HI H] HI12 HQ; split; auto.
Qed.

Lemma wpi_bind {A B} (p : prog S A) (f : A → prog S B) I Q w :
  wpi p I (λ a w', wpi (f a) I Q w') w → wpi (bind p f) I Q w.
Proof.
  revert w. induction p as [a|o k IH]; simpl; intros w [HI H]; [done|].
  split; [done|]. intros r w' Hs. by apply IH, H.
Qed.

Lemma wpi_conj {A} (p : prog S A) I1 I2 Q1 Q2 w :
  wpi p I1 Q1 w → wpi p I2 Q2 w →
  wpi p (λ w, I1 w ∧ I2 w) (λ a w, Q1 a w ∧ Q2 a w) w.
Proof.
  revert w. induction p as [a|o k IH]; simpl; intros w [? H1] [? H2]; split; auto.
Qed.

Lemma wpi_steps {A} (p p' : prog S A) I Q w w' :
  wpi p I Q w → rtc pstep (p, w) (p', w') → wpi p' I Q w'.
Proof.
  intros H Hs. remember (p, w) as c eqn:Ec. remember (p', w') as c' eqn:Ec'.
  revert p w Ec H. induction Hs as [c|c1 [p2 w2] c3 Hs1 _ IH]; intros p w -> H.
  - by simplify_eq.
  - apply (IH Ec' p2 w2 eq_refl). destruct p as [a|o k]; [done|].
  unfold pstep in Hs1; simpl in Hs1.
  destruct Hs1 as (r & Hsem & ->), H as [_ H]. by apply H.
Qed.

(** Soundness: the worlds a run visits satisfy the crash invariant, and a
    finished run satisfies the postcondition. *)
Lemma wpi_reachable {A} (p p' : prog S A) I Q w w' :
  wpi p I Q w → rtc pstep (p, w) (p', w') → I w'.
Proof. intros H Hs. eapply wpi_inv, wpi_steps; eauto. Qed.

Lemma wpi_result {A} (p : prog S A) I Q w a w' :
  wpi p I Q w → rtc pstep (p, w) (Ret a, w') → Q a w'.
Proof. intros H Hs. eapply (wpi_steps _ _ _ _ _ _ H) in Hs. apply Hs. Qed.

(** [each P p w]: every operation [p] performs, started in [w], is performed in a
    world where [P] allows it. *)
Fixpoint each {A} (P : act S → W → Prop) (p : prog S A) w : Prop :=
  match p with
  | Ret _ => True
  | Act o k => P o w ∧ ∀ r w', sem o w r w' → each P (k r) w'
  end.

Lemma each_steps {A} (P : act S → W → Prop) (p : prog S A) o k w w' :
  each P p w → rtc pstep (p, w) (Act o k, w') → P o w'.
Proof.
  intros H Hs. remember (p, w) as c eqn:Ec. remember (Act o k, w') as c' eqn:Ec'.
  revert p w Ec H. induction Hs as [c|c1 [p2 w2] c3 Hs1 _ IH]; intros p w -> H.
  - simplify_eq. apply H.
  - apply (IH Ec' p2 w2 eq_refl). destruct p as [b|o1 k1]; [done|].
  unfold pstep in Hs1; simpl in Hs1. destruct Hs1 as (r & Hsem & ->). by apply H.
Qed.

Lemma each_bind {A B} (P : act S → W → Prop) (p : prog S A) (f : A → prog S B) w :
  each P p w → wp p (λ a w', each P (f a) w') w → each P (bind p f) w.
Proof.
  revert w. induction p as [a|o k IH]; simpl; intros w Hp [_ H]; [done|].
  destruct Hp as [Ho Hk]. split; [done|]. intros r w' Hs. apply IH; [by apply Hk|by apply H].
Qed.

(** Deterministic execution: a handler picks one allowed answer for each
    operation, or refuses it (an answer that does not exist, as of a panic). *)
Context (h : ∀ o : act S, W → option (res o * W)).

Fixpoint run {A} (p : prog S A) (w : W) : option (A * W) :=
  match p with
  | Ret a => Some (a, w)
  | Act o k =>
  match h o w with
  | Some (r, w') => run (k r) w'
  | None => None
  end
  end.

Definition handles : Prop := ∀ o w r w', h o w = Some (r, w') → sem o w r w'.

Lemma run_steps {A} (p : prog S A) w a w' :
  handles → run p w = Some (a, w') → rtc pstep (p, w) (Ret a, w').
Proof.
  intros Hh. revert w. induction p as [b|o k IH]; intros w; simpl; [by intros [= -> ->]|].
  destruct (h o w) as [[r w1]|] eqn:E; [|done]. intros H.
  eapply rtc_l; [|by apply IH]. exists r. split; [by apply Hh|done].
Qed.

Lemma run_bind {A B} (p : prog S A) (f : A → prog S B) w a w' :
  run p w = Some (a, w') → run (bind p f) w = run (f a) w'.
Proof.
  revert w. induction p as [b|o k IH]; intros w; cbn; [by intros [= -> ->]|].
  destruct (h o w) as [[r w1]|]; [apply IH|done].
Qed.

(** The run up to the first operation the handler refuses, as of a power failure. *)
Fixpoint drive {A} (p : prog S A) (w : W) : prog S A * W :=
  match p with
  | Ret a => (Ret a, w)
  | Act o k =>
  match h o w with
  | Some (r, w') => drive (k r) w'
  | None => (Act o k, w)
  end
  end.

Lemma drive_steps {A} (p : prog S A) w : handles → rtc pstep (p, w) (drive p w).
Proof.
  intros Hh. revert w. induction p as [b|o k IH]; intros w; simpl; [done|].
  destruct (h o w) as [[r w1]|] eqn:E; [|done].
  eapply rtc_l; [|by apply IH]. exists r. split; [by apply Hh|done].
Qed.

(** A handler that answers every operation runs every program to its end. *)
Lemma run_total {A} (p : prog S A) w :
  (∀ o w, is_Some (h o w)) → ∃ a w', run p w = Some (a, w').
Proof.
  intros Hh. revert w. induction p as [a|o k IH]; intros w; simpl; [by exists a, w|].
  destruct (Hh o w) as [[r w1] ->]. apply IH.
Qed.

Lemma wpi_run {A} (p : prog S A) I Q w a w' :
  handles → wpi p I Q w → run p w = Some (a, w') → Q a w'.
Proof. intros Hh H E. eapply wpi_result; [done|by apply run_steps]. Qed.
End semantics.

Lemma wpi_true {S : sig} {W A} `{!Sem S W} (p : prog S A) (w : W) :
  wpi p (λ _, True) (λ _ _, True) w.
Proof. revert w. induction p as [x|o k IH]; by split. Qed.

(** Two programs that begin alike. *)
Lemma wpi_swap {S : sig} {W A B C} `{!Sem S W} (p : prog S A) (f : A → prog S B) (g : A → prog S C)
    I Q1 Q2 (w : W) :
  (∀ a w', wpi (f a) I Q1 w' → wpi (g a) I Q2 w') →
  wpi (bind p f) I Q1 w → wpi (bind p g) I Q2 w.
Proof.
  intros Hfg. revert w. induction p as [a|o k IH]; simpl; intros w; [apply Hfg|].
  intros [HI H]. split; [done|]. intros r w' Hs. by apply IH, H.
Qed.

Lemma wpi_drop {S : sig} {W A B} `{!Sem S W} (p : prog S A) (b : B) I Q1 (Q2 : A → W → Prop) (w : W) :
  (∀ a w', Q1 b w' → Q2 a w') → wpi (bind p (λ _, Ret b)) I Q1 w → wpi p I Q2 w.
Proof.
  intros HQ. revert w. induction p as [a|o k IH]; simpl; intros w [HI H]; split; auto.
Qed.

(** A world that contains another: what holds of every run in the part holds of
    every run in the whole. *)
Lemma wpi_project {S : sig} {W1 W2 A} (sem1 : Sem S W1) (sem2 : Sem S W2) (π : W2 → W1)
    (p : prog S A) I (Q : A → W1 → Prop) w :
  (∀ o w r w', sem (Sem := sem2) o w r w' → sem (Sem := sem1) o (π w) r (π w')) →
  wpi (Sem0 := sem1) p I Q (π w) →
  wpi (Sem0 := sem2) p (λ w', I (π w')) (λ a w', Q a (π w')) w.
Proof.
  intros Hπ. revert w. induction p as [a|o k IH]; simpl; intros w [HI H]; split; auto.
Qed.

Lemma act_step {S : sig} {W A} `{!Sem S W} (o : act S) (k : res o → prog S A) w r w' c :
  sem o w r w' → rtc pstep (k r, w') c → rtc pstep (Act o k, w) c.
Proof. intros Hs H. eapply rtc_l; [|exact H]. by exists r. Qed.

(** ** Components

    A component is written over its own signature and used by its callers
    through an embedding of that signature into theirs. *)

Class Subsig (S1 S2 : sig) : Type := {
    inj : act S1 → act S2;
    back : ∀ o, res (inj o) → res o;
  }.

Fixpoint lift {S1 S2 A} `{!Subsig S1 S2} (p : prog S1 A) : prog S2 A :=
  match p with
  | Ret a => Ret a
  | Act o k => Act (inj o) (λ r, lift (k (back o r)))
  end.

(** Every operation a program can perform, whatever it is answered, satisfies [P]. *)
Fixpoint calls_only {S : sig} {A} (P : act S → Prop) (p : prog S A) : Prop :=
  match p with
  | Ret _ => True
  | Act o k => P o ∧ ∀ r, calls_only P (k r)
  end.

Lemma calls_only_bind {S : sig} {A B} (P : act S → Prop) (p : prog S A) (f : A → prog S B) :
  calls_only P p → (∀ a, calls_only P (f a)) → calls_only P (bind p f).
Proof.
  intros Hp Hf. induction p as [a|o k IH]; simpl in *; [done|].
  destruct Hp as [Ho Hk]. split; [done|]. intros r. by apply IH.
Qed.

Lemma calls_only_trigger {S : sig} (P : act S → Prop) (o : act S) :
  P o → calls_only P (trigger o).
Proof. by intros. Qed.

Lemma calls_only_mono {S : sig} {A} (P1 P2 : act S → Prop) (p : prog S A) :
  (∀ o, P1 o → P2 o) → calls_only P1 p → calls_only P2 p.
Proof. intros HP. induction p as [a|o k IH]; simpl; [done|]. intros [? ?]; eauto. Qed.

Lemma calls_only_all {S : sig} {A} (P : act S → Prop) (p : prog S A) :
  (∀ o, P o) → calls_only P p.
Proof. intros HP. induction p as [a|o k IH]; by split. Qed.

Lemma calls_only_lift {S1 S2 : sig} `{!Subsig S1 S2} {A} (P : act S2 → Prop) (p : prog S1 A) :
  calls_only (λ o, P (inj o)) p → calls_only P (lift p).
Proof. induction p as [a|o k IH]; simpl; [done|]. intros [? ?]; eauto. Qed.

(** [a] is a possible result of the program, for some answers to its calls. *)
Fixpoint may_return {S : sig} {A} (p : prog S A) (a : A) : Prop :=
  match p with
  | Ret b => b = a
  | Act o k => ∃ r, may_return (k r) a
  end.

Lemma may_return_bind {S : sig} {A B} (p : prog S A) (f : A → prog S B) b :
  may_return (bind p f) b → ∃ a, may_return p a ∧ may_return (f a) b.
Proof.
  induction p as [a|o k IH]; simpl; [by exists a|].
  intros [r (a & ? & ?)%IH]. exists a. split; [by exists r|done].
Qed.

Lemma may_return_lift {S1 S2 : sig} `{!Subsig S1 S2} {A} (p : prog S1 A) a :
  may_return (lift p) a → may_return p a.
Proof. induction p as [b|o k IH]; simpl; [done|]. intros [r H%IH]. by eexists. Qed.

Lemma wp_may_return {S : sig} {W A} `{!Sem S W} (p : prog S A) (w : W) :
  wp p (λ a _, may_return p a) w.
Proof.
  revert w. induction p as [a|o k IH]; intros w; [done|]. split; [done|]. intros r w' _.
  eapply wpi_mono; [apply IH|done|]. intros a w2 _ H. by exists r.
Qed.

Lemma calls_only_steps {S : sig} {W} `{!Sem S W} {A} (P : act S → Prop) (p p' : prog S A) w w' :
  calls_only P p → rtc pstep (p, w) (p', w') → calls_only P p'.
Proof.
  intros H Hs. remember (p, w) as c eqn:Ec. remember (p', w') as c' eqn:Ec'.
  revert p w Ec H. induction Hs as [c|c1 [p2 w2] c3 Hs1 _ IH]; intros p w -> H.
  - by simplify_eq.
  - apply (IH Ec' p2 w2 eq_refl). destruct p as [a|o k]; [done|].
    unfold pstep in Hs1; simpl in Hs1. destruct Hs1 as (r & _ & ->). apply H.
Qed.

(** Where every operation a program may perform has an answer, no run gets stuck. *)
Lemma calls_only_progress {S : sig} {W} `{!Sem S W} {A} (P : act S → Prop) (p p' : prog S A) w w' :
  (∀ o w, P o → ∃ r w', sem o w r w') →
  calls_only P p → rtc pstep (p, w) (p', w') → (∃ a, p' = Ret a) ∨ ∃ c, pstep (p', w') c.
Proof.
  intros HP Hp Hs. apply (calls_only_steps P) in Hs; [|done].
  destruct p' as [a|o k]; [eauto|right]. destruct Hs as [Ho _].
  destruct (HP o w' Ho) as (r & w2 & Hr). by exists (k r, w2), r.
Qed.

Lemma each_calls_only {S : sig} {W} `{!Sem S W} {A} (P : act S → W → Prop) (p : prog S A) w :
  calls_only (λ o, ∀ w, P o w) p → each P p w.
Proof. revert w. induction p as [a|o k IH]; simpl; [done|]. intros w [? ?]; auto. Qed.

(** A program performs at most [n] operations satisfying [P]. *)
Fixpoint at_most {S : sig} {A} (P : act S → bool) (n : nat) (p : prog S A) : Prop :=
  match p with
  | Ret _ => True
  | Act o k =>
      if P o then match n with O => False | Datatypes.S m => ∀ r, at_most P m (k r) end
      else ∀ r, at_most P n (k r)
  end.

Lemma at_most_le {S : sig} {A} (P : act S → bool) n m (p : prog S A) :
  (n ≤ m)%nat → at_most P n p → at_most P m p.
Proof.
  revert n m. induction p as [a|o k IH]; simpl; intros n m Hle; [done|].
  destruct (P o); [|eauto]. destruct n, m; try done; try lia.
  intros H r. apply (IH r n m); [lia|done].
Qed.

Lemma at_most_bind {S : sig} {A B} (P : act S → bool) n m (p : prog S A) (f : A → prog S B) :
  at_most P n p → (∀ a, at_most P m (f a)) → at_most P (n + m) (bind p f).
Proof.
  revert n. induction p as [a|o k IH]; simpl; intros n Hp Hf.
  - eapply at_most_le; [|apply Hf]. lia.
  - destruct (P o); [|eauto]. destruct n; simpl; [done|eauto].
Qed.

Create HintDb progs.
#[export] Hint Resolve calls_only_bind calls_only_trigger calls_only_lift : progs.

(** Walk through a program without loops, for [calls_only] and [at_most] goals. *)
Ltac by_cases :=
  repeat (intros; first [done | progress hnf | split; [done|] | progress simpl | case_match]).

(** The history of a run whose environment answers anything: every operation
    performed so far, with its answer. *)
Definition event (S : sig) : Type := { o : act S & res o }.

Definition traced {S : sig} : Sem S (list (event S)) :=
  λ o w r w', w' = w ++ [existT o r].

(** A history replayed in another world. *)
Fixpoint replay {S : sig} {W} `{!Sem S W} (w : W) (tr : list (event S)) (w' : W) : Prop :=
  match tr with
  | [] => w' = w
  | ev :: tr => ∃ w1, sem (projT1 ev) w (projT2 ev) w1 ∧ replay w1 tr w'
  end.

(** What holds of every history holds of the histories of any world. *)
Lemma traced_replay {S : sig} {W A} `{HS : !Sem S W} (p : prog S A) Q tr w :
  wp (Sem0 := traced) p Q tr →
  wp (Sem0 := HS) p (λ a w', ∃ tr', Q a (tr ++ tr') ∧ replay w tr' w') w.
Proof.
  revert tr w. induction p as [a|o k IH]; intros tr w.
  - intros [_ HQ]. split; [done|]. exists []. by rewrite app_nil_r.
  - intros [_ Hp]. split; [done|]. intros r w1 Hs.
    eapply wpi_mono; [by apply (IH r), Hp|done|]. intros a w' _ (tr' & HQ & Hr).
    exists (existT o r :: tr'). split; [by rewrite <-app_assoc in HQ|]. by exists w1.
Qed.

Section lifting.
Context {S1 S2 : sig} {W1 W2 : Type} `{!Subsig S1 S2, !Sem S1 W1, !Sem S2 W2}.
Context (get : W2 → W1) (frame : relation W2) `{!PreOrder frame}.
Hypothesis sem_inj : ∀ o w r w',
  sem (inj o) w r w' → sem o (get w) (back o r) (get w') ∧ frame w w'.

(** A component's specification holds wherever the component is used; what
    its operations do not touch ([frame]) is preserved. *)
Lemma wpi_lift {A} (p : prog S1 A) I Q w0 w :
  frame w0 w → wpi p I Q (get w) →
  wpi (lift p) (λ w', frame w0 w' ∧ I (get w'))
           (λ a w', frame w0 w' ∧ Q a (get w')) w.
Proof.
  revert w. induction p as [a|o k IH]; simpl; intros w Hf [HI H]; split; auto.
  intros r w' [Hs Hf']%sem_inj. apply IH; [by etrans|]. by apply H.
Qed.
End lifting.

(** ** Programs side by side

    Threads over one world, each performing one operation at a time, among steps of
    the environment.  [rg G p Q w]: whatever steps of [G] come before each of its
    operations, every operation of [p] is itself a step of [G], and what it returns
    satisfies [Q].  Threads of which this holds can be interleaved at will. *)

Section interference.
Context {S : sig} {W : Type} `{!Sem S W} (G : relation W).

Fixpoint rg {A} (p : prog S A) (Q : A → W → Prop) (w : W) : Prop :=
  match p with
  | Ret a => ∀ w1, rtc G w w1 → Q a w1
  | Act o k => ∀ w1 r w2, rtc G w w1 → sem o w1 r w2 → G w1 w2 ∧ rg (k r) Q w2
  end.

Lemma rg_steps {A} (p : prog S A) Q w w1 : rg p Q w → rtc G w w1 → rg p Q w1.
Proof.
  destruct p as [a|o k]; intros Hp Hs; [intros w2 H2|intros w2 r w3 H2]; apply Hp; by etrans.
Qed.

Lemma rg_bind {A B} (p : prog S A) (f : A → prog S B) Q w :
  rg p (λ a w', rg (f a) Q w') w → rg (bind p f) Q w.
Proof.
  revert w. induction p as [a|o k IH]; simpl; intros w Hp; [by apply Hp|].
  intros w1 r w2 H1 H2. destruct (Hp w1 r w2 H1 H2). eauto.
Qed.

Lemma rg_mono {A} (p : prog S A) (Q1 Q2 : A → W → Prop) w :
  rg p Q1 w → (∀ a w', Q1 a w' → Q2 a w') → rg p Q2 w.
Proof.
  revert w. induction p as [a|o k IH]; simpl; intros w Hp HQ; [eauto|].
  intros w1 r w2 H1 H2. destruct (Hp w1 r w2 H1 H2). eauto.
Qed.

(** A configuration: the threads started so far, and the world. *)
Definition config (A : Type) : Type := list (prog S A) * W.

Inductive interleaved {A} (start : prog S A → Prop) (env : relation W) :
    relation (config A) :=
  | starts ps w p : start p → interleaved start env (ps, w) (ps ++ [p], w)
  | turn ps w i o k r w' :
      ps !! i = Some (Act o k) → sem o w r w' →
      interleaved start env (ps, w) (<[i:=k r]> ps, w')
  | surroundings ps w w' : env w w' → interleaved start env (ps, w) (ps, w').

(** Soundness: an invariant of [G] is an invariant of the interleaving. *)
Lemma rg_sound {A} (start : prog S A → Prop) (env : relation W) (I : W → Prop) c0 c :
  (∀ w w', env w w' → G w w') → (∀ w w', I w → G w w' → I w') →
  (∀ p w, start p → I w → rg p (λ _ _, True) w) →
  rtc (interleaved start env) c0 c → c0.1 = [] → I c0.2 →
  I c.2.
Proof.
  intros Henv Hinv Hstart Hs H0 HI0.
  enough (I c.2 ∧ Forall (λ p, rg p (λ _ _, True) c.2) c.1) by tauto.
  assert (Forall (λ p, rg p (λ _ _, True) c0.2) c0.1) as Hall by by rewrite H0.
  clear H0. induction Hs as [c|c1 c2 c3 Hc _ IH]; [done|].
  enough (I c2.2 ∧ Forall (λ p, rg p (λ _ _, True) c2.2) c2.1) as [? ?] by auto.
  clear IH. destruct Hc as [ps w p Hp|ps w i o k r w' Hi Ho|ps w w' He]; cbn in *.
  - split; [done|]. apply Forall_app. split; [done|]. apply Forall_singleton. auto.
  - pose proof (Forall_lookup_1 _ _ _ _ Hall Hi w r w' (rtc_refl _ _) Ho) as [Hg Hk].
    split; [eauto|]. apply Forall_insert; [|done]. eapply list.Forall_impl; [exact Hall|].
    intros p Hp. eapply rg_steps; [exact Hp|by apply rtc_once].
  - apply Henv in He. split; [eauto|]. eapply list.Forall_impl; [exact Hall|].
    intros p Hp. eapply rg_steps; [exact Hp|by apply rtc_once].
Qed.

(** The last thread runs while the others wait. *)
Lemma interleaved_last {A} (start : prog S A → Prop) (env : relation W) ps p p' w w' :
  rtc pstep (p, w) (p', w') →
  rtc (interleaved start env) (ps ++ [p], w) (ps ++ [p'], w').
Proof.
  intros Hs. remember (p, w) as c eqn:Ec. remember (p', w') as c' eqn:Ec'.
  revert p w Ec. induction Hs as [c|c1 [p2 w2] c3 Hs1 _ IH]; intros p w ->; [by simplify_eq|].
  destruct p as [a|o k]; [done|]. unfold pstep in Hs1; simpl in Hs1. destruct Hs1 as (r & Ho & ->).
  eapply rtc_l; [|by apply (IH Ec')].
  pose proof (turn start env (ps ++ [Act o k]) w (length ps) o k r w2) as Ht.
  rewrite insert_app_r_alt, Nat.sub_diag in Ht by done. apply Ht; [|done].
  by rewrite lookup_app_r, Nat.sub_diag by done.
Qed.
End interference.
