(* ===== verification/GoLib.v ===== *)
(** * The part of Go's standard library the program uses

    Errors with their texts, byte-string functions of package [strings],
    [strconv.Atoi]/[Itoa], [path/filepath.Base], and integers at their machine
    width.  A Go string is a sequence of bytes: a Rocq [string]. *)

From S2P Require Import Prelude.
From Stdlib Require Import Ascii.
Open Scope Z_scope.

(** ** Errors *)

Inductive errno := ENOENT | EEXIST | EISDIR | ENOTDIR | EINVAL | EIO.

Definition errno_text (e : errno) : string :=
  match e with
  | ENOENT => "no such file or directory"
  | EEXIST => "file exists"
  | EISDIR => "is a directory"
  | ENOTDIR => "not a directory"
  | EINVAL => "invalid argument"
  | EIO => "input/output error"
  end.

(** A path below the device's data directory, as its list of components. *)
Abbreviation path := (list string) (only parsing).
Definition path_text (p : list string) : string := String.concat "/" p.

(** The error values of the program: [*fs.PathError], [errors.New] and
    [fmt.Errorf] without [%w], [fmt.Errorf] with a final [%w], and the sentinel
    [ErrConflict] of the Kubernetes client. *)
Inductive goerr :=
  | PathError (op : string) (p : list string) (no : errno)
  | Errorf (text : string)
  | Wrapf (prefix : string) (e : goerr)
  | ErrConflict.

Global Instance errno_eq_dec : EqDecision errno.
Proof. solve_decision. Defined.
Global Instance goerr_eq_dec : EqDecision goerr.
Proof. solve_decision. Defined.

Fixpoint Error (e : goerr) : string :=
  match e with
  | PathError op p no => op +:+ " " +:+ path_text p +:+ ": " +:+ errno_text no
  | Errorf t => t
  | Wrapf pre e' => pre +:+ Error e'
  | ErrConflict => "resource version conflict (409)"
  end.

(** [os.IsNotExist] looks at the error itself, not through [%w] wrapping. *)
Definition IsNotExist (e : goerr) : bool :=
  match e with PathError _ _ ENOENT => true | _ => false end.

(** [errors.Is(err, ErrConflict)] follows the wrapping chain. *)
Fixpoint IsConflict (e : goerr) : bool :=
  match e with ErrConflict => true | Wrapf _ e' => IsConflict e' | _ => false end.

(** [fmt.Errorf(pre + "%w", e)] for a possibly nil [e]. *)
Definition Errorf_w (pre : string) (e : option goerr) : goerr :=
  match e with Some e => Wrapf pre e | None => Errorf (pre +:+ "%!w(<nil>)") end.

(** ** Strings *)

(** [strings.CutPrefix]: what follows [pre] in [s], if [s] starts with it. *)
Fixpoint CutPrefix (s pre : string) : option string :=
  match pre, s with
  | EmptyString, _ => Some s
  | String a pre', String b s' => if decide (a = b) then CutPrefix s' pre' else None
  | String _ _, EmptyString => None
  end.

Definition HasPrefix (s pre : string) : bool :=
  match CutPrefix s pre with Some _ => true | None => false end.

Definition TrimPrefix (s pre : string) : string := default s (CutPrefix s pre).

Definition TrimSuffix (s suf : string) : string :=
  match CutPrefix (String.rev s) (String.rev suf) with
  | Some r => String.rev r
  | None => s
  end.

(** [strings.Split(s, sep)] for a one-byte separator. *)
Fixpoint Split (s : string) (sep : ascii) : list string :=
  match s with
  | EmptyString => [EmptyString]
  | String a s' =>
      if decide (a = sep) then EmptyString :: Split s' sep
      else match Split s' sep with
           | l :: ls => String a l :: ls
           | [] => [String a EmptyString]
           end
  end.

Definition bytes (l : list nat) : string :=
  String.string_of_list_ascii (map ascii_of_nat l).

(** The UTF-8 encodings of the code points with Unicode's White_Space property. *)
Definition spaces : list string :=
  map bytes
    [[9]; [10]; [11]; [12]; [13]; [32]; [194; 133]; [194; 160]; [225; 154; 128];
     [226; 128; 128]; [226; 128; 129]; [226; 128; 130]; [226; 128; 131];
     [226; 128; 132]; [226; 128; 133]; [226; 128; 134]; [226; 128; 135];
     [226; 128; 136]; [226; 128; 137]; [226; 128; 138]; [226; 128; 168];
     [226; 128; 169]; [226; 128; 175]; [226; 129; 159]; [227; 128; 128]]%nat.

(** Drop any of the sequences [seqs] from the front of [s], repeatedly; every
    round drops at least one byte, so the length of [s] is enough fuel. *)
Fixpoint trim_left (fuel : nat) (seqs : list string) (s : string) : string :=
  match fuel with
  | O => s
  | S fuel' =>
      match list_find (λ p, HasPrefix s p = true) seqs with
      | Some (_, p) => trim_left fuel' seqs (TrimPrefix s p)
      | None => s
      end
  end.

Definition TrimLeftSpace (s : string) : string :=
  trim_left (String.length s) spaces s.
Definition TrimRightSpace (s : string) : string :=
  String.rev (trim_left (String.length s) (map String.rev spaces) (String.rev s)).

(** [strings.TrimSpace].  UTF-8 is self-synchronising, so decoding the last rune
    of the text is finding one of the encodings at its end. *)
Definition TrimSpace (s : string) : string := TrimRightSpace (TrimLeftSpace s).

(** [filepath.Base]: the last element of a path, without trailing slashes. *)
Definition Base (p : string) : string :=
  match p with
  | EmptyString => "."
  | _ =>
      match filter (λ c, c ≠ EmptyString) (Split p "/") with
      | [] => "/"
      | cs => List.last cs EmptyString
      end
  end.

(** [strings] comparison [a < b]: bytewise lexicographic order. *)
Definition string_lt (a b : string) : bool := String.ltb a b.

(** ** Integers *)

Definition wrap (w : Z) (z : Z) : Z := (z + 2 ^ (w - 1)) mod 2 ^ w - 2 ^ (w - 1).
Definition int32 : Z → Z := wrap 32.
Definition int64 : Z → Z := wrap 64.
Definition MaxInt64 : Z := 2 ^ 63 - 1.
Definition MinInt64 : Z := - 2 ^ 63.
Definition fits (w z : Z) : Prop := - 2 ^ (w - 1) ≤ z < 2 ^ (w - 1).

Definition digit (a : ascii) : option Z :=
  let n := Z.of_N (N_of_ascii a) in
  if (48 <=? n) && (n <=? 57) then Some (n - 48) else None.

(** The loop of [strconv.ParseUint] in base 10: it stops at the first digit that
    takes the value past 64 bits, before it looks at the rest of the text. *)
Fixpoint digits (acc : Z) (s : string) : option Z :=
  match s with
  | EmptyString => Some acc
  | String a s' =>
      match digit a with
      | Some d => let n := acc * 10 + d in
                  if 2 ^ 64 <=? n then Some n else digits n s'
      | None => None
      end
  end.

(** [strconv.Atoi] with its error dropped ([n, _ := strconv.Atoi(s)]): 0 on a
    syntax error, the nearest bound when the number is out of range. *)
Definition Atoi (s : string) : Z :=
  let value s := match s with EmptyString => None | _ => digits 0 s end in
  match s with
  | String "-" s' =>
      match value s' with Some n => Z.max MinInt64 (- n) | None => 0 end
  | String "+" s' =>
      match value s' with Some n => Z.min MaxInt64 n | None => 0 end
  | _ => match value s with Some n => Z.min MaxInt64 n | None => 0 end
  end.

(** [strconv.ParseInt(s, 10, 64)]; every error is [None]. *)
Definition ParseInt (s : string) : option Z :=
  let value s := match s with EmptyString => None | _ => digits 0 s end in
  match s with
  | String "-" s' => n ← value s'; if n <=? 2 ^ 63 then Some (- n) else None
  | String "+" s' => n ← value s'; if n <? 2 ^ 63 then Some n else None
  | _ => n ← value s; if n <? 2 ^ 63 then Some n else None
  end.

Definition Itoa (z : Z) : string := pretty z.

(** ** Facts *)

Lemma wrap_id w z : 0 < w → fits w z → wrap w z = z.
Proof.
  intros Hw [? ?]. unfold wrap.
  assert (2 ^ w = 2 * 2 ^ (w - 1)) as -> by (rewrite <- Z.pow_succ_r by lia; f_equal; lia).
  rewrite Z.mod_small; lia.
Qed.

Lemma wrap_fits w z : 0 < w → fits w (wrap w z).
Proof.
  intros Hw. unfold fits, wrap.
  assert (2 ^ w = 2 * 2 ^ (w - 1)) as -> by (rewrite <- Z.pow_succ_r by lia; f_equal; lia).
  pose proof (Z.mod_pos_bound (z + 2 ^ (w - 1)) (2 * 2 ^ (w - 1))).
  assert (0 < 2 ^ (w - 1)) by (apply Z.pow_pos_nonneg; lia). lia.
Qed.

Lemma app_assoc_str (a b c : string) : (a +:+ b) +:+ c = a +:+ (b +:+ c).
Proof.
  induction a as [|x a IH]; [done|]. change (String x ((a +:+ b) +:+ c) = String x (a +:+ (b +:+ c))).
  by rewrite IH.
Qed.

Lemma app_nil_str (a : string) : a +:+ "" = a.
Proof. induction a as [|x a IH]; [done|]. change (String x (a +:+ "") = String x a). by rewrite IH. Qed.

Lemma CutPrefix_app pre s : CutPrefix (pre +:+ s) pre = Some s.
Proof.
  induction pre as [|a pre IH]; [by destruct s|].
  change (String a pre +:+ s) with (String a (pre +:+ s)); simpl. by rewrite decide_True.
Qed.

Lemma TrimPrefix_app pre s : TrimPrefix (pre +:+ s) pre = s.
Proof. unfold TrimPrefix. by rewrite CutPrefix_app. Qed.

Lemma digits_char n s acc :
  (n < 10)%N → acc * 10 + Z.of_N n < 2 ^ 64 →
  digits acc (String (pretty_N_char n) s) = digits (acc * 10 + Z.of_N n) s.
Proof.
  intros Hn Hb. assert (digit (pretty_N_char n) = Some (Z.of_N n)) as E.
  { assert (n = 0 ∨ n = 1 ∨ n = 2 ∨ n = 3 ∨ n = 4 ∨ n = 5 ∨ n = 6 ∨ n = 7 ∨ n = 8 ∨ n = 9)%N
      as Hc by lia. by repeat destruct Hc as [->|Hc]; subst. }
  cbn [digits]. rewrite E. cbv zeta. by destruct (Z.leb_spec (2 ^ 64) (acc * 10 + Z.of_N n)); [lia|].
Qed.

(** Reading back what [strconv.Itoa] printed, with more text behind. *)
Lemma digits_go x s : Z.of_N x < 2 ^ 64 → digits 0 (pretty_N_go x s) = digits (Z.of_N x) s.
Proof.
  revert s. induction (N.lt_wf_0 x) as [x _ IH]; intros s Hx.
  destruct (decide (x = 0)%N) as [->|Hn]; [by rewrite pretty_N_go_0|].
  rewrite pretty_N_go_step by lia.
  pose proof (N.mod_lt x 10 ltac:(done)) as Hm.
  assert (Z.of_N x = Z.of_N (x `div` 10) * 10 + Z.of_N (x `mod` 10)) as Hx'
    by (rewrite (N.div_mod x 10) at 1 by done; lia).
  pose proof (N2Z.is_nonneg (x `div` 10)). pose proof (N2Z.is_nonneg (x `mod` 10)).
  assert (Z.of_N (x `div` 10) < 2 ^ 64) by lia.
  rewrite IH; [|apply N.div_lt; lia|done].
  by rewrite digits_char, Hx' by lia.
Qed.

Lemma digits_Itoa z : 0 ≤ z < 2 ^ 64 → digits 0 (Itoa z) = Some z.
Proof.
  intros [H0 Hb]. unfold Itoa, pretty, pretty_Z. destruct z as [|p|p]; [done| |lia].
  unfold pretty, pretty_positive, pretty, pretty_N. rewrite decide_False by done.
  by rewrite digits_go by done.
Qed.

Definition decimal (s : string) : Prop :=
  s ≠ "" ∧ Forall (λ a, is_Some (digit a)) (String.list_ascii_of_string s).

Lemma digits_decimal acc s n :
  digits acc s = Some n → n < 2 ^ 64 → Forall (λ a, is_Some (digit a)) (String.list_ascii_of_string s).
Proof.
  revert acc. induction s as [|a s IH]; intros acc E Hn; [constructor|]. cbn [digits] in E.
  destruct (digit a) as [d|] eqn:Ed; [|done]. cbv zeta in E.
  destruct (Z.leb_spec (2 ^ 64) (acc * 10 + d)); [simplify_eq; lia|].
  constructor; [by eexists|by eapply IH].
Qed.

Lemma Itoa_decimal z : 0 ≤ z < 2 ^ 64 → decimal (Itoa z).
Proof.
  intros H. pose proof (digits_Itoa z H) as E. split.
  - intros Hz. rewrite Hz in E. injection E as <-. discriminate Hz.
  - eapply digits_decimal; [exact E|lia].
Qed.

Lemma ParseInt_decimal s n : decimal s → digits 0 s = Some n → n < 2 ^ 63 → ParseInt s = Some n.
Proof.
  intros [Hs Hd] E Hn. unfold ParseInt. destruct s as [|a s]; [done|].
  inversion Hd as [|? ? [d Ha] _]; subst.
  assert (∀ r, r = digits 0 (String a s) →
    (m ← r; if m <? 2 ^ 63 then Some m else None) = Some n) as Hr.
  { intros r ->. rewrite E. cbn. by destruct (Z.ltb_spec n (2 ^ 63)); [|lia]. }
  destruct a as [[] [] [] [] [] [] [] []]; try discriminate Ha; by apply Hr.
Qed.

Lemma ParseInt_Itoa z : 0 ≤ z < 2 ^ 63 → ParseInt (Itoa z) = Some z.
Proof.
  intros [H0 Hb]. assert (2 ^ 63 < 2 ^ 64) by done.
  apply ParseInt_decimal; [apply Itoa_decimal; lia|apply digits_Itoa; lia|done].
Qed.

Example TrimSpace_ex : TrimSpace (bytes [32; 10; 50; 46; 48; 32; 226; 128; 169]%nat) = "2.0".
Proof. reflexivity. Qed.
Example Atoi_ex : (Atoi "0", Atoi "1", Atoi "", Atoi "-12", Atoi "x1", Atoi "99999999999999999999")
  = (0, 1, 0, -12, 0, MaxInt64).
Proof. reflexivity. Qed.
Example ParseInt_ex : (ParseInt "12", ParseInt "-0", ParseInt "", ParseInt "1x", ParseInt "9223372036854775808")
  = (Some 12, Some 0, None, None, None).
Proof. reflexivity. Qed.
(** A decimal text is not longer than its binary one, with a sign. *)
Lemma pretty_length n x s :
  (x < 2 ^ N.of_nat n)%N → (String.length (pretty_N_go x s) ≤ n + String.length s)%nat.
Proof.
  revert x s. induction n as [|n IH]; intros x s Hx.
  - assert (x = 0)%N as -> by (simpl in Hx; lia). by rewrite pretty_N_go_0.
  - destruct (N.eq_0_gt_0_cases x) as [->|Hpos]; [rewrite pretty_N_go_0; lia|].
    rewrite pretty_N_go_step by done. etrans; [apply IH|simpl; lia].
    rewrite Nat2N.inj_succ, N.pow_succ_r' in Hx. apply N.Div0.div_lt_upper_bound. lia.
Qed.

Lemma Itoa_length z : - 2 ^ 64 < z < 2 ^ 64 → (String.length (Itoa z) ≤ 65)%nat.
Proof.
  intros Hz. unfold Itoa, pretty, pretty_Z. assert (2 ^ 64 = Z.of_N (2 ^ 64)) as E by done.
  destruct z as [|p|p]; [simpl; lia|..];
    unfold pretty, pretty_positive, pretty, pretty_N; rewrite decide_False by done.
  - etrans; [apply (pretty_length 64)|simpl; lia]. change (N.of_nat 64) with 64%N. lia.
  - cbn [String.length String.append]. apply le_n_S. etrans; [apply (pretty_length 64)|simpl; lia].
    change (N.of_nat 64) with 64%N. lia.
Qed.

Lemma length_app_str s1 s2 :
  String.length (s1 +:+ s2) = (String.length s1 + String.length s2)%nat.
Proof. induction s1 as [|a s1 IH]; simpl; [done|]. by f_equal. Qed.

Example Itoa_ex : (Itoa 1, Itoa (-4), Itoa 0) = ("1", "-4", "0").
Proof. reflexivity. Qed.
Example Base_ex : (Base "slotA", Base "/x/slotB//", Base "/", Base "") = ("slotA", "slotB", "/", ".").
Proof. reflexivity. Qed.
