(* ===== verification/Fsm.v ===== *)
(** * internal/agent/fsm.go: the state machine of one firmware transaction

    [State] is the enumeration, [validTransitions] the transition table as data,
    [FSM] the machine with its observer callback, [To] the guarded move.  The
    callback acts on an observer state of type [L] (the agent's log). *)

From S2P Require Import Prelude GoLib.

Inductive State :=
  | StateIdle | StateDownloading | StateVerifying
  | StateFlashing | StateConfirming | StateFailed.

Global Instance State_eq_dec : EqDecision State.
Proof. solve_decision. Defined.

(** The string constants behind the enumeration. *)
Definition State_text (s : State) : string :=
  match s with
  | StateIdle => "Idle"
  | StateDownloading => "Downloading"
  | StateVerifying => "Verifying"
  | StateFlashing => "Flashing"
  | StateConfirming => "Confirming"
  | StateFailed => "Failed"
  end.

Definition State_of_text (t : string) : option State :=
  snd <$> list_find (λ s, State_text s = t)
    [StateIdle; StateDownloading; StateVerifying; StateFlashing; StateConfirming; StateFailed].

Global Instance State_countable : Countable State.
Proof.
  refine (inj_countable State_text State_of_text _). by intros [].
Defined.

Definition validTransitions : gmap State (list State) :=
  list_to_map
    [(StateIdle, [StateDownloading]);
     (StateDownloading, [StateVerifying; StateFailed]);
     (StateVerifying, [StateFlashing; StateFailed]);
     (StateFlashing, [StateConfirming; StateFailed]);
     (StateConfirming, [StateIdle; StateFailed]);
     (StateFailed, [StateDownloading])].

(** Indexing a Go map with an absent key yields the zero value, a nil slice. *)
Definition allowed_from (s : State) : list State := default [] (validTransitions !! s).

Section FSM.
Context {L : Type}.

Record FSM := mkFSM {
  state : State;
  onTransition : option (State → State → L → L);
  }.

Definition NewFSM (onTransition : option (State → State → L → L)) : FSM :=
  mkFSM StateIdle onTransition.

(** The body of the loop when [next] is found: notify, then move. *)
Definition move (f : FSM) (next : State) (l : L) : option goerr * FSM * L :=
  let l := match onTransition f with
       | Some hook => hook (state f) next l
       | None => l
       end in
  (None, mkFSM next (onTransition f), l).

Fixpoint To_loop (f : FSM) (next : State) (l : L) (table : list State) :
  option goerr * FSM * L :=
  match table with
  | [] => (Some (Errorf ("illegal state transition " +:+ State_text (state f)
                       +:+ " -> " +:+ State_text next)), f, l)
  | allowed :: rest =>
  if decide (next = allowed) then move f next l else To_loop f next l rest
  end.

Definition To (f : FSM) (next : State) (l : L) : option goerr * FSM * L :=
  To_loop f next l (allowed_from (state f)).

(** A sequence of attempts, each legal or not; errors are ignored, as the
    callers that only log them do. *)
Fixpoint attempts (f : FSM) (nexts : list State) (l : L) : FSM * L :=
  match nexts with
  | [] => (f, l)
  | n :: ns => let '(_, f', l') := To f n l in attempts f' ns l'
  end.
End FSM.
Global Arguments FSM : clear implicits.

(** ** Lemmas *)

Lemma To_loop_in {L} (f : FSM L) next l table :
  next ∈ table → To_loop f next l table = move f next l.
Proof.
  induction table as [|a t IH]; [set_solver|]. simpl. case_decide; [done|].
  intros [?|?]%elem_of_cons; [done|]. auto.
Qed.

Lemma To_loop_notin {L} (f : FSM L) next l table :
  next ∉ table →
  To_loop f next l table = (Some (Errorf ("illegal state transition " +:+ State_text (state f)
                             +:+ " -> " +:+ State_text next)), f, l).
Proof.
  induction table as [|a t IH]; simpl; [done|].
  intros [? ?]%not_elem_of_cons. rewrite decide_False by done. auto.
Qed.

Lemma To_legal {L} (f : FSM L) next l :
  next ∈ allowed_from (state f) → To f next l = move f next l.
Proof. apply To_loop_in. Qed.

Lemma To_illegal {L} (f : FSM L) next l :
  next ∉ allowed_from (state f) →
  To f next l = (Some (Errorf ("illegal state transition " +:+ State_text (state f)
                             +:+ " -> " +:+ State_text next)), f, l).
Proof. apply To_loop_notin. Qed.

(** ** The observed history of a machine *)

Definition record (from to : State) (l : list (State * State)) : list (State * State) :=
  l ++ [(from, to)].

(** A history starting in [s] and ending in [e]: consecutive legal moves. *)
Inductive history (s : State) : State → list (State * State) → Prop :=
  | history_nil : history s s []
  | history_snoc m e l :
      history s m l → e ∈ allowed_from m → history s e (l ++ [(m, e)]).

Lemma attempts_history s (f : FSM (list (State * State))) nexts l :
  onTransition f = Some record → history s (state f) l →
  history s (state (attempts f nexts l).1) (attempts f nexts l).2.
Proof.
  revert f l. induction nexts as [|n ns IH]; intros f l Hh Hl; simpl; [done|].
  destruct (decide (n ∈ allowed_from (state f))) as [Hin|Hnin].
  - rewrite To_legal by done. unfold move. rewrite Hh. apply IH; [done|]. by constructor.
  - rewrite To_illegal by done. by apply IH.
Qed.

Lemma history_app_inv s e l1 x l2 :
  history s e (l1 ++ x :: l2) → history s x.1 l1 ∧ x.2 ∈ allowed_from x.1.
Proof.
  intros H. remember (l1 ++ x :: l2) as l eqn:El. revert l2 El.
  induction H as [|m e l H IH He]; intros l2 El.
  - by destruct l1.
  - destruct l2 as [|y l2 _] using rev_ind.
    + apply app_inj_tail in El as [-> <-]. done.
    + rewrite app_comm_cons, app_assoc in El. apply app_inj_tail in El as [-> _].
      by apply (IH l2).
Qed.

(** The last entry of a non-empty history. *)
Lemma history_last s e l :
  history s e l → e ≠ s → ∃ m l', l = l' ++ [(m, e)] ∧ history s m l' ∧ e ∈ allowed_from m.
Proof. intros [|m e' l' ? ?] ?; [done|]. by exists m, l'. Qed.

Ltac in_table H :=
  repeat match type of H with
  | _ ∈ allowed_from ?m => is_var m; destruct m
  end; vm_compute in H;
  repeat (apply elem_of_cons in H as [H|H]; [try discriminate H|]);
  try (by apply elem_of_nil in H).

(** A state with a single predecessor is entered from that predecessor. *)
Lemma entered_from_Flashing m : StateConfirming ∈ allowed_from m → m = StateFlashing.
Proof. intros H. in_table H. done. Qed.
Lemma entered_from_Verifying m : StateFlashing ∈ allowed_from m → m = StateVerifying.
Proof. intros H. in_table H. done. Qed.
Lemma entered_from_Downloading m : StateVerifying ∈ allowed_from m → m = StateDownloading.
Proof. intros H. in_table H. done. Qed.

(** ** Properties *)

(** [FSM.To] moves exactly along the transition table.  A legal move returns
    nil, changes the state to [next] and calls the observer once with
    [(from, next)], before the state changes; an illegal one returns the error
    text naming both states and leaves machine and observer untouched. *)
Theorem To_spec {L} (f : FSM L) next l :
  To f next l =
    if decide (next ∈ allowed_from (state f)) then
      (None, mkFSM next (onTransition f),
       match onTransition f with Some hook => hook (state f) next l | None => l end)
    else
      (Some (Errorf ("illegal state transition " +:+ State_text (state f)
                       +:+ " -> " +:+ State_text next)), f, l).
Proof. case_decide; [by apply To_legal|by apply To_illegal]. Qed.

(** C21. Verification is never skipped: whatever moves are attempted on a new
    machine, legal or not, every entry into [Confirming] in the observed history
    is immediately preceded by download, verification and flashing. *)
Theorem verification_never_skipped nexts from before after :
  (attempts (NewFSM (Some record)) nexts []).2
    = before ++ (from, StateConfirming) :: after →
  from = StateFlashing ∧
  ∃ start earlier,
    before = earlier ++ [(start, StateDownloading);
                         (StateDownloading, StateVerifying);
                         (StateVerifying, StateFlashing)].
Proof.
  intros E. pose proof (attempts_history StateIdle (NewFSM (Some record)) nexts [] eq_refl
    (history_nil _)) as H. rewrite E in H.
  apply history_app_inv in H as [H Hin]; simpl in *.
  apply entered_from_Flashing in Hin as ->. split; [done|].
  apply history_last in H as (m & l1 & -> & H & ->%entered_from_Verifying); [|done].
  apply history_last in H as (m & l2 & -> & H & ->%entered_from_Downloading); [|done].
  apply history_last in H as (m & l3 & -> & _ & _); [|done].
  exists m, l3. by rewrite <-!app_assoc.
Qed.

Lemma verification_never_skipped_witness :
  StateFlashing = StateFlashing ∧
  ∃ start earlier,
    [(StateIdle, StateDownloading); (StateDownloading, StateVerifying);
     (StateVerifying, StateFlashing)]
    = earlier ++ [(start, StateDownloading); (StateDownloading, StateVerifying);
                  (StateVerifying, StateFlashing)].
Proof.
  apply (verification_never_skipped
    [StateFlashing; StateDownloading; StateFlashing; StateVerifying; StateFlashing;
     StateConfirming; StateIdle] _ _ [(StateConfirming, StateIdle)]).
  reflexivity.
Defined.
