(* ===== verification/Sha256.v ===== *)
(** * crypto/sha256 and encoding/hex

    The digest the agent compares at every boundary where firmware bits moved,
    as FIPS 180-4 defines it, on byte strings; checked below on the standard's
    test vectors.  Proofs use only that a digest is 64 hexadecimal digits
    ([Completion]), not how it is computed. *)

From S2P Require Import Prelude GoLib.
From Stdlib Require Import Ascii NArith.
Open Scope N_scope.

Definition w32 (x : N) : N := N.land x 0xffffffff.
Definition add32 (x y : N) : N := w32 (x + y).
Definition rotr (n x : N) : N := N.lor (N.shiftr x n) (w32 (N.shiftl x (32 - n))).
Definition not32 (x : N) : N := N.lxor x 0xffffffff.

Definition Ch (x y z : N) : N := N.lxor (N.land x y) (N.land (not32 x) z).
Definition Maj (x y z : N) : N := N.lxor (N.lxor (N.land x y) (N.land x z)) (N.land y z).
Definition bsig0 (x : N) : N := N.lxor (N.lxor (rotr 2 x) (rotr 13 x)) (rotr 22 x).
Definition bsig1 (x : N) : N := N.lxor (N.lxor (rotr 6 x) (rotr 11 x)) (rotr 25 x).
Definition ssig0 (x : N) : N := N.lxor (N.lxor (rotr 7 x) (rotr 18 x)) (N.shiftr x 3).
Definition ssig1 (x : N) : N := N.lxor (N.lxor (rotr 17 x) (rotr 19 x)) (N.shiftr x 10).

(** The constants of the standard are the leading fractional bits of the roots of
    the first primes; they are computed here. *)
Definition prime (n : nat) : bool :=
  bool_decide (Forall (λ d, n mod d ≠ 0)%nat (seq 2 (n - 2))).

Definition primes : list N := N.of_nat <$> filter (λ n, prime n = true) (seq 2 310).

(** The integer cube root of [n], bit by bit from the [bits]-th. *)
Fixpoint cube_root (bits : nat) (n r : N) : N :=
  let r' := r + 2 ^ N.of_nat bits in
  let r := if r' * r' * r' <=? n then r' else r in
  match bits with O => r | S b => cube_root b n r end.

Definition K : list N :=
  Eval vm_compute in (λ p, w32 (cube_root 35 (p * 2 ^ 96) 0)) <$> primes.

Definition H0 : list N :=
  Eval vm_compute in (λ p, w32 (N.sqrt (p * 2 ^ 64))) <$> take 8 primes.

(** Padding: a one bit, zeros, and the bit length in 64 bits. *)
Definition be_bytes (n : nat) (x : N) : list N :=
  map (λ i, N.land (N.shiftr x (8 * N.of_nat i)) 255) (reverse (seq 0 n)).

Definition pad (m : list N) : list N :=
  let l := length m in
  let z := ((119 - l mod 64) mod 64)%nat in
  m ++ [0x80] ++ replicate z 0 ++ be_bytes 8 (8 * N.of_nat l).

Fixpoint words (fuel : nat) (l : list N) : list N :=
  match fuel, l with
  | S f, a :: b :: c :: d :: r =>
      N.lor (N.shiftl a 24) (N.lor (N.shiftl b 16) (N.lor (N.shiftl c 8) d)) :: words f r
  | _, _ => []
  end.

(** The message schedule, kept newest first while it is extended. *)
Fixpoint schedule (n : nat) (rw : list N) : list N :=
  match n with
  | O => rw
  | S n' =>
      let w := add32 (add32 (ssig1 (nth 1 rw 0)) (nth 6 rw 0))
                     (add32 (ssig0 (nth 14 rw 0)) (nth 15 rw 0)) in
      schedule n' (w :: rw)
  end.

Definition round (st : list N) (kw : N * N) : list N :=
  match st with
  | [a; b; c; d; e; f; g; h] =>
      let t1 := add32 (add32 (add32 h (bsig1 e)) (Ch e f g)) (add32 kw.1 kw.2) in
      let t2 := add32 (bsig0 a) (Maj a b c) in
      [add32 t1 t2; a; b; c; add32 d t1; e; f; g]
  | _ => st
  end.

Definition compress (st block : list N) : list N :=
  zip_with add32 st (foldl round st (zip K (reverse (schedule 48 (reverse block))))).

Fixpoint blocks (fuel : nat) (st ws : list N) : list N :=
  match fuel, ws with
  | S f, _ :: _ => blocks f (compress st (take 16 ws)) (drop 16 ws)
  | _, _ => st
  end.

Definition sha256_bytes (m : list N) : list N :=
  let ws := words (length (pad m)) (pad m) in
  flat_map (be_bytes 4) (blocks (length ws) H0 ws).

Definition string_bytes (s : string) : list N := map N_of_ascii (String.list_ascii_of_string s).

Definition sha256 (s : string) : string :=
  String.string_of_list_ascii (map ascii_of_N (sha256_bytes (string_bytes s))).

Definition hex_digit (n : N) : ascii :=
  ascii_of_N (if n <? 10 then 48 + n else 87 + n).

(** [hex.EncodeToString]: two lower-case digits a byte. *)
Fixpoint hex_encode (s : string) : string :=
  match s with
  | EmptyString => EmptyString
  | String a s' =>
      let n := N_of_ascii a in
      String (hex_digit (n / 16)) (String (hex_digit (n mod 16)) (hex_encode s'))
  end.

(** The digest as the agent writes it: [hex.EncodeToString(h.Sum(nil))]. *)
Definition sha256hex (s : string) : string := hex_encode (sha256 s).
Global Arguments sha256hex : simpl never.

Example sha256_empty :
  sha256hex "" = "e3b0c44298fc1c149afbf4c8996fb92427ae41e4649b934ca495991b7852b855".
Proof. vm_compute. reflexivity. Qed.
Example sha256_abc :
  sha256hex "abc" = "ba7816bf8f01cfea414140de5dae2223b00361a396177a9cb410ff61f20015ad".
Proof. vm_compute. reflexivity. Qed.
Example sha256_two_blocks :
  sha256hex "abcdbcdecdefdefgefghfghighijhijkijkljklmklmnlmnomnopnopq"
  = "248d6a61d20638b8e5c026930c3e6039a33ce45964ff2167f6ecedd419db06c1".
Proof. vm_compute. reflexivity. Qed.
