(* ===== verification/Os.v ===== *)
(** * Package os: the device's file system

    The data directory of one device as a map from paths to nodes, the system
    calls the agent makes on it, and how each can fail.  Writes are ordered and
    durable: a crash loses what was not yet issued, and a write it interrupts
    leaves a prefix of its data.  (The kernel's write-back cache is outside the
    model; the program issues no fsync.) *)

From S2P Require Import Prelude GoLib.
Open Scope Z_scope.

Inductive node :=
  | File (data : string)
  | Link (target : string)
  | Dir.

Global Instance node_eq_dec : EqDecision node.
Proof. solve_decision. Defined.

Abbreviation fs := (gmap (list string) node).

Implicit Types (s : fs) (p q : list string).

(** What the environment does to one call: nothing, fail it without effect, or
    (for a call that writes file data) fail it after the first [n] bytes. *)
Inductive fault := NoFault | Fails | Partial (n : nat).

Inductive fsop :=
  | MkdirAll p | Lstat p | Stat p | Readlink p | ReadFile p
  | WriteFile p (data : string) | Remove p | Symlink (target : string) p | Rename p q
  | Open p | Create p | OpenAppend p
  | ReadAll p                       (* io.Copy from an open file to its end *)
  | ReadFrom (dst src : list string)  (* ReadFrom of package os, between open files *)
  | Write p (data : string) | Close p.

Definition fsres (o : fsop) : Type :=
  match o with
  | Stat _ | ReadFrom _ _ => result goerr Z
  | Readlink _ | ReadFile _ | ReadAll _ => result goerr string
  | _ => option goerr
  end.

Definition fsS : sig := Sig fsop fsres.

(** The node a path names after following a final symbolic link. *)
Definition resolve s p : list string :=
  match s !! p with
  | Some (Link t) => removelast p ++ [t]
  | _ => p
  end.

Definition parent_ok s p : bool :=
  match removelast p with
  | [] => true
  | d => bool_decide (s !! d = Some Dir)
  end.

Definition str_take (n : nat) (d : string) : string := String.substring 0 n d.
Definition str_len (d : string) : Z := Z.of_nat (String.length d).

(** The data a write leaves behind and the error it returns. *)
Definition written (f : fault) (data : string) (e : goerr) : option (string * option goerr) :=
  match f with
  | NoFault => Some (data, None)
  | Fails => None
  | Partial n => Some (str_take n data, Some e)
  end.

(** Open for writing ([os.WriteFile], [os.Create], [os.OpenFile]): the error, or
    the path of the file that is opened (created if absent). *)
Definition open_write s (op : string) p : result goerr (list string) :=
  let q := resolve s p in
  match s !! q with
  | Some Dir => Err (PathError op p EISDIR)
  | Some _ => Ok q
  | None => if parent_ok s q then Ok q else Err (PathError op p ENOENT)
  end.

Definition read_file s (op : string) p : result goerr string :=
  match s !! resolve s p with
  | Some (File d) => Ok d
  | Some Dir => Err (PathError op p EISDIR)
  | Some (Link _) | None => Err (PathError op p ENOENT)
  end.

Definition exists_node s (op : string) p : option goerr :=
  match s !! p with Some _ => None | None => Some (PathError op p ENOENT) end.

Definition contents s p : string :=
  match s !! resolve s p with Some (File d) => d | _ => "" end.

Definition mkdir s p : option goerr * fs :=
  match s !! p with
  | Some Dir => (None, s)
  | Some _ => (Some (PathError "mkdir" p ENOTDIR), s)
  | None => if parent_ok s p then (None, <[p := Dir]> s)
            else (Some (PathError "mkdir" p ENOENT), s)
  end.

Definition remove s p : option goerr * fs :=
  match s !! p with
  | None => (Some (PathError "remove" p ENOENT), s)
  | Some Dir =>
      if decide (Forall (λ kn, removelast kn.1 ≠ p) (map_to_list s))
      then (None, delete p s) else (Some (PathError "remove" p EEXIST), s)
  | Some _ => (None, delete p s)
  end.

Definition symlink s (target : string) p : option goerr * fs :=
  match s !! p with
  | Some _ => (Some (PathError "symlink" p EEXIST), s)
  | None => if parent_ok s p then (None, <[p := Link target]> s)
            else (Some (PathError "symlink" p ENOENT), s)
  end.

(** rename(2) of a file or a link; it replaces a file or link at the target. *)
Definition rename s p q : option goerr * fs :=
  match s !! p, s !! q with
  | None, _ => (Some (PathError "rename" p ENOENT), s)
  | Some _, Some Dir => (Some (PathError "rename" p EEXIST), s)
  | Some n, _ => if parent_ok s q then (None, <[q := n]> (delete p s))
                 else (Some (PathError "rename" p ENOENT), s)
  end.

(** The effect of [data] being written to the open file [q] with prior content
    [old]: the return value and the new store. *)
Definition put {A} s q (old : string) (f : fault) (data : string) (e : goerr)
    (ret : string → option goerr → A) (failed : A) : A * fs :=
  match written f data e with
  | Some (d, r) => (ret d r, <[q := File (old +:+ d)]> s)
  | None => (failed, s)
  end.

(** One system call under one fault. *)
Definition fs_exec (f : fault) (o : fsop) s : fsres o * fs :=
  let eio op p := PathError op p EIO in
  match o with
  | MkdirAll p => match f with NoFault => mkdir s p | _ => (Some (eio "mkdir" p), s) end
  | Lstat p => match f with NoFault => (exists_node s "lstat" p, s)
                          | _ => (Some (eio "lstat" p), s) end
  | Stat p =>
      match f with
      | NoFault =>
          match s !! resolve s p with
          | Some _ => (Ok (str_len (contents s p)), s)
          | None => (Err (PathError "stat" p ENOENT), s)
          end
      | _ => (Err (eio "stat" p), s)
      end
  | Readlink p =>
      match f with
      | NoFault =>
          match s !! p with
          | Some (Link t) => (Ok t, s)
          | Some _ => (Err (PathError "readlink" p EINVAL), s)
          | None => (Err (PathError "readlink" p ENOENT), s)
          end
      | _ => (Err (eio "readlink" p), s)
      end
  | ReadFile p => match f with NoFault => (read_file s "open" p, s)
                             | _ => (Err (eio "read" p), s) end
  | WriteFile p data =>
      match open_write s "open" p with
      | Err e => (Some e, s)
      | Ok q => put s q "" f data (eio "write" p) (λ _ r, r) (Some (eio "open" p))
      end
  | Remove p => match f with NoFault => remove s p | _ => (Some (eio "remove" p), s) end
  | Symlink t p => match f with NoFault => symlink s t p | _ => (Some (eio "symlink" p), s) end
  | Rename p q => match f with NoFault => rename s p q | _ => (Some (eio "rename" p), s) end
  | Open p =>
      match f with
      | NoFault =>
          match s !! resolve s p with
          | Some _ => (None, s)
          | None => (Some (PathError "open" p ENOENT), s)
          end
      | _ => (Some (eio "open" p), s)
      end
  | Create p =>
      match f, open_write s "open" p with
      | NoFault, Ok q => (None, <[q := File ""]> s)
      | NoFault, Err e => (Some e, s)
      | _, _ => (Some (eio "open" p), s)
      end
  | OpenAppend p =>
      match f, open_write s "open" p with
      | NoFault, Ok q =>
          (None, match s !! q with None => <[q := File ""]> s | Some _ => s end)
      | NoFault, Err e => (Some e, s)
      | _, _ => (Some (eio "open" p), s)
      end
  | ReadAll p => match f with NoFault => (read_file s "read" p, s)
                            | _ => (Err (eio "read" p), s) end
  | ReadFrom dst src =>
      put s (resolve s dst) (contents s dst) f (contents s src) (eio "write" dst)
        (λ d r, match r with None => Ok (str_len d) | Some e => Err e end)
        (Err (eio "write" dst))
  | Write p data =>
      put s (resolve s p) (contents s p) f data (eio "write" p) (λ _ r, r)
        (Some (eio "write" p))
  | Close p => match f with NoFault => (None, s) | _ => (Some (eio "close" p), s) end
  end.

(** ** Fault models *)

Definition policy := fsop → fault → Prop.

Definition fs_sem (P : policy) : Sem fsS fs :=
  λ o s r s', ∃ f, P o f ∧ fs_exec f o s = (r, s').

(** No call ever fails for an external reason. *)
Definition fault_free : policy := λ _ f, f = NoFault.

Definition is_read (o : fsop) : bool :=
  match o with
  | Lstat _ | Stat _ | Readlink _ | ReadFile _ | Open _ | ReadAll _ => true
  | _ => false
  end.

(** Reading what is on disk succeeds; every call that writes may fail, with or
    without a partial effect. *)
Definition write_faults : policy := λ o f, is_read o = true → f = NoFault.

(** Any call may fail. *)
Definition any_fault : policy := λ _ _, True.

(** Any call may fail except [os.Remove] of what is there. *)
Definition removes_succeed : policy :=
  λ o f, match o with Remove _ => f = NoFault | _ => is_read o = true → f = NoFault end.

Lemma wpi_policy_mono (P1 P2 : policy) {A} (p : prog fsS A) I Q s :
  (∀ o f, P2 o f → P1 o f) →
  wpi (Sem0 := fs_sem P1) p I Q s → wpi (Sem0 := fs_sem P2) p I Q s.
Proof.
  intros HP. revert s. induction p as [a|o k IH]; simpl; intros s [HI H]; [done|].
  split; [done|]. intros r s' (f & Hf & E). apply IH, H. exists f. eauto.
Qed.

(** Execution without faults. *)
Definition fs_run (o : act fsS) s : option (res o * fs) := Some (fs_exec NoFault o s).

Lemma fs_run_handles : handles (Sem0 := fs_sem fault_free) fs_run.
Proof. intros o s r s' [= E]. by exists NoFault. Qed.

Lemma fs_run_total {A} (p : prog fsS A) s : ∃ a s', run fs_run p s = Some (a, s').
Proof. revert s. induction p as [a|o k IH]; intros s; simpl; [by exists a, s|].
  destruct (fs_exec NoFault o s). apply IH.
Qed.

(** Execution under the listed faults, one per call; it stops with the list, as
    a device does that loses power after that many calls. *)
Fixpoint run_with {A} (fl : list fault) (p : prog fsS A) s : prog fsS A * fs :=
  match fl, p with
  | f :: fl', Act o k => let (r, s') := fs_exec f o s in run_with fl' (k r) s'
  | _, _ => (p, s)
  end.

(** The faults met on the way are allowed by the policy. *)
Fixpoint permitted {A} (P : policy) (fl : list fault) (p : prog fsS A) s : Prop :=
  match fl, p with
  | f :: fl', Act o k => P o f ∧ let (r, s') := fs_exec f o s in permitted P fl' (k r) s'
  | _, _ => True
  end.

Lemma run_with_steps {A} (P : policy) fl (p : prog fsS A) s :
  permitted P fl p s → rtc (pstep (Sem0 := fs_sem P)) (p, s) (run_with fl p s).
Proof.
  revert p s. induction fl as [|f fl IH]; intros p s; simpl; [done|].
  destruct p as [a|o k]; [done|]. intros [Hf H].
  destruct (fs_exec f o s) as [r s'] eqn:E.
  eapply rtc_l; [|by apply IH]. exists r. split; [|done]. by exists f.
Qed.
