(* ===== verification/Download.v ===== *)
(** * internal/agent/download.go: resumable downloads and the checksum gate *)

From S2P Require Import Prelude GoLib Sha256 Os.
Open Scope Z_scope.

Implicit Types s : fs.

(** ** The signature of a downloader *)

(** An HTTP response: what of the body arrived, and the error that cut it short
    if the transfer did not complete. *)
Record response := Response {
    StatusCode : Z;
    Status : string;
    Body : string;
    BodyErr : option goerr;
  }.

Inductive dlop :=
  | DFs (o : fsop)
  | NewRequest (url : string)
  | HttpDo (url : string) (range : option string)
  | RandN (n : Z)
  | After (d : Z)        (* select between time.After(d) and ctx.Done() *)
  | Panic (msg : string).

Definition dlres (o : dlop) : Type :=
  match o with
  | DFs o => fsres o
  | NewRequest _ => option goerr
  | HttpDo _ _ => result goerr response
  | RandN _ => Z
  | After _ => option goerr     (* ctx.Err() when the context ended first *)
  | Panic _ => Empty_set
  end.

Definition dlS : sig := Sig dlop dlres.

Global Instance fs_dl : Subsig fsS dlS :=
  {| inj := (DFs : act fsS → act dlS); back := λ _ r, r |}.

Definition dfs (o : fsop) : prog dlS (fsres o) := trigger (DFs o : act dlS).

(** ** Options *)

Definition Millisecond : Z := 1000000.
Definition Second : Z := 1000 * Millisecond.
Definition Minute : Z := 60 * Second.

Record DownloadOptions := mkDownloadOptions {
    MaxAttempts : Z;
    BaseBackoff : Z;
    MaxBackoff : Z;
    AttemptTimeout : Z;
  }.

Definition withDefaults (o : DownloadOptions) : DownloadOptions := {|
    MaxAttempts := if MaxAttempts o =? 0 then 5 else MaxAttempts o;
    BaseBackoff := if BaseBackoff o =? 0 then 500 * Millisecond else BaseBackoff o;
    MaxBackoff := if MaxBackoff o =? 0 then 15 * Second else MaxBackoff o;
    AttemptTimeout := if AttemptTimeout o =? 0 then 2 * Minute else AttemptTimeout o;
  |}.

(** ** One attempt *)

Definition StatusOK : Z := 200.
Definition StatusPartialContent : Z := 206.
Definition StatusRequestedRangeNotSatisfiable : Z := 416.

(** [io.Copy(f, resp.Body)]: what arrived is written, then the transfer's own
    error, if any, is returned. *)
Definition copyBody (dest : list string) (resp : response) : prog dlS (option goerr) :=
  guard dfs (Write dest (Body resp)) catch err => Ret (Some err) ;;
  Ret (BodyErr resp).

Definition rangeHeader (offset : Z) : option string :=
  if 0 <? offset then Some ("bytes=" +:+ Itoa offset +:+ "-") else None.

Definition downloadOnce (url : string) (dest : list string) : prog dlS (option goerr) :=
  fi <- dfs (Stat dest) ;;
  let offset := match fi with Ok size => size | Err _ => 0 end in
  guard trigger (NewRequest url : act dlS) catch err => Ret (Some err) ;;
  try resp <- trigger (HttpDo url (rangeHeader offset) : act dlS)
    catch err => Ret (Some err) ;;
  let transfer (opened : option goerr) : prog dlS (option goerr) :=
    match opened with
    | Some err => Ret (Some err)
    | None =>
        guard copyBody dest resp
          catch err => Ret (Some (Wrapf "transfer interrupted: " err)) ;;
        Ret None
    end in
  if StatusCode resp =? StatusPartialContent then
    err <- dfs (OpenAppend dest) ;; transfer err
  else if StatusCode resp =? StatusOK then
    err <- dfs (Create dest) ;; transfer err
  else if StatusCode resp =? StatusRequestedRangeNotSatisfiable then
    do dfs (Remove dest) ;;
    Ret (Some (Errorf ("server rejected range at offset " +:+ Itoa offset +:+ ", restarting")))
  else
    Ret (Some (Errorf ("unexpected status " +:+ Status resp))).

(** ** The retry loop *)

(** [rand.N(n)], which panics unless [n] is positive. *)
Definition rand_N (n : Z) : prog dlS Z :=
  if n <=? 0 then
    bind (trigger (Panic "invalid argument to N" : act dlS))
      (λ r : Empty_set, match r return prog dlS Z with end)
  else trigger (RandN n : act dlS).

(** The backoff before retry [attempt], in 64-bit nanoseconds. *)
Definition backoff (o : DownloadOptions) (attempt : Z) : Z :=
  Z.min (int64 (Z.shiftl (BaseBackoff o) (attempt - 1))) (MaxBackoff o).

(** The sleep before retry [attempt]; [Some err] when the context ended. *)
Definition pause (o : DownloadOptions) (attempt : Z) : prog dlS (option goerr) :=
  if 0 <? attempt then
    r <- rand_N (backoff o attempt) ;;
    trigger (After (int64 (Z.quot (backoff o attempt) 2 + r)) : act dlS)
  else Ret None.

(** The loop from [attempt] on, with [n] attempts left. *)
Fixpoint retries (o : DownloadOptions) (url : string) (dest : list string)
    (n : nat) (attempt : Z) (lastErr : option goerr) : prog dlS (option goerr) :=
  match n with
  | O => Ret (Some (Errorf_w ("download failed after " +:+ Itoa (MaxAttempts o)
                                +:+ " attempts: ") lastErr))
  | S n' =>
      guard pause o attempt catch ctxErr => Ret (Some ctxErr) ;;
      r <- downloadOnce url dest ;;
      match r with
      | Some err => retries o url dest n' (attempt + 1) (Some err)
      | None => Ret None
      end
  end.

Definition DownloadWithResume (url : string) (dest : list string)
    (opts : DownloadOptions) : prog dlS (option goerr) :=
  let o := withDefaults opts in
  retries o url dest (Z.to_nat (MaxAttempts o)) 0 None.

(** ** The checksum gate *)

Definition VerifySHA256 (p : list string) (wantHex : string) : prog fsS (option goerr) :=
  guard trigger (Open p : act fsS) catch err => Ret (Some err) ;;
  try data <- trigger (ReadAll p : act fsS) catch err => Ret (Some err) ;;
  let got := sha256hex data in
  if decide (got = wantHex) then Ret None
  else Ret (Some (Errorf ("checksum mismatch: got " +:+ got +:+ " want " +:+ wantHex))).

(** ** Semantics *)

(** The environment of a downloader: the file system under a fault policy, a
    server that may answer a request for a URL from a byte range, the URLs
    [net/url] can parse, and whether the caller's context may end. *)
Definition http_server := string → option string → result goerr response → Prop.

Record dl_env := {
    faults : policy;
    server : http_server;
    valid_url : string → bool;
    cancel : Prop;
  }.

Definition dl_sem (env : dl_env) : Sem dlS fs :=
  λ o s r s',
    match o return dlres o → Prop with
    | DFs o => λ r, fs_sem (faults env) o s r s'
    | NewRequest url => λ r, (r = None ↔ valid_url env url = true) ∧ s' = s
    | HttpDo url range => λ r, server env url range r ∧ s' = s
    | RandN n => λ r, 0 ≤ r < n ∧ s' = s
    | After _ => λ r, (r ≠ None → cancel env) ∧ s' = s
    | Panic _ => λ _, False
    end r.

(** ** Lemmas *)

Definition is_prefix (a b : string) : Prop := ∃ c, b = a +:+ c.

Lemma is_prefix_refl a : is_prefix a a.
Proof. exists "". by rewrite app_nil_str. Qed.

Lemma is_prefix_nil a : is_prefix "" a.
Proof. by exists a. Qed.

Lemma is_prefix_trans a b c : is_prefix a b → is_prefix b c → is_prefix a c.
Proof. intros [x ->] [y ->]. exists (x +:+ y). by rewrite app_assoc_str. Qed.

Lemma is_prefix_app a b c : is_prefix b c → is_prefix (a +:+ b) (a +:+ c).
Proof. intros [x ->]. exists x. by rewrite app_assoc_str. Qed.

Lemma str_take_prefix n d : is_prefix (str_take n d) d.
Proof.
  unfold str_take. revert n. induction d as [|x d IH]; intros [|n]; simpl; try apply is_prefix_nil.
  destruct (IH n) as [c E]. exists c. change (String x d = String x (String.substring 0 n d +:+ c)).
  by rewrite <-E.
Qed.

#[export] Hint Resolve is_prefix_refl is_prefix_nil is_prefix_app str_take_prefix : progs.

(** A top-level file that may be absent. *)
Definition plain s (name : string) : Prop :=
  s !! [name] = None ∨ ∃ d, s !! [name] = Some (File d).

Definition data_at s (name : string) : string :=
  match s !! [name] with Some (File d) => d | _ => "" end.

Lemma plain_resolve s name : plain s name → resolve s [name] = [name].
Proof. unfold resolve. by intros [-> | [d ->]]. Qed.

Lemma plain_contents s name : plain s name → contents s [name] = data_at s name.
Proof. intros H. unfold contents, data_at. by rewrite plain_resolve. Qed.

Lemma plain_open_write s op name : plain s name → open_write s op [name] = Ok [name].
Proof.
  intros H. unfold open_write. rewrite plain_resolve by done.
  by destruct H as [-> | [d ->]].
Qed.

Lemma plain_insert s name d : plain (<[[name] := File d]> s) name.
Proof. right. exists d. apply lookup_insert_eq. Qed.

Lemma data_at_insert s name d : data_at (<[[name] := File d]> s) name = d.
Proof. unfold data_at. by rewrite lookup_insert_eq. Qed.

(** [s'] differs from [s] at most at [name]. *)
Definition only_at (name : string) s s' : Prop := ∀ q, q ≠ [name] → s' !! q = s !! q.

Lemma only_at_insert name d s0 s : only_at name s0 s → only_at name s0 (<[[name] := d]> s).
Proof. intros H q Hq. rewrite lookup_insert_ne by done. by apply H. Qed.

Lemma only_at_delete name s0 s : only_at name s0 s → only_at name s0 (delete [name] s).
Proof. intros H q Hq. rewrite lookup_delete_ne by done. by apply H. Qed.

#[export] Hint Resolve plain_insert only_at_insert only_at_delete : progs.

Section honest.
Context (env : dl_env) (url img name : string).

(** What HTTP promises of a server that serves the bytes [img] at [url]: a 200
    carries the whole image; a 206, sent only when a range was asked for, the
    bytes from the requested offset; and a body that was cut short is a prefix
    of the one that was promised. *)
Record honest : Prop := {
  honest_200 range resp :
  server env url range (Ok resp) → StatusCode resp = StatusOK →
  is_prefix (Body resp) img ∧ (BodyErr resp = None → Body resp = img);
  honest_206 pre rest resp :
  img = pre +:+ rest → server env url (rangeHeader (str_len pre)) (Ok resp) →
  StatusCode resp = StatusPartialContent →
  is_prefix (Body resp) rest ∧ (BodyErr resp = None → Body resp = rest);
  honest_range resp :
  server env url None (Ok resp) → StatusCode resp ≠ StatusPartialContent;
  }.

(** The destination holds a part of the image, from its start. *)
Definition resumable s0 s : Prop :=
  plain s name ∧ is_prefix (data_at s name) img ∧ only_at name s0 s.

Local Instance dlsem : Sem dlS fs := dl_sem env.
Context (Hserver : honest).

Lemma resumable_write s0 s d :
  resumable s0 s → is_prefix d img → resumable s0 (<[[name] := File d]> s).
Proof.
  intros (Hp & Hd & Ho) Hd'. split_and!; auto with progs. by rewrite data_at_insert.
Qed.

Lemma resumable_delete s0 s : resumable s0 s → resumable s0 (delete [name] s).
Proof.
  intros (Hp & Hd & Ho). split_and!; auto with progs.
  - left. apply lookup_delete_eq.
  - unfold data_at. rewrite lookup_delete_eq. apply is_prefix_nil.
Qed.

(** Writing the body onto what the file holds. *)
Lemma copyBody_ok s0 s resp rest :
  resumable s0 s → img = data_at s name +:+ rest →
  is_prefix (Body resp) rest → (BodyErr resp = None → Body resp = rest) →
  wpi (copyBody [name] resp) (resumable s0)
  (λ r s', r = None → s' !! [name] = Some (File img)) s.
Proof.
  intros Hr Himg Hpre Hall. split; [done|].
  intros r s' (f & _ & E). simpl in E. unfold put in E.
  rewrite plain_resolve, plain_contents in E by apply Hr.
  destruct f as [| |n]; simpl in E; simplify_eq; simpl.
  - split; [|intros Hn].
  + apply resumable_write; [done|]. rewrite Himg. by apply is_prefix_app.
  + rewrite lookup_insert_eq, (Hall Hn). by do 2 f_equal.
  - done.
  - split; [|done]. apply resumable_write; [done|]. rewrite Himg.
  apply is_prefix_app. by eapply is_prefix_trans; [apply str_take_prefix|].
Qed.

Lemma stat_offset s0 s r s' :
  resumable s0 s → fs_sem (faults env) (Stat [name]) s r s' →
  s' = s ∧ (r = Ok (str_len (data_at s name)) ∨ ∃ e, r = Err e).
Proof.
  intros Hr (f & _ & E). simpl in E.
  destruct f; simplify_eq; [|by eauto..].
  rewrite plain_resolve, plain_contents in E by apply Hr.
  destruct (s !! [name]); simplify_eq; eauto.
Qed.

Lemma transfer_ok s0 s opened resp rest :
  resumable s0 s → img = data_at s name +:+ rest →
  is_prefix (Body resp) rest → (BodyErr resp = None → Body resp = rest) →
  wpi (match opened with
   | Some err => Ret (Some err)
   | None => guard copyBody [name] resp
               catch err => Ret (Some (Wrapf "transfer interrupted: " err)) ;; Ret None
   end : prog dlS (option goerr)) (resumable s0)
  (λ r s', r = None → s' !! [name] = Some (File img)) s.
Proof.
  intros. destruct opened as [e|]; [by split|].
  apply wpi_bind. eapply wpi_mono; [by eapply copyBody_ok|done|].
  intros [e|] s' ? HQ; split; [done|done|done|auto].
Qed.

Definition fetched : option goerr → fs → Prop :=
  λ r s', r = None → s' !! [name] = Some (File img).

Definition offset_of (fi : result goerr Z) : Z :=
  match fi with Ok size => size | Err _ => 0 end.

(** The three outcomes that touch the file. *)
Lemma appended_ok s0 s resp fi r s' :
  resumable s0 s → server env url (rangeHeader (offset_of fi)) (Ok resp) →
  (fi = Ok (str_len (data_at s name)) ∨ ∃ e, fi = Err e) →
  StatusCode resp = StatusPartialContent → fs_sem (faults env) (OpenAppend [name]) s r s' →
  wpi (match r with
   | Some err => Ret (Some err)
   | None => guard copyBody [name] resp
               catch err => Ret (Some (Wrapf "transfer interrupted: " err)) ;; Ret None
   end : prog dlS (option goerr)) (resumable s0) fetched s'.
Proof.
  intros Hr Hsrv [-> | [e ->]] Hst (f & _ & E); [|by apply honest_range in Hsrv].
  destruct (proj1 (proj2 Hr)) as [rest Hrest].
  destruct (honest_206 Hserver _ _ _ Hrest Hsrv Hst) as [Hpre Hall].
  simpl in E. rewrite plain_open_write in E by apply Hr.
  assert (data_at s' name = data_at s name ∧ resumable s0 s') as [Hd' Hr'].
  { destruct f; simplify_eq; [|done..].
  destruct (s !! [name]) eqn:El; [done|].
  rewrite data_at_insert. split; [by unfold data_at; rewrite El|].
  apply resumable_write; auto with progs. }
  apply (transfer_ok s0 s' r resp rest); [done|by rewrite Hd'|done|done].
Qed.

Lemma created_ok s0 s resp range r s' :
  resumable s0 s → server env url range (Ok resp) → StatusCode resp = StatusOK →
  fs_sem (faults env) (Create [name]) s r s' →
  wpi (match r with
   | Some err => Ret (Some err)
   | None => guard copyBody [name] resp
               catch err => Ret (Some (Wrapf "transfer interrupted: " err)) ;; Ret None
   end : prog dlS (option goerr)) (resumable s0) fetched s'.
Proof.
  intros Hr Hsrv Hst (f & _ & E).
  destruct (honest_200 Hserver _ _ Hsrv Hst) as [Hpre Hall].
  simpl in E. rewrite plain_open_write in E by apply Hr.
  destruct f; simplify_eq; [|by split..].
  apply (transfer_ok s0 _ None resp img); auto.
  - apply resumable_write; auto with progs.
  - by rewrite data_at_insert.
Qed.

Lemma rejected_ok s0 s r s' e :
  resumable s0 s → fs_sem (faults env) (Remove [name]) s r s' →
  wpi (Ret (Some e) : prog dlS (option goerr)) (resumable s0) fetched s'.
Proof.
  intros Hr (f & _ & E). split; [|done]. simpl in E.
  destruct f; simplify_eq; [|done..]. unfold remove in E.
  destruct (proj1 Hr) as [H | [d H]]; rewrite H in E; simplify_eq; [done|].
  by apply resumable_delete.
Qed.

Lemma downloadOnce_ok s0 s :
  resumable s0 s → wpi (downloadOnce url [name]) (resumable s0) fetched s.
Proof.
  intros Hr. split; [done|]. intros fi s1 Hfi.
  destruct (stat_offset _ _ _ _ Hr Hfi) as [-> Hoff].
  split; [done|]. intros [e|] s1 [_ ->]; [by split|].
  split; [done|]. intros [resp|e] s1 [Hsrv ->]; [|by split].
  fold (offset_of fi) in *. simpl.
  destruct (Z.eqb_spec (StatusCode resp) StatusPartialContent).
  { split; [done|]. intros r s' Hs. by eapply appended_ok. }
  destruct (Z.eqb_spec (StatusCode resp) StatusOK).
  { split; [done|]. intros r s' Hs. by eapply created_ok. }
  destruct (Z.eqb_spec (StatusCode resp) StatusRequestedRangeNotSatisfiable); [|by split].
  split; [done|]. intros r s' Hs. by eapply rejected_ok.
Qed.

Lemma pause_ok s0 s o attempt :
  resumable s0 s → wpi (pause o attempt) (resumable s0) (λ _, resumable s0) s.
Proof.
  intros Hr. unfold pause. destruct (0 <? attempt); [|by split].
  apply wpi_bind. unfold rand_N. destruct (_ <=? 0).
  - split; [done|]. by intros [].
  - split; [done|]. intros r s1 [_ ->]. split; [done|]. split; [done|].
  intros r' s1 [_ ->]. by split.
Qed.

Lemma retries_ok o n attempt lastErr s0 s :
  resumable s0 s →
  wpi (retries o url [name] n attempt lastErr) (resumable s0) fetched s.
Proof.
  revert attempt lastErr s. induction n as [|n IH]; intros attempt lastErr s Hr; cbn [retries].
  { split; [done|]. by destruct lastErr. }
  apply wpi_bind. eapply wpi_mono; [by apply pause_ok|done|].
  intros [e|] s1 _ Hr1; [by split|].
  apply wpi_bind. eapply wpi_mono; [by eapply downloadOnce_ok|done|].
  intros [e|] s2 Hr2 HQ; [by apply IH|]. split; [done|]. exact HQ.
Qed.
End honest.

(** ** The backoff schedule *)

Record sane (o : DownloadOptions) : Prop := {
    sane_base : 0 < BaseBackoff o;
    sane_max : 0 < MaxBackoff o < 2 ^ 62;
    sane_shift : BaseBackoff o * 2 ^ (MaxAttempts o - 2) < 2 ^ 63;
  }.

Lemma shift_fits o attempt :
  sane o → 1 ≤ attempt < MaxAttempts o →
  0 < Z.shiftl (BaseBackoff o) (attempt - 1) < 2 ^ 63.
Proof.
  intros [Hb _ Hs] [H1 H2]. rewrite Z.shiftl_mul_pow2 by lia.
  assert (0 < 2 ^ (attempt - 1)) by (apply Z.pow_pos_nonneg; lia).
  assert (2 ^ (attempt - 1) ≤ 2 ^ (MaxAttempts o - 2)) by (apply Z.pow_le_mono_r; lia).
  nia.
Qed.

Lemma backoff_value o attempt :
  sane o → 1 ≤ attempt < MaxAttempts o →
  backoff o attempt = Z.min (BaseBackoff o * 2 ^ (attempt - 1)) (MaxBackoff o).
Proof.
  intros Hs Ha. unfold backoff. pose proof (shift_fits o attempt Hs Ha).
  unfold int64. rewrite wrap_id; [|lia|unfold fits; lia].
  by rewrite Z.shiftl_mul_pow2 by lia.
Qed.

Lemma backoff_pos o attempt :
  sane o → 1 ≤ attempt < MaxAttempts o → 0 < backoff o attempt ≤ MaxBackoff o.
Proof.
  intros Hs Ha. rewrite backoff_value by done. pose proof (shift_fits o attempt Hs Ha) as H.
  rewrite Z.shiftl_mul_pow2 in H by lia. destruct Hs. lia.
Qed.

(** No panic, and every random draw is from a positive range within [maxBackoff]. *)
Definition orderly (maxBackoff : Z) (o : act dlS) : Prop :=
  match o with
  | Panic _ => False
  | RandN n => 0 < n ≤ maxBackoff
  | _ => True
  end.

Definition is_request (o : act dlS) : bool :=
  match o with HttpDo _ _ => true | _ => false end.

Lemma downloadOnce_orderly m (url : string) (dest : list string) : calls_only (orderly m) (downloadOnce url dest).
Proof.
  unfold downloadOnce, copyBody. by_cases.
Qed.

Lemma downloadOnce_one (url : string) (dest : list string) : at_most is_request 1 (downloadOnce url dest).
Proof. unfold downloadOnce, copyBody. by_cases. Qed.

Lemma pause_orderly o attempt :
  sane o → 0 ≤ attempt < MaxAttempts o →
  calls_only (orderly (MaxBackoff o)) (pause o attempt).
Proof.
  intros Hs Ha. unfold pause. destruct (Z.ltb_spec 0 attempt); [|done].
  assert (0 < backoff o attempt ≤ MaxBackoff o) by (apply backoff_pos; [done|lia]).
  unfold rand_N. destruct (Z.leb_spec (backoff o attempt) 0); [lia|]. by split.
Qed.

Lemma pause_silent o attempt : at_most is_request 0 (pause o attempt).
Proof. unfold pause, rand_N. by_cases. Qed.

Lemma retries_orderly o url dest n attempt lastErr :
  sane o → 0 ≤ attempt → attempt + Z.of_nat n ≤ MaxAttempts o →
  calls_only (orderly (MaxBackoff o)) (retries o url dest n attempt lastErr).
Proof.
  intros Hs. revert attempt lastErr. induction n as [|n IH]; intros attempt lastErr H0 Hn;
    cbn [retries]; [done|].
  apply calls_only_bind; [apply pause_orderly; [done|lia]|]. intros [e|]; [done|].
  apply calls_only_bind; [apply downloadOnce_orderly|]. intros [e|]; [|done].
  apply IH; lia.
Qed.

Lemma retries_requests o url dest n attempt lastErr :
  at_most is_request n (retries o url dest n attempt lastErr).
Proof.
  revert attempt lastErr. induction n as [|n IH]; intros attempt lastErr; cbn [retries]; [done|].
  apply (at_most_bind _ 0 (S n)); [apply pause_silent|]. intros [e|]; [done|].
  apply (at_most_bind _ 1 n); [apply downloadOnce_one|]. intros [e|]; [apply IH|done].
Qed.

(** *** Pauses and requests, in their order *)

Inductive pace := Requested | Slept (d : Z).

(** The world that records them: a draw is what [rand.N] promises, everything else
    is answered anyhow. *)
Definition pacing : Sem dlS (list pace) :=
  λ o log r log',
    match o return dlres o → Prop with
    | HttpDo _ _ => λ _, log' = log ++ [Requested]
    | After d => λ _, log' = log ++ [Slept d]
    | RandN n => λ r, 0 ≤ r < n ∧ log' = log
    | _ => λ _, log' = log
    end r.

Definition requests (log : list pace) : nat :=
  length (omap (λ e, match e with Requested => Some tt | Slept _ => None end) log).
Definition pauses (log : list pace) : nat :=
  length (omap (λ e, match e with Requested => None | Slept d => Some d end) log).

(** The bound before the [j]-th pause: it doubles until it reaches [MaxBackoff]. *)
Definition bound (o : DownloadOptions) (j : nat) : Z :=
  Z.min (BaseBackoff o * 2 ^ Z.of_nat j) (MaxBackoff o).

(** A pause lasts at least half of its bound and less than one and a half of it;
    after a request the next one waits for a pause. *)
Fixpoint polite (o : DownloadOptions) (j : nat) (ready : bool) (log : list pace) : Prop :=
  match log with
  | [] => True
  | Requested :: log => ready = true ∧ polite o j false log
  | Slept d :: log =>
      bound o j `quot` 2 ≤ d < bound o j `quot` 2 + bound o j ∧ polite o (S j) true log
  end.

Definition ready (b : bool) (log : list pace) : bool :=
  foldl (λ _ e, match e with Requested => false | Slept _ => true end) b log.

Lemma polite_request o j b log :
  polite o j b log → ready b log = true → polite o j b (log ++ [Requested]).
Proof.
  revert j b. induction log as [|[|d] log IH]; intros j b; simpl; [done|..];
    intros [? ?] ?; split; auto.
Qed.

Lemma polite_pause o j b log d :
  polite o j b log →
  bound o (j + pauses log) `quot` 2 ≤ d < bound o (j + pauses log) `quot` 2 + bound o (j + pauses log) →
  polite o j b (log ++ [Slept d]).
Proof.
  revert j b. induction log as [|[|x] log IH]; intros j b; unfold pauses; simpl.
  - rewrite Nat.add_0_r. done.
  - intros [? ?] ?. split; auto.
  - intros [? ?] ?. split; [done|]. apply IH; [done|].
    replace (S j + pauses log)%nat with (j + S (pauses log))%nat by lia. done.
Qed.

Lemma pauses_snoc log e :
  pauses (log ++ [e]) = match e with Requested => pauses log | Slept _ => S (pauses log) end.
Proof. unfold pauses. rewrite omap_app, length_app. destruct e; simpl; lia. Qed.

Lemma requests_snoc log e :
  requests (log ++ [e]) = match e with Requested => S (requests log) | Slept _ => requests log end.
Proof. unfold requests. rewrite omap_app, length_app. destruct e; simpl; lia. Qed.

Lemma ready_snoc b log e :
  ready b (log ++ [e]) = match e with Requested => false | Slept _ => true end.
Proof. unfold ready. by rewrite foldl_snoc. Qed.

(** A program's requests are counted by its history. *)
Lemma at_most_requests {A} n (p : prog dlS A) log :
  at_most is_request n p →
  wpi (Sem0 := pacing) p (λ log', requests log' ≤ requests log + n)%nat (λ _ _, True) log.
Proof.
  revert n log. induction p as [a|o k IH]; intros n log; simpl; [by (split; [lia|])|].
  intros H. split; [lia|]. intros r log' Hs.
  destruct o; cbn in H, Hs; try (subst log'; by apply IH).
  - subst log'. destruct n as [|n]; [done|].
    eapply wpi_mono; [by apply (IH r n)|..]; [|done]. intros l. rewrite requests_snoc. lia.
  - destruct Hs as [_ ->]. by apply IH.
  - subst log'. eapply wpi_mono; [by apply (IH r n)|..]; [|done].
    intros l. by rewrite requests_snoc.
Qed.

(** What a download with [n] attempts has recorded at every instant. *)
Definition patient (o : DownloadOptions) (log : list pace) : Prop :=
  polite o 0 true log ∧ Z.of_nat (pauses log) ≤ Z.max 0 (MaxAttempts o - 1).

Lemma pause_patient o attempt log :
  sane o → 0 ≤ attempt < MaxAttempts o → polite o 0 true log →
  Z.of_nat (pauses log) = Z.max 0 (attempt - 1) → (attempt = 0 → log = []) →
  wpi (Sem0 := pacing) (pause o attempt) (patient o)
    (λ _ log', polite o 0 true log' ∧ ready true log' = true ∧ Z.of_nat (pauses log') = attempt) log.
Proof.
  intros Hs Ha Hl Hn H0. assert (patient o log) as Hp by (split; [done|lia]).
  unfold pause. destruct (Z.ltb_spec 0 attempt) as [Hpos|Hneg].
  2: { split; [done|]. rewrite H0 by lia. split_and!; [done|done|change (0 = attempt); lia]. }
  assert (backoff o attempt = bound o (pauses log)) as Hb.
  { rewrite backoff_value by (done || lia). unfold bound. by rewrite Hn, Z.max_r by lia. }
  pose proof (backoff_pos o attempt Hs ltac:(lia)) as Hrange.
  unfold rand_N. destruct (Z.leb_spec (backoff o attempt) 0); [lia|].
  split; [done|]. intros jitter log1 [Hj ->]. simpl in jitter. split; [done|]. intros r log2 ->.
  assert (int64 (backoff o attempt `quot` 2 + jitter) = bound o (pauses log) `quot` 2 + jitter) as ->.
  { rewrite Hb in Hj, Hrange |- *. destruct Hs as [_ Hm _]. apply wrap_id; [done|].
    rewrite Z.quot_div_nonneg by lia. unfold fits. change (64 - 1) with 63.
    assert (2 ^ 63 = 2 * 2 ^ 62) by done. Z.to_euclidean_division_equations. lia. }
  assert (polite o 0 true (log ++ [Slept (bound o (pauses log) `quot` 2 + jitter)])) as Hl2.
  { apply polite_pause; [done|]. rewrite Nat.add_0_l. rewrite Hb in Hj. lia. }
  split; [split; [done|]; rewrite pauses_snoc; lia|].
  split_and!; [done|by rewrite ready_snoc|]. rewrite pauses_snoc. lia.
Qed.

Definition only_files (o : act dlS) : Prop := match o with DFs _ => True | _ => False end.

Lemma downloadOnce_patient o (url : string) (dest : list string) log :
  polite o 0 true log → ready true log = true → Z.of_nat (pauses log) ≤ Z.max 0 (MaxAttempts o - 1) →
  wpi (Sem0 := pacing) (downloadOnce url dest) (patient o)
    (λ _ log', polite o 0 true log' ∧ pauses log' = pauses log) log.
Proof.
  intros Hl Hr Hn. assert (patient o log) as Hp by done.
  split; [done|]. intros fi l ->. split; [done|]. intros [e|] l ->; [by split|].
  split; [done|]. intros resp l ->.
  assert (pauses (log ++ [Requested]) = pauses log) as Hsame by apply pauses_snoc.
  assert (patient o (log ++ [Requested])) as Hp1
    by (split; [by apply polite_request|by rewrite Hsame]).
  assert (∀ A (p : prog dlS A), calls_only only_files p →
    wpi (Sem0 := pacing) p (patient o) (λ _ log', polite o 0 true log' ∧ pauses log' = pauses log)
      (log ++ [Requested])) as Hquiet.
  { intros A p. induction p as [a|op k IH]; simpl; intros Hc; [by split; [|split; [apply Hp1|]]|].
    destruct Hc as [Ho Hk]. split; [done|]. intros r l1 Hs. destruct op; try done.
    cbn in Hs. subst l1. by apply IH. }
  apply Hquiet. unfold copyBody. by_cases.
Qed.

Lemma retries_patient o (url : string) (dest : list string) n attempt lastErr log :
  sane o → 0 ≤ attempt → attempt + Z.of_nat n ≤ MaxAttempts o ∨ n = O → polite o 0 true log →
  Z.of_nat (pauses log) = Z.max 0 (attempt - 1) → attempt ≤ Z.max 0 (MaxAttempts o) → (attempt = 0 → log = []) →
  wpi (Sem0 := pacing) (retries o url dest n attempt lastErr) (patient o) (λ _ _, True) log.
Proof.
  intros Hs. revert attempt lastErr log. induction n as [|n IH];
    intros attempt lastErr log H0 Hn Hl Hp Hm Hz; cbn [retries].
  { split; [|done]. split; [done|lia]. }
  destruct Hn as [Hn|]; [|done].
  apply wpi_bind. eapply wpi_mono; [apply (pause_patient o attempt log); [done|lia|done..]|done|].
  intros [e|] l1 Hpat (Hl1 & Hr1 & Hn1); [by split|].
  apply wpi_bind. eapply wpi_mono; [apply (downloadOnce_patient o url dest l1); [done|done|lia]|done|].
  intros [e|] l2 Hpat2 [Hl2 Hn2]; [|by split].
  apply IH; [lia|left; lia|done|rewrite Hn2; lia|lia|lia].
Qed.

(** ** The checksum gate *)

(** What [VerifySHA256] answers when reads succeed. *)
Definition verify_result (data : option string) (p : list string) (want : string) :
    option goerr :=
  match data with
  | None => Some (PathError "open" p ENOENT)
  | Some d =>
      if decide (sha256hex d = want) then None
      else Some (Errorf ("checksum mismatch: got " +:+ sha256hex d +:+ " want " +:+ want))
  end.

Lemma VerifySHA256_ok (P : policy) s p want data I :
  (∀ o f, is_read o = true → P o f → f = NoFault) →
  (s !! p = File <$> data) → I s →
  wpi (Sem0 := fs_sem P) (VerifySHA256 p want) I
      (λ r s', s' = s ∧ r = verify_result data p want) s.
Proof.
  intros HP Hp HI.
  assert (resolve s p = p) as Hres by (unfold resolve; by destruct data; rewrite Hp).
  split; [done|]. intros r s1 (f & Hf & E). apply HP in Hf as ->; [|done].
  simpl in E. rewrite Hres, Hp in E. destruct data as [d|]; simpl in E; simplify_eq; [|by split].
  split; [done|]. intros r s2 (f & Hf & E). apply HP in Hf as ->; [|done].
  simpl in E. unfold read_file in E. rewrite Hres, Hp in E. simpl in E. simplify_eq.
  simpl. by case_decide; split.
Qed.

Lemma VerifySHA256_gate (P : policy) s p want :
  wpi (Sem0 := fs_sem P) (VerifySHA256 p want) (λ s', s' = s)
    (λ r s', r = None → ∃ d, s !! resolve s p = Some (File d) ∧ sha256hex d = want) s.
Proof.
  split; [done|]. intros r s1 (f & _ & E).
  assert (s1 = s) as -> by (destruct f; simpl in E; [case_match|..]; by simplify_eq).
  destruct r as [e|]; [by split|].
  split; [done|]. intros r s2 (f' & _ & E').
  assert (s2 = s) as -> by (destruct f'; simpl in E'; by simplify_eq).
  destruct r as [d|e]; [|by split]. simpl.
  case_decide as Hd; (split; [done|]); [|done]. intros _. exists d. split; [|done].
  destruct f'; simpl in E'; simplify_eq. unfold read_file in *.
  destruct (s !! resolve s p) as [[]|]; by simplify_eq.
Qed.

(** ** Properties *)

(** C20. Nothing unverified passes the gate.  Whatever calls fail, [VerifySHA256]
    never writes, and it returns nil only if the file it names exists and its
    content's SHA-256, in lower-case hex, is exactly the expected text. *)
Theorem verified_means_matching (P : policy) s p want p' s' :
  rtc (pstep (Sem0 := fs_sem P)) (VerifySHA256 p want, s) (p', s') →
  s' = s ∧
  (p' = Ret None → ∃ d, s !! resolve s p = Some (File d) ∧ sha256hex d = want).
Proof.
  intros Hs. pose proof (VerifySHA256_gate P s p want) as H. split.
  - exact (wpi_reachable _ _ _ _ _ _ H Hs).
  - intros ->. exact (wpi_result _ _ _ _ _ _ H Hs eq_refl).
Qed.

Lemma verified_means_matching_witness :
  let s : fs := {[ ["fw"] := File "abc" ]} in
  s = s ∧
  (Ret None = Ret None :> prog fsS (option goerr) →
   ∃ d, s !! resolve s ["fw"] = Some (File d) ∧
        sha256hex d = "ba7816bf8f01cfea414140de5dae2223b00361a396177a9cb410ff61f20015ad").
Proof.
  intros s. apply (verified_means_matching fault_free s ["fw"]).
  assert (run_with [NoFault; NoFault] (VerifySHA256 ["fw"]
     "ba7816bf8f01cfea414140de5dae2223b00361a396177a9cb410ff61f20015ad") s = (Ret None, s))
    as <- by (vm_compute; reflexivity).
  apply run_with_steps. repeat split.
Defined.

(** C8. A download from a server that serves [img] assembles [img].  Under every
    fault of the file system and the network, and at every instant (so after
    every crash), the destination is absent or holds a prefix of the image that
    the next attempt can resume, and no other file changes; if the download
    returns nil, the destination holds exactly the image. *)
Theorem download_assembles_image env url img name opts s p' s' :
  honest env url img → plain s name → is_prefix (data_at s name) img →
  rtc (pstep (Sem0 := dl_sem env)) (DownloadWithResume url [name] opts, s) (p', s') →
  plain s' name ∧ is_prefix (data_at s' name) img ∧ only_at name s s' ∧
  (p' = Ret None → s' !! [name] = Some (File img)).
Proof.
  intros Hh Hp Hd Hs.
  assert (resumable img name s s) as Hr by (by split_and!).
  pose proof (retries_ok _ url img name Hh (withDefaults opts)
    (Z.to_nat (MaxAttempts (withDefaults opts))) 0 None s s Hr) as H.
  destruct (wpi_reachable _ _ _ _ _ _ H Hs) as (? & ? & ?). split_and!; try done.
  intros ->. exact (wpi_result _ _ _ _ _ _ H Hs eq_refl).
Qed.

(** A server for the witnesses: the image "abcd", whole or from its third byte. *)
Definition abcd_server : http_server := λ url range r,
  (range = None ∧ (r = Ok (Response 200 "200 OK" "abcd" None) ∨
                   r = Ok (Response 200 "200 OK" "ab" (Some (Errorf "unexpected EOF"))))) ∨
  (range = Some "bytes=2-" ∧ r = Ok (Response 206 "206 Partial Content" "cd" None)) ∨
  (range = Some "bytes=4-" ∧
   r = Ok (Response 416 "416 Requested Range Not Satisfiable" "" None)).

Definition abcd_env : dl_env := Build_dl_env fault_free abcd_server (λ _, true) False.

Lemma abcd_splits pre rest :
  "abcd" = pre +:+ rest →
  (pre, rest) ∈ [("", "abcd"); ("a", "bcd"); ("ab", "cd"); ("abc", "d"); ("abcd", "")].
Proof.
  intros E.
  do 5 (destruct pre as [|? pre];
    [cbv [String.append] in E; subst; set_solver|cbv [String.append] in E;
     first [discriminate E|injection E as <- E]]).
Qed.

Lemma abcd_honest url : honest abcd_env url "abcd".
Proof.
  split; simpl.
  - intros r resp [[_ [[= ->] | [= ->]]] | [[_ [= ->]] | [_ [= ->]]]] Hst; try done;
      (split; [|done]); [by exists ""|by exists "cd"].
  - intros pre rest resp E H Hst.
    assert (rangeHeader (str_len pre) = Some "bytes=2-" ∧ Body resp = "cd") as [Hr ->].
    { destruct H as [[_ [[= ->] | [= ->]]] | [[? [= ->]] | [_ [= ->]]]]; try discriminate Hst. done. }
    apply abcd_splits in E.
    repeat (apply elem_of_cons in E as [[= -> ->]|E]; [vm_compute in Hr; try discriminate Hr|]);
      [by split; [apply is_prefix_refl|]|by apply elem_of_nil in E].
  - intros resp [[_ [[= ->] | [= ->]]] | [[[=] _] | [[=] _]]]; done.
Qed.

(** The first answer is cut after two bytes; the second is asked for by range. *)
Definition abcd_handler (o : act dlS) (w : fs) : option (res o * fs) :=
  match o return option (dlres o * fs) with
  | DFs o => fs_run o w
  | NewRequest _ => Some (None, w)
  | HttpDo _ None => Some (Ok (Response 200 "200 OK" "ab" (Some (Errorf "unexpected EOF"))), w)
  | HttpDo _ (Some r) =>
      if decide (r = "bytes=2-")
      then Some (Ok (Response 206 "206 Partial Content" "cd" None), w) else None
  | RandN n => if 0 <? n then Some (0, w) else None
  | After _ => Some (None, w)
  | Panic _ => None
  end.

Lemma abcd_handles : handles (Sem0 := dl_sem abcd_env) abcd_handler.
Proof.
  intros [o|u|u [range|]|n|d|m] w r w' H; simpl in *.
  - injection H as H. by exists NoFault.
  - injection H as <- <-. done.
  - case_decide; simplify_eq. split; [|done]. right. left. done.
  - injection H as <- <-. split; [|done]. left. split; [done|]. by right.
  - destruct (Z.ltb_spec 0 n); simplify_eq. split; [lia|done].
  - by injection H as <- <-.
  - done.
Qed.

Definition defaults : DownloadOptions := mkDownloadOptions 0 0 0 0.

Lemma download_assembles_image_witness :
  plain {[ ["fw"] := File "abcd" ]} "fw" ∧
  is_prefix (data_at {[ ["fw"] := File "abcd" ]} "fw") "abcd" ∧
  only_at "fw" ∅ {[ ["fw"] := File "abcd" ]} ∧
  (Ret None = Ret None :> prog dlS (option goerr) →
   ({[ ["fw"] := File "abcd" ]} : fs) !! ["fw"] = Some (File "abcd")).
Proof.
  apply (download_assembles_image abcd_env "http://cdn/fw" "abcd" "fw" defaults ∅
    (Ret None) {[ ["fw"] := File "abcd" ]}).
  - apply abcd_honest.
  - by left.
  - by exists "abcd".
  - apply (run_steps abcd_handler); [apply abcd_handles|]. vm_compute. reflexivity.
Defined.

Lemma download_orderly url dest opts :
  let o := withDefaults opts in
  sane o → calls_only (orderly (MaxBackoff o)) (DownloadWithResume url dest opts).
Proof.
  intros o Hs. unfold DownloadWithResume. fold o.
  destruct (Z.le_gt_cases (MaxAttempts o) 0) as [Hle|Hgt].
  - by replace (Z.to_nat (MaxAttempts o)) with O by lia.
  - apply retries_orderly; [done|lia|lia].
Qed.

(** C40. Retrying is bounded and polite.  At every instant of a download, whatever is
    answered, at most [MaxAttempts] requests were sent.  For options whose backoff
    does not leave 64 bits ([sane]; [default_backoff_boundary] is what happens
    beyond), it never panics, it paused less than [MaxAttempts] times, between two
    requests there was a pause, and the [j]-th pause lasted from half to one and a
    half of the bound, [BaseBackoff] doubled [j] times but at most [MaxBackoff]. *)
Theorem download_bounded url dest opts p' log :
  let o := withDefaults opts in
  rtc (pstep (Sem0 := pacing)) (DownloadWithResume url dest opts, []) (p', log) →
  (requests log ≤ Z.to_nat (MaxAttempts o))%nat ∧
  (sane o → polite o 0 true log ∧ Z.of_nat (pauses log) ≤ Z.max 0 (MaxAttempts o - 1) ∧
     ∀ msg k, p' ≠ Act (Panic msg : act dlS) k).
Proof.
  intros o Hsteps. split.
  - pose proof (wpi_reachable (Sem0 := pacing) _ _ _ _ _ _
      (at_most_requests _ _ [] (retries_requests o url dest _ 0 None)) Hsteps) as H. exact H.
  - intros Hs. refine (_ (wpi_reachable (Sem0 := pacing) _ _ (patient o) (λ _ _, True) [] _ _ Hsteps)).
    + intros [? ?]. split_and!; [done|done|]. intros msg k ->.
      by destruct (calls_only_steps _ _ _ _ _ (download_orderly url dest opts Hs) Hsteps) as [[] _].
    + unfold DownloadWithResume. fold o. apply retries_patient; [done|lia| |done|done|lia|done].
      destruct (Z.le_gt_cases (MaxAttempts o) 0); [right|left]; lia.
Qed.

Lemma defaults_sane : sane (withDefaults defaults).
Proof. by split. Qed.

(** Nobody answers; every draw is 0. *)
Definition dead_link (o : act dlS) (log : list pace) : option (res o * list pace) :=
  match o return option (dlres o * list pace) with
  | DFs o => Some ((fs_exec NoFault o ∅).1, log)
  | NewRequest _ => Some (None, log)
  | HttpDo _ _ => Some (Err (Errorf "timeout"), log ++ [Requested])
  | RandN n => if 0 <? n then Some (0, log) else None
  | After d => Some (None, log ++ [Slept d])
  | Panic _ => None
  end.

Lemma dead_link_handles : handles (Sem0 := pacing) dead_link.
Proof.
  intros [o|u|u range|n|d|m] w r w' H; cbn in *; simplify_eq; try done.
  destruct (Z.ltb_spec 0 n); simplify_eq. split; [lia|done].
Qed.

Lemma download_bounded_witness :
  let o := withDefaults (mkDownloadOptions 3 0 0 0) in
  let log := [Requested; Slept (250 * Millisecond); Requested; Slept (500 * Millisecond); Requested] in
  (requests log ≤ 3)%nat ∧ polite o 0 true log.
Proof.
  intros o log.
  eassert (run dead_link (DownloadWithResume "http://cdn/fw" ["fw"] (mkDownloadOptions 3 0 0 0)) []
    = Some (_, log)) as Hrun by (vm_compute; reflexivity).
  destruct (download_bounded "http://cdn/fw" ["fw"] (mkDownloadOptions 3 0 0 0) _ log
    (run_steps _ _ _ _ _ dead_link_handles Hrun)) as [Hreq Hpace].
  split; [exact Hreq|]. apply Hpace. by split.
Defined.

(** ** Completion *)

Section completion.
Context (env : dl_env) (url img name : string).
Local Instance dlsem_live : Sem dlS fs := dl_sem env.

(** A server that answers, does not cut bodies short, and refuses a range only
    where one was asked for. *)
Definition prompt : Prop := ∀ range r,
  server env url range r → ∃ resp, r = Ok resp ∧ BodyErr resp = None ∧
  (StatusCode resp = StatusOK ∨ StatusCode resp = StatusPartialContent ∨
   (StatusCode resp = StatusRequestedRangeNotSatisfiable ∧ range ≠ None)).

Context (Hff : faults env = fault_free) (Hurl : valid_url env url = true).
Context (Hsrv : prompt) (Hctx : ¬ cancel env).

(** One file-system call without fault. *)
Ltac fault_free_call r s E :=
  let f := fresh "f" in let Hf := fresh "Hf" in
  split; [done|]; intros r s (f & Hf & E);
  rewrite Hff in Hf; red in Hf; subst f; simpl in E.

Lemma copied_ok s resp :
  plain s name → BodyErr resp = None →
  wp (guard copyBody [name] resp
    catch err => Ret (Some (Wrapf "transfer interrupted: " err)) ;; Ret None)
   (λ r _, r = None) s.
Proof.
  intros Hp Hb. fault_free_call r s' E. unfold put in E. simpl in E.
  simplify_eq. rewrite Hb. by split.
Qed.

(** An attempt succeeds, or it found a file the server refused to extend and
    removed it. *)
Lemma attempt_ok s :
  plain s name →
  wp (downloadOnce url [name])
   (λ r s', r = None ∨ (is_Some (s !! [name]) ∧ s' !! [name] = None)) s.
Proof.
  intros Hp. fault_free_call fi s1 E.
  rewrite plain_resolve in E by done.
  assert (s1 = s ∧ (s !! [name] = None → rangeHeader (offset_of fi) = None)) as [-> Hoff].
  { destruct (s !! [name]); by simplify_eq. }
  split; [done|]. intros r s1 [Hv ->]. destruct r as [e|]; [by apply proj2 in Hv; specialize (Hv Hurl)|].
  split; [done|]. intros r s1 [H ->]. fold (offset_of fi) in *.
  destruct (Hsrv _ _ H) as (resp & -> & Hb & Hcase). cbn.
  destruct (Z.eqb_spec (StatusCode resp) StatusPartialContent).
  { fault_free_call r s' E'.
  rewrite plain_open_write in E' by done. simplify_eq.
  eapply wpi_mono; [apply copied_ok; [|done]|done|by left].
  destruct (s !! [name]) eqn:El; [done|auto with progs]. }
  destruct (Z.eqb_spec (StatusCode resp) StatusOK).
  { fault_free_call r s' E'.
  rewrite plain_open_write in E' by done. simplify_eq.
  eapply wpi_mono; [apply copied_ok; [|done]|done|by left]. auto with progs. }
  destruct Hcase as [?|[?|[-> Hrange]]]; [done..|].
  fault_free_call r s' E'. split; [done|]. right.
  destruct Hp as [Hn | [d Hd]]; [by apply Hoff in Hn|].
  rewrite Hd. split; [eauto|]. unfold remove in E'. rewrite Hd in E'. simplify_eq.
  apply lookup_delete_eq.
Qed.

Lemma retries_complete o s n lastErr :
  plain s name → wp (retries o url [name] (S (S n)) 0 lastErr) (λ r _, r = None) s.
Proof.
  intros Hp. cbn [retries pause Z.ltb Z.compare].
  apply wpi_bind. split; [done|]. apply wpi_bind.
  eapply wpi_mono; [by apply attempt_ok|done|].
  intros r s1 _ [-> | [_ Hnone]]; [by split|]. destruct r as [e|]; [|by split].
  apply wpi_bind. eapply wpi_mono with (I1 := always) (Q1 := λ r s', r = None ∧ s' = s1).
  { unfold pause, rand_N. simpl. destruct (_ <=? 0); [split; [done|]; by intros []|].
  split; [done|]. intros r s2 [_ ->]. split; [done|]. intros r' s2 [Hc ->].
  split; [done|]. split; [|done]. destruct r'; [exfalso; auto|done]. }
  { done. }
  intros r s2 _ [-> ->]. apply wpi_bind. eapply wpi_mono; [apply attempt_ok; by left|done|].
  intros r s2 _ [-> | [[x Hx] _]]; [by split|]. by rewrite Hnone in Hx.
Qed.
End completion.

(** Downloads complete.  From any resumable state, without faults or
    cancellation, with two attempts or more and a server that answers and does
    not cut bodies short, every run that finishes returns nil, and no run
    panics: a complete leftover the server refuses to extend costs one attempt. *)
Theorem download_completes env url name opts s p' s' :
  let o := withDefaults opts in
  faults env = fault_free → valid_url env url = true → prompt env url → ¬ cancel env →
  2 ≤ MaxAttempts o → sane o → plain s name →
  rtc (pstep (Sem0 := dl_sem env)) (DownloadWithResume url [name] opts, s) (p', s') →
  (∀ r, p' = Ret r → r = None) ∧ (∀ msg k, p' ≠ Act (Panic msg : act dlS) k).
Proof.
  intros o Hff Hurl Hsrv Hctx Hn Hs Hp Hsteps.
  unfold DownloadWithResume in Hsteps. fold o in Hsteps. split.
  - intros r ->. destruct (Z.to_nat (MaxAttempts o)) as [|[|n]] eqn:En; [lia..|].
    refine (wpi_result _ always (λ r _, r = None) _ _ _ _ Hsteps).
    by apply (retries_complete env url name Hff Hurl Hsrv Hctx o s n None).
  - intros msg k ->.
    assert (calls_only (orderly (MaxBackoff o)) (Act (Panic msg : act dlS) k)) as [[] _].
    eapply calls_only_steps; [|exact Hsteps]. apply retries_orderly; [done|lia|lia].
Qed.

Lemma abcd_prompt url : prompt (Build_dl_env fault_free (λ u range r,
  range = None ∧ r = Ok (Response 200 "200 OK" "abcd" None) ∨
  range ≠ None ∧ r = Ok (Response 416 "416 Requested Range Not Satisfiable" "" None))
  (λ _, true) False) url.
Proof.
  intros range r [[-> ->] | [Hr ->]]; eexists; (split_and!; [done|done|]); [by left|].
  right; right. done.
Qed.

(** The leftover is complete: the first attempt is refused and the second fetches
    the image again. *)
Lemma download_completes_witness :
  (∀ r, Ret None = Ret r :> prog dlS (option goerr) → r = None) ∧
  (∀ msg k, (Ret None : prog dlS (option goerr)) ≠ Act (Panic msg : act dlS) k).
Proof.
  pose (env := Build_dl_env fault_free (λ u range r,
    range = None ∧ r = Ok (Response 200 "200 OK" "abcd" None) ∨
    range ≠ None ∧ r = Ok (Response 416 "416 Requested Range Not Satisfiable" "" None))
    (λ _, true) False).
  apply (download_completes env "http://cdn/fw" "fw" defaults {[ ["fw"] := File "abcd" ]}
    (Ret None) {[ ["fw"] := File "abcd" ]}).
  - done.
  - done.
  - apply abcd_prompt.
  - intros [].
  - done.
  - apply defaults_sane.
  - right. by exists "abcd".
  - pose (h := λ (o : act dlS) (w : fs), match o return option (dlres o * fs) with
      | DFs o => fs_run o w
      | NewRequest _ => Some (None, w)
      | HttpDo _ None => Some (Ok (Response 200 "200 OK" "abcd" None), w)
      | HttpDo _ (Some r) =>
          Some (Ok (Response 416 "416 Requested Range Not Satisfiable" "" None), w)
      | RandN n => if 0 <? n then Some (0, w) else None
      | After _ => Some (None, w)
      | Panic _ => None
      end).
    apply (run_steps h); [|vm_compute; reflexivity].
    intros [o|u|u [range|]|n|d|m] w r w' H; simpl in *.
    + injection H as H. by exists NoFault.
    + by injection H as <- <-.
    + injection H as <- <-. split; [|done]. by right.
    + injection H as <- <-. split; [|done]. by left.
    + destruct (Z.ltb_spec 0 n); simplify_eq. split; [lia|done].
    + by injection H as <- <-.
    + done.
Defined.

(** Finding. Where the backoff leaves 64 bits.  With the default base of 500 ms the
    schedule is sound up to 36 attempts; with 37 or more, the shift before
    attempt 36 is negative, the minimum with [MaxBackoff] keeps it, and drawing
    the jitter panics. *)
Theorem default_backoff_boundary n :
  1 ≤ n →
  let o := withDefaults (mkDownloadOptions n 0 0 0) in
  (n ≤ 36 → sane o) ∧
  (37 ≤ n → backoff o 36 < 0 ∧
    ∃ k, pause o 36 = Act (Panic "invalid argument to N" : act dlS) k).
Proof.
  intros Hn o. assert (MaxAttempts o = n) as Hmax.
  { unfold o. simpl. destruct (Z.eqb_spec n 0); [lia|done]. }
  split; intros H.
  - split; [done|done|]. rewrite Hmax.
    change (BaseBackoff o) with 500000000.
    assert (2 ^ (n - 2) ≤ 2 ^ 34) by (apply Z.pow_le_mono_r; lia).
    assert (2 ^ 34 = 17179869184) by done. assert (2 ^ 63 = 9223372036854775808) by done. lia.
  - split; [done|]. eexists. reflexivity.
Qed.

Lemma default_backoff_boundary_witness :
  1 ≤ 37 ∧ backoff (withDefaults (mkDownloadOptions 37 0 0 0)) 36 < 0.
Proof. split; [lia|]. apply (default_backoff_boundary 37); lia. Defined.
