(* ===== verification/Slot.v ===== *)
(** * internal/agent/slot.go: the A/B slot manager (definitions)

    The manager keeps no state of its own: everything it knows is in the data
    directory, so its operations are programs over the file system of [Os], and
    a manager created after a crash is the same value as the one before it. *)

From S2P Require Import Prelude GoLib Sha256 Os Download.
Open Scope Z_scope.

Definition firmwareFile : string := "firmware.bin".
Definition versionFile : string := "version".
Definition checksumFile : string := "checksum".
Definition pendingMarker : string := ".pending".
Definition confirmedMarker : string := ".confirmed".
Definition currentLink : string := "current".

Inductive BootResult := BootNormal | BootTrial | BootRolledBack.

Global Instance BootResult_eq_dec : EqDecision BootResult.
Proof. solve_decision. Defined.

(** Paths are relative to [s.dir]; [filepath.Join] appends a component. *)
Definition Join (dir : list string) (name : string) : list string := dir ++ [name].
Definition slotDir (slot : string) : list string := ["slot" +:+ slot].
Definition currentPath : list string := [currentLink].
Definition currentTmp : list string := [currentLink +:+ ".tmp"].

Definition other (slot : string) : string := if decide (slot = "A") then "B" else "A".

Definition fcall (o : fsop) : prog fsS (fsres o) := trigger (o : act fsS).

Definition Active : prog fsS (result goerr string) :=
  try target <- fcall (Readlink currentPath) catch err => Ret (Err err) ;;
  Ret (Ok (TrimPrefix (Base target) "slot")).

Definition ActiveVersion : prog fsS string :=
  try active <- Active catch err => Ret "" ;;
  try b <- fcall (ReadFile (Join (slotDir active) versionFile)) catch err => Ret "" ;;
  Ret (TrimSpace b).

Definition switchTo (slot : string) : prog fsS (option goerr) :=
  do fcall (Remove currentTmp) ;;
  guard fcall (Symlink ("slot" +:+ slot) currentTmp) catch err => Ret (Some err) ;;
  fcall (Rename currentTmp currentPath).

Definition NewSlotManager : prog fsS (option goerr) :=
  guard fcall (MkdirAll (slotDir "A")) catch err => Ret (Some err) ;;
  guard fcall (MkdirAll (slotDir "B")) catch err => Ret (Some err) ;;
  err <- fcall (Lstat currentPath) ;;
  if match err with Some e => IsNotExist e | None => false end then
    guard fcall (WriteFile (Join (slotDir "A") versionFile) "factory")
      catch err => Ret (Some err) ;;
    guard fcall (WriteFile (Join (slotDir "A") confirmedMarker) "")
      catch err => Ret (Some err) ;;
    guard switchTo "A" catch err => Ret (Some err) ;;
    Ret None
  else Ret None.

(** [n, err := dst.ReadFrom(src)], then close [dst], keeping the first error. *)
Definition copyAndClose (dst src : list string) : prog fsS (option goerr) :=
  r <- fcall (ReadFrom dst src) ;;
  cerr <- fcall (Close dst) ;;
  Ret (match r with Ok _ => cerr | Err err => Some err end).

Definition Stage (srcPath : list string) (version checksum : string) :
    prog fsS (option goerr) :=
  try active <- Active catch err => Ret (Some err) ;;
  let dir := slotDir (other active) in
  do fcall (Remove (Join dir confirmedMarker)) ;;
  do fcall (Remove (Join dir pendingMarker)) ;;
  guard fcall (Open srcPath) catch err => Ret (Some err) ;;
  guard fcall (Create (Join dir firmwareFile)) catch err => Ret (Some err) ;;
  guard copyAndClose (Join dir firmwareFile) srcPath catch err => Ret (Some err) ;;
  guard fcall (WriteFile (Join dir versionFile) version) catch err => Ret (Some err) ;;
  fcall (WriteFile (Join dir checksumFile) checksum).

Definition VerifyStaged : prog fsS (option goerr) :=
  try active <- Active catch err => Ret (Some err) ;;
  let dir := slotDir (other active) in
  try want <- fcall (ReadFile (Join dir checksumFile)) catch err => Ret (Some err) ;;
  VerifySHA256 (Join dir firmwareFile) (TrimSpace want).

Definition PromoteStaged : prog fsS (string * option goerr) :=
  try active <- Active catch err => Ret ("", Some err) ;;
  let target := other active in
  guard fcall (WriteFile (Join (slotDir target) pendingMarker) "0")
    catch err => Ret ("", Some err) ;;
  err <- switchTo target ;;
  Ret (target, err).

Definition rollback (badSlot : string) : prog fsS (option goerr) :=
  do fcall (Remove (Join (slotDir badSlot) pendingMarker)) ;;
  switchTo (other badSlot).

(** The result is [None] where the code returns the empty [BootResult]. *)
Definition BootCheck : prog fsS (option BootResult * option goerr) :=
  try active <- Active catch err => Ret (None, Some err) ;;
  let dir := slotDir active in
  confirmed <- fcall (Stat (Join dir confirmedMarker)) ;;
  if is_ok confirmed then Ret (Some BootNormal, None) else
  let pendingPath := Join dir pendingMarker in
  try b <- fcall (ReadFile pendingPath)
    catch err => (e <- rollback active ;; Ret (Some BootRolledBack, e)) ;;
  let tries := Atoi (TrimSpace b) in
  if 1 <=? tries then
    e <- rollback active ;; Ret (Some BootRolledBack, e)
  else
    guard fcall (WriteFile pendingPath (Itoa (int64 (tries + 1))))
      catch err => Ret (None, Some err) ;;
    Ret (Some BootTrial, None).

Definition SelfCheck : prog fsS (option goerr) :=
  try active <- Active catch err => Ret (Some err) ;;
  let dir := slotDir active in
  try want <- fcall (ReadFile (Join dir checksumFile))
    catch err => Ret (Some (Wrapf "no checksum in active slot: " err)) ;;
  VerifySHA256 (Join dir firmwareFile) (TrimSpace want).

Definition Confirm : prog fsS (option goerr) :=
  try active <- Active catch err => Ret (Some err) ;;
  let dir := slotDir active in
  guard fcall (WriteFile (Join dir confirmedMarker) "") catch err => Ret (Some err) ;;
  fcall (Remove (Join dir pendingMarker)).

Definition Rollback : prog fsS (option goerr) :=
  try active <- Active catch err => Ret (Some err) ;;
  rollback active.

(** ** The device as the bootloader sees it

    The abstract state behind the directory: which slot is booted and what each
    slot holds, file by file. *)

Inductive slot := SlotA | SlotB.

Global Instance slot_eq_dec : EqDecision slot.
Proof. solve_decision. Defined.

Definition slot_name (x : slot) : string := match x with SlotA => "A" | SlotB => "B" end.
Definition twin (x : slot) : slot := match x with SlotA => SlotB | SlotB => SlotA end.

Abbreviation image := (gmap string string).

(** Besides the slots, the directory holds other top-level files (the downloads
    in progress); [current.tmp] is scratch space of [switchTo]. *)
Record device := mkDevice {
    active : slot;
    slots : slot → image;
    stores : string → option node;
  }.

Definition confirmed (d : device) (x : slot) : bool :=
  bool_decide (is_Some (slots d x !! confirmedMarker)).
Definition pending (d : device) (x : slot) : option string := slots d x !! pendingMarker.

(** The image re-hashes to the checksum it was staged with. *)
Definition intact (m : image) : Prop :=
  ∃ fw sum, m !! firmwareFile = Some fw ∧ m !! checksumFile = Some sum ∧
            sha256hex fw = TrimSpace sum.

Definition is_store (name : string) : Prop :=
  name ∉ ["slotA"; "slotB"; "current"; "current.tmp"].

(** [s] is the directory of the device [d]. *)
Record rep (s : fs) (d : device) : Prop := {
    rep_dir x : s !! slotDir (slot_name x) = Some Dir;
    rep_current : s !! currentPath = Some (Link ("slot" +:+ slot_name (active d)));
    rep_tmp : s !! currentTmp ≠ Some Dir;
    rep_files x f : s !! Join (slotDir (slot_name x)) f = File <$> (slots d x !! f);
    rep_stores name : is_store name → s !! [name] = stores d name;
  }.

(** The three ways a device changes. *)
Definition put_file (d : device) (x : slot) (f data : string) : device :=
  mkDevice (active d) (<[x := <[f := data]> (slots d x)]> (slots d)) (stores d).
Definition del_file (d : device) (x : slot) (f : string) : device :=
  mkDevice (active d) (<[x := delete f (slots d x)]> (slots d)) (stores d).
Definition flip (d : device) (x : slot) : device := mkDevice x (slots d) (stores d).

(** ** The representation relation *)

Lemma slot_name_inj x y : "slot" +:+ slot_name x = "slot" +:+ slot_name y → x = y.
Proof. by destruct x, y. Qed.

Lemma other_twin x : other (slot_name x) = slot_name (twin x).
Proof. by destruct x. Qed.

Lemma active_name x : TrimPrefix (Base ("slot" +:+ slot_name x)) "slot" = slot_name x.
Proof. by destruct x. Qed.

Lemma file_path_ne x y f g :
  x ≠ y ∨ f ≠ g → Join (slotDir (slot_name x)) f ≠ Join (slotDir (slot_name y)) g.
Proof.
  unfold Join, slotDir. simpl. intros H [= Hs Hf].
  destruct H as [H|H]; [|done]. apply H. by destruct x, y.
Qed.

Lemma top_path_ne x f name : Join (slotDir (slot_name x)) f ≠ [name].
Proof. done. Qed.

Lemma rep_put s d x f data :
  rep s d → rep (<[Join (slotDir (slot_name x)) f := File data]> s) (put_file d x f data).
Proof.
  intros [Hd Hc Ht Hf Hs]. split; simpl; intros.
  1,2,3,5: rewrite lookup_insert_ne by done; auto.
  destruct (decide (x0 = x)) as [->|Hx].
  - rewrite fn_lookup_insert. destruct (decide (f0 = f)) as [->|Hff].
    + by rewrite !lookup_insert_eq.
    + rewrite !lookup_insert_ne; auto. apply file_path_ne. auto.
  - rewrite fn_lookup_insert_ne by done. rewrite lookup_insert_ne; [auto|].
    apply file_path_ne. auto.
Qed.

Lemma rep_del s d x f :
  rep s d → rep (delete (Join (slotDir (slot_name x)) f) s) (del_file d x f).
Proof.
  intros [Hd Hc Ht Hf Hs]. split; simpl; intros.
  1,2,3,5: rewrite lookup_delete_ne by done; auto.
  destruct (decide (x0 = x)) as [->|Hx].
  - rewrite fn_lookup_insert. destruct (decide (f0 = f)) as [->|Hff].
    + by rewrite !lookup_delete_eq.
    + rewrite !lookup_delete_ne; auto. apply file_path_ne. auto.
  - rewrite fn_lookup_insert_ne by done. rewrite lookup_delete_ne; [auto|].
    apply file_path_ne. auto.
Qed.

Lemma store_not_tmp name : is_store name → currentTmp ≠ [name].
Proof. intros H [= <-]. apply H. set_solver. Qed.
Lemma store_not_current name : is_store name → currentPath ≠ [name].
Proof. intros H [= <-]. apply H. set_solver. Qed.

Lemma rep_tmp_delete s d : rep s d → rep (delete currentTmp s) d.
Proof.
  intros [Hd Hc Ht Hf Hs]. split; intros.
  - by rewrite lookup_delete_ne by (by destruct x).
  - by rewrite lookup_delete_ne.
  - by rewrite lookup_delete_eq.
  - by rewrite lookup_delete_ne.
  - rewrite lookup_delete_ne by by apply store_not_tmp. auto.
Qed.

Lemma rep_tmp_link s d t : rep s d → rep (<[currentTmp := Link t]> s) d.
Proof.
  intros [Hd Hc Ht Hf Hs]. split; intros.
  - by rewrite lookup_insert_ne by (by destruct x).
  - by rewrite lookup_insert_ne.
  - by rewrite lookup_insert_eq.
  - by rewrite lookup_insert_ne.
  - rewrite lookup_insert_ne by by apply store_not_tmp. auto.
Qed.

Lemma rep_flip s d x :
  rep s d → rep (<[currentPath := Link ("slot" +:+ slot_name x)]> s) (flip d x).
Proof.
  intros [Hd Hc Ht Hf Hs]. split; intros.
  - by rewrite lookup_insert_ne by (by destruct x0).
  - by rewrite lookup_insert_eq.
  - by rewrite lookup_insert_ne.
  - by rewrite lookup_insert_ne.
  - rewrite lookup_insert_ne by by apply store_not_current. auto.
Qed.

Definition put_store (d : device) (name : string) (n : option node) : device :=
  mkDevice (active d) (slots d) (<[name := n]> (stores d)).

Lemma rep_store_insert s d name n :
  rep s d → is_store name → rep (<[[name] := n]> s) (put_store d name (Some n)).
Proof.
  intros [Hd Hc Ht Hf Hs] Hn. split; simpl; intros.
  - rewrite lookup_insert_ne; [auto|]. intros [= ->]. apply Hn. destruct x; set_solver.
  - rewrite lookup_insert_ne; [auto|]. intros E. by apply (store_not_current name).
  - rewrite lookup_insert_ne; [auto|]. intros E. by apply (store_not_tmp name).
  - by rewrite lookup_insert_ne.
  - destruct (decide (name = name0)) as [->|Hne].
    + by rewrite lookup_insert_eq, fn_lookup_insert.
    + rewrite lookup_insert_ne by congruence. rewrite fn_lookup_insert_ne; auto.
Qed.

Lemma rep_store_delete s d name :
  rep s d → is_store name → rep (delete [name] s) (put_store d name None).
Proof.
  intros [Hd Hc Ht Hf Hs] Hn. split; simpl; intros.
  - rewrite lookup_delete_ne; [auto|]. intros [= ->]. apply Hn. destruct x; set_solver.
  - rewrite lookup_delete_ne; [auto|]. intros E. by apply (store_not_current name).
  - rewrite lookup_delete_ne; [auto|]. intros E. by apply (store_not_tmp name).
  - by rewrite lookup_delete_ne.
  - destruct (decide (name = name0)) as [->|Hne].
    + by rewrite lookup_delete_eq, fn_lookup_insert.
    + rewrite lookup_delete_ne by congruence. rewrite fn_lookup_insert_ne; auto.
Qed.

(** ** Concrete devices *)

(** Two empty slots, A booted. *)
Definition blank_fs : fs :=
  <[slotDir "A" := Dir]> (<[slotDir "B" := Dir]> {[ currentPath := Link "slotA" ]}).
Definition blank : device := mkDevice SlotA (λ _, ∅) (λ _, None).

Lemma blank_rep : rep blank_fs blank.
Proof.
  split; simpl.
  - by intros [].
  - done.
  - done.
  - intros x f. rewrite lookup_empty. unfold blank_fs.
    rewrite !lookup_insert_ne by done. by apply lookup_singleton_ne.
  - intros name Hn. unfold blank_fs. unfold is_store in Hn.
    rewrite !not_elem_of_cons in Hn. destruct Hn as (? & ? & ? & ? & _).
    rewrite !lookup_insert_ne by (intros E; vm_compute in E; congruence).
    apply lookup_singleton_ne. intros E; vm_compute in E; congruence.
Qed.

(** Files put one by one into a slot of a device and of its directory. *)
Definition fill_fs (x : slot) (m : list (string * string)) (s : fs) : fs :=
  foldr (λ fb s, <[Join (slotDir (slot_name x)) fb.1 := File fb.2]> s) s m.
Definition fill (x : slot) (m : list (string * string)) (d : device) : device :=
  foldr (λ fb d, put_file d x fb.1 fb.2) d m.

Lemma fill_rep x m s d : rep s d → rep (fill_fs x m s) (fill x m d).
Proof. intros Hs. induction m as [|[f b] m IH]; simpl; [done|]. by apply rep_put. Qed.

(** The device as shipped. *)
Definition factory_files : list (string * string) :=
  [(confirmedMarker, ""); (versionFile, "factory")].
Definition factory_fs : fs := fill_fs SlotA factory_files blank_fs.
Definition factory : device := fill SlotA factory_files blank.

Lemma factory_rep : rep factory_fs factory.
Proof. apply fill_rep, blank_rep. Qed.

(** The shipped device with an image staged in slot B and promoted. *)
Definition abc_sum : string :=
  "ba7816bf8f01cfea414140de5dae2223b00361a396177a9cb410ff61f20015ad".
Definition abc_files : list (string * string) :=
  [(pendingMarker, "0"); (checksumFile, abc_sum); (versionFile, "2.0.0"); (firmwareFile, "abc")].
Definition trial_fs : fs :=
  <[currentPath := Link "slotB"]> (fill_fs SlotB abc_files factory_fs).
Definition trial : device := flip (fill SlotB abc_files factory) SlotB.

Lemma trial_rep : rep trial_fs trial.
Proof. apply (rep_flip _ _ SlotB), fill_rep, factory_rep. Qed.
