(* ===== verification/SlotLogic.v ===== *)
(** * Reasoning about the slot manager on the abstract device

    [dwp p J R d]: every run of [p] on a directory of the device [d] keeps the
    directory that of some device satisfying [J] between any two calls, and ends
    in a device satisfying [R].  One rule per system call of the manager, under a
    fault policy that lets reads succeed. *)

From S2P Require Import Prelude GoLib Sha256 Os Download Slot.
Open Scope Z_scope.

Implicit Types (s : fs) (d : device) (x : slot).

(** The calls that write a marker of a slot. *)
Definition commits (o : fsop) : bool :=
  match o with
  | WriteFile [_; f] _ => bool_decide (f = pendingMarker ∨ f = confirmedMarker)
  | _ => false
  end.

(** The directory is that of a device satisfying [J]. *)
Definition holds (J : device → Prop) : fs → Prop := λ s, ∃ d, rep s d ∧ J d.

Section logic.
Context (P : policy) (HP : ∀ o f, is_read o = true → P o f → f = NoFault).
Local Instance Psem : Sem fsS fs := fs_sem P.
Implicit Types (J : device → Prop).

Definition dwp {A} (p : prog fsS A) J (R : A → device → Prop) d : Prop :=
  ∀ s, rep s d → wpi p (holds J) (λ a s', ∃ d', rep s' d' ∧ R a d') s.

Lemma dwp_ret {A} (a : A) J (R : A → device → Prop) d : J d → R a d → dwp (Ret a) J R d.
Proof. intros HJ HR s Hs. split; [by exists d|]. by exists d. Qed.

Lemma dwp_bind {A B} (p : prog fsS A) (f : A → prog fsS B) J R d :
  dwp p J (λ a d', dwp (f a) J R d') d → dwp (bind p f) J R d.
Proof.
  intros H s Hs. apply wpi_bind. eapply wpi_mono; [by apply H|done|].
  intros a s' _ (d' & Hs' & Hd'). by apply Hd'.
Qed.

Lemma dwp_mono {A} (p : prog fsS A) J1 J2 (R1 R2 : A → device → Prop) d :
  dwp p J1 R1 d → (∀ d, J1 d → J2 d) → (∀ a d, R1 a d → R2 a d) → dwp p J2 R2 d.
Proof.
  intros H HJ HR s Hs. eapply wpi_mono; [by apply H|..].
  - intros s' (d' & ? & ?). exists d'. auto.
  - intros a s' _ (d' & ? & ?). exists d'. auto.
Qed.

Lemma dwp_map {A B} (p : prog fsS A) (f : A → B) J (R : B → device → Prop) d :
  dwp p J (λ a, R (f a)) d → dwp (bind p (λ a, Ret (f a))) J R d.
Proof.
  intros H s Hs. apply wpi_bind. eapply wpi_mono; [by apply H|done|].
  intros a s' HJ (d' & Hr & HR). split; [done|]. by exists d'.
Qed.

(** A call that answers [r] and leaves the device as it is. *)
Definition answers (o : fsop) d (r : fsres o) : Prop :=
  ∀ s f, rep s d → P o f → fs_exec f o s = (r, s).

Lemma dwp_answer (o : fsop) d (r : fsres o) J (R : fsres o → device → Prop) :
  answers o d r → J d → R r d → dwp (fcall o) J R d.
Proof.
  intros Ha HJ HR s Hs. split; [by exists d|]. intros r' s' (f & Hf & E).
  rewrite (Ha s f Hs Hf) in E. simplify_eq. split; by exists d.
Qed.

Lemma answers_readlink d :
  answers (Readlink currentPath) d (Ok ("slot" +:+ slot_name (active d))).
Proof.
  intros s f Hs Hf. apply HP in Hf as ->; [|done]. simpl.
  by rewrite (rep_current _ _ Hs).
Qed.

Lemma file_resolve s d x f :
  rep s d → resolve s (Join (slotDir (slot_name x)) f) = Join (slotDir (slot_name x)) f.
Proof. intros Hs. unfold resolve. rewrite (rep_files _ _ Hs). by destruct (_ !! f). Qed.

Lemma file_parent s d x f : rep s d → parent_ok s (Join (slotDir (slot_name x)) f) = true.
Proof.
  intros Hs. unfold parent_ok. simpl. apply bool_decide_eq_true. apply (rep_dir _ _ Hs).
Qed.

Lemma file_open_write s d x f op :
  rep s d →
  open_write s op (Join (slotDir (slot_name x)) f) = Ok (Join (slotDir (slot_name x)) f).
Proof.
  intros Hs. unfold open_write. rewrite (file_resolve _ _ _ _ Hs), (rep_files _ _ Hs).
  rewrite (file_parent _ _ _ _ Hs). by destruct (slots d x !! f).
Qed.

Definition file_result d x f : result goerr string :=
  match slots d x !! f with
  | Some b => Ok b
  | None => Err (PathError "open" (Join (slotDir (slot_name x)) f) ENOENT)
  end.

Lemma answers_readfile d x f :
  answers (ReadFile (Join (slotDir (slot_name x)) f)) d (file_result d x f).
Proof.
  intros s fl Hs Hf. apply HP in Hf as ->; [|done]. simpl.
  unfold read_file, file_result.
  rewrite (file_resolve _ _ _ _ Hs), (rep_files _ _ Hs). by destruct (slots d x !! f).
Qed.

Lemma answers_stat d x f :
  answers (Stat (Join (slotDir (slot_name x)) f)) d
  (match slots d x !! f with
   | Some b => Ok (str_len b)
   | None => Err (PathError "stat" (Join (slotDir (slot_name x)) f) ENOENT)
   end).
Proof.
  intros s fl Hs Hf. apply HP in Hf as ->; [|done]. simpl. unfold contents.
  rewrite (file_resolve _ _ _ _ Hs), (rep_files _ _ Hs). by destruct (slots d x !! f).
Qed.

Lemma answers_open_store d name b :
  is_store name → stores d name = Some (File b) → answers (Open [name]) d None.
Proof.
  intros Hn Hb s fl Hs Hf. apply HP in Hf as ->; [|done]. simpl. unfold resolve.
  rewrite (rep_stores _ _ Hs), Hb by done. by rewrite (rep_stores _ _ Hs), Hb.
Qed.

(** A call that changes the device in one of a few ways. *)
Lemma dwp_call (o : fsop) d J (R : fsres o → device → Prop) :
  J d →
  (∀ s f, rep s d → P o f →
   ∃ d', rep (fs_exec f o s).2 d' ∧ J d' ∧ R (fs_exec f o s).1 d') →
  dwp (fcall o) J R d.
Proof.
  intros HJ H s Hs. split; [by exists d|]. intros r s' (f & Hf & E).
  destruct (H s f Hs Hf) as (d' & Hr & HJ' & HR). rewrite E in Hr, HR.
  split; by exists d'.
Qed.

(** Some call can fail for an external reason. *)
Definition may_fail : Prop := ∃ o f, P o f ∧ f ≠ NoFault.

Lemma may_fail_intro o f : P o f → f ≠ NoFault → may_fail.
Proof. intros. by exists o, f. Qed.
Hint Resolve may_fail_intro : core.

(** Some write of a marker, which commits to a slot, can. *)
Definition commit_may_fail : Prop := ∃ o f, commits o = true ∧ P o f ∧ f ≠ NoFault.

Lemma commit_fails : commit_may_fail → may_fail.
Proof. intros (o & f & _ & ? & ?). by exists o, f. Qed.

(** Writing a file of a slot: done, refused, or cut short. *)
Lemma dwp_write_if (M : Prop) d x f data J (R : option goerr → device → Prop) :
  (∀ fl, P (WriteFile (Join (slotDir (slot_name x)) f) data) fl → fl ≠ NoFault → M) →
  J d → (M → ∀ e, R (Some e) d) →
  (J (put_file d x f data) ∧ R None (put_file d x f data)) →
  (M → ∀ n e, J (put_file d x f (str_take n data)) ∧
      R (Some e) (put_file d x f (str_take n data))) →
  dwp (fcall (WriteFile (Join (slotDir (slot_name x)) f) data)) J R d.
Proof.
  intros HM HJ Hfail [HJok Hok] Hcut. apply dwp_call; [done|]. intros s fl Hs Hf. cbn [fs_exec].
  rewrite (file_open_write _ _ _ _ _ Hs). unfold put.
  destruct fl as [| |n]; cbn.
  - exists (put_file d x f data). split_and!; [|done..].
  change ("" +:+ data) with data. by apply rep_put.
  - exists d. split_and!; eauto.
  - exists (put_file d x f (str_take n data)).
  change ("" +:+ str_take n data) with (str_take n data).
  assert M as Hm by eauto.
  split_and!; [by apply rep_put|by apply (Hcut Hm n (PathError "" [] EIO))|by apply Hcut].
Qed.

Lemma dwp_write d x f data J (R : option goerr → device → Prop) :
  J d → (may_fail → ∀ e, R (Some e) d) →
  (J (put_file d x f data) ∧ R None (put_file d x f data)) →
  (may_fail → ∀ n e, J (put_file d x f (str_take n data)) ∧
      R (Some e) (put_file d x f (str_take n data))) →
  dwp (fcall (WriteFile (Join (slotDir (slot_name x)) f) data)) J R d.
Proof. apply dwp_write_if. intros fl ??. by eapply may_fail_intro. Qed.

(** A marker: only a failure of such a write is to be reckoned with. *)
Lemma dwp_commit d x f data J (R : option goerr → device → Prop) :
  f = pendingMarker ∨ f = confirmedMarker →
  J d → (commit_may_fail → ∀ e, R (Some e) d) →
  (J (put_file d x f data) ∧ R None (put_file d x f data)) →
  (commit_may_fail → ∀ n e, J (put_file d x f (str_take n data)) ∧
      R (Some e) (put_file d x f (str_take n data))) →
  dwp (fcall (WriteFile (Join (slotDir (slot_name x)) f) data)) J R d.
Proof.
  intros Hf. apply dwp_write_if. intros fl ??. exists (WriteFile (Join (slotDir (slot_name x)) f) data), fl.
  split_and!; [|done..]. by destruct Hf as [-> | ->].
Qed.

Lemma dwp_create d x f J (R : option goerr → device → Prop) :
  J d → (may_fail → ∀ e, R (Some e) d) → J (put_file d x f "") → R None (put_file d x f "") →
  dwp (fcall (Create (Join (slotDir (slot_name x)) f))) J R d.
Proof.
  intros HJ Hfail HJok Hok. apply dwp_call; [done|]. intros s fl Hs Hf. cbn [fs_exec].
  rewrite (file_open_write _ _ _ _ _ Hs).
  destruct fl; cbn; [exists (put_file d x f "")|exists d..]; split_and!; eauto.
  by apply rep_put.
Qed.

(** Removing a file of a slot, present or not. *)
Lemma dwp_remove d x f J (R : option goerr → device → Prop) :
  J d →
  ((∃ fl, P (Remove (Join (slotDir (slot_name x)) f)) fl ∧ fl ≠ NoFault) ∨
   slots d x !! f = None → ∀ e, R (Some e) d) →
  (is_Some (slots d x !! f) → J (del_file d x f) ∧ R None (del_file d x f)) →
  dwp (fcall (Remove (Join (slotDir (slot_name x)) f))) J R d.
Proof.
  intros HJ Hfail Hok. apply dwp_call; [done|]. intros s fl Hs Hf. cbn [fs_exec].
  destruct fl as [| |n]; cbn [fst snd]; [|exists d; split_and!; eauto 6..].
  unfold remove. rewrite (rep_files _ _ Hs).
  destruct (slots d x !! f) as [b|] eqn:E; cbn [fmap option_fmap option_map fst snd].
  - exists (del_file d x f). destruct Hok; [done|]. split_and!; auto. by apply rep_del.
  - exists d. split_and!; eauto.
Qed.

Lemma dwp_close d p J (R : option goerr → device → Prop) :
  J d → R None d → (may_fail → ∀ e, R (Some e) d) → dwp (fcall (Close p)) J R d.
Proof.
  intros HJ HR Hfail. apply dwp_call; [done|]. intros s fl Hs Hf.
  exists d. destruct fl; cbn; split_and!; eauto.
Qed.
(** *** The manager's own operations *)

Lemma dwp_Active d J (R : result goerr string → device → Prop) :
  J d → R (Ok (slot_name (active d))) d → dwp Active J R d.
Proof.
  intros HJ HR. apply dwp_bind. eapply dwp_answer; [apply answers_readlink|done|].
  apply dwp_ret; [done|]. by rewrite active_name.
Qed.

Lemma dwp_read d x f J (R : result goerr string → device → Prop) :
  J d → R (file_result d x f) d →
  dwp (fcall (ReadFile (Join (slotDir (slot_name x)) f))) J R d.
Proof. intros. by eapply dwp_answer; [apply answers_readfile|..]. Qed.

Lemma dwp_verify d x f want J (R : option goerr → device → Prop) :
  J d →
  R (verify_result (slots d x !! f) (Join (slotDir (slot_name x)) f) want) d →
  dwp (VerifySHA256 (Join (slotDir (slot_name x)) f) want) J R d.
Proof.
  intros HJ HR s Hs.
  eapply wpi_mono with (I1 := λ s', s' = s);
  [apply (VerifySHA256_ok P s _ want (slots d x !! f)); auto|..].
  - apply (rep_files _ _ Hs).
  - intros s' ->. by exists d.
  - intros r s' _ [-> ->]. by exists d.
Qed.

(** The atomic switch: either the link is flipped, or nothing happened to it. *)
Lemma dwp_switchTo d y J (R : option goerr → device → Prop) :
  J d → J (flip d y) → (may_fail → ∀ e, R (Some e) d) → R None (flip d y) →
  dwp (switchTo (slot_name y)) J R d.
Proof.
  intros HJ HJf Herr Hok s Hs.
  split; [by exists d|]. intros r s1 (f1 & Hf1 & E1).
  assert (rep s1 d ∧ (s1 !! currentTmp = None ∨ may_fail)) as [Hs1 Htmp].
  { destruct f1; cbn in E1; simplify_eq; [|by eauto..]. unfold remove in E1.
  pose proof (rep_tmp _ _ Hs). fold currentTmp in E1.
  destruct (s !! currentTmp) as [[]|] eqn:Et; simplify_eq; auto;
  (split; [by apply rep_tmp_delete|left; apply lookup_delete_eq]). }
  clear E1 Hs s. split; [by exists d|]. intros [e|] s2 (f2 & Hf2 & E2).
  { assert (rep s2 d ∧ may_fail) as [? ?].
  { destruct f2; cbn in E2; simplify_eq; [|by eauto..]. unfold symlink in E2.
  fold currentTmp in E2. destruct (s1 !! currentTmp); simplify_eq.
  destruct Htmp; [done|by eauto]. }
  split; exists d; auto. }
  assert (s2 = <[currentTmp := Link ("slot" +:+ slot_name y)]> s1) as ->.
  { destruct f2; cbn in E2; simplify_eq. unfold symlink in E2.
  by repeat case_match; simplify_eq. }
  pose proof (rep_tmp_link _ _ ("slot" +:+ slot_name y) Hs1) as Hs2.
  split; [by exists d|]. intros r3 s3 (f3 & Hf3 & E3).
  destruct f3; cbn in E3; simplify_eq; [|split; exists d; eauto..].
  unfold rename in E3. fold currentTmp currentPath in E3.
  rewrite lookup_insert_eq, (rep_current _ _ Hs2) in E3. cbn in E3. simplify_eq.
  assert (rep (<[currentPath := Link ("slot" +:+ slot_name y)]> (delete currentTmp
  (<[currentTmp := Link ("slot" +:+ slot_name y)]> s1))) (flip d y)) as Hs3
  by (by apply rep_flip, rep_tmp_delete).
  split; by exists (flip d y).
Qed.

(** Copying a stored file into a file of a slot that was just created. *)
Lemma dwp_copyAndClose d x f name data J (R : option goerr → device → Prop) :
  J d → is_store name → stores d name = Some (File data) → slots d x !! f = Some "" →
  (may_fail → ∀ e, R (Some e) d) →
  (may_fail → ∀ part e, J (put_file d x f part) ∧ R (Some e) (put_file d x f part)) →
  J (put_file d x f data) → R None (put_file d x f data) →
  dwp (copyAndClose (Join (slotDir (slot_name x)) f) [name]) J R d.
Proof.
  intros HJ Hn Hd Hf Hfail Hpart HJok Hok.
  assert (∀ (r : result goerr Z) d', J d' → (may_fail → ∀ e, R (Some e) d') →
        match r with Ok _ => R None d' | Err _ => may_fail end →
        dwp (cerr <- fcall (Close (Join (slotDir (slot_name x)) f)) ;;
             Ret (match r with Ok _ => cerr | Err err => Some err end)) J R d') as Hclose.
  { intros r d' HJ' He' Hr. apply dwp_bind, dwp_close; [done|..].
  - apply dwp_ret; [done|]. destruct r; auto.
  - intros Hm e. apply dwp_ret; [done|]. destruct r; auto. }
  apply dwp_bind, dwp_call; [done|]. intros s fl Hs Hfl. cbn [fs_exec].
  assert (contents s [name] = data) as ->.
  { unfold contents, resolve. rewrite (rep_stores _ _ Hs), Hd by done.
  by rewrite (rep_stores _ _ Hs), Hd. }
  unfold contents. rewrite (file_resolve _ _ _ _ Hs), (rep_files _ _ Hs), Hf.
  unfold put. destruct fl as [| |n]; cbn [written fst snd fmap option_fmap option_map].
  - exists (put_file d x f data). split_and!; [by apply rep_put|done|].
  apply (Hclose (Ok (str_len data))); [done| |done]. intros Hm e. by apply Hpart.
  - exists d. split_and!; [done..|]. apply (Hclose (Err _)); eauto.
  - exists (put_file d x f (str_take n data)). assert may_fail as Hm by eauto.
  destruct (Hpart Hm (str_take n data) (PathError "" [] EIO)) as [? _].
  split_and!; [by apply rep_put|done|].
  apply (Hclose (Err _)); [done| |done]. intros _ e. by apply Hpart.
Qed.
End logic.

(** Total correctness of fault-free execution. *)
Lemma dwp_run {A} (p : prog fsS A) J (R : A → device → Prop) s d :
  rep s d → dwp fault_free p J R d →
  ∃ a s' d', run fs_run p s = Some (a, s') ∧ rep s' d' ∧ R a d'.
Proof.
  intros Hs H. destruct (fs_run_total p s) as (a & s' & E). exists a, s'.
  destruct (wpi_run (Sem0 := fs_sem fault_free) fs_run p _ _ s a s' fs_run_handles (H s Hs) E)
    as (d' & Hr & HR). by exists d'.
Qed.

(** Partial runs under faults, as steps. *)
Lemma dwp_steps {A} (P : policy) (p p' : prog fsS A) J (R : A → device → Prop) s d s' :
  rep s d → dwp P p J R d →
  rtc (pstep (Sem0 := fs_sem P)) (p, s) (p', s') →
  holds J s' ∧ (∀ a, p' = Ret a → ∃ d', rep s' d' ∧ R a d').
Proof.
  intros Hs H Hsteps. split; [exact (wpi_reachable _ _ _ _ _ _ (H s Hs) Hsteps)|].
  intros a ->. exact (wpi_result _ _ _ _ _ _ (H s Hs) Hsteps).
Qed.
