(* ===== verification/SlotSpec.v ===== *)
(** * The slot manager's operations on the abstract device

    For each operation of slot.go, what it can do to a device under any fault of
    the calls that write, at every intermediate point and at the end. *)

From S2P Require Import Prelude GoLib Sha256 Os Download Slot SlotLogic.
Open Scope Z_scope.

Implicit Types (s : fs) (d : device) (x : slot).

Create HintDb slots.

Lemma twin_ne x : twin x ≠ x.
Proof. by destruct x. Qed.
Lemma twin_twin x : twin (twin x) = x.
Proof. by destruct x. Qed.
#[export] Hint Resolve twin_ne : slots.

(** [d'] runs the same slot as [d], with the same content, and the same files
    are stored beside the slots. *)
Record same_running d d' : Prop := {
    same_active : active d' = active d;
    same_slot : slots d' (active d) = slots d (active d);
    same_stores : stores d' = stores d;
  }.

Lemma same_running_refl d : same_running d d.
Proof. done. Qed.

Lemma same_running_put d d' f b :
  same_running d d' → same_running d (put_file d' (twin (active d)) f b).
Proof.
  intros [Ha Hs Ho]. split; simpl; [done| |done].
  rewrite fn_lookup_insert_ne; auto with slots.
Qed.

Lemma same_running_del d d' f :
  same_running d d' → same_running d (del_file d' (twin (active d)) f).
Proof.
  intros [Ha Hs Ho]. split; simpl; [done| |done].
  rewrite fn_lookup_insert_ne; auto with slots.
Qed.

#[export] Hint Resolve same_running_refl same_running_put same_running_del : slots.

Lemma put_file_same d x f b : slots (put_file d x f b) x !! f = Some b.
Proof. simpl. rewrite fn_lookup_insert. apply lookup_insert_eq. Qed.

Lemma put_file_other d x f g b :
  f ≠ g → slots (put_file d x f b) x !! g = slots d x !! g.
Proof. intros. simpl. rewrite fn_lookup_insert. by apply lookup_insert_ne. Qed.

Lemma put_file_twin d x y f b : x ≠ y → slots (put_file d x f b) y = slots d y.
Proof. intros. simpl. by rewrite fn_lookup_insert_ne. Qed.

Lemma del_file_same d x f : slots (del_file d x f) x !! f = None.
Proof. simpl. rewrite fn_lookup_insert. apply lookup_delete_eq. Qed.

Lemma del_file_other d x f g :
  f ≠ g → slots (del_file d x f) x !! g = slots d x !! g.
Proof. intros. simpl. rewrite fn_lookup_insert. by apply lookup_delete_ne. Qed.

Lemma del_file_twin d x y f : x ≠ y → slots (del_file d x f) y = slots d y.
Proof. intros. simpl. by rewrite fn_lookup_insert_ne. Qed.

(** ** What staging leaves in the inactive slot *)

Record staged d d' (data version checksum : string) (clean : Prop) : Prop := {
    staged_same : same_running d d';
    staged_fw : slots d' (twin (active d)) !! firmwareFile = Some data;
    staged_version : slots d' (twin (active d)) !! versionFile = Some version;
    staged_sum : slots d' (twin (active d)) !! checksumFile = Some checksum;
    staged_clean : clean →
      confirmed d' (twin (active d)) = false ∧ pending d' (twin (active d)) = None;
  }.

Section specs.
Context (P : policy) (HP : ∀ o f, is_read o = true → P o f → f = NoFault).
Local Instance Psem : Sem fsS fs := fs_sem P.

(** [os.Remove] of an existing file succeeds. *)
Definition removes_ok : Prop := ∀ p f, P (Remove p) f → f = NoFault.

(** Dropping an old marker of the inactive slot, whatever [os.Remove] says. *)
Lemma dwp_drop d d' f (J : device → Prop) (R : option goerr → device → Prop) :
  same_running d d' →
  (∀ d', same_running d d' → J d') →
  (∀ r d1, same_running d d1 →
   (∀ g, g ≠ f → slots d1 (twin (active d)) !! g = slots d' (twin (active d)) !! g) →
   (removes_ok → slots d1 (twin (active d)) !! f = None) → R r d1) →
  dwp P (fcall (Remove (Join (slotDir (slot_name (twin (active d)))) f))) J R d'.
Proof.
  intros Hs HJ HR. apply dwp_remove; [auto|..].
  - intros Hf e. apply HR; [done|done|]. intros Hok.
  destruct Hf as [(fl & Hf & Hne)|Hf]; [by apply Hok in Hf|done].
  - intros _. split; [apply HJ|apply HR]; auto with slots.
  + intros g Hg. by apply del_file_other.
  + intros _. apply del_file_same.
Qed.

(** Writing the image: firmware, version and checksum, in this order. *)
Lemma dwp_image d d2 name data v c J R :
  let dir := slotDir (slot_name (twin (active d))) in
  is_store name → stores d name = Some (File data) → same_running d d2 →
  (removes_ok → confirmed d2 (twin (active d)) = false ∧
            pending d2 (twin (active d)) = None) →
  (∀ d', same_running d d' → J d') →
  (may_fail P → ∀ d' e, same_running d d' → R (Some e) d') →
  (∀ d', staged d d' data v c removes_ok → R None d') →
  dwp P
  (guard fcall (Create (Join dir firmwareFile)) catch err => Ret (Some err) ;;
   guard copyAndClose (Join dir firmwareFile) [name] catch err => Ret (Some err) ;;
   guard fcall (WriteFile (Join dir versionFile) v) catch err => Ret (Some err) ;;
   fcall (WriteFile (Join dir checksumFile) c)) J R d2.
Proof.
  intros dir Hn Hsrc H2 Hclean HJ Hfail Hok. unfold dir.
  apply dwp_bind, dwp_create; [auto|intros; apply dwp_ret; auto|auto with slots|].
  set (d3 := put_file d2 _ _ _).
  assert (same_running d d3) as H3 by (unfold d3; auto with slots).
  apply dwp_bind, (dwp_copyAndClose P d3 _ _ name data); [auto|done|..].
  { by rewrite (same_stores _ _ H3). }
  { apply put_file_same. }
  { intros; apply dwp_ret; auto. }
  { intros Hm part e. split; [auto with slots|]. apply dwp_ret; auto with slots. }
  { auto with slots. }
  set (d4 := put_file d3 _ _ _).
  assert (same_running d d4) as H4 by (unfold d4; auto with slots).
  apply dwp_bind, dwp_write; [auto|intros; apply dwp_ret; auto| |].
  2:{ intros Hm n e. split; [auto with slots|]. apply dwp_ret; auto with slots. }
  split; [auto with slots|]. set (d5 := put_file d4 _ _ _).
  assert (same_running d d5) as H5 by (unfold d5; auto with slots).
  apply dwp_write; [auto|auto| |]; [|intros Hm n e; auto with slots].
  split; [auto with slots|]. apply Hok.
  split; [auto with slots|..]; unfold d5, d4, d3, confirmed, pending.
  - rewrite !put_file_other by done. apply put_file_same.
  - rewrite put_file_other by done. apply put_file_same.
  - apply put_file_same.
  - by rewrite !put_file_other by done.
Qed.

(** Reading the link and opening the source when these may fail too. *)
Lemma dwp_Active_any d J (R : result goerr string → device → Prop) :
  J d → R (Ok (slot_name (active d))) d → (may_fail P → ∀ e, R (Err e) d) → dwp P Active J R d.
Proof.
  intros HJ HR Hfail. apply dwp_bind, dwp_call; [done|]. intros s f Hs Hf. exists d.
  destruct f; cbn; rewrite ?(rep_current _ _ Hs); (split_and!; [done|done|]); apply dwp_ret; try done.
  - by rewrite active_name.
  - apply Hfail. by eapply may_fail_intro.
  - apply Hfail. by eapply may_fail_intro.
Qed.

Lemma dwp_open_any d name src J (R : option goerr → device → Prop) :
  is_store name → stores d name = File <$> src → J d →
  (is_Some src → R None d) → (may_fail P ∨ src = None → ∀ e, R (Some e) d) →
  dwp P (fcall (Open [name])) J R d.
Proof.
  intros Hn Hsrc HJ HR Hfail. apply dwp_call; [done|]. intros s f Hs Hf. exists d.
  assert (resolve s [name] = [name] ∧ s !! [name] = File <$> src) as [Hres Hlk].
  { rewrite <-Hsrc, <-(rep_stores _ _ Hs) by done. split; [|done]. unfold resolve.
    rewrite (rep_stores _ _ Hs), Hsrc by done. by destruct src. }
  destruct f; cbn; rewrite ?Hres, ?Hlk.
  - split_and!; [by destruct src|done|]. destruct src; [by apply HR; eauto|by apply Hfail; right].
  - split_and!; [done|done|]. apply Hfail. left. by eapply may_fail_intro.
  - split_and!; [done|done|]. apply Hfail. left. by eapply may_fail_intro.
Qed.

Lemma dwp_Stage d name src v c J R :
  is_store name → stores d name = File <$> src →
  (∀ d', same_running d d' → J d') →
  (may_fail P ∨ src = None → ∀ d' e, same_running d d' → R (Some e) d') →
  (∀ d' data, src = Some data → staged d d' data v c removes_ok → R None d') →
  dwp P (Stage [name] v c) J R d.
Proof.
  intros Hn Hsrc HJ Hfail Hok.
  apply dwp_bind, dwp_Active_any; [auto with slots| |intros; apply dwp_ret; auto with slots].
  rewrite other_twin. apply dwp_bind, (dwp_drop d); [auto with slots|done|]. intros _ d1 H1 _ Hc1.
  apply dwp_bind, (dwp_drop d); [done|done|]. intros _ d2 H2 Hpres Hp2.
  apply dwp_bind, (dwp_open_any _ _ src); [done|by rewrite (same_stores _ _ H2)|auto| |].
  - intros [data ->].
    apply (dwp_image d d2 name data); [done|done|done| |done|auto|eauto]. intros Hr.
    unfold confirmed, pending. rewrite Hpres, Hc1, Hp2 by done. by split.
  - intros Hm e. apply dwp_ret; auto.
Qed.

(** Re-hashing a slot: nil exactly when its image is intact. *)
Lemma dwp_check d x wrapped J (R : option goerr → device → Prop) :
  J d → (∀ e, ¬ intact (slots d x) → R (Some e) d) → (intact (slots d x) → R None d) →
  dwp P (try want <- fcall (ReadFile (Join (slotDir (slot_name x)) checksumFile))
       catch err => Ret (Some (wrapped err)) ;;
     VerifySHA256 (Join (slotDir (slot_name x)) firmwareFile) (TrimSpace want)) J R d.
Proof.
  intros HJ Hfail Hok. apply dwp_bind, (dwp_read P HP); [done|]. unfold file_result.
  destruct (slots d x !! checksumFile) as [sum|] eqn:Es.
  2:{ apply dwp_ret; [done|]. apply Hfail. intros (fw & sum & _ & E & _). congruence. }
  apply (dwp_verify P HP); [done|]. unfold verify_result.
  destruct (slots d x !! firmwareFile) as [fw|] eqn:Ef.
  2:{ apply Hfail. intros (fw & sum' & E & _). congruence. }
  case_decide as Hsum; [apply Hok; by exists fw, sum|].
  apply Hfail. intros (fw' & sum' & E1 & E2 & E3). apply Hsum. congruence.
Qed.

Lemma dwp_VerifyStaged d J (R : option goerr → device → Prop) :
  J d → (∀ e, ¬ intact (slots d (twin (active d))) → R (Some e) d) →
  (intact (slots d (twin (active d))) → R None d) →
  dwp P VerifyStaged J R d.
Proof.
  intros. apply dwp_bind, (dwp_Active P HP); [done|]. rewrite other_twin.
  by apply dwp_check.
Qed.

Lemma dwp_SelfCheck d J (R : option goerr → device → Prop) :
  J d → (∀ e, ¬ intact (slots d (active d)) → R (Some e) d) →
  (intact (slots d (active d)) → R None d) →
  dwp P SelfCheck J R d.
Proof.
  intros. apply dwp_bind, (dwp_Active P HP); [done|]. by apply dwp_check.
Qed.

Lemma dwp_PromoteStaged d J R :
  let x := twin (active d) in
  J d → (may_fail P → ∀ e, R (EmptyString, Some e) d) →
  (may_fail P → ∀ b, J (put_file d x pendingMarker b) ∧
    ∀ e, R (EmptyString, Some e) (put_file d x pendingMarker b)) →
  J (put_file d x pendingMarker "0") →
  (may_fail P → ∀ e, R (slot_name x, Some e) (put_file d x pendingMarker "0")) →
  J (flip (put_file d x pendingMarker "0") x) →
  R (slot_name x, None) (flip (put_file d x pendingMarker "0") x) →
  dwp P PromoteStaged J R d.
Proof.
  intros x HJ Hfail Hpart HJp Herr HJok Hok.
  apply dwp_bind, (dwp_Active P HP); [done|]. rewrite other_twin. fold x.
  apply dwp_bind, dwp_write; [done|intros; by apply dwp_ret; auto| |].
  2:{ intros Hm n e. split; [by apply Hpart|by apply dwp_ret; apply Hpart]. }
  split; [done|]. apply dwp_bind, dwp_switchTo; [done|done|..].
  - intros Hm e. by apply dwp_ret; auto.
  - by apply dwp_ret.
Qed.

(** Falling back from slot [y]: its marker is dropped, then the link is flipped. *)
Lemma dwp_rollback d y J (R : option goerr → device → Prop) :
  let d1 := match pending d y with None => d | Some _ => del_file d y pendingMarker end in
  J d → J d1 → J (flip d1 (twin y)) → R None (flip d1 (twin y)) →
  (may_fail P → J (flip d (twin y)) ∧ R None (flip d (twin y)) ∧
            ∀ e, R (Some e) d ∧ R (Some e) d1) →
  dwp P (rollback (slot_name y)) J R d.
Proof.
  intros d1 HJ HJ1 HJf Hok Hfail.
  apply dwp_bind, dwp_remove; [done|..]; rewrite other_twin; fold (pending d y).
  - intros [(fl & Hf & Hne)|Hn] e.
  + assert (may_fail P) as Hm by by eapply may_fail_intro.
  destruct (Hfail Hm) as (? & ? & He). by apply dwp_switchTo; [..|intros _ e'; apply He|].
  + unfold d1 in *. rewrite Hn in *. apply dwp_switchTo; [done|done| |done].
  intros Hm e'. by apply Hfail.
  - intros [b Hb]. unfold d1 in *. rewrite Hb in *. split; [done|].
  apply dwp_switchTo; [done|done| |done]. intros Hm e'. by apply Hfail.
Qed.

Lemma dwp_Confirm d J (R : option goerr → device → Prop) :
  let y := active d in
  let d1 := put_file d y confirmedMarker "" in
  J d → (commit_may_fail P → ∀ e, R (Some e) d) → J d1 →
  (may_fail P ∨ pending d y = None → ∀ e, R (Some e) d1) →
  (is_Some (pending d y) → J (del_file d1 y pendingMarker) ∧
                       R None (del_file d1 y pendingMarker)) →
  dwp P Confirm J R d.
Proof.
  intros y d1 HJ Hfail HJ1 Hfail1 Hok.
  apply dwp_bind, (dwp_Active P HP); [done|]. fold y.
  apply dwp_bind, dwp_commit; [by right|done|intros; by apply dwp_ret; auto| |].
  2:{ intros Hm%commit_fails n e. replace (str_take n "") with "" by by destruct n. fold d1.
  split; [done|by apply dwp_ret; auto]. }
  fold d1. split; [done|]. unfold pending in *.
  assert (slots d1 y !! pendingMarker = slots d y !! pendingMarker) as Hp
  by by apply put_file_other.
  apply dwp_remove; [done|..]; rewrite Hp; [|done].
  intros [(fl & Hf & Hne)|Hn]; apply Hfail1; [left|by right].
  by eapply may_fail_intro.
Qed.
End specs.
