(* ===== verification/Boot.v ===== *)
(** * The bootloader contract

    [BootCheck] and the agent's [bootSequence] against an abstract bootloader on
    devices, and the properties that make the update un-brickable: the running
    slot is never touched, the switch is announced before it happens, a trial
    boots at most once, and a device with a confirmed slot always comes back to
    one, whatever was interrupted. *)

From S2P Require Import Prelude GoLib Sha256 Os Download Slot SlotLogic SlotSpec.
Open Scope Z_scope.

Implicit Types (s : fs) (d : device) (x y : slot).

(** ** agent.go: bootSequence *)

(** The closing log line reads the active slot and its version. *)
Definition booted : prog fsS (option goerr) :=
  do Active ;; do ActiveVersion ;; Ret None.

Definition bootSequence : prog fsS (option goerr) :=
  r <- BootCheck ;;
  match r with
  | (_, Some err) => Ret (Some err)
  | (Some BootTrial, None) =>
      check <- SelfCheck ;;
      match check with
      | Some _ => Rollback
      | None => guard Confirm catch err => Ret (Some err) ;; booted
      end
  | (_, None) => booted
  end.

(** ** The abstract bootloader *)

Global Instance intact_dec (m : image) : Decision (intact m).
Proof.
  unfold intact.
  destruct (m !! firmwareFile) as [fw|]; [|right; by intros (? & ? & [=] & _)].
  destruct (m !! checksumFile) as [sum|]; [|right; by intros (? & ? & _ & [=] & _)].
  destruct (decide (sha256hex fw = TrimSpace sum)) as [E|E].
  - left. by exists fw, sum.
  - right. by intros (? & ? & [= <-] & [= <-] & ?).
Defined.

Definition tries (b : string) : Z := Atoi (TrimSpace b).

(** What a boot finds: a sealed slot, a first trial, or one to fall back from. *)
Definition boot_decision (d : device) : BootResult :=
  if confirmed d (active d) then BootNormal
  else match pending d (active d) with
       | None => BootRolledBack
       | Some b => if 1 <=? tries b then BootRolledBack else BootTrial
       end.

Definition drop_pending (d : device) : device :=
  match pending d (active d) with
  | None => d
  | Some _ => del_file d (active d) pendingMarker
  end.

Definition fall_back (d : device) : device := flip (drop_pending d) (twin (active d)).

Definition spend (d : device) (b : string) : device :=
  put_file d (active d) pendingMarker (Itoa (int64 (tries b + 1))).

Definition seal (d : device) : device :=
  drop_pending (put_file d (active d) confirmedMarker "").

(** The device after the boot check alone, and after the whole boot sequence. *)
Definition boot_check (d : device) : device :=
  match boot_decision d, pending d (active d) with
  | BootNormal, _ => d
  | BootRolledBack, _ => fall_back d
  | BootTrial, b => spend d (default "" b)
  end.

Definition boot (d : device) : device :=
  match boot_decision d with
  | BootTrial =>
      if decide (intact (slots d (active d)))
      then seal (boot_check d) else fall_back (boot_check d)
  | _ => boot_check d
  end.

(** ** Lemmas on devices *)

Lemma confirmed_put_pending d x b y :
  confirmed (put_file d x pendingMarker b) y = confirmed d y.
Proof.
  unfold confirmed. destruct (decide (x = y)) as [->|Hne].
  - by rewrite put_file_other.
  - by rewrite put_file_twin.
Qed.

Lemma confirmed_del_pending d x y : confirmed (del_file d x pendingMarker) y = confirmed d y.
Proof.
  unfold confirmed. destruct (decide (x = y)) as [->|Hne].
  - by rewrite del_file_other.
  - by rewrite del_file_twin.
Qed.

Lemma confirmed_flip d x y : confirmed (flip d x) y = confirmed d y.
Proof. done. Qed.

Lemma confirmed_put_confirmed d x b : confirmed (put_file d x confirmedMarker b) x = true.
Proof. unfold confirmed. rewrite put_file_same. by apply bool_decide_eq_true. Qed.

Lemma confirmed_put_mono d x b y :
  confirmed d y = true → confirmed (put_file d x confirmedMarker b) y = true.
Proof.
  destruct (decide (x = y)) as [->|Hne]; [intros; apply confirmed_put_confirmed|].
  unfold confirmed. by rewrite put_file_twin.
Qed.

Lemma confirmed_drop d y : confirmed (drop_pending d) y = confirmed d y.
Proof. unfold drop_pending. case_match; [apply confirmed_del_pending|done]. Qed.

Create Rewrite HintDb slots.
#[export] Hint Rewrite confirmed_put_pending confirmed_del_pending confirmed_flip
  confirmed_put_confirmed confirmed_drop : slots.

Lemma intact_put_marker d x y f b :
  f = pendingMarker ∨ f = confirmedMarker →
  intact (slots (put_file d x f b) y) ↔ intact (slots d y).
Proof.
  intros Hf. unfold intact. destruct (decide (x = y)) as [->|Hne].
  - rewrite !put_file_other by (destruct Hf; by subst). done.
  - by rewrite put_file_twin.
Qed.

Lemma active_drop d : active (drop_pending d) = active d.
Proof. unfold drop_pending. by case_match. Qed.

(** A device that can always be booted: some slot is confirmed. *)
Definition recoverable (d : device) : Prop := ∃ x, confirmed d x = true.

Lemma recoverable_same d d' :
  (∀ y, confirmed d y = true → confirmed d' y = true) → recoverable d → recoverable d'.
Proof. intros H [x Hx]. exists x. auto. Qed.

Lemma recoverable_twin d :
  recoverable d → confirmed d (active d) = false → confirmed d (twin (active d)) = true.
Proof. intros [x Hx] Hn. destruct x, (active d); simpl in *; congruence. Qed.

Ltac still := (eapply recoverable_same; [|eassumption]); intros ?;
  autorewrite with slots; auto using confirmed_put_mono.

Section boot_specs.
Context (P : policy) (HP : ∀ o f, is_read o = true → P o f → f = NoFault).
Local Instance Psem' : Sem fsS fs := fs_sem P.

(** The three branches of [BootCheck], with every way each can fail. *)
Lemma dwp_BootCheck d J R :
  let y := active d in
  J d →
  (boot_decision d = BootNormal → R (Some BootNormal, None) d) →
  (boot_decision d = BootRolledBack →
   dwp P (rollback (slot_name y)) J (λ e, R (Some BootRolledBack, e)) d) →
  (∀ b, boot_decision d = BootTrial → pending d y = Some b →
   (commit_may_fail P → ∀ e, R (None, Some e) d ∧
    ∀ c, J (put_file d y pendingMarker c) ∧
         R (None, Some e) (put_file d y pendingMarker c)) ∧
   J (spend d b) ∧ R (Some BootTrial, None) (spend d b)) →
  dwp P BootCheck J R d.
Proof.
  intros y HJ Hnormal Hback Htrial. unfold boot_decision in *. fold y in Hnormal, Hback, Htrial.
  apply dwp_bind, (dwp_Active P HP); [done|]. fold y.
  apply dwp_bind. eapply (dwp_answer P); [apply (answers_stat P HP)|done|].
  unfold confirmed in *. destruct (slots d y !! confirmedMarker) as [c|]; cbn [is_ok].
  { apply dwp_ret; auto. }
  apply dwp_bind, (dwp_read P HP); [done|]. unfold file_result.
  fold (pending d y). destruct (pending d y) as [b|] eqn:Ep.
  2:{ by apply dwp_map, Hback. }
  fold (tries b). destruct (1 <=? tries b) eqn:Et.
  { by apply dwp_map, Hback. }
  destruct (Htrial b eq_refl eq_refl) as (Hpart & HJs & Hok).
  apply dwp_bind, dwp_commit; [by left|done|..].
  - intros Hm e. apply dwp_ret; [done|]. by apply Hpart.
  - split; [done|]. by apply dwp_ret.
  - intros Hm n e. destruct (Hpart Hm e) as [_ Hc]. split; [apply Hc|].
  apply dwp_ret; apply Hc.
Qed.

Lemma dwp_booted d J (R : option goerr → device → Prop) :
  J d → R None d → dwp P booted J R d.
Proof.
  intros HJ HR. apply dwp_bind, (dwp_Active P HP); [done|].
  apply dwp_bind, dwp_bind, (dwp_Active P HP); [done|].
  apply dwp_bind, (dwp_read P HP); [done|]. unfold file_result.
  destruct (_ !! versionFile); by repeat apply dwp_ret.
Qed.

Lemma dwp_Rollback d J (R : option goerr → device → Prop) :
  J d → dwp P (rollback (slot_name (active d))) J R d → dwp P Rollback J R d.
Proof. intros HJ HR. by apply dwp_bind, (dwp_Active P HP). Qed.
End boot_specs.

(** ** The boot sequence refines the abstract bootloader *)

Definition no_faults : ∀ o f, is_read o = true → fault_free o f → f = NoFault :=
  λ _ _ _ H, H.

Lemma fault_free_sure : ¬ may_fail fault_free.
Proof. by intros (o & f & Hf & Hne). Qed.

Definition anything : device → Prop := λ _, True.

Lemma rollback_refines d (R : option goerr → device → Prop) :
  R None (fall_back d) → dwp fault_free (rollback (slot_name (active d))) anything R d.
Proof.
  intros HR. apply dwp_rollback; [done..|exact HR|]. intros Hm. by destruct fault_free_sure.
Qed.

Lemma BootCheck_refines d (R : option BootResult * option goerr → device → Prop) :
  R (Some (boot_decision d), None) (boot_check d) →
  dwp fault_free BootCheck anything R d.
Proof.
  unfold boot_check. intros HR. apply (dwp_BootCheck _ no_faults); [done|..].
  - intros E. by rewrite E in HR.
  - intros E. rewrite E in HR. by apply rollback_refines.
  - intros b E Ep. rewrite E, Ep in HR. split; [by intros []%commit_fails%fault_free_sure|done].
Qed.

Lemma SelfCheck_refines d (R : option goerr → device → Prop) :
  (∀ r, (r = None ↔ intact (slots d (active d))) → R r d) →
  dwp fault_free SelfCheck anything R d.
Proof. intros HR. apply (dwp_SelfCheck _ no_faults); [done|..]; intros; by apply HR. Qed.

Lemma Confirm_refines d (R : option goerr → device → Prop) :
  is_Some (pending d (active d)) → R None (seal d) → dwp fault_free Confirm anything R d.
Proof.
  intros [b Hb] HR. apply (dwp_Confirm _ no_faults); [done|by intros []%commit_fails%fault_free_sure|done|..].
  - intros [[]%fault_free_sure|Hn]. congruence.
  - intros _. split; [done|]. unfold seal, drop_pending, pending in *. cbn [active put_file] in HR.
    by rewrite put_file_other, Hb in HR.
Qed.

Lemma pending_spend d b : is_Some (pending (spend d b) (active (spend d b))).
Proof. unfold pending, spend. cbn [active put_file]. rewrite put_file_same. eauto. Qed.

Lemma intact_spend d b : intact (slots (spend d b) (active d)) ↔ intact (slots d (active d)).
Proof. apply intact_put_marker. by left. Qed.

Lemma bootSequence_refines d :
  dwp fault_free bootSequence anything (λ r d', r = None ∧ d' = boot d) d.
Proof.
  apply dwp_bind, BootCheck_refines. unfold boot.
  destruct (boot_decision d) eqn:Ed; [by apply (dwp_booted _ no_faults)| |
                                      by apply (dwp_booted _ no_faults)].
  assert (∃ b, boot_check d = spend d b) as [b ->].
  { unfold boot_check. rewrite Ed. eauto. }
  apply dwp_bind, SelfCheck_refines. intros r Hr.
  change (active (spend d b)) with (active d) in Hr. rewrite intact_spend in Hr.
  destruct r as [e|]; case_decide as Hi; [by apply Hr in Hi| | |by destruct Hi; apply Hr].
  - apply (dwp_Rollback _ no_faults); [done|]. by apply rollback_refines.
  - apply dwp_bind, Confirm_refines; [apply pending_spend|].
    by apply (dwp_booted _ no_faults).
Qed.

(** ** What the abstract bootloader guarantees *)

Lemma Itoa_one : tries (Itoa (int64 (0 + 1))) = 1.
Proof. by vm_compute. Qed.

Lemma fall_back_active d : active (fall_back d) = twin (active d).
Proof. done. Qed.

Lemma confirmed_fall_back d y : confirmed (fall_back d) y = confirmed d y.
Proof. unfold fall_back. by rewrite confirmed_flip, confirmed_drop. Qed.

Lemma confirmed_spend d b y : confirmed (spend d b) y = confirmed d y.
Proof. apply confirmed_put_pending. Qed.

Lemma confirmed_seal d : confirmed (seal d) (active d) = true.
Proof. unfold seal. by rewrite confirmed_drop, confirmed_put_confirmed. Qed.

Lemma active_seal d : active (seal d) = active d.
Proof. unfold seal. by rewrite active_drop. Qed.

Lemma boot_confirms d : recoverable d → confirmed (boot d) (active (boot d)) = true.
Proof.
  intros Hr. unfold boot, boot_check. destruct (boot_decision d) eqn:Ed.
  - unfold boot_decision in Ed. by repeat case_match.
  - assert (confirmed d (active d) = false) as Hn.
    { unfold boot_decision in Ed. by destruct (confirmed d (active d)). }
    case_decide.
    + rewrite active_seal. apply confirmed_seal.
    + rewrite fall_back_active, confirmed_fall_back, confirmed_spend.
      exact (recoverable_twin d Hr Hn).
  - rewrite fall_back_active, confirmed_fall_back. apply recoverable_twin; [done|].
    unfold boot_decision in Ed. by destruct (confirmed d (active d)).
Qed.

(** Every file of a slot except the two markers. *)
Definition payload (f : string) : Prop := f ≠ pendingMarker ∧ f ≠ confirmedMarker.

Lemma drop_payload d x f : payload f → slots (drop_pending d) x !! f = slots d x !! f.
Proof.
  intros [Hp _]. unfold drop_pending. case_match; [|done].
  destruct (decide (active d = x)) as [<-|Hne]; [by rewrite del_file_other|].
  by rewrite del_file_twin.
Qed.

Lemma put_payload d x y f g b :
  f ≠ g → slots (put_file d x g b) y !! f = slots d y !! f.
Proof.
  intros Hf. destruct (decide (x = y)) as [<-|Hne]; [by rewrite put_file_other|].
  by rewrite put_file_twin.
Qed.

Lemma boot_payload d x f : payload f → slots (boot d) x !! f = slots d x !! f.
Proof.
  intros Hf. pose proof Hf as [Hp Hc]. unfold boot, boot_check, seal, fall_back.
  destruct (boot_decision d); simpl slots; rewrite ?drop_payload by done; [done| |done].
  case_decide; simpl slots; rewrite !drop_payload by done; unfold spend;
    by rewrite !put_payload by done.
Qed.

(** ** Properties *)

(** C7. The boot sequence refines the abstract bootloader.  On the directory of
    any device [d], a run without faults terminates, returns nil and leaves the
    directory of [boot d]: a sealed slot is booted as it is; an unsealed one
    without a marker, or whose one attempt is spent, is dropped for its twin; a
    first trial is sealed if its image re-hashes and dropped otherwise. *)
Theorem boot_sequence_refines s d :
  rep s d → ∃ s', run fs_run bootSequence s = Some (None, s') ∧ rep s' (boot d).
Proof.
  intros Hs. destruct (dwp_run _ _ _ _ _ Hs (bootSequence_refines d))
    as (a & s' & d' & E & Hr & -> & ->). by exists s'.
Qed.

(** C15. A device with a sealed slot always comes back.  One boot of a device on
    which some slot is confirmed ends, without an error, in a confirmed slot;
    the slot it left was not intact or had its chance; firmware, version and
    checksum of both slots are what they were. *)
Theorem boot_always_recovers s d :
  rep s d → recoverable d →
  ∃ s' d', run fs_run bootSequence s = Some (None, s') ∧ rep s' d' ∧
    confirmed d' (active d') = true ∧
    (∀ x f, payload f → slots d' x !! f = slots d x !! f) ∧
    (active d' = active d → confirmed d (active d) = true ∨ intact (slots d (active d))).
Proof.
  intros Hs Hr. destruct (dwp_run _ _ _ _ _ Hs (bootSequence_refines d))
    as (a & s' & d' & E & Hrep & -> & ->). exists s', (boot d). split_and!; try done.
  - by apply boot_confirms.
  - intros. by apply boot_payload.
  - unfold boot, boot_check. destruct (boot_decision d) eqn:Ed.
    + intros _. left. unfold boot_decision in Ed. by repeat case_match.
    + case_decide; [by right|]. intros H'. by apply twin_ne in H'.
    + intros H'. by apply twin_ne in H'.
Qed.

(** C36. A trial boots once.  If the boot check grants a trial, the next boot
    check, unless the slot was confirmed in between, rolls back to the twin. *)
Theorem trial_boots_once s d :
  rep s d → boot_decision d = BootTrial → tries (default "" (pending d (active d))) = 0 →
  ∃ s1 s2, run fs_run BootCheck s = Some ((Some BootTrial, None), s1) ∧
           run fs_run BootCheck s1 = Some ((Some BootRolledBack, None), s2) ∧
           rep s2 (fall_back (boot_check d)) ∧
           active (fall_back (boot_check d)) = twin (active d).
Proof.
  intros Hs Ed Ht.
  destruct (dwp_run _ _ (λ r d', r = (Some (boot_decision d), None) ∧ d' = boot_check d)
    _ _ Hs (BootCheck_refines d _ (conj eq_refl eq_refl))) as (r1 & s1 & d1 & E1 & Hr1 & -> & ->).
  destruct (dwp_run _ _ (λ r d', r = (Some (boot_decision (boot_check d)), None) ∧
    d' = boot_check (boot_check d)) _ _ Hr1 (BootCheck_refines _ _ (conj eq_refl eq_refl)))
    as (r2 & s2 & d2 & E2 & Hr2 & -> & ->).
  assert (boot_decision (boot_check d) = BootRolledBack) as Ed2.
  { unfold boot_check. rewrite Ed. unfold boot_decision in Ed |- *.
    change (active (spend d ?b)) with (active d). rewrite confirmed_spend.
    destruct (confirmed d (active d)); [done|].
    unfold pending at 1, spend. rewrite put_file_same, Ht. by vm_compute. }
  rewrite Ed in E1. rewrite Ed2 in E2. exists s1, s2. split_and!; [done|done| |].
  - unfold boot_check at 1 in Hr2. by rewrite Ed2 in Hr2.
  - unfold boot_check. by rewrite Ed.
Qed.

(** ** Under faults *)

Definition reads_succeed : ∀ o f, is_read o = true → write_faults o f → f = NoFault :=
  λ o f Hr Hw, Hw Hr.

Definition ignore {A} : A → device → Prop := λ _ _, True.

(** What the boot sequence keeps of the device it started on: the confirmed slots,
    and every file but the markers; only an intact slot gets confirmed. *)
Record boot_safe d d' : Prop := {
    safe_confirmed y : confirmed d y = true → confirmed d' y = true;
    safe_sealed y : confirmed d' y = true → confirmed d y = true ∨ intact (slots d y);
    safe_payload y f : payload f → slots d' y !! f = slots d y !! f;
    safe_stores : stores d' = stores d;
  }.

Lemma boot_safe_refl d : boot_safe d d.
Proof. split; auto. Qed.

Lemma intact_payload (m1 m2 : image) :
  (∀ f, payload f → m1 !! f = m2 !! f) → intact m1 → intact m2.
Proof. intros H (fw & sum & E1 & E2 & E3). exists fw, sum. by rewrite <-!H. Qed.

Lemma boot_safe_put d d' y b : boot_safe d d' → boot_safe d (put_file d' y pendingMarker b).
Proof.
  intros [Hc Hs Hp Ho]. split; [..|done]; intros z; rewrite ?confirmed_put_pending; auto.
  intros f [Hf ?]. rewrite put_payload by done. by apply Hp.
Qed.

Lemma boot_safe_del d d' y : boot_safe d d' → boot_safe d (del_file d' y pendingMarker).
Proof.
  intros [Hc Hs Hp Ho]. split; [..|done]; intros z; rewrite ?confirmed_del_pending; auto.
  intros f Hf. destruct (decide (y = z)) as [<-|Hne].
  - rewrite del_file_other by (by destruct Hf). by apply Hp.
  - rewrite del_file_twin by done. by apply Hp.
Qed.

Lemma boot_safe_flip d d' y : boot_safe d d' → boot_safe d (flip d' y).
Proof. by intros []. Qed.

Lemma boot_safe_confirm d d' y b :
  boot_safe d d' → intact (slots d' y) → boot_safe d (put_file d' y confirmedMarker b).
Proof.
  intros [Hc Hs Hp Ho] Hi. split; [..|done]; intros z.
  - intros. by apply confirmed_put_mono, Hc.
  - destruct (decide (y = z)) as [<-|Hne].
    + intros _. right. apply (intact_payload (slots d' y)); auto.
    + unfold confirmed. rewrite put_file_twin by done. apply Hs.
  - intros f [? Hf]. rewrite put_payload by done. by apply Hp.
Qed.

#[export] Hint Resolve boot_safe_refl boot_safe_put boot_safe_del boot_safe_flip
  boot_safe_confirm : slots.

Lemma boot_safe_rollback d d' (R : option goerr → device → Prop) :
  boot_safe d d' → (∀ e d1, boot_safe d d1 → R e d1) →
  dwp write_faults (rollback (slot_name (active d'))) (boot_safe d) R d'.
Proof.
  intros Hs HR.
  assert (boot_safe d (match pending d' (active d') with
    | None => d' | Some _ => del_file d' (active d') pendingMarker end))
    by (case_match; auto with slots).
  apply dwp_rollback; auto 6 with slots.
Qed.

Lemma BootCheck_safe d d' :
  boot_safe d d' →
  dwp write_faults BootCheck (boot_safe d) (λ _, boot_safe d) d'.
Proof.
  intros Hs. apply (dwp_BootCheck _ reads_succeed); [done|done|..].
  - intros _. by apply boot_safe_rollback.
  - intros b _ _. unfold spend. split; [|auto with slots].
    intros _ e. split; [done|]. intros c. auto with slots.
Qed.

Lemma bootSequence_safe d : dwp write_faults bootSequence (boot_safe d) ignore d.
Proof.
  assert (∀ d' (r : option goerr), boot_safe d d' →
            dwp write_faults (Ret r) (boot_safe d) ignore d') as Hret by (by intros; apply dwp_ret).
  assert (∀ d', boot_safe d d' → dwp write_faults booted (boot_safe d) ignore d') as Hboot
    by (by intros; apply (dwp_booted _ reads_succeed)).
  apply dwp_bind. eapply dwp_mono; [apply BootCheck_safe; auto with slots|done|].
  intros [[[]|] [e|]] d1 H1; auto.
  apply dwp_bind, (dwp_SelfCheck _ reads_succeed); [done|..].
  - intros e _. apply (dwp_Rollback _ reads_succeed); [done|]. by apply boot_safe_rollback.
  - intros Hi. apply dwp_bind, (dwp_Confirm _ reads_succeed); auto with slots.
Qed.

(** A boot that gets through ends in a confirmed slot, whatever writes fail. *)
Lemma rollback_confirms P d :
  confirmed d (twin (active d)) = true →
  dwp P (rollback (slot_name (active d))) anything
    (λ r d', r = None → confirmed d' (active d') = true) d.
Proof.
  intros Hc. apply dwp_rollback; [done..| |].
  - intros _. cbn [active flip]. rewrite confirmed_flip. case_match; [by rewrite confirmed_del_pending|done].
  - intros _. split_and!; [done| |done]. intros _. exact Hc.
Qed.

Lemma bootSequence_confirms P (HP : ∀ o f, is_read o = true → P o f → f = NoFault) d :
  recoverable d →
  dwp P bootSequence anything (λ r d', r = None → confirmed d' (active d') = true) d.
Proof.
  intros Hr. apply dwp_bind, (dwp_BootCheck P HP); [done|..].
  - intros E. apply (dwp_booted P HP); [done|]. intros _.
    unfold boot_decision in E. by repeat case_match.
  - intros E. eapply dwp_mono; [apply rollback_confirms|done|].
    + apply (recoverable_twin d Hr). unfold boot_decision in E. by destruct (confirmed d (active d)).
    + intros [e|] d' H; [by apply dwp_ret|]. by apply (dwp_booted P HP); [|intros _; apply H].
  - intros b E Hb. assert (confirmed d (active d) = false) as Hn
      by (unfold boot_decision in E; by destruct (confirmed d (active d))).
    split; [intros _ e; split; [|intros c; split; [done|]]; by apply dwp_ret|]. split; [done|].
    apply dwp_bind, (dwp_SelfCheck P HP); [done|..].
    + intros e _. apply (dwp_Rollback P HP); [done|]. apply rollback_confirms.
      rewrite confirmed_spend. exact (recoverable_twin d Hr Hn).
    + intros _. apply dwp_bind, (dwp_Confirm P HP); [done|by intros; apply dwp_ret|done| |].
      * by intros; apply dwp_ret.
      * intros _. split; [done|]. apply (dwp_booted P HP); [done|]. intros _.
        cbn [active del_file put_file]. by rewrite confirmed_del_pending, confirmed_put_confirmed.
Qed.

(** C19. Power may fail during the recovery too.  Whatever writes fail and
    wherever the boot sequence is cut, the directory is that of a device on which
    every confirmed slot is still confirmed, a newly confirmed slot is intact, and
    no file but the markers changed; so the next boot recovers. *)
Theorem boot_interrupted s d p' s' :
  rep s d → rtc (pstep (Sem0 := fs_sem write_faults)) (bootSequence, s) (p', s') →
  ∃ d', rep s' d' ∧
    (∀ y, confirmed d y = true → confirmed d' y = true) ∧
    (∀ y, confirmed d' y = true → confirmed d y = true ∨ intact (slots d y)) ∧
    (∀ y f, payload f → slots d' y !! f = slots d y !! f).
Proof.
  intros Hs Hsteps.
  destruct (dwp_steps _ _ _ _ _ _ _ _ Hs (bootSequence_safe d) Hsteps) as [(d' & Hr & []) _].
  by exists d'.
Qed.

(** C35. The running slot is never touched.  While a file of the data directory is
    staged (the download, as [runUpgrade] does, present or not), whichever calls
    fail, reads and writes alike and with or without a partial effect, at every
    instant the link and every file of the running slot are what they were; if
    staging returns nil, the other slot holds exactly the source file, the version
    and the checksum, and, if removing the old markers worked, no marker. *)
Theorem running_slot_untouched (P : policy) s d name v c p' s' :
  rep s d → is_store name → plain s name →
  rtc (pstep (Sem0 := fs_sem P)) (Stage [name] v c, s) (p', s') →
  ∃ d', rep s' d' ∧ active d' = active d ∧ slots d' (active d) = slots d (active d) ∧
    (p' = Ret None → ∃ data, s !! [name] = Some (File data) ∧
       staged d d' data v c (removes_ok P)).
Proof.
  intros Hs Hn Hpl Hsteps.
  assert (∃ src, stores d name = File <$> src) as [src Hsrc].
  { rewrite <-(rep_stores _ _ Hs) by done.
    destruct Hpl as [-> | [b ->]]; [by exists None|by exists (Some b)]. }
  assert (dwp P (Stage [name] v c) (same_running d) (λ r d', same_running d d' ∧
    (r = None → ∃ data, src = Some data ∧ staged d d' data v c (removes_ok P))) d) as H.
  { eapply (dwp_Stage P); [done|exact Hsrc|done|done|].
    intros d' data -> Hst. split; [apply Hst|]. eauto. }
  destruct (dwp_steps _ _ _ _ _ _ _ _ Hs H Hsteps) as [(d1 & Hr1 & [Ha Hsl Hst]) Hret].
  destruct p' as [r|o k].
  - destruct (Hret r eq_refl) as (d' & Hr' & [Ha' Hsl' Hst'] & Hok). exists d'.
    split_and!; [done..|]. intros [= ->]. destruct Hok as (data & -> & Hstaged); [done|].
    exists data. split; [|done]. by rewrite (rep_stores _ _ Hs), Hsrc.
  - by exists d1.
Qed.

(** The switch is announced before it happens.  At every instant of a
    promotion, whatever fails, the running slot's files are unchanged, and the
    link points to the old slot, or to the new one with the attempt counter "0"
    already in place; when the promotion returns nil, it points to the new one. *)
Theorem promotion_announced (P : policy) s d p' s' :
  (∀ o f, is_read o = true → P o f → f = NoFault) →
  rep s d → rtc (pstep (Sem0 := fs_sem P)) (PromoteStaged, s) (p', s') →
  ∃ d', rep s' d' ∧ slots d' (active d) = slots d (active d) ∧
    (active d' = active d ∨
     (active d' = twin (active d) ∧ pending d' (active d') = Some "0")) ∧
    (∀ t, p' = Ret (t, None) → active d' = twin (active d) ∧ t = slot_name (active d')).
Proof.
  intros HP Hs Hsteps.
  pose (J := λ d', slots d' (active d) = slots d (active d) ∧
    (active d' = active d ∨ (active d' = twin (active d) ∧ pending d' (active d') = Some "0"))).
  assert (∀ b, J (put_file d (twin (active d)) pendingMarker b)) as HJp.
  { intros b. split; [|by left]. apply put_file_twin, twin_ne. }
  assert (J (flip (put_file d (twin (active d)) pendingMarker "0") (twin (active d)))) as HJf.
  { split; [apply put_file_twin, twin_ne|]. right. split; [done|]. apply put_file_same. }
  assert (dwp P PromoteStaged J (λ r d', J d' ∧ (r.2 = None →
    active d' = twin (active d) ∧ r.1 = slot_name (active d'))) d) as H.
  { apply (dwp_PromoteStaged P HP); try done.
    - split; [done|by left].
    - intros _ e. split; [split; [done|by left]|done]. }
  destruct (dwp_steps _ _ _ _ _ _ _ _ Hs H Hsteps) as [(d1 & Hr1 & H1) Hret].
  destruct p' as [[t e]|o k].
  - destruct (Hret _ eq_refl) as (d' & Hr' & [? ?] & Hok). exists d'.
    split_and!; [done..|]. intros t' [= -> ->]. by apply Hok.
  - destruct H1. by exists d1.
Qed.

(** ** The properties at concrete devices *)

Lemma trial_recoverable : recoverable trial.
Proof. by exists SlotA. Qed.

Lemma boot_sequence_refines_witness :
  ∃ s', run fs_run bootSequence trial_fs = Some (None, s') ∧ rep s' (boot trial).
Proof. exact (boot_sequence_refines _ _ trial_rep). Defined.

Lemma boot_always_recovers_witness :
  ∃ s' d', run fs_run bootSequence trial_fs = Some (None, s') ∧ rep s' d' ∧
    confirmed d' (active d') = true ∧
    (∀ x f, payload f → slots d' x !! f = slots trial x !! f) ∧
    (active d' = active trial →
     confirmed trial (active trial) = true ∨ intact (slots trial (active trial))).
Proof. exact (boot_always_recovers _ _ trial_rep trial_recoverable). Defined.

Lemma trial_boots_once_witness :
  ∃ s1 s2, run fs_run BootCheck trial_fs = Some ((Some BootTrial, None), s1) ∧
           run fs_run BootCheck s1 = Some ((Some BootRolledBack, None), s2) ∧
           rep s2 (fall_back (boot_check trial)) ∧
           active (fall_back (boot_check trial)) = twin (active trial).
Proof. apply (trial_boots_once _ _ trial_rep); vm_compute; reflexivity. Defined.

(** The write of the attempt counter is cut after no byte, then power fails. *)
Lemma boot_interrupted_witness :
  let s' := (run_with [NoFault; NoFault; NoFault; Partial 0] bootSequence trial_fs).2 in
  ∃ d', rep s' d' ∧
    (∀ y, confirmed trial y = true → confirmed d' y = true) ∧
    (∀ y, confirmed d' y = true → confirmed trial y = true ∨ intact (slots trial y)) ∧
    (∀ y f, payload f → slots d' y !! f = slots trial y !! f).
Proof.
  apply (boot_interrupted trial_fs trial
    (run_with [NoFault; NoFault; NoFault; Partial 0] bootSequence trial_fs).1 _ trial_rep).
  rewrite <-surjective_pairing. apply run_with_steps. by repeat split.
Defined.

Definition upload_fs : fs := <[["fw"] := File "abc"]> factory_fs.
Definition upload : device := put_store factory "fw" (Some (File "abc")).

Lemma fw_is_store : is_store "fw".
Proof. by apply (bool_decide_unpack _). Qed.

Lemma upload_rep : rep upload_fs upload.
Proof. apply rep_store_insert; [apply factory_rep|apply fw_is_store]. Qed.

(** Staging is cut while the firmware is copied. *)
Lemma running_slot_untouched_witness :
  let r := run_with [NoFault; NoFault; NoFault; NoFault; NoFault; Partial 2]
             (Stage ["fw"] "2.0.0" abc_sum) upload_fs in
  ∃ d', rep r.2 d' ∧ active d' = active upload ∧
    slots d' (active upload) = slots upload (active upload) ∧
    (r.1 = Ret None → ∃ data, upload_fs !! ["fw"] = Some (File data) ∧
       staged upload d' data "2.0.0" abc_sum (removes_ok any_fault)).
Proof.
  intros r. apply (running_slot_untouched any_fault upload_fs upload "fw").
  - exact upload_rep.
  - exact fw_is_store.
  - right. by exists "abc".
  - rewrite <-surjective_pairing. apply run_with_steps. by repeat split.
Defined.

(** The promotion loses power between the marker and the switch. *)
Lemma promotion_announced_witness :
  let r := run_with [NoFault; NoFault; NoFault; Fails] PromoteStaged upload_fs in
  ∃ d', rep r.2 d' ∧ slots d' (active upload) = slots upload (active upload) ∧
    (active d' = active upload ∨
     (active d' = twin (active upload) ∧ pending d' (active d') = Some "0")) ∧
    (∀ t, r.1 = Ret (t, None) →
       active d' = twin (active upload) ∧ t = slot_name (active d')).
Proof.
  intros r. apply (promotion_announced write_faults upload_fs upload).
  - exact reads_succeed.
  - exact upload_rep.
  - rewrite <-surjective_pairing. apply run_with_steps. by repeat split.
Defined.

(** Finding. A failed removal leaves a half-written slot looking bootable.  [Stage]
    drops the old markers of the inactive slot first but ignores the error of
    [os.Remove]: on a device whose inactive slot was confirmed by the previous
    upgrade, a failing removal followed by an interrupted copy leaves that slot
    confirmed with an image that does not match its checksum. *)
Theorem failed_removal_keeps_marker :
  let old := [(confirmedMarker, ""); (checksumFile, sha256hex "old"); (firmwareFile, "old")] in
  let s := fill_fs SlotB old upload_fs in
  let stage := Stage ["fw"] "2.0.0" abc_sum in
  let fl := [NoFault; Fails; NoFault; NoFault; NoFault; Partial 2] in
  rep s (fill SlotB old upload) ∧ permitted write_faults fl stage s ∧
  let s' := (run_with fl stage s).2 in
  ∃ d', rep s' d' ∧ confirmed d' SlotB = true ∧ ¬ intact (slots d' SlotB).
Proof.
  intros old s stage fl. split; [apply fill_rep, upload_rep|]. split; [by repeat split|].
  exists (put_file (put_file (fill SlotB old upload) SlotB firmwareFile "")
                   SlotB firmwareFile "ab").
  split.
  - apply (rep_put _ _ SlotB firmwareFile "ab"), (rep_put _ _ SlotB firmwareFile ""), fill_rep,
      upload_rep.
  - split; [by vm_compute|]. intros (fw & sum & E1 & E2 & E3).
    rewrite put_file_same in E1. rewrite !put_file_other in E2 by done.
    vm_compute in E2. injection E1 as <-. injection E2 as <-. by vm_compute in E3.
Qed.
