(* ===== verification/Kube.v ===== *)
(** * internal/agent/kube.go: the agent's Kubernetes client

    The wire types, the three requests, the conflict-retrying read-modify-write
    loop, the condition upsert, and the kubeconfig reader.  A JSON body is carried
    as the value it encodes. *)

From S2P Require Import Prelude GoLib.
Open Scope Z_scope.

(** ** Wire types *)

Record ObjectMeta := mkObjectMeta {
    Name : string;
    Namespace : string;
    ResourceVersion : string;
    Generation : Z;
    UID : string;
  }.

Record DeviceSpec := mkDeviceSpec {
    DesiredFirmwareVersion : string;
    FirmwareURL : string;
    ChecksumSHA256 : string;
    Region : string;
    DeviceLabels : gmap string string;
    RolloutPaused : bool;
  }.

Record Condition := mkCondition {
    Type' : string;
    Status' : string;
    ObservedGeneration' : Z;
    LastTransitionTime : string;
    Reason : string;
    Message : string;
  }.

Record DeviceStatus := mkDeviceStatus {
    Phase : string;
    Conditions : list Condition;
    CurrentFirmwareVersion : string;
    ActiveSlot : string;
    LastHeartbeat : string;
    ObservedGeneration : Z;
  }.

Record Device := mkDevice {
    APIVersion : string;
    Kind : string;
    Metadata : ObjectMeta;
    Spec : DeviceSpec;
    Status : DeviceStatus;
  }.

Global Instance ObjectMeta_eq_dec : EqDecision ObjectMeta.
Proof. solve_decision. Defined.
Global Instance DeviceSpec_eq_dec : EqDecision DeviceSpec.
Proof. solve_decision. Defined.
Global Instance Condition_eq_dec : EqDecision Condition.
Proof. solve_decision. Defined.
Global Instance DeviceStatus_eq_dec : EqDecision DeviceStatus.
Proof. solve_decision. Defined.
Global Instance Device_eq_dec : EqDecision Device.
Proof. solve_decision. Defined.

Definition CondFirmwareSynced : string := "FirmwareSynced".
Definition CondTrue : string := "True".
Definition CondFalse : string := "False".

Definition with_status (d : Device) (st : DeviceStatus) : Device :=
  mkDevice (APIVersion d) (Kind d) (Metadata d) (Spec d) st.

(** ** Conditions *)

(** The assignments to the condition found. *)
Definition update_condition (c : Condition) (status reason message : string) (gen : Z)
    (now : string) : Condition :=
  mkCondition (Type' c) status gen
    (if decide (Status' c = status) then LastTransitionTime c else now) reason message.

(** [SetCondition], at a time that formats as [now]: the first condition of the
    type is updated in place; without one, a new one is appended. *)
Fixpoint set_condition (cs : list Condition) (ctype status reason message : string)
    (gen : Z) (now : string) : list Condition :=
  match cs with
  | [] => [mkCondition ctype status gen now reason message]
  | c :: cs' =>
      if decide (Type' c = ctype) then update_condition c status reason message gen now :: cs'
      else c :: set_condition cs' ctype status reason message gen now
  end.

Definition SetCondition (st : DeviceStatus) (ctype status reason message : string)
    (gen : Z) (now : string) : DeviceStatus :=
  mkDeviceStatus (Phase st)
    (set_condition (Conditions st) ctype status reason message gen now)
    (CurrentFirmwareVersion st) (ActiveSlot st) (LastHeartbeat st) (ObservedGeneration st).

Definition find_condition (cs : list Condition) (ctype : string) : option Condition :=
  snd <$> list_find (λ c, Type' c = ctype) cs.

(** ** Requests *)

Record request := mkRequest {
    Method : string;
    Url : string;
    ContentType : string;
    Payload : option Device;
  }.

Record reply := mkReply {
    Code : Z;
    StatusLine : string;
    Text : string;                    (* the first 512 bytes of the body *)
    Decoded : result goerr Device;    (* the body as JSON of a device *)
  }.

Inductive kubeop :=
  | KNewRequest (method url : string)
  | KDo (r : request)
  | KNow.                             (* time.Now().UTC().Format(time.RFC3339) *)

Definition kuberes (o : kubeop) : Type :=
  match o with
  | KNewRequest _ _ => option goerr
  | KDo _ => result goerr reply
  | KNow => string
  end.

Definition kubeS : sig := Sig kubeop kuberes.
Definition kcall (o : kubeop) : prog kubeS (kuberes o) := trigger (o : act kubeS).

Record KubeClient := mkKubeClient { base : string; namespace : string; name : string }.

Definition url (c : KubeClient) (sub : string) : string :=
  TrimSuffix (base c) "/" +:+ "/apis/edge.example.com/v1alpha1/namespaces/" +:+ namespace c
    +:+ "/edgedevices/" +:+ name c +:+ sub.

Definition Get (c : KubeClient) : prog kubeS (result goerr Device) :=
  guard kcall (KNewRequest "GET" (url c "")) catch err => Ret (Err err) ;;
  try resp <- kcall (KDo (mkRequest "GET" (url c "") "" None)) catch err => Ret (Err err) ;;
  if Code resp =? 200 then Ret (Decoded resp)
  else Ret (Err (Errorf ("GET " +:+ url c "" +:+ ": " +:+ StatusLine resp +:+ ": " +:+ Text resp))).

(** [PutStatus] stamps the object it is given; its caller sees the stamp. *)
Definition stamped (d : Device) : Device :=
  mkDevice "edge.example.com/v1alpha1" "EdgeDevice" (Metadata d) (Spec d) (Status d).

Definition PutStatus (c : KubeClient) (dev : Device) : prog kubeS (option goerr) :=
  guard kcall (KNewRequest "PUT" (url c "/status")) catch err => Ret (Some err) ;;
  try resp <- kcall (KDo (mkRequest "PUT" (url c "/status") "application/json"
                            (Some (stamped dev))))
    catch err => Ret (Some err) ;;
  if Code resp =? 409 then Ret (Some ErrConflict)
  else if 300 <=? Code resp then
    Ret (Some (Errorf ("PUT status: " +:+ StatusLine resp +:+ ": " +:+ Text resp)))
  else Ret None.

(** ** The read-modify-write loop *)

Section update.
Context {S : sig} `{!Subsig kubeS S} (c : KubeClient) (mutate : Device → prog S Device).

Fixpoint update_loop (n : nat) (lastErr : option goerr) : prog S (result goerr Device) :=
  match n with
  | O => Ret (Err (Errorf_w "giving up after repeated conflicts: " lastErr))
  | Datatypes.S n' =>
  try dev <- lift (Get c) catch err => Ret (Err err) ;;
  dev' <- mutate dev ;;
  r <- lift (PutStatus c dev') ;;
  match r with
  | Some err =>
      if IsConflict err then update_loop n' (Some err) else Ret (Err err)
  | None => Ret (Ok (stamped dev'))
  end
  end.

Definition UpdateStatus : prog S (result goerr Device) := update_loop 5 None.
End update.

(** ** Kubeconfig *)

Definition kubeconfig_keys : list string :=
  ["server"; "certificate-authority-data"; "client-certificate-data"; "client-key-data"].

(** One line against one key: the first occurrence wins. *)
Definition scan_key (line : string) (fields : gmap string string) (key : string) :
    gmap string string :=
  match CutPrefix line (key +:+ ": ") with
  | Some v =>
      match fields !! key with
      | Some _ => fields
      | None => <[key := TrimSpace v]> fields
      end
  | None => fields
  end.

Definition scan_line (fields : gmap string string) (line : string) : gmap string string :=
  foldl (scan_key (TrimSpace line)) fields kubeconfig_keys.

Definition newline : Ascii.ascii := Ascii.ascii_of_nat 10.

Definition kubeconfig_fields (raw : string) : gmap string string :=
  foldl scan_line ∅ (Split raw newline).

Section kubeconfig.
(** The packages encoding/base64, crypto/tls and crypto/x509. *)
Context {TLS Pair Pool : Type}.
Context (DecodeString : string → result goerr string).
Context (X509KeyPair : string → string → result goerr Pair).
Context (AppendCertsFromPEM : string → option Pool).
Context (tlsConfig : Pool → Pair → TLS).

Definition field (fields : gmap string string) (key : string) : string :=
  default "" (fields !! key).

(** [loadKubeconfig] on the content of the file; no TLS for a plain server. *)
Definition loadKubeconfig (p : string) (raw : result goerr string) :
  result goerr (string * option TLS) :=
  match raw with
  | Err err => Err err
  | Ok raw =>
  let fields := kubeconfig_fields raw in
  let server := field fields "server" in
  if decide (server = "") then Err (Errorf ("no server found in " +:+ p))
  else if HasPrefix server "http://" then Ok (server, None)
  else
    match DecodeString (field fields "certificate-authority-data") with
    | Err err => Err (Wrapf "bad CA data: " err)
    | Ok ca =>
        match DecodeString (field fields "client-certificate-data") with
        | Err err => Err (Wrapf "bad client cert: " err)
        | Ok cert =>
            match DecodeString (field fields "client-key-data") with
            | Err err => Err (Wrapf "bad client key: " err)
            | Ok key =>
                match X509KeyPair cert key with
                | Err err => Err err
                | Ok kp =>
                    match AppendCertsFromPEM ca with
                    | None => Err (Errorf "failed to parse CA certificate")
                    | Some pool => Ok (server, Some (tlsConfig pool kp))
                    end
                end
            end
        end
    end
  end.

Definition NewKubeClient (read : string → result goerr string)
  (server kubeconfig namespace name : string) : result goerr (KubeClient * option TLS) :=
  let finish (base : string) (tls : option TLS) :=
  if decide (base = "") then Err (Errorf "either --server or --kubeconfig is required")
  else Ok (mkKubeClient base namespace name, tls) in
  if decide (kubeconfig = "") then finish server None
  else match loadKubeconfig kubeconfig (read kubeconfig) with
   | Err err => Err err
   | Ok (server, tls) => finish server tls
   end.
End kubeconfig.

(** ** The API server, as its clients may rely on it *)

(** An API server: the object it stores, what other clients may do to it between
    two requests of ours, and how it serves a request. *)
Record api := mkApi {
    srv : Type;
    stored : srv → option Device;
    others : relation srv;
    serve : srv → request → result goerr reply → srv → Prop;
  }.

(** The object after a status write that moved it to resource version [rv]. *)
Definition with_written (cur : Device) (rv : string) (st : DeviceStatus) : Device :=
  mkDevice (APIVersion cur) (Kind cur)
    (mkObjectMeta (Name (Metadata cur)) (Namespace (Metadata cur)) rv
       (Generation (Metadata cur)) (UID (Metadata cur))) (Spec cur) st.

(** The optimistic-concurrency contract of Kubernetes.  The resource version
    identifies the content of the object; reading does not write; a status write
    is accepted only for the current resource version, and replaces the status
    and nothing else; a conflict answer means nothing was written. *)
Record api_laws (a : api) : Prop := {
    others_refl s : others a s s;
    others_trans s1 s2 s3 : others a s1 s2 → others a s2 s3 → others a s1 s3;
    others_version s s' d d' :
      others a s s' → stored a s = Some d → stored a s' = Some d' →
      ResourceVersion (Metadata d) = ResourceVersion (Metadata d') → d = d';
    serve_get s r rp s' :
      serve a s r rp s' → Method r = "GET" →
      s' = s ∧ ∀ resp d, rp = Ok resp → Code resp = 200 → Decoded resp = Ok d →
               stored a s = Some d;
    serve_put s r dev resp s' :
      serve a s r (Ok resp) s' → Method r = "PUT" → Payload r = Some dev → Code resp < 300 →
      ∃ cur rv, stored a s = Some cur ∧
        ResourceVersion (Metadata dev) = ResourceVersion (Metadata cur) ∧
        stored a s' = Some (with_written cur rv (Status dev));
    serve_conflict s r resp s' :
      serve a s r (Ok resp) s' → Method r = "PUT" → Code resp = 409 → s' = s;
  }.

(** Other clients act before every operation of ours. *)
Definition kube_sem (a : api) : Sem kubeS (srv a) :=
  λ o s r s',
    match o return kuberes o → Prop with
    | KNewRequest _ _ => λ _, others a s s'
    | KDo rq => λ rp, ∃ s1, others a s s1 ∧ serve a s1 rq rp s'
    | KNow => λ _, others a s s'
    end r.

Global Instance kube_self : Subsig kubeS kubeS := {| inj := λ o, o; back := λ _ r, r |}.

(** ** Lemmas *)

Definition is_now (o : act kubeS) : Prop := match o with KNow => True | _ => False end.
Definition is_put (o : act kubeS) : bool :=
  match o with KDo r => bool_decide (Method r = "PUT") | _ => false end.

Section update_lemmas.
Context (a : api) (laws : api_laws a) (c : KubeClient).
Local Instance ksem : Sem kubeS (srv a) := kube_sem a.

Lemma thinking_ok {A} (p : prog kubeS A) s0 s :
  calls_only is_now p → others a s0 s →
  wp p (λ r s', others a s0 s' ∧ may_return p r) s.
Proof.
  revert s. induction p as [r|o k IH]; simpl; intros s Hp Hs; [done|].
  split; [done|]. intros r s' Ho. destruct Hp as [Hn Hk], o; try done.
  eapply wpi_mono; [apply (IH r s' (Hk r))|done|].
  - by eapply (others_trans _ laws).
  - intros x s2 _ [? ?]. split; [done|]. by exists r.
Qed.

Lemma Get_ok s :
  wp (Get c) (λ r s', ∀ d, r = Ok d → ∃ s1, stored a s1 = Some d ∧ others a s1 s') s.
Proof.
  split; [done|]. intros [e|] s1 H1; [by split|].
  split; [done|]. intros [resp|e] s2 (s1' & _ & Hserve); [|by split]. simpl.
  destruct (Z.eqb_spec (Code resp) 200); (split; [done|]); [|done].
  intros d Hd. destruct (serve_get _ laws _ _ _ _ Hserve eq_refl) as [-> Hget].
  exists s1'. split; [by eapply Hget|]. apply (others_refl _ laws).
Qed.

Lemma PutStatus_ok s0 s d dev :
  stored a s0 = Some d → others a s0 s →
  ResourceVersion (Metadata dev) = ResourceVersion (Metadata d) →
  wp (PutStatus c dev)
   (λ r s', r = None →
    ∃ s1 rv, stored a s1 = Some d ∧ others a s s1 ∧
      stored a s' = Some (with_written d rv (Status dev))) s.
Proof.
  intros Hd Hs Hrv. split; [done|]. intros [e|] s1 H1; [by split|].
  split; [done|]. intros [resp|e] s2 (s1' & H2 & Hserve); [|by split]. simpl.
  destruct (Z.eqb_spec (Code resp) 409); [by split|].
  destruct (Z.leb_spec 300 (Code resp)); (split; [done|]); [done|]. intros _.
  destruct (serve_put _ laws _ _ (stamped dev) _ _ Hserve eq_refl eq_refl)
  as (cur & rv & Hcur & Hv & Hs'); [lia|].
  assert (others a s s1') as H3 by by eapply (others_trans _ laws).
  assert (d = cur) as <-.
  { eapply (others_version _ laws s0 s1'); eauto using others_trans.
  simpl in Hv. congruence. }
  by exists s1', rv.
Qed.

Context (mutate : Device → prog kubeS Device).
Hypothesis mutate_thinks : ∀ d, calls_only is_now (mutate d).
Hypothesis mutate_version : ∀ d d',
  may_return (mutate d) d' → ResourceVersion (Metadata d') = ResourceVersion (Metadata d).

(** The write that ended the loop was computed from the object it replaced. *)
Definition latest_wins (r : result goerr Device) (s' : srv a) : Prop :=
  ∀ dev, r = Ok dev → ∃ s1 cur dev' rv,
  stored a s1 = Some cur ∧ may_return (mutate cur) dev' ∧ dev = stamped dev' ∧
  stored a s' = Some (with_written cur rv (Status dev')).

Lemma lift_self {A} (p : prog kubeS A) I Q s : wpi p I Q s → wpi (lift p) I Q s.
Proof.
  revert s. induction p as [r|o k IH]; simpl; intros s [HI H]; split; auto.
Qed.

Lemma update_loop_ok n lastErr s : wp (update_loop c mutate n lastErr) latest_wins s.
Proof.
  revert lastErr s. induction n as [|n IH]; intros lastErr s; cbn [update_loop]; [by split|].
  apply wpi_bind, lift_self. eapply wpi_mono; [apply Get_ok|done|].
  intros [d|e] s1 _ Hget; [|by split]. destruct (Hget d eq_refl) as (s0 & Hd & Hs0).
  apply wpi_bind. eapply wpi_mono; [by apply (thinking_ok _ s0)|done|].
  intros d' s2 _ [Hs2 Hret]. apply wpi_bind, lift_self.
  eapply wpi_mono; [by eapply (PutStatus_ok s0 s2 d d'); auto|done|].
  intros [e|] s3 _ Hput.
  - destruct (IsConflict e); [apply IH|by split].
  - split; [done|]. intros dev [= <-].
  destruct (Hput eq_refl) as (s4 & rv & H4 & _ & H5). by exists s4, d, d', rv.
Qed.
End update_lemmas.

Lemma Get_requests c : at_most is_put 0 (Get c).
Proof. unfold Get. by_cases. Qed.

Lemma PutStatus_requests c dev : at_most is_put 1 (PutStatus c dev).
Proof. unfold PutStatus. by_cases. Qed.

Lemma thinking_requests {A} (p : prog kubeS A) : calls_only is_now p → at_most is_put 0 p.
Proof.
  induction p as [r|o k IH]; simpl; [done|]. intros [Ho Hk]. destruct o; try done.
  intros r. by apply IH.
Qed.

Lemma lift_self_at_most {A} (P : act kubeS → bool) n (p : prog kubeS A) :
  at_most P n p → at_most P n (lift p).
Proof.
  revert n. induction p as [r|o k IH]; simpl; intros n; [done|].
  destruct (P o); [destruct n; [done|]|]; eauto.
Qed.

Lemma update_loop_puts c mutate n lastErr :
  (∀ d, calls_only is_now (mutate d)) → at_most is_put n (update_loop (S := kubeS) c mutate n lastErr).
Proof.
  intros Hm. revert lastErr. induction n as [|n IH]; intros lastErr; cbn [update_loop]; [done|].
  apply (at_most_bind _ 0 (Datatypes.S n)); [apply lift_self_at_most, Get_requests|].
  intros [d|e]; [|done].
  apply (at_most_bind _ 0 (Datatypes.S n)); [by apply thinking_requests|]. intros d'.
  apply (at_most_bind _ 1 n); [apply lift_self_at_most, PutStatus_requests|].
  intros [e|]; [|done]. by destruct (IsConflict e).
Qed.

Definition own_request c (o : act kubeS) : Prop :=
  match o with
  | KDo r => r = mkRequest "GET" (url c "") "" None ∨
             ∃ dev, r = mkRequest "PUT" (url c "/status") "application/json" (Some (stamped dev))
  | _ => True
  end.

Lemma lift_self_calls {A} (P : act kubeS → Prop) (p : prog kubeS A) :
  calls_only P p → calls_only P (lift p).
Proof. intros H. by apply (calls_only_lift (S1 := kubeS)). Qed.

Lemma Get_own c : calls_only (own_request c) (Get c).
Proof.
  split; [done|]. intros [e|]; [done|]. split; [by left|]. intros [rp|e]; [|done].
  simpl. by case_match.
Qed.

Lemma PutStatus_own c dev : calls_only (own_request c) (PutStatus c dev).
Proof.
  split; [done|]. intros [e|]; [done|]. split; [right; by eexists|]. intros [rp|e]; [|done].
  simpl. by repeat case_match.
Qed.

Lemma thinking_own {A} c (p : prog kubeS A) : calls_only is_now p → calls_only (own_request c) p.
Proof. apply calls_only_mono. by intros []. Qed.

Lemma update_loop_requests c mutate n lastErr :
  (∀ d, calls_only is_now (mutate d)) →
  calls_only (own_request c) (update_loop (S := kubeS) c mutate n lastErr).
Proof.
  intros Hm. revert lastErr. induction n as [|n IH]; intros lastErr; cbn [update_loop]; [done|].
  apply calls_only_bind; [apply lift_self_calls, Get_own|]. intros [d|e]; [|done].
  apply calls_only_bind; [by apply thinking_own|]. intros d'.
  apply calls_only_bind; [apply lift_self_calls, PutStatus_own|].
  intros [e|]; [|done]. by destruct (IsConflict e).
Qed.

Lemma find_condition_cons c cs ctype :
  find_condition (c :: cs) ctype =
    if decide (Type' c = ctype) then Some c else find_condition cs ctype.
Proof.
  unfold find_condition. simpl. case_decide; [done|]. by destruct (list_find _ cs) as [[]|].
Qed.

(** The condition [SetCondition] leaves for its type. *)
Definition expected_condition (old : option Condition)
    (ctype status reason message : string) (gen : Z) (now : string) : Condition :=
  match old with
  | Some c => update_condition c status reason message gen now
  | None => mkCondition ctype status gen now reason message
  end.

Lemma find_set_same cs ctype status reason message gen now :
  find_condition (set_condition cs ctype status reason message gen now) ctype
  = Some (expected_condition (find_condition cs ctype) ctype status reason message gen now).
Proof.
  induction cs as [|c cs IH]; simpl.
  - rewrite find_condition_cons. by rewrite decide_True.
  - rewrite find_condition_cons. case_decide as Hc; rewrite find_condition_cons.
    + by rewrite decide_True.
    + by rewrite decide_False.
Qed.

Lemma find_set_other cs ctype status reason message gen now ty :
  ty ≠ ctype →
  find_condition (set_condition cs ctype status reason message gen now) ty = find_condition cs ty.
Proof.
  intros Hne. induction cs as [|c cs IH]; simpl.
  - rewrite find_condition_cons. by rewrite decide_False.
  - rewrite (find_condition_cons c cs). case_decide as Hc; rewrite find_condition_cons.
    + simpl. by rewrite !decide_False by congruence.
    + by rewrite IH.
Qed.

Lemma set_condition_types cs ctype status reason message gen now :
  Type' <$> set_condition cs ctype status reason message gen now
  = (Type' <$> cs) ++ (if decide (ctype ∈ (Type' <$> cs)) then [] else [ctype]).
Proof.
  induction cs as [|c cs IH]; [done|]. cbn [set_condition].
  destruct (decide (Type' c = ctype)) as [<-|Hc]; cbn.
  - rewrite decide_True by apply list_elem_of_here. by rewrite app_nil_r.
  - rewrite IH. f_equal. f_equal. apply decide_ext. rewrite elem_of_cons.
    split; [by right|intros [?|?]; [congruence|done]].
Qed.

(** ** The API server of the client's tests *)

(** The store of kube_test.go: the object and its revision counter. *)
Abbreviation fakeAPI := (nat * Device)%type.

Definition fake_stored (f : fakeAPI) : Device :=
  let d := f.2 in
  mkDevice (APIVersion d) (Kind d)
    (mkObjectMeta (Name (Metadata d)) (Namespace (Metadata d)) (pretty f.1)
       (Generation (Metadata d)) (UID (Metadata d))) (Spec d) (Status d).

Definition handler (f : fakeAPI) (r : request) : result goerr reply * fakeAPI :=
  if decide (Method r = "GET") then
    (Ok (mkReply 200 "200 OK" "" (Ok (fake_stored f))), f)
  else match Payload r with
       | Some dev =>
           if decide (ResourceVersion (Metadata dev) = pretty f.1) then
             let f' := (Datatypes.S f.1, with_status (f.2) (Status dev)) in
             (Ok (mkReply 200 "200 OK" "" (Ok (fake_stored f'))), f')
           else (Ok (mkReply 409 "409 Conflict" "" (Err (Errorf "EOF"))), f)
       | None => (Ok (mkReply 409 "409 Conflict" "" (Err (Errorf "EOF"))), f)
       end.

Definition bumpSpecExternally (f : fakeAPI) (version : string) : fakeAPI :=
  let d := f.2 in
  (Datatypes.S f.1,
   mkDevice (APIVersion d) (Kind d)
     (mkObjectMeta (Name (Metadata d)) (Namespace (Metadata d)) (ResourceVersion (Metadata d))
        (Generation (Metadata d) + 1) (UID (Metadata d)))
     (mkDeviceSpec version (FirmwareURL (Spec d)) (ChecksumSHA256 (Spec d)) (Region (Spec d))
        (DeviceLabels (Spec d)) (RolloutPaused (Spec d))) (Status d)).

Definition fake : api := {|
    srv := fakeAPI;
    stored := λ f, Some (fake_stored f);
    others := λ f f', f' = f ∨ (f.1 < f'.1)%nat;
    serve := λ f r rp f', handler f r = (rp, f');
  |}.

Lemma fake_laws : api_laws fake.
Proof.
  split; simpl.
  - by left.
  - intros s1 s2 s3 [->|?] [->|?]; auto. right. lia.
  - intros [n d] [n' d'] ? ? H [= <-] [= <-] Hv. simpl in *.
    apply (base.inj pretty) in Hv as ->. destruct H as [[= ->]|?]; [done|lia].
  - intros f r rp f' H Hr. unfold handler in H. rewrite decide_True in H by done.
    simplify_eq. split; [done|]. by intros resp d [= <-] _ [= <-].
  - intros f r dev resp f' H Hr Hp Hc. unfold handler in H. rewrite decide_False in H by congruence.
    rewrite Hp in H. case_decide as Hv; simplify_eq/=; try lia.
    eexists _, _. split; [done|]. split; [exact Hv|]. reflexivity.
  - intros f r resp f' H Hr Hc. unfold handler in H. rewrite decide_False in H by congruence.
    by repeat case_match; simplify_eq.
Qed.

(** The same server while other clients have [budget] writes left to make; the
    connection does not fail. *)
Abbreviation contended := (nat * Device * nat)%type.

Definition meddle (s s' : contended) : Prop :=
  (s' = s ∨ (s.1.1 < s'.1.1 ∧ s'.2 < s.2))%nat.

Definition contended_sem : Sem kubeS contended :=
  λ o s r s',
    match o return kuberes o → Prop with
    | KNewRequest _ _ => λ e, e = None ∧ meddle s s'
    | KDo rq => λ rp, ∃ s1, meddle s s1 ∧ handler s1.1 rq = (rp, s'.1) ∧ s'.2 = s1.2
    | KNow => λ _, meddle s s'
    end r.

Global Instance meddle_preorder : PreOrder meddle.
Proof.
  split; [by left|]. intros s1 s2 s3 [->|[??]] [->|[??]]; unfold meddle; auto; right; lia.
Qed.

Lemma contended_Get c s :
  wp (Sem0 := contended_sem) (Get c)
   (λ r s', ∃ s1, meddle s s1 ∧ meddle s1 s' ∧ r = Ok (fake_stored s1.1)) s.
Proof.
  split; [done|]. intros e s1 [-> H1]. split; [done|]. intros rp s2 (s3 & H3 & Hh & Hb).
  unfold handler in Hh. simpl in Hh. simplify_eq. split; [done|]. exists s3.
  split; [by etrans|]. split; [|done]. left. by destruct s2, s3; simplify_eq/=.
Qed.

(** A write fails only by a conflict, and only if somebody else wrote. *)
Lemma contended_Put c s0 s dev :
  ResourceVersion (Metadata dev) = pretty s0.1.1 → meddle s0 s →
  wp (Sem0 := contended_sem) (PutStatus c dev)
   (λ r s', r = None ∧ Status s'.1.2 = Status dev ∨ r = Some ErrConflict ∧ (s'.2 < s0.2)%nat) s.
Proof.
  intros Hv H0. split; [done|]. intros e s1 [-> H1]. split; [done|].
  intros rp s2 (s3 & H3 & Hh & Hb).
  assert (meddle s0 s3) as H by (by do 2 (etrans; [done|])).
  unfold handler in Hh. rewrite decide_False in Hh by done. simpl in Hh. rewrite Hv in Hh.
  destruct H as [->|[Hlt Hk]].
  - rewrite decide_True in Hh by done. injection Hh as <- Hf. split; [done|]. left.
  destruct s2 as [[n d] k]. by simplify_eq/=.
  - rewrite decide_False in Hh by (intros ?%(base.inj pretty); lia). injection Hh as <- Hf.
  split; [done|]. right. by rewrite Hb.
Qed.

Lemma contended_thinking {A} (p : prog kubeS A) s0 s :
  calls_only is_now p → meddle s0 s →
  wp (Sem0 := contended_sem) p (λ r s', meddle s0 s' ∧ may_return p r) s.
Proof.
  revert s. induction p as [r|o k IH]; simpl; intros s Hp Hs; [done|].
  split; [done|]. intros r s' Ho. destruct Hp as [Hn Hk], o; try done.
  eapply wpi_mono; [apply (IH r s' (Hk r)); by etrans|done|].
  intros x s2 _ [? ?]. split; [done|]. by exists r.
Qed.

(** The loop in any world that has this server in it. *)
Section contention.
Context {S : sig} {W : Type} `{!Subsig kubeS S, !Sem S W} (server_of : W → contended).
Hypothesis in_world : ∀ (o : act kubeS) w r w',
  sem (inj o) w r w' → contended_sem o (server_of w) (back o r) (server_of w').
Context (c : KubeClient) (mutate : Device → prog S Device) (R : Device → Device → Prop).
Hypothesis mutate_ok : ∀ d w, wp (mutate d) (λ d' w',
  meddle (server_of w) (server_of w') ∧
  ResourceVersion (Metadata d') = ResourceVersion (Metadata d) ∧ R d d') w.

Lemma contended_lift {A} (p : prog kubeS A) Q w :
  wp (Sem0 := contended_sem) p Q (server_of w) → wp (lift p) (λ a w', Q a (server_of w')) w.
Proof.
  revert w. induction p as [r|o k IH]; simpl; intros s [HI H]; split; auto.
  intros r s' Hs%in_world. by apply IH, H.
Qed.

Lemma contended_loop n lastErr w :
  ((server_of w).2 < n)%nat →
  wp (update_loop c mutate n lastErr)
   (λ r w', ∃ d d', R d d' ∧ r = Ok (stamped d') ∧ Status (server_of w').1.2 = Status d') w.
Proof.
  revert lastErr w. induction n as [|n IH]; intros lastErr w Hn; [lia|].
  cbn [update_loop]. apply wpi_bind. eapply wpi_mono; [apply contended_lift, contended_Get|done|].
  intros r w2 _ (s1 & H1 & H2 & ->). apply wpi_bind. eapply wpi_mono; [apply mutate_ok|done|].
  intros d' w3 _ (H3 & Hv & HR). apply wpi_bind. eapply wpi_mono; [apply contended_lift,
    (contended_Put c s1 _ d'); [by rewrite Hv|by etrans]|done|].
  intros r w4 _ [[-> Hst]|[-> Hlt]].
  - split; [done|]. by exists (fake_stored s1.1), d'.
  - apply IH. destruct H1 as [->|[??]]; lia.
Qed.
End contention.

(** What the tests do to the server: rewrite the spec before one write. *)
Definition racing (o : act kubeS) (s : fakeAPI) : option (res o * fakeAPI) :=
  match o return option (kuberes o * fakeAPI) with
  | KNewRequest m u =>
      Some (None, if decide (m = "PUT" ∧ s.1 = 1%nat) then bumpSpecExternally s "v3" else s)
  | KDo rq => Some (handler s rq)
  | KNow => Some ("2026-01-01T00:00:00Z", s)
  end.

Lemma racing_handles : handles (Sem0 := kube_sem fake) racing.
Proof.
  intros [m u|rq|] s r s'; simpl.
  - case_decide; intros [= <- <-]; [right; simpl; lia|by left].
  - intros [= H]. exists s. split; [by left|done].
  - intros [= <- <-]. by left.
Qed.

Definition demo_device : Device :=
  mkDevice "" "" (mkObjectMeta "edge-001" "default" "" 1 "uid-1")
    (mkDeviceSpec "v2" "http://firmware/v2.bin" "" "" ∅ false)
    (mkDeviceStatus "" [] "" "" "" 0).

(** The mutation of a status report. *)
Definition demo_report (dev : Device) : prog kubeS Device :=
  now <- kcall KNow ;;
  Ret (with_status dev (SetCondition (Status dev) CondFirmwareSynced CondTrue "Synced"
                          (DesiredFirmwareVersion (Spec dev)) 1 now)).

Definition demo_client : KubeClient := mkKubeClient "http://10.0.0.1:8080/" "default" "edge-001".

(** ** Properties *)

(** C14. The latest state wins.  Against any API server that keeps the
    optimistic-concurrency contract, with other clients writing before every
    request, an [UpdateStatus] that returns a device wrote a status computed from
    exactly the object it replaced: no write of another client is lost, and the
    specification stored is the one that client last saw. *)
Theorem UpdateStatus_latest_wins (a : api) c mutate s dev s' :
  api_laws a →
  (∀ d, calls_only is_now (mutate d)) →
  (∀ d d', may_return (mutate d) d' →
     ResourceVersion (Metadata d') = ResourceVersion (Metadata d)) →
  rtc (pstep (Sem0 := kube_sem a)) (UpdateStatus (S := kubeS) c mutate, s) (Ret (Ok dev), s') →
  ∃ s1 cur dev' rv,
    stored a s1 = Some cur ∧ may_return (mutate cur) dev' ∧ dev = stamped dev' ∧
    stored a s' = Some (with_written cur rv (Status dev')).
Proof.
  intros Hl Hm Hv Hs.
  refine (wpi_result _ always (latest_wins a mutate) _ _ _ _ Hs dev eq_refl).
  by apply update_loop_ok.
Qed.

Lemma UpdateStatus_latest_wins_witness :
  let dev := with_status (fake_stored (bumpSpecExternally (1%nat, demo_device) "v3"))
    (SetCondition (Status demo_device) CondFirmwareSynced CondTrue "Synced" "v3" 1
       "2026-01-01T00:00:00Z") in
  let s' := (3%nat, with_status (bumpSpecExternally (1%nat, demo_device) "v3").2 (Status dev)) in
  DesiredFirmwareVersion (Spec dev) = "v3" ∧
  ∃ s1 cur dev' rv,
    stored fake s1 = Some cur ∧ may_return (demo_report cur) dev' ∧ stamped dev = stamped dev' ∧
    stored fake s' = Some (with_written cur rv (Status dev')).
Proof.
  split; [reflexivity|].
  apply (UpdateStatus_latest_wins fake demo_client demo_report (1%nat, demo_device)).
  - apply fake_laws.
  - intros d. split; [done|]. done.
  - intros d d' [now Hd]. simpl in Hd. by rewrite <-Hd.
  - apply (run_steps racing); [apply racing_handles|]. vm_compute. reflexivity.
Defined.

(** C34. Losing a race is not an error.  As long as other clients write fewer
    than five times during the call and the connection holds, [UpdateStatus]
    succeeds, whatever the interleaving, and the status it returns is stored. *)
Theorem UpdateStatus_survives_conflicts c mutate f budget :
  (∀ d, calls_only is_now (mutate d)) →
  (∀ d d', may_return (mutate d) d' →
     ResourceVersion (Metadata d') = ResourceVersion (Metadata d)) →
  (budget < 5)%nat →
  wp (Sem0 := contended_sem) (UpdateStatus (S := kubeS) c mutate)
     (λ r s', ∃ dev, r = Ok dev ∧ Status s'.1.2 = Status dev) (f, budget).
Proof.
  intros Hm Hv Hb. eapply wpi_mono.
  - apply (contended_loop (Sem0 := contended_sem) id) with (R := λ _ _, True); [done| |done].
    intros d s. eapply wpi_mono; [by apply (contended_thinking _ s); [|left]|done|].
    intros d' s' _ [Hs' Hr]. auto.
  - done.
  - intros r s' _ (d & d' & _ & -> & Hst). by exists (stamped d').
Qed.

Lemma UpdateStatus_survives_conflicts_witness :
  wp (Sem0 := contended_sem) (UpdateStatus (S := kubeS) demo_client demo_report)
     (λ r s', ∃ dev, r = Ok dev ∧ Status s'.1.2 = Status dev) ((1%nat, demo_device), 4%nat).
Proof.
  apply UpdateStatus_survives_conflicts.
  - intros d. split; [done|]. done.
  - intros d d' [now Hd]. simpl in Hd. by rewrite <-Hd.
  - lia.
Defined.

(** The loop is bounded against any server: at most five writes are sent,
    whatever the server answers, and every write is the whole stamped device put
    to the status subresource of the agent's own object. *)
Theorem UpdateStatus_requests c mutate :
  (∀ d, calls_only is_now (mutate d)) →
  at_most is_put 5 (UpdateStatus (S := kubeS) c mutate) ∧
  calls_only (λ o : act kubeS, match o with
    | KDo r => r = mkRequest "GET" (url c "") "" None ∨
               ∃ dev, r = mkRequest "PUT" (url c "/status") "application/json" (Some (stamped dev))
    | _ => True
    end) (UpdateStatus (S := kubeS) c mutate).
Proof.
  intros Hm. split; [by apply update_loop_puts|]. by apply update_loop_requests.
Qed.

Lemma UpdateStatus_requests_witness :
  url demo_client "/status" =
    "http://10.0.0.1:8080/apis/edge.example.com/v1alpha1/namespaces/default/edgedevices/edge-001/status" ∧
  at_most is_put 5 (UpdateStatus (S := kubeS) demo_client demo_report).
Proof.
  split; [reflexivity|]. apply (UpdateStatus_requests demo_client demo_report).
  intros d. split; [done|]. done.
Defined.

(** [SetCondition] is an upsert keyed by type: the other conditions are
    untouched and keep their order, no type is ever duplicated, and the
    transition time moves exactly when the status value flips. *)
Theorem SetCondition_upserts st ctype status reason message gen now :
  let st' := SetCondition st ctype status reason message gen now in
  (∀ ty, ty ≠ ctype → find_condition (Conditions st') ty = find_condition (Conditions st) ty) ∧
  (∃ c, find_condition (Conditions st') ctype = Some c ∧
     Status' c = status ∧ Reason c = reason ∧ Message c = message ∧
     ObservedGeneration' c = gen ∧
     LastTransitionTime c =
       match find_condition (Conditions st) ctype with
       | Some old => if decide (Status' old = status) then LastTransitionTime old else now
       | None => now
       end) ∧
  (Type' <$> Conditions st) `prefix_of` (Type' <$> Conditions st') ∧
  (NoDup (Type' <$> Conditions st) → NoDup (Type' <$> Conditions st')).
Proof.
  simpl. split; [by intros; apply find_set_other|]. split; [|split].
  - eexists. split; [apply find_set_same|]. by destruct (find_condition _ ctype).
  - rewrite set_condition_types. by apply prefix_app_r.
  - rewrite set_condition_types. case_decide; [by rewrite app_nil_r|].
    intros. apply list.NoDup_app. split; [done|]. split; [|apply NoDup_singleton].
    intros x Hx ->%list_elem_of_singleton. done.
Qed.

Lemma SetCondition_upserts_witness :
  let st := mkDeviceStatus "" [mkCondition "Healthy" "True" 1 "t0" "HeartbeatFresh" ""] "" "" "" 0 in
  let st' := SetCondition st CondFirmwareSynced CondFalse "ChecksumMismatch" "got x" 2 "t1" in
  NoDup (Type' <$> Conditions st').
Proof.
  intros st. apply (SetCondition_upserts st CondFirmwareSynced CondFalse "ChecksumMismatch" "got x" 2 "t1").
  apply NoDup_singleton.
Defined.
