(* ===== verification/Kubeconfig.v ===== *)
(** * The kubeconfig reader gives back what was written

    A flat single-cluster kubeconfig as kind and kubeadm print it - fields at any
    indentation, in any order, between lines of other content - against
    [loadKubeconfig]. *)

From S2P Require Import Prelude GoLib Sha256 Os Download Kube.
From Stdlib Require Import Ascii.
Open Scope Z_scope.

(** ** Reversal and trimming *)

Lemma rev_app_spec s t : String.rev_app s t = String.rev s +:+ t.
Proof.
  unfold String.rev. revert t. induction s as [|a s IH]; intros t; [done|]. cbn [String.rev_app].
  rewrite (IH (String a t)), (IH (String a "")). by rewrite app_assoc_str.
Qed.

Lemma rev_app_str s t : String.rev (s +:+ t) = String.rev t +:+ String.rev s.
Proof.
  induction s as [|a s IH]; [by rewrite app_nil_str|].
  change (String.rev (String a (s +:+ t)) = String.rev t +:+ String.rev (String a s)).
  unfold String.rev at 1 3. cbn [String.rev_app]. rewrite !rev_app_spec, IH. by rewrite app_assoc_str.
Qed.

Lemma rev_rev_str s : String.rev (String.rev s) = s.
Proof.
  induction s as [|a s IH]; [done|].
  change (String a s) with (String a "" +:+ s). by rewrite !rev_app_str, IH.
Qed.

(** Printable ASCII without the space: no encoding of a space starts or ends so. *)
Definition printable (a : ascii) : bool :=
  let n := N_of_ascii a in ((33 <=? n) && (n <=? 126))%N.

Fixpoint all_printable (s : string) : bool :=
  match s with EmptyString => true | String a s => printable a && all_printable s end.

Lemma no_space_at a s :
  printable a = true →
  list_find (λ p, HasPrefix (String a s) p = true) spaces = None ∧
  list_find (λ p, HasPrefix (String a s) p = true) (map String.rev spaces) = None.
Proof.
  intros Ha. destruct a as [[] [] [] [] [] [] [] []]; try (by vm_compute in Ha); split; reflexivity.
Qed.

Lemma trim_left_stop fuel seqs a s :
  list_find (λ p, HasPrefix (String a s) p = true) seqs = None →
  trim_left fuel seqs (String a s) = String a s.
Proof. intros Hn. destruct fuel as [|fuel]; [done|]. cbn [trim_left]. by rewrite Hn. Qed.

Fixpoint indentation (n : nat) : string :=
  match n with O => EmptyString | S n => String " " (indentation n) end.

Lemma blank_at s :
  list_find (λ p, HasPrefix (String " " s) p = true) spaces = Some (5%nat, " ").
Proof. by destruct s. Qed.

Lemma TrimLeftSpace_indented n a s :
  printable a = true → TrimLeftSpace (indentation n +:+ String a s) = String a s.
Proof.
  intros Ha. destruct (no_space_at a s Ha) as [Hf _]. unfold TrimLeftSpace.
  assert (∀ fuel, (String.length (indentation n +:+ String a s) ≤ fuel)%nat →
    trim_left fuel spaces (indentation n +:+ String a s) = String a s) as Hn; [|by apply Hn].
  induction n as [|n IH]; intros fuel Hfuel.
  - by apply trim_left_stop.
  - destruct fuel as [|fuel]; [simpl in Hfuel; lia|].
    change (indentation (S n) +:+ String a s) with (String " " (indentation n +:+ String a s)) in *.
    cbn [trim_left]. rewrite blank_at. 
    replace (TrimPrefix _ " ") with (indentation n +:+ String a s)
      by (symmetry; apply (TrimPrefix_app " ")). apply IH. simpl in Hfuel. lia.
Qed.

Lemma TrimRightSpace_printable t a :
  printable a = true → TrimRightSpace (t +:+ String a "") = t +:+ String a "".
Proof.
  intros Ha. unfold TrimRightSpace. rewrite rev_app_str.
  change (String.rev (String a "") +:+ String.rev t) with (String a (String.rev t)).
  rewrite trim_left_stop by by apply no_space_at.
  change (String a (String.rev t)) with (String a "" +:+ String.rev t).
  by rewrite rev_app_str, rev_rev_str.
Qed.

Lemma last_printable v :
  v ≠ "" → all_printable v = true → ∃ t a, v = t +:+ String a "" ∧ printable a = true.
Proof.
  induction v as [|b v IH]; [done|]. intros _ [Hb Hv]%andb_true_iff. destruct v as [|c v].
  - by exists "", b.
  - destruct (IH ltac:(done) Hv) as (t & a & -> & Ha). by exists (String b t), a.
Qed.

Lemma TrimSpace_field n a u v :
  printable a = true → v ≠ "" → all_printable v = true →
  TrimSpace (indentation n +:+ (String a u +:+ v)) = String a u +:+ v.
Proof.
  intros Ha Hv Hp. destruct (last_printable v Hv Hp) as (t & b & -> & Hb). unfold TrimSpace.
  change (String a u +:+ (t +:+ String b "")) with (String a (u +:+ (t +:+ String b ""))).
  rewrite TrimLeftSpace_indented by done.
  change (String a (u +:+ (t +:+ String b ""))) with (String a u +:+ (t +:+ String b "")).
  rewrite <-app_assoc_str. by apply TrimRightSpace_printable.
Qed.

Lemma TrimSpace_value v : v ≠ "" → all_printable v = true → TrimSpace v = v.
Proof.
  intros Hv Hp. destruct v as [|a v]; [done|]. apply andb_true_iff in Hp as Hp'. destruct Hp' as [Ha _].
  destruct (last_printable (String a v) Hv Hp) as (t & b & Heq & Hb). unfold TrimSpace.
  change (String a v) with (indentation 0 +:+ String a v) at 1.
  rewrite TrimLeftSpace_indented by done. rewrite Heq. by apply TrimRightSpace_printable.
Qed.

(** ** The file *)

Inductive line :=
  | Field (indent : nat) (key value : string)
  | Other (text : string).

Definition line_text (l : line) : string :=
  match l with
  | Field n key value => indentation n +:+ (key +:+ ": " +:+ value)
  | Other text => text
  end.

Fixpoint no_newline (s : string) : bool :=
  match s with EmptyString => true | String a s => bool_decide (a ≠ newline) && no_newline s end.

(** What the writer keeps to: known keys, printable values, and nothing else on the
    other lines that reads as one of the keys. *)
Definition proper (l : line) : Prop :=
  match l with
  | Field _ key value => key ∈ kubeconfig_keys ∧ value ≠ "" ∧ all_printable value = true
  | Other text => no_newline text = true ∧
      ∀ key, key ∈ kubeconfig_keys → CutPrefix (TrimSpace text) (key +:+ ": ") = None
  end.

Definition print (ls : list line) : string :=
  foldr (λ l s, line_text l +:+ String newline s) "" ls.

Definition field_of (l : line) : option (string * string) :=
  match l with Field _ key value => Some (key, value) | Other _ => None end.

Lemma no_newline_app s t : no_newline (s +:+ t) = no_newline s && no_newline t.
Proof.
  induction s as [|a s IH]; [done|]. change (String a s +:+ t) with (String a (s +:+ t)).
  cbn [no_newline]. by rewrite IH, andb_assoc.
Qed.

Lemma printable_no_newline v : all_printable v = true → no_newline v = true.
Proof.
  induction v as [|a v IH]; [done|]. intros [Ha Hv]%andb_true_iff. cbn [no_newline].
  rewrite IH, bool_decide_eq_true_2; [done| |done]. intros ->. by vm_compute in Ha.
Qed.

Lemma proper_line l : proper l → no_newline (line_text l) = true.
Proof.
  destruct l as [n key v|text]; [|by intros []]. intros (Hk & _ & Hv). cbn [line_text].
  rewrite !no_newline_app, (printable_no_newline v Hv).
  assert (no_newline (indentation n) = true) as -> by (induction n; [done|by cbn]).
  unfold kubeconfig_keys in Hk.
  by repeat (apply elem_of_cons in Hk as [->|Hk]; [reflexivity|]); apply not_elem_of_nil in Hk.
Qed.

Lemma Split_line s t : no_newline s = true → Split (s +:+ String newline t) newline = s :: Split t newline.
Proof.
  induction s as [|a s IH].
  - intros _. change ("" +:+ String newline t) with (String newline t). cbn [Split]. by rewrite decide_True.
  - intros [Ha%bool_decide_eq_true Hs]%andb_true_iff.
    change (String a s +:+ String newline t) with (String a (s +:+ String newline t)). cbn [Split].
    by rewrite decide_False, IH.
Qed.

Lemma Split_print ls : Forall proper ls → Split (print ls) newline = (line_text <$> ls) ++ [""].
Proof.
  induction 1 as [|l ls Hl _ IH]; [done|]. cbn [print foldr]. rewrite Split_line by by apply proper_line.
  fold (print ls). by rewrite IH.
Qed.

(** ** Reading it back *)

Lemma cut_field key key' v :
  key ∈ kubeconfig_keys → key' ∈ kubeconfig_keys →
  CutPrefix (key +:+ ": " +:+ v) (key' +:+ ": ") = if decide (key = key') then Some v else None.
Proof.
  intros Hk Hk'. case_decide as Heq.
  - subst key'. rewrite <-app_assoc_str. apply CutPrefix_app.
  - unfold kubeconfig_keys in *.
    repeat (apply elem_of_cons in Hk as [->|Hk]); try by apply not_elem_of_nil in Hk.
    all: repeat (apply elem_of_cons in Hk' as [->|Hk']); try by apply not_elem_of_nil in Hk'.
    all: done.
Qed.

(** The first occurrence of a key counts. *)
Definition put (fields : gmap string string) (kv : string * string) : gmap string string :=
  match fields !! kv.1 with Some _ => fields | None => <[kv.1 := kv.2]> fields end.

Lemma put_put fields kv : put (put fields kv) kv = put fields kv.
Proof.
  unfold put at 2 3. destruct (fields !! kv.1) eqn:Hf; unfold put; [by rewrite Hf|].
  by rewrite lookup_insert_eq.
Qed.

Lemma scan_known fields key v ks :
  key ∈ kubeconfig_keys → v ≠ "" → all_printable v = true → (∀ k, k ∈ ks → k ∈ kubeconfig_keys) →
  foldl (scan_key (key +:+ ": " +:+ v)) fields ks = if decide (key ∈ ks) then put fields (key, v) else fields.
Proof.
  intros Hk Hv Hp. revert fields. induction ks as [|k ks IH]; intros fields Hks; [done|].
  assert (∀ k, k ∈ ks → k ∈ kubeconfig_keys) as Hks' by (intros; apply Hks; by right).
  cbn [foldl]. rewrite IH by done. unfold scan_key at 1 2. rewrite cut_field by (try done; apply Hks; by left).
  destruct (decide (key = k)) as [<-|Hne].
  - rewrite (decide_True (P := key ∈ key :: ks)) by by left. rewrite TrimSpace_value by done.
    change (match fields !! key with Some _ => fields | None => <[key:=v]> fields end) with (put fields (key, v)).
    rewrite put_put. by case_decide.
  - destruct (decide (key ∈ ks)) as [Hin|Hin].
    + by rewrite decide_True by by right.
    + rewrite decide_False; [done|]. rewrite elem_of_cons. by intros [?|?].
Qed.

Lemma scan_unknown fields text ks :
  (∀ k, k ∈ ks → CutPrefix text (k +:+ ": ") = None) → foldl (scan_key text) fields ks = fields.
Proof.
  revert fields. induction ks as [|k ks IH]; intros fields Hks; [done|]. cbn [foldl]. unfold scan_key at 2.
  rewrite (Hks k) by by left. apply IH. intros; apply Hks; by right.
Qed.

Lemma scan_line_proper fields l :
  proper l → scan_line fields (line_text l) =
    match field_of l with Some kv => put fields kv | None => fields end.
Proof.
  unfold scan_line. destruct l as [n key v|text]; cbn [line_text field_of].
  - intros (Hk & Hv & Hp). assert (∃ a u, key = String a u ∧ printable a = true) as (a & u & -> & Ha).
    { unfold kubeconfig_keys in Hk.
      by repeat (apply elem_of_cons in Hk as [->|Hk]; [by eexists _, _|]); apply not_elem_of_nil in Hk. }
    assert (String a u +:+ ": " +:+ v = String a (u +:+ ": ") +:+ v) as Heq
      by exact (f_equal (String a) (eq_sym (app_assoc_str u ": " v))).
    rewrite Heq, TrimSpace_field, <-Heq, scan_known by done. by rewrite decide_True.
  - intros [_ Hn]. by apply scan_unknown.
Qed.

Lemma fields_print ls :
  Forall proper ls → kubeconfig_fields (print ls) = foldl put ∅ (omap field_of ls).
Proof.
  intros Hls. unfold kubeconfig_fields. rewrite Split_print by done. rewrite foldl_app.
  change (foldl scan_line ?f [""]) with f. generalize (∅ : gmap string string) as f.
  induction Hls as [|l ls Hl _ IH]; intros f; [done|]. rewrite fmap_cons. cbn [foldl omap list_omap].
  rewrite scan_line_proper by done. by destruct (field_of l); apply IH.
Qed.

Lemma put_keeps kvs f key v : f !! key = Some v → foldl put f kvs !! key = Some v.
Proof.
  revert f. induction kvs as [|kv kvs IH]; intros f Hf; [done|]. cbn [foldl]. apply IH. unfold put.
  destruct (f !! kv.1) eqn:Hk; [done|]. rewrite lookup_insert_ne; congruence.
Qed.

Lemma put_fields kvs f key v :
  NoDup kvs.*1 → f !! key = None → (key, v) ∈ kvs → foldl put f kvs !! key = Some v.
Proof.
  revert f. induction kvs as [|[k u] kvs IH]; intros f; [by intros _ _ ?%not_elem_of_nil|].
  rewrite fmap_cons. intros [Hk Hnd]%list.NoDup_cons Hf [Heq|Hin]%elem_of_cons; cbn [foldl].
  - simplify_eq. apply put_keeps. unfold put. cbn [fst snd]. rewrite Hf. by rewrite lookup_insert_eq.
  - apply IH; [done| |done]. unfold put. cbn [fst snd]. destruct (f !! k); [done|].
    rewrite lookup_insert_ne; [done|]. intros ->. apply Hk. by apply (list_elem_of_fmap_2 fst) in Hin.
Qed.

(** C29. A kubeconfig reads back as it was written.  Take any file of one field per
    line, at any indentation and in any order, with anything between them that does
    not read as one of the keys, each key once: [loadKubeconfig] returns exactly the
    server, and for a TLS server the configuration made of the three decoded
    credentials. *)
Theorem kubeconfig_roundtrip {TLS Pair Pool : Type}
    (DecodeString : string → result goerr string)
    (X509KeyPair : string → string → result goerr Pair)
    (AppendCertsFromPEM : string → option Pool) (tlsConfig : Pool → Pair → TLS)
    ls p server ca64 cert64 key64 ca cert key pair pool :
  Forall proper ls → NoDup (omap field_of ls).*1 →
  ("server", server) ∈ omap field_of ls →
  ("certificate-authority-data", ca64) ∈ omap field_of ls →
  ("client-certificate-data", cert64) ∈ omap field_of ls →
  ("client-key-data", key64) ∈ omap field_of ls →
  DecodeString ca64 = Ok ca → DecodeString cert64 = Ok cert → DecodeString key64 = Ok key →
  X509KeyPair cert key = Ok pair → AppendCertsFromPEM ca = Some pool →
  loadKubeconfig DecodeString X509KeyPair AppendCertsFromPEM tlsConfig p (Ok (print ls)) =
    Ok (server, if HasPrefix server "http://" then None else Some (tlsConfig pool pair)).
Proof.
  intros Hls Hnd Hs Hca Hcert Hkey Dca Dcert Dkey Hpair Hpool.
  assert (∀ k v, (k, v) ∈ omap field_of ls → field (kubeconfig_fields (print ls)) k = v) as Hfield.
  { intros k v Hin. unfold field. rewrite fields_print by done. by rewrite (put_fields _ _ k v). }
  unfold loadKubeconfig. cbn zeta. rewrite (Hfield _ _ Hs). rewrite decide_False.
  - destruct (HasPrefix server "http://"); [done|].
    by rewrite (Hfield _ _ Hca), (Hfield _ _ Hcert), (Hfield _ _ Hkey), Dca, Dcert, Dkey, Hpair, Hpool.
  - apply list_elem_of_omap in Hs as ([n k v|text] & Hin & [= _ <-]).
    rewrite list.Forall_forall in Hls. by apply Hls in Hin as (_ & ? & _).
Qed.

(** What kind writes, with short stand-ins for the base64 texts. *)
Definition kind_file : list line :=
  [Other "apiVersion: v1"; Other "clusters:"; Other "- cluster:";
   Field 4 "certificate-authority-data" "Q0E="; Field 4 "server" "https://127.0.0.1:6443";
   Other "  name: kind-edge"; Other "current-context: kind-edge"; Other "kind: Config"; Other "users:";
   Other "- name: kind-edge"; Other "  user:";
   Field 4 "client-certificate-data" "Q0VSVA=="; Field 4 "client-key-data" "S0VZ"].

Lemma kubeconfig_roundtrip_witness :
  loadKubeconfig Ok (λ cert key, Ok (cert, key)) Some (λ ca pair, (ca, pair)) "kubeconfig" (Ok (print kind_file)) =
    Ok ("https://127.0.0.1:6443", Some ("Q0E=", ("Q0VSVA==", "S0VZ"))).
Proof.
  apply (kubeconfig_roundtrip Ok (λ cert key, Ok (cert, key)) Some (λ ca pair, (ca, pair)) kind_file "kubeconfig"
    "https://127.0.0.1:6443" "Q0E=" "Q0VSVA==" "S0VZ" "Q0E=" "Q0VSVA==" "S0VZ"); try reflexivity.
  - repeat constructor; try (apply (bool_decide_unpack _); vm_compute; exact I); try discriminate;
      intros key Hk; unfold kubeconfig_keys in Hk;
      repeat (apply elem_of_cons in Hk as [->|Hk]; [reflexivity|]); by apply not_elem_of_nil in Hk.
  - apply (bool_decide_unpack _). vm_compute. exact I.
  - apply (bool_decide_unpack _). vm_compute. exact I.
  - apply (bool_decide_unpack _). vm_compute. exact I.
  - apply (bool_decide_unpack _). vm_compute. exact I.
  - apply (bool_decide_unpack _). vm_compute. exact I.
Defined.
