(* ===== verification/Agent.v ===== *)
(** * internal/agent/agent.go: the device agent (definitions)

    The poll loop, the heartbeat loop and the upgrade transaction, as programs
    over everything they share: the data directory and the network ([Download]),
    the API server ([Kube]), and the agent's memory with its mutex.  Log calls are
    left out, except the state machine's observer, which records every move. *)

From S2P Require Import Prelude GoLib Fsm Sha256 Os Download Slot Boot Kube.
Open Scope Z_scope.

Record Config := mkConfig {
    PollInterval : Z;
    HeartbeatInterval : Z;
    CfgDownload : DownloadOptions;
  }.

(** What never changes in an [Agent]: its configuration and its client. *)
Record agent := mkAgent { cfg : Config; kube : KubeClient }.

(** ** Shared memory *)

(** The mutable fields of [Agent]; [mu] is the goroutine that holds the mutex and
    [moves] what the state machine's observer has logged. *)
Record memory := mkMemory {
    mu : option nat;
    upgrading : bool;
    lastFailedKey : string;
    lastSeenGen : Z;
    fsm : FSM (list (State * State));
    moves : list (State * State);
  }.

(** The fields as [New] leaves them. *)
Definition new_memory : memory := mkMemory None false "" 0 (NewFSM (Some record)) [].

Inductive memop :=
  | Lock | Unlock
  | ReadUpgrading | WriteUpgrading (b : bool)
  | ReadFailedKey | WriteFailedKey (key : string)
  | StoreGen (g : Z) | LoadGen
  | FsmTo (next : State).

Definition memres (o : memop) : Type :=
  match o with
  | ReadUpgrading => bool
  | ReadFailedKey => string
  | LoadGen => Z
  | FsmTo _ => option goerr
  | _ => unit
  end.

Definition set_mu (m : memory) (h : option nat) : memory :=
  mkMemory h (upgrading m) (lastFailedKey m) (lastSeenGen m) (fsm m) (moves m).

(** One access by goroutine [t]; [None] where Go blocks or aborts. *)
Definition mem_exec (t : nat) (o : memop) (m : memory) : option (memres o * memory) :=
  match o with
  | Lock => match mu m with None => Some (tt, set_mu m (Some t)) | Some _ => None end
  | Unlock => match mu m with Some _ => Some (tt, set_mu m None) | None => None end
  | ReadUpgrading => Some (upgrading m, m)
  | WriteUpgrading b =>
      Some (tt, mkMemory (mu m) b (lastFailedKey m) (lastSeenGen m) (fsm m) (moves m))
  | ReadFailedKey => Some (lastFailedKey m, m)
  | WriteFailedKey key =>
      Some (tt, mkMemory (mu m) (upgrading m) key (lastSeenGen m) (fsm m) (moves m))
  | StoreGen g =>
      Some (tt, mkMemory (mu m) (upgrading m) (lastFailedKey m) g (fsm m) (moves m))
  | LoadGen => Some (lastSeenGen m, m)
  | FsmTo next =>
      let '(err, f, l) := To (fsm m) next (moves m) in
      Some (err, mkMemory (mu m) (upgrading m) (lastFailedKey m) (lastSeenGen m) f l)
  end.

(** ** The signature of the agent *)

Inductive agop :=
  | ADl (o : dlop)
  | AKube (o : kubeop)
  | AMem (o : memop)
  | Go (spec : DeviceSpec) (gen : Z)   (* start the upgrade goroutine *)
  | CtxDone                            (* ctx.Err() != nil *)
  | Tick.                              (* select of ticker.C and ctx.Done(): did ctx end? *)

Definition agres (o : agop) : Type :=
  match o with
  | ADl o => dlres o
  | AKube o => kuberes o
  | AMem o => memres o
  | Go _ _ => unit
  | CtxDone => bool
  | Tick => bool
  end.

Definition agS : sig := Sig agop agres.

Global Instance dl_ag : Subsig dlS agS :=
  {| inj := (ADl : act dlS → act agS); back := λ _ r, r |}.
Global Instance kube_ag : Subsig kubeS agS :=
  {| inj := (AKube : act kubeS → act agS); back := λ _ r, r |}.
Global Instance fs_ag : Subsig fsS agS :=
  {| inj := (λ o : act fsS, (ADl (DFs o) : act agS)); back := λ _ r, r |}.

Definition acall (o : agop) : prog agS (agres o) := trigger (o : act agS).
Definition mem (o : memop) : prog agS (memres o) := acall (AMem o).
Definition onfs {A} (p : prog fsS A) : prog agS A := lift p.
Definition ondl {A} (p : prog dlS A) : prog agS A := lift p.

(** ** Status reports *)

Section agent.
Context (a : agent).

(** The assignments [reportStatus] makes around the caller's. *)
Definition mutation (mutate : DeviceStatus → Z → prog agS DeviceStatus) (dev : Kube.Device) :
  prog agS Kube.Device :=
  gen <- mem LoadGen ;;
  st <- mutate (Kube.Status dev) gen ;;
  Ret (with_status dev (mkDeviceStatus (Phase st) (Conditions st) (CurrentFirmwareVersion st)
                      (ActiveSlot st) (LastHeartbeat st) gen)).

Definition reportStatus (mutate : DeviceStatus → Z → prog agS DeviceStatus) : prog agS unit :=
  do UpdateStatus (kube a) (mutation mutate) ;;
  Ret tt.

(** [SetCondition] with the time it reads. *)
Definition setCondition (st : DeviceStatus) (ctype status reason message : string) (gen : Z) :
  prog agS DeviceStatus :=
  now <- acall (AKube KNow) ;;
  Ret (SetCondition st ctype status reason message gen now).

Definition set_firmware (st : DeviceStatus) (version slot : string) : DeviceStatus :=
  mkDeviceStatus (Phase st) (Conditions st) version slot (LastHeartbeat st)
  (ObservedGeneration st).

Definition set_heartbeat (st : DeviceStatus) (now : string) : DeviceStatus :=
  mkDeviceStatus (Phase st) (Conditions st) (CurrentFirmwareVersion st) (ActiveSlot st) now
  (ObservedGeneration st).

(** The body of [heartbeatLoop]'s ticker case. *)
Definition beat (st : DeviceStatus) (gen : Z) : prog agS DeviceStatus :=
  now <- acall (AKube KNow) ;;
  Ret (set_heartbeat st now).

(** [time.NewTicker(d)], which panics unless [d] is positive. *)
Definition NewTicker (d : Z) : prog agS unit :=
  if d <=? 0 then
    bind (acall (ADl (Panic "non-positive interval for NewTicker")))
      (λ r : Empty_set, match r return prog agS unit with end)
  else Ret tt.

(** One turn of [heartbeatLoop]; [false] when it returned.  The ticker is made before
    the first; since the interval does not change, asking on every turn panics at the
    same place. *)
Definition heartbeat_turn : prog agS bool :=
  do NewTicker (HeartbeatInterval (cfg a)) ;;
  ended <- acall Tick ;;
  if (ended : bool) then Ret false else
  do reportStatus beat ;;
  Ret true.

(** ** The upgrade transaction *)

Definition slot_or_empty (r : result goerr string) : string :=
  match r with Ok slot => slot | Err _ => "" end.

Definition target_key (spec : DeviceSpec) : string :=
  DesiredFirmwareVersion spec +:+ "|" +:+ ChecksumSHA256 spec.

Definition staging_name (sum : string) : string :=
  "staging-" +:+ str_take 12 sum +:+ ".bin".

Definition mark_failed (reason msg : string) (st : DeviceStatus) (gen : Z) :
  prog agS DeviceStatus :=
  setCondition st CondFirmwareSynced CondFalse reason msg gen.

Definition mark_started (version : string) (st : DeviceStatus) (gen : Z) :
  prog agS DeviceStatus :=
  setCondition st CondFirmwareSynced CondFalse "UpgradeInProgress" ("downloading " +:+ version) gen.

Definition mark_upgraded (version slot : string) (st : DeviceStatus) (gen : Z) :
  prog agS DeviceStatus :=
  setCondition (set_firmware st version slot) CondFirmwareSynced CondTrue "Synced"
  ("upgraded to " +:+ version) gen.

(** The closure [fail] of [runUpgrade]. *)
Definition fail (spec : DeviceSpec) (reason msg : string) : prog agS unit :=
  do mem (FsmTo StateFailed) ;;
  do mem Lock ;;
  do mem (WriteFailedKey (target_key spec)) ;;
  do mem Unlock ;;
  reportStatus (mark_failed reason msg).

Definition BootResult_text (r : option BootResult) : string :=
  match r with
  | None => ""
  | Some BootNormal => "normal"
  | Some BootTrial => "trial"
  | Some BootRolledBack => "rolled-back"
  end.

(** [err != nil || boot != BootTrial] *)
Definition not_trial (r : option BootResult * option goerr) : bool :=
  bool_decide (r ≠ (Some BootTrial, None)).

(** From the verified download to the flipped link; the reason and the message
    of the failure, if any. *)
Definition flashing (staging : list string) (spec : DeviceSpec) :
  prog fsS (option (string * string)) :=
  guard Stage staging (DesiredFirmwareVersion spec) (ChecksumSHA256 spec)
  catch err => Ret (Some ("FlashFailed", Error err)) ;;
  guard VerifyStaged catch err => Ret (Some ("FlashVerifyFailed", Error err)) ;;
  promoted <- PromoteStaged ;;
  Ret ((λ err, ("PromoteFailed", Error err)) <$> promoted.2).

(** The simulated reboot into the new slot, up to [Confirm]. *)
Definition confirming : prog fsS (option (string * string)) :=
  boot <- BootCheck ;;
  if not_trial boot then
  Ret (Some ("BootFailed", "unexpected boot result: " +:+ BootResult_text boot.1))
  else
  guard SelfCheck
  catch err => (do Rollback ;; Ret (Some ("SelfCheckFailed", Error err))) ;;
  guard Confirm catch err => Ret (Some ("ConfirmFailed", Error err)) ;;
  Ret None.

Definition runUpgrade (spec : DeviceSpec) (gen : Z) : prog agS unit :=
  let version := DesiredFirmwareVersion spec in
  let sum := ChecksumSHA256 spec in
  do reportStatus (mark_started version) ;;
  guard mem (FsmTo StateDownloading) catch err => Ret tt ;;
(* spec.ChecksumSHA256[:12] *)
  if (String.length sum <? 12)%nat then
  do ondl (trigger (Panic "slice bounds out of range" : act dlS)) ;; Ret tt else
  let staging := [staging_name sum] in
  guard ondl (DownloadWithResume (FirmwareURL spec) staging (CfgDownload (cfg a)))
  catch err => fail spec "DownloadFailed" (Error err) ;;
  guard mem (FsmTo StateVerifying) catch err => Ret tt ;;
  guard onfs (VerifySHA256 staging sum)
  catch err => (do onfs (fcall (Remove staging)) ;; fail spec "ChecksumMismatch" (Error err)) ;;
  guard mem (FsmTo StateFlashing) catch err => Ret tt ;;
  guard onfs (flashing staging spec) catch err => fail spec err.1 err.2 ;;
  guard mem (FsmTo StateConfirming) catch err => Ret tt ;;
  guard onfs confirming catch err => fail spec err.1 err.2 ;;
  do onfs (fcall (Remove staging)) ;;
  guard mem (FsmTo StateIdle) catch err => Ret tt ;;
  slot <- onfs Active ;;
  reportStatus (mark_upgraded version (slot_or_empty slot)).

(** The goroutine of [startUpgrade], its deferred function included. *)
Definition goroutine (spec : DeviceSpec) (gen : Z) : prog agS unit :=
  do runUpgrade spec gen ;;
  do mem Lock ;;
  do mem (WriteUpgrading false) ;;
  mem Unlock.

Definition startUpgrade (dev : Kube.Device) : prog agS unit :=
  do mem Lock ;;
  busy <- mem ReadUpgrading ;;
  if (busy : bool) then mem Unlock else
  do mem (WriteUpgrading true) ;;
  do mem Unlock ;;
  acall (Go (Spec dev) (Generation (Metadata dev))).

(** ** The poll loop *)

Definition mark_synced (current slot : string) (st : DeviceStatus) (gen : Z) :
  prog agS DeviceStatus :=
  setCondition (set_firmware st current slot) CondFirmwareSynced CondTrue "Synced"
  "device firmware matches desired version" gen.

Definition syncSteadyStatus (dev : Kube.Device) (current : string) : prog agS unit :=
  slot <- onfs Active ;;
  let slot := slot_or_empty slot in
  if bool_decide (CurrentFirmwareVersion (Kube.Status dev) = current ∧
              ActiveSlot (Kube.Status dev) = slot)
  then Ret tt
  else reportStatus (mark_synced current slot).

Definition evaluate (dev : Kube.Device) : prog agS unit :=
  do mem (StoreGen (Generation (Metadata dev))) ;;
  current <- onfs ActiveVersion ;;
  if decide (DesiredFirmwareVersion (Spec dev) = current) then syncSteadyStatus dev current
  else if RolloutPaused (Spec dev) then Ret tt
  else
  do mem Lock ;;
  failed <- mem ReadFailedKey ;;
  do mem Unlock ;;
  if decide ((failed : string) = target_key (Spec dev)) then Ret tt
  else startUpgrade dev.

(** One turn of the loop of [Run]; [false] when [Run] returned. *)
Definition poll_turn : prog agS bool :=
  r <- ondl (rand_N (PollInterval (cfg a))) ;;
  let interval := int64 (Z.quot (PollInterval (cfg a)) 2 + r) in
  ended <- acall (ADl (After interval)) ;;
  match ended : option goerr with
  | Some _ => Ret false
  | None =>
  dev <- lift (Get (kube a)) ;;
  match dev with
  | Ok dev => do evaluate dev ;; Ret true
  | Err _ =>
      ended <- acall CtxDone ;;
      Ret (negb ended)
  end
  end.

(** [New] and the start of [Run], up to the loops. *)
Definition power_on : prog fsS (option goerr) :=
  guard NewSlotManager catch err => Ret (Some err) ;;
  bootSequence.
End agent.
