(* ===== verification/AgentLogic.v ===== *)
(** * Reasoning about one goroutine of the agent on the abstract device

    [jwp p J R st d]: the goroutine that drives the state machine (now in [st])
    and writes the data directory (now that of [d]) runs [p]; the directory is
    that of a device satisfying [J] between any two operations, whatever the
    network, the API server and the other goroutines do meanwhile. *)

From S2P Require Import Prelude GoLib Fsm Sha256 Os Download Slot SlotLogic SlotSpec Boot Kube Agent.
Open Scope Z_scope.

Implicit Types (s : fs) (d : device) (x : slot).

(** ** Top-level files *)

(** Only regular files stand beside the slots. *)
Definition tidy d : Prop := ∀ name, is_store name →
  stores d name = None ∨ ∃ b, stores d name = Some (File b).

Definition file_or_none (n : option node) : Prop := n = None ∨ ∃ b, n = Some (File b).

Lemma tidy_plain s d name : rep s d → tidy d → is_store name → plain s name.
Proof. intros Hs Ht Hn. unfold plain. rewrite (rep_stores _ _ Hs) by done. by apply Ht. Qed.

Lemma tidy_put_store d name n : tidy d → file_or_none n → tidy (put_store d name n).
Proof.
  intros Ht Hn name' Hn'. simpl. destruct (decide (name = name')) as [->|].
  - by rewrite fn_lookup_insert.
  - rewrite fn_lookup_insert_ne by done. by apply Ht.
Qed.

Lemma rep_only_at s s' d name :
  rep s d → is_store name → only_at name s s' → rep s' (put_store d name (s' !! [name])).
Proof.
  intros Hs Hn Ho. destruct (s' !! [name]) as [n|] eqn:E.
  - replace s' with (<[[name] := n]> s); [by apply rep_store_insert|].
    apply map_eq. intros q. destruct (decide (q = [name])) as [->|].
    + by rewrite lookup_insert_eq, E.
    + rewrite lookup_insert_ne by done. symmetry. by apply Ho.
  - replace s' with (delete [name] s); [by apply rep_store_delete|].
    apply map_eq. intros q. destruct (decide (q = [name])) as [->|].
    + by rewrite lookup_delete_eq, E.
    + rewrite lookup_delete_ne by done. symmetry. by apply Ho.
Qed.

(** The file operations of a downloader writing to [name]. *)
Definition touches (name : string) (o : fsop) : Prop :=
  match o with
  | Stat p | Open p | Create p | OpenAppend p | ReadAll p | Close p | Remove p => p = [name]
  | Write p _ => p = [name]
  | _ => False
  end.

Lemma remove_plain s name : plain s name →
  only_at name s (remove s [name]).2 ∧ plain (remove s [name]).2 name.
Proof.
  intros Hp. unfold remove. destruct Hp as [E|[b E]]; rewrite E; simpl.
  - split; [done|by left].
  - split; [by apply only_at_delete|left; apply lookup_delete_eq].
Qed.

Lemma touches_only name f o s :
  touches name o → plain s name →
  only_at name s (fs_exec f o s).2 ∧ plain (fs_exec f o s).2 name.
Proof.
  intros Ht Hp. pose proof (plain_insert s name) as Hi.
  assert (∀ n, only_at name s (<[[name] := n]> s)) as Ho
    by (intros n; by apply only_at_insert).
  assert (only_at name s s ∧ plain s name) as Hr by by split.
  destruct o; try done; simpl in Ht; subst;
    destruct f; cbn [fs_exec fst snd]; rewrite ?plain_open_write, ?plain_resolve by done;
    unfold put; cbn [written fst snd]; repeat case_match; simpl; auto using remove_plain.
Qed.

(** ** The semantics of one goroutine *)

(** What it alone writes: the state of the machine and the directory.  The other
    operations may answer anything. *)
Definition job_sem (env : dl_env) : Sem agS (State * fs) :=
  λ o w r w',
    match o return agres o → Prop with
    | ADl o => λ r, dl_sem env o w.2 r w'.2 ∧ w'.1 = w.1
    | AMem o =>
        match o return memres o → Prop with
        | FsmTo next => λ r,
            let '(e, f, _) := To (mkFSM w.1 None) next tt in
            r = e ∧ w'.1 = state f ∧ w'.2 = w.2
        | _ => λ _, w' = w
        end
    | _ => λ _, w' = w
    end r.

Definition quiet (o : act agS) : Prop :=
  match o with
  | ADl _ => False
  | AMem (FsmTo _) => False
  | _ => True
  end.

Section logic.
Context (env : dl_env).
Context (HP : ∀ o f, is_read o = true → faults env o f → f = NoFault).
Local Instance Jsem : Sem agS (State * fs) := job_sem env.
Local Instance Dsem : Sem dlS fs := dl_sem env.
Local Instance Fsem : Sem fsS fs := fs_sem (faults env).
Implicit Types (J : device → Prop) (st : State).

Definition jwp {A} (p : prog agS A) J (R : A → State → device → Prop) st d : Prop :=
  ∀ s, rep s d →
  wpi p (λ w, holds J w.2) (λ a w', ∃ d', rep w'.2 d' ∧ R a w'.1 d') (st, s).

Lemma jwp_ret {A} (a : A) J (R : A → State → device → Prop) st d :
  J d → R a st d → jwp (Ret a) J R st d.
Proof. intros HJ HR s Hs. split; by exists d. Qed.

Lemma jwp_bind {A B} (p : prog agS A) (f : A → prog agS B) J R st d :
  jwp p J (λ a st' d', jwp (f a) J R st' d') st d → jwp (bind p f) J R st d.
Proof.
  intros H s Hs. apply wpi_bind. eapply wpi_mono; [by apply H|done|].
  intros a [st' s'] _ (d' & Hs' & Hd'). by apply Hd'.
Qed.

Lemma jwp_mono {A} (p : prog agS A) J (R1 R2 : A → State → device → Prop) st d :
  jwp p J R1 st d → (∀ a st' d', R1 a st' d' → R2 a st' d') → jwp p J R2 st d.
Proof.
  intros H HR s Hs. eapply wpi_mono; [by apply H|done|].
  intros a w' _ (d' & ? & ?). exists d'. auto.
Qed.

(** Operations that touch neither the machine nor the directory. *)
Lemma jwp_quiet {A} (p : prog agS A) J (R : A → State → device → Prop) st d :
  calls_only quiet p → J d → (∀ a, R a st d) → jwp p J R st d.
Proof.
  intros Hp HJ HR s Hs. induction p as [a|o k IH].
  - split; exists d; auto.
  - destruct Hp as [Ho Hk]. split; [by exists d|]. intros r w' Hstep.
  assert (w' = (st, s)) as -> by (by destruct o as [| |[]| | |]).
  apply IH, Hk.
Qed.

(** A legal move of the state machine. *)
Lemma jwp_To next J (R : option goerr → State → device → Prop) st d :
  next ∈ allowed_from st → J d → R None next d → jwp (mem (FsmTo next)) J R st d.
Proof.
  intros Hin HJ HR s Hs. split; [by exists d|]. intros r [st' s'] H. cbn in H.
  rewrite To_legal in H by done. cbn in H. destruct H as (-> & -> & ->).
  split; by exists d.
Qed.

Definition frame (w w' : State * fs) : Prop := w'.1 = w.1.

Local Instance frame_pre : PreOrder frame.
Proof. split; [done|]. intros w1 w2 w3 E1 E2. unfold frame in *. congruence. Qed.

(** The slot manager's operations, as specified on the device. *)
Lemma jwp_fs {A} (p : prog fsS A) J (R : A → device → Prop) Q st d :
  dwp (faults env) p J R d → (∀ a d', R a d' → Q a st d') → jwp (onfs p) J Q st d.
Proof.
  intros H HQ s Hs.
  eapply wpi_mono; [eapply (wpi_lift snd frame _ p _ _ (st, s) (st, s)); [done|by apply H]|..].
  - by intros w [_ ?].
  - intros a w' _ [E (d' & ? & ?)]. exists d'. unfold frame in E. simpl in E. rewrite E. auto.
  Unshelve. intros o w r w' [Hs1 Hf]. by split.
Qed.

(** The downloader's programs, as specified on the directory. *)
Lemma wpi_ondl {A} (p : prog dlS A) (I : fs → Prop) (Q : A → fs → Prop) st s :
  wpi p I Q s →
  wpi (ondl p) (λ w, frame (st, s) w ∧ I w.2) (λ a w, frame (st, s) w ∧ Q a w.2) (st, s).
Proof.
  intros H. eapply (wpi_lift snd frame _ p _ _ (st, s) (st, s)); [done|exact H].
  Unshelve. intros o w r w' [Hs1 Hf]. by split.
Qed.

(** A downloader writes its destination and nothing else. *)
Lemma jwp_download {A} (p : prog dlS A) name J (Q : A → State → device → Prop) st d :
  calls_only (λ o : act dlS, match o with DFs o => touches name o | _ => True end) p →
  is_store name → tidy d →
  (∀ n, file_or_none n → J (put_store d name n)) → (∀ a n, file_or_none n → Q a st (put_store d name n)) →
  jwp (ondl p) J Q st d.
Proof.
  intros Hp Hn Ht HJ HQ s Hs.
  assert (∀ s', only_at name s s' → plain s' name →
        rep s' (put_store d name (s' !! [name])) ∧ file_or_none (s' !! [name])) as Hrep.
  { intros s' Ho Hpl. split; [by apply (rep_only_at s)|done]. }
  assert (∀ s0, only_at name s s0 → plain s0 name →
  wpi p (λ s', only_at name s s' ∧ plain s' name)
      (λ _ s', only_at name s s' ∧ plain s' name) s0) as H.
  { clear -Hp. induction p as [a|o k IH]; intros s0 Hat Hpl; [by repeat split|].
  destruct Hp as [Ho Hk]. split; [done|]. intros r s1 Hstep.
  assert (only_at name s s1 ∧ plain s1 name) as [Hat' Hpl']; [|by apply IH].
  destruct o; try (by destruct Hstep as [_ ->]); [|done].
  destruct Hstep as (f & _ & E). destruct (touches_only name f o s0) as [H1 H2]; [done..|].
  rewrite E in H1, H2. split; [|done]. intros q Hq. rewrite H1 by done. by apply Hat. }
  specialize (H s (λ _ _, eq_refl) (tidy_plain s d name Hs Ht Hn)).
  eapply wpi_mono; [apply wpi_ondl, H|..].
  - intros w [_ [Ho Hpl]]. destruct (Hrep _ Ho Hpl) as [? ?]. eexists. split; [done|]. auto.
  - intros a w' _ [E [Ho Hpl]]. destruct (Hrep _ Ho Hpl) as [? ?].
  eexists. split; [done|]. unfold frame in E. simpl in E. rewrite E. auto.
Qed.

(** The checksum gate on a downloaded file. *)
Lemma dwp_verify_store d name want J (R : option goerr → device → Prop) :
  J d → is_store name → tidy d → (∀ e, R (Some e) d) →
  (∀ b, stores d name = Some (File b) → sha256hex b = want → R None d) →
  dwp (faults env) (VerifySHA256 [name] want) J R d.
Proof.
  intros HJ Hn Ht Hbad Hok s Hs.
  assert (∃ data, s !! [name] = File <$> data) as [data Hd].
  { destruct (tidy_plain _ _ _ Hs Ht Hn) as [->|[b ->]]; [by exists None|by exists (Some b)]. }
  eapply wpi_mono with (I1 := λ s', s' = s);
  [by apply (VerifySHA256_ok (faults env) s [name] want data)|..].
  - intros s' ->. by exists d.
  - intros r s' _ [-> ->]. exists d. split; [done|]. unfold verify_result.
  destruct data as [b|]; [|done]. case_decide; [|done]. apply (Hok b); [|done].
  by rewrite <-(rep_stores _ _ Hs).
Qed.

Lemma dwp_remove_store d name J (R : option goerr → device → Prop) :
  J d → is_store name → tidy d → (∀ r, R r d) →
  (∀ r, J (put_store d name None) ∧ R r (put_store d name None)) →
  dwp (faults env) (fcall (Remove [name])) J R d.
Proof.
  intros HJ Hn Ht Hkept Hgone. apply dwp_call; [done|]. intros s f Hs _.
  destruct f; cbn [fs_exec fst snd]; [|exists d; auto..].
  unfold remove. destruct (tidy_plain _ _ _ Hs Ht Hn) as [->|[b ->]]; cbn [fst snd].
  - exists d. auto.
  - exists (put_store d name None). split; [by apply rep_store_delete|]. apply Hgone.
Qed.
End logic.

(** ** Which operations the agent's pieces perform *)

Lemma retries_touches o url name n attempt lastErr :
  calls_only (λ op : act dlS, match op with DFs f => touches name f | _ => True end)
    (retries o url [name] n attempt lastErr).
Proof.
  revert attempt lastErr. induction n as [|n IH]; intros attempt lastErr; cbn [retries]; [done|].
  apply calls_only_bind; [unfold pause, rand_N; by_cases|]. intros [e|]; [done|].
  apply calls_only_bind; [|intros [e|]; [apply IH|done]].
  unfold downloadOnce, copyBody, dfs. by_cases.
Qed.

Section reports.
Context (Q : act agS → Prop) (HK : ∀ o, Q (AKube o)) (HL : Q (AMem LoadGen)).

Lemma UpdateStatus_calls c mutate :
  (∀ dev, calls_only Q (mutate dev)) → calls_only Q (UpdateStatus (S := agS) c mutate).
Proof.
  intros Hm. unfold UpdateStatus. generalize 5%nat, (@None goerr). intros n.
  induction n as [|n IH]; intros lastErr; cbn [update_loop]; [done|].
  apply calls_only_bind; [apply calls_only_lift; unfold Get; by_cases|]. intros [d|e]; [|done].
  apply calls_only_bind; [done|]. intros d'.
  apply calls_only_bind; [apply calls_only_lift; unfold PutStatus; by_cases|].
  intros [e|]; [|done]. by destruct (IsConflict e).
Qed.

Lemma reportStatus_calls a mutate :
  (∀ st gen, calls_only Q (mutate st gen)) → calls_only Q (reportStatus a mutate).
Proof.
  intros Hm. apply calls_only_bind; [|done]. apply UpdateStatus_calls. intros dev.
  apply calls_only_bind; [done|]. intros gen. apply calls_only_bind; [apply Hm|done].
Qed.
End reports.
