(* ===== verification/Upgrade.v ===== *)
(** * The upgrade transaction on the abstract device

    What one [runUpgrade] does to the slots at every intermediate point, under
    every fault of the calls that write, and what it leaves when it returns. *)

From S2P Require Import Prelude GoLib Fsm Sha256 Os Download Slot SlotLogic SlotSpec Boot Kube Agent AgentLogic.
Open Scope Z_scope.

Implicit Types (s : fs) (d : device) (x y : slot).

(** Slot [y] is still confirmed and the top-level files are those given. *)
Record held y (files : string → option node) d : Prop := {
    held_confirmed : confirmed d y = true;
    held_stores : stores d = files;
  }.

Lemma held_recoverable y files d : held y files d → recoverable d.
Proof. intros []. by exists y. Qed.

Lemma held_tidy d y d' : tidy d → held y (stores d) d' → tidy d'.
Proof. intros Ht [_ E] name Hn. rewrite E. by apply Ht. Qed.

Lemma held_same d d' :
  confirmed d (active d) = true → same_running d d' → held (active d) (stores d) d'.
Proof. intros Hc [Ha Hs Ho]. split; [|done]. unfold confirmed in *. by rewrite Hs. Qed.

Lemma held_put y files d f b x : x ≠ y → held y files d → held y files (put_file d x f b).
Proof. intros Hx [Hc Ho]. split; [|done]. unfold confirmed. by rewrite put_file_twin. Qed.

Lemma held_mono y files d d' :
  confirmed d' y = confirmed d y → stores d' = stores d → held y files d → held y files d'.
Proof. intros E1 E2 [Hc Ho]. split; congruence. Qed.

Lemma held_confirm y files d x : held y files d → held y files (put_file d x confirmedMarker "").
Proof. intros [Hc Ho]. split; [|done]. by apply confirmed_put_mono. Qed.

Lemma held_flip y files d x : held y files d → held y files (flip d x).
Proof. by intros []. Qed.

Lemma held_del_pending y files d x : held y files d → held y files (del_file d x pendingMarker).
Proof. apply held_mono; [apply confirmed_del_pending|done]. Qed.

#[export] Hint Resolve held_put held_confirm held_flip held_del_pending held_same : slots.

Lemma same_running_trans d1 d2 d3 : same_running d1 d2 → same_running d2 d3 → same_running d1 d3.
Proof. intros [Ha Hs Ho] [Ha' Hs' Ho']. split; congruence. Qed.

(** [d'] boots the twin of the slot [d] boots, announced and not yet tried, with
    the image [b] and its version and checksum. *)
Record promoted d d' (b version checksum : string) (clean : Prop) : Prop := {
    promoted_active : active d' = twin (active d);
    promoted_old : slots d' (active d) = slots d (active d);
    promoted_stores : stores d' = stores d;
    promoted_fw : slots d' (active d') !! firmwareFile = Some b;
    promoted_version : slots d' (active d') !! versionFile = Some version;
    promoted_intact : intact (slots d' (active d'));
    promoted_pending : pending d' (active d') = Some "0";
    promoted_clean : clean → confirmed d' (active d') = false;
  }.

(** The new firmware is in place and sealed. *)
Record installed d d' (version checksum : string) : Prop := {
    installed_active : active d' = twin (active d);
    installed_confirmed : confirmed d' (active d') = true;
    installed_version : slots d' (active d') !! versionFile = Some version;
    installed_image : ∃ fw, slots d' (active d') !! firmwareFile = Some fw ∧ sha256hex fw = checksum;
  }.

Section flash.
Context (P : policy) (HP : ∀ o f, is_read o = true → P o f → f = NoFault).

Lemma flashing_ok d name b spec :
  is_store name → stores d name = Some (File b) → confirmed d (active d) = true →
  dwp P (flashing [name] spec) (held (active d) (stores d))
  (λ r d', match r with
   | Some _ => same_running d d'
   | None => promoted d d' b (DesiredFirmwareVersion spec) (ChecksumSHA256 spec) (removes_ok P)
   end) d.
Proof.
  intros Hn Hb Hc. set (x := twin (active d)).
  apply dwp_bind. eapply (dwp_Stage P d name (Some b)); [done|done|auto with slots|..].
  { intros _ d' e Hd'. apply dwp_ret; auto with slots. }
  intros d2 data [= <-] Hst. pose proof (staged_same _ _ _ _ _ _ Hst) as Hsame.
  assert (active d2 = active d) as Ha by apply Hsame.
  apply dwp_bind, (dwp_VerifyStaged P HP); [auto with slots|..].
  { intros e _. apply dwp_ret; auto with slots. }
  intros Hi. rewrite Ha in Hi.
  assert (∀ c, same_running d (put_file d2 x pendingMarker c)) as Hput by (unfold x; auto with slots).
  apply dwp_bind, (dwp_PromoteStaged P HP); rewrite ?Ha; fold x.
  - auto with slots.
  - intros _ e. by apply dwp_ret; [auto with slots|].
  - intros _ c. split; [auto with slots|]. intros e. apply dwp_ret; [auto with slots|apply Hput].
  - auto with slots.
  - intros _ e. apply dwp_ret; [auto with slots|apply Hput].
  - auto with slots.
  - apply dwp_ret; [auto with slots|]. cbn [snd fmap option_fmap option_map].
  assert (∀ f, f ≠ pendingMarker →
  slots (put_file d2 x pendingMarker "0") x !! f = slots d2 x !! f) as Hf
  by (intros f ?; by apply put_file_other).
  split; cbn [active flip slots stores].
  + done.
  + apply (Hput "0").
  + apply (Hput "0").
  + rewrite Hf by done. apply Hst.
  + rewrite Hf by done. apply Hst.
  + eapply intact_payload; [|exact Hi]. intros f [Hf' _]. symmetry. by apply Hf.
  + apply put_file_same.
  + intros Hr. unfold confirmed. cbn [slots flip]. rewrite Hf by done. by apply Hst.
Qed.

Lemma removes_of_faultless : ¬ may_fail P → removes_ok P.
Proof.
  intros Hm p f Hf. destruct f; [done|..]; destruct Hm; by eapply may_fail_intro.
Qed.

Lemma pending_trial d : confirmed d (active d) = false → pending d (active d) = Some "0" →
  boot_decision d = BootTrial.
Proof. intros Hc Hp. unfold boot_decision. by rewrite Hc, Hp. Qed.

Lemma confirming_ok d d1 b v c :
  confirmed d (active d) = true → promoted d d1 b v c (removes_ok P) →
  dwp P confirming (held (active d) (stores d))
  (λ r d', held (active d) (stores d) d' ∧ match r with
   | Some _ => ¬ ¬ may_fail P ∧ (¬ commit_may_fail P → confirmed d' (active d') = true)
   | None => active d' = active d1 ∧ confirmed d' (active d') = true ∧
             ∀ f, payload f → slots d' (active d1) !! f = slots d1 (active d1) !! f
   end) d1.
Proof.
  intros Hc Hd1. set (y := active d). set (files := stores d).
  assert (held y files d1) as H1.
  { split; [|apply Hd1]. unfold confirmed, y in *. by rewrite (promoted_old _ _ _ _ _ _ Hd1). }
  assert (boot_decision d1 ≠ BootRolledBack) as Hnr.
  { unfold boot_decision. case_match; [done|].
  by rewrite (promoted_pending _ _ _ _ _ _ Hd1). }
  apply dwp_bind, (dwp_BootCheck P HP); [done|..].
  - (* the slot already looks confirmed *)
  intros E. apply dwp_ret; [done|]. split; [done|]. split.
  2: { intros _. unfold boot_decision in E. by repeat case_match. }
  intros Hm. rewrite pending_trial in E; [done| |apply Hd1].
  apply Hd1. by apply removes_of_faultless.
  - done.
  - intros p Hd Hp.
  assert (∀ c', held y files (put_file d1 (active d1) pendingMarker c')) as Hput.
  { intros c'. apply (held_mono _ _ d1); [apply confirmed_put_pending|done|done]. }
  split; [|split].
  + intros Hm e. pose proof (commit_fails _ Hm). split; [apply dwp_ret; [done|]; split; [done|naive_solver]|].
  intros c'. split; [done|]. apply dwp_ret; [done|]. split; [done|naive_solver].
  + apply Hput.
  + unfold not_trial. rewrite bool_decide_eq_false_2 by naive_solver. cbn match.
  set (d2 := spend d1 p). assert (held y files d2) as H2 by apply Hput.
  assert (∀ f, payload f → slots d2 (active d1) !! f = slots d1 (active d1) !! f) as Hpay.
  { intros f [? _]. by apply put_file_other. }
  apply dwp_bind, (dwp_SelfCheck P HP); [done|..].
  { intros e []. by apply (intact_spend d1), Hd1. }
  intros _. set (d3 := put_file d2 (active d2) confirmedMarker "").
  assert (held y files d3) as H3 by (unfold d3; auto with slots).
  apply dwp_bind, (dwp_Confirm P HP); fold d3; [done|..].
  * intros Hm e. pose proof (commit_fails _ Hm). apply dwp_ret; [done|]. split; [done|naive_solver].
  * done.
  * intros Hm e. apply dwp_ret; [done|]. split; [done|]. split; [|intros _; apply confirmed_put_confirmed].
    destruct Hm as [Hm|Hm]; [naive_solver|].
    destruct (pending_spend d1 p) as [? Hps]. unfold d2 in Hm. congruence.
  * intros _. split; [auto with slots|]. apply dwp_ret; [auto with slots|].
    split; [auto with slots|]. cbn [active del_file put_file]. split; [done|].
    change (active d2) with (active d1).
    split; [rewrite confirmed_del_pending; apply confirmed_put_confirmed|].
    intros f Hf. rewrite del_file_other by (by destruct Hf).
    rewrite <-Hpay by done. apply put_file_other. by destruct Hf.
Qed.
End flash.

(** ** The whole transaction *)

(** What must hold at every instant: some slot is confirmed. *)
Definition safe d : Prop := recoverable d ∧ tidy d.

(** What must hold between transactions: the running slot is confirmed. *)
Definition settled d : Prop := confirmed d (active d) = true ∧ tidy d.

Definition at_rest (st : State) : Prop := st = StateIdle ∨ st = StateFailed.

(** The two ways a transaction from [d] to [spec] ends; a failed one leaves the
    running slot as it was unless a call failed for an external reason. *)
Definition outcome (P : policy) (spec : DeviceSpec) d (st : State) d' : Prop :=
  match st with
  | StateIdle => installed d d' (DesiredFirmwareVersion spec) (ChecksumSHA256 spec)
  | StateFailed => ¬ may_fail P → active d' = active d ∧ slots d' (active d) = slots d (active d)
  | _ => False
  end.

(** If no marker write can fail, it leaves the running slot confirmed either way. *)
Definition finished (P : policy) (spec : DeviceSpec) d (st : State) d' : Prop :=
  safe d' ∧ outcome P spec d st d' ∧ (¬ commit_may_fail P → confirmed d' (active d') = true).

Lemma settled_safe d : settled d → safe d.
Proof. intros [Hc Ht]. split; [by exists (active d)|done]. Qed.

Lemma held_safe d y d' : tidy d → held y (stores d) d' → safe d'.
Proof. intros Ht Hh. split; [by eapply held_recoverable|by eapply held_tidy]. Qed.

Lemma settled_same d d' : settled d → same_running d d' → safe d'.
Proof. intros [Hc Ht] Hs. eapply held_safe; [done|by apply held_same]. Qed.

Lemma settled_put_store d name n : settled d → file_or_none n → settled (put_store d name n).
Proof. intros [Hc Ht] Hn. split; [done|by apply tidy_put_store]. Qed.

Lemma safe_put_store d name : safe d → safe (put_store d name None).
Proof. intros [Hr Ht]. split; [done|]. apply tidy_put_store; [done|by left]. Qed.

Lemma finished_failed P spec d d' :
  safe d' → (¬ may_fail P → active d' = active d ∧ slots d' (active d) = slots d (active d)) →
  (¬ commit_may_fail P → confirmed d' (active d') = true) →
  finished P spec d StateFailed d'.
Proof. by split. Qed.

Lemma finished_same P spec d d' :
  safe d' → confirmed d (active d) = true →
  active d' = active d → slots d' (active d) = slots d (active d) →
  finished P spec d StateFailed d'.
Proof.
  intros Hs Hc Ha Hsl. apply finished_failed; [done|done|]. intros _.
  unfold confirmed in *. by rewrite Ha, Hsl.
Qed.

Lemma staging_is_store sum : is_store (staging_name sum).
Proof.
  unfold is_store, staging_name. intros H.
  repeat (apply elem_of_cons in H as [H|H]; [discriminate H|]). by apply elem_of_nil in H.
Qed.

#[export] Hint Resolve settled_safe settled_put_store staging_is_store safe_put_store : slots.

Section transaction.
Context (a : agent) (env : dl_env).
Context (HP : ∀ o f, is_read o = true → faults env o f → f = NoFault).
Let P := faults env.

Lemma jwp_report mutate J (R : unit → State → device → Prop) st d :
  (∀ st gen, calls_only quiet (mutate st gen)) → J d → R tt st d →
  jwp env (reportStatus a mutate) J R st d.
Proof. intros Hm HJ HR. apply jwp_quiet; [by apply reportStatus_calls|done|by intros []]. Qed.

Lemma jwp_fail spec reason msg J (R : unit → State → device → Prop) st d :
  StateFailed ∈ allowed_from st → J d → R tt StateFailed d →
  jwp env (fail a spec reason msg) J R st d.
Proof.
  intros Hst HJ HR. apply jwp_bind, jwp_To; [done|done|].
  apply jwp_quiet; [|done|by intros []].
  do 3 (apply calls_only_bind; [done|intros ?]). by apply reportStatus_calls.
Qed.

(** From [Confirming] to the end. *)
Lemma jwp_finish spec d d1 b :
  settled d → promoted d d1 b (DesiredFirmwareVersion spec) (ChecksumSHA256 spec) (removes_ok P) →
  sha256hex b = ChecksumSHA256 spec →
  jwp env
  (guard onfs confirming catch err => fail a spec err.1 err.2 ;;
   do onfs (fcall (Remove [staging_name (ChecksumSHA256 spec)])) ;;
   guard mem (FsmTo StateIdle) catch err => Ret tt ;;
   slot <- onfs Active ;;
   reportStatus a (mark_upgraded (DesiredFirmwareVersion spec) (slot_or_empty slot)))
  safe (λ _, finished P spec d) StateConfirming d1.
Proof.
  intros [Hc Ht] Hd1 Hsum. apply jwp_bind. eapply (jwp_fs env).
  { eapply dwp_mono; [by eapply (confirming_ok P HP d d1)| |done].
  intros d' Hd'. by eapply held_safe. }
  intros [[reason msg]|] d2 [Hh Hr].
  { apply jwp_fail; [set_solver|by eapply held_safe|]. destruct Hr as [Hr1 Hr2].
  apply finished_failed; [by eapply held_safe| |done]. intros Hm. by destruct Hr1. }
  destruct Hr as (Ha & Hcf & Hpay). assert (safe d2) as H2 by by eapply held_safe.
  assert (installed d d2 (DesiredFirmwareVersion spec) (ChecksumSHA256 spec)) as Hin.
  { split; [rewrite Ha; apply Hd1|done|..]; rewrite Ha.
  - rewrite Hpay by done. apply Hd1.
  - exists b. rewrite Hpay by done. split; [apply Hd1|done]. }
  assert (∀ d3, safe d3 → installed d d3 (DesiredFirmwareVersion spec) (ChecksumSHA256 spec) →
  jwp env (guard mem (FsmTo StateIdle) catch err => Ret tt ;;
         slot <- onfs Active ;;
         reportStatus a (mark_upgraded (DesiredFirmwareVersion spec) (slot_or_empty slot)))
  safe (λ _, finished P spec d) StateConfirming d3) as Hend.
  { intros d3 H3 Hi3. apply jwp_bind, jwp_To; [set_solver|done|].
  apply jwp_bind. eapply (jwp_fs env).
  { apply (dwp_Active P HP) with (R := λ _ d', d' = d3); done. }
  intros slot d' ->. apply jwp_report; [done|done|]. split; [done|]. split; [done|]. intros _. apply Hi3. }
  apply jwp_bind. eapply (jwp_fs env) with (R := λ _ d', safe d' ∧
  installed d d' (DesiredFirmwareVersion spec) (ChecksumSHA256 spec)).
  { apply (dwp_remove_store env); [done|auto with slots|apply H2|done|].
  intros _. split; [auto with slots|]. split; [auto with slots|]. by destruct Hin. }
  intros _ d' [? ?]. by apply Hend.
Qed.

(** From [Verifying] to the end, on what was downloaded. *)
Lemma jwp_verified spec d :
  settled d →
  jwp env
  (guard onfs (VerifySHA256 [staging_name (ChecksumSHA256 spec)] (ChecksumSHA256 spec))
   catch err => (do onfs (fcall (Remove [staging_name (ChecksumSHA256 spec)])) ;;
                 fail a spec "ChecksumMismatch" (Error err)) ;;
   guard mem (FsmTo StateFlashing) catch err => Ret tt ;;
   guard onfs (flashing [staging_name (ChecksumSHA256 spec)] spec)
   catch err => fail a spec err.1 err.2 ;;
   guard mem (FsmTo StateConfirming) catch err => Ret tt ;;
   guard onfs confirming catch err => fail a spec err.1 err.2 ;;
   do onfs (fcall (Remove [staging_name (ChecksumSHA256 spec)])) ;;
   guard mem (FsmTo StateIdle) catch err => Ret tt ;;
   slot <- onfs Active ;;
   reportStatus a (mark_upgraded (DesiredFirmwareVersion spec) (slot_or_empty slot)))
  safe (λ _, finished P spec d) StateVerifying d.
Proof.
  intros Hd. pose proof Hd as [Hc Ht]. set (name := staging_name _).
  assert (is_store name) as Hn by apply staging_is_store.
  apply jwp_bind. eapply (jwp_fs env) with (R := λ r d', d' = d ∧
  (r = None → ∃ b, stores d name = Some (File b) ∧ sha256hex b = ChecksumSHA256 spec)).
  { apply (dwp_verify_store env HP); [auto with slots|done..|by intros|by eauto]. }
  intros [err|] d' [-> Hb].
  { apply jwp_bind. eapply (jwp_fs env) with (R := λ _ d', safe d' ∧
  active d' = active d ∧ slots d' = slots d).
  { apply (dwp_remove_store env); [auto with slots|done|done|auto with slots|auto 6 with slots]. }
  intros _ d' (? & Ha & Hsl). apply jwp_fail; [set_solver|done|].
  apply finished_same; [done..|]. by rewrite Hsl. }
  destruct (Hb eq_refl) as (b & Hst & Hsum).
  apply jwp_bind, jwp_To; [set_solver|auto with slots|].
  apply jwp_bind. eapply (jwp_fs env).
  { eapply dwp_mono; [by apply (flashing_ok P HP d name b)| |done].
  intros d' Hd'. by eapply held_safe. }
  intros [[reason msg]|] d1 Hr.
  { assert (safe d1) by by eapply settled_same. apply jwp_fail; [set_solver|done|].
  apply finished_same; [done|done|apply Hr..]. }
  apply jwp_bind, jwp_To; [set_solver| |by eapply jwp_finish].
  eapply held_safe; [done|]. split; [|apply Hr].
  unfold confirmed in *. by rewrite (promoted_old _ _ _ _ _ _ Hr).
Qed.

Lemma jwp_runUpgrade spec gen st d :
  settled d → at_rest st →
  jwp env (runUpgrade a spec gen) safe (λ _, finished P spec d) st d.
Proof.
  intros Hd Hst. apply jwp_bind, jwp_report; [done|auto with slots|].
  apply jwp_bind, jwp_To; [destruct Hst as [-> | ->]; set_solver|auto with slots|].
  destruct (_ <? 12)%nat.
  { intros s Hs. split; [exists d; auto with slots|]. by intros []. }
  set (name := staging_name _).
  apply jwp_bind, (jwp_download env _ name); [apply retries_touches|apply staging_is_store|apply Hd|..].
  { intros n Hn. auto with slots. }
  intros [err|] n Hn; assert (settled (put_store d name n)) as Hd' by auto with slots.
  { apply jwp_fail; [set_solver|auto with slots|]. apply finished_same; [auto with slots|apply Hd|done..]. }
  apply jwp_bind, jwp_To; [set_solver|auto with slots|].
  eapply jwp_mono; [by apply jwp_verified|]. intros _ st' d' (? & Ho & ?). split; [done|]. split; [|done].
  destruct st'; try done. by destruct Ho.
Qed.
End transaction.

(** ** Execution of one goroutine *)

(** A server that has the three bytes "abc", and an API server out of reach. *)
Definition abc_response : response := Response 200 "200 OK" "abc" None.
Definition abc_env : dl_env :=
  Build_dl_env fault_free (λ _ _ r, r = Ok abc_response) (λ _, true) False.

Definition offline : goerr := Errorf "connection refused".

Definition job_run (o : act agS) (w : State * fs) : option (res o * (State * fs)) :=
  match o return option (agres o * (State * fs)) with
  | ADl (DFs o) => let (r, s) := fs_exec NoFault o w.2 in Some (r, (w.1, s))
  | ADl (NewRequest _) => Some (None, w)
  | ADl (HttpDo _ _) => Some (Ok abc_response, w)
  | ADl (RandN n) => if 0 <? n then Some (0, w) else None
  | ADl (After _) => Some (None, w)
  | ADl (Panic _) => None
  | AKube (KNewRequest _ _) => Some (Some offline, w)
  | AKube (KDo _) => Some (Err offline, w)
  | AKube KNow => Some ("2026-01-01T00:00:00Z", w)
  | AMem (FsmTo next) =>
      let '(e, f, _) := To (@mkFSM unit w.1 None) next tt in Some (e, (state f, w.2))
  | AMem ReadUpgrading => Some (false, w)
  | AMem ReadFailedKey => Some ("", w)
  | AMem LoadGen => Some (1, w)
  | AMem _ => Some (tt, w)
  | Go _ _ => Some (tt, w)
  | CtxDone | Tick => Some (false, w)
  end.

Lemma job_run_handles : handles (Sem0 := job_sem abc_env) job_run.
Proof.
  intros o [st s] r [st' s'] H. destruct o as [[]|[]|[]| | |]; cbn in H |- *; simplify_eq;
    try done.
  - destruct (fs_exec NoFault o s) eqn:E. simplify_eq. split; [|done]. by exists NoFault.
  - destruct (0 <? n) eqn:E; simplify_eq. split; [|done]. split; [|done]. lia.
  - unfold job_sem. cbn. unfold To in *. destruct (To_loop _ _ _ _) as [[e f] l]. by simplify_eq.
Qed.

Definition abc_spec : DeviceSpec := mkDeviceSpec "2.0.0" "http://fw/abc.bin" abc_sum "" ∅ false.
Definition demo_agent : agent :=
  mkAgent (mkConfig (3 * Second) (5 * Second) defaults) demo_client.

Lemma factory_settled : settled factory.
Proof. split; [done|]. intros name _. by left. Qed.

(** ** Properties *)

(** C2. An upgrade cannot brick the device.  Start [runUpgrade] on a device whose
    running slot is confirmed, with the state machine at rest.  Whatever writes
    fail, whatever the firmware server and the API server answer, and at every
    instant (so wherever power is lost), some slot is confirmed.  When it returns,
    the machine is back at rest: [Idle], and the new slot runs, confirmed, with the
    wanted version and an image of the wanted digest; or [Failed], and, unless a
    system call failed, the old slot still runs, untouched. *)
Theorem upgrade_never_bricks a env spec gen st s d p' st' s' :
  (∀ o f, is_read o = true → faults env o f → f = NoFault) →
  rep s d → confirmed d (active d) = true → tidy d → at_rest st →
  rtc (pstep (Sem0 := job_sem env)) (runUpgrade a spec gen, (st, s)) (p', (st', s')) →
  ∃ d', rep s' d' ∧ recoverable d' ∧ (p' = Ret tt → outcome (faults env) spec d st' d').
Proof.
  intros HP Hs Hc Ht Hst Hsteps.
  pose proof (jwp_runUpgrade a env HP spec gen st d (conj Hc Ht) Hst s Hs) as H.
  destruct p' as [[]|o k].
  - destruct (wpi_result _ _ _ _ _ _ H Hsteps) as (d' & Hr & [Hrec _] & Ho & _). by exists d'.
  - destruct (wpi_reachable _ _ _ _ _ _ H Hsteps) as (d' & Hr & Hrec & _). by exists d'.
Qed.

(** The directory after the upgrade of the shipped device to "2.0.0". *)
Definition upgraded_fs : fs :=
  match run job_run (runUpgrade demo_agent abc_spec 1) (StateIdle, factory_fs) with
  | Some (_, (_, s)) => s
  | None => ∅
  end.

Lemma demo_upgrade :
  run job_run (runUpgrade demo_agent abc_spec 1) (StateIdle, factory_fs)
  = Some (tt, (StateIdle, upgraded_fs)).
Proof. apply (bool_decide_unpack _). vm_compute. exact I. Qed.

Lemma upgrade_never_bricks_witness :
  upgraded_fs !! ["current"] = Some (Link "slotB") ∧
  ∃ d', rep upgraded_fs d' ∧ recoverable d' ∧
    (@Ret agS unit tt = Ret tt → outcome fault_free abc_spec factory StateIdle d').
Proof.
  split; [vm_compute; reflexivity|].
  apply (upgrade_never_bricks demo_agent abc_env abc_spec 1 StateIdle factory_fs factory).
  - done.
  - apply factory_rep.
  - done.
  - apply factory_settled.
  - by left.
  - apply (run_steps job_run _ _ _ _ job_run_handles demo_upgrade).
Defined.
