(* ===== verification/Completion.v ===== *)
(** * Upgrades complete

    The other half of [Upgrade]: a transaction that may always fail would be as safe.
    With a server that has the image and no failing system calls, [runUpgrade] ends in
    the new firmware, whatever the API server does. *)

From S2P Require Import Prelude GoLib Fsm Sha256 Os Download Slot SlotLogic SlotSpec Boot Kube Kubeconfig Agent AgentLogic Upgrade.
From Stdlib Require Import Ascii.
Open Scope Z_scope.

Implicit Types (s : fs) (d : device).

(** ** Digests *)

Lemma length_compress st b : length st = 8%nat → length (compress st b) = 8%nat.
Proof.
  intros Hst. unfold compress.
  assert (∀ ks st', length st' = 8%nat → length (foldl round st' ks) = 8%nat) as Hr.
  { induction ks as [|k ks IH]; intros st' H; [done|]. apply IH.
    by do 9 (destruct st' as [|? st']; [try done|]). }
  rewrite length_zip_with, Hr by done. lia.
Qed.

Lemma length_blocks n st ws : length st = 8%nat → length (blocks n st ws) = 8%nat.
Proof.
  revert st ws. induction n as [|n IH]; intros st ws Hst; [done|]. cbn [blocks].
  destruct ws; [done|]. by apply IH, length_compress.
Qed.

Lemma length_sha256 m : length (sha256_bytes m) = 32%nat.
Proof.
  unfold sha256_bytes. cbn zeta.
  assert (length (blocks (length (words (length (pad m)) (pad m))) H0 (words (length (pad m)) (pad m))) = 8%nat)
    as E by by apply length_blocks.
  revert E. generalize (blocks (length (words (length (pad m)) (pad m))) H0 (words (length (pad m)) (pad m))).
  intros l. by do 9 (destruct l as [|? l]; [try done|]).
Qed.

Lemma length_hex (s : string) : String.length (hex_encode s) = (2 * String.length s)%nat.
Proof. induction s as [|a s IH]; [done|]. cbn [hex_encode String.length]. rewrite IH. lia. Qed.

Lemma length_string_of l : String.length (String.string_of_list_ascii l) = length l.
Proof. induction l as [|a l IH]; [done|]. cbn. by rewrite IH. Qed.

Lemma length_sha256hex (s : string) : String.length (sha256hex s) = 64%nat.
Proof.
  unfold sha256hex. rewrite length_hex. unfold sha256.
  by rewrite length_string_of, length_map, length_sha256.
Qed.

Lemma printable_hex (s : string) : all_printable (hex_encode s) = true.
Proof.
  induction s as [|a s IH]; [done|]. cbn [hex_encode all_printable]. rewrite IH.
  by destruct a as [[] [] [] [] [] [] [] []].
Qed.

Lemma TrimSpace_digest (s : string) : TrimSpace (sha256hex s) = sha256hex s.
Proof.
  apply TrimSpace_value; [|apply printable_hex]. intros E.
  pose proof (length_sha256hex s) as Hl. by rewrite E in Hl.
Qed.

(** ** The slot operations, when no call fails *)

Lemma dwp_and {A} P (p : prog fsS A) J (R : A → device → Prop) (Q : A → Prop) d :
  dwp P p J R d → dwp P p (λ _, True) (λ a _, Q a) d → dwp P p J (λ a d', R a d' ∧ Q a) d.
Proof.
  intros H1 H2 s Hs. eapply wpi_mono; [apply wpi_conj; [by apply H1|by apply H2]|by intros ? []|].
  intros a s' _ [(d' & Hd' & HR) (_ & _ & HQ)]. by exists d'.
Qed.

Section flash.
Context (P : policy) (HP : ∀ o f, is_read o = true → P o f → f = NoFault) (Hm : ¬ may_fail P).

Lemma flashing_succeeds d name b spec :
  is_store name → stores d name = Some (File b) → sha256hex b = ChecksumSHA256 spec →
  dwp P (flashing [name] spec) (λ _, True) (λ r _, r = None) d.
Proof.
  intros Hn Hb Hsum.
  apply dwp_bind. eapply (dwp_Stage P d name (Some b)); [done|done|done|naive_solver|].
  intros d2 data [= <-] Hst.
  apply dwp_bind, (dwp_VerifyStaged P HP); [done|..].
  - intros e []. exists b, (ChecksumSHA256 spec). rewrite (same_active _ _ (staged_same _ _ _ _ _ _ Hst)).
    split_and!; [apply Hst|apply Hst|]. by rewrite <-Hsum, TrimSpace_digest.
  - intros _. apply dwp_bind, (dwp_PromoteStaged P HP); try naive_solver.
    by apply dwp_ret.
Qed.
End flash.

(** ** The transaction *)

(** The staging file is absent or holds the beginning of the image. *)
Definition leftover (d : device) (name img : string) : Prop :=
  stores d name = None ∨ ∃ b, stores d name = Some (File b) ∧ is_prefix b img.

Section transaction.
Context (a : agent) (env : dl_env) (spec : DeviceSpec) (img : string).
Let opts := withDefaults (CfgDownload (cfg a)).
Let name := staging_name (ChecksumSHA256 spec).
Context (Hff : faults env = fault_free) (Hctx : ¬ cancel env).
Context (Hurl : valid_url env (FirmwareURL spec) = true).
Context (Hhonest : honest env (FirmwareURL spec) img) (Hprompt : prompt env (FirmwareURL spec)).
Context (Hsum : sha256hex img = ChecksumSHA256 spec) (Hattempts : 2 ≤ MaxAttempts opts).

Lemma reads_faultless o f : is_read o = true → faults env o f → f = NoFault.
Proof. rewrite Hff. by intros _ ->. Qed.

Lemma faultless : ¬ may_fail (faults env).
Proof. rewrite Hff. apply fault_free_sure. Qed.

Definition anyhow (d : device) : Prop := True.

(** The transaction from [d] ended as it should. *)
Definition done_from d (u : unit) (st : State) d' : Prop :=
  st = StateIdle ∧ installed d d' (DesiredFirmwareVersion spec) (ChecksumSHA256 spec) ∧
  slots d' (active d') !! firmwareFile = Some img.

Lemma jwp_downloads st d (Q : option goerr → State → device → Prop) :
  tidy d → leftover d name img → Q None st (put_store d name (Some (File img))) →
  jwp env (ondl (DownloadWithResume (FirmwareURL spec) [name] (CfgDownload (cfg a)))) anyhow Q st d.
Proof.
  intros Ht Hleft HQ s Hs. pose proof (staging_is_store (ChecksumSHA256 spec)) as Hn. fold name in Hn.
  assert (plain s name) as Hp by by eapply tidy_plain.
  assert (resumable img name s s) as Hr.
  { split_and!; [done| |done]. unfold data_at. rewrite (rep_stores _ _ Hs) by done.
    destruct Hleft as [->|(b & -> & Hb)]; [apply is_prefix_nil|done]. }
  pose proof (jwp_download env (DownloadWithResume (FirmwareURL spec) [name] (CfgDownload (cfg a)))
    name anyhow (λ _ st' d', st' = st ∧ ∃ n, d' = put_store d name n) st d) as H1.
  specialize (H1 (retries_touches _ _ _ _ _ _) Hn Ht (λ _ _, I)). specialize (H1 (λ _ n _, conj eq_refl (ex_intro _ n eq_refl)) s Hs).
  assert (wpi (Sem0 := dl_sem env) (DownloadWithResume (FirmwareURL spec) [name] (CfgDownload (cfg a)))
    (λ _, True) (λ r s', r = None ∧ s' !! [name] = Some (File img)) s) as H2.
  { eapply wpi_mono; [apply wpi_conj;
      [by apply (retries_ok env (FirmwareURL spec) img name Hhonest)|]|done|].
    - unfold DownloadWithResume. fold opts. destruct (Z.to_nat (MaxAttempts _)) as [|[|n]] eqn:En; [lia..|].
      by apply (retries_complete env (FirmwareURL spec) name Hff Hurl Hprompt Hctx).
    - intros r s' _ [Hf ->]. split; [done|]. by apply Hf. }
  set (got := λ (r : option goerr) s', r = None ∧ s' !! [name] = Some (File img)) in H2.
  assert (wpi (Sem0 := job_sem env)
    (ondl (DownloadWithResume (FirmwareURL spec) [name] (CfgDownload (cfg a))))
    (λ w, frame (st, s) w ∧ True) (λ r w, frame (st, s) w ∧ got r w.2) (st, s)) as H3.
  { exact (wpi_ondl env _ (λ _, True) got st s H2). }
  eapply wpi_mono; [apply wpi_conj; [exact H1|exact H3]|by intros w [? _]|].
  intros r w' _ [(d' & Hd' & Hst & n & ->) (_ & -> & Himg)].
  exists (put_store d name n). split; [done|]. rewrite Hst.
  rewrite (rep_stores _ _ Hd') in Himg by done. cbn in Himg. rewrite fn_lookup_insert in Himg.
  by rewrite Himg.
Qed.

Lemma verify_image d :
  tidy d → stores d name = Some (File img) →
  dwp (faults env) (VerifySHA256 [name] (ChecksumSHA256 spec)) anyhow (λ r d', d' = d ∧ r = None) d.
Proof.
  intros Ht Hd s Hs. pose proof (staging_is_store (ChecksumSHA256 spec)) as Hn.
  eapply wpi_mono with (I1 := λ s', s' = s).
  - apply (VerifySHA256_ok (faults env) s [name] _ (Some img)); [apply reads_faultless| |done].
    by rewrite (rep_stores _ _ Hs), Hd.
  - intros s' ->. by exists d.
  - intros r s' _ [-> ->]. exists d. split_and!; [done|done|]. cbn. by rewrite decide_True.
Qed.

(** [runUpgrade] from its first move to its last report: the slot that report names,
    unless the transaction was given up. *)
Definition transaction : prog agS (option string) :=
  guard mem (FsmTo StateDownloading) catch err => Ret None ;;
  if (String.length (ChecksumSHA256 spec) <? 12)%nat then
  do ondl (trigger (Panic "slice bounds out of range" : act dlS)) ;; Ret None else
  guard ondl (DownloadWithResume (FirmwareURL spec) [name] (CfgDownload (cfg a)))
  catch err => (do fail a spec "DownloadFailed" (Error err) ;; Ret None) ;;
  guard mem (FsmTo StateVerifying) catch err => Ret None ;;
  guard onfs (VerifySHA256 [name] (ChecksumSHA256 spec))
  catch err => (do onfs (fcall (Remove [name])) ;;
                do fail a spec "ChecksumMismatch" (Error err) ;; Ret None) ;;
  guard mem (FsmTo StateFlashing) catch err => Ret None ;;
  guard onfs (flashing [name] spec) catch err => (do fail a spec err.1 err.2 ;; Ret None) ;;
  guard mem (FsmTo StateConfirming) catch err => Ret None ;;
  guard onfs confirming catch err => (do fail a spec err.1 err.2 ;; Ret None) ;;
  do onfs (fcall (Remove [name])) ;;
  guard mem (FsmTo StateIdle) catch err => Ret None ;;
  slot <- onfs Active ;;
  Ret (Some (slot_or_empty slot)).

Definition conclude (slot : option string) : prog agS unit :=
  match slot with
  | Some slot => reportStatus a (mark_upgraded (DesiredFirmwareVersion spec) slot)
  | None => Ret tt
  end.

(** In any world, [runUpgrade] is the two reports around the transaction. *)
Lemma wpi_runUpgrade {W} `{!Sem agS W} gen I (Q : unit → W → Prop) w :
  wpi (reportStatus a (mark_started (DesiredFirmwareVersion spec))) I
    (λ _ w1, wpi transaction I (λ slot w2, wpi (conclude slot) I Q w2) w1) w →
  wpi (runUpgrade a spec gen) I Q w.
Proof.
  assert (∀ w, wpi (conclude None) I Q w → Q tt w) as Hq by by intros ? [].
  assert (∀ w, wpi (S := agS) (Ret None) I (λ slot w2, wpi (conclude slot) I Q w2) w →
    wpi (S := agS) (Ret tt) I Q w) as Hn by by intros ? [].
  intros H. apply wpi_bind. eapply wpi_mono; [exact H|by auto|]. intros [] w1 _. clear H.
  unfold transaction. apply wpi_swap. intros [e|] w2; [apply Hn|].
  destruct (_ <? 12)%nat; [apply wpi_swap; by intros []|].
  apply wpi_swap. intros [e|] w3; [apply wpi_drop; intros []; apply Hq|].
  apply wpi_swap. intros [e|] w4; [apply Hn|].
  apply wpi_swap. intros [e|] w5; [apply wpi_swap; intros _ w6; apply wpi_drop; intros []; apply Hq|].
  apply wpi_swap. intros [e|] w6; [apply Hn|].
  apply wpi_swap. intros [e|] w7; [apply wpi_drop; intros []; apply Hq|].
  apply wpi_swap. intros [e|] w8; [apply Hn|].
  apply wpi_swap. intros [e|] w9; [apply wpi_drop; intros []; apply Hq|].
  apply wpi_swap. intros _ w10. apply wpi_swap. intros [e|] w11; [apply Hn|].
  apply wpi_swap. intros slot w12. by intros [_ ?].
Qed.

(** The transaction succeeded, and found its slot. *)
Definition found d (slot : option string) (st : State) d' : Prop :=
  slot = Some (slot_name (active d')) ∧ done_from d tt st d'.

(** After [Confirm]: clean up, return to [Idle], look where we are. *)
Lemma jwp_wrap_up d d' :
  tidy d' → installed d d' (DesiredFirmwareVersion spec) (ChecksumSHA256 spec) →
  slots d' (active d') !! firmwareFile = Some img →
  jwp env
    (do onfs (fcall (Remove [name])) ;;
     guard mem (FsmTo StateIdle) catch err => Ret None ;;
     slot <- onfs Active ;;
     Ret (Some (slot_or_empty slot)))
    anyhow (found d) StateConfirming d'.
Proof.
  intros Ht Hin Himg. apply jwp_bind. eapply (jwp_fs env) with (R := λ _ d2,
    installed d d2 (DesiredFirmwareVersion spec) (ChecksumSHA256 spec) ∧
    slots d2 (active d2) !! firmwareFile = Some img).
  { apply (dwp_remove_store env); [done|apply staging_is_store|done|by split|].
    intros _. split; [done|]. split; [by destruct Hin|done]. }
  intros _ d2 [Hin2 Himg2]. apply jwp_bind, jwp_To; [set_solver|done|].
  apply jwp_bind. eapply (jwp_fs env).
  { apply (dwp_Active (faults env) reads_faultless) with
      (R := λ r d3, d3 = d2 ∧ r = Ok (slot_name (active d2))); done. }
  intros slot d3 [-> ->]. by apply jwp_ret.
Qed.

(** From the verified image on. *)
Lemma jwp_flashes d :
  settled d → stores d name = Some (File img) →
  jwp env
    (guard onfs (flashing [name] spec) catch err => (do fail a spec err.1 err.2 ;; Ret None) ;;
     guard mem (FsmTo StateConfirming) catch err => Ret None ;;
     guard onfs confirming catch err => (do fail a spec err.1 err.2 ;; Ret None) ;;
     do onfs (fcall (Remove [name])) ;;
     guard mem (FsmTo StateIdle) catch err => Ret None ;;
     slot <- onfs Active ;;
     Ret (Some (slot_or_empty slot)))
    anyhow (found d) StateFlashing d.
Proof.
  intros [Hc Ht] Hst. pose proof (staging_is_store (ChecksumSHA256 spec)) as Hn.
  apply jwp_bind. eapply (jwp_fs env).
  { eapply dwp_mono; [apply dwp_and; [by apply (flashing_ok _ reads_faultless d name img)|]|done|done].
    by apply (flashing_succeeds _ reads_faultless faultless d name img). }
  intros r d1 [Hr ->]. apply jwp_bind, jwp_To; [set_solver|done|].
  apply jwp_bind. eapply (jwp_fs env).
  { eapply dwp_mono; [by eapply (confirming_ok _ reads_faultless d d1)|done|done]. }
  intros [r|] d2 [Hh Hd2]; [by destruct Hd2 as [[] _]; apply faultless|]. destruct Hd2 as (Ha & Hcf & Hpay).
  assert (slots d2 (active d2) !! firmwareFile = Some img) as Himg.
  { rewrite Ha, Hpay by done. apply Hr. }
  apply jwp_wrap_up; [by eapply held_tidy| |done]. split; [rewrite Ha; apply Hr|done| |by exists img].
  rewrite Ha, Hpay by done. apply Hr.
Qed.

Lemma jwp_transaction st d :
  settled d → at_rest st → leftover d name img → jwp env transaction anyhow (found d) st d.
Proof.
  intros Hd Hst Hleft. apply jwp_bind, jwp_To; [destruct Hst as [-> | ->]; set_solver|done|].
  assert ((String.length (ChecksumSHA256 spec) <? 12)%nat = false) as ->
    by by rewrite <-Hsum, length_sha256hex.
  apply jwp_bind, jwp_downloads; [apply Hd|done|].
  set (d1 := put_store d name (Some (File img))).
  assert (settled d1) as Hd1 by (apply settled_put_store; [done|right; by exists img]).
  assert (stores d1 name = Some (File img)) as Hst1 by (cbn; by rewrite fn_lookup_insert).
  apply jwp_bind, jwp_To; [set_solver|done|].
  apply jwp_bind. eapply (jwp_fs env); [apply verify_image; [apply Hd1|done]|].
  intros r d2 [-> ->]. apply jwp_bind, jwp_To; [set_solver|done|].
  eapply jwp_mono; [by apply jwp_flashes|]. intros u st' d' (-> & -> & Hin & Himg).
  split; [done|]. split_and!; [done| |done]. by destruct Hin.
Qed.

Lemma jwp_completes gen st d :
  settled d → at_rest st → leftover d name img →
  jwp env (runUpgrade a spec gen) anyhow (done_from d) st d.
Proof.
  intros Hd Hst Hleft s Hs. apply wpi_runUpgrade.
  assert (jwp env (reportStatus a (mark_started (DesiredFirmwareVersion spec))) anyhow
    (λ _ st' d', st' = st ∧ d' = d) st d) as Hfirst by by apply jwp_report.
  eapply wpi_mono; [by apply Hfirst|done|]. intros [] [st' s'] _ (d' & Hs' & E & ->).
  cbn in E, Hs'. subst st'.
  eapply wpi_mono; [by apply (jwp_transaction st d)|done|].
  intros slot [st2 s2] _ (d2 & Hs2 & -> & Hdone). by eapply jwp_report.
Qed.
End transaction.

(** ** No panic *)

Definition calm (o : act agS) : Prop :=
  match o with ADl (Panic _) => False | ADl (RandN n) => 0 < n | _ => True end.

Lemma calm_fs {A} (p : prog fsS A) : calls_only calm (onfs p).
Proof. apply calls_only_lift. induction p as [x|o k IH]; [done|]. by split. Qed.

Lemma calm_report a mutate :
  (∀ st gen, calls_only calm (mutate st gen)) → calls_only calm (reportStatus a mutate).
Proof. apply reportStatus_calls; done. Qed.

Lemma calm_fail a spec reason msg : calls_only calm (fail a spec reason msg).
Proof. do 4 (apply calls_only_bind; [done|intros ?]). by apply calm_report. Qed.

Lemma calm_download url dest opts :
  sane (withDefaults opts) → calls_only calm (ondl (DownloadWithResume url dest opts)).
Proof.
  intros Hs. apply calls_only_lift. eapply calls_only_mono; [|by apply download_orderly].
  intros []; cbn; try done. by intros [? _].
Qed.

Lemma calm_upgrade a spec gen :
  (12 ≤ String.length (ChecksumSHA256 spec))%nat → sane (withDefaults (CfgDownload (cfg a))) →
  calls_only calm (runUpgrade a spec gen).
Proof.
  intros Hl Hs. apply calls_only_bind; [by apply calm_report|intros _].
  apply calls_only_bind; [done|]. intros [e|]; [done|].
  assert ((String.length (ChecksumSHA256 spec) <? 12)%nat = false) as -> by (apply Nat.ltb_ge; lia).
  apply calls_only_bind; [by apply calm_download|]. intros [e|]; [apply calm_fail|].
  apply calls_only_bind; [done|]. intros [e|]; [done|].
  apply calls_only_bind; [apply calm_fs|]. intros [e|].
  { apply calls_only_bind; [apply calm_fs|]. intros _. apply calm_fail. }
  apply calls_only_bind; [done|]. intros [e|]; [done|].
  apply calls_only_bind; [apply calm_fs|]. intros [e|]; [apply calm_fail|].
  apply calls_only_bind; [done|]. intros [e|]; [done|].
  apply calls_only_bind; [apply calm_fs|]. intros [e|]; [apply calm_fail|].
  apply calls_only_bind; [apply calm_fs|]. intros _.
  apply calls_only_bind; [done|]. intros [e|]; [done|].
  apply calls_only_bind; [apply calm_fs|]. intros slot. by apply calm_report.
Qed.

(** C3. Upgrades complete.  Take a device whose running slot is confirmed, with its
    state machine at rest and nothing but a beginning of the image left over from
    earlier downloads, and a server that serves the image of the wanted digest and
    answers; no system call fails and the context does not end.  However often the
    transfer has to be taken up again, whatever the API server answers or fails to,
    no run of [runUpgrade] panics, and every run that ends leaves the machine in
    [Idle] and the device in the other slot, confirmed, at the wanted version, with
    exactly that image. *)
Theorem upgrade_completes a env spec gen img st s d p' st' s' :
  let opts := withDefaults (CfgDownload (cfg a)) in
  faults env = fault_free → ¬ cancel env → valid_url env (FirmwareURL spec) = true →
  honest env (FirmwareURL spec) img → prompt env (FirmwareURL spec) →
  sha256hex img = ChecksumSHA256 spec → 2 ≤ MaxAttempts opts → sane opts →
  rep s d → confirmed d (active d) = true → tidy d → at_rest st →
  leftover d (staging_name (ChecksumSHA256 spec)) img →
  rtc (pstep (Sem0 := job_sem env)) (runUpgrade a spec gen, (st, s)) (p', (st', s')) →
  (∀ msg k, p' ≠ Act (ADl (Panic msg) : act agS) k) ∧
  (p' = Ret tt → st' = StateIdle ∧ ∃ d', rep s' d' ∧
     installed d d' (DesiredFirmwareVersion spec) (ChecksumSHA256 spec) ∧
     slots d' (active d') !! firmwareFile = Some img).
Proof.
  intros opts Hff Hctx Hurl Hh Hp Hsum Hn Hsane Hs Hc Ht Hst Hleft Hsteps. split.
  - intros msg k ->. apply (calls_only_steps calm) in Hsteps; [by destruct Hsteps|].
    apply calm_upgrade; [|done]. rewrite <-Hsum, length_sha256hex. lia.
  - intros ->. pose proof (jwp_completes a env spec img Hff Hctx Hurl Hh Hp Hsum Hn gen st d
      (conj Hc Ht) Hst Hleft s Hs) as H.
    destruct (wpi_result _ _ _ _ _ _ H Hsteps) as (d' & Hr & Hi & Hin & Himg).
    split; [exact Hi|]. by exists d'.
Qed.

Lemma upgrade_completes_witness :
  run job_run (runUpgrade demo_agent abc_spec 1) (StateIdle, factory_fs)
    = Some (tt, (StateIdle, upgraded_fs)) ∧
  ∃ d', rep upgraded_fs d' ∧ installed factory d' "2.0.0" abc_sum ∧
    slots d' (active d') !! firmwareFile = Some "abc".
Proof.
  split; [exact demo_upgrade|].
  apply (upgrade_completes demo_agent abc_env abc_spec 1 "abc" StateIdle factory_fs factory
    (Ret tt) StateIdle upgraded_fs); try done.
  - by intros [].
  - split.
    + intros r resp [= ->] _. split; [apply is_prefix_refl|done].
    + intros pre rest resp _ [= ->]. discriminate.
    + intros resp [= ->]. discriminate.
  - intros range r ->. exists abc_response. split_and!; [done|done|by left].
  - apply factory_rep.
  - apply factory_settled.
  - by left.
  - by left.
  - apply (run_steps job_run _ _ _ _ job_run_handles demo_upgrade).
Defined.
