(* ===== verification/FirstBoot.v ===== *)
(** * The first boot of a device

    [NewSlotManager] turns an empty data directory into the factory device.  It may
    be interrupted anywhere, any number of times, with failing and half-done writes;
    this file shows that the next attempt picks up what is there. *)

From S2P Require Import Prelude GoLib Sha256 Os Download Slot SlotLogic SlotSpec Boot Agent Upgrade.
Open Scope Z_scope.

Implicit Types (s : fs) (p : list string).

(** What interrupted attempts can leave: the slot directories, the two files of slot
    A, the temporary link, and the link itself. *)
Record parts := mkParts {
    dirA : bool;
    dirB : bool;
    version_file : option string;
    marker_file : option string;
    tmp_link : option string;
    current_link : bool;
  }.

Definition versionA : list string := Join (slotDir "A") versionFile.
Definition markerA : list string := Join (slotDir "A") confirmedMarker.

Definition dir_if (b : bool) : option node := if b then Some Dir else None.

Definition node_at (x : parts) (p : list string) : option node :=
  if decide (p = slotDir "A") then dir_if (dirA x)
  else if decide (p = slotDir "B") then dir_if (dirB x)
  else if decide (p = versionA) then File <$> version_file x
  else if decide (p = markerA) then File <$> marker_file x
  else if decide (p = currentTmp) then Link <$> tmp_link x
  else if decide (p = currentPath) then (if current_link x then Some (Link "slotA") else None)
  else None.

Definition made (x : parts) s : Prop := ∀ p, s !! p = node_at x p.
Definition shipped : parts := mkParts true true (Some "factory") (Some "") None true.

(** Not provisioned yet. *)
Definition unborn s : Prop := ∃ x, made x s ∧ current_link x = false.

Ltac by_path :=
  intros p; unfold node_at; cbn; repeat case_decide; subst; first [done|congruence].

Lemma made_at x s : made x s →
  s !! slotDir "A" = dir_if (dirA x) ∧ s !! slotDir "B" = dir_if (dirB x) ∧
  s !! versionA = File <$> version_file x ∧ s !! markerA = File <$> marker_file x ∧
  s !! currentTmp = Link <$> tmp_link x ∧
  s !! currentPath = (if current_link x then Some (Link "slotA") else None).
Proof. intros Hs. by split_and!; rewrite Hs. Qed.

Lemma made_shipped s : made shipped s → s = factory_fs.
Proof.
  intros Hs. apply map_eq. intros p. rewrite Hs. unfold node_at, factory_fs, blank_fs. cbn.
  repeat case_decide; subst; try (vm_compute; reflexivity).
  by rewrite !lookup_insert_ne by (unfold currentPath in *; congruence).
Qed.

Lemma empty_unborn : unborn ∅.
Proof. exists (mkParts false false None None None false). split; [|done]. by_path. Qed.

(** ** The calls, one by one *)

Section calls.
Context (P : policy) (HP : ∀ o f, is_read o = true → P o f → f = NoFault).
Local Instance Psem : Sem fsS fs := fs_sem P.
Variable x : parts.
Hypothesis not_yet : current_link x = false.

(** The parts after a call that may have failed. *)
Definition call_makes (o : fsop) (Q : fsres o → parts → Prop) : Prop :=
  ∀ s f r s', made x s → P o f → fs_exec f o s = (r, s') → ∃ y, made y s' ∧ Q r y.

Lemma call_wp {A} o Q (k : fsres o → prog fsS A) J R s :
  call_makes o Q → made x s → J s →
  (∀ r y s', made y s' → Q r y → wpi (k r) J R s') →
  wpi (bind (fcall o) k) J R s.
Proof.
  intros Ho Hs HJ Hk. split; [done|]. intros r s' (f & Hf & E).
  destruct (Ho s f r s' Hs Hf E) as (y & Hy & HQ). by eapply Hk.
Qed.

(** What holds when no call fails for an external reason. *)
Definition surely (B : Prop) : Prop := ¬ may_fail P → B.

Lemma fault_surely o f B : P o f → f ≠ NoFault → surely B.
Proof. intros Hf Hn Hm. destruct Hm. by eapply may_fail_intro. Qed.

Lemma made_insert y s p n :
  made x s → (∀ q, node_at y q = if decide (p = q) then Some n else node_at x q) → made y (<[p:=n]> s).
Proof. intros Hs Hy q. by rewrite lookup_insert, Hy, Hs. Qed.

Lemma made_delete y s p :
  made x s → (∀ q, node_at y q = if decide (p = q) then None else node_at x q) → made y (delete p s).
Proof. intros Hs Hy q. by rewrite lookup_delete, Hy, Hs. Qed.

Ltac same := exists x; cbn; by split_and!.
Ltac spoilt := exists x; cbn; split_and!; try done; by eapply fault_surely.
Ltac spared := exists x; split_and!; [done|by auto|by eapply fault_surely].
Ltac becomes y := exists y; cbn; split; [|split_and!; try done; by eapply fault_surely].

Lemma make_dirA : call_makes (MkdirAll (slotDir "A")) (λ r y,
  current_link y = false ∧ (r = None → dirA y = true) ∧ surely (r = None)).
Proof.
  intros s f r s' Hs Hf E. pose proof (made_at _ _ Hs) as (Hd & _).
  destruct f; cbn in E; [|simplify_eq; spoilt..]. unfold mkdir in E. rewrite Hd in E.
  destruct (dirA x) eqn:Ha; cbn in E; simplify_eq; [same|].
  becomes (mkParts true (dirB x) (version_file x) (marker_file x) (tmp_link x) false).
  apply made_insert; [done|]. rewrite <-not_yet. by_path.
Qed.

Lemma make_dirB : call_makes (MkdirAll (slotDir "B")) (λ r y,
  current_link y = false ∧ dirA y = dirA x ∧ (r = None → dirB y = true) ∧ surely (r = None)).
Proof.
  intros s f r s' Hs Hf E. pose proof (made_at _ _ Hs) as (_ & Hd & _).
  destruct f; cbn in E; [|simplify_eq; spoilt..]. unfold mkdir in E. rewrite Hd in E.
  destruct (dirB x) eqn:Ha; cbn in E; simplify_eq; [same|].
  becomes (mkParts (dirA x) true (version_file x) (marker_file x) (tmp_link x) false).
  apply made_insert; [done|]. rewrite <-not_yet. by_path.
Qed.

Lemma look : call_makes (Lstat currentPath) (λ r y, y = x ∧ ∃ e, r = Some e ∧ IsNotExist e = true).
Proof.
  intros s f r s' Hs Hf E. rewrite (HP (Lstat currentPath) f eq_refl Hf) in E.
  pose proof (made_at _ _ Hs) as (_ & _ & _ & _ & _ & Hc). rewrite not_yet in Hc.
  cbn in E. unfold exists_node in E. rewrite Hc in E. simplify_eq. exists x. split; [done|].
  split; [done|]. by eexists.
Qed.

(** A file of slot A can be written, whether it is there or not. *)
Lemma open_in_A s name old :
  s !! slotDir "A" = Some Dir → s !! Join (slotDir "A") name = File <$> old →
  open_write s "open" (Join (slotDir "A") name) = Ok (Join (slotDir "A") name).
Proof.
  intros Hd Hv. unfold open_write, resolve. rewrite Hv.
  destruct old; simpl fmap; cbv beta iota; rewrite Hv; [done|].
  unfold parent_ok. change (removelast (Join (slotDir "A") name)) with (slotDir "A").
  cbn [slotDir]. by rewrite bool_decide_eq_true_2.
Qed.

Lemma write_version : dirA x = true → call_makes (WriteFile versionA "factory") (λ r y,
  current_link y = false ∧ dirA y = true ∧ dirB y = dirB x ∧
  (r = None → version_file y = Some "factory") ∧ surely (r = None)).
Proof.
  intros Ha s f r s' Hs Hf E. pose proof (made_at _ _ Hs) as (Hd & _ & Hv & _). rewrite Ha in Hd.
  assert (open_write s "open" versionA = Ok versionA) as Ho.
  { by apply open_in_A with (version_file x). }
  cbn [fs_exec] in E. rewrite Ho in E. unfold put in E. destruct f as [| |n]; cbn in E; simplify_eq.
  - becomes (mkParts true (dirB x) (Some "factory") (marker_file x) (tmp_link x) false).
    apply made_insert; [done|]. rewrite <-not_yet, <-Ha. by_path.
  - spoilt.
  - becomes (mkParts true (dirB x) (Some (str_take n "factory")) (marker_file x) (tmp_link x) false).
    apply made_insert; [done|]. rewrite <-not_yet, <-Ha. by_path.
Qed.

Lemma write_marker : dirA x = true → call_makes (WriteFile markerA "") (λ r y,
  current_link y = false ∧ dirA y = true ∧ dirB y = dirB x ∧ version_file y = version_file x ∧
  (r = None → marker_file y = Some "") ∧ surely (r = None)).
Proof.
  intros Ha s f r s' Hs Hf E. pose proof (made_at _ _ Hs) as (Hd & _ & _ & Hv & _). rewrite Ha in Hd.
  assert (open_write s "open" markerA = Ok markerA) as Ho.
  { by apply open_in_A with (marker_file x). }
  cbn [fs_exec] in E. rewrite Ho in E. unfold put in E. destruct f as [| |n]; cbn in E; simplify_eq.
  - becomes (mkParts true (dirB x) (version_file x) (Some "") (tmp_link x) false).
    apply made_insert; [done|]. rewrite <-not_yet, <-Ha. by_path.
  - spoilt.
  - becomes (mkParts true (dirB x) (version_file x) (Some (str_take n "")) (tmp_link x) false).
    apply made_insert; [done|]. rewrite <-not_yet, <-Ha. by_path.
Qed.

(** The same but for the temporary link. *)
Definition with_tmp (t : option string) : parts :=
  mkParts (dirA x) (dirB x) (version_file x) (marker_file x) t false.

Lemma drop_tmp : call_makes (Remove currentTmp) (λ _ y,
  (y = x ∨ y = with_tmp None) ∧ surely (tmp_link y = None)).
Proof.
  intros s f r s' Hs Hf E. pose proof (made_at _ _ Hs) as (_ & _ & _ & _ & Ht & _).
  destruct f; cbn in E; [|simplify_eq; spared..].
  unfold remove in E. rewrite Ht in E.
  destruct (tmp_link x) eqn:Hx; cbn in E; simplify_eq; [|exists x; split_and!; [done|by left|by intros _]].
  exists (with_tmp None). split; [|by split; [right|]]. apply made_delete; [done|].
  unfold with_tmp. rewrite <-not_yet. by_path.
Qed.

Lemma make_tmp : call_makes (Symlink "slotA" currentTmp) (λ r y,
  ((r ≠ None ∧ y = x) ∨ y = with_tmp (Some "slotA")) ∧ surely (tmp_link x = None → r = None)).
Proof.
  intros s f r s' Hs Hf E. pose proof (made_at _ _ Hs) as (_ & _ & _ & _ & Ht & _).
  destruct f; cbn in E; [|simplify_eq; spared..].
  unfold symlink in E. rewrite Ht in E.
  destruct (tmp_link x) eqn:Hx; cbn in E; simplify_eq; [exists x; split_and!; [done|by left|by intros _]|].
  exists (with_tmp (Some "slotA")). split; [|by split; [right|]]. apply made_insert; [done|].
  unfold with_tmp. rewrite <-not_yet. by_path.
Qed.

Lemma flip_current : tmp_link x = Some "slotA" → call_makes (Rename currentTmp currentPath) (λ r y,
  ((r ≠ None ∧ y = x) ∨
   y = mkParts (dirA x) (dirB x) (version_file x) (marker_file x) None true) ∧ surely (r = None)).
Proof.
  intros Hx s f r s' Hs Hf E. pose proof (made_at _ _ Hs) as (_ & _ & _ & _ & Ht & Hc).
  destruct f; cbn in E; [|simplify_eq; spared..]. unfold rename in E.
  rewrite Ht, Hc, Hx, not_yet in E. cbn in E. simplify_eq. eexists. split; [|by split; [right|]].
  intros q. rewrite lookup_insert, lookup_delete, Hs. unfold node_at. cbn. rewrite not_yet.
  repeat case_decide; subst; first [done|congruence].
Qed.
End calls.

(** ** The attempts *)

Section attempts.
Context (P : policy) (HP : ∀ o f, is_read o = true → P o f → f = NoFault).
Local Instance Asem : Sem fsS fs := fs_sem P.

Definition coming s : Prop := unborn s ∨ s = factory_fs.

(** What an attempt ends with: the factory device if it reports no error, and no
    error unless a call failed for an external reason. *)
Definition attempted (r : option goerr) s : Prop :=
  coming s ∧ (r = None → s = factory_fs) ∧ surely P (r = None).

Lemma coming_made y s : made y s → current_link y = false → coming s.
Proof. left. by exists y. Qed.

Lemma attempt_fails y s e :
  made y s → current_link y = false → surely P (Some e = None) → coming s ∧ attempted (Some e) s.
Proof. intros. by repeat split; eauto using coming_made. Qed.

(** One call of an attempt, on parts without the link. *)
Ltac makes L H :=
  eapply (λ Ho, call_wp P _ _ _ _ _ _ _ Ho H); [by eapply L|by eapply coming_made|].
Ltac fails := eapply attempt_fails; [done|done|congruence].

Lemma switch_born x s :
  made x s → current_link x = false → dirA x = true → dirB x = true →
  version_file x = Some "factory" → marker_file x = Some "" →
  wpi (switchTo "A") coming attempted s.
Proof.
  intros Hs Hx Ha Hb Hv Hm. unfold switchTo. makes drop_tmp Hs. intros r1 y s1 Hy [Hy' Ht].
  assert (current_link y = false ∧ dirA y = true ∧ dirB y = true ∧
    version_file y = Some "factory" ∧ marker_file y = Some "") as (Hc & Ha' & Hb' & Hv' & Hm')
    by (destruct Hy' as [-> | ->]; by split_and!).
  makes make_tmp Hy. intros r2 z s2 Hz [Hz' Hs2].
  assert (surely P (r2 = None)) as Hr2 by (intros Hf; by apply Hs2, Ht).
  destruct r2 as [e|].
  { destruct Hz' as [[_ ->]| ->]; by eapply attempt_fails. }
  destruct Hz' as [[[] _]| ->]; [done|].
  cut (wpi (bind (fcall (Rename currentTmp currentPath)) Ret) coming attempted s2); [done|].
  makes flip_current Hz. intros r3 u s3 Hu [[[Hr ->]| ->] Hs3].
  - destruct r3 as [e|]; [by eapply attempt_fails|done].
  - assert (s3 = factory_fs) as ->; [|by repeat split; try right].
    apply made_shipped. unfold shipped. cbn in Hu. by rewrite Ha', Hb', Hv', Hm' in Hu.
Qed.

Lemma provisions s : unborn s → wpi NewSlotManager coming attempted s.
Proof.
  intros (x & Hs & Hx). unfold NewSlotManager.
  makes make_dirA Hs. intros [e|] x1 s1 H1 (Hc1 & Ha1 & F1); [by eapply attempt_fails|].
  specialize (Ha1 eq_refl).
  makes make_dirB H1. intros [e|] x2 s2 H2 (Hc2 & Ha2 & Hb2 & F2); [by eapply attempt_fails|].
  specialize (Hb2 eq_refl).
  makes (look P HP) H2. intros r x3 s3 H3 (-> & e & -> & ->).
  assert (dirA x2 = true) by congruence.
  makes write_version H3. intros [e'|] x4 s4 H4 (Hc4 & Ha4 & Hb4 & Hv4 & F4);
    [by eapply attempt_fails|]. specialize (Hv4 eq_refl).
  makes write_marker H4. intros [e'|] x5 s5 H5 (Hc5 & Ha5 & Hb5 & Hv5 & Hm5 & F5);
    [by eapply attempt_fails|]. specialize (Hm5 eq_refl).
  apply wpi_bind. eapply wpi_mono; [eapply switch_born; [done|done|congruence..|done]|done|].
  intros [e'|] s6 _ H6; [by split; [apply H6|]|]. by split; [apply H6|].
Qed.
End attempts.

(** ** Power failures during the first boot *)

Section restarts.
Context (P : policy) (HP : ∀ o f, is_read o = true → P o f → f = NoFault).
Local Instance Rsem : Sem fsS fs := fs_sem P.

(** What a program returns that only reads. *)
Fixpoint just_reads {A} (p : prog fsS A) s : option A :=
  match p with
  | Ret a => Some a
  | Act o k => if is_read o then just_reads (k (fs_exec NoFault o s).1) s else None
  end.

Lemma read_keeps o s r s' : is_read o = true → fs_exec NoFault o s = (r, s') → s' = s.
Proof. destruct o; intros [=]; cbn; repeat case_match; congruence. Qed.

Lemma just_reads_wpi {A} (p : prog fsS A) s a :
  just_reads p s = Some a → wpi p (λ s', s' = s) (λ r s', s' = s ∧ r = a) s.
Proof.
  induction p as [b|o k IH]; cbn; [by intros [= ->]|]. destruct (is_read o) eqn:Ho; [|done].
  intros Hk. split; [done|]. intros r s' (f & ->%HP & E); [|done].
  pose proof (read_keeps _ _ _ _ Ho E) as ->. rewrite E in Hk. by apply IH.
Qed.

(** A directory that is there already. *)
Lemma wpi_there {A} p (k : option goerr → prog fsS A) J R s :
  s !! p = Some Dir → J s → wpi (k None) J R s →
  (surely P False → ∀ e, wpi (k (Some e)) J R s) → wpi (Act (MkdirAll p : act fsS) k) J R s.
Proof.
  intros Hp HJ Hk He. split; [done|]. intros r s' (f & Hf & E).
  destruct f; cbn in E; simplify_eq; [unfold mkdir in E; rewrite Hp in E; by simplify_eq|..];
    apply He; by eapply fault_surely.
Qed.

(** A boot of the factory device writes nothing. *)
Lemma factory_boot_writes_nothing :
  wpi bootSequence (λ s, s = factory_fs) (λ r s, s = factory_fs ∧ r = None) factory_fs.
Proof. apply just_reads_wpi. vm_compute. reflexivity. Qed.

Lemma provisions_again :
  wpi NewSlotManager (λ s, s = factory_fs) (λ r s, s = factory_fs ∧ surely P (r = None)) factory_fs.
Proof.
  apply wpi_there; [done|done| |].
  2:{ intros Hf e. by split; [|split; [|intros []%Hf]]. }
  apply wpi_there; [done|done| |].
  2:{ intros Hf e. by split; [|split; [|intros []%Hf]]. }
  eapply wpi_mono; [apply just_reads_wpi; vm_compute; reflexivity|done|].
  intros r s' _ [-> ->]. by split.
Qed.

Lemma opens s : coming s → wpi NewSlotManager coming (attempted P) s.
Proof.
  intros [Hs| ->]; [by apply provisions|].
  eapply wpi_mono; [apply provisions_again|by intros ? ->; right|].
  intros r s' _ [-> Hr]. unfold attempted. split_and!; [by right|done|done].
Qed.

Lemma powers_on s : coming s → wpi power_on coming (attempted P) s.
Proof.
  intros Hs. apply wpi_bind. eapply wpi_mono; [by apply opens|done|].
  intros [e|] s' Hc Ha; [by split|]. destruct Ha as (_ & Hf & _). rewrite (Hf eq_refl).
  eapply wpi_mono; [apply factory_boot_writes_nothing|by intros ? ->; right|].
  intros r s1 _ [-> ->]. unfold attempted. split_and!; [by right|done|done].
Qed.
End restarts.

(** Without failing calls a first boot gets through. *)
Lemma run_fault_free {A} (p : prog fsS A) J Q s :
  wpi (Sem0 := fs_sem fault_free) p J Q s → ∃ a s', run fs_run p s = Some (a, s') ∧ Q a s'.
Proof.
  intros H. destruct (fs_run_total p s) as (a & s' & E). exists a, s'. split; [done|].
  eapply (wpi_run (Sem0 := fs_sem fault_free)); [apply fs_run_handles|exact H|exact E].
Qed.

Lemma first_boot_runs s : coming s →
  run fs_run NewSlotManager s = Some (None, factory_fs) ∧
  run fs_run bootSequence factory_fs = Some (None, factory_fs).
Proof.
  intros Hs. split.
  - destruct (run_fault_free NewSlotManager coming (attempted fault_free) s)
      as (a & s' & -> & _ & Hf & Ha); [by apply (opens _ no_faults)|].
    specialize (Ha fault_free_sure). subst a. by rewrite Hf.
  - destruct (run_fault_free bootSequence (λ s, s = factory_fs) (λ r s, s = factory_fs ∧ r = None)
      factory_fs) as (a & s' & -> & -> & ->); [apply (factory_boot_writes_nothing _ no_faults)|done].
Qed.

(** An attempt cut short anywhere (or finished), its writes failing at will. *)
Definition cut_short s s' : Prop :=
  ∃ rest, rtc (pstep (Sem0 := fs_sem write_faults)) (power_on, s) (rest, s').

Lemma write_faults_read o f : is_read o = true → write_faults o f → f = NoFault.
Proof. auto. Qed.

Lemma cut_short_coming s s' : cut_short s s' → coming s → coming s'.
Proof.
  intros [p Hp] Hs. eapply wpi_reachable; [|exact Hp].
  by apply (powers_on _ write_faults_read).
Qed.

Lemma cut_short_run fl s :
  permitted write_faults fl power_on s → cut_short s (run_with fl power_on s).2.
Proof.
  intros Hf. exists (run_with fl power_on s).1. rewrite <-surjective_pairing. by apply run_with_steps.
Qed.

(** C12. The first boot can be restarted.  From an empty data directory, through any
    number of starts of the agent cut short by power failures at any instant, with
    writes that fail or stop half-way: a start that gets through leaves exactly the
    factory device (slot A running, confirmed, at version factory), and the next
    start without failing calls does get through, whatever its predecessors left. *)
Theorem first_boot_restartable s :
  rtc cut_short ∅ s →
  (∀ s', rtc (pstep (Sem0 := fs_sem write_faults)) (power_on, s) (Ret None, s') → s' = factory_fs) ∧
  run fs_run power_on s = Some (None, factory_fs) ∧
  rep factory_fs factory ∧ confirmed factory SlotA = true.
Proof.
  intros Hs.
  assert (coming s) as Hc.
  { assert (coming ∅) as H0 by (left; apply empty_unborn). revert H0.
    induction Hs as [|s1 s2 s3 H12 _ IH]; [done|]. intros H1. by eapply IH, cut_short_coming. }
  split_and!; [|..|apply factory_rep|done].
  - intros s' Hr. eapply wpi_result in Hr; [|by apply (powers_on _ write_faults_read)]. by apply Hr.
  - destruct (first_boot_runs s Hc) as [Hns Hbs]. unfold power_on.
    by erewrite run_bind by exact Hns.
Qed.

(** The first start loses power after the directory of slot A, the second while
    writing its version. *)
Definition half_made : fs :=
  (run_with [NoFault; NoFault; NoFault; Partial 3] power_on
    (run_with [NoFault] power_on ∅).2).2.

Lemma first_boot_restartable_witness :
  half_made !! versionA = Some (File "fac") ∧ half_made !! currentPath = None ∧
  run fs_run power_on half_made = Some (None, factory_fs).
Proof.
  split; [vm_compute; reflexivity|]. split; [vm_compute; reflexivity|].
  apply (first_boot_restartable half_made).
  eapply rtc_l; [by apply (cut_short_run [NoFault])|].
  apply rtc_once. by apply (cut_short_run [NoFault; NoFault; NoFault; Partial 3]).
Defined.
