(* ===== verification/System.v ===== *)
(** * The whole agent: its goroutines, its boots and its crashes

    The poll loop, the heartbeat loop and the upgrade goroutines interleave one
    operation at a time over the shared memory and the data directory; power may
    fail between any two of them or in the middle of a system call, which then took
    effect, did not, or wrote a part of its data, and the device boots again.  The mutex discipline and
    the ownership of the directory are proved once, by a protocol every goroutine
    follows ([obeys]) and an invariant of the interleavings ([inv]). *)

From S2P Require Import Prelude GoLib Fsm Sha256 Os Download Slot SlotLogic SlotSpec Boot Kube Agent AgentLogic Upgrade.
Open Scope Z_scope.

Implicit Types (s : fs) (d : device) (m : memory) (i j : nat).

(** ** Goroutines *)

Inductive role := Poll | Beat | Job (spec : DeviceSpec) (gen : Z).

Record thread := mkThread { as_role : role; code : prog agS bool }.

Section system.
Context (a : agent) (env : dl_env).

(** The body of a goroutine, or one turn of its loop. *)
Definition start (r : role) : prog agS bool :=
  match r with
  | Poll => poll_turn a
  | Beat => heartbeat_turn a
  | Job spec gen => do goroutine a spec gen ;; Ret false
  end.

Definition spawn (r : role) : thread := mkThread r (start r).

Record live := mkLive { memo : memory; disk : fs; threads : list thread }.

(** One operation of goroutine [i]: the API server and the clock may answer
    anything, the network and the file system what [env] allows. *)
Definition live_sem i (o : act agS) (w : memory * fs) (r : res o) (w' : memory * fs) : Prop :=
  match o return agres o → Prop with
  | ADl o => λ r, dl_sem env o w.2 r w'.2 ∧ w'.1 = w.1
  | AMem o => λ r, mem_exec i o w.1 = Some (r, w'.1) ∧ w'.2 = w.2
  | _ => λ _, w' = w
  end r.

Definition started (o : act agS) : list thread :=
  match o with Go spec gen => [spawn (Job spec gen)] | _ => [] end.

(** The device: booting, with the program that runs before the loops, or live. *)
Inductive machine :=
  | Booting (p : prog fsS (option goerr)) (s : fs)
  | Live (l : live).

Definition disk_of (c : machine) : fs := match c with Booting _ s => s | Live l => disk l end.

(** The system calls that may be under way. *)
Inductive about_to : machine → fsop → Prop :=
  | booting_to (o : fsop) (k : fsres o → prog fsS (option goerr)) s :
  about_to (Booting (Act (o : act fsS) k) s) o
  | thread_to l i r (o : fsop) (k : fsres o → prog agS bool) :
  threads l !! i = Some (mkThread r (Act (ADl (DFs o) : act agS) k)) → about_to (Live l) o.

(** What is on disk when power has failed: what was there, or what a call under way
    made of it, completely or up to the point where it was cut. *)
Definition remains (c : machine) s : Prop :=
  s = disk_of c ∨ ∃ o f, about_to c o ∧ s = (fs_exec f o (disk_of c)).2.

Inductive step : machine → machine → Prop :=
  | step_boot p s p' s' :
  pstep (Sem0 := fs_sem (faults env)) (p, s) (p', s') → step (Booting p s) (Booting p' s')
  | step_booted s :
  step (Booting (Ret None) s) (Live (mkLive new_memory s [spawn Poll; spawn Beat]))
  | step_thread l i r o k ans w' :
  threads l !! i = Some (mkThread r (Act o k)) →
  live_sem i o (memo l, disk l) ans w' →
  step (Live l)
     (Live (mkLive w'.1 w'.2 (<[i := mkThread r (k ans)]> (threads l) ++ started o)))
  | step_turn l i r :
  r = Poll ∨ r = Beat →
  threads l !! i = Some (mkThread r (Ret true)) →
  step (Live l) (Live (mkLive (memo l) (disk l) (<[i := spawn r]> (threads l))))
  | step_power c s : remains c s → step c (Booting power_on s).

(** ** The protocol of a goroutine *)

(** What a goroutine has: the mutex, what it read under it, and the right to
    write the directory and to drive the state machine. *)
Record ghost := mkGhost { hold : bool; know : option bool; own : bool }.
Definition nothing : ghost := mkGhost false None false.

Definition is_write (o : act agS) : bool :=
  match o with ADl (DFs o) => negb (is_read o) | AMem (FsmTo _) => true | _ => false end.

(** Accesses to the fields [mu] guards. *)
Definition guarded (o : act agS) : bool :=
  match o with
  | AMem (ReadUpgrading | WriteUpgrading _ | ReadFailedKey | WriteFailedKey _) => true
  | _ => false
  end.

Definition is_mem (o : act agS) : bool := match o with AMem _ => true | _ => false end.

Definition allowed (o : act agS) (g : ghost) : Prop :=
  (is_write o = true → own g = true) ∧
  (guarded o = true → hold g = true) ∧
  (hold g = true → is_mem o = true ∧ o ≠ AMem Lock ∧ is_write o = false) ∧
  match o with
  | AMem Unlock => hold g = true
  | AMem (WriteUpgrading true) => know g = Some false ∧ own g = false
  | AMem (WriteUpgrading false) => own g = true
  | Go _ _ => own g = true
  | _ => True
  end.

Definition after (o : act agS) (r : res o) (g : ghost) : ghost :=
  match o return agres o → ghost with
  | AMem Lock => λ _, mkGhost true None (own g)
  | AMem Unlock => λ _, mkGhost false None (own g)
  | AMem ReadUpgrading => λ b : bool, mkGhost (hold g) (Some b) (own g)
  | AMem (WriteUpgrading b) => λ _, mkGhost (hold g) (Some b) b
  | Go _ _ => λ _, mkGhost (hold g) (know g) false
  | _ => λ _, g
  end r.

(** What must hold of the state machine and the directory at every instant, and
    what must hold whenever no upgrade is in flight. *)
Context (good resting : State * fs → Prop).
Context (resting_good : ∀ w, resting w → good w).

Definition releases (o : act agS) : bool :=
  match o with AMem (WriteUpgrading false) | Go _ _ => true | _ => false end.

(** The state a call cut in its middle leaves is good, too. *)
Definition cut_safely (o : act agS) (w : State * fs) : Prop :=
  match o with ADl (DFs o) => ∀ f, good (w.1, (fs_exec f o w.2).2) | _ => True end.

(** An owner keeps the device safe at every point until it passes on or gives up
    its right, which it must do, with the device settled. *)
Fixpoint keeps {A} (p : prog agS A) (w : State * fs) : Prop :=
  good w ∧
  match p with
  | Ret _ => False
  | Act o k =>
  cut_safely o w ∧
  if releases o then resting w else ∀ r w', job_sem env o w r w' → keeps (k r) w'
  end.

Definition acquires (o : act agS) : bool :=
  match o with AMem (WriteUpgrading true) => true | _ => false end.

(** The protocol: every operation is allowed, and whoever takes the right to write
    keeps the device safe from then on. *)
Fixpoint obeys {A} (p : prog agS A) (g : ghost) (Q : A → ghost → Prop) : Prop :=
  match p with
  | Ret a => Q a g
  | Act o k =>
  allowed o g ∧ ∀ r, obeys (k r) (after o r g) Q ∧
    (acquires o = true → ∀ w, resting w → keeps (k r) w)
  end.

Definition ends_with (g : ghost) {A} : A → ghost → Prop := λ _ g', g' = g.

(** ** The invariant *)

Definition world (l : live) : State * fs := (state (fsm (memo l)), disk l).

Record inv (l : live) (γ : nat → ghost) : Prop := {
  inv_obeys i th : threads l !! i = Some th → obeys (code th) (γ i) (ends_with nothing);
  inv_idle i : threads l !! i = None → γ i = nothing;
  inv_mu i : hold (γ i) = true ↔ mu (memo l) = Some i;
  inv_know i b : know (γ i) = Some b → hold (γ i) = true ∧ upgrading (memo l) = b;
  inv_one i j : own (γ i) = true → own (γ j) = true → i = j;
  inv_flag : upgrading (memo l) = true ↔ ∃ i, own (γ i) = true;
  inv_keeps i th : threads l !! i = Some th → own (γ i) = true → keeps (code th) (world l);
  inv_rest : (∀ i, own (γ i) = false) → resting (world l);
  }.

(** ** Composition *)

Lemma keeps_bind {A B} (p : prog agS A) (f : A → prog agS B) w : keeps p w → keeps (bind p f) w.
Proof.
  revert w. induction p as [b|o k IH]; simpl; intros w [Hs H]; [done|].
  destruct H as [Hcut H]. split; [done|]. split; [done|].
  destruct (releases o); [done|]. intros r w' Hr. by apply IH, H.
Qed.

Lemma obeys_bind {A B} (p : prog agS A) (f : A → prog agS B) g Q R :
  obeys p g Q → (∀ x g', Q x g' → obeys (f x) g' R) → obeys (bind p f) g R.
Proof.
  intros Hp Hf. revert g Hp. induction p as [b|o k IH]; simpl; intros g Hp; [by apply Hf|].
  destruct Hp as [Ha Hk]. split; [done|]. intros r. destruct (Hk r) as [Ho Hc].
  split; [by apply IH|]. intros Hacq w Hw. by apply keeps_bind, Hc.
Qed.

Lemma obeys_seq {A B} (p : prog agS A) (f : A → prog agS B) g g1 Q :
  obeys p g (ends_with g1) → (∀ x, obeys (f x) g1 Q) → obeys (bind p f) g Q.
Proof. intros Hp Hf. eapply obeys_bind; [done|]. intros x g' ->. apply Hf. Qed.

(** The operations that need neither the mutex nor the right to write, and those
    that need the right only. *)
Definition free_for (owner : bool) (o : act agS) : Prop :=
  match o with
  | ADl (DFs o) => owner = true ∨ is_read o = true
  | AMem (FsmTo _) => owner = true
  | AMem (StoreGen _ | LoadGen) => True
  | AMem _ | Go _ _ => False
  | _ => True
  end.

Lemma obeys_free {A} (p : prog agS A) b :
  calls_only (free_for b) p → obeys p (mkGhost false None b) (ends_with (mkGhost false None b)).
Proof.
  induction p as [x|o k IH]; simpl; [done|]. intros [Ho Hk]. split.
  - split; [|split; [|split]].
  + destruct o as [[]| |[]| | |]; simpl in *; try done;
    destruct b, (is_read o); try done; by destruct Ho.
  + by destruct o as [| |[]| | |].
  + done.
  + by destruct o as [| |[]| | |].
  - intros r. split; [|by destruct o as [| |[]| | |]].
  replace (after o r (mkGhost false None b)) with (mkGhost false None b); [apply IH, Hk|].
  by destruct o as [| |[]| | |].
Qed.
(** ** Every goroutine of the agent follows the protocol *)

Definition mine (b : bool) : ghost := mkGhost false None b.

Lemma report_free b mutate :
  (∀ st gen, calls_only (free_for b) (mutate st gen)) →
  calls_only (free_for b) (reportStatus a mutate).
Proof. by apply reportStatus_calls. Qed.

Lemma fs_free b {A} (p : prog fsS A) :
  calls_only (λ o : act fsS, b = true ∨ is_read o = true) p → calls_only (free_for b) (onfs p).
Proof. intros H. by apply (calls_only_lift (S1 := fsS)). Qed.

Lemma reads_free b {A} (p : prog fsS A) :
  calls_only (λ o : act fsS, is_read o = true) p → calls_only (free_for b) (onfs p).
Proof. intros H. apply fs_free. eapply calls_only_mono; [|done]. by right. Qed.

Lemma owner_fs {A} (p : prog fsS A) : calls_only (free_for true) (onfs p).
Proof. apply fs_free. induction p as [x|o k IH]; simpl; [done|]. split; [by left|done]. Qed.

Lemma owner_dl {A} (p : prog dlS A) : calls_only (free_for true) (ondl p).
Proof.
  induction p as [x|o k IH]; simpl; [done|]. split; [|by intros r; apply IH].
  destruct o; try done. by left.
Qed.

(** A critical section that sets [lastFailedKey]. *)
Lemma obeys_fail spec reason msg :
  obeys (fail a spec reason msg) (mine true) (ends_with (mine true)).
Proof.
  apply (obeys_seq _ _ _ (mine true)); [by apply obeys_free|]. intros _.
  do 3 (split; [by repeat split|intros ?; split; [|done]]).
  apply obeys_free, report_free. by intros.
Qed.

Ltac own_step := apply (obeys_seq _ _ _ (mine true));
  [apply obeys_free; first [apply owner_fs|apply owner_dl|by apply report_free|done]|intros ?].

Lemma obeys_runUpgrade spec gen :
  obeys (runUpgrade a spec gen) (mine true) (ends_with (mine true)).
Proof.
  own_step. own_step. case_match; [done|]. case_match; [by own_step|].
  own_step. case_match; [apply obeys_fail|]. own_step. case_match; [done|].
  own_step. case_match; [own_step; apply obeys_fail|]. own_step. case_match; [done|].
  own_step. case_match; [apply obeys_fail|]. own_step. case_match; [done|].
  own_step. case_match; [apply obeys_fail|]. own_step. own_step. case_match; [done|].
  own_step. apply obeys_free, report_free. by intros.
Qed.

Lemma obeys_job spec gen : obeys (start (Job spec gen)) (mine true) (ends_with nothing).
Proof.
  apply (obeys_seq _ _ _ nothing); [|by intros _].
  apply (obeys_seq _ _ _ (mine true)); [apply obeys_runUpgrade|]. intros _.
  do 3 (split; [by repeat split|intros ?; split; [|done]]). done.
Qed.

(** The step from free to owner is the only one that takes the right to write. *)
Lemma obeys_startUpgrade dev : obeys (startUpgrade dev) nothing (ends_with nothing).
Proof.
  split; [by repeat split|]. intros []. split; [|done].
  split; [by repeat split|]. intros [|]; (split; [|done]).
  { split; [by repeat split|]. intros []. by split. }
  split; [by repeat split|]. intros []. split.
  - split; [by repeat split|]. intros []. split; [|done].
  split; [by repeat split|]. intros []. by split.
  - intros _ w Hw. split; [by apply resting_good|]. split; [done|]. intros r w' E. cbn in E. subst w'.
    split; [by apply resting_good|done].
Qed.

Ltac free_step := apply (obeys_seq _ _ _ nothing);
  [apply obeys_free; first [by apply report_free|apply reads_free; by_cases|done]|intros ?].

Lemma obeys_evaluate dev : obeys (evaluate a dev) nothing (ends_with nothing).
Proof.
  free_step. free_step. case_decide.
  { free_step. cbv beta zeta. case_match; [done|]. apply obeys_free, report_free. by intros. }
  destruct (RolloutPaused _); [done|].
  do 3 (split; [by repeat split|intros ?; split; [|done]]).
  case_decide; [done|apply obeys_startUpgrade].
Qed.

Lemma obeys_start r : (∀ spec gen, r ≠ Job spec gen) → obeys (start r) nothing (ends_with nothing).
Proof.
  destruct r as [| |spec gen]; [| |by intros H; destruct (H spec gen)]; intros _.
  - apply (obeys_seq _ _ _ nothing).
  { apply obeys_free. unfold rand_N. by case_match. }
  intros z. free_step. case_match; [done|].
  apply (obeys_seq _ _ _ nothing).
  { apply obeys_free. apply (calls_only_lift (S1 := kubeS)). unfold Get. by_cases. }
  intros [dev|e]; [|by free_step].
  apply (obeys_seq _ _ _ nothing); [apply obeys_evaluate|]. by intros _.
  - apply (obeys_seq _ _ _ nothing).
  { apply obeys_free. unfold NewTicker. by case_match. }
  intros _. free_step. case_match; [done|]. free_step. done.
Qed.

(** ** The upgrade goroutine keeps the device safe *)

Lemma keeps_wpi {A B} (p : prog agS A) (f : A → prog agS B) w :
  calls_only (λ o, releases o = false) p →
  wpi (Sem0 := job_sem env) p good (λ x w', keeps (f x) w') w →
  each (Sem0 := job_sem env) cut_safely p w → keeps (bind p f) w.
Proof.
  revert w. induction p as [x|o k IH]; simpl; intros w Hp [Hg H] He; [done|].
  destruct Hp as [Ho Hk], He as [Hcut He]. split; [done|]. split; [done|]. rewrite Ho.
  intros r w' Hs. apply IH; [done|by apply H|by apply He].
Qed.

Definition holds_on (o : act agS) : Prop := releases o = false.

Lemma owner_holds {A} b (p : prog agS A) : calls_only (free_for b) p → calls_only holds_on p.
Proof. apply calls_only_mono. by intros [| |[]| | |]. Qed.

Lemma fail_holds spec reason msg : calls_only holds_on (fail a spec reason msg).
Proof.
  do 4 (apply calls_only_bind; [done|intros ?]). by apply reportStatus_calls.
Qed.

Ltac holds_step := apply calls_only_bind;
  [apply (owner_holds true); first [apply owner_fs|apply owner_dl|by apply report_free|done]
  |intros ?].

Lemma runUpgrade_holds spec gen : calls_only holds_on (runUpgrade a spec gen).
Proof.
  holds_step. holds_step. case_match; [done|]. case_match; [by holds_step|].
  holds_step. case_match; [apply fail_holds|]. holds_step. case_match; [done|].
  holds_step. case_match; [holds_step; apply fail_holds|]. holds_step. case_match; [done|].
  holds_step. case_match; [apply fail_holds|]. holds_step. case_match; [done|].
  holds_step. case_match; [apply fail_holds|]. holds_step. holds_step. case_match; [done|].
  holds_step. by apply reportStatus_calls.
Qed.

Section interleaving.
Hypothesis keeps_job : ∀ spec gen w, resting w → keeps (start (Job spec gen)) w.

(** ** The interleavings keep the invariant *)

Lemma To_state {L} (f : FSM L) next l :
  let '(e, f', _) := To f next l in
  let '(e1, f1, _) := To (mkFSM (state f) None) next tt in e = e1 ∧ state f' = state f1.
Proof.
  destruct (decide (next ∈ allowed_from (state f))) as [Hin|Hn].
  - by rewrite !To_legal.
  - by rewrite !To_illegal.
Qed.

Lemma live_job i o l r w' :
  live_sem i o (memo l, disk l) r w' → job_sem env o (world l) r (state (fsm w'.1), w'.2).
Proof.
  unfold world. destruct o as [o|o|o| | |]; cbn; try (by intros ->).
  - by intros [? ->].
  - destruct w' as [m' s']. intros [H ->]. cbn in *.
  destruct o; cbn in *; try (repeat case_match; simplify_eq/=; done).
  pose proof (To_state (fsm (memo l)) next (moves (memo l))) as E.
  destruct (To (fsm (memo l)) next (moves (memo l))) as [[e f] l1].
  destruct (To _ _ tt) as [[e1 f1] l2]. simplify_eq/=. by destruct E as [-> ->].
Qed.

Lemma read_pure f (o : fsop) s : is_read o = true → (fs_exec f o s).2 = s.
Proof. by destruct o; try done; destruct f; cbn; repeat case_match. Qed.

Lemma live_same i o l r w' :
  live_sem i o (memo l, disk l) r w' → is_write o = false →
  (state (fsm w'.1), w'.2) = world l.
Proof.
  unfold world. destruct w' as [m' s'], o as [o|o|o| | |]; cbn; try (by intros [= -> ->]).
  - intros [H ->] Hw. f_equal. destruct o; try (by destruct H).
  destruct H as (f & _ & E). cbn in Hw. rewrite negb_false_iff in Hw.
  by rewrite <-(read_pure f _ (disk l) Hw), E.
  - intros [H ->] Hw. by destruct o; cbn in *; repeat case_match; simplify_eq/=.
Qed.

(** What one operation does to the mutex and to the flag. *)
Lemma live_mu i o l r w' :
  live_sem i o (memo l, disk l) r w' →
  mu w'.1 = match o with AMem Lock => Some i | AMem Unlock => None | _ => mu (memo l) end ∧
  (o = AMem Lock → mu (memo l) = None).
Proof.
  destruct w' as [m' s'], o as [o|o|o| | |]; cbn; try (by intros [= -> ->]).
  - by intros [_ ->].
  - intros [H ->]. by destruct o; cbn in *; repeat case_match; simplify_eq/=.
Qed.

Lemma live_flag i o l r w' :
  live_sem i o (memo l, disk l) r w' →
  upgrading w'.1 = match o with AMem (WriteUpgrading b) => b | _ => upgrading (memo l) end.
Proof.
  destruct w' as [m' s'], o as [o|o|o| | |]; cbn; try (by intros [= -> ->]).
  - by intros [_ ->].
  - intros [H ->]. by destruct o; cbn in *; repeat case_match; simplify_eq/=.
Qed.

Lemma live_read i l r w' :
  live_sem i (AMem ReadUpgrading) (memo l, disk l) r w' → r = upgrading (memo l).
Proof. destruct w' as [m' s']. by intros [[= <- _] _]. Qed.

Lemma after_hold o r g :
  hold (after o r g) = match o with AMem Lock => true | AMem Unlock => false | _ => hold g end.
Proof. by destruct o as [| |[]| | |]. Qed.

Lemma after_own o r g :
  own (after o r g) = match o with AMem (WriteUpgrading b) => b | Go _ _ => false | _ => own g end.
Proof. by destruct o as [| |[]| | |]. Qed.

Lemma after_know i l o r w' g b :
  live_sem i o (memo l, disk l) r w' → (guarded o = true → hold g = true) →
  (∀ b, know g = Some b → hold g = true ∧ upgrading (memo l) = b) →
  know (after o r g) = Some b →
  hold (after o r g) = true ∧
  match o with AMem (WriteUpgrading b) => b | _ => upgrading (memo l) end = b.
Proof.
  destruct o as [| |[]| | |]; cbn in *; intros Hs Hg Hk; try apply Hk; try done.
  - intros [= <-]. split; [auto|]. symmetry. by apply (live_read i l r w').
  - intros [= <-]. auto.
Qed.

Section one_step.
Context (l : live) (γ : nat → ghost) (Hinv : inv l γ).
Context (i : nat) (ro : role) (o : act agS) (k : res o → prog agS bool) (r : res o).
Context (w' : memory * fs).
Hypothesis Hi : threads l !! i = Some (mkThread ro (Act o k)).
Hypothesis Hstep : live_sem i o (memo l, disk l) r w'.

Let g' := after o r (γ i).
Let γ1 : nat → ghost := <[i := g']> γ.

Lemma step_allowed : allowed o (γ i).
Proof. exact (proj1 (inv_obeys _ _ Hinv _ _ Hi)). Qed.

Lemma step_obeys : obeys (k r) g' (ends_with nothing).
Proof. exact (proj1 (proj2 (inv_obeys _ _ Hinv _ _ Hi) r)). Qed.

Lemma ghost_here : γ1 i = g'.
Proof. apply fn_lookup_insert. Qed.
Lemma ghost_else j : j ≠ i → γ1 j = γ j.
Proof. intros. by apply fn_lookup_insert_ne. Qed.

(** Mutual exclusion. *)
Lemma step_mu j : hold (γ1 j) = true ↔ mu w'.1 = Some j.
Proof.
  destruct (live_mu _ _ _ _ _ Hstep) as [-> Hlock]. pose proof (inv_mu _ _ Hinv) as Hmu.
  pose proof step_allowed as (_ & _ & _ & Ha).
  destruct (decide (j = i)) as [->|Hne].
  - rewrite ghost_here. unfold g'. rewrite after_hold. 
  destruct o as [| |[]| | |]; try apply Hmu; by split.
  - rewrite ghost_else by done. destruct o as [| |[]| | |]; try apply Hmu; cbn in Ha.
  + rewrite Hmu, Hlock by done. split; congruence.
  + rewrite Hmu in *. rewrite Ha. split; congruence.
Qed.

(** What is known of the flag is true, since only the holder of the mutex sets it. *)
Lemma step_know j b : know (γ1 j) = Some b → hold (γ1 j) = true ∧ upgrading w'.1 = b.
Proof.
  rewrite (live_flag _ _ _ _ _ Hstep). pose proof (inv_know _ _ Hinv) as Hk.
  pose proof step_allowed as (_ & Hg & _ & _).
  destruct (decide (j = i)) as [->|Hne].
  - rewrite ghost_here. by apply (after_know i l o r w'); auto.
  - rewrite ghost_else by done. intros H. destruct (Hk _ _ H) as [Hh Hu]. split; [done|].
  destruct o as [| |[]| | |]; try done. cbn in Hg.
  apply (inv_mu _ _ Hinv) in Hh. specialize (Hg eq_refl). apply (inv_mu _ _ Hinv) in Hg.
  congruence.
Qed.

Lemma nobody_owns : upgrading (memo l) = false → ∀ j, own (γ j) = false.
Proof.
  intros Hu j. destruct (own (γ j)) eqn:E; [|done].
  assert (upgrading (memo l) = true) by (apply (inv_flag _ _ Hinv); by exists j). congruence.
Qed.

Lemma acquire_alone : acquires o = true → ∀ j, own (γ j) = false.
Proof.
  intros Ha. apply nobody_owns. pose proof step_allowed as (_ & _ & _ & H).
  destruct o as [| |[| | |[]| | | | |]| | |]; try done.
  exact (proj2 (inv_know _ _ Hinv i _ (proj1 H))).
Qed.

(** At most one goroutine owns the device. *)
Lemma step_own j : own (γ1 j) = true → (j = i ∧ own g' = true) ∨ (j ≠ i ∧ own (γ j) = true).
Proof.
  destruct (decide (j = i)) as [->|Hne]; [rewrite ghost_here; auto|].
  rewrite ghost_else by done. auto.
Qed.

Lemma own_before : own g' = true → acquires o = true ∨ own (γ i) = true.
Proof. unfold g'. rewrite after_own. destruct o as [| |[| | |[]| | | | |]| | |]; auto. Qed.

Lemma step_one j1 j2 : own (γ1 j1) = true → own (γ1 j2) = true → j1 = j2.
Proof.
  intros [[-> H1]|[N1 H1]]%step_own [[-> H2]|[N2 H2]]%step_own; [done|..].
  - destruct (own_before H1) as [Ha|Ho]; [by rewrite acquire_alone in H2|].
  by apply (inv_one _ _ Hinv).
  - destruct (own_before H2) as [Ha|Ho]; [by rewrite acquire_alone in H1|].
  by apply (inv_one _ _ Hinv).
  - by apply (inv_one _ _ Hinv).
Qed.

Let n := length (threads l).
Let l' : live := mkLive w'.1 w'.2 (<[i := mkThread ro (k r)]> (threads l) ++ started o).

Lemma lookup_after j th : threads l' !! j = Some th →
  (j = i ∧ th = mkThread ro (k r)) ∨ (j ≠ i ∧ threads l !! j = Some th) ∨
  (j = n ∧ ∃ spec gen, o = Go spec gen ∧ th = spawn (Job spec gen)).
Proof.
  intros [H|[Hj H]]%lookup_app_Some.
  - apply list_lookup_insert_Some in H as [(-> & <- & _)|[? ?]]; auto.
  - rewrite length_insert in H, Hj. fold n in H, Hj. right. right. destruct o; try done.
  destruct (j - n)%nat eqn:E; [|done]. cbn in H. split; [lia|]. naive_solver.
Qed.

Lemma lookup_beyond j : threads l' !! j = None → threads l !! j = None ∧ j ≠ i.
Proof.
  intros H%lookup_ge_None. cbn in H. rewrite length_app, length_insert in H.
  apply lookup_lt_Some in Hi. split; [apply lookup_ge_None; lia|]. intros ->. lia.
Qed.

(** What an owner does keeps the device safe. *)
Lemma keeps_on : own (γ i) = true → releases o = false → keeps (k r) (world l').
Proof.
  intros Ho Hr. destruct (inv_keeps _ _ Hinv _ _ Hi Ho) as [_ [_ H]]. cbn [code] in H.
  rewrite Hr in H. apply (H r). by eapply live_job.
Qed.

Lemma rest_now : (∀ j, own (γ j) = false) ∨ (own (γ i) = true ∧ releases o = true) →
  is_write o = false → resting (world l').
Proof.
  intros H Hw. unfold world. cbn. rewrite (live_same _ _ _ _ _ Hstep Hw).
  destruct H as [H|[Ho Hr]]; [by apply Hinv|].
  destruct (inv_keeps _ _ Hinv _ _ Hi Ho) as [_ [_ H]]. cbn [code] in H. by rewrite Hr in H.
Qed.

Lemma not_owner_reads : own (γ i) = false → is_write o = false.
Proof. intros Ho. destruct step_allowed as [H _]. destruct (is_write o); [|done]. rewrite H in Ho; done. Qed.

Lemma keeps_after j th :
  threads l !! j = Some th → j ≠ i → own (γ j) = true → keeps (code th) (world l').
Proof.
  intros Hj Hne Ho. assert (own (γ i) = false) as Hoi.
  { destruct (own (γ i)) eqn:E; [|done]. destruct Hne. by apply (inv_one _ _ Hinv). }
  replace (world l') with (world l); [by apply (inv_keeps _ _ Hinv _ _ Hj)|].
  symmetry. apply (live_same _ _ _ _ _ Hstep). by apply not_owner_reads.
Qed.

Definition is_go (o : act agS) : bool := match o with Go _ _ => true | _ => false end.

Lemma keeps_here : is_go o = false → own g' = true → keeps (k r) (world l').
Proof.
  intros Hgo Ho. destruct (own_before Ho) as [Ha|Hob].
  - apply (inv_obeys _ _ Hinv _ _ Hi); [done|]. apply rest_now; [left; by apply acquire_alone|].
  by destruct o as [| |[]| | |].
  - apply keeps_on; [done|]. unfold g' in Ho. rewrite after_own in Ho.
  by destruct o as [| |[| | |[]| | | | |]| | |].
Qed.

Lemma flag_after : is_go o = false → upgrading w'.1 = true ↔ ∃ j, own (γ1 j) = true.
Proof.
  intros Hgo. rewrite (live_flag _ _ _ _ _ Hstep). pose proof (inv_flag _ _ Hinv) as Hf.
  assert (own g' = match o with AMem (WriteUpgrading b) => b | _ => own (γ i) end) as Hg.
  { unfold g'. rewrite after_own. by destruct o. }
  assert ((∀ b, o ≠ AMem (WriteUpgrading b)) →
  upgrading (memo l) = true ↔ ∃ j, own (γ1 j) = true) as Hsame.
  { intros Hne. rewrite Hf. assert (own g' = own (γ i)) as E.
  { rewrite Hg. destruct o as [| |[| | |b| | | | |]| | |]; try done. by destruct (Hne b). }
  split; intros [j Hj]; exists j; (destruct (decide (j = i)) as [->|];
  [rewrite ghost_here in *; congruence|by rewrite ghost_else in * by done]). }
  pose proof step_allowed as (_ & _ & _ & Ha). pose proof step_own as Hown.
  pose proof ghost_here as Hhere. clearbody γ1 g'.
  destruct o as [| |[| | |[]| | | | |]| | |]; try (by apply Hsame); cbn in *.
  - split; [|done]. intros _. exists i. congruence.
  - split; [done|]. intros [j [[-> H]|[Hne H]]%Hown]; [congruence|].
  destruct Hne. by apply (inv_one _ _ Hinv).
Qed.

Lemma inv_plain : is_go o = false → inv l' γ1.
Proof.
  intros Hgo. split.
  - intros j th [[-> ->]|[[Hne Hj]|(-> & spec & gen & -> & _)]]%lookup_after; [| |done].
  + rewrite ghost_here. apply step_obeys.
  + rewrite ghost_else by done. by apply (inv_obeys _ _ Hinv).
  - intros j [Hj Hne]%lookup_beyond. rewrite ghost_else by done. by apply (inv_idle _ _ Hinv).
  - apply step_mu.
  - apply step_know.
  - apply step_one.
  - by apply flag_after.
  - intros j th [[-> ->]|[[Hne Hj]|(-> & spec & gen & -> & _)]]%lookup_after; [| |done].
  + rewrite ghost_here. by apply keeps_here.
  + rewrite ghost_else by done. by apply keeps_after.
  - intros Hno. pose proof (Hno i) as Hg. rewrite ghost_here in Hg. unfold g' in Hg.
  rewrite after_own in Hg. destruct (own (γ i)) eqn:Ei.
  + assert (releases o = true ∧ is_write o = false) as [? ?]; [|by apply rest_now; auto].
  clear -Hg Hgo. by destruct o as [| |[| | |[]| | | | |]| | |].
  + apply rest_now; [left|by apply not_owner_reads]. intros j.
  destruct (decide (j = i)) as [->|Hne]; [done|]. rewrite <-(ghost_else j) by done. apply Hno.
Qed.

(** Starting the upgrade goroutine hands the right to write over to it. *)
Lemma inv_go spec gen : o = Go spec gen → inv l' (<[n := mine true]> γ1).
Proof.
  intros Ego. set (γ2 := <[n := mine true]> γ1).
  assert (own (γ i) = true) as Hoi by (destruct step_allowed as (_ & _ & _ & H); by subst o).
  assert (own g' = false) as Hg by (unfold g'; rewrite after_own; by rewrite Ego).
  assert (releases o = true ∧ is_write o = false) as [Hrel Hw] by by rewrite Ego.
  assert (i ≠ n) as Hin by (apply lookup_lt_Some in Hi; fold n in Hi; lia).
  assert (γ n = nothing) as Hnew by (apply (inv_idle _ _ Hinv), lookup_ge_None; unfold n; lia).
  assert (γ2 n = mine true) as Hn by apply fn_lookup_insert.
  assert (∀ j, j ≠ n → γ2 j = γ1 j) as Hold by (intros; by apply fn_lookup_insert_ne).
  assert (∀ j, own (γ2 j) = true → j = n) as Hone.
  { intros j Hj. destruct (decide (j = n)) as [|Hne]; [done|]. rewrite Hold in Hj by done.
  apply step_own in Hj as [[-> H]|[Hji H]]; [congruence|]. destruct Hji. by apply (inv_one _ _ Hinv). }
  assert (upgrading w'.1 = true) as Hup.
  { rewrite (live_flag _ _ _ _ _ Hstep), Ego. apply (inv_flag _ _ Hinv). by exists i. }
  assert (∀ j th, j ≠ i → j ≠ n → threads l !! j = Some th → γ2 j = γ j) as Hother.
  { intros. rewrite Hold, ghost_else; done. }
  split.
  - intros j th [[-> ->]|[[Hne Hj]|(-> & sp & ge & E & ->)]]%lookup_after.
  + rewrite Hold, ghost_here by done. apply step_obeys.
  + assert (j ≠ n) by (apply lookup_lt_Some in Hj; fold n in Hj; lia).
  erewrite Hother by done. by apply (inv_obeys _ _ Hinv).
  + rewrite Hn. apply obeys_job.
  - intros j Hj. pose proof Hj as Hj'. apply lookup_beyond in Hj as [Hj Hji].
  assert (j ≠ n) as Hjn.
  { intros ->. apply lookup_ge_None in Hj'. cbn in Hj'.
  rewrite length_app, length_insert, Ego in Hj'. cbn in Hj'. fold n in Hj'. lia. }
  rewrite Hold, ghost_else by done. by apply (inv_idle _ _ Hinv).
  - intros j. destruct (decide (j = n)) as [->|Hne]; [|rewrite Hold by done; apply step_mu].
  change (mu (memo l')) with (mu w'.1).
  by rewrite <-step_mu, Hn, ghost_else, Hnew.
  - intros j b. destruct (decide (j = n)) as [->|Hne]; [by rewrite Hn|].
  rewrite Hold by done. apply step_know.
  - intros j1 j2 H1%Hone H2%Hone. congruence.
  - split; [intros _; by exists n; rewrite Hn|done].
  - intros j th Hj Ho. apply Hone in Ho as ->.
  apply lookup_after in Hj as [[E _]|[[_ Hj]|(_ & sp & ge & E & ->)]]; [done|..].
  + apply lookup_lt_Some in Hj. unfold n in Hj. lia.
  + apply keeps_job. apply rest_now; auto.
  - intros H. specialize (H n). by rewrite Hn in H.
Qed.

Lemma inv_op : ∃ γ', inv l' γ'.
Proof.
  destruct (is_go o) eqn:E; [|eexists; by apply inv_plain].
  assert (∃ spec gen, o = Go spec gen) as (spec & gen & Ego)
  by (clear -E; destruct o; try done; by eauto).
  eexists. by apply (inv_go spec gen).
Qed.
End one_step.

(** The next turn of a loop. *)
Lemma inv_turn l γ i r :
  inv l γ → threads l !! i = Some (mkThread r (Ret true)) → (∀ spec gen, r ≠ Job spec gen) →
  inv (mkLive (memo l) (disk l) (<[i := spawn r]> (threads l))) γ.
Proof.
  intros Hinv Hi Hr. assert (γ i = nothing) as Hg by apply (inv_obeys _ _ Hinv _ _ Hi).
  assert (∀ j th, <[i := spawn r]> (threads l) !! j = Some th →
            (j = i ∧ th = spawn r) ∨ threads l !! j = Some th) as Hth.
  { intros j th [(-> & <- & _)|[? ?]]%list_lookup_insert_Some; auto. }
  split; try apply Hinv; cbn.
  - intros j th [[-> ->]|Hj]%Hth; [|by apply (inv_obeys _ _ Hinv)].
    rewrite Hg. by apply obeys_start.
  - intros j Hj%lookup_ge_None. rewrite length_insert in Hj. by apply (inv_idle _ _ Hinv), lookup_ge_None.
  - intros j th [[-> ->]|Hj]%Hth Ho; [by rewrite Hg in Ho|]. by apply (inv_keeps _ _ Hinv _ _ Hj).
Qed.

Lemma inv_start s : resting (StateIdle, s) →
  inv (mkLive new_memory s [spawn Poll; spawn Beat]) (λ _, nothing).
Proof.
  intros Hs. split; cbn; try done.
  - intros [|[|i]] th; cbn; intros H; simplify_eq; by apply obeys_start.
  - split; [done|]. by intros [_ ?].
Qed.

(** ** Reachable devices *)

Lemma inv_good l γ : inv l γ → good (world l).
Proof.
  intros Hinv. destruct (upgrading (memo l)) eqn:E.
  - apply (inv_flag _ _ Hinv) in E as [i Hi]. destruct (threads l !! i) as [th|] eqn:Et.
    + pose proof (inv_keeps _ _ Hinv _ _ Et Hi) as H. destruct (code th); apply H.
    + apply (inv_idle _ _ Hinv) in Et. by rewrite Et in Hi.
  - apply resting_good, (inv_rest _ _ Hinv). by apply (nobody_owns l γ).
Qed.

(** What a power failure can leave on disk. *)
Definition crashed s : Prop := ∃ st, good (st, s).

Definition boots (p : prog fsS (option goerr)) s : Prop :=
  wpi (Sem0 := fs_sem (faults env)) p crashed (λ r s', r = None → resting (StateIdle, s')) s ∧
  each (Sem0 := fs_sem (faults env)) (λ o s, ∀ f, crashed (fs_exec f o s).2) p s.

Hypothesis power_ok : ∀ s, crashed s → boots power_on s.

Definition minv (c : machine) : Prop :=
  match c with Booting p s => boots p s | Live l => ∃ γ, inv l γ end.

Lemma minv_crashed c : minv c → crashed (disk_of c).
Proof.
  destruct c as [p s|l]; simpl.
  - intros [H _]. by apply wpi_inv in H.
  - intros [γ Hinv]. exists (state (fsm (memo l))). by apply (inv_good l γ).
Qed.

(** A goroutine that is not the owner only reads. *)
Lemma minv_remains c s : minv c → remains c s → crashed s.
Proof.
  intros Hm [-> | (o & f & Ho & ->)]; [by apply minv_crashed|].
  destruct Ho as [o k s|l i r o k Hi].
  - destruct Hm as [_ [H _]]. apply H.
  - pose proof (minv_crashed (Live l) Hm) as Hc. destruct Hm as [γ Hinv].
    destruct (own (γ i)) eqn:Eo.
    + destruct (inv_keeps _ _ Hinv _ _ Hi Eo) as [_ [Hcut _]]. eexists. apply Hcut.
    + cbn [disk_of] in *. rewrite read_pure; [done|].
      destruct (inv_obeys _ _ Hinv _ _ Hi) as [[Hw _] _]. cbn in Hw.
      destruct (is_read o); [done|]. rewrite Hw in Eo; done.
Qed.

Lemma minv_step c c' : step c c' → minv c → minv c'.
Proof.
  intros Hs. destruct Hs as [p s p' s' H|s|l i r o k ans w' Hi Hl|l i r Hr Hi|c s Hrem]; simpl.
  - intros [Hw He]. destruct p as [x|o k]; [done|]. unfold pstep in H. simpl in H.
    destruct H as (r & Hsem & ->). split; [by apply Hw|by apply He].
  - intros [[_ H] _]. eexists. by apply inv_start, H.
  - intros [γ Hinv]. by apply (inv_op l γ).
  - intros [γ Hinv]. exists γ. apply inv_turn; [done|done|]. intros sp ge ->. by destruct Hr.
  - intros H. apply power_ok. by eapply minv_remains.
Qed.

Lemma minv_reachable s c : crashed s → rtc step (Booting power_on s) c → minv c.
Proof.
  intros Hs Hc. remember (Booting power_on s) as c0 eqn:E.
  assert (minv c0) as H by (subst c0; by apply power_ok). clear E.
  induction Hc as [|c1 c2 c3 H12 _ IH]; [done|]. by eapply IH, minv_step.
Qed.
End interleaving.
End system.

(** ** The lock discipline, under any faults *)

Section discipline.
Context (a : agent) (env : dl_env).
Let whatever (w : State * fs) : Prop := True.

Lemma keeps_job_any spec gen w : whatever w → keeps env whatever whatever (start a (Job spec gen)) w.
Proof.
  intros _. apply keeps_bind, keeps_wpi; [apply runUpgrade_holds|..].
  - eapply wpi_mono; [apply wpi_true|done|]. intros [] w' _ _.
    split; [done|]. split; [done|]. intros [] w1 _. by split.
  - apply each_calls_only, calls_only_all. intros o w'. by destruct o as [[]| | | | |].
Qed.

Lemma disciplined_reachable s l :
  rtc (step a env) (Booting power_on s) (Live l) →
  ∃ γ, inv env whatever whatever l γ.
Proof.
  intros H. refine (minv_reachable a env whatever whatever _ keeps_job_any _ s (Live l) _ H); [done| |].
  - intros s' _. split.
    + eapply wpi_mono; [apply wpi_true|..]; [|done]. intros s1 _. by exists StateIdle.
    + apply each_calls_only, calls_only_all. intros o s1 f. by exists StateIdle.
  - by exists StateIdle.
Qed.
End discipline.

(** ** The device, when reads and the writes of the markers do not fail *)

(** What a cut leaves is among what a failing call can leave. *)
Lemma wpi_cut (P : policy) (HP : ∀ o f, is_read o = true → P o f → f = NoFault)
    {A} (p : prog fsS A) (I : fs → Prop) (Q : A → fs → Prop) s :
  wpi (Sem0 := fs_sem write_faults) p I Q s →
  each (Sem0 := fs_sem P) (λ o s, ∀ f, I (fs_exec f o s).2) p s.
Proof.
  revert s. induction p as [x|o k IH]; intros s; [done|]. intros [HI H]. split.
  - intros f. destruct (is_read o) eqn:Hr; [by rewrite read_pure|].
    destruct (fs_exec f o s) as [r s'] eqn:E. eapply wpi_inv, (H r s'). exists f.
    split; [|done]. intros Hr'. congruence.
  - intros r s' (f & Hf & E). apply IH, H. exists f. split; [|done]. intros Hr. by apply (HP o).
Qed.

(** The environment with every fault of a write. *)
Definition worst (env : dl_env) : dl_env :=
  Build_dl_env write_faults (server env) (valid_url env) (cancel env).

Lemma worst_job env (HP : ∀ o f, is_read o = true → faults env o f → f = NoFault) o w r w' :
  job_sem env o w r w' → job_sem (worst env) o w r w'.
Proof.
  destruct o as [[]|o|o| | |]; try done. cbn. intros [(f & Hf & E) ?]. split; [|done].
  exists f. split; [|done]. intros Hr. by apply (HP o).
Qed.

Lemma job_cut env (HP : ∀ o f, is_read o = true → faults env o f → f = NoFault)
    (good : State * fs → Prop) {A} (p : prog agS A) (Q : A → State * fs → Prop) w :
  wpi (Sem0 := job_sem (worst env)) p good Q w →
  each (Sem0 := job_sem env) (cut_safely good) p w.
Proof.
  revert w. induction p as [x|o k IH]; intros w; [done|]. intros [HI H]. split.
  - destruct o as [[o| | | | |]| | | | |]; try done. intros f.
    destruct (is_read o) eqn:Hr; [rewrite read_pure by done; by destruct w|].
    destruct (fs_exec f o w.2) as [r s'] eqn:E. eapply wpi_inv, (H r (w.1, s')). split; [|done].
    exists f. split; [|done]. intros Hr'. congruence.
  - intros r w' Hs. by apply IH, H, worst_job.
Qed.

(** The conditions under which every failing write is survived. *)
Definition sound_markers (P : policy) : Prop :=
  ∀ o f, is_read o = true ∨ commits o = true → P o f → f = NoFault.

Section sound.
Context (a : agent) (env : dl_env) (Hok : sound_markers (faults env)).

Lemma sound_reads o f : is_read o = true → faults env o f → f = NoFault.
Proof. intros. apply (Hok o); auto. Qed.

Lemma sound_sure : ¬ commit_may_fail (faults env).
Proof. intros (o & f & Hc & Hf & Hne). apply Hne, (Hok o); auto. Qed.

Definition goodw (w : State * fs) : Prop := holds safe w.2.
Definition restw (w : State * fs) : Prop := at_rest w.1 ∧ holds settled w.2.

Lemma restw_good w : restw w → goodw w.
Proof. intros [_ (d & ? & ?)]. exists d. auto with slots. Qed.

Lemma finished_settled spec d st d' :
  finished (faults env) spec d st d' → at_rest st ∧ settled d'.
Proof.
  intros ([_ Ht] & Ho & Hc). split; [|split; [by apply Hc, sound_sure|done]].
  destruct st; try done; [by left|by right].
Qed.

Lemma keeps_job_safe spec gen w : restw w → keeps env goodw restw (start a (Job spec gen)) w.
Proof.
  destruct w as [st s]. intros [Hst (d & Hs & Hd)].
  apply keeps_bind, keeps_wpi; [apply runUpgrade_holds|..].
  - eapply wpi_mono; [by apply (jwp_runUpgrade a env sound_reads spec gen st d Hd Hst s Hs)|done|].
    intros [] w' _ (d' & Hs' & Hf). assert (restw w') as Hr.
    { destruct (finished_settled _ _ _ _ Hf) as [? ?]. split; [done|]. by exists d'. }
    split; [by apply restw_good|]. split; [done|]. intros [] w1 E. cbn in E. subst w1.
    split; [by apply restw_good|done].
  - eapply job_cut; [apply sound_reads|].
    exact (jwp_runUpgrade a (worst env) reads_succeed spec gen st d Hd Hst s Hs).
Qed.

Lemma tidy_rep s d1 d2 : rep s d1 → rep s d2 → tidy d1 → tidy d2.
Proof.
  intros H1 H2 Ht name Hn. rewrite <-(rep_stores _ _ H2), (rep_stores _ _ H1) by done. by apply Ht.
Qed.

Lemma boot_safe_safe d d' : boot_safe d d' → safe d → safe d'.
Proof.
  intros Hb [Hr Ht]. split; [eapply recoverable_same; [apply Hb|done]|].
  intros name Hn. rewrite (safe_stores _ _ Hb). by apply Ht.
Qed.

Lemma bootSequence_settles s d :
  rep s d → safe d →
  wpi (Sem0 := fs_sem write_faults) bootSequence (holds safe)
    (λ r s', r = None → holds settled s') s.
Proof.
  intros Hs Hd. eapply wpi_mono; [eapply wpi_conj|..].
  - by apply (bootSequence_safe d s).
  - apply (bootSequence_confirms _ reads_succeed d (proj1 Hd) s Hs).
  - intros s' [(d' & Hr & Hb) _]. exists d'. split; [done|]. by eapply boot_safe_safe.
  - intros r s' [(d1 & Hr1 & Hb) _] [_ (d2 & Hr2 & Hc)] ->. exists d2. split; [done|].
    split; [by apply Hc|]. eapply tidy_rep; [exact Hr1|done|]. by eapply boot_safe_safe.
Qed.

(** On a directory that was set up before, [New] finds everything in place. *)
Lemma power_on_boots s d (I : fs → Prop) (Q : option goerr → fs → Prop) :
  rep s d → I s → (∀ e, Q (Some e) s) →
  wpi (Sem0 := fs_sem write_faults) bootSequence I Q s →
  wpi (Sem0 := fs_sem write_faults) power_on I Q s.
Proof.
  intros Hs HI HQ Hboot.
  assert (∀ x, s !! slotDir (slot_name x) = Some Dir) as Hdir by apply Hs.
  assert (∀ x r s', fs_sem write_faults (MkdirAll (slotDir (slot_name x))) s r s' → s' = s) as Hmk.
  { intros x r s' (f & _ & E). cbn in E. unfold mkdir in E. rewrite (Hdir x) in E. by destruct f; simplify_eq. }
  split; [done|]. intros r1 s1 ->%(Hmk SlotA). destruct r1 as [e|]; [by split|].
  split; [done|]. intros r2 s2 ->%(Hmk SlotB). destruct r2 as [e|]; [by split|].
  split; [done|]. intros r3 s3 (f3 & Hf3 & E3). rewrite (Hf3 eq_refl) in E3.
  cbn in E3. unfold exists_node in E3. rewrite (rep_current _ _ Hs) in E3. by injection E3 as <- <-.
Qed.

Lemma power_on_settles s : crashed goodw s → boots env goodw restw power_on s.
Proof.
  intros [st (d & Hs & Hd)]. cbn in Hs. assert (crashed goodw s) as Hcr by (exists st; by exists d).
  assert (wpi (Sem0 := fs_sem write_faults) power_on (crashed goodw)
    (λ r s', r = None → restw (StateIdle, s')) s) as H.
  { apply (power_on_boots s d); [done|done|done|].
    eapply wpi_mono; [by apply (bootSequence_settles s d)|..].
    - intros s' H. exists StateIdle. exact H.
    - intros r s' _ H Hr. split; [by left|by apply H]. }
  split; [|by eapply wpi_cut; [apply sound_reads|]].
  eapply wpi_policy_mono; [|exact H]. intros o f Hf Hr. by apply (sound_reads o).
Qed.

Lemma settled_reachable s d c :
  rep s d → safe d → rtc (step a env) (Booting power_on s) c → minv env goodw restw c.
Proof.
  intros Hs Hd. apply minv_reachable; [apply restw_good|apply keeps_job_safe|apply power_on_settles|].
  exists StateIdle. by exists d.
Qed.
End sound.

(** ** Execution of the whole agent *)

Definition target_device : Kube.Device :=
  mkDevice "edge.example.com/v1alpha1" "EdgeDevice"
    (mkObjectMeta "edge-001" "default" "7" 3 "uid-1") abc_spec
    (mkDeviceStatus "" [] "factory" "A" "" 0).

(** An API server that always serves [target_device] and accepts every write. *)
Definition live_run i (o : act agS) (w : memory * fs) : option (res o * (memory * fs)) :=
  match o return option (agres o * (memory * fs)) with
  | ADl (DFs o) => let (r, s) := fs_exec NoFault o w.2 in Some (r, (w.1, s))
  | ADl (NewRequest _) => Some (None, w)
  | ADl (HttpDo _ _) => Some (Ok abc_response, w)
  | ADl (RandN n) => if 0 <? n then Some (0, w) else None
  | ADl (After _) => Some (None, w)
  | ADl (Panic _) => None
  | AKube (KNewRequest _ _) => Some (None, w)
  | AKube (KDo _) => Some (Ok (mkReply 200 "200 OK" "" (Ok target_device)), w)
  | AKube KNow => Some ("2026-01-01T00:00:00Z", w)
  | AMem o => match mem_exec i o w.1 with Some (r, m) => Some (r, (m, w.2)) | None => None end
  | Go _ _ => Some (tt, w)
  | CtxDone | Tick => Some (false, w)
  end.

Lemma live_run_ok i o w r w' : live_run i o w = Some (r, w') → live_sem abc_env i o w r w'.
Proof.
  destruct w as [m s], w' as [m' s'], o as [[]|[]|o| | |]; cbn; intros H; simplify_eq; try done.
  - destruct (fs_exec NoFault o s) eqn:E. simplify_eq. split; [|done]. by exists NoFault.
  - destruct (0 <? n) eqn:E; simplify_eq. split; [|done]. split; [|done]. lia.
  - destruct (mem_exec i o m) as [[r0 m0]|] eqn:E; [|done]. by injection H as <- <- <-.
Qed.

(** The scheduler runs the goroutines in the order listed. *)
Fixpoint play (a : agent) (schedule : list nat) (l : live) : option live :=
  match schedule with
  | [] => Some l
  | i :: rest =>
      match threads l !! i with
      | Some (mkThread r (Act o k)) =>
          match live_run i o (memo l, disk l) with
          | Some (ans, w') =>
              play a rest (mkLive w'.1 w'.2
                (<[i := mkThread r (k ans)]> (threads l) ++ started a o))
          | None => None
          end
      | Some (mkThread ((Poll | Beat) as r) (Ret true)) =>
          play a rest (mkLive (memo l) (disk l) (<[i := spawn a r]> (threads l)))
      | _ => None
      end
  end.

Lemma play_steps a schedule l l' :
  play a schedule l = Some l' → rtc (step a abc_env) (Live l) (Live l').
Proof.
  revert l. induction schedule as [|i rest IH]; intros l; simpl; [by intros [= ->]|].
  destruct (threads l !! i) as [[r [b|o k]]|] eqn:Hi; [| |done].
  - destruct b; [|by destruct r]. intros H.
    assert ((r = Poll ∨ r = Beat) ∧ play a rest
      (mkLive (memo l) (disk l) (<[i := spawn a r]> (threads l))) = Some l') as [Hr H']
      by (destruct r; auto; done).
    eapply rtc_l; [by apply step_turn|]. by apply IH.
  - destruct (live_run i o (memo l, disk l)) as [[ans w']|] eqn:E; [|by destruct r]. intros H.
    eapply rtc_l; [eapply step_thread; [done|]; by apply live_run_ok|].
    apply IH. by destruct r.
Qed.

Lemma boot_steps a env p s p' s' :
  rtc (pstep (Sem0 := fs_sem (faults env))) (p, s) (p', s') →
  rtc (step a env) (Booting p s) (Booting p' s').
Proof.
  intros H. remember (p, s) as c eqn:Ec. remember (p', s') as c' eqn:Ec'.
  revert p s Ec. induction H as [c|c1 [p2 s2] c3 H1 _ IH]; intros p s ->.
  - by simplify_eq.
  - eapply rtc_l; [by apply step_boot|]. by apply IH.
Qed.

Definition booted_live : live :=
  mkLive new_memory factory_fs [spawn demo_agent Poll; spawn demo_agent Beat].

Lemma factory_boots : rtc (step demo_agent abc_env) (Booting power_on factory_fs) (Live booted_live).
Proof.
  eapply rtc_r; [|by apply step_booted]. apply boot_steps.
  apply (run_steps (Sem0 := fs_sem fault_free) fs_run); [apply fs_run_handles|].
  apply (bool_decide_unpack _). vm_compute. exact I.
Qed.

(** The poll loop starts an upgrade, and the upgrade runs up to its self-check. *)
Definition demo_schedule : list nat := replicate 15 0%nat ++ replicate 40 2%nat.

Definition in_flight : live := default booted_live (play demo_agent demo_schedule booted_live).

Lemma played a schedule l :
  bool_decide (is_Some (play a schedule l)) = true →
  rtc (step a abc_env) (Live l) (Live (default l (play a schedule l))).
Proof.
  intros [l' E]%bool_decide_eq_true. rewrite E. exact (play_steps a schedule l l' E).
Qed.

Lemma in_flight_reached :
  rtc (step demo_agent abc_env) (Booting power_on factory_fs) (Live in_flight).
Proof. etrans; [apply factory_boots|]. apply played. vm_compute. reflexivity. Qed.

(** The same run, up to the copy of the image into the idle slot. *)
Definition copying : live :=
  default booted_live (play demo_agent (replicate 15 0%nat ++ replicate 21 2%nat) booted_live).

Lemma copying_reached :
  rtc (step demo_agent abc_env) (Booting power_on factory_fs) (Live copying).
Proof. etrans; [apply factory_boots|]. apply played. vm_compute. reflexivity. Qed.

Definition under_way (l : live) i : option fsop :=
  match threads l !! i with
  | Some (mkThread _ (Act (ADl (DFs o)) _)) => Some o
  | _ => None
  end.

Lemma under_way_about l i o : under_way l i = Some o → about_to (Live l) o.
Proof.
  unfold under_way. destruct (threads l !! i) as [[r [|[[]| | | | |] k]]|] eqn:E; try done.
  intros [= <-]. by eapply thread_to.
Qed.

(** ** Properties *)

(** C1. No interleaving and no power failure bricks the device.  Let any system call
    that writes fail, with or without a partial effect, except the writes of the two
    markers of a slot, and let reads succeed.  From any directory with a confirmed
    slot, through any number of polls, heartbeats, upgrades, reboots, and power
    failures at any instant - between two system calls, or in the middle of any one,
    a copy or a marker's write included, which leaves a part of its data - and
    whatever the network and the API server answer, some slot is confirmed; and
    whenever no upgrade is in flight, the running slot is confirmed and the state
    machine is at rest.  That a marker's write does not fail is needed: the finding
    [upgrade_after_failed_seal_bricks] starts from a failed [Confirm]. *)
Theorem device_never_bricks a env s0 d0 c :
  (∀ o f, is_read o = true ∨ commits o = true → faults env o f → f = NoFault) →
  rep s0 d0 → recoverable d0 → tidy d0 →
  rtc (step a env) (Booting power_on s0) c →
  (∃ d, rep (disk_of c) d ∧ recoverable d) ∧
  (∀ l, c = Live l → upgrading (memo l) = false →
     at_rest (state (fsm (memo l))) ∧ ∃ d, rep (disk l) d ∧ confirmed d (active d) = true).
Proof.
  intros Hok Hs Hr Ht Hc.
  pose proof (settled_reachable a env Hok s0 d0 c Hs (conj Hr Ht) Hc) as Hm. split.
  - destruct (minv_crashed env goodw restw restw_good c Hm) as (st & d & Hd & [? _]). by exists d.
  - intros l -> Hu. destruct Hm as [γ Hinv].
    destruct (inv_rest _ _ _ _ _ Hinv) as [Hst (d & Hd & [Hcf _])]; [|by split; [|exists d]].
    by apply (nobody_owns env goodw restw l γ).
Qed.

(** The image is being copied into slot B, and power fails after two of its bytes. *)
Lemma device_never_bricks_witness :
  let s := (fs_exec (Partial 2) (ReadFrom ["slotB"; firmwareFile] [staging_name abc_sum])
              (disk copying)).2 in
  upgrading (memo copying) = true ∧ s !! ["slotB"; firmwareFile] = Some (File "ab") ∧
  ∃ d, rep (disk_of (Booting power_on s)) d ∧ recoverable d.
Proof.
  intros s. split; [vm_compute; reflexivity|]. split; [vm_compute; reflexivity|].
  refine (proj1 (device_never_bricks demo_agent abc_env factory_fs factory (Booting power_on s) _ _ _ _ _)).
  - done.
  - apply factory_rep.
  - by exists SlotA.
  - apply factory_settled.
  - eapply rtc_r; [exact copying_reached|]. apply step_power. right.
    exists (ReadFrom ["slotB"; firmwareFile] [staging_name abc_sum]), (Partial 2).
    split; [|change (disk_of (Live copying)) with (disk copying); reflexivity].
    apply (under_way_about copying 2). vm_compute. reflexivity.
Defined.

(** C9. One transaction at a time.  In every reachable state of the goroutines,
    under any faults: two goroutines are never both about to write the directory
    or move the state machine; the fields the mutex guards are accessed only by
    its holder; and the holder of the mutex is always at a memory access it can
    perform, so the mutex is never held across I/O and never deadlocks. *)
Theorem single_flight a env s0 l :
  rtc (step a env) (Booting power_on s0) (Live l) →
  (∀ i j ri rj oi oj ki kj,
     threads l !! i = Some (mkThread ri (Act oi ki)) →
     threads l !! j = Some (mkThread rj (Act oj kj)) →
     is_write oi = true → is_write oj = true → i = j) ∧
  (∀ i r o k, threads l !! i = Some (mkThread r (Act o k)) →
     guarded o = true → mu (memo l) = Some i) ∧
  (∀ i, mu (memo l) = Some i → ∃ r o k ans w',
     threads l !! i = Some (mkThread r (Act o k)) ∧ is_mem o = true ∧
     live_sem env i o (memo l, disk l) ans w').
Proof.
  intros [γ Hinv]%disciplined_reachable. split; [|split].
  - intros i j ri rj oi oj ki kj Hi Hj Hwi Hwj. apply (inv_one _ _ _ _ _ Hinv).
    + apply (inv_obeys _ _ _ _ _ Hinv) in Hi. by apply Hi.
    + apply (inv_obeys _ _ _ _ _ Hinv) in Hj. by apply Hj.
  - intros i r o k Hi Hg. apply (inv_mu _ _ _ _ _ Hinv).
    apply (inv_obeys _ _ _ _ _ Hinv) in Hi. by apply Hi.
  - intros i Hmu. pose proof Hmu as Hh. apply (inv_mu _ _ _ _ _ Hinv) in Hh.
    destruct (threads l !! i) as [[r [b|o k]]|] eqn:Hi.
    + apply (inv_obeys _ _ _ _ _ Hinv) in Hi. cbn in Hi. unfold ends_with in Hi. by rewrite Hi in Hh.
    + pose proof (inv_obeys _ _ _ _ _ Hinv _ _ Hi) as [(_ & _ & Ha & _) _].
      destruct (Ha Hh) as (Hm & Hnl & Hw). exists r, o, k.
      destruct o as [| |o| | |]; try done.
      destruct o; try done; eexists _, (_, _); split_and!; try done; cbn; split; try done.
      by rewrite Hmu.
    + apply (inv_idle _ _ _ _ _ Hinv) in Hi. by rewrite Hi in Hh.
Qed.

Lemma single_flight_witness :
  length (threads in_flight) = 3%nat ∧
  (∀ i j ri rj oi oj ki kj,
    threads in_flight !! i = Some (mkThread ri (Act oi ki)) →
    threads in_flight !! j = Some (mkThread rj (Act oj kj)) →
    is_write oi = true → is_write oj = true → i = j).
Proof.
  split; [vm_compute; reflexivity|].
  exact (proj1 (single_flight demo_agent abc_env factory_fs in_flight in_flight_reached)).
Defined.
