(* ===== verification/AgentSpec.v ===== *)
(** * What the agent decides and what it reports

    When [evaluate] starts an upgrade, which fields of the status the agent's
    reports can change, and the consequences of how a target is remembered and
    compared. *)

From S2P Require Import Prelude GoLib Fsm Sha256 Os Download Slot SlotLogic SlotSpec Boot Kube Agent AgentLogic Upgrade System.
Open Scope Z_scope.

Implicit Types (s : fs) (d : device) (m : memory).

(** ** When an upgrade starts *)

(** The version file of the running slot, as [ActiveVersion] reads it. *)
Definition running_version d : string :=
  TrimSpace (default "" (slots d (active d) !! versionFile)).

Definition lock_free m : Prop := mu m = None.

Section gate.
Context (a : agent) (env : dl_env).
Context (HP : ∀ o f, is_read o = true → faults env o f → f = NoFault).
Local Instance Lsem : Sem agS (memory * fs) := live_sem env 0.

(** What must hold where [evaluate] starts an upgrade for [dev]. *)
Definition may_start (dev : Kube.Device) m0 d (o : act agS) (w : memory * fs) : Prop :=
  match o with
  | Go spec gen =>
  spec = Spec dev ∧ gen = Generation (Metadata dev) ∧
  RolloutPaused spec = false ∧ DesiredFirmwareVersion spec ≠ running_version d ∧
  lastFailedKey m0 ≠ target_key spec ∧ upgrading m0 = false ∧
  upgrading w.1 = true ∧ mu w.1 = None
  | _ => True
  end.

Lemma never_starts {A} b (p : prog agS A) dev m0 d w :
  calls_only (free_for b) p → each (may_start dev m0 d) p w.
Proof. intros H. apply each_calls_only. eapply calls_only_mono; [|done]. by intros []. Qed.

(** Reading the running version. *)
Lemma read_version d s m (Q : string → memory * fs → Prop) :
  rep s d → Q (running_version d) (m, s) → wp (onfs ActiveVersion) Q (m, s).
Proof.
  intros Hs HQ.
  assert (dwp (faults env) ActiveVersion (λ d', d' = d) (λ v d', d' = d ∧ v = running_version d) d) as H.
  { apply dwp_bind, (dwp_Active _ HP); [done|]. apply dwp_bind, (dwp_read _ HP); [done|].
  unfold file_result, running_version.
  destruct (slots d (active d) !! versionFile); by apply dwp_ret. }
  assert (calls_only (λ o : act fsS, is_read o = true) ActiveVersion) as Hr by by_cases.
  specialize (H s Hs).
  assert (wpi (Sem0 := fs_sem (faults env)) ActiveVersion always
  (λ v s', s' = s ∧ v = running_version d) s) as Hv.
  { revert H Hr. clear -Hs HP. generalize (ActiveVersion). intros p.
  assert (∀ s', s' = s → wpi (Sem0 := fs_sem (faults env)) p (holds (λ d', d' = d))
  (λ v s', ∃ d', rep s' d' ∧ d' = d ∧ v = running_version d) s' →
  calls_only (λ o : act fsS, is_read o = true) p →
  wpi (Sem0 := fs_sem (faults env)) p always (λ v s', s' = s ∧ v = running_version d) s') as H;
  [|by apply H].
  induction p as [v|o k IH]; intros s' -> [_ H] Hr.
  - split; [done|]. by destruct H as (d' & _ & _ & ->).
  - split; [done|]. intros r s' Hst. destruct Hr as [Ho Hk]. apply IH; [|by apply H|apply Hk].
  destruct Hst as (f & _ & E). by rewrite <-(read_pure f o s Ho), E. }
  eapply wpi_mono; [eapply (wpi_lift snd (λ w w', w'.1 = w.1) _ _ _ _ (m, s) (m, s)); [done|exact Hv]|done|].
  intros v [m' s'] _ [E [E2 ->]]. cbn in E, E2. by subst.
  Unshelve.
  - split; [done|]. intros x y z. congruence.
  - intros o w r w' [Hs1 Hf]. by split.
Qed.

(** One access to the memory, with its only possible answer. *)
Ltac access := split; [done|]; let Hst := fresh in intros ? [? ?] Hst; cbn in Hst;
  destruct Hst; simplify_eq; cbn [bind].

Lemma startUpgrade_gate dev m0 m s d :
  mu m = None → upgrading m0 = upgrading m → RolloutPaused (Spec dev) = false →
  DesiredFirmwareVersion (Spec dev) ≠ running_version d →
  lastFailedKey m0 ≠ target_key (Spec dev) →
  each (may_start dev m0 d) (startUpgrade dev) (m, s).
Proof.
  intros Hmu Hu Hp Hv Hk. destruct m as [h u key gen f l]. cbn in Hmu, Hu. subst h.
  destruct u; access; access; [by repeat split|]. access. access. split; [|by intros]. repeat split; done.
Qed.

Lemma evaluate_gate dev m s d :
  rep s d → mu m = None → each (may_start dev m d) (evaluate a dev) (m, s).
Proof.
  intros Hs Hmu. destruct m as [h u key gen f l]. cbn in Hmu. subst h. access.
  apply each_bind; [apply (never_starts false), reads_free; by_cases|].
  apply (read_version d); [done|]. case_decide as Hv.
  { apply (never_starts false), calls_only_bind; [apply reads_free; by_cases|].
  intros slot. cbv zeta. case_match; [done|]. apply report_free. by intros. }
  destruct (RolloutPaused (Spec dev)) eqn:Hp; [done|].
  access. access. access. case_decide as Hk; [done|].
  by apply startUpgrade_gate.
Qed.
End gate.

(** ** Runs of composed programs *)

Lemma rtc_bind {S : sig} {W A B} `{!Sem S W} (p p' : prog S A) (f : A → prog S B) w w' :
  rtc pstep (p, w) (p', w') → rtc pstep (bind p f, w) (bind p' f, w').
Proof.
  intros H. remember (p, w) as c eqn:Ec. remember (p', w') as c' eqn:Ec'.
  revert p w Ec. induction H as [c|c1 [p2 w2] c3 H1 _ IH]; intros p w ->.
  - by simplify_eq.
  - eapply rtc_l; [|by apply IH]. destruct p as [x|o k]; [done|].
    destruct H1 as (r & Hs & E). cbn in E. subst p2. by exists r.
Qed.

Section starts.
Context (a : agent) (env : dl_env).
Context (HP : ∀ o f, is_read o = true → faults env o f ↔ f = NoFault).
Local Instance Lsem' : Sem agS (memory * fs) := live_sem env 0.

Lemma read_step (o : fsop) (r : fsres o) d s m (k : fsres o → prog agS string) c :
  answers (faults env) o d r → rep s d → is_read o = true →
  rtc pstep (k r, (m, s)) c → rtc pstep (Act (ADl (DFs o) : act agS) k, (m, s)) c.
Proof.
  intros Ha Hs Hr Hk. eapply act_step; [|exact Hk]. split; [|done]. exists NoFault.
  assert (faults env o NoFault) by by apply HP. split; [done|]. by apply Ha.
Qed.

Lemma read_version_run d s m :
  rep s d → rtc pstep (onfs ActiveVersion, (m, s)) (Ret (running_version d), (m, s)).
Proof.
  intros Hs. assert (∀ o f, is_read o = true → faults env o f → f = NoFault) as HP'
  by (intros o f Ho; by apply HP).
  eapply (read_step _ _ d); [apply (answers_readlink _ HP')|done|done|].
  cbn [back fs_ag lift bind]. rewrite active_name.
  eapply (read_step _ _ d); [apply (answers_readfile _ HP')|done|done|].
  cbn [back fs_ag]. unfold file_result, running_version.
  by destruct (slots d (active d) !! versionFile).
Qed.

Lemma evaluate_starts dev m s d :
  rep s d → mu m = None → upgrading m = false → RolloutPaused (Spec dev) = false →
  DesiredFirmwareVersion (Spec dev) ≠ running_version d → lastFailedKey m ≠ target_key (Spec dev) →
  ∃ m' k, rtc pstep (evaluate a dev, (m, s))
  (Act (Go (Spec dev) (Generation (Metadata dev)) : act agS) k, (m', s)).
Proof.
  intros Hs Hmu Hu Hp Hv Hk. destruct m as [h u key gen f l]. cbn in Hmu, Hu, Hk. subst h u.
  eexists _, Ret. eapply (act_step _ _ _ _ (_, _)); [split; reflexivity|].
  cbn [bind]. etrans; [by apply rtc_bind, (read_version_run d)|].
  cbn [bind]. rewrite decide_False, Hp by done.
  do 3 (eapply (act_step _ _ _ _ (_, _)); [split; reflexivity|]). cbn [bind]. rewrite decide_False by done.
  do 4 (eapply (act_step _ _ _ _ (_, _)); [split; reflexivity|]). reflexivity.
Qed.
End starts.

(** ** Reports *)

(** The five status reports of the agent. *)
Inductive report : (DeviceStatus → Z → prog agS DeviceStatus) → Prop :=
  | report_beat : report beat
  | report_failed reason msg : report (mark_failed reason msg)
  | report_started version : report (mark_started version)
  | report_upgraded version slot : report (mark_upgraded version slot)
  | report_synced current slot : report (mark_synced current slot).

(** What a report leaves of a status: the operator's fields are untouched. *)
Record own_fields (st st' : DeviceStatus) : Prop := {
    own_phase : Phase st' = Phase st;
    own_conditions ty : ty ≠ CondFirmwareSynced →
      find_condition (Conditions st') ty = find_condition (Conditions st) ty;
  }.

Lemma report_own mutate st gen st' :
  report mutate → may_return (mutate st gen) st' → own_fields st st'.
Proof.
  intros [] [now <-]; (split; [done|]); [done|..]; intros ty Hty; cbn; by apply find_set_other.
Qed.

(** ** Concrete runs *)

(** The poll loop on the shipped device, stopped where it starts an upgrade. *)
Definition stop_at_go (o : act agS) (w : memory * fs) : option (res o * (memory * fs)) :=
  match o with Go _ _ => None | _ => live_run 0 o w end.

Lemma stop_at_go_handles : handles (Sem0 := live_sem abc_env 0) stop_at_go.
Proof.
  intros o w r w' H. apply live_run_ok. destruct o; try exact H. done.
Qed.

Definition first_poll : prog agS unit * (memory * fs) :=
  drive stop_at_go (evaluate demo_agent target_device) (new_memory, factory_fs).

Definition starts_now {A} (p : prog agS A) : bool :=
  match p with Act (Go _ _) _ => true | _ => false end.

(** The calls that fail, and where power is lost. *)
Definition faulty_run (fails : fsop → bool) (stop : fsop → bool) (o : act agS) (w : State * fs) :
    option (res o * (State * fs)) :=
  match o return option (agres o * (State * fs)) with
  | ADl (DFs f) =>
      if stop f then None
      else let (r, s) := fs_exec (if fails f then Fails else NoFault) f w.2 in Some (r, (w.1, s))
  | o => job_run o w
  end.

Definition flaky_env : dl_env :=
  Build_dl_env write_faults (λ _ _ r, r = Ok abc_response) (λ _, true) False.

Lemma faulty_run_handles fails stop :
  (∀ f, fails f = true → is_read f = false) →
  handles (Sem0 := job_sem flaky_env) (faulty_run fails stop).
Proof.
  intros Hf o [st s] r w' H. destruct o as [[f| | | | |]| | | | |];
    try (exact (job_run_handles _ _ _ _ H)).
  cbn in H. destruct (stop f); [done|].
  destruct (fs_exec _ f s) eqn:E. injection H as <- <-. split; [|done].
  exists (if fails f then Fails else NoFault). split; [|done].
  intros Hr. destruct (fails f) eqn:Ef; [|done]. apply Hf in Ef. congruence.
Qed.

Definition never : fsop → bool := λ _, false.

(** Creating the file that seals slot B fails once. *)
Definition seal_fails (o : fsop) : bool :=
  match o with
  | WriteFile p _ => bool_decide (p = Join (slotDir "B") confirmedMarker)
  | _ => false
  end.

(** Power is lost before the image is written into slot A. *)
Definition power_lost (o : fsop) : bool :=
  match o with Create p => bool_decide (p = Join (slotDir "A") firmwareFile) | _ => false end.

Definition next_spec : DeviceSpec := mkDeviceSpec "3.0.0" "http://fw/next.bin" abc_sum "" ∅ false.

Definition unsealed : prog agS unit * (State * fs) :=
  drive (faulty_run seal_fails never) (runUpgrade demo_agent abc_spec 1) (StateIdle, factory_fs).

Definition bricked : prog agS unit * (State * fs) :=
  drive (faulty_run never power_lost) (runUpgrade demo_agent next_spec 2) unsealed.2.

(** Neither slot carries the marker of a confirmed image. *)
Definition nothing_confirmed s : bool :=
  bool_decide (s !! Join (slotDir "A") confirmedMarker = None ∧
               s !! Join (slotDir "B") confirmedMarker = None).

Lemma nothing_confirmed_spec s d : nothing_confirmed s = true → rep s d → ¬ recoverable d.
Proof.
  intros [HA HB]%bool_decide_eq_true Hs [x Hx]. unfold confirmed in Hx.
  apply bool_decide_eq_true in Hx as [b Hb].
  pose proof (rep_files _ _ Hs x confirmedMarker) as H. rewrite Hb in H. cbn [fmap option_fmap option_map] in H.
  destruct x; cbn [slot_name] in H; congruence.
Qed.

Lemma bricks_by (u b : prog agS unit * (State * fs)) :
  rtc (pstep (Sem0 := job_sem flaky_env)) (runUpgrade demo_agent abc_spec 1, (StateIdle, factory_fs)) u →
  rtc (pstep (Sem0 := job_sem flaky_env)) (runUpgrade demo_agent next_spec 2, u.2) b →
  bool_decide (u.2.1 = StateFailed) && match u.1 with Ret _ => true | _ => false end &&
    nothing_confirmed b.2.2 = true →
  ∃ s1 p2 st2 s2,
    rtc (pstep (Sem0 := job_sem flaky_env)) (runUpgrade demo_agent abc_spec 1, (StateIdle, factory_fs))
      (Ret tt, (StateFailed, s1)) ∧
    rtc (pstep (Sem0 := job_sem flaky_env)) (runUpgrade demo_agent next_spec 2, (StateFailed, s1))
      (p2, (st2, s2)) ∧
    ∀ d, rep s2 d → ¬ recoverable d.
Proof.
  destruct u as [[[]|o k] [st1 s1]], b as [p2 [st2 s2]]; cbn [fst snd]; intros H1 H2 H; [|].
  - apply andb_prop in H as [[E%bool_decide_eq_true _]%andb_prop H3]. subst st1.
    exists s1, p2, st2, s2. split_and!; [done|done|]. intros d. by apply nothing_confirmed_spec.
  - by rewrite andb_false_r in H.
Qed.

(** While an upgrade is in its trial boot, a poll runs up to its status write. *)
Definition reporting : live := default in_flight (play demo_agent (replicate 14 0%nat) in_flight).

Definition written_status (p : prog agS bool) : option DeviceStatus :=
  match p with
  | Act (AKube (KDo r)) _ => Kube.Status <$> Payload r
  | _ => None
  end.

(** What goroutine [i] is about to write to the API server. *)
Definition pending_report (l : live) (i : nat) : option DeviceStatus :=
  th ← threads l !! i; written_status (code th).

Lemma reporting_reached :
  rtc (step demo_agent abc_env) (Booting power_on factory_fs) (Live reporting).
Proof. etrans; [apply in_flight_reached|]. apply played. vm_compute. reflexivity. Qed.

(** The report claims the new firmware while slot B runs unconfirmed. *)
Definition early_report (l : live) : bool :=
  match pending_report l 0 with
  | Some st => bool_decide (CurrentFirmwareVersion st = "2.0.0" ∧
      (Status' <$> find_condition (Conditions st) CondFirmwareSynced) = Some CondTrue ∧
      disk l !! currentPath = Some (Link "slotB") ∧
      disk l !! Join (slotDir "B") confirmedMarker = None)
  | None => false
  end.

Lemma early_report_ok l :
  rtc (step demo_agent abc_env) (Booting power_on factory_fs) (Live l) → early_report l = true →
  ∃ l st c,
    rtc (step demo_agent abc_env) (Booting power_on factory_fs) (Live l) ∧
    pending_report l 0 = Some st ∧
    find_condition (Conditions st) CondFirmwareSynced = Some c ∧ Status' c = CondTrue ∧
    CurrentFirmwareVersion st = "2.0.0" ∧
    (∀ d, rep (disk l) d → active d = SlotB ∧ confirmed d SlotB = false).
Proof.
  unfold early_report. intros Hl H. destruct (pending_report l 0) as [st|] eqn:Est; [|done].
  apply bool_decide_eq_true in H as (Hv & Hc & Hcur & Hconf).
  destruct (find_condition (Conditions st) CondFirmwareSynced) as [c|] eqn:Ec; [|done].
  injection Hc as Hc. exists l, st, c. split_and!; try done.
  intros d Hs. rewrite (rep_current _ _ Hs) in Hcur.
  split; [by destruct (active d)|]. pose proof (rep_files _ _ Hs SlotB confirmedMarker) as Hf.
  unfold confirmed. cbn [slot_name] in Hf. rewrite Hconf in Hf.
  by destruct (slots d SlotB !! confirmedMarker).
Qed.

(** ** Properties *)

(** C37. The gate of an upgrade.  Whatever writes fail, [evaluate] starts an
    upgrade only for the spec it was given, when that spec is not paused, its
    version differs from the running one, its target is not the one that failed
    last, and no upgrade is in flight; and when it does, the flag is already up
    and the mutex released. *)
Theorem upgrade_gate a env dev m s d spec gen k m' s' :
  (∀ o f, is_read o = true → faults env o f → f = NoFault) →
  rep s d → mu m = None →
  rtc (pstep (Sem0 := live_sem env 0)) (evaluate a dev, (m, s)) (Act (Go spec gen : act agS) k, (m', s')) →
  spec = Spec dev ∧ gen = Generation (Metadata dev) ∧
  RolloutPaused spec = false ∧ DesiredFirmwareVersion spec ≠ running_version d ∧
  lastFailedKey m ≠ target_key spec ∧ upgrading m = false ∧
  upgrading m' = true ∧ mu m' = None.
Proof.
  intros HP Hs Hmu Hsteps.
  exact (each_steps _ _ _ _ _ _ (evaluate_gate a env HP dev m s d Hs Hmu) Hsteps).
Qed.

Lemma upgrade_gate_witness :
  match first_poll with
  | (Act (Go spec gen) _, (m', _)) =>
      spec = abc_spec ∧ DesiredFirmwareVersion spec ≠ running_version factory ∧ upgrading m' = true
  | _ => False
  end.
Proof.
  pose proof (drive_steps (Sem0 := live_sem abc_env 0) stop_at_go
    (evaluate demo_agent target_device) (new_memory, factory_fs) stop_at_go_handles) as Hs.
  fold first_poll in Hs. assert (starts_now first_poll.1 = true) as Hgo by (vm_compute; reflexivity).
  destruct first_poll as [[b|[| | |spec gen| |] k] [m' s']]; try done.
  destruct (upgrade_gate demo_agent abc_env target_device new_memory factory_fs factory
    spec gen k m' s') as (E & _ & _ & Hv & _ & _ & Hu & _); [done|apply factory_rep|done|exact Hs|].
  by split.
Defined.

(** C38. And the gate opens: when system calls do not fail and the conditions
    hold, [evaluate] does start the upgrade. *)
Theorem upgrade_starts a env dev m s d :
  (∀ o f, faults env o f ↔ f = NoFault) →
  rep s d → mu m = None → upgrading m = false → RolloutPaused (Spec dev) = false →
  DesiredFirmwareVersion (Spec dev) ≠ running_version d → lastFailedKey m ≠ target_key (Spec dev) →
  ∃ m' k, rtc (pstep (Sem0 := live_sem env 0)) (evaluate a dev, (m, s))
    (Act (Go (Spec dev) (Generation (Metadata dev)) : act agS) k, (m', s)).
Proof. intros HP. apply evaluate_starts. auto. Qed.

Lemma upgrade_starts_witness :
  ∃ m' k, rtc (pstep (Sem0 := live_sem abc_env 0))
    (evaluate demo_agent target_device, (new_memory, factory_fs))
    (Act (Go abc_spec 3 : act agS) k, (m', factory_fs)).
Proof.
  apply (upgrade_starts demo_agent abc_env target_device new_memory factory_fs factory); try done.
  apply factory_rep.
Defined.

(** C39. The agent writes its own fields only.  Every status report, against
    whatever object it is applied to, keeps metadata and spec, the operator's
    phase, and every condition but [FirmwareSynced]; it only reads the clock and
    the generation counter, and stamps the generation it read. *)
Theorem reports_own_fields mutate dev dev' :
  report mutate →
  calls_only (λ o : act agS, o = AMem LoadGen ∨ o = AKube KNow) (mutation mutate dev) ∧
  (may_return (mutation mutate dev) dev' →
   Metadata dev' = Metadata dev ∧ Spec dev' = Spec dev ∧
   Phase (Kube.Status dev') = Phase (Kube.Status dev) ∧
   ∀ ty, ty ≠ CondFirmwareSynced →
     find_condition (Conditions (Kube.Status dev')) ty
     = find_condition (Conditions (Kube.Status dev)) ty).
Proof.
  intros Hr. split.
  - apply calls_only_bind; [by split; [left|]|]. intros gen. apply calls_only_bind; [|done].
    destruct Hr; (split; [by right|done]).
  - intros [gen Hret]. cbn in Hret.
    assert (∃ st, may_return (mutate (Kube.Status dev) gen) st ∧ dev' = with_status dev
      (mkDeviceStatus (Phase st) (Conditions st) (CurrentFirmwareVersion st) (ActiveSlot st)
         (LastHeartbeat st) gen)) as (st & Hst & ->).
    { destruct Hr; cbn in Hret; destruct Hret as [now <-]; eexists;
        (split; [exists now; reflexivity|reflexivity]). }
    destruct (report_own _ _ _ _ Hr Hst) as [Hp Hc]. by split_and!.
Qed.

Lemma reports_own_fields_witness :
  find_condition (Conditions (Kube.Status (with_status target_device
    (mkDeviceStatus "" [mkCondition "FirmwareSynced" "False" 3 "t" "DownloadFailed" "reset"]
       "factory" "A" "" 3)))) "Healthy" = None.
Proof.
  refine (proj2 (proj2 (proj2 (proj2 (reports_own_fields (mark_failed "DownloadFailed" "reset")
    target_device (with_status target_device _) _) _))) "Healthy" _).
  - constructor.
  - exists 3, "t". reflexivity.
  - done.
Defined.

(** Finding. A version padded with white space never converges: the version file is
    read back trimmed and compared with the untrimmed text of the spec, so after a
    successful upgrade to it the next [evaluate] starts the same upgrade again. *)
Theorem padded_version_never_converges a env dev m s d d' :
  (∀ o f, faults env o f ↔ f = NoFault) →
  TrimSpace (DesiredFirmwareVersion (Spec dev)) ≠ DesiredFirmwareVersion (Spec dev) →
  rep s d' → installed d d' (DesiredFirmwareVersion (Spec dev)) (ChecksumSHA256 (Spec dev)) →
  mu m = None → upgrading m = false → RolloutPaused (Spec dev) = false →
  lastFailedKey m ≠ target_key (Spec dev) →
  ∃ m' k, rtc (pstep (Sem0 := live_sem env 0)) (evaluate a dev, (m, s))
    (Act (Go (Spec dev) (Generation (Metadata dev)) : act agS) k, (m', s)).
Proof.
  intros HP Htrim Hs Hin Hmu Hu Hp Hk. apply (evaluate_starts a env) with (d := d'); auto.
  unfold running_version. rewrite (installed_version _ _ _ _ Hin).
  intros E. apply Htrim. symmetry. exact E.
Qed.

Definition padded_device : Kube.Device :=
  mkDevice "" "" (mkObjectMeta "edge-001" "default" "7" 3 "uid-1")
    (mkDeviceSpec "2.0.0 " "http://fw/abc.bin" abc_sum "" ∅ false)
    (mkDeviceStatus "" [] "2.0.0" "B" "" 3).

Lemma padded_version_never_converges_witness :
  let files := [(confirmedMarker, ""); (versionFile, "2.0.0 "); (firmwareFile, "abc")] in
  ∃ m' k, rtc (pstep (Sem0 := live_sem abc_env 0))
    (evaluate demo_agent padded_device,
       (new_memory, <[currentPath := Link "slotB"]> (fill_fs SlotB files factory_fs)))
    (Act (Go (Spec padded_device) 3 : act agS) k,
       (m', <[currentPath := Link "slotB"]> (fill_fs SlotB files factory_fs))).
Proof.
  intros files.
  apply (padded_version_never_converges demo_agent abc_env padded_device new_memory _ factory
    (flip (fill SlotB files factory) SlotB)); try done.
  - apply (rep_flip _ _ SlotB), fill_rep, factory_rep.
  - split; [done..|]. exists "abc". split; [done|]. vm_compute. reflexivity.
Defined.

(** Finding. A failed target is remembered by version and checksum only: a spec that
    changes nothing but the URL (a mirror that works, say) is not attempted. *)
Theorem failed_target_ignores_url a env dev m s d failed spec gen k w' :
  (∀ o f, is_read o = true → faults env o f → f = NoFault) →
  rep s d → mu m = None → lastFailedKey m = target_key failed →
  DesiredFirmwareVersion (Spec dev) = DesiredFirmwareVersion failed →
  ChecksumSHA256 (Spec dev) = ChecksumSHA256 failed →
  ¬ rtc (pstep (Sem0 := live_sem env 0)) (evaluate a dev, (m, s)) (Act (Go spec gen : act agS) k, w').
Proof.
  intros HP Hs Hmu Hk Hv Hc Hsteps. destruct w' as [m' s'].
  destruct (each_steps _ _ _ _ _ _ (evaluate_gate a env HP dev m s d Hs Hmu) Hsteps)
    as (-> & _ & _ & _ & Hne & _).
  apply Hne. unfold target_key in *. congruence.
Qed.

Definition after_failure : memory :=
  mkMemory None false (target_key abc_spec) 2 (mkFSM StateFailed (Some record)) [].

Definition mirror_device : Kube.Device :=
  mkDevice "" "" (mkObjectMeta "edge-001" "default" "8" 3 "uid-1")
    (mkDeviceSpec "2.0.0" "http://mirror/abc.bin" abc_sum "" ∅ false)
    (mkDeviceStatus "" [] "factory" "A" "" 2).

Lemma failed_target_ignores_url_witness :
  FirmwareURL (Spec mirror_device) ≠ FirmwareURL abc_spec ∧
  ¬ rtc (pstep (Sem0 := live_sem abc_env 0))
      (evaluate demo_agent mirror_device, (after_failure, factory_fs))
      (Act (Go (Spec mirror_device) 3 : act agS) Ret, (after_failure, factory_fs)).
Proof.
  split; [done|].
  apply (failed_target_ignores_url demo_agent abc_env mirror_device after_failure factory_fs factory
    abc_spec); try done. apply factory_rep.
Defined.

(** Finding. An upgrade whose slot could not be sealed must not be followed by
    another: from the shipped device, one failed write of the confirmed marker
    ends the first upgrade in [Failed] on an unconfirmed slot, the next upgrade
    stages over the only confirmed slot, and a power failure there leaves a device
    on which no slot is confirmed. *)
Theorem upgrade_after_failed_seal_bricks :
  ∃ s1 p2 st2 s2,
    rtc (pstep (Sem0 := job_sem flaky_env)) (runUpgrade demo_agent abc_spec 1, (StateIdle, factory_fs))
      (Ret tt, (StateFailed, s1)) ∧
    rtc (pstep (Sem0 := job_sem flaky_env)) (runUpgrade demo_agent next_spec 2, (StateFailed, s1))
      (p2, (st2, s2)) ∧
    ∀ d, rep s2 d → ¬ recoverable d.
Proof.
  apply (bricks_by unsealed bricked); [| |vm_compute; reflexivity].
  - unfold unsealed. apply (drive_steps (Sem0 := job_sem flaky_env)), faulty_run_handles. by intros [].
  - unfold bricked. generalize unsealed.2. intros w.
    apply (drive_steps (Sem0 := job_sem flaky_env)), faulty_run_handles. by intros [].
Qed.

(** Finding. A trial is reported as done.  There is a run, without any fault, in which
    a poll during the trial boot of an upgrade is about to write "Synced" and the
    new version as the current one, while the slot it runs is not confirmed (its
    self-check has not finished, and may still roll the device back). *)
Theorem trial_reported_as_synced :
  ∃ l st c,
    rtc (step demo_agent abc_env) (Booting power_on factory_fs) (Live l) ∧
    pending_report l 0 = Some st ∧
    find_condition (Conditions st) CondFirmwareSynced = Some c ∧ Status' c = CondTrue ∧
    CurrentFirmwareVersion st = "2.0.0" ∧
    (∀ d, rep (disk l) d → active d = SlotB ∧ confirmed d SlotB = false).
Proof.
  apply (early_report_ok reporting); [apply reporting_reached|]. vm_compute. reflexivity.
Qed.
