(* ===== verification/Commands.v ===== *)
(** * cmd: the two programs

    [main] of cmd/agent/main.go, from its parsed flags to the agent's loops, and
    [main] of cmd/main.go, the controller manager, from its parsed flags to
    [mgr.Start].  What package flag parses is the input; controller-runtime is the
    environment of the second program. *)

From S2P Require Import Prelude GoLib Sha256 Os Download Slot SlotLogic SlotSpec Boot Kube Agent FirstBoot.
From Stdlib Require Import Ascii.
Open Scope Z_scope.

Definition Second : Z := 1000000000.

(** ** Package path/filepath *)

(** The lexical processing of [filepath.Clean]: [acc] holds the elements kept so
    far, the last one first. *)
Fixpoint clean_from (rooted : bool) (acc cs : list string) : list string :=
  match cs with
  | [] => rev acc
  | c :: cs =>
      if decide (c = "" ∨ c = ".") then clean_from rooted acc cs
      else if decide (c = "..") then
        match acc with
        | [] => clean_from rooted (if rooted then [] else [".."]) cs
        | top :: below =>
            if decide (top = "..") then clean_from rooted (".." :: acc) cs
            else clean_from rooted below cs
        end
      else clean_from rooted (c :: acc) cs
  end.

Definition rendered (rooted : bool) (cs : list string) : string :=
  if rooted then "/" +:+ String.concat "/" cs
  else match cs with [] => "." | _ => String.concat "/" cs end.

Definition Clean (p : string) : string :=
  rendered (HasPrefix p "/") (clean_from (HasPrefix p "/") [] (Split p "/"%char)).

Fixpoint filepath_Join (elem : list string) : string :=
  match elem with
  | [] => ""
  | e :: es => if decide (e = "") then filepath_Join es else Clean (String.concat "/" elem)
  end.

Example filepath_Join_ex :
  (filepath_Join ["/root/"; ".edge-fleet"; "edge-001"], filepath_Join ["/root"; ".edge-fleet"; "../x/."],
   filepath_Join [""; "a"; "../.."], Clean "/../a//b/")
  = ("/root/.edge-fleet/edge-001", "/root/x", "..", "/a/b").
Proof. reflexivity. Qed.

(** ** cmd/agent/main.go *)

Record AgentFlags := mkAgentFlags {
    f_name : string;
    f_namespace : string;
    f_kubeconfig : string;
    f_server : string;
    f_dataDir : string;
    f_poll : Z;
    f_heartbeat : Z;
  }.

(** The flags of a command line that gives only the name. *)
Definition agent_flags (name : string) : AgentFlags :=
  mkAgentFlags name "default" "" "" "" (3 * Second) (5 * Second).

(** What the host answers: [os.UserHomeDir], and the file of a kubeconfig. *)
Record host := mkHost { UserHomeDir : result goerr string; read : string → result goerr string }.

(** [os.Exit], or the loops of an agent over a data directory. *)
Inductive outcome (TLS : Type) :=
  | Exit (code : Z)
  | Running (dataDir : string) (a : agent) (tls : option TLS).
Arguments Exit {TLS} code.
Arguments Running {TLS} dataDir a tls.

Section agent_main.
Context {TLS Pair Pool : Type}.
Context (DecodeString : string → result goerr string).
Context (X509KeyPair : string → string → result goerr Pair).
Context (AppendCertsFromPEM : string → option Pool).
Context (tlsConfig : Pool → Pair → TLS).

Definition client (h : host) (f : AgentFlags) : result goerr (KubeClient * option TLS) :=
  NewKubeClient DecodeString X509KeyPair AppendCertsFromPEM tlsConfig (read h)
    (f_server f) (f_kubeconfig f) (f_namespace f) (f_name f).

Definition data_dir (h : host) (f : AgentFlags) : result goerr string :=
  if decide (f_dataDir f = "") then
    match UserHomeDir h with
    | Err err => Err err
    | Ok home => Ok (filepath_Join [home; ".edge-fleet"; f_name f])
    end
  else Ok (f_dataDir f).

Definition config (f : AgentFlags) : Config :=
  mkConfig (f_poll f) (f_heartbeat f) (mkDownloadOptions 0 0 0 0).

(** The file system is that of the data directory: [New] opens it, and [Run] boots
    from it before its loops. *)
Definition agent_main (h : host) (f : AgentFlags) : prog fsS (outcome TLS) :=
  if decide (f_name f = "") then Ret (Exit 2) else
  match data_dir h f with
  | Err _ => Ret (Exit 1)
  | Ok dataDir =>
  match client h f with
  | Err _ => Ret (Exit 1)
  | Ok (kube, tls) =>
  guard NewSlotManager catch err => Ret (Exit 1) ;;
  guard bootSequence catch err => Ret (Exit 1) ;;
  Ret (Running dataDir (mkAgent (config f) kube) tls)
  end
  end.

(** ** Paths of the data directories *)

Definition no_slash (s : string) : Prop := "/"%char ∉ String.list_ascii_of_string s.

Lemma Split_slash s t : Split (s +:+ "/" +:+ t) "/" = Split s "/" ++ Split t "/".
Proof.
  induction s as [|a s IH]; [done|]. change (String a s +:+ "/" +:+ t) with (String a (s +:+ "/" +:+ t)).
  cbn [Split]. rewrite IH. case_decide; [done|].
  destruct (Split s "/") as [|l ls] eqn:E; [|done]. exfalso. clear -E. destruct s; cbn in E; [done|].
  repeat case_match; congruence.
Qed.

Lemma Split_plain s : no_slash s → Split s "/" = [s].
Proof.
  unfold no_slash. induction s as [|a s IH]; [done|]. cbn [String.list_ascii_of_string Split].
  intros [Ha Hs]%not_elem_of_cons. rewrite decide_False by done. by rewrite IH.
Qed.

(** An element [Clean] keeps. *)
Definition element (c : string) : Prop := no_slash c ∧ c ≠ "" ∧ c ≠ "." ∧ c ≠ "..".

Lemma clean_from_snoc rooted acc cs d :
  element d → clean_from rooted acc (cs ++ [d]) = clean_from rooted acc cs ++ [d].
Proof.
  intros (_ & Hd & Hd1 & Hd2). revert acc. induction cs as [|e cs IH]; intros acc.
  - cbn. by rewrite !decide_False by tauto.
  - cbn [clean_from app]. by repeat case_match.
Qed.

Lemma concat_snoc (cs : list string) d :
  String.concat "/" (cs ++ [d]) =
  match cs with [] => "" | _ => String.concat "/" cs +:+ "/" end +:+ d.
Proof.
  induction cs as [|c cs IH]; [done|]. destruct cs as [|c' cs]; [by rewrite app_assoc_str|].
  cbn [app String.concat] in *. rewrite IH, !app_assoc_str. done.
Qed.

Lemma HasPrefix_slash s t : s ≠ "" → HasPrefix (s +:+ t) "/" = HasPrefix s "/".
Proof.
  destruct s as [|a s]; [done|]. intros _. unfold HasPrefix.
  change (String a s +:+ t) with (String a (s +:+ t)). cbn [CutPrefix].
  case_decide; [|done]. by destruct s, t.
Qed.

(** The default directory is a prefix, which the name does not change, and the name. *)
Lemma default_dir home :
  ∃ pre, ∀ name, element name → filepath_Join [home; ".edge-fleet"; name] = pre +:+ name.
Proof.
  destruct (decide (home = "")) as [->|Hh].
  - exists ".edge-fleet/". intros name Hn. cbn [filepath_Join]. rewrite decide_True by done.
    rewrite decide_False by done. change (String.concat "/" [".edge-fleet"; name])
      with (".edge-fleet" +:+ "/" +:+ name).
    unfold Clean. rewrite Split_slash, (Split_plain name), clean_from_snoc by by (apply Hn || exact Hn).
    done.
  - set (r := HasPrefix home "/"). set (cs := clean_from r [] (Split home "/" ++ [".edge-fleet"])).
    exists ((if r then "/" else "") +:+ match cs with [] => "" | _ => String.concat "/" cs +:+ "/" end).
    intros name Hn. cbn [filepath_Join]. rewrite decide_False by done.
    change (String.concat "/" [home; ".edge-fleet"; name])
      with (home +:+ "/" +:+ ".edge-fleet" +:+ "/" +:+ name).
    assert (HasPrefix (home +:+ "/" +:+ ".edge-fleet" +:+ "/" +:+ name) "/" = r) as Hr.
    { by apply HasPrefix_slash. }
    unfold Clean. rewrite Hr, Split_slash, Split_slash, (Split_plain name), (assoc_L (++)),
      clean_from_snoc by by (apply Hn || exact Hn).
    change (Split ".edge-fleet" "/") with [".edge-fleet"]. fold cs.
    unfold rendered. rewrite app_assoc_str, <-concat_snoc. destruct r; [done|].
    by destruct cs.
Qed.

(** ** What the agent's command comes to *)

(** A fresh device, or one whose first boot was cut short. *)
Lemma agent_main_runs h f s dataDir kube tls :
  f_name f ≠ "" → data_dir h f = Ok dataDir → client h f = Ok (kube, tls) → coming s →
  run fs_run (agent_main h f) s = Some (Running dataDir (mkAgent (config f) kube) tls, factory_fs).
Proof.
  intros Hn Hd Hc Hs. unfold agent_main. rewrite decide_False, Hd, Hc by done.
  destruct (first_boot_runs s Hs) as [Hns Hbs]. erewrite run_bind by exact Hns.
  cbv beta iota. by erewrite run_bind by exact Hbs.
Qed.
(** The same command line with another name. *)
Definition named (f : AgentFlags) (name : string) : AgentFlags :=
  mkAgentFlags name (f_namespace f) (f_kubeconfig f) (f_server f) (f_dataDir f) (f_poll f)
    (f_heartbeat f).

Lemma client_named h f name kube tls :
  client h f = Ok (kube, tls) →
  client h (named f name) = Ok (mkKubeClient (base kube) (f_namespace f) name, tls).
Proof.
  unfold client, NewKubeClient. cbn. repeat case_match; intros; simplify_eq; done.
Qed.

(** The directory is [outer] itself or below it. *)
Definition within (dir outer : string) : Prop := dir = outer ∨ HasPrefix dir (outer +:+ "/") = true.

Lemma app_inj (a b c : string) : a +:+ b = a +:+ c → b = c.
Proof. apply (base.inj (String.append a)). Qed.

Lemma CutPrefix_Some s pre r : CutPrefix s pre = Some r → s = pre +:+ r.
Proof.
  revert s. induction pre as [|a pre IH]; intros s; [by destruct s; intros [= <-]|].
  destruct s as [|b s]; [done|]. cbn [CutPrefix]. case_decide; [|done]. intros ->%IH. by subst.
Qed.

Lemma slash_inside s t : ¬ no_slash (s +:+ "/" +:+ t).
Proof.
  unfold no_slash. intros H. apply H. clear H. induction s as [|a s IH].
  - change ("" +:+ "/" +:+ t) with (String "/" t). by left.
  - change (String a s +:+ "/" +:+ t) with (String a (s +:+ "/" +:+ t)). by right.
Qed.

Lemma not_within pre n1 n2 : element n1 → n1 ≠ n2 → ¬ within (pre +:+ n1) (pre +:+ n2).
Proof.
  intros (Hs & _) Hne [E%app_inj|E]; [done|]. unfold HasPrefix in E.
  destruct (CutPrefix _ _) as [r|] eqn:Ec; [|done]. apply CutPrefix_Some in Ec.
  rewrite !app_assoc_str in Ec. apply app_inj in Ec. subst n1. by apply slash_inside in Hs.
Qed.

(** C33. A fleet on one host.  Two agents started with the same flags but for their
    names, on fresh data directories (the default ones) and without failing calls,
    both come up as factory devices with the flags' intervals; neither's data
    directory is the other's or lies inside it; and they talk to different objects
    of the API server.  Without a name, and without a server or a readable
    kubeconfig, the command exits before it touches the disk. *)
Theorem fleet_on_one_host h f home n1 n2 kube tls :
  UserHomeDir h = Ok home → f_dataDir f = "" → client h f = Ok (kube, tls) →
  element n1 → element n2 → n1 ≠ n2 →
  (∃ d1 d2 k1 k2,
    run fs_run (agent_main h (named f n1)) ∅ =
      Some (Running d1 (mkAgent (config f) k1) tls, factory_fs) ∧
    run fs_run (agent_main h (named f n2)) ∅ =
      Some (Running d2 (mkAgent (config f) k2) tls, factory_fs) ∧
    ¬ within d1 d2 ∧ ¬ within d2 d1 ∧ url k1 "" ≠ url k2 "") ∧
  agent_main h (named f "") = Ret (Exit 2) ∧
  (∀ name, name ≠ "" → f_server f = "" → f_kubeconfig f = "" ∨ ¬ is_ok (read h (f_kubeconfig f)) →
    agent_main h (named f name) = Ret (Exit 1)).
Proof.
  intros Hh Hd Hc Hn1 Hn2 Hne. destruct (default_dir home) as [pre Hpre].
  assert (coming ∅) as H0 by (left; apply empty_unborn).
  assert (∀ n, element n → run fs_run (agent_main h (named f n)) ∅ =
    Some (Running (pre +:+ n) (mkAgent (config f) (mkKubeClient (base kube) (f_namespace f) n)) tls,
      factory_fs)) as Hrun.
  { intros n Hn. rewrite <-(Hpre n Hn).
    apply (agent_main_runs h (named f n)); [apply Hn| |by apply client_named|done].
    unfold data_dir. cbn. by rewrite Hd, decide_True, Hh. }
  split_and!.
  - eexists _, _, _, _. split_and!; [by apply Hrun|by apply Hrun|by apply not_within..|].
    unfold url. cbn. rewrite <-!app_assoc_str, !app_nil_str. intros E%app_inj. done.
  - done.
  - intros name Hn Hs Hk. unfold agent_main. cbn. rewrite decide_False by done.
    unfold data_dir. cbn. rewrite Hd, decide_True, Hh by done.
    unfold client, NewKubeClient. cbn. destruct Hk as [->|Hk].
    + by rewrite Hs, !decide_True.
    + case_decide; [by rewrite Hs, decide_True|]. unfold loadKubeconfig. by destruct (read h _).
Qed.
End agent_main.

Lemma fleet_on_one_host_witness :
  ∃ d1 d2 k1 k2,
    let h := mkHost (Ok "/root") (λ _, Err (Errorf "no file")) in
    let f n := mkAgentFlags n "default" "" "http://127.0.0.1:8001" "" (3 * Second) (5 * Second) in
    let main n := agent_main (TLS := unit) (λ _, Ok "") (λ _ _, Ok tt) (λ _, Some tt) (λ _ _, tt) h (f n) in
    run fs_run (main "edge-001") ∅ =
      Some (Running d1 (mkAgent (config (f "")) k1) None, factory_fs) ∧
    run fs_run (main "edge-0011") ∅ =
      Some (Running d2 (mkAgent (config (f "")) k2) None, factory_fs) ∧
    ¬ within d1 d2 ∧ ¬ within d2 d1 ∧ url k1 "" ≠ url k2 "".
Proof.
  apply (fleet_on_one_host (TLS := unit) (λ _, Ok "") (λ _ _, Ok tt) (λ _, Some tt) (λ _ _, tt)
    (mkHost (Ok "/root") (λ _, Err (Errorf "no file")))
    (mkAgentFlags "" "default" "" "http://127.0.0.1:8001" "" (3 * Second) (5 * Second)) "/root"
    "edge-001" "edge-0011" (mkKubeClient "http://127.0.0.1:8001" "default" "") None);
    try done; (split; [|done]); apply (bool_decide_unpack _); vm_compute; exact I.
Defined.

(** Finding. The command line accepts an interval that is not positive, and the agent
    it starts panics in its first poll. *)
Theorem nonpositive_poll_interval_panics f kube :
  f_poll f ≤ 0 →
  ∃ k, poll_turn (mkAgent (config f) kube) =
    Act (ADl (Panic "invalid argument to N") : act agS) k.
Proof.
  intros Hf. unfold poll_turn, ondl, rand_N. cbn [cfg config PollInterval].
  assert ((f_poll f <=? 0) = true) as -> by lia. by eexists.
Qed.

(** Finding. So does the goroutine of the heartbeats. *)
Theorem nonpositive_heartbeat_interval_panics f kube :
  f_heartbeat f ≤ 0 →
  ∃ k, heartbeat_turn (mkAgent (config f) kube) =
    Act (ADl (Panic "non-positive interval for NewTicker") : act agS) k.
Proof.
  intros Hf. unfold heartbeat_turn, NewTicker. cbn [cfg config HeartbeatInterval].
  assert ((f_heartbeat f <=? 0) = true) as -> by lia. by eexists.
Qed.

(** ** cmd/main.go *)

Record ManagerFlags := mkManagerFlags {
    metricsAddr : string;
    metricsCertPath : string; metricsCertName : string; metricsCertKey : string;
    webhookCertPath : string; webhookCertName : string; webhookCertKey : string;
    enableLeaderElection : bool;
    probeAddr : string;
    secureMetrics : bool;
    enableHTTP2 : bool;
    heartbeatTimeout : Z;
  }.

(** The flags of an empty command line. *)
Definition manager_flags : ManagerFlags :=
  mkManagerFlags "0" "" "tls.crt" "tls.key" "" "tls.crt" "tls.key" false ":8081" true false
    (30 * Second).

(** Of a [tls.Config], the protocols offered; a TLS option is a change to it. *)
Record tlsConfig := mkTlsConfig { NextProtos : list string }.

Definition disableHTTP2 (c : tlsConfig) : tlsConfig := mkTlsConfig ["http/1.1"].

Record certificates := mkCertificates { CertDir : string; CertName : string; KeyName : string }.
Definition no_certificates : certificates := mkCertificates "" "" "".

Record webhookOptions := mkWebhookOptions {
    webhookTLSOpts : list (tlsConfig → tlsConfig);
    webhookCerts : certificates;
  }.

(** [FilterProvider]: whether requests are authenticated and authorized. *)
Record metricsOptions := mkMetricsOptions {
    BindAddress : string;
    SecureServing : bool;
    metricsTLSOpts : list (tlsConfig → tlsConfig);
    WithAuthenticationAndAuthorization : bool;
    metricsCerts : certificates;
  }.

Record managerOptions := mkManagerOptions {
    Metrics : metricsOptions;
    WebhookServer : webhookOptions;
    HealthProbeBindAddress : string;
    LeaderElection : bool;
    LeaderElectionID : string;
  }.

Definition tlsOpts (f : ManagerFlags) : list (tlsConfig → tlsConfig) :=
  if negb (enableHTTP2 f) then [disableHTTP2] else [].

Definition webhookServerOptions (f : ManagerFlags) : webhookOptions :=
  mkWebhookOptions (tlsOpts f)
    (if negb (bool_decide (webhookCertPath f = ""))
     then mkCertificates (webhookCertPath f) (webhookCertName f) (webhookCertKey f)
     else no_certificates).

Definition metricsServerOptions (f : ManagerFlags) : metricsOptions :=
  mkMetricsOptions (metricsAddr f) (secureMetrics f) (tlsOpts f) (secureMetrics f)
    (if negb (bool_decide (metricsCertPath f = ""))
     then mkCertificates (metricsCertPath f) (metricsCertName f) (metricsCertKey f)
     else no_certificates).

Definition options (f : ManagerFlags) : managerOptions :=
  mkManagerOptions (metricsServerOptions f) (webhookServerOptions f) (probeAddr f)
    (enableLeaderElection f) "08f1c462.example.com".

(** The calls of the framework; each may return an error ([GetConfigOrDie] exits by
    itself then). *)
Inductive setup :=
  | GetConfigOrDie
  | NewManager (o : managerOptions)
  | SetupEdgeDevices (HeartbeatTimeout : Z)
  | SetupFleetRollouts
  | AddHealthzCheck (name : string)
  | AddReadyzCheck (name : string)
  | Start.

Definition setupS : sig := Sig setup (λ _, option goerr).
Definition framework (o : setup) : prog setupS (option goerr) := trigger (o : act setupS).

(** The exit code. *)
Definition manager_main (f : ManagerFlags) : prog setupS Z :=
  guard framework GetConfigOrDie catch err => Ret 1 ;;
  guard framework (NewManager (options f)) catch err => Ret 1 ;;
  guard framework (SetupEdgeDevices (heartbeatTimeout f)) catch err => Ret 1 ;;
  guard framework SetupFleetRollouts catch err => Ret 1 ;;
  guard framework (AddHealthzCheck "healthz") catch err => Ret 1 ;;
  guard framework (AddReadyzCheck "readyz") catch err => Ret 1 ;;
  guard framework Start catch err => Ret 1 ;;
  Ret 0.

(** What the framework was asked and what it answered, latest first. *)
Abbreviation setup_log := (list (setup * option goerr)).
#[local] Instance logged : Sem setupS setup_log := λ o w r w', w' = (o, r) :: w.

(** The configuration a server ends up with. *)
Definition configured (base : tlsConfig) (opts : list (tlsConfig → tlsConfig)) : tlsConfig :=
  foldl (λ c o, o c) base opts.

(** A call that succeeded. *)
Definition succeeded (o : setup) (w : setup_log) : Prop := (o, None) ∈ w.

(** The same program as a plan. *)
Definition plan (f : ManagerFlags) : list setup :=
  [GetConfigOrDie; NewManager (options f); SetupEdgeDevices (heartbeatTimeout f); SetupFleetRollouts;
   AddHealthzCheck "healthz"; AddReadyzCheck "readyz"; Start].

Fixpoint perform (l : list setup) : prog setupS Z :=
  match l with
  | [] => Ret 0
  | o :: l => guard framework o catch err => Ret 1 ;; perform l
  end.

Lemma manager_performs f : manager_main f = perform (plan f).
Proof. done. Qed.

Definition successes (l : list setup) : setup_log := rev ((λ o, (o, None)) <$> l).

Lemma perform_steps l w p w' :
  rtc pstep (perform l, w) (p, w') →
  ∃ l1 l2, l = l1 ++ l2 ∧
    ((p = perform l2 ∧ w' = successes l1 ++ w) ∨
     ∃ o e l3, l2 = o :: l3 ∧ p = Ret 1 ∧ w' = (o, Some e) :: successes l1 ++ w).
Proof.
  revert w. induction l as [|o l IH]; intros w Hs.
  { exists [], []. split; [done|]. left. apply rtc_inv in Hs as [[= <- <-]|(? & [] & _)]. done. }
  apply rtc_inv in Hs as [[= <- <-]|([p1 w1] & (r & Hw & Hp) & Hs)].
  { exists [], (o :: l). auto. }
  change (w1 = (o, r) :: w) in Hw. change (p1 = match r with Some _ => Ret 1 | None => perform l end) in Hp.
  subst p1 w1.
  destruct r as [e|].
  - exists [], (o :: l). split; [done|]. right. exists o, e, l.
    apply rtc_inv in Hs as [[= <- <-]|(? & [] & _)]. done.
  - destruct (IH _ Hs) as (l1 & l2 & -> & H). exists (o :: l1), l2. split; [done|].
    unfold successes in *. cbn. rewrite <-(assoc_L (++)). exact H.
Qed.

Lemma succeeded_in o l : o ∈ l → succeeded o (successes l ++ []).
Proof.
  intros Ho. unfold succeeded, successes. rewrite app_nil_r. apply list_elem_of_In, in_rev.
  rewrite rev_involutive. apply list_elem_of_In. by apply (list_elem_of_fmap_2 (λ o, (o, None))).
Qed.

Lemma successes_only l : Forall (λ x, x.2 = None) (successes l ++ []).
Proof.
  rewrite app_nil_r. unfold successes. apply Forall_rev, Forall_fmap, Forall_true. done.
Qed.

(** C32. The manager starts complete, or not at all.  Whatever the framework answers:
    the manager is started only after both controllers and both probes were set up
    on it without an error, with the heartbeat timeout of the command line; the
    command exits with code 0 only if nothing failed, and with code 1 right after
    the first failure.  Unless HTTP/2 is asked for, both its servers offer HTTP/1.1
    alone, and metrics served securely are served to authorized clients only. *)
Theorem manager_starts_complete f p w :
  rtc pstep (manager_main f, []) (p, w) →
  (∀ k, p = Act (Start : act setupS) k →
    succeeded (NewManager (options f)) w ∧ succeeded (SetupEdgeDevices (heartbeatTimeout f)) w ∧
    succeeded SetupFleetRollouts w ∧ succeeded (AddHealthzCheck "healthz") w ∧
    succeeded (AddReadyzCheck "readyz") w) ∧
  (∀ code, p = Ret code →
    (code = 0 ∧ succeeded Start w ∧ Forall (λ x, x.2 = None) w) ∨
    (code = 1 ∧ ∃ o e w0, w = (o, Some e) :: w0 ∧ Forall (λ x, x.2 = None) w0)) ∧
  (enableHTTP2 f = false → ∀ base,
    NextProtos (configured base (metricsTLSOpts (Metrics (options f)))) = ["http/1.1"] ∧
    NextProtos (configured base (webhookTLSOpts (WebhookServer (options f)))) = ["http/1.1"]) ∧
  (SecureServing (Metrics (options f)) = true →
    WithAuthenticationAndAuthorization (Metrics (options f)) = true).
Proof.
  rewrite manager_performs. intros Hs. apply perform_steps in Hs as (l1 & l2 & Hl & Hp).
  split_and!; [| |by intros Hf base; cbn; unfold tlsOpts; rewrite Hf|done].
  - intros k ->. destruct Hp as [[Hp ->]|(? & ? & ? & ? & [=] & ?)].
    assert (l1 = take 6 (plan f)) as -> by
      (unfold plan in *; destruct l2 as [|o l2]; [done|]; cbn in Hp; injection Hp as <- _;
       destruct l1 as [|? [|? [|? [|? [|? [|? [|? l1]]]]]]]; cbn in Hl; simplify_eq; try done;
       by destruct l1).
    split_and!; apply succeeded_in; repeat first [by left|right].
  - intros code ->. destruct Hp as [[Hp ->]|(o & e & l3 & -> & [= ->] & ->)].
    + destruct l2; [|done]. injection Hp as ->. rewrite app_nil_r in Hl. subst l1. left.
      split_and!; [done| |apply successes_only]. apply succeeded_in. repeat first [by left|right].
    + right. split; [done|]. eexists o, e, _. split; [done|]. apply successes_only.
Qed.

(** A framework on which the second controller cannot be set up. *)
Definition no_rollouts (o : act setupS) (w : setup_log) : option (res o * setup_log) :=
  let r : res o :=
    match o with SetupFleetRollouts => Some (Errorf "no kind FleetRollout") | _ => None end in
  Some (r, (o, r) :: w).

Lemma no_rollouts_handles : handles no_rollouts.
Proof. by intros o w r w' [= <- <-]. Qed.

Definition aborted_setup : prog setupS Z * setup_log :=
  drive no_rollouts (manager_main manager_flags) [].

Lemma manager_starts_complete_witness :
  aborted_setup.1 = Ret 1 ∧ length aborted_setup.2 = 4%nat ∧
  ((1 = 0 ∧ succeeded Start aborted_setup.2 ∧ Forall (λ x, x.2 = None) aborted_setup.2) ∨
   (1 = 1 ∧ ∃ o e w0, aborted_setup.2 = (o, Some e) :: w0 ∧ Forall (λ x, x.2 = None) w0)).
Proof.
  split; [reflexivity|]. split; [reflexivity|].
  apply (proj1 (proj2 (manager_starts_complete manager_flags aborted_setup.1 aborted_setup.2
    (drive_steps no_rollouts (manager_main manager_flags) [] no_rollouts_handles))) 1 eq_refl).
Defined.
