(* ===== verification/FileServer.v ===== *)
(** * cmd/firmware-server/main.go: the vendor CDN of the demo

    [http.FileServer] over the directory of images, as package net/http serves it:
    the cleaned path, redirects, directories, and byte ranges.  The agent's resumable
    downloads rest on the last. *)

From S2P Require Import Prelude GoLib Sha256 Os Download Slot Kube Kubeconfig Agent Boot FirstBoot Commands.
From Stdlib Require Import Ascii.
Open Scope Z_scope.

Implicit Types (s : fs) (cs : list string).

(** ** The strings of a request *)

Definition ascii_spaces : list string := map bytes [[32]; [9]; [10]; [13]]%nat.

(** [textproto.TrimString]. *)
Definition TrimString (s : string) : string :=
  let l := trim_left (String.length s) ascii_spaces s in
  String.rev (trim_left (String.length l) ascii_spaces (String.rev l)).

(** [strings.Cut] at a one-byte separator. *)
Fixpoint Cut (s : string) (sep : ascii) : option (string * string) :=
  match s with
  | EmptyString => None
  | String a s' =>
      if decide (a = sep) then Some (EmptyString, s')
      else match Cut s' sep with
           | Some (before, after) => Some (String a before, after)
           | None => None
           end
  end.

Definition HasSuffix (s suf : string) : bool := HasPrefix (String.rev s) (String.rev suf).

(** [utf8.ValidString], on the values of the bytes. *)
Fixpoint valid_utf8 (l : list N) : bool :=
  let within lo hi c := ((lo <=? c) && (c <=? hi))%N in
  let tail c := within 128%N 191%N c in
  match l with
  | [] => true
  | a :: l1 =>
      if (a <? 128)%N then valid_utf8 l1 else
      match l1 with
      | [] => false
      | b :: l2 =>
          if within 194%N 223%N a then tail b && valid_utf8 l2 else
          match l2 with
          | [] => false
          | c :: l3 =>
              if within 224%N 239%N a then
                within (if a =? 224 then 160 else 128)%N (if a =? 237 then 159 else 191)%N b
                  && tail c && valid_utf8 l3
              else
              match l3 with
              | [] => false
              | d :: l4 =>
                  within 240%N 244%N a
                  && within (if a =? 240 then 144 else 128)%N (if a =? 244 then 143 else 191)%N b
                  && tail c && tail d && valid_utf8 l4
              end
          end
      end
  end.

Definition ValidString (s : string) : bool :=
  valid_utf8 (map N_of_ascii (String.list_ascii_of_string s)).

(** ** Byte ranges *)

(** The errors of [parseRange]. *)
Definition invalidRange : goerr := Errorf "invalid range".
Definition errNoOverlap : goerr := Errorf "invalid range: failed to overlap".

(** One range of the header, as its start and length; [None] for one that begins
    past the end. *)
Definition range_spec (start end' : string) (size : Z) : result goerr (option (Z * Z)) :=
  if decide (start = "") then
    if decide (end' = "") then Err invalidRange else
    if HasPrefix end' "-" then Err invalidRange else
    match ParseInt end' with
    | Some i =>
        if i <? 0 then Err invalidRange else
        let i := if size <? i then size else i in
        Ok (Some (size - i, size - (size - i)))
    | None => Err invalidRange
    end
  else
    match ParseInt start with
    | Some i =>
        if i <? 0 then Err invalidRange else
        if size <=? i then Ok None else
        if decide (end' = "") then Ok (Some (i, size - i)) else
        match ParseInt end' with
        | Some j =>
            if j <? i then Err invalidRange else
            let j := if size <=? j then size - 1 else j in
            Ok (Some (i, j - i + 1))
        | None => Err invalidRange
        end
    | None => Err invalidRange
    end.

Fixpoint range_loop (size : Z) (parts : list string) (ranges : list (Z * Z)) (noOverlap : bool) :
    result goerr (list (Z * Z)) :=
  match parts with
  | [] => if noOverlap && bool_decide (ranges = []) then Err errNoOverlap else Ok ranges
  | ra :: parts =>
      let ra := TrimString ra in
      if decide (ra = "") then range_loop size parts ranges noOverlap else
      match Cut ra "-" with
      | None => Err invalidRange
      | Some (start, end') =>
          match range_spec (TrimString start) (TrimString end') size with
          | Err err => Err err
          | Ok None => range_loop size parts ranges true
          | Ok (Some r) => range_loop size parts (ranges ++ [r]) noOverlap
          end
      end
  end.

Definition parseRange (s : string) (size : Z) : result goerr (list (Z * Z)) :=
  if decide (s = "") then Ok [] else
  match CutPrefix s "bytes=" with
  | None => Err invalidRange
  | Some rest => range_loop size (Split rest ",") [] false
  end.

Definition sumRangesSize (ranges : list (Z * Z)) : Z :=
  foldl (λ sum r, int64 (sum + r.2)) 0 ranges.

(** ** The handler *)

Inductive file_answer :=
  | Answer (code : Z) (body : string)
  | Moved (location : string).       (* 301, to a location relative to the request *)

(** [http.Error]. *)
Definition serveError (text : string) (code : Z) : file_answer := Answer code (text +:+ bytes [10%nat]).

(** [Seek] to [start], then [io.CopyN]. *)
Definition section (content : string) (start length : Z) : string :=
  String.substring (Z.to_nat start) (Z.to_nat length) content.

Definition path_Base (p : string) : string := Base p.

Definition ValidPath (p : string) : bool :=
  ValidString p &&
  (bool_decide (p = ".") ||
   forallb (λ c, negb (bool_decide (c = "" ∨ c = "." ∨ c = ".."))) (Split p "/")).

(** [filepath.Localize] on Unix: a valid path without a NUL byte. *)
Definition Localize (p : string) : option string :=
  if ValidPath p && bool_decide (Ascii.zero ∉ String.list_ascii_of_string p) then Some p else None.

Section server.
(** The bodies this development does not spell out: of several ranges in one answer,
    between random boundaries, and of a directory's listing. *)
Context (multipart : string → list (Z * Z) → string) (dirList : list string → string).

(** The headers that make a request conditional are not sent by the agent. *)
Definition serveContent (range content : string) : file_answer :=
  let size := str_len content in
  let whole := Answer 200 content in
  match parseRange range size with
  | Err err =>
      if decide (err = errNoOverlap ∧ size = 0) then whole
      else serveError (Error err) 416
  | Ok ranges =>
      let ranges := if size <? sumRangesSize ranges then [] else ranges in
      match ranges with
      | [] => whole
      | [(start, length)] => Answer 206 (section content start length)
      | _ => Answer 206 (multipart content ranges)
      end
  end.

(** The node a path names; the root of the file system is a directory. *)
Definition node_at s (p : list string) : option node :=
  match p with [] => Some Dir | _ => s !! resolve s p end.

(** [http.Dir.Open], then [Stat]: what is there, below the directory served. *)
Definition dir_open s (root : list string) (name : string) :
    result file_answer (list string * node) :=
  let p := TrimPrefix (Clean ("/" +:+ name)) "/" in
  let p := if decide (p = "") then "." else p in
  match Localize p with
  | None => Err (serveError "500 Internal Server Error" 500)
  | Some p =>
      let q := root ++ (if decide (p = ".") then [] else Split p "/") in
      match node_at s q with
      | Some (File d) => Ok (q, File d)
      | Some Dir => Ok (q, Dir)
      | Some (Link _) | None => Err (serveError "404 page not found" 404)
      end
  end.

Definition indexPage : string := "/index.html".

Definition serveDir s (root : list string) (name range : string) (q : list string) :
    file_answer :=
  match dir_open s root (TrimSuffix name "/" +:+ indexPage) with
  | Ok (_, File content) => serveContent range content
  | Ok (i, _) => Answer 200 (dirList i)
  | Err _ => Answer 200 (dirList q)
  end.

Definition serveFile s (root : list string) (upath name range : string) : file_answer :=
  if HasSuffix upath indexPage then Moved "./" else
  match dir_open s root name with
  | Err answer => answer
  | Ok (q, Dir) =>
      if HasSuffix upath "/" then serveDir s root name range q
      else Moved (path_Base upath +:+ "/")
  | Ok (q, File content) =>
      if HasSuffix upath "/" then
        let base := path_Base upath in
        if decide (base = "/" ∨ base = ".")
        then serveError "http: attempting to traverse a non-directory" 500
        else Moved ("../" +:+ base)
      else serveContent range content
  | Ok (q, Link _) => serveError "404 page not found" 404
  end.

(** [http.FileServer(http.Dir(dir))], on a GET request for a path with a Range header. *)
Definition FileServer s (root : list string) (upath range : string) : file_answer :=
  let upath := if HasPrefix upath "/" then upath else "/" +:+ upath in
  serveFile s root upath (Clean upath) range.

(** ** The command *)

Record ServerFlags := mkServerFlags { flag_dir : list string; flag_addr : string }.

(** The flags of an empty command line: the working directory, on every interface. *)
Definition server_flags : ServerFlags := mkServerFlags [] ":8000".

Record listener := mkListener { address : string; answer_to : string → string → file_answer }.

(** What [ListenAndServe] is called with; [log.Fatal] ends the process once it returns. *)
Definition firmware_main s (f : ServerFlags) : listener :=
  mkListener (flag_addr f) (FileServer s (flag_dir f)).

(** ** A client of it *)

Definition StatusText (code : Z) : string :=
  if code =? 200 then "OK" else if code =? 206 then "Partial Content"
  else if code =? 404 then "Not Found"
  else if code =? 416 then "Requested Range Not Satisfiable"
  else if code =? 500 then "Internal Server Error" else "".

Definition respond (code : Z) (body : string) : response :=
  Response code (Itoa code +:+ " " +:+ StatusText code) body None.

(** Package net/url: the path of a URL, and the URL a location leads to. *)
Context (url_path : string → string) (ResolveReference : string → string → string).

(** [http.Client.Do], which repeats the request at the locations it is sent to, [n]
    times at most. *)
Fixpoint fetch (l : listener) (n : nat) (url range : string) : result goerr response :=
  match answer_to l (url_path url) range with
  | Answer code body => Ok (respond code body)
  | Moved location =>
      match n with
      | O => Err (Errorf "stopped after 10 redirects")
      | S n => fetch l n (ResolveReference url location) range
      end
  end.

(** The server over a link that cuts nothing short. *)
Definition over_lan (l : listener) : http_server :=
  λ url range r, r = fetch l 9 url (default "" range).

(** Over the links the agent is made for: no answer, an answer cut short, or the
    server's own disk failing. *)
Definition over_uplink (l : listener) : http_server := λ url range r,
  (∃ e, r = Err e) ∨
  (∃ text, r = Ok (respond 500 text)) ∨
  (∃ resp, fetch l 9 url (default "" range) = Ok resp ∧
    (r = Ok resp ∨
     ∃ n e, r = Ok (Response (StatusCode resp) (Download.Status resp) (str_take n (Body resp)) (Some e)))).

(** ** The range the agent asks for *)

Lemma list_find_ascii_space a (s : string) :
  printable a = true → list_find (λ p, HasPrefix (String a s) p = true) ascii_spaces = None.
Proof. intros Ha. by destruct a as [[] [] [] [] [] [] [] []]; try (by vm_compute in Ha). Qed.

Lemma TrimString_printable (s : string) : all_printable s = true → TrimString s = s.
Proof.
  intros Hp. destruct s as [|a s]; [done|]. apply andb_true_iff in Hp as Hp'. destruct Hp' as [Ha _].
  destruct (last_printable (String a s)) as (t & b & Heq & Hb); [done|done|]. unfold TrimString.
  rewrite trim_left_stop by by apply list_find_ascii_space. rewrite Heq, rev_app_str.
  change (String.rev (String b "") +:+ String.rev t) with (String b (String.rev t)).
  rewrite trim_left_stop by by apply list_find_ascii_space.
  change (String b (String.rev t)) with (String b "" +:+ String.rev t).
  by rewrite rev_app_str, rev_rev_str.
Qed.

Lemma digit_printable a : is_Some (digit a) → printable a = true ∧ a ≠ ","%char ∧ a ≠ "-"%char.
Proof. intros [d Hd]. by destruct a as [[] [] [] [] [] [] [] []]; try discriminate Hd. Qed.

Lemma decimal_dash (d : string) :
  decimal d → all_printable d = true ∧ all_printable (d +:+ "-") = true ∧
  Split (d +:+ "-") "," = [d +:+ "-"] ∧ Cut (d +:+ "-") "-" = Some (d, "").
Proof.
  intros [_ Hd]. induction d as [|a d IH]; [done|].
  change (String a d +:+ "-") with (String a (d +:+ "-")).
  inversion Hd as [|? ? Ha Hd']; subst. apply digit_printable in Ha as (Hp & Hc & Hm).
  destruct (IH Hd') as (E1 & E2 & E3 & E4). cbn [all_printable Split Cut].
  rewrite !decide_False by done. by rewrite Hp, E1, E2, E3, E4.
Qed.

Lemma range_start (n size : Z) :
  0 ≤ n < 2 ^ 63 →
  parseRange ("bytes=" +:+ Itoa n +:+ "-") size =
  if size <=? n then Err errNoOverlap else Ok [(n, size - n)].
Proof.
  intros Hn. assert (2 ^ 63 < 2 ^ 64) by done.
  assert (decimal (Itoa n)) as Hd by (apply Itoa_decimal; lia).
  destruct (decimal_dash _ Hd) as (E1 & E2 & E3 & E4).
  unfold parseRange. rewrite decide_False by done. rewrite CutPrefix_app, E3. cbn [range_loop].
  rewrite TrimString_printable, decide_False, E4 by (done || by destruct (Itoa n)).
  rewrite TrimString_printable by done. unfold range_spec.
  rewrite decide_False, ParseInt_Itoa by (apply Hd || lia).
  destruct (Z.ltb_spec n 0); [lia|]. by destruct (size <=? n).
Qed.

Lemma substring_app (a b : string) :
  String.substring (String.length a) (String.length b) (a +:+ b) = b.
Proof.
  induction a as [|x a IH]; [|done]. cbn [String.length]. change ("" +:+ b) with b.
  induction b as [|y b IH]; [done|]. cbn [String.length String.substring]. by rewrite IH.
Qed.

Lemma str_len_app (a b : string) : str_len (a +:+ b) = str_len a + str_len b.
Proof.
  unfold str_len. induction a as [|x a IH]; [done|].
  change (String.length (String x a +:+ b)) with (S (String.length (a +:+ b))).
  cbn [String.length]. lia.
Qed.

Lemma serveContent_whole img : serveContent "" img = Answer 200 img.
Proof.
  unfold serveContent, parseRange. rewrite decide_True by done.
  destruct (Z.ltb_spec (str_len img) (sumRangesSize [])); [|done]. by repeat case_match.
Qed.

(** Asked for the rest of a file behind what the agent holds, the server sends that. *)
Lemma serves_rest (pre rest : string) :
  let img := pre +:+ rest in
  str_len img < 2 ^ 63 →
  serveContent (default "" (rangeHeader (str_len pre))) img =
  if 0 <? str_len pre then
    if decide (rest = "") then serveError (Error errNoOverlap) 416 else Answer 206 rest
  else Answer 200 img.
Proof.
  intros img Hs. pose proof (str_len_app pre rest) as Hl. fold img in Hl.
  assert (0 ≤ str_len rest) by (unfold str_len; lia). assert (0 ≤ str_len pre) by (unfold str_len; lia).
  unfold rangeHeader. destruct (Z.ltb_spec 0 (str_len pre)); [|by apply serveContent_whole].
  unfold from_option, id, serveContent.
  rewrite range_start by lia.
  assert (rest = "" ↔ str_len rest = 0) as Hr.
  { unfold str_len. destruct rest; [done|]. split; [done|cbn; lia]. }
  destruct (Z.leb_spec (str_len img) (str_len pre)).
  - rewrite (decide_True (P := rest = "")) by (apply Hr; lia). rewrite decide_False; [done|]. lia.
  - rewrite (decide_False (P := rest = "")) by (rewrite Hr; lia).
    unfold sumRangesSize. cbn [foldl snd].
    assert (int64 (0 + (str_len img - str_len pre)) = str_len rest) as ->.
    { unfold int64. rewrite wrap_id; [lia|done|]. unfold fits. simpl. lia. }
    destruct (Z.ltb_spec (str_len img) (str_len rest)); [lia|]. f_equal. unfold section, img.
    replace (Z.to_nat (str_len (pre +:+ rest) - str_len pre)) with (String.length rest)
      by (unfold img, str_len in *; lia).
    unfold str_len. rewrite Nat2Z.id. apply substring_app.
Qed.

(** ** The path of an image *)

Lemma clean_from_elements (acc cs : list string) :
  Forall element cs → clean_from true acc cs = rev acc ++ cs.
Proof.
  intros Hcs. revert acc. induction Hcs as [|c cs (_ & H0 & H1 & H2) _ IH]; intros acc.
  - by rewrite app_nil_r.
  - cbn [clean_from]. rewrite !decide_False by tauto. rewrite IH. cbn [rev]. by rewrite <-(assoc_L (++)).
Qed.

Lemma Split_concat cs : cs ≠ [] → Forall element cs → Split (String.concat "/" cs) "/" = cs.
Proof.
  intros Hne Hcs. induction Hcs as [|c cs (Hc & _) _ IH]; [done|].
  destruct cs as [|c' cs]; [by apply Split_plain|].
  change (String.concat "/" (c :: c' :: cs)) with (c +:+ "/" +:+ String.concat "/" (c' :: cs)).
  by rewrite Split_slash, Split_plain, IH.
Qed.

Lemma Clean_elements (pre : string) cs :
  cs ≠ [] → Forall element cs → pre = "/" ∨ pre = "//" →
  Clean (pre +:+ String.concat "/" cs) = "/" +:+ String.concat "/" cs.
Proof.
  intros Hne Hcs Hp. unfold Clean.
  assert (HasPrefix (pre +:+ String.concat "/" cs) "/" = true) as ->.
  { destruct Hp as [-> | ->]; unfold HasPrefix; [by rewrite CutPrefix_app|].
    change "//" with ("/" +:+ "/"). by rewrite app_assoc_str, CutPrefix_app. }
  assert (clean_from true [] (Split (pre +:+ String.concat "/" cs) "/") = cs) as ->; [|done].
  destruct Hp as [-> | ->].
  - change ("/" +:+ String.concat "/" cs) with ("" +:+ "/" +:+ String.concat "/" cs).
    rewrite Split_slash, Split_concat by done. cbn. by apply clean_from_elements.
  - change ("//" +:+ String.concat "/" cs) with ("" +:+ "/" +:+ ("" +:+ "/" +:+ String.concat "/" cs)).
    rewrite !Split_slash, Split_concat by done. cbn. by apply clean_from_elements.
Qed.

Lemma last_byte (c : string) :
  no_slash c → c ≠ "" → ∃ t a, c = t +:+ String a "" ∧ a ≠ "/"%char.
Proof.
  unfold no_slash. induction c as [|b c IH]; [done|]. cbn [String.list_ascii_of_string].
  intros [Hb Hc]%not_elem_of_cons _. destruct c as [|b' c].
  - exists "", b. by split; [|intros ->].
  - destruct (IH Hc) as (t & a & -> & Ha); [done|]. by exists (String b t), a.
Qed.

Lemma no_trailing_slash (pre : string) cs :
  cs ≠ [] → Forall element cs → HasSuffix (pre +:+ String.concat "/" cs) "/" = false.
Proof.
  intros Hne Hcs. destruct cs as [|d cs' _] using rev_ind; [done|].
  apply Forall_app in Hcs as [_ Hd]. inversion Hd as [|? ? (Hs & Hn & _) _]; subst.
  destruct (last_byte d Hs Hn) as (t & a & -> & Ha).
  rewrite concat_snoc, <-!app_assoc_str. unfold HasSuffix, HasPrefix. rewrite rev_app_str.
  change (String.rev (String a "")) with (String a "").
  cbn [String.append]. change (String.rev "/") with "/". 
  change (String a "" +:+ ?x) with (String a x). cbn [CutPrefix]. by rewrite decide_False.
Qed.

(** A request path names the image [img] among the files served. *)
Definition names_image s (root : list string) (upath img : string) : Prop :=
  ∃ cs, cs ≠ [] ∧ Forall element cs ∧ upath = "/" +:+ String.concat "/" cs ∧
    Localize (String.concat "/" cs) = Some (String.concat "/" cs) ∧
    HasSuffix upath indexPage = false ∧ s !! resolve s (root ++ cs) = Some (File img).

Lemma FileServer_image s root upath img range :
  names_image s root upath img → FileServer s root upath range = serveContent range img.
Proof.
  intros (cs & Hne & Hcs & -> & Hl & Hidx & Hf). unfold FileServer.
  assert (HasPrefix ("/" +:+ String.concat "/" cs) "/" = true) as ->
    by (unfold HasPrefix; by rewrite CutPrefix_app).
  unfold serveFile. rewrite Hidx, no_trailing_slash, Clean_elements by tauto. unfold dir_open.
  change ("/" +:+ "/" +:+ String.concat "/" cs) with ("//" +:+ String.concat "/" cs).
  rewrite Clean_elements, TrimPrefix_app by tauto.
  assert (String.concat "/" cs ≠ "" ∧ String.concat "/" cs ≠ ".") as [H0 H1].
  { destruct Hcs as [|c cs (_ & ? & ? & _) _]; [done|]. destruct cs; [done|].
    cbn [String.concat]. destruct c as [|a [|b c]]; done. }
  rewrite (decide_False (P := _ = "")) by done. rewrite Hl, decide_False, Split_concat by done.
  assert (node_at s (root ++ cs) = Some (File img)) as ->; [|done].
  unfold node_at. destruct (root ++ cs) eqn:E; [|done]. by apply app_nil in E as [_ ?].
Qed.

(** ** The server the downloader was written for *)

Section image.
Context (s : fs) (f : ServerFlags) (url img : string).
Context (Himg : names_image s (flag_dir f) (url_path url) img) (Hsize : str_len img < 2 ^ 63).

Lemma fetch_image n range :
  ∃ code body, serveContent range img = Answer code body ∧
    fetch (firmware_main s f) n url range = Ok (respond code body).
Proof.
  assert (answer_to (firmware_main s f) (url_path url) range = serveContent range img) as E
    by by apply FileServer_image.
  assert (∃ code body, serveContent range img = Answer code body) as (code & body & Ha).
  { unfold serveContent. repeat case_match; eauto. }
  exists code, body. split; [done|]. destruct n; cbn [fetch]; by rewrite E, Ha.
Qed.

Lemma serveContent_codes range code body :
  serveContent range img = Answer code body →
  (code = 200 ∧ body = img) ∨ code = 206 ∧ range ≠ "" ∨ code = 416 ∧ range ≠ "".
Proof.
  intros E. destruct (decide (range = "")) as [->|Hr].
  - rewrite serveContent_whole in E. left. by simplify_eq.
  - unfold serveContent in E. repeat case_match; simplify_eq; auto.
    all: unfold serveError in E; simplify_eq; auto.
Qed.

(** A transfer over the uplink is the beginning of the one the server sent. *)
Lemma over_uplink_inv range resp :
  over_uplink (firmware_main s f) url range (Ok resp) →
  StatusCode resp = 500 ∨
  ∃ body, serveContent (default "" range) img = Answer (StatusCode resp) body ∧
    is_prefix (Body resp) body ∧ (BodyErr resp = None → Body resp = body).
Proof.
  destruct (fetch_image 9 (default "" range)) as (code & body & Ha & Hf).
  intros [[? [=]]|[[? [= ->]]|(resp0 & E & Hr)]]; [by left|]. right. exists body.
  rewrite Hf in E. injection E as <-.
  destruct Hr as [[= ->]|(k & e & [= ->])]; cbn; split_and!; auto with progs. done.
Qed.

Lemma uplink_honest env :
  server env = over_uplink (firmware_main s f) → honest env url img.
Proof.
  intros Henv. split; rewrite Henv.
  - intros range resp [->|(body & Ha & Hp & Hw)]%over_uplink_inv Hst; [done|].
    rewrite Hst in Ha. apply serveContent_codes in Ha as [[_ ->]|[[? _]|[? _]]]; done.
  - intros pre rest resp E [H|(body & Ha & Hp & Hw)]%over_uplink_inv Hst; [by rewrite H in Hst|].
    rewrite E, Hst, serves_rest in Ha by by rewrite <-E. repeat case_match; try done. by simplify_eq.
  - intros resp [->|(body & Ha & Hp & Hw)]%over_uplink_inv Hst; [done|].
    apply serveContent_codes in Ha as [[H _]|[[_ H]|[_ H]]]; [|done|done]. by rewrite Hst in H.
Qed.

Lemma lan_prompt env :
  server env = over_lan (firmware_main s f) → prompt env url ∧ honest env url img.
Proof.
  intros Henv. split.
  - intros range r. rewrite Henv. intros ->.
    destruct (fetch_image 9 (default "" range)) as (code & body & Ha & ->).
    eexists. split_and!; [done|done|]. cbn.
    apply serveContent_codes in Ha as [[-> _]|[[-> _]|[-> Hr]]]; [by left|by right; left|].
    right; right. split; [done|]. by intros ->.
  - pose (env' := Build_dl_env (faults env) (over_uplink (firmware_main s f)) (valid_url env) (cancel env)).
    assert (honest env' url img) as [H1 H2 H3] by by apply uplink_honest.
    assert (∀ range resp, server env url range (Ok resp) → server env' url range (Ok resp)) as Hsub.
    { intros range resp H. rewrite Henv in H. right. right. exists resp. split; [done|by left]. }
    split; eauto.
Qed.
End image.
End server.
