(* ===== verification/ApiTypes.v ===== *)
(** * api/v1alpha1: the custom resources, and the libraries their controllers call

    The types of edgedevice_types.go and fleetrollout_types.go, the part of
    Kubernetes' object metadata the controllers use, and the promises of the
    library functions they call (the condition helpers of apimachinery, the
    finalizer helpers of controller-runtime) as type classes with one instance. *)

From S2P Require Import Prelude GoLib.
Open Scope Z_scope.

(** ** Time *)

(** An instant in nanoseconds from Go's zero time; a [time.Duration] is an int64. *)
Abbreviation time := Z (only parsing).

(** [t.Sub(u)] saturates at the bounds of a duration. *)
Definition Sub (t u : Z) : Z := Z.max MinInt64 (Z.min MaxInt64 (t - u)).

(** [IsZero] of a [*metav1.Time]. *)
Definition IsZero (t : option Z) : bool :=
  match t with None => true | Some t => t =? 0 end.

Definition Second : Z := 1000000000.

(** [Duration.String]: the fraction [v / 10^prec] with its trailing zeros and then
    the point dropped. *)
Fixpoint fmtFrac (prec : nat) (v : Z) (some : bool) (acc : string) : string * Z :=
  match prec with
  | O => (if some then "." +:+ acc else acc, v)
  | S p =>
      let digit := v mod 10 in
      let some := some || negb (digit =? 0) in
      fmtFrac p (v / 10) some (if some then Itoa digit +:+ acc else acc)
  end.

Definition micro : string :=
  String (Ascii.ascii_of_nat 194) (String (Ascii.ascii_of_nat 181) "s").

Definition Duration_text (d : Z) : string :=
  let u := Z.abs d in
  let body :=
    if u =? 0 then "0s"
    else if u <? 1000 then Itoa u +:+ "ns"
    else if u <? 1000000 then let (f, v) := fmtFrac 3 u false "" in Itoa v +:+ f +:+ micro
    else if u <? Second then let (f, v) := fmtFrac 6 u false "" in Itoa v +:+ f +:+ "ms"
    else
      let (f, v) := fmtFrac 9 u false "" in
      let s := Itoa (v mod 60) +:+ f +:+ "s" in
      let m := v / 60 in
      if m =? 0 then s
      else let s := Itoa (m mod 60) +:+ "m" +:+ s in
           let h := m / 60 in
           if h =? 0 then s else Itoa h +:+ "h" +:+ s in
  if d <? 0 then "-" +:+ body else body.

(** The text of a duration is short. *)
Lemma fmtFrac_bounds prec v some acc :
  0 ≤ v < 2 ^ 64 →
  (String.length (fmtFrac prec v some acc).1 ≤ 65 * prec + 1 + String.length acc)%nat ∧
  0 ≤ (fmtFrac prec v some acc).2 < 2 ^ 64.
Proof.
  revert v some acc. induction prec as [|p IH]; intros v some acc Hv; cbn [fmtFrac].
  { split; [|done]. destruct some; cbn [fst]; rewrite ?length_app_str; change (String.length ".") with 1%nat; lia. }
  assert (0 ≤ v / 10 < 2 ^ 64) as Hd by (Z.to_euclidean_division_equations; lia).
  assert (String.length (Itoa (v mod 10)) ≤ 65)%nat as Hi
    by (apply Itoa_length; Z.to_euclidean_division_equations; lia).
  destruct (IH (v / 10) (some || negb (v mod 10 =? 0))
    (if some || negb (v mod 10 =? 0) then Itoa (v mod 10) +:+ acc else acc) Hd) as [Hl Hr].
  split; [|done]. etrans; [exact Hl|]. case_match; rewrite ?length_app_str; lia.
Qed.

Lemma Duration_text_length d :
  MinInt64 ≤ d ≤ MaxInt64 → (String.length (Duration_text d) ≤ 1000)%nat.
Proof.
  intros Hd. unfold Duration_text. set (u := Z.abs d).
  assert (0 ≤ u < 2 ^ 64) as Hu by (unfold u; assert (MinInt64 = - 2 ^ 63 ∧ MaxInt64 = 2 ^ 63 - 1) as [? ?] by done; lia).
  match goal with |- context [if d <? 0 then "-" +:+ ?b else ?b] => set (body := b) end.
  assert (String.length body ≤ 900)%nat;
    [unfold body|clearbody body; case_match; rewrite ?length_app_str; simpl String.length; lia].
  assert (∀ z, 0 ≤ z < 2 ^ 64 → (String.length (Itoa z) ≤ 65)%nat) as Hi
    by (intros; apply Itoa_length; lia).
  pose proof (fmtFrac_bounds 3 u false "" Hu) as H3. pose proof (fmtFrac_bounds 6 u false "" Hu) as H6.
  pose proof (fmtFrac_bounds 9 u false "" Hu) as H9.
  destruct (fmtFrac 3 u false "") as [f3 v3], (fmtFrac 6 u false "") as [f6 v6],
    (fmtFrac 9 u false "") as [f9 v9]. simpl in H3, H6, H9.
  pose proof (Hi u Hu). pose proof (Hi v3 ltac:(lia)). pose proof (Hi v6 ltac:(lia)).
  pose proof (Hi (v9 mod 60) ltac:(Z.to_euclidean_division_equations; lia)).
  pose proof (Hi (v9 / 60 mod 60) ltac:(Z.to_euclidean_division_equations; lia)).
  pose proof (Hi (v9 / 60 / 60) ltac:(Z.to_euclidean_division_equations; lia)).
  repeat case_match; rewrite ?length_app_str; cbn [String.length micro]; lia.
Qed.

Example Duration_text_30s : Duration_text (30 * Second) = "30s".
Proof. vm_compute. reflexivity. Qed.
Example Duration_text_90s : Duration_text 90500000000 = "1m30.5s".
Proof. vm_compute. reflexivity. Qed.
Example Duration_text_ms : Duration_text 1500000 = "1.5ms".
Proof. vm_compute. reflexivity. Qed.

(** ** Object metadata *)

Record ObjectMeta := mkObjectMeta {
    Name : string;
    Namespace : string;
    UID : string;
    ResourceVersion : string;
    Generation : Z;
    DeletionTimestamp : option Z;
    Finalizers : list string;
    Labels : gmap string string;
    Annotations : option (gmap string string);   (* a nil map can be read, not written *)
  }.

Record Condition := mkCondition {
    Type' : string;
    Status' : string;
    ObservedGeneration' : Z;
    LastTransitionTime : Z;
    Reason : string;
    Message : string;
  }.

Definition ConditionTrue : string := "True".
Definition ConditionFalse : string := "False".
Definition ConditionUnknown : string := "Unknown".

(** ** EdgeDevice *)

Definition PhaseProvisioning : string := "Provisioning".
Definition PhaseReady : string := "Ready".
Definition PhaseUpgrading : string := "Upgrading".
Definition PhaseDegraded : string := "Degraded".

Definition ConditionHealthy : string := "Healthy".
Definition ConditionFirmwareSynced : string := "FirmwareSynced".

Record EdgeDeviceSpec := mkEdgeDeviceSpec {
    DesiredFirmwareVersion : string;
    FirmwareURL : string;
    ChecksumSHA256 : string;
    Region : string;
    DeviceLabels : gmap string string;
    RolloutPaused : bool;
  }.

Record EdgeDeviceStatus := mkEdgeDeviceStatus {
    Phase : string;
    Conditions : list Condition;
    CurrentFirmwareVersion : string;
    ActiveSlot : string;
    LastHeartbeat : option Z;
    ObservedGeneration : Z;
  }.

Record EdgeDevice := mkEdgeDevice {
    Meta : ObjectMeta;
    Spec : EdgeDeviceSpec;
    Status : EdgeDeviceStatus;
  }.

(** ** FleetRollout *)

Definition RolloutProgressing : string := "Progressing".
Definition RolloutPausedPhase : string := "Paused".
Definition RolloutComplete : string := "Complete".
Definition ConditionBreakerTripped : string := "BreakerTripped".

Record FleetRolloutSpec := mkFleetRolloutSpec {
    Selector : gmap string string;
    TargetVersion : string;
    TargetURL : string;
    TargetChecksum : string;
    MaxUnavailable : Z;
    FailureThresholdPercent : Z;
  }.

Record FleetRolloutStatus := mkFleetRolloutStatus {
    RPhase : string;
    Selected : Z;
    Targeted : Z;
    Succeeded : Z;
    Failed : Z;
    RConditions : list Condition;
    RObservedGeneration : Z;
  }.

Record FleetRollout := mkFleetRollout {
    RMeta : ObjectMeta;
    RSpec : FleetRolloutSpec;
    RStatus : FleetRolloutStatus;
  }.

Global Instance ObjectMeta_eq_dec : EqDecision ObjectMeta.
Proof. solve_decision. Defined.
Global Instance Condition_eq_dec : EqDecision Condition.
Proof. solve_decision. Defined.
Global Instance EdgeDeviceSpec_eq_dec : EqDecision EdgeDeviceSpec.
Proof. solve_decision. Defined.
Global Instance EdgeDeviceStatus_eq_dec : EqDecision EdgeDeviceStatus.
Proof. solve_decision. Defined.
Global Instance EdgeDevice_eq_dec : EqDecision EdgeDevice.
Proof. solve_decision. Defined.

(** Go's assignments to one field. *)
Definition with_status (d : EdgeDevice) (st : EdgeDeviceStatus) : EdgeDevice :=
  mkEdgeDevice (Meta d) (Spec d) st.

Definition with_finalizers (m : ObjectMeta) (fs : list string) : ObjectMeta :=
  mkObjectMeta (Name m) (Namespace m) (UID m) (ResourceVersion m) (Generation m)
    (DeletionTimestamp m) fs (Labels m) (Annotations m).

Definition set_paused (d : EdgeDevice) : EdgeDevice :=
  mkEdgeDevice (Meta d)
    (mkEdgeDeviceSpec (DesiredFirmwareVersion (Spec d)) (FirmwareURL (Spec d))
       (ChecksumSHA256 (Spec d)) (Region (Spec d)) (DeviceLabels (Spec d)) true)
    (Status d).

(** ** The library functions the controllers call *)

(** k8s.io/apimachinery/pkg/api/meta: what the two condition helpers promise.
    [SetStatusCondition now cs c] is the slice after the call at time [now]. *)
Class ConditionHelpers := {
    FindStatusCondition : list Condition → string → option Condition;
    SetStatusCondition : Z → list Condition → Condition → list Condition;
  }.

Class ConditionLaws (H : ConditionHelpers) : Prop := {
    find_type cs ty c : FindStatusCondition cs ty = Some c → Type' c = ty;
    find_in cs ty c : FindStatusCondition cs ty = Some c → c ∈ cs;
    find_none cs ty c : FindStatusCondition cs ty = None → c ∈ cs → Type' c ≠ ty;
    set_other now cs c ty :
      ty ≠ Type' c → FindStatusCondition (SetStatusCondition now cs c) ty = FindStatusCondition cs ty;
    set_same now cs c : ∃ t,
      FindStatusCondition (SetStatusCondition now cs c) (Type' c)
      = Some (mkCondition (Type' c) (Status' c) (ObservedGeneration' c) t (Reason c) (Message c)) ∧
      ∀ old, FindStatusCondition cs (Type' c) = Some old → Status' old = Status' c →
        t = LastTransitionTime old;
    set_nodup now cs c :
      NoDup (Type' <$> cs) → NoDup (Type' <$> SetStatusCondition now cs c);
  }.

(** sigs.k8s.io/controller-runtime/pkg/controller/controllerutil: the finalizer
    helpers, on the list of finalizers. *)
Class FinalizerHelpers := {
    ContainsFinalizer : list string → string → bool;
    AddFinalizer : list string → string → list string;
    RemoveFinalizer : list string → string → list string;
  }.

Class FinalizerLaws (H : FinalizerHelpers) : Prop := {
    contains_spec fs f : ContainsFinalizer fs f = true ↔ f ∈ fs;
    add_spec fs f g : g ∈ AddFinalizer fs f ↔ g = f ∨ g ∈ fs;
    remove_spec fs f g : g ∈ RemoveFinalizer fs f ↔ g ≠ f ∧ g ∈ fs;
  }.

(** The errors of the API client, known by their class only. *)
Class ApiErrors (E : Type) := {
    IsNotFound : E → bool;
    IsAlreadyExists : E → bool;
  }.

Definition IgnoreNotFound {E} `{ApiErrors E} (e : option E) : option E :=
  match e with Some e => if IsNotFound e then None else Some e | None => None end.
Definition IgnoreAlreadyExists {E} `{ApiErrors E} (e : option E) : option E :=
  match e with Some e => if IsAlreadyExists e then None else Some e | None => None end.

(** A write to the API server: refused, or carried out, and then answered anyhow. *)
Definition attempt {E W} (effect : W → Prop) (w : W) (r : option E) (w' : W) : Prop :=
  (r ≠ None ∧ w' = w) ∨ effect w'.

(** ** Instances *)

Definition find_cond (cs : list Condition) (ty : string) : option Condition :=
  snd <$> list_find (λ c, Type' c = ty) cs.

(** The condition that replaces [old]. *)
Definition merged (now : Z) (old : option Condition) (c : Condition) : Condition :=
  mkCondition (Type' c) (Status' c) (ObservedGeneration' c)
    match old with
    | Some old => if decide (Status' old = Status' c) then LastTransitionTime old else now
    | None => now
    end (Reason c) (Message c).

Fixpoint set_cond (now : Z) (cs : list Condition) (c : Condition) : list Condition :=
  match cs with
  | [] => [merged now None c]
  | old :: cs' =>
      if decide (Type' old = Type' c) then merged now (Some old) c :: cs'
      else old :: set_cond now cs' c
  end.

Definition plain_conditions : ConditionHelpers :=
  {| FindStatusCondition := find_cond; SetStatusCondition := set_cond |}.

Global Arguments find_cond : simpl never.

Lemma find_cond_cons c cs ty :
  find_cond (c :: cs) ty = if decide (Type' c = ty) then Some c else find_cond cs ty.
Proof.
  unfold find_cond. simpl. case_decide; [done|]. by destruct (list_find _ cs) as [[]|].
Qed.

(** Setting a condition adds its type at the end, if it is new. *)
Lemma set_cond_types now cs c :
  Type' <$> set_cond now cs c =
    if decide (Type' c ∈ Type' <$> cs) then Type' <$> cs else (Type' <$> cs) ++ [Type' c].
Proof.
  induction cs as [|x cs IH]; [done|]. cbn [set_cond].
  destruct (decide (Type' x = Type' c)) as [Hx|Hx]; rewrite !fmap_cons.
  - rewrite decide_True by (rewrite Hx; by left). cbn. by rewrite Hx.
  - rewrite IH. case_decide as Hin.
    + by rewrite decide_True by (by right).
    + rewrite decide_False; [done|]. rewrite elem_of_cons. intros [?|?]; congruence.
Qed.

Lemma plain_conditions_laws : ConditionLaws plain_conditions.
Proof.
  split; cbn.
  - intros cs ty c. induction cs as [|x cs IH]; [done|]. rewrite find_cond_cons.
    case_decide; [by intros [= ->]|done].
  - intros cs ty c. induction cs as [|x cs IH]; [done|]. rewrite find_cond_cons.
    case_decide; [intros [= ->]; by left|]. intros Hf. right. by apply IH.
  - intros cs ty c. induction cs as [|x cs IH]; [by intros _ ?%not_elem_of_nil|].
    rewrite find_cond_cons. case_decide; [done|]. intros Hf [->|Hc]%elem_of_cons; auto.
  - intros now cs c ty Hne. induction cs as [|x cs IH]; cbn [set_cond].
    + rewrite find_cond_cons. by rewrite decide_False by (cbn; congruence).
    + destruct (decide (Type' x = Type' c)) as [Hx|Hx]; rewrite !find_cond_cons.
      * cbn. by rewrite !decide_False by congruence.
      * by rewrite IH.
  - intros now cs c. induction cs as [|x cs (t & IH & Ht)]; cbn [set_cond].
    + exists now. rewrite find_cond_cons. by rewrite decide_True.
    + destruct (decide (Type' x = Type' c)) as [Hx|Hx]; rewrite !find_cond_cons.
      * eexists. rewrite decide_True by done. split; [done|].
        intros old. rewrite decide_True by done. intros [= <-] Hs. by rewrite decide_True.
      * exists t. by rewrite !decide_False.
  - intros now cs c Hnd. rewrite set_cond_types. case_decide as Hin; [done|].
    apply list.NoDup_app. split; [done|]. split; [|apply NoDup_singleton].
    intros x Hx ->%list_elem_of_singleton. done.
Qed.

Definition plain_finalizers : FinalizerHelpers := {|
    ContainsFinalizer fs f := bool_decide (f ∈ fs);
    AddFinalizer fs f := if decide (f ∈ fs) then fs else fs ++ [f];
    RemoveFinalizer fs f := filter (λ g, g ≠ f) fs;
  |}.

Lemma plain_finalizers_laws : FinalizerLaws plain_finalizers.
Proof.
  split; cbn; intros fs f.
  - apply bool_decide_eq_true.
  - intros g. case_decide as Hf; [split; [auto|by intros [-> | ?]]|].
    rewrite elem_of_app, list_elem_of_singleton. tauto.
  - intros g. by rewrite list_elem_of_filter.
Qed.
