(* ===== verification/Crd.v ===== *)
(** * config/crd/bases: what the API server admits

    The schemas of the two custom resources, generated from the markers of
    api/v1alpha1, as boolean functions on objects: patterns, enums, lengths, ranges
    and the uniqueness of conditions by type.  The patterns are regular expressions,
    matched by derivatives. *)

From S2P Require Import Prelude GoLib ApiTypes.
From Stdlib Require Import Ascii.
Open Scope Z_scope.

(** ** Patterns *)

Inductive regex :=
  | Never
  | Empty
  | Chars (p : ascii → bool)
  | Either (r1 r2 : regex)
  | Then (r1 r2 : regex)
  | Many (r : regex).

Fixpoint nullable (r : regex) : bool :=
  match r with
  | Never | Chars _ => false
  | Empty | Many _ => true
  | Either r1 r2 => nullable r1 || nullable r2
  | Then r1 r2 => nullable r1 && nullable r2
  end.

(** What is left to match after the character [a]. *)
Fixpoint deriv (a : ascii) (r : regex) : regex :=
  match r with
  | Never | Empty => Never
  | Chars p => if p a then Empty else Never
  | Either r1 r2 => Either (deriv a r1) (deriv a r2)
  | Then r1 r2 =>
      if nullable r1 then Either (Then (deriv a r1) r2) (deriv a r2) else Then (deriv a r1) r2
  | Many r => Then (deriv a r) (Many r)
  end.

(** The whole text matches, as between [^] and [$]. *)
Fixpoint matches (r : regex) (s : string) : bool :=
  match s with
  | EmptyString => nullable r
  | String a s => matches (deriv a r) s
  end.

(** What a pattern means, independently of derivatives. *)
Inductive denotes : regex → string → Prop :=
  | d_empty : denotes Empty EmptyString
  | d_chars p a : p a = true → denotes (Chars p) (String a EmptyString)
  | d_left r1 r2 s : denotes r1 s → denotes (Either r1 r2) s
  | d_right r1 r2 s : denotes r2 s → denotes (Either r1 r2) s
  | d_then r1 r2 s1 s2 : denotes r1 s1 → denotes r2 s2 → denotes (Then r1 r2) (s1 +:+ s2)
  | d_none r : denotes (Many r) EmptyString
  | d_more r s1 s2 : denotes r s1 → denotes (Many r) s2 → denotes (Many r) (s1 +:+ s2).

Lemma nullable_denotes r : nullable r = true → denotes r EmptyString.
Proof.
  induction r as [| |p|r1 IH1 r2 IH2|r1 IH1 r2 IH2|r IH]; simpl; try done; intros H.
  - constructor.
  - apply orb_true_iff in H as [H|H]; [by apply d_left, IH1|by apply d_right, IH2].
  - apply andb_true_iff in H as [H1 H2]. by apply (d_then _ _ EmptyString EmptyString); auto.
  - constructor.
Qed.

Lemma deriv_denotes a r s : denotes (deriv a r) s → denotes r (String a s).
Proof.
  revert s. induction r as [| |p|r1 IH1 r2 IH2|r1 IH1 r2 IH2|r IH]; simpl; intros s H.
  - inversion H.
  - inversion H.
  - destruct (p a) eqn:E; inversion H. by constructor.
  - inversion H; subst; [by apply d_left, IH1|by apply d_right, IH2].
  - assert (∀ s, denotes (Then (deriv a r1) r2) s → denotes (Then r1 r2) (String a s)) as Hthen.
    { intros s' H'. inversion H'; subst. apply (d_then _ _ (String a s1) s2); auto. }
    destruct (nullable r1) eqn:En; [|by apply Hthen].
    inversion H; subst; [by apply Hthen|].
    apply (d_then _ _ EmptyString (String a s)); [by apply nullable_denotes|by apply IH2].
  - inversion H; subst. apply (d_more _ (String a s1) s2); auto.
Qed.

Lemma denotes_nullable r s : denotes r s → s = EmptyString → nullable r = true.
Proof.
  induction 1 as [|p a|r1 r2 s H IH|r1 r2 s H IH|r1 r2 s1 s2 H1 IH1 H2 IH2|r|r s1 s2 H1 IH1 H2 IH2];
    simpl; intros E; try done.
  - by rewrite IH.
  - rewrite IH by done. apply orb_true_r.
  - destruct s1, s2; try done. by rewrite IH1, IH2.
Qed.

Lemma denotes_deriv r s a s' : denotes r s → s = String a s' → denotes (deriv a r) s'.
Proof.
  intros H. revert a s'.
  induction H as [|p b Hp|r1 r2 s H IH|r1 r2 s H IH|r1 r2 s1 s2 H1 IH1 H2 IH2|r|r s1 s2 H1 IH1 H2 IH2];
    intros a s' E; cbn [deriv]; try done.
  - injection E as -> <-. rewrite Hp. constructor.
  - by apply d_left, IH.
  - by apply d_right, IH.
  - destruct s1 as [|x s1].
    + rewrite (denotes_nullable _ _ H1 eq_refl). by apply d_right, IH2.
    + injection E as -> <-. assert (denotes (Then (deriv a r1) r2) (s1 +:+ s2))
        by (apply d_then; auto). destruct (nullable r1); [by apply d_left|done].
  - destruct s1 as [|x s1]; [by apply IH2|]. injection E as -> <-. apply d_then; auto.
Qed.

Lemma matches_denotes r s : matches r s = true ↔ denotes r s.
Proof.
  revert r. induction s as [|a s IH]; intros r; simpl.
  - split; [apply nullable_denotes|]. intros H. by eapply denotes_nullable.
  - rewrite IH. split; [apply deriv_denotes|]. intros H. by eapply denotes_deriv.
Qed.

(** *** Building blocks *)

Definition between (lo hi a : ascii) : bool :=
  ((N_of_ascii lo <=? N_of_ascii a) && (N_of_ascii a <=? N_of_ascii hi))%N.
Definition one_of (l : string) (a : ascii) : bool :=
  existsb (Ascii.eqb a) (String.list_ascii_of_string l).
Definition lower (a : ascii) : bool := between "a" "z" a.
Definition digit10 (a : ascii) : bool := between "0" "9" a.
Definition letter (a : ascii) : bool := lower a || between "A" "Z" a.
Definition alnum (a : ascii) : bool := letter a || digit10 a.

Definition Maybe (r : regex) : regex := Either Empty r.
Fixpoint Times (n : nat) (r : regex) : regex :=
  match n with O => Empty | S n => Then r (Times n r) end.
Fixpoint Text (s : string) : regex :=
  match s with EmptyString => Empty | String a s => Then (Chars (Ascii.eqb a)) (Text s) end.

(** ** metav1.Condition *)

(** [^[A-Za-z]([A-Za-z0-9_,:]*[A-Za-z0-9_])?$] *)
Definition reason_pattern : regex :=
  Then (Chars letter)
    (Maybe (Then (Many (Chars (λ a, alnum a || one_of "_,:" a))) (Chars (λ a, alnum a || one_of "_" a)))).

(** A DNS label, and the type of a condition: an optional domain and a name. *)
Definition label_pattern : regex :=
  let c a := lower a || digit10 a in
  Then (Chars c) (Maybe (Then (Many (Chars (λ a, c a || one_of "-" a))) (Chars c))).
Definition type_pattern : regex :=
  Then
    (Maybe (Then label_pattern (Then (Many (Then (Text ".") label_pattern)) (Text "/"))))
    (Then (Maybe (Then (Chars alnum) (Many (Chars (λ a, alnum a || one_of "-_." a))))) (Chars alnum)).

(** Lengths are counted in characters, not bytes: the continuation bytes of UTF-8
    are left out. *)
Fixpoint characters (s : string) : Z :=
  match s with
  | EmptyString => 0
  | String a s => (if between (ascii_of_nat 128) (ascii_of_nat 191) a then 0 else 1) + characters s
  end.

Definition condition_valid (c : Condition) : bool :=
  matches type_pattern (Type' c) && (characters (Type' c) <=? 316) &&
  bool_decide (Status' c ∈ [ConditionTrue; ConditionFalse; ConditionUnknown]) &&
  matches reason_pattern (Reason c) && (1 <=? characters (Reason c)) && (characters (Reason c) <=? 1024) &&
  (characters (Message c) <=? 32768) &&
  (0 <=? ObservedGeneration' c) && (ObservedGeneration' c <=? MaxInt64).

(** [+listType=map], [+listMapKey=type]. *)
Definition keyed_by_type (cs : list Condition) : Prop := NoDup (Type' <$> cs).

Definition conditions_valid (cs : list Condition) : bool :=
  bool_decide (keyed_by_type cs) && forallb condition_valid cs.

(** ** edgedevices.yaml *)

Definition DevicePhases : list string := [PhaseProvisioning; PhaseReady; PhaseUpgrading; PhaseDegraded].

Definition image_valid (version url checksum : string) : bool :=
  (1 <=? characters version) &&
  matches (Then (Text "http") (Then (Maybe (Text "s")) (Then (Text "://") (Many (Chars (λ _, true)))))) url &&
  matches (Times 64 (Chars (λ a, between "a" "f" a || digit10 a))) checksum.

Definition device_spec_valid (sp : EdgeDeviceSpec) : bool :=
  image_valid (DesiredFirmwareVersion sp) (FirmwareURL sp) (ChecksumSHA256 sp).

Definition int_fits (w z : Z) : bool := (- 2 ^ (w - 1) <=? z) && (z <? 2 ^ (w - 1)).

(** An empty phase is left out of the JSON. *)
Definition device_status_valid (st : EdgeDeviceStatus) : bool :=
  bool_decide (Phase st = "" ∨ Phase st ∈ DevicePhases) && conditions_valid (Conditions st) &&
  int_fits 64 (ObservedGeneration st).

Definition device_valid (d : EdgeDevice) : bool :=
  device_spec_valid (Spec d) && device_status_valid (Status d).

(** ** fleetrollouts.yaml *)

Definition RolloutPhases : list string := [RolloutProgressing; RolloutPausedPhase; RolloutComplete].

Definition rollout_spec_valid (sp : FleetRolloutSpec) : bool :=
  bool_decide (Selector sp ≠ ∅) && image_valid (TargetVersion sp) (TargetURL sp) (TargetChecksum sp) &&
  (1 <=? MaxUnavailable sp) && int_fits 32 (MaxUnavailable sp) &&
  (1 <=? FailureThresholdPercent sp) && (FailureThresholdPercent sp <=? 100).

Definition rollout_status_valid (st : FleetRolloutStatus) : bool :=
  bool_decide (RPhase st = "" ∨ RPhase st ∈ RolloutPhases) && conditions_valid (RConditions st) &&
  int_fits 32 (Selected st) && int_fits 32 (Targeted st) && int_fits 32 (Succeeded st) &&
  int_fits 32 (Failed st) && int_fits 64 (RObservedGeneration st).

Definition rollout_valid (ro : FleetRollout) : bool :=
  rollout_spec_valid (RSpec ro) && rollout_status_valid (RStatus ro).

(** ** Lemmas *)

Lemma int_fits_spec w z : int_fits w z = true ↔ fits w z.
Proof. unfold int_fits, fits. rewrite andb_true_iff, Z.leb_le, Z.ltb_lt. done. Qed.

Lemma conditions_valid_spec cs :
  conditions_valid cs = true ↔ keyed_by_type cs ∧ ∀ c, c ∈ cs → condition_valid c = true.
Proof.
  unfold conditions_valid. rewrite andb_true_iff, bool_decide_eq_true, forallb_forall.
  setoid_rewrite list_elem_of_In. done.
Qed.

Lemma characters_bounds s : 0 ≤ characters s ≤ Z.of_nat (String.length s).
Proof. induction s as [|a s IH]; simpl; [lia|]. case_match; lia. Qed.

(** Setting a valid condition keeps a list of conditions valid, by the promises of
    package meta alone. *)
Lemma set_valid `{HC : !ConditionHelpers, HCL : !ConditionLaws HC} now cs c :
  conditions_valid cs = true → condition_valid c = true →
  conditions_valid (SetStatusCondition now cs c) = true.
Proof.
  rewrite !conditions_valid_spec. intros [Hk Hcs] Hc. split; [by apply set_nodup|].
  intros x Hx. pose proof (set_nodup now cs c Hk) as Hk'. 
  destruct (FindStatusCondition (SetStatusCondition now cs c) (Type' x)) as [y|] eqn:Hy.
  2: { by destruct (find_none _ _ x Hy Hx). }
  assert (x = y) as ->.
  { pose proof (find_type _ _ _ Hy) as Ht. apply find_in in Hy.
    apply list_elem_of_lookup in Hx as [i Hi], Hy as [j Hj].
    assert (i = j) as ->; [|congruence].
    eapply (NoDup_lookup _ i j (Type' x) Hk').
    - rewrite list_lookup_fmap, Hi. done.
    - rewrite list_lookup_fmap, Hj. cbn. congruence. }
  clear Hx. destruct (decide (Type' y = Type' c)) as [Ht|Ht].
  - destruct (set_same now cs c) as (t & Hs & _). rewrite Ht, Hs in Hy.
    injection Hy as <-. exact Hc.
  - rewrite set_other in Hy by done. by apply Hcs, (find_in _ _ _ Hy).
Qed.
