(* ===== verification/DeviceController.v ===== *)
(** * internal/controller/edgedevice_controller.go: the device reconciler

    One pass of [Reconcile] as a program over the Kubernetes client and the clock;
    the projection of a status, the comparison that gates the write, and the
    credential Secret with its finalizer. *)

From S2P Require Import Prelude GoLib Sha256 ApiTypes.
Open Scope Z_scope.

Definition deviceFinalizer : string := "edge.example.com/device-cleanup".
Definition credFingerprintKey : string := "edge.example.com/device-uid".
Definition defaultHeartbeatTimeout : Z := 30 * Second.

(** A core/v1 Secret, as far as the reconciler reads and writes it. *)
Record Secret := mkSecret {
    SName : string;
    SNamespace : string;
    SAnnotations : option (gmap string string);
    SLabels : gmap string string;
    Data : gmap string string;
  }.

Global Instance Secret_eq_dec : EqDecision Secret.
Proof. solve_decision. Defined.

(** The client calls and the other effects of a pass. *)
Inductive devop :=
  | CGet (ns name : string)
  | CUpdate (d : EdgeDevice)
  | CStatusUpdate (d : EdgeDevice)
  | SGet (ns name : string)
  | SCreate (s : Secret)
  | SUpdate (s : Secret)
  | SDelete (ns name : string)
  | Now                       (* r.Now, or time.Now; also the clock of package meta *)
  | RandRead                  (* sixteen bytes from crypto/rand *)
  | DPanic (msg : string).

Section reconciler.
Context {E : Type} `{!ApiErrors E} `{!ConditionHelpers} `{!FinalizerHelpers}.

Definition devres (o : devop) : Type :=
  match o with
  | CGet _ _ => result E EdgeDevice
  | SGet _ _ => result E Secret
  | Now => Z
  | RandRead => string
  | DPanic _ => Empty_set
  | _ => option E
  end.

Definition devS : sig := Sig devop devres.

Definition call (o : devop) : prog devS (devres o) := trigger (o : act devS).

(** ctrl.Result: the time after which to come back, 0 for never. *)
Definition Result : Type := Z.

(** ** The status projection *)

Definition effective_timeout (HeartbeatTimeout : Z) : Z :=
  if HeartbeatTimeout =? 0 then defaultHeartbeatTimeout else HeartbeatTimeout.

(** The condition [healthy] once a case has filled it in. *)
Definition healthy (dev : EdgeDevice) (status reason message : string) : Condition :=
  mkCondition ConditionHealthy status (Generation (Meta dev)) 0 reason message.

(** The agent reported the end of a failed upgrade. *)
Definition upgrade_failed (cs : list Condition) : bool :=
  match FindStatusCondition cs ConditionFirmwareSynced with
  | Some c => bool_decide (Status' c = ConditionFalse ∧ Reason c ≠ "UpgradeInProgress")
  | None => false
  end.

(** The phase of a device whose heartbeat is fresh. *)
Definition live_phase (dev : EdgeDevice) : string :=
  if upgrade_failed (Conditions (Status dev)) then PhaseDegraded
  else if decide (CurrentFirmwareVersion (Status dev) = DesiredFirmwareVersion (Spec dev))
  then PhaseReady else PhaseUpgrading.

(** The end of [projectStatus]: the phase and the condition set on the copy. *)
Definition project (dev : EdgeDevice) (phase : string) (c : Condition) (requeue : Z) :
  prog devS (EdgeDeviceStatus * Z) :=
  let st := Status dev in
  now <- call Now ;;
  Ret (mkEdgeDeviceStatus phase (SetStatusCondition now (Conditions st) c)
       (CurrentFirmwareVersion st) (ActiveSlot st) (LastHeartbeat st) (ObservedGeneration st),
     requeue).

Definition projectStatus (HeartbeatTimeout : Z) (dev : EdgeDevice) :
  prog devS (EdgeDeviceStatus * Z) :=
  let timeout := effective_timeout HeartbeatTimeout in
  match LastHeartbeat (Status dev) with
  | None =>
    project dev PhaseProvisioning
      (healthy dev ConditionUnknown "AwaitingFirstHeartbeat" "device has not reported in yet")
      timeout
  | Some hb =>
    now <- call Now ;;
    if timeout <? Sub now hb then
      project dev PhaseDegraded
        (healthy dev ConditionFalse "HeartbeatTimeout"
           ("no heartbeat for more than " +:+ Duration_text timeout)) timeout
    else
      now <- call Now ;;
      let age := Sub now hb in
      let remaining := int64 (int64 (timeout - age) + Second) in
      project dev (live_phase dev)
        (healthy dev ConditionTrue "HeartbeatFresh" "agent is reporting")
        (if 0 <? remaining then remaining else timeout)
  end.

Definition statusEqual (a b : EdgeDeviceStatus) : bool :=
  if decide (Phase a = Phase b) then
  match FindStatusCondition (Conditions a) ConditionHealthy,
        FindStatusCondition (Conditions b) ConditionHealthy with
  | Some ca, Some cb =>
      bool_decide (Status' ca = Status' cb ∧ Reason ca = Reason cb ∧
                   ObservedGeneration' ca = ObservedGeneration' cb)
  | None, None => true
  | _, _ => false
  end
  else false.

(** ** The credential *)

Definition credentialSecretName (deviceName : string) : string := "device-cred-" +:+ deviceName.

Definition newToken : prog devS string :=
  b <- call RandRead ;;
  Ret (hex_encode b).

(** Reading an absent key, of a nil map too, gives the empty string. *)
Definition annotation (m : option (gmap string string)) (key : string) : string :=
  default "" (m ≫= lookup key).

Definition ensureCredentialSecret (dev : EdgeDevice) : prog devS (option E) :=
  let name := credentialSecretName (Name (Meta dev)) in
  let uid := UID (Meta dev) in
  r <- call (SGet (Namespace (Meta dev)) name) ;;
  match r with
  | Ok existing =>
    if decide (annotation (SAnnotations existing) credFingerprintKey = uid) then Ret None
    else
      match SAnnotations existing with
      | None =>
          bind (call (DPanic "assignment to entry in nil map"))
            (λ r : Empty_set, match r return prog devS (option E) with end)
      | Some annotations =>
          token <- newToken ;;
          call (SUpdate (mkSecret (SName existing) (SNamespace existing)
                           (Some (<[credFingerprintKey := uid]> annotations))
                           (SLabels existing) {[ "token" := token ]}))
      end
  | Err err =>
    if IsNotFound err then
      token <- newToken ;;
      err <- call (SCreate (mkSecret name (Namespace (Meta dev))
                              (Some {[ credFingerprintKey := uid ]})
                              {[ "edge.example.com/device" := Name (Meta dev) ]}
                              {[ "token" := token ]})) ;;
      match err with
      | Some err => Ret (IgnoreAlreadyExists (Some err))
      | None => Ret None
      end
    else Ret (Some err)
  end.

Definition revokeCredential (dev : EdgeDevice) : prog devS (option E) :=
  err <- call (SDelete (Namespace (Meta dev)) (credentialSecretName (Name (Meta dev)))) ;;
  Ret (IgnoreNotFound err).

(** ** One pass *)

Definition with_own_finalizers (dev : EdgeDevice) (fs : list string) : EdgeDevice :=
  mkEdgeDevice (with_finalizers (Meta dev) fs) (Spec dev) (Status dev).

(** The deletion path. *)
Definition finalize (dev : EdgeDevice) : prog devS (Result * option E) :=
  if ContainsFinalizer (Finalizers (Meta dev)) deviceFinalizer then
  guard revokeCredential dev catch err => Ret (0, Some err) ;;
  guard call (CUpdate (with_own_finalizers dev
                         (RemoveFinalizer (Finalizers (Meta dev)) deviceFinalizer)))
    catch err => Ret (0, Some err) ;;
  Ret (0, None)
  else Ret (0, None).

(** From the credential to the status write. *)
Definition observe (HeartbeatTimeout : Z) (dev : EdgeDevice) : prog devS (Result * option E) :=
  guard ensureCredentialSecret dev catch err => Ret (0, Some err) ;;
  projected <- projectStatus HeartbeatTimeout dev ;;
  let '(newStatus, requeueAfter) := projected in
  if statusEqual (Status dev) newStatus then Ret (requeueAfter, None)
  else
  let st := Status dev in
  guard call (CStatusUpdate (with_status dev
          (mkEdgeDeviceStatus (Phase newStatus) (Conditions newStatus)
             (CurrentFirmwareVersion st) (ActiveSlot st) (LastHeartbeat st)
             (ObservedGeneration st))))
    catch err => Ret (0, Some err) ;;
  Ret (requeueAfter, None).

Definition Reconcile (HeartbeatTimeout : Z) (ns name : string) : prog devS (Result * option E) :=
  r <- call (CGet ns name) ;;
  match r with
  | Err err => Ret (0, IgnoreNotFound (Some err))
  | Ok dev =>
    if negb (IsZero (DeletionTimestamp (Meta dev))) then finalize dev
    else if negb (ContainsFinalizer (Finalizers (Meta dev)) deviceFinalizer) then
      guard call (CUpdate (with_own_finalizers dev
                             (AddFinalizer (Finalizers (Meta dev)) deviceFinalizer)))
        catch err => Ret (0, Some err) ;;
      Ret (0, None)
    else observe HeartbeatTimeout dev
  end.
End reconciler.
Global Arguments devS : clear implicits.
Global Arguments devres : clear implicits.
