(* ===== verification/DeviceLife.v ===== *)
(** * The life of a device's credential

    The API server and the controller's cache as the reconciler meets them: other
    clients write between any two calls, the cache lags behind, any call may fail
    with or without its effect.  Passes run one at a time, each possibly cut off.
    Through all of that a credential exists only while its device does, under the
    finalizer, and carries that instance's fingerprint. *)

From S2P Require Import Prelude GoLib Sha256 ApiTypes DeviceController.
Open Scope Z_scope.

(** The object under one key: the revisions the cache has yet to take over, oldest
    first, then the one stored; the versions ever used; the device's credential. *)
Record cluster := mkCluster {
    lag : list (option EdgeDevice);
    live : option EdgeDevice;
    used : gset string;
    cred : option Secret;
  }.

Definition revisions (w : cluster) : list (option EdgeDevice) := lag w ++ [live w].
Definition cached (w : cluster) : option EdgeDevice := default (live w) (head (lag w)).
Definition set_cred (w : cluster) (s : option Secret) : cluster :=
  mkCluster (lag w) (live w) (used w) s.
Definition version (r : option EdgeDevice) : gset string :=
  match r with Some d => {[ ResourceVersion (Meta d) ]} | None => ∅ end.
Definition store (w : cluster) (r : option EdgeDevice) : cluster :=
  mkCluster (lag w ++ [live w]) r (used w ∪ version r) (cred w).

Definition finalized (d : EdgeDevice) : Prop := deviceFinalizer ∈ Finalizers (Meta d).

(** A device of the instance [u] is stored and under the finalizer. *)
Definition held (u : string) (r : option EdgeDevice) : Prop :=
  ∃ d, r = Some d ∧ UID (Meta d) = u ∧ finalized d.

Lemma annotation_insert (m : gmap string string) k v : annotation (Some (<[k:=v]> m)) k = v.
Proof. unfold annotation. simpl. by rewrite lookup_insert_eq. Qed.

Lemma annotation_singleton k v :
  annotation (Some ({[ k := v ]} : gmap string string)) k = v.
Proof. apply annotation_insert. Qed.

Section life.
Context {E : Type} `{HE : !ApiErrors E} `{HC : !ConditionHelpers}.
Context `{HF : !FinalizerHelpers, !FinalizerLaws HF}.
Variables ns name : string.

Definition keyed (d : EdgeDevice) : Prop :=
  Namespace (Meta d) = ns ∧ Name (Meta d) = name.

(** The revision that may follow [d]: the server gives it a version of its own and
    keeps the identity; nobody but this controller takes its finalizer away, and
    the object goes only when no finalizer of ours is left. *)
Definition revision_of (w : cluster) (d : EdgeDevice) (r : option EdgeDevice) : Prop :=
  match r with
  | Some d' => keyed d' ∧ (ResourceVersion (Meta d') ∉ used w) ∧
               UID (Meta d') = UID (Meta d)
  | None => True
  end.

Inductive others : cluster → cluster → Prop :=
  | deliver r lag live used cred :
    others (mkCluster (r :: lag) live used cred) (mkCluster lag live used cred)
  | creates w d :
    live w = None → keyed d → ResourceVersion (Meta d) ∉ used w →
    others w (store w (Some d))
  | modifies w d r :
    live w = Some d → revision_of w d r →
    (finalized d → held (UID (Meta d)) r) →
    others w (store w r).

(** The effect of an update that carries the version of [d]: the server refuses any
    other version, and a deleted object goes with its last finalizer. *)
Definition updated (w : cluster) (d : EdgeDevice) (w' : cluster) : Prop :=
  ∃ d0 r, live w = Some d0 ∧ ResourceVersion (Meta d) = ResourceVersion (Meta d0) ∧
    revision_of w d0 r ∧ w' = store w r ∧
    match r with
    | Some d' => Finalizers (Meta d') = Finalizers (Meta d)
    | None => Finalizers (Meta d) = []
    end.

Definition status_updated (w : cluster) (d : EdgeDevice) (w' : cluster) : Prop :=
  ∃ d0 d', live w = Some d0 ∧ ResourceVersion (Meta d) = ResourceVersion (Meta d0) ∧
    revision_of w d0 (Some d') ∧ Finalizers (Meta d') = Finalizers (Meta d0) ∧
    w' = store w (Some d').

Definition own_secret (n m : string) : Prop := n = ns ∧ m = credentialSecretName name.

(** One call, once the others have had their turn.  Reads may be answered from the
    past; reading a Secret may give anything filed under its name. *)
Definition answers (o : devop) (w : cluster) : devres E o → cluster → Prop :=
  match o return devres E o → cluster → Prop with
  | CGet n m => λ r w', (w' = w) ∧
      match r with Ok d => n = ns → m = name → cached w = Some d | Err _ => True end
  | CUpdate d => λ r w', attempt (updated w d) w r w'
  | CStatusUpdate d => λ r w', attempt (status_updated w d) w r w'
  | SGet n m => λ r w', (w' = w) ∧
      match r with Ok s => SNamespace s = n ∧ SName s = m | Err _ => True end
  | SCreate s => λ r w',
      if decide (SNamespace s = ns ∧ SName s = credentialSecretName name)
      then attempt (λ w', cred w = None ∧ w' = set_cred w (Some s)) w r w' else w' = w
  | SUpdate s => λ r w',
      if decide (SNamespace s = ns ∧ SName s = credentialSecretName name)
      then attempt (λ w', cred w ≠ None ∧ w' = set_cred w (Some s)) w r w' else w' = w
  | SDelete n m => λ r w',
      if decide (n = ns ∧ m = credentialSecretName name)
      then (∃ e, r = Some e ∧ (IsNotFound e = true → cred w = None) ∧ w' = w) ∨
           w' = set_cred w None
      else w' = w
  | Now | RandRead => λ _ w', w' = w
  | DPanic _ => λ _ _, False
  end.

Definition cluster_sem : Sem (devS E) cluster :=
  λ o w r w', ∃ w1, rtc others w w1 ∧ answers o w1 r w'.
Local Instance csem : Sem (devS E) cluster := cluster_sem.

(** Passes run one after the other, each up to its end or up to a crash. *)
Inductive reachable (T : Z) (w0 : cluster) : cluster → Prop :=
  | reach_init : reachable T w0 w0
  | reach_pass w p w' :
    reachable T w0 w → rtc pstep (Reconcile T ns name, w) (p, w') → reachable T w0 w'.

(** ** The invariant *)

(** What every revision of the lag promises of the later ones. *)
Definition promises (r r' : option EdgeDevice) : Prop :=
  match r with
  | Some d =>
      (∀ d', r' = Some d' → ResourceVersion (Meta d') ≠ ResourceVersion (Meta d)) ∧
      (IsZero (DeletionTimestamp (Meta d)) = true →
       finalized d → held (UID (Meta d)) r')
  | None => True
  end.

Definition filed (w : cluster) (r : option EdgeDevice) : Prop :=
  match r with Some d => keyed d ∧ ResourceVersion (Meta d) ∈ used w | None => True end.

Record cinv (w : cluster) : Prop := {
  inv_promises : StronglySorted promises (revisions w);
  inv_filed : Forall (filed w) (revisions w);
  inv_cred : ∀ s, cred w = Some s →
    held (annotation (SAnnotations s) credFingerprintKey) (live w);
  }.

Lemma held_fun u1 u2 r : held u1 r → held u2 r → u1 = u2.
Proof. intros (d1 & -> & <- & _) (d2 & [= <-] & <- & _). done. Qed.

(** The next stored revision: one the last may be followed by, with a version of
    its own, taken up by the invariant. *)
Lemma promises_last w r :
  StronglySorted promises (revisions w) → r ∈ lag w → promises r (live w).
Proof.
  intros Hs Hr. apply (StronglySorted_app_1_elem_of _ _ _ _ _ Hs Hr).
  by apply list_elem_of_singleton.
Qed.

Lemma promises_self d u : UID (Meta d) = u → finalized d → held u (Some d).
Proof. by exists d. Qed.

Lemma cinv_store w r :
  cinv w →
  (∀ d', r = Some d' → keyed d' ∧ ResourceVersion (Meta d') ∉ used w) →
  ((∃ d, live w = Some d ∧ lag w = [] ∧ IsZero (DeletionTimestamp (Meta d)) = false ∧
     cred w = None) ∨ (∀ u, held u (live w) → held u r)) →
  cinv (store w r).
Proof.
  intros [Hp Hf Hc] Hr Hlive. split; unfold revisions; cbn.
  - apply StronglySorted_app_2; [|done|by repeat constructor].
    intros x y Hx ->%list_elem_of_singleton. destruct x as [d|]; [|done].
    assert (Hd : filed w (Some d)) by (rewrite list.Forall_forall in Hf; by apply Hf).
    split.
    { intros d' ->. destruct (Hr _ eq_refl) as [_ Hn]. destruct Hd as [_ Hd].
      intros Heq. by rewrite Heq in Hn. }
    intros Hz Hfin. destruct Hlive as [(d1 & Hl & Hg & Hz1 & _)|Hlive].
    { apply elem_of_app in Hx as [Hx|Hx%list_elem_of_singleton].
      - by rewrite Hg in Hx; apply not_elem_of_nil in Hx.
      - rewrite Hl in Hx. simplify_eq. congruence. }
    apply Hlive. apply elem_of_app in Hx as [Hx|Hx%list_elem_of_singleton].
    { by apply (promises_last _ _ Hp Hx). }
    rewrite <-Hx. by exists d.
  - apply Forall_app. split; [|apply Forall_singleton].
    + eapply list.Forall_impl; [exact Hf|]. intros [d|]; cbn; [|done]. rewrite elem_of_union. tauto.
    + destruct r as [d|]; cbn; [|done]. destruct (Hr _ eq_refl).
      split; [done|]. rewrite elem_of_union, elem_of_singleton. auto.
  - intros s Hs. destruct Hlive as [(d1 & _ & _ & _ & Hn)|Hlive]; [congruence|]. by apply Hlive, Hc.
Qed.

(** What a pass knows of the device it read: none of the others' writes can undo it. *)
Definition read_from (w : cluster) (d : EdgeDevice) : Prop :=
  keyed d ∧ ResourceVersion (Meta d) ∈ used w ∧
  ∀ d0, live w = Some d0 → ResourceVersion (Meta d0) = ResourceVersion (Meta d) →
        d0 = d ∧ lag w = [].

Lemma others_inv w w' : others w w' → cinv w → cinv w'.
Proof.
  intros [r l li u c|w1 d Hl Hk Hn|w1 d r Hl Hr Hh] Hi.
  - destruct Hi as [Hp Hf Hc]. split; [|by inversion Hf|done].
    by apply StronglySorted_inv in Hp as [? _].
  - apply cinv_store; [done|by intros ? [= <-]|]. right. intros u (d' & Hd & _). congruence.
  - apply cinv_store; [done| |].
    + intros d' ->. by destruct Hr as (? & ? & _).
    + right. intros u (d' & Hd & <- & Hfin). rewrite Hl in Hd. simplify_eq. by apply Hh.
Qed.

Lemma others_cred w w' : others w w' → cred w' = cred w.
Proof. by intros []. Qed.

Lemma others_read w w' d : others w w' → read_from w d → read_from w' d.
Proof.
  intros Ho (Hk & Hu & Hd). destruct Ho as [r l li u c|w1 d1 Hl _ Hn|w1 d1 r Hl Hr _].
  - split_and!; [done|done|]. intros d0 H1 H2. by destruct (Hd d0 H1 H2).
  - split_and!; [done|cbn; rewrite elem_of_union; auto|]. cbn. intros d0 [= <-] Heq. by rewrite Heq in Hn.
  - split_and!; [done|cbn; rewrite elem_of_union; auto|]. cbn. intros d0 -> Heq.
    destruct Hr as (_ & Hn & _). by rewrite Heq in Hn.
Qed.

Lemma others_held w w' u : others w w' → held u (live w) → held u (live w').
Proof.
  intros [r l li us c|w1 d1 Hl _ _|w1 d1 r Hl _ Hh] Hu; [done|..].
  - destruct Hu as (? & ? & _). congruence.
  - destruct Hu as (d' & Hd & <- & Hfin). rewrite Hl in Hd. simplify_eq. by apply Hh.
Qed.

(** The same over any number of the others' writes. *)
Lemma turns_inv w w' : rtc others w w' → cinv w → cinv w'.
Proof. induction 1; eauto using others_inv. Qed.
Lemma turns_cred w w' : rtc others w w' → cred w' = cred w.
Proof. induction 1 as [|w1 w2 w3 Ho _ ->]; [done|]. by apply others_cred. Qed.
Lemma turns_read w w' d : rtc others w w' → read_from w d → read_from w' d.
Proof. induction 1; eauto using others_read. Qed.
Lemma turns_held w w' u : rtc others w w' → held u (live w) → held u (live w').
Proof. induction 1; eauto using others_held. Qed.

Lemma call_ok o Q w :
  cinv w →
  (∀ w1 r w', rtc others w w1 → cinv w1 → answers o w1 r w' → cinv w' ∧ Q r w') →
  wpi (call o) cinv Q w.
Proof.
  intros Hw Ho. split; [done|]. intros r w' (w1 & H1 & Ha).
  apply (Ho w1); eauto using turns_inv.
Qed.

Lemma read_ok w d :
  cinv w → cached w = Some d →
  read_from w d ∧
  (IsZero (DeletionTimestamp (Meta d)) = true → finalized d → held (UID (Meta d)) (live w)).
Proof.
  intros [Hp Hf _] Hd. unfold cached in Hd.
  assert (Some d ∈ revisions w) as Hin.
  { unfold revisions. destruct (lag w); simpl in *; rewrite Hd; by left. }
  rewrite list.Forall_forall in Hf. destruct (Hf _ Hin) as [Hk Hu].
  destruct (lag w) as [|r l] eqn:Hl; simpl in Hd.
  - split; [|intros _ ?; by exists d]. split_and!; [done|done|]. intros d0 H0 _. rewrite Hd in H0. by simplify_eq.
  - subst r. assert (promises (Some d) (live w)) as [Hv Hh].
    { apply promises_last; [done|]. rewrite Hl. by left. }
    split; [|done]. split_and!; [done|done|]. intros d0 H0 Heq. by destruct (Hv d0 H0).
Qed.

Lemma write_attempt_ok effect w (r : option E) w' :
  cinv w → (∀ w', effect w' → cinv w') → attempt effect w r w' → cinv w'.
Proof. intros Hw He [[_ ->]|H']; auto. Qed.

(** Writing the finalizers of the device the pass read. *)
Lemma update_ok w d fs :
  cinv w → read_from w d →
  (deviceFinalizer ∈ fs ∨ IsZero (DeletionTimestamp (Meta d)) = false ∧ cred w = None) →
  wpi (call (CUpdate (with_own_finalizers d fs))) cinv (λ _, cinv) w.
Proof.
  intros Hw Hr Hfs. apply call_ok; [done|]. intros w1 r w' H1 Hw1 Ha.
  apply (turns_read _ _ _ H1) in Hr as (_ & _ & Hr). pose proof (turns_cred _ _ H1) as Hc.
  enough (cinv w') by done. revert Ha. apply write_attempt_ok; [done|].
  clear w'. intros w' (d0 & r' & Hl & Hrv & Hrev & -> & Hf).
  destruct (Hr _ Hl (eq_sym Hrv)) as [-> Hlag]. apply cinv_store; [done| |].
  - intros d' ->. by destruct Hrev as (? & ? & _).
  - destruct Hfs as [Hin|[Hz Hn]].
    + right. intros u (d1 & Hd & <- & _). rewrite Hl in Hd. simplify_eq.
      destruct r' as [d'|]; cbn in *; [|subst; by apply not_elem_of_nil in Hin].
      destruct Hrev as (_ & _ & Hu). exists d'. split_and!; [done|done|]. unfold finalized. by rewrite Hf.
    + left. exists d. by rewrite Hc.
Qed.

Lemma status_ok w d : cinv w → wpi (call (CStatusUpdate d)) cinv (λ _, cinv) w.
Proof.
  intros Hw. apply call_ok; [done|]. intros w1 r w' _ Hw1 Ha.
  enough (cinv w') by done. revert Ha. apply write_attempt_ok; [done|].
  clear w'. intros w' (d0 & d' & Hl & _ & Hrev & Hf & ->). apply cinv_store; [done| |].
  - intros ? [= <-]. by destruct Hrev as (? & ? & _).
  - right. intros u (d1 & Hd & <- & Hfin). rewrite Hl in Hd. simplify_eq.
    destruct Hrev as (_ & _ & Hu). exists d'. split_and!; [done|done|]. unfold finalized. by rewrite Hf.
Qed.

Lemma set_cred_ok w s :
  cinv w → held (annotation (SAnnotations s) credFingerprintKey) (live w) →
  cinv (set_cred w (Some s)).
Proof. intros [Hp Hf _] Hh. split; [done|done|]. by intros ? [= <-]. Qed.

(** Filing a credential with the fingerprint of a device that is held. *)
Lemma fingerprint_ok o s w :
  (o = SCreate s ∨ o = SUpdate s) →
  cinv w → held (annotation (SAnnotations s) credFingerprintKey) (live w) →
  wpi (call o) cinv (λ _, cinv) w.
Proof.
  intros Ho Hw Hh. apply call_ok; [done|]. intros w1 r w' H1 Hw1 Ha.
  enough (cinv w') by done. apply (turns_held _ _ _ H1) in Hh.
  destruct Ho as [-> | ->]; revert r Ha; cbn; case_decide; try (by intros r ->);
    intros r; apply write_attempt_ok; try done; intros w2 [_ ->]; by apply set_cred_ok.
Qed.

Lemma read_secret_ok n m w :
  cinv w →
  wpi (call (SGet n m)) cinv (λ r w', cinv w' ∧ rtc others w w' ∧
    match r with Ok s => SNamespace s = n ∧ SName s = m | Err _ => True end) w.
Proof.
  intros Hw. apply call_ok; [done|]. intros w1 r w' H1 Hw1 [-> Hr]. done.
Qed.

Lemma clock_ok w : cinv w → wpi (call Now) cinv (λ _ w', cinv w' ∧ rtc others w w') w.
Proof. intros Hw. apply call_ok; [done|]. by intros w1 t w' H1 Hw1 ->. Qed.

Lemma newToken_ok w : cinv w → wpi newToken cinv (λ _ w', cinv w' ∧ rtc others w w') w.
Proof.
  intros Hw. unfold newToken. apply wpi_bind, call_ok; [done|]. intros w1 t w' H1 Hw1 ->. done.
Qed.

Lemma ensureCredentialSecret_ok d w :
  cinv w → held (UID (Meta d)) (live w) →
  wpi (ensureCredentialSecret d) cinv (λ _, cinv) w.
Proof.
  intros Hw Hh. unfold ensureCredentialSecret.
  apply wpi_bind. eapply wpi_mono; [by apply read_secret_ok|done|].
  intros r w1 _ (Hw1 & H1 & _). apply (turns_held _ _ _ H1) in Hh.
  destruct r as [s|e].
  - case_decide; [done|]. destruct (SAnnotations s) as [m|].
    + apply wpi_bind. eapply wpi_mono; [by apply newToken_ok|done|].
      intros tok w2 _ (Hw2 & H2). apply (turns_held _ _ _ H2) in Hh.
      eapply fingerprint_ok; [by right|done|]. cbn [SAnnotations]. by rewrite annotation_insert.
    + apply wpi_bind, call_ok; [done|]. by intros w2 [].
  - destruct (IsNotFound e); [|done]. apply wpi_bind.
    eapply wpi_mono; [by apply newToken_ok|done|].
    intros tok w2 _ (Hw2 & H2). apply (turns_held _ _ _ H2) in Hh.
    apply wpi_bind. eapply wpi_mono;
      [eapply fingerprint_ok; [by left|done|cbn [SAnnotations]; by rewrite annotation_singleton]|done|].
    by intros [e'|] w3 _ Hw3.
Qed.

Lemma revokeCredential_ok d w :
  cinv w → read_from w d →
  wpi (revokeCredential d) cinv
    (λ r w', cinv w' ∧ read_from w' d ∧ (r = None → cred w' = None)) w.
Proof.
  intros Hw Hr. unfold revokeCredential. apply wpi_bind, call_ok; [done|].
  intros w1 r w' H1 Hw1 Ha. apply (turns_read _ _ _ H1) in Hr.
  enough (cinv w' ∧ read_from w' d ∧ (IgnoreNotFound r = None → cred w' = None)) as (? & ? & ?)
    by (split; [done|]; by split_and!).
  cbn in Ha. pose proof Hr as ((Hns & Hnm) & _). rewrite decide_True in Ha by (by rewrite Hns, Hnm).
  destruct Ha as [(e & -> & Hn & ->)| ->].
  - split_and!; [done|done|]. cbn. by destruct (IsNotFound e); auto.
  - split_and!; [|done|done]. destruct Hw1. by split.
Qed.

Lemma projectStatus_keeps T d w :
  cinv w → wpi (projectStatus T d) cinv (λ _, cinv) w.
Proof.
  intros Hw. assert (Hproj : ∀ ph c rq w, cinv w → wpi (project d ph c rq) cinv (λ _, cinv) w).
  { intros. unfold project. apply wpi_bind. eapply wpi_mono; [by apply clock_ok|done|].
    intros t w' _ [? _]. done. }
  unfold projectStatus. destruct (LastHeartbeat (Status d)) as [hb|]; [|by apply Hproj].
  apply wpi_bind. eapply wpi_mono; [by apply clock_ok|done|]. intros t w1 _ [Hw1 _].
  case_match; [by apply Hproj|]. apply wpi_bind.
  eapply wpi_mono; [by apply clock_ok|done|]. intros t2 w2 _ [Hw2 _]. by apply Hproj.
Qed.

Lemma observe_ok T d w :
  cinv w → held (UID (Meta d)) (live w) → wpi (observe T d) cinv (λ _, cinv) w.
Proof.
  intros Hw Hh. unfold observe. apply wpi_bind.
  eapply wpi_mono; [by apply ensureCredentialSecret_ok|done|]. intros [e|] w1 _ Hw1; [done|].
  apply wpi_bind. eapply wpi_mono; [by apply projectStatus_keeps|done|].
  intros [st rq] w2 _ Hw2. case_match; [done|]. apply wpi_bind.
  eapply wpi_mono; [by apply status_ok|done|]. by intros [e|] w3 _ Hw3.
Qed.

Lemma finalize_ok d w :
  cinv w → read_from w d → IsZero (DeletionTimestamp (Meta d)) = false →
  wpi (finalize d) cinv (λ _, cinv) w.
Proof.
  intros Hw Hr Hz. unfold finalize. case_match; [|done]. apply wpi_bind.
  eapply wpi_mono; [by apply revokeCredential_ok|done|]. intros [e|] w1 _ (Hw1 & Hr1 & Hc); [done|].
  apply wpi_bind. eapply wpi_mono; [apply update_ok; [done|done|by right; auto]|done|].
  by intros [e|] w2 _ Hw2.
Qed.

(** A pass keeps the invariant between any two of its calls. *)
Lemma Reconcile_ok T w : cinv w → wpi (Reconcile T ns name) cinv (λ _, cinv) w.
Proof.
  intros Hw. unfold Reconcile. apply wpi_bind, call_ok; [done|].
  intros w1 r w' _ Hw1 [-> Hr]. split; [done|]. destruct r as [d|e]; [|done].
  destruct (read_ok _ _ Hw1 (Hr eq_refl eq_refl)) as [Hd Hh].
  destruct (IsZero _) eqn:Hz; cbn [negb]; [|by apply finalize_ok].
  destruct (ContainsFinalizer _ _) eqn:Hc; cbn [negb].
  - apply observe_ok; [done|]. apply Hh; [done|]. by apply contains_spec.
  - apply wpi_bind. eapply wpi_mono; [apply update_ok; [done|done|]|done|].
    + left. apply add_spec. by left.
    + by intros [e|] w2 _ Hw2.
Qed.

Lemma reachable_inv T w0 w : cinv w0 → reachable T w0 w → cinv w.
Proof.
  intros H0. induction 1 as [|w p w' _ IH Hs]; [done|].
  eapply wpi_reachable; [by apply Reconcile_ok|done].
Qed.
End life.

(** ** An API server that answers at once *)

Inductive api_error := NotFound | AlreadyExists | Conflict.

Global Instance demo_errors : ApiErrors api_error := {|
    IsNotFound e := match e with NotFound => true | _ => false end;
    IsAlreadyExists e := match e with AlreadyExists => true | _ => false end;
  |}.

Definition caught_up (w : cluster) : cluster := mkCluster [] (live w) (used w) (cred w).

Definition next_version (w : cluster) : string := "rv" +:+ pretty (size (used w)).

Definition with_meta (d0 : EdgeDevice) (rv : string) (fs : list string) (sp : EdgeDeviceSpec)
    (st : EdgeDeviceStatus) : EdgeDevice :=
  let m := Meta d0 in
  mkEdgeDevice (mkObjectMeta (Name m) (Namespace m) (UID m) rv (Generation m)
    (DeletionTimestamp m) fs (Labels m) (Annotations m)) sp st.

(** A write that must find the stored version. *)
Definition compare_and_store (ns name : string) (w : cluster) (d : EdgeDevice) (next : EdgeDevice → option EdgeDevice) :
    option (option api_error * cluster) :=
  match live w with
  | None => Some (Some NotFound, w)
  | Some d0 =>
      if decide (ResourceVersion (Meta d) = ResourceVersion (Meta d0)) then
        if decide (keyed ns name d0 ∧ next_version w ∉ used w) then Some (None, store w (next d0))
        else None
      else Some (Some Conflict, w)
  end.

Definition prompt_server (ns name token : string) (o : act (devS api_error)) (w : cluster) :
    option (res o * cluster) :=
  let w := caught_up w in
  match o return option (devres api_error o * cluster) with
  | CGet n m =>
      if decide (n = ns ∧ m = name) then
        Some (match live w with Some d => Ok d | None => Err NotFound end, w)
      else Some (Err NotFound, w)
  | CUpdate d => compare_and_store ns name w d (λ d0,
      if decide (Finalizers (Meta d) = [] ∧ IsZero (DeletionTimestamp (Meta d0)) = false) then None
      else Some (with_meta d0 (next_version w) (Finalizers (Meta d)) (Spec d) (Status d0)))
  | CStatusUpdate d => compare_and_store ns name w d (λ d0,
      Some (with_meta d0 (next_version w) (Finalizers (Meta d0)) (Spec d0) (Status d)))
  | SGet n m =>
      match cred w with
      | Some s => if decide (SNamespace s = n ∧ SName s = m) then Some (Ok s, w)
                  else Some (Err NotFound, w)
      | None => Some (Err NotFound, w)
      end
  | SCreate s =>
      if decide (SNamespace s = ns ∧ SName s = credentialSecretName name) then
        match cred w with
        | Some _ => Some (Some AlreadyExists, w)
        | None => Some (None, set_cred w (Some s))
        end
      else Some (None, w)
  | SUpdate s =>
      if decide (SNamespace s = ns ∧ SName s = credentialSecretName name) then
        match cred w with
        | Some _ => Some (None, set_cred w (Some s))
        | None => Some (Some NotFound, w)
        end
      else Some (Some NotFound, w)
  | SDelete n m =>
      if decide (n = ns ∧ m = credentialSecretName name) then
        match cred w with
        | Some _ => Some (None, set_cred w None)
        | None => Some (Some NotFound, w)
        end
      else Some (None, w)
  | Now => Some (1000 * Second, w)
  | RandRead => Some (token, w)
  | DPanic _ => None
  end.

Lemma caught_up_others ns name w : rtc (others ns name) w (caught_up w).
Proof.
  destruct w as [l li u c]. unfold caught_up. cbn.
  induction l as [|r l IH]; [done|]. eapply rtc_l; [constructor|done].
Qed.

Lemma compare_and_store_attempt ns name w d next r w' (effect : cluster → Prop) :
  compare_and_store ns name w d next = Some (r, w') →
  (∀ d0, live w = Some d0 → ResourceVersion (Meta d) = ResourceVersion (Meta d0) →
     keyed ns name d0 → next_version w ∉ used w → effect (store w (next d0))) →
  attempt effect w r w'.
Proof.
  unfold compare_and_store. intros Hc He. destruct (live w) as [d0|].
  - case_decide; [|simplify_eq; by left]. case_decide as Hd; [|done]. simplify_eq.
    right. by apply He; destruct Hd.
  - simplify_eq. by left.
Qed.

Lemma prompt_server_handles ns name token :
  handles (Sem0 := cluster_sem ns name) (prompt_server ns name token).
Proof.
  intros o w r w' Ho. exists (caught_up w). split; [apply caught_up_others|].
  set (w1 := caught_up w) in *. revert Ho.
  destruct o as [n m|d|d|n m|s|s|n m| | |msg]; cbn [prompt_server answers]; fold w1; intros Ho.
  - case_decide as Hk; simplify_eq; [|done]. split; [done|]. cbn. by destruct (live w).
  - refine (compare_and_store_attempt _ _ _ _ _ _ _ _ Ho _). intros d0 Hl Hv Hk Hn.
    exists d0. eexists. split_and!; [done|done| |done|]; case_decide as Hz; try done.
    by destruct Hz.
  - refine (compare_and_store_attempt _ _ _ _ _ _ _ _ Ho _). intros d0 Hl Hv Hk Hn.
    exists d0, (with_meta d0 (next_version w1) (Finalizers (Meta d0)) (Spec d0) (Status d)).
    by split_and!.
  - destruct (cred w1); [case_decide|]; by simplify_eq.
  - case_decide; [|by simplify_eq]. destruct (cred w1) eqn:Hc; simplify_eq; [by left|by right].
  - case_decide; [|by simplify_eq]. destruct (cred w1) eqn:Hc; simplify_eq; [by right|by left].
  - case_decide; [|by simplify_eq]. destruct (cred w1) eqn:Hc; simplify_eq; [by right|left; eauto].
  - by simplify_eq.
  - by simplify_eq.
  - done.
Qed.

(** ** A device enrols, and is deleted *)

Definition demo_dev : EdgeDevice :=
  mkEdgeDevice
    (mkObjectMeta "edge-001" "default" "uid-1" "rv" 1 None [] ∅ None)
    (mkEdgeDeviceSpec "v2" "http://fw/v2.bin" "" "" ∅ false)
    (mkEdgeDeviceStatus "" [] "" "" None 0).

Definition day_one : cluster := mkCluster [] (Some demo_dev) {[ "rv" ]} None.

(** One complete pass on the prompt server. *)
Definition a_pass `{!ConditionHelpers, !FinalizerHelpers} (w : cluster) : cluster :=
  match run (prompt_server "default" "edge-001" "0123456789abcdef")
          (Reconcile (E := api_error) 0 "default" "edge-001") w with
  | Some (_, w') => w'
  | None => w
  end.

(** A user asks for the deletion. *)
Definition deleted (w : cluster) : cluster :=
  match live w with
  | Some d => store w (Some (mkEdgeDevice
      (mkObjectMeta (Name (Meta d)) (Namespace (Meta d)) (UID (Meta d)) (next_version w)
         (Generation (Meta d)) (Some (2000 * Second)) (Finalizers (Meta d)) (Labels (Meta d))
         (Annotations (Meta d))) (Spec d) (Status d)))
  | None => w
  end.

Lemma a_pass_reachable `{!ConditionHelpers, !FinalizerHelpers} w0 w :
  reachable (E := api_error) "default" "edge-001" 0 w0 w →
  reachable (E := api_error) "default" "edge-001" 0 w0 (a_pass w).
Proof.
  intros Hw. unfold a_pass. destruct (run _ _ w) as [[a w']|] eqn:Hrun; [|done].
  eapply reach_pass; [done|]. eapply (run_steps (Sem0 := cluster_sem "default" "edge-001")); [|done].
  apply prompt_server_handles.
Qed.

(** The whole life: finalizer, credential, deletion, release. *)
Example device_life :
  let H1 := plain_conditions in let H2 := plain_finalizers in
  let w1 := a_pass day_one in let w2 := a_pass w1 in let w3 := a_pass (deleted w2) in
  (cred w1, bool_decide (is_Some (cred w2)), bool_decide (is_Some (live w2)), cred w3, live w3)
  = (None, true, true, None, None).
Proof. vm_compute. reflexivity. Qed.

(** ** The property *)

(** C6. A credential never outlives its device.  Other clients create, change and
    delete the device between any two calls, the cache lags, calls fail with or
    without their effect, and a pass may be cut off anywhere: whenever a credential
    exists, its device is stored and still under the finalizer, and the credential
    bears that very instance's fingerprint.  Assumed of the other clients: they
    leave this controller's finalizer and the credentials alone. *)
Theorem credential_never_outlives_device {E : Type} `{HE : !ApiErrors E, HC : !ConditionHelpers}
    `{HF : !FinalizerHelpers, HL : !FinalizerLaws HF} ns name T w0 w s :
  lag w0 = [] → cred w0 = None →
  (∀ d, live w0 = Some d → keyed ns name d ∧ ResourceVersion (Meta d) ∈ used w0) →
  reachable (E := E) ns name T w0 w →
  cred w = Some s →
  ∃ d, live w = Some d ∧ deviceFinalizer ∈ Finalizers (Meta d) ∧
       annotation (SAnnotations s) credFingerprintKey = UID (Meta d).
Proof.
  intros Hl Hc Hk Hw Hs.
  assert (cinv ns name w0) as H0.
  { split; unfold revisions; rewrite ?Hl; [by repeat constructor| |by rewrite Hc].
    apply Forall_singleton. destruct (live w0); [by apply Hk|done]. }
  apply (reachable_inv _ _ _ _ _ H0) in Hw.
  destruct (inv_cred _ _ _ Hw s Hs) as (d & ? & ? & ?). by exists d.
Qed.

Lemma credential_never_outlives_device_witness :
  let H1 := plain_conditions in let H2 := plain_finalizers in
  let w := a_pass (a_pass day_one) in
  ∃ s, cred w = Some s ∧
  ∃ d, live w = Some d ∧ deviceFinalizer ∈ Finalizers (Meta d) ∧
       annotation (SAnnotations s) credFingerprintKey = UID (Meta d).
Proof.
  intros H1 H2 w.
  assert (is_Some (cred w)) as [s Hs] by (apply (bool_decide_unpack _); vm_compute; exact I).
  exists s. split; [exact Hs|].
  apply (credential_never_outlives_device (E := api_error) (HL := plain_finalizers_laws)
           "default" "edge-001" 0 day_one w s).
  - reflexivity.
  - reflexivity.
  - clear. intros d [= <-]. split; [done|]. apply (bool_decide_unpack _). vm_compute. exact I.
  - apply a_pass_reachable, a_pass_reachable, reach_init.
  - exact Hs.
Defined.
