(* ===== verification/DeviceStatus.v ===== *)
(** * The status a device is given

    What [projectStatus] computes and whose fields it leaves alone, when it asks to
    be woken, why a redundant event costs no write, and what a pass reports of the
    calls that failed. *)

From S2P Require Import Prelude GoLib Sha256 ApiTypes DeviceController DeviceLife.
Open Scope Z_scope.

Section projection.
Context {E : Type} `{HE : !ApiErrors E} `{HC : !ConditionHelpers, HCL : !ConditionLaws HC}.
Context `{HF : !FinalizerHelpers}.

(** ** The specification *)

(** The agent's last word is that the upgrade failed. *)
Definition upgrade_over (dev : EdgeDevice) : Prop :=
  ∃ c, FindStatusCondition (Conditions (Status dev)) ConditionFirmwareSynced = Some c ∧
       Status' c = ConditionFalse ∧ Reason c ≠ "UpgradeInProgress".

(** At time [t] the last heartbeat is at most the timeout old. *)
Definition fresh (T : Z) (dev : EdgeDevice) (t : Z) : Prop :=
  ∃ hb, LastHeartbeat (Status dev) = Some hb ∧ Sub t hb ≤ effective_timeout T.

(** Phase, status and reason of the Healthy condition at time [t]. *)
Definition verdict (T : Z) (dev : EdgeDevice) (t : Z) : string * string * string :=
  match LastHeartbeat (Status dev) with
  | None => (PhaseProvisioning, ConditionUnknown, "AwaitingFirstHeartbeat")
  | Some hb =>
      if effective_timeout T <? Sub t hb then (PhaseDegraded, ConditionFalse, "HeartbeatTimeout")
      else (live_phase dev, ConditionTrue, "HeartbeatFresh")
  end.

(** The Healthy condition of [st], as far as gate 1 looks at it. *)
Definition shows (st : EdgeDeviceStatus) (gen : Z) (v : string * string * string) : Prop :=
  Phase st = v.1.1 ∧
  ∃ c, FindStatusCondition (Conditions st) ConditionHealthy = Some c ∧
       Status' c = v.1.2 ∧ Reason c = v.2 ∧ ObservedGeneration' c = gen.

(** The agent's fields and every other condition are the device's own. *)
Definition facts_kept (st st' : EdgeDeviceStatus) : Prop :=
  CurrentFirmwareVersion st' = CurrentFirmwareVersion st ∧ ActiveSlot st' = ActiveSlot st ∧
  LastHeartbeat st' = LastHeartbeat st ∧ ObservedGeneration st' = ObservedGeneration st ∧
  ∀ ty, ty ≠ ConditionHealthy →
    FindStatusCondition (Conditions st') ty = FindStatusCondition (Conditions st) ty.

(** ** A clock that only moves forward *)

Definition clock_sem : Sem (devS E) Z :=
  λ o w r w', w ≤ w' ∧ match o return devres E o → Prop with Now => λ t, t = w' | _ => λ _, True end r.
Local Instance tick_sem : Sem (devS E) Z := clock_sem.

Lemma upgrade_failed_spec dev : upgrade_failed (Conditions (Status dev)) = true ↔ upgrade_over dev.
Proof.
  unfold upgrade_failed, upgrade_over.
  destruct (FindStatusCondition _ ConditionFirmwareSynced) as [c|].
  - rewrite bool_decide_eq_true. split; [by intros []; exists c|]. by intros (? & [= ->] & ?).
  - split; [done|]. by intros (? & ? & _).
Qed.

(** The status [project] builds. *)
Definition projected (now : Z) (dev : EdgeDevice) (ph : string) (c : Condition) : EdgeDeviceStatus :=
  let st := Status dev in
  mkEdgeDeviceStatus ph (SetStatusCondition now (Conditions st) c)
    (CurrentFirmwareVersion st) (ActiveSlot st) (LastHeartbeat st) (ObservedGeneration st).

Lemma projected_ok now dev ph status reason msg :
  let st := projected now dev ph (healthy dev status reason msg) in
  facts_kept (Status dev) st ∧ shows st (Generation (Meta dev)) (ph, status, reason).
Proof.
  split.
  - split_and!; try done. intros ty Hty. by apply set_other.
  - split; [done|].
    destruct (set_same now (Conditions (Status dev)) (healthy dev status reason msg)) as (t & Ht & _).
    eexists. split; [exact Ht|]. done.
Qed.

Lemma project_ok dev ph status reason msg rq w :
  wp (project dev ph (healthy dev status reason msg) rq)
     (λ p w', w ≤ w' ∧ p.2 = rq ∧ facts_kept (Status dev) p.1 ∧
        shows p.1 (Generation (Meta dev)) (ph, status, reason)) w.
Proof.
  split; [done|]. intros now w' [Hw ->]. split; [done|]. split; [done|]. split; [done|].
  apply (projected_ok w').
Qed.

(** Everything a projection promises, with the instant [t] it judged the heartbeat at. *)
Lemma projectStatus_ok T dev w :
  wp (projectStatus T dev)
     (λ '(st, rq) w', ∃ t, w ≤ t ≤ w' ∧
        facts_kept (Status dev) st ∧ shows st (Generation (Meta dev)) (verdict T dev t) ∧
        match LastHeartbeat (Status dev) with
        | Some hb => if effective_timeout T <? Sub t hb then rq = effective_timeout T
            else ∃ t2, t ≤ t2 ≤ w' ∧
              let remaining := int64 (int64 (effective_timeout T - Sub t2 hb) + Second) in
              rq = if 0 <? remaining then remaining else effective_timeout T
        | None => rq = effective_timeout T
        end) w.
Proof.
  unfold projectStatus, verdict. destruct (LastHeartbeat (Status dev)) as [hb|].
  - split; [done|]. intros t1 w1 [H1 ->]. cbn [bind]. destruct (effective_timeout T <? Sub w1 hb) eqn:Hx.
    + eapply wpi_mono; [apply project_ok|done|]. intros [st rq] w3 _ (H3 & Hrq & ? & ?); simpl in Hrq; subst rq.
      exists w1. rewrite Hx. split; [lia|done].
    + split; [done|]. intros t2 w2 [H2 ->].
      eapply wpi_mono; [apply project_ok|done|]. intros [st rq] w3 _ (H3 & Hrq & ? & ?); simpl in Hrq; subst rq.
      exists w1. rewrite Hx. split; [lia|]. split_and!; [done|done|]. exists w2. split; [lia|done].
  - eapply wpi_mono; [apply project_ok|done|]. intros [st rq] w3 _ (H3 & Hrq & ? & ?); simpl in Hrq; subst rq.
    exists w. split; [lia|done].
Qed.

(** Waking up is never early and never more than the second late. *)
Lemma wake_up T t t2 hb :
  0 < T ≤ 2 ^ 62 → hb - t ≤ 2 ^ 61 → t ≤ t2 → Sub t hb ≤ T →
  let remaining := int64 (int64 (T - Sub t2 hb) + Second) in
  let rq := if 0 <? remaining then remaining else T in
  0 < rq ∧ hb + T < t2 + rq ∧ (t2 ≤ hb + T → t2 + rq = hb + T + Second).
Proof.
  intros HT Hskew Hle Hfresh remaining rq.
  assert (Hs : Second = 1000000000) by done.
  assert (HM : MaxInt64 = 2 ^ 63 - 1 ∧ MinInt64 = - 2 ^ 63) by done.
  assert (int64 (T - Sub t2 hb) = T - Sub t2 hb) as Hi.
  { apply wrap_id; [done|]. unfold fits, Sub. lia. }
  assert (remaining = T - Sub t2 hb + Second) as Hr.
  { subst remaining. rewrite Hi. apply wrap_id; [done|]. unfold fits, Sub. lia. }
  subst rq. rewrite Hr. unfold Sub in *. destruct (0 <? _) eqn:Hz; lia.
Qed.

Lemma effective_timeout_bounds T :
  0 ≤ T ≤ 2 ^ 62 → 0 < effective_timeout T ≤ 2 ^ 62.
Proof.
  intros HT. unfold effective_timeout. destruct (T =? 0) eqn:Hz; [|lia].
  by vm_compute.
Qed.

(** The verdict in words. *)
Definition phase_means (T : Z) (dev : EdgeDevice) (t : Z) (ph : string) : Prop :=
  (ph = PhaseProvisioning ↔ LastHeartbeat (Status dev) = None) ∧
  (ph = PhaseReady ↔ fresh T dev t ∧ ¬ upgrade_over dev ∧
     CurrentFirmwareVersion (Status dev) = DesiredFirmwareVersion (Spec dev)) ∧
  (ph = PhaseUpgrading ↔ fresh T dev t ∧ ¬ upgrade_over dev ∧
     CurrentFirmwareVersion (Status dev) ≠ DesiredFirmwareVersion (Spec dev)) ∧
  (ph = PhaseDegraded ↔ LastHeartbeat (Status dev) ≠ None ∧ (fresh T dev t → upgrade_over dev)).

Lemma fresh_iff T dev t hb :
  LastHeartbeat (Status dev) = Some hb → fresh T dev t ↔ Sub t hb ≤ effective_timeout T.
Proof. intros Hhb. unfold fresh. rewrite Hhb. split; [by intros (? & [= ->] & ?)|by exists hb]. Qed.

Lemma live_phase_means dev :
  (upgrade_over dev ∧ live_phase dev = PhaseDegraded) ∨
  (¬ upgrade_over dev ∧ CurrentFirmwareVersion (Status dev) = DesiredFirmwareVersion (Spec dev) ∧
     live_phase dev = PhaseReady) ∨
  (¬ upgrade_over dev ∧ CurrentFirmwareVersion (Status dev) ≠ DesiredFirmwareVersion (Spec dev) ∧
     live_phase dev = PhaseUpgrading).
Proof.
  pose proof (upgrade_failed_spec dev) as Hf. unfold live_phase.
  destruct (upgrade_failed _); [left; split; [by apply Hf|done]|right].
  assert (¬ upgrade_over dev) by (intros Hu; by apply Hf in Hu).
  case_decide; [by left|by right].
Qed.

Lemma verdict_means T dev t : phase_means T dev t (verdict T dev t).1.1.
Proof.
  unfold phase_means, verdict. destruct (LastHeartbeat (Status dev)) as [hb|] eqn:Hhb.
  - rewrite !(fresh_iff _ _ _ _ Hhb). destruct (effective_timeout T <? Sub t hb) eqn:Hx.
    + apply Z.ltb_lt in Hx. assert (¬ Sub t hb ≤ effective_timeout T) by lia.
      split_and!; split; intros; destruct_and?; done.
    + apply Z.ltb_ge in Hx. cbn [fst snd].
      destruct (live_phase_means dev) as [[Hu ->]|[(Hu & Hv & ->)|(Hu & Hv & ->)]];
        split_and!; split; intros; destruct_and?; try done; try (by split); by exfalso; auto.
  - assert (¬ fresh T dev t) by (intros (? & ? & _); congruence).
    split_and!; split; intros; by destruct_and?.
Qed.
End projection.

(** ** A calm stretch: nobody else writes, no call fails *)

Record calm := mkCalm { clock : Z; dev_at : EdgeDevice; cred_at : option Secret }.

Section calm.
Context {E : Type} `{HE : !ApiErrors E} `{HC : !ConditionHelpers, HCL : !ConditionLaws HC}.
Context `{HF : !FinalizerHelpers}.

(** What the server may change of an object when it stores it: its version. *)
Definition same_but_version (m m' : ObjectMeta) : Prop :=
  Name m' = Name m ∧ Namespace m' = Namespace m ∧ UID m' = UID m ∧
  Generation m' = Generation m ∧ DeletionTimestamp m' = DeletionTimestamp m ∧
  Finalizers m' = Finalizers m.

Definition calm_answers (o : devop) (w : calm) : devres E o → calm → Prop :=
  match o return devres E o → calm → Prop with
  | CGet _ _ => λ r w', (r = Ok (dev_at w)) ∧ w' = w
  | CUpdate d => λ r w', (r = None) ∧ ∃ m, Finalizers m = Finalizers (Meta d) ∧
      same_but_version (with_finalizers (Meta (dev_at w)) (Finalizers (Meta d))) m ∧
      w' = mkCalm (clock w) (mkEdgeDevice m (Spec d) (Status (dev_at w))) (cred_at w)
  | CStatusUpdate d => λ r w', (r = None) ∧ ∃ m, same_but_version (Meta (dev_at w)) m ∧
      w' = mkCalm (clock w) (mkEdgeDevice m (Spec (dev_at w)) (Status d)) (cred_at w)
  | SGet _ _ => λ r w', (w' = w) ∧
      match cred_at w with Some s => r = Ok s | None => ∃ e, r = Err e ∧ IsNotFound e = true end
  | SCreate s | SUpdate s => λ r w', (r = None) ∧ w' = mkCalm (clock w) (dev_at w) (Some s)
  | SDelete _ _ => λ r w', (r = None) ∧ w' = mkCalm (clock w) (dev_at w) None
  | Now => λ t w', (t = clock w) ∧ w' = w
  | RandRead => λ _ w', w' = w
  | DPanic _ => λ _ _, False
  end.

Definition calm_sem : Sem (devS E) calm := λ o w r w', calm_answers o w r w'.
Local Instance csem : Sem (devS E) calm := calm_sem.

Definition is_read (o : devop) : Prop :=
  match o with CGet _ _ | SGet _ _ | Now => True | _ => False end.

(** A device nobody deletes, under the finalizer. *)
Definition enrolled (d : EdgeDevice) : Prop :=
  IsZero (DeletionTimestamp (Meta d)) = true ∧
  ContainsFinalizer (Finalizers (Meta d)) deviceFinalizer = true.

Definition owns_cred (d : EdgeDevice) (s : option Secret) : Prop :=
  ∃ s0, s = Some s0 ∧ annotation (SAnnotations s0) credFingerprintKey = UID (Meta d).

(** Everything is as a pass at this instant would leave it. *)
Definition settled (T : Z) (w : calm) : Prop :=
  enrolled (dev_at w) ∧ owns_cred (dev_at w) (cred_at w) ∧
  shows (Status (dev_at w)) (Generation (Meta (dev_at w))) (verdict T (dev_at w) (clock w)).

Lemma statusEqual_shows st st' gen v :
  shows st' gen v → statusEqual st st' = true ↔ shows st gen v.
Proof.
  intros (Hp & c' & Hc' & Hs & Hr & Hg). unfold statusEqual, shows. rewrite Hc'.
  case_decide as Hd.
  - destruct (FindStatusCondition (Conditions st) _) as [c|].
    + rewrite bool_decide_eq_true. split.
      * intros (? & ? & ?). split; [congruence|]. exists c. split_and!; congruence.
      * intros (_ & ? & [= <-] & ? & ? & ?). split_and!; congruence.
    + split; [done|]. by intros (_ & ? & ? & _).
  - split; [done|]. intros [? _]. congruence.
Qed.

Lemma shows_kept st st' gen v :
  Phase st' = Phase st → Conditions st' = Conditions st → shows st gen v → shows st' gen v.
Proof. unfold shows. by intros -> ->. Qed.

Lemma calm_clock w (Q : Z → calm → Prop) : Q (clock w) w → wp (call Now) Q w.
Proof. intros HQ. split; [done|]. by intros t w' [-> ->]. Qed.

(** The projection in a calm stretch reads the clock only. *)
Lemma calm_project T dev w :
  wp (projectStatus T dev) (λ p w', w' = w ∧ facts_kept (Status dev) p.1 ∧
    shows p.1 (Generation (Meta dev)) (verdict T dev (clock w))) w ∧
  each (λ o _, is_read o) (projectStatus T dev) w.
Proof.
  assert (∀ ph status reason msg rq,
    wp (project dev ph (healthy dev status reason msg) rq)
      (λ p w', w' = w ∧ facts_kept (Status dev) p.1 ∧
         shows p.1 (Generation (Meta dev)) (ph, status, reason)) w ∧
    each (λ o _, is_read o) (project dev ph (healthy dev status reason msg) rq) w) as Hp.
  { intros. split; [|done]. apply calm_clock. split; [done|].
    apply (projected_ok (clock w)). }
  unfold projectStatus, verdict. destruct (LastHeartbeat (Status dev)) as [hb|]; [|apply Hp].
  split.
  - apply wpi_bind, calm_clock. destruct (effective_timeout T <? Sub (clock w) hb); [apply Hp|].
    apply wpi_bind, calm_clock. apply Hp.
  - split; [done|]. intros t w' [-> ->]. cbn [bind].
    destruct (effective_timeout T <? Sub (clock w) hb); [apply Hp|].
    split; [done|]. intros t w' [-> ->]. apply Hp.
Qed.

Lemma verdict_kept T d d' t :
  facts_kept (Status d) (Status d') → Spec d' = Spec d → verdict T d' t = verdict T d t.
Proof.
  intros (Hv & _ & Hh & _ & Hc) Hs. unfold verdict, live_phase, upgrade_failed.
  by rewrite Hh, Hv, Hs, Hc.
Qed.

(** The world but for the credential. *)
Definition same_device (w w' : calm) : Prop := clock w' = clock w ∧ dev_at w' = dev_at w.

Definition annotated (s : option Secret) : Prop := ∀ s0, s = Some s0 → SAnnotations s0 ≠ None.

Lemma calm_token w : wp newToken (λ _ w', w' = w) w.
Proof. split; [done|]. by intros tok w' ->. Qed.

Lemma calm_ensure dev w :
  annotated (cred_at w) →
  wp (ensureCredentialSecret dev) (λ r w', r = None ∧ same_device w w' ∧
     owns_cred dev (cred_at w')) w.
Proof.
  intros Ha. unfold ensureCredentialSecret. apply wpi_bind. split; [done|].
  intros r w' [-> Hr]. split; [done|]. destruct (cred_at w) as [s|] eqn:Hs.
  - subst r. case_decide as Hd; [split; [done|]; split_and!; [done|done..|by exists s]|].
    destruct (SAnnotations s) as [m|] eqn:Hm; [|by destruct (Ha s)].
    apply wpi_bind. eapply wpi_mono; [apply calm_token|done|]. intros tok w1 _ ->.
    split; [done|]. intros r w1 [-> ->]. split; [done|]. split; [done|]. split; [done|].
    eexists. split; [done|]. unfold annotation. simpl. by rewrite lookup_insert_eq.
  - destruct Hr as (e & -> & ->). apply wpi_bind. eapply wpi_mono; [apply calm_token|done|].
    intros tok w1 _ ->. apply wpi_bind. split; [done|]. intros r w1 [-> ->]. split; [done|].
    split; [done|]. split; [done|]. split; [done|].
    eexists. split; [done|]. unfold annotation. simpl. by rewrite lookup_singleton_eq.
Qed.

Lemma calm_ensure_silent dev w :
  owns_cred dev (cred_at w) →
  wp (ensureCredentialSecret dev) (λ r w', r = None ∧ w' = w) w ∧
  each (λ o _, is_read o) (ensureCredentialSecret dev) w.
Proof.
  intros (s & Hs & Hu). unfold ensureCredentialSecret.
  split; (split; [done|]; intros r w' [-> Hr]; rewrite Hs in Hr; subst r; cbn [bind];
    rewrite decide_True by done; done).
Qed.

Lemma calm_observe T w :
  enrolled (dev_at w) → annotated (cred_at w) →
  wp (observe T (dev_at w)) (λ r w', r.2 = None ∧ settled T w') w.
Proof.
  intros He Ha. unfold observe. apply wpi_bind. eapply wpi_mono; [by apply calm_ensure|done|].
  intros r w1 _ (-> & [Hc Hd] & Hown). apply wpi_bind.
  eapply wpi_mono; [apply calm_project|done|]. intros [st rq] w2 _ (-> & Hk & Hsh). cbn in Hk, Hsh.
  destruct (statusEqual (Status (dev_at w)) st) eqn:Heq.
  - split; [done|]. split; [done|]. unfold settled. rewrite Hd, Hc. split_and!; [done|done|].
    rewrite Hc in Hsh. by apply (statusEqual_shows _ _ _ _ Hsh).
  - apply wpi_bind. split; [done|]. intros r w3 [-> (m & Hm & ->)]. split; [done|]. split; [done|].
    split; [done|]. destruct Hm as (_ & _ & Hu & Hg & Hdt & Hf). rewrite Hd in *.
    unfold settled, enrolled, owns_cred. cbn [dev_at cred_at clock Meta Spec Status].
    rewrite Hdt, Hf, Hu, Hg. split_and!; [apply He|apply He|done|].
    rewrite (verdict_kept _ (dev_at w)); [|by split_and!; try done; apply Hk|done].
    by eapply shows_kept; [..|exact Hsh].
Qed.

Lemma calm_silent T ns name w :
  settled T w →
  wp (Reconcile T ns name) (λ r w', r.2 = None ∧ w' = w) w ∧
  each (λ o _, is_read o) (Reconcile T ns name) w.
Proof.
  intros ([Hz Hf] & Hown & Hsh).
  assert (wp (observe T (dev_at w)) (λ r w', r.2 = None ∧ w' = w) w ∧
          each (λ o _, is_read o) (observe T (dev_at w)) w) as [H1 H2].
  { destruct (calm_ensure_silent _ _ Hown) as [He1 He2].
    destruct (calm_project T (dev_at w) w) as [Hp1 Hp2].
    assert (∀ st, shows st (Generation (Meta (dev_at w))) (verdict T (dev_at w) (clock w)) →
      statusEqual (Status (dev_at w)) st = true) as Heq
      by (intros st Hst; by apply (statusEqual_shows _ _ _ _ Hst)).
    unfold observe. split.
    - apply wpi_bind. eapply wpi_mono; [exact He1|done|]. intros r w1 _ [-> ->].
      apply wpi_bind. eapply wpi_mono; [exact Hp1|done|]. intros [st rq] w1 _ (-> & _ & Hst).
      by rewrite (Heq st).
    - apply each_bind; [exact He2|]. eapply wpi_mono; [exact He1|done|]. intros r w1 _ [-> ->].
      apply each_bind; [exact Hp2|]. eapply wpi_mono; [exact Hp1|done|].
      intros [st rq] w1 _ (-> & _ & Hst). by rewrite (Heq st). }
  unfold Reconcile. split; (split; [done|]; intros r w' [-> ->]; cbn [bind];
    rewrite Hz, Hf; cbn [negb]; done).
Qed.

(** A pass over a device nobody deletes settles it, or installs the finalizer. *)
Lemma calm_pass T ns name `{!FinalizerLaws HF} w :
  IsZero (DeletionTimestamp (Meta (dev_at w))) = true → annotated (cred_at w) →
  wp (Reconcile T ns name) (λ r w', r.2 = None ∧
     (settled T w' ∨ enrolled (dev_at w') ∧ cred_at w' = cred_at w)) w.
Proof.
  intros Hz Ha. unfold Reconcile. apply wpi_bind. split; [done|]. intros r w' [-> ->].
  split; [done|]. rewrite Hz. cbn [negb].
  destruct (ContainsFinalizer _ _) eqn:Hf; cbn [negb].
  - eapply wpi_mono; [by apply calm_observe|done|]. intros r w' _ [Hr Hs]. split; [done|by left].
  - apply wpi_bind. split; [done|]. intros r w' [-> (m & Hm & Hsame & ->)].
    split; [done|]. split; [done|]. split; [done|]. right. split; [|done].
    destruct Hsame as (_ & _ & _ & _ & Hdt & Hfin). split; cbn.
    + by rewrite Hdt.
    + rewrite Hfin. apply contains_spec, add_spec. by left.
Qed.
End calm.

(** ** What a pass reports of the calls that failed *)

Section reports.
Context {E : Type} `{HE : !ApiErrors E} `{HC : !ConditionHelpers} `{HF : !FinalizerHelpers}.
Local Instance tsem : Sem (devS E) (list (event (devS E))) := traced.

(** The failure a call reported, if it is one the pass must not pass over. *)
Definition failure (ev : event (devS E)) : option E :=
  match ev with
  | existT o r =>
      match o return devres E o → option E with
      | CGet _ _ => λ r, match r with Ok _ => None | Err e => IgnoreNotFound (Some e) end
      | SGet _ _ => λ r, match r with Ok _ => None | Err e => IgnoreNotFound (Some e) end
      | SCreate _ => IgnoreAlreadyExists
      | SDelete _ _ => IgnoreNotFound
      | CUpdate _ | CStatusUpdate _ | SUpdate _ => λ r, r
      | Now | RandRead | DPanic _ => λ _, None
      end r
  end.

Definition clean (tr : list (event (devS E))) : Prop := Forall (λ ev, failure ev = None) tr.

(** An error is the last call's, and the first; no error means no failure. *)
Definition accounts_for (err : option E) (tr : list (event (devS E))) : Prop :=
  match err with
  | None => clean tr
  | Some e => ∃ tr0 ev, tr = tr0 ++ [ev] ∧ clean tr0 ∧ failure ev = Some e
  end.

Lemma traced_call (o : act (devS E)) (Q : res o → list (event (devS E)) → Prop) tr :
  clean tr → (∀ r, accounts_for (failure (existT o r)) (tr ++ [existT o r]) → Q r (tr ++ [existT o r])) →
  wp (call o) Q tr.
Proof.
  intros Hc HQ. split; [done|]. intros r tr' ->. split; [done|]. apply HQ.
  destruct (failure _) as [e|] eqn:Hf; [by eexists _, _|].
  apply Forall_app. split; [done|]. by apply Forall_singleton.
Qed.

Lemma traced_token tr : clean tr → wp newToken (λ _ tr', clean tr') tr.
Proof. intros Hc. apply wpi_bind, traced_call; [done|]. by intros r Hr. Qed.

Lemma ensureCredentialSecret_accounts d tr :
  clean tr → wp (ensureCredentialSecret d) accounts_for tr.
Proof.
  intros Hc. unfold ensureCredentialSecret. apply wpi_bind, traced_call; [done|].
  intros [s|e] Hr; cbn in Hr.
  - case_decide; [done|]. destruct (SAnnotations s) as [m|]; [|by split; [done|]; intros []].
    apply wpi_bind. eapply wpi_mono; [by apply traced_token|done|]. intros tok tr1 _ Hc1.
    by apply traced_call.
  - destruct (IsNotFound e); [|done]. apply wpi_bind.
    eapply wpi_mono; [by apply traced_token|done|]. intros tok tr1 _ Hc1.
    apply wpi_bind, traced_call; [done|]. by intros [e'|] Hr'.
Qed.

Lemma projectStatus_accounts T d tr : clean tr → wp (projectStatus T d) (λ _ tr', clean tr') tr.
Proof.
  intros Hc. assert (∀ ph c rq tr, clean tr → wp (project d ph c rq) (λ _ tr', clean tr') tr) as Hp.
  { intros. apply wpi_bind, traced_call; [done|]. by intros t Ht. }
  unfold projectStatus. destruct (LastHeartbeat _); [|by apply Hp].
  apply wpi_bind, traced_call; [done|]. intros t Ht. case_match; [by apply Hp|].
  apply wpi_bind, traced_call; [done|]. intros t2 Ht2. by apply Hp.
Qed.

(** The pair a pass returns. *)
Definition reports (r : Result * option E) (tr : list (event (devS E))) : Prop :=
  accounts_for r.2 tr ∧ (r.2 ≠ None → r.1 = 0).

Lemma guard_reports (p : prog (devS E) (option E)) rest tr :
  wp p accounts_for tr → (∀ tr', clean tr' → wp rest reports tr') →
  wp (guard p catch err => Ret (0, Some err) ;; rest) reports tr.
Proof.
  intros Hp Hrest. apply wpi_bind. eapply wpi_mono; [exact Hp|done|].
  intros [e|] tr' _ Hr; [|by apply Hrest]. by split.
Qed.

Lemma Reconcile_reports T ns name : wp (Reconcile T ns name) reports [].
Proof.
  unfold Reconcile. apply wpi_bind, traced_call; [by apply Forall_nil|]. intros [d|e] Hr; cbn in Hr.
  2:{ split; [done|]. split; [done|]. done. }
  destruct (negb (IsZero _)).
  - unfold finalize. case_match; [|by split; [|split]].
    apply guard_reports; [|intros tr Htr; apply guard_reports; [|intros; by split; [|split]]].
    + apply wpi_bind, traced_call; [done|]. by intros r Hr'.
    + apply traced_call; [done|]. by intros r Hr'.
  - destruct (negb _).
    + apply guard_reports; [|intros; by split; [|split]]. apply traced_call; [done|]. by intros r Hr'.
    + unfold observe. apply guard_reports; [by apply ensureCredentialSecret_accounts|].
      intros tr Htr. apply wpi_bind. eapply wpi_mono; [by apply projectStatus_accounts|done|].
      intros [st rq] tr1 _ Htr1. case_match; [by split; [|split]|].
      apply guard_reports; [|intros; by split; [|split]]. apply traced_call; [done|]. by intros r Hr'.
Qed.
End reports.

(** ** Properties of the projection *)

(** C24. The projected phase is the truth about the device at some instant of the
    call: Provisioning exactly when it never reported, Degraded exactly when its
    heartbeat expired or its upgrade failed, Ready and Upgrading by whether a
    healthy device runs the wanted version; and of the status only the phase and
    the Healthy condition are written, the agent's fields and conditions are kept. *)
Theorem projection_truthful {E : Type} `{HC : !ConditionHelpers, HCL : !ConditionLaws HC} T dev w :
  wp (Sem0 := clock_sem) (projectStatus (E := E) T dev)
     (λ '(st, _) w', facts_kept (Status dev) st ∧
        ∃ t, w ≤ t ≤ w' ∧ phase_means T dev t (Phase st) ∧
        ∃ c, FindStatusCondition (Conditions st) ConditionHealthy = Some c ∧
          ObservedGeneration' c = Generation (Meta dev) ∧
          (Status' c = ConditionTrue ↔ fresh T dev t) ∧
          (Status' c = ConditionUnknown ↔ LastHeartbeat (Status dev) = None)) w.
Proof.
  eapply wpi_mono; [apply (projectStatus_ok (E := E))|done|].
  intros [st rq] w' _ (t & Ht & Hk & [Hp (c & Hc & Hs & _ & Hg)] & _). split; [done|].
  exists t. split; [done|]. rewrite Hp. split; [apply verdict_means|].
  exists c. rewrite Hs. split_and!; [done|done|..]; unfold verdict.
  - destruct (LastHeartbeat (Status dev)) as [hb|] eqn:Hhb.
    + rewrite (fresh_iff _ _ _ _ Hhb). destruct (effective_timeout T <? Sub t hb) eqn:Hx; simpl;
        [apply Z.ltb_lt in Hx|apply Z.ltb_ge in Hx]; split; try done; lia.
    + split; [done|]. intros (? & ? & _). congruence.
  - destruct (LastHeartbeat (Status dev)) as [hb|] eqn:Hhb; [|done].
    by destruct (effective_timeout T <? Sub t hb).
Qed.

(** A device that reported at second 100. *)
Definition reporting : EdgeDevice :=
  with_status (with_own_finalizers demo_dev [deviceFinalizer])
    (mkEdgeDeviceStatus PhaseProvisioning [] "v2" "A" (Some (100 * Second)) 1).

Lemma projection_truthful_witness :
  let H1 := plain_conditions in
  wp (Sem0 := clock_sem) (projectStatus (E := api_error) 0 reporting)
     (λ '(st, _) w', facts_kept (Status reporting) st ∧
        ∃ t, 110 * Second ≤ t ≤ w' ∧ phase_means 0 reporting t (Phase st) ∧
        ∃ c, FindStatusCondition (Conditions st) ConditionHealthy = Some c ∧
          ObservedGeneration' c = Generation (Meta reporting) ∧
          (Status' c = ConditionTrue ↔ fresh 0 reporting t) ∧
          (Status' c = ConditionUnknown ↔ LastHeartbeat (Status reporting) = None)) (110 * Second).
Proof.
  exact (projection_truthful (E := api_error) (HCL := plain_conditions_laws) 0 reporting (110 * Second)).
Defined.

(** C25. Expiry is noticed on time.  For a timeout of up to seventy years and a
    device clock at most seventy years ahead, a projection that finds the heartbeat fresh
    asks for a positive delay; a projection after that delay, without a newer
    heartbeat, finds the device Degraded; and it asks for no more than the deadline
    plus one second, unless the deadline passes during the call itself. *)
Theorem expiry_noticed {E : Type} `{HC : !ConditionHelpers, HCL : !ConditionLaws HC} T dev hb w :
  0 ≤ T ≤ 2 ^ 61 → LastHeartbeat (Status dev) = Some hb → hb - w ≤ 2 ^ 61 →
  wp (Sem0 := clock_sem) (projectStatus (E := E) T dev)
     (λ '(st, rq) w', 0 < rq ∧
        (w' ≤ hb + effective_timeout T → w + rq ≤ hb + effective_timeout T + Second ≤ w' + rq) ∧
        ∀ dev' w2, LastHeartbeat (Status dev') = Some hb → w' + rq ≤ w2 →
          wp (Sem0 := clock_sem) (projectStatus (E := E) T dev')
             (λ '(st2, _) _, Phase st2 = PhaseDegraded) w2) w.
Proof.
  intros HT Hhb Hskew. assert (0 < effective_timeout T ≤ 2 ^ 62) as Heff
    by (apply effective_timeout_bounds; lia).
  assert (HM : MaxInt64 = 2 ^ 63 - 1 ∧ MinInt64 = - 2 ^ 63) by done.
  eapply wpi_mono; [apply (projectStatus_ok (E := E))|done|].
  intros [st rq] w' _ (t & Ht & _ & _ & Hrq). rewrite Hhb in Hrq.
  assert (0 < rq ∧ hb + effective_timeout T < w' + rq ∧
    (w' ≤ hb + effective_timeout T → w + rq ≤ hb + effective_timeout T + Second ≤ w' + rq))
    as (Hpos & Hlate & Hlag).
  { destruct (effective_timeout T <? Sub t hb) eqn:Hx.
    - subst rq. unfold Sub in Hx. lia.
    - destruct Hrq as (t2 & Ht2 & ->).
      destruct (wake_up (effective_timeout T) t t2 hb) as (? & ? & ?); try lia. }
  split_and!; [done|done|]. intros dev' w2 Hhb' Hw2.
  eapply wpi_mono; [apply (projectStatus_ok (E := E))|done|].
  intros [st2 rq2] w3 _ (t2 & Ht2 & _ & [-> _] & _). unfold verdict. rewrite Hhb'.
  assert ((effective_timeout T <? Sub t2 hb) = true) as ->; [|done].
  apply Z.ltb_lt. unfold Sub. lia.
Qed.

Lemma expiry_noticed_witness :
  let H1 := plain_conditions in
  wp (Sem0 := clock_sem) (projectStatus (E := api_error) 0 reporting)
     (λ '(st, rq) w', 0 < rq ∧
        (w' ≤ 100 * Second + effective_timeout 0 →
           110 * Second + rq ≤ 100 * Second + effective_timeout 0 + Second ≤ w' + rq) ∧
        ∀ dev' w2, LastHeartbeat (Status dev') = Some (100 * Second) → w' + rq ≤ w2 →
          wp (Sem0 := clock_sem) (projectStatus (E := api_error) 0 dev')
             (λ '(st2, _) _, Phase st2 = PhaseDegraded) w2) (110 * Second).
Proof.
  apply (expiry_noticed (E := api_error) (HCL := plain_conditions_laws) 0 reporting (100 * Second));
    [lia|reflexivity|vm_compute; discriminate].
Defined.

(** ** The gates *)

(** What gate 1 and gate 2 look at, and what may change without them noticing: the
    heartbeat, the versions, the other conditions, the agent's fields. *)
Definition unremarkable `{!ConditionHelpers} (T : Z) (w w' : calm) : Prop :=
  let d := dev_at w in let d' := dev_at w' in
  IsZero (DeletionTimestamp (Meta d')) = true ∧
  Finalizers (Meta d') = Finalizers (Meta d) ∧ UID (Meta d') = UID (Meta d) ∧
  Generation (Meta d') = Generation (Meta d) ∧ cred_at w' = cred_at w ∧
  Phase (Status d') = Phase (Status d) ∧
  FindStatusCondition (Conditions (Status d')) ConditionHealthy =
    FindStatusCondition (Conditions (Status d)) ConditionHealthy ∧
  verdict T d' (clock w') = verdict T d (clock w).

(** C17. Redundant events cost nothing.  In a stretch in which nobody deletes the
    device and no call fails, two passes bring any device to rest: neither fails,
    and after them a pass only reads, changes nothing and returns no error, at any
    later time and after any number of heartbeats and reports, as long as they do
    not change the verdict on the device. *)
Theorem passes_come_to_rest {E : Type} `{HE : !ApiErrors E} `{HC : !ConditionHelpers, HCL : !ConditionLaws HC}
    `{HF : !FinalizerHelpers, HFL : !FinalizerLaws HF} T ns name w :
  let pass := Reconcile (E := E) T ns name in
  IsZero (DeletionTimestamp (Meta (dev_at w))) = true →
  (∀ s, cred_at w = Some s → SAnnotations s ≠ None) →
  wp (Sem0 := calm_sem) pass (λ r1 w1, r1.2 = None ∧
    wp (Sem0 := calm_sem) pass (λ r2 w2, r2.2 = None ∧
      ∀ w3, unremarkable T w2 w3 →
        wp (Sem0 := calm_sem) pass (λ r3 w4, r3.2 = None ∧ w4 = w3) w3 ∧
        each (Sem0 := calm_sem) (λ o _, is_read o) pass w3) w1) w.
Proof.
  intros pass Hz Ha. eapply wpi_mono; [by apply (calm_pass (E := E))|done|].
  intros r1 w1 _ [-> Hw1]. split; [done|].
  assert (wp (Sem0 := calm_sem) pass (λ r2 w2, r2.2 = None ∧ settled T w2) w1) as Hp.
  { destruct Hw1 as [Hs|[He Hc]].
    - eapply wpi_mono; [by apply (calm_silent (E := E))|done|]. by intros r w2 _ [-> ->].
    - unfold pass, Reconcile. apply wpi_bind. split; [done|]. intros r w' [-> ->]. split; [done|].
      destruct He as [Hz1 Hf1]. rewrite Hz1, Hf1. cbn [negb].
      apply (calm_observe (E := E)); [done|]. intros s Hs. apply Ha. by rewrite <-Hc. }
  eapply wpi_mono; [exact Hp|done|]. intros r2 w2 _ [-> Hs]. split; [done|].
  intros w3 (Hz3 & Hf3 & Hu3 & Hg3 & Hc3 & Hp3 & Hh3 & Hv3). apply (calm_silent (E := E)).
  destruct Hs as ([_ Hf] & Hown & Hp2 & Hsh). unfold settled, enrolled, owns_cred, shows.
  by rewrite Hf3, Hu3, Hg3, Hc3, Hp3, Hh3, Hv3.
Qed.

Lemma passes_come_to_rest_witness :
  let H1 := plain_conditions in let H2 := plain_finalizers in
  let pass := Reconcile (E := api_error) 0 "default" "edge-001" in
  wp (Sem0 := calm_sem) pass (λ r1 w1, r1.2 = None ∧
    wp (Sem0 := calm_sem) pass (λ r2 w2, r2.2 = None ∧
      ∀ w3, unremarkable 0 w2 w3 →
        wp (Sem0 := calm_sem) pass (λ r3 w4, r3.2 = None ∧ w4 = w3) w3 ∧
        each (Sem0 := calm_sem) (λ o _, is_read o) pass w3) w1) (mkCalm (110 * Second) demo_dev None).
Proof.
  apply (passes_come_to_rest (E := api_error) (HCL := plain_conditions_laws)
           (HFL := plain_finalizers_laws)); [reflexivity|discriminate].
Defined.

(** C31. No failure is passed over.  Whatever the calls of a pass answer: if it
    returns no error, none of them failed, apart from the answers that mean the
    work is already done; if it returns an error, that is the answer of its last
    call, no earlier call failed, and it asks for no delayed retry besides. *)
Theorem no_failure_passed_over {E : Type} `{HE : !ApiErrors E} `{HC : !ConditionHelpers}
    `{HF : !FinalizerHelpers} T ns name rq err tr :
  rtc (pstep (Sem0 := traced)) (Reconcile (E := E) T ns name, []) (Ret (rq, err), tr) →
  match err with
  | None => Forall (λ ev, failure ev = None) tr
  | Some e => rq = 0 ∧ ∃ tr0 ev, tr = tr0 ++ [ev] ∧ failure ev = Some e ∧
                Forall (λ ev, failure ev = None) tr0
  end.
Proof.
  intros Hs. destruct (wpi_result (Sem0 := traced) _ _ _ _ _ _ (Reconcile_reports _ _ _) Hs) as [Hr H0].
  destruct err as [e|]; [|done]. split; [by apply H0|]. destruct Hr as (tr0 & ev & ? & ? & ?). eauto.
Qed.

(** The finalizer update meets a conflict. *)
Definition conflicting (o : act (devS api_error)) (tr : list (event (devS api_error))) :
    option (res o * list (event (devS api_error))) :=
  match o as o return option (devres api_error o * list (event (devS api_error))) with
  | CGet n m => Some (Ok demo_dev, tr ++ [existT (CGet n m : act (devS api_error)) (Ok demo_dev)])
  | CUpdate d => Some (Some Conflict, tr ++ [existT (CUpdate d : act (devS api_error)) (Some Conflict)])
  | _ => None
  end.

Lemma no_failure_passed_over_witness :
  let H1 := plain_conditions in let H2 := plain_finalizers in
  ∃ tr, rtc (pstep (Sem0 := traced)) (Reconcile (E := api_error) 0 "default" "edge-001", [])
          (Ret (0, Some Conflict), tr) ∧
  0 = 0 ∧ ∃ tr0 ev, tr = tr0 ++ [ev] ∧ failure ev = Some Conflict ∧
    Forall (λ ev, failure ev = None) tr0.
Proof.
  intros H1 H2. eexists.
  eassert (rtc (pstep (Sem0 := traced)) (Reconcile (E := api_error) 0 "default" "edge-001", [])
            (Ret (0, Some Conflict), _)) as Hrun.
  { eapply (run_steps (Sem0 := traced) conflicting); [|reflexivity].
    intros o w r w'. destruct o; cbn; intros; by simplify_eq. }
  split; [exact Hrun|].
  exact (no_failure_passed_over 0 "default" "edge-001" 0 (Some Conflict) _ Hrun).
Defined.

(** Finding. A credential Secret without any annotation that someone else filed under the
    device's name is never taken over: every pass ends in an assignment to a nil
    map, and the status of the device is never written again. *)
Theorem bare_credential_wedges {E : Type} `{HE : !ApiErrors E} `{HC : !ConditionHelpers}
    `{HF : !FinalizerHelpers} T ns name w s :
  let pass := Reconcile (E := E) T ns name in
  enrolled (dev_at w) → cred_at w = Some s → SAnnotations s = None → UID (Meta (dev_at w)) ≠ "" →
  (∃ k, rtc (pstep (Sem0 := calm_sem)) (pass, w)
          (Act (DPanic "assignment to entry in nil map" : act (devS E)) k, w)) ∧
  wp (Sem0 := calm_sem) pass (λ _ _, False) w ∧
  each (Sem0 := calm_sem) (λ o _, ∀ d, o ≠ CStatusUpdate d) pass w.
Proof.
  intros pass [Hz Hf] Hs Hn Hu.
  assert (Hann : annotation (SAnnotations s) credFingerprintKey ≠ UID (Meta (dev_at w)))
    by (rewrite Hn; intros Heq; by apply Hu).
  split_and!.
  - eexists. eapply (act_step (Sem0 := calm_sem)); [by split|]. cbn [bind]. rewrite Hz, Hf. cbn [negb].
    eapply (act_step (Sem0 := calm_sem)); [split; [done|by rewrite Hs]|]. cbn [bind].
    rewrite decide_False, Hn by done. apply rtc_refl.
  - split; [done|]. intros r w' [-> ->]. cbn [bind]. rewrite Hz, Hf. cbn [negb].
    split; [done|]. intros r w' [-> Hr]. rewrite Hs in Hr. subst r. cbn [bind].
    rewrite decide_False, Hn by done. split; [done|]. by intros [].
  - split; [done|]. intros r w' [-> ->]. cbn [bind]. rewrite Hz, Hf. cbn [negb].
    split; [done|]. intros r w' [-> Hr]. rewrite Hs in Hr. subst r. cbn [bind].
    rewrite decide_False, Hn by done. split; [done|]. by intros [].
Qed.

Lemma bare_credential_wedges_witness :
  let H1 := plain_conditions in let H2 := plain_finalizers in
  let s := mkSecret "device-cred-edge-001" "default" None ∅ ∅ in
  let w := mkCalm (110 * Second) reporting (Some s) in
  let pass := Reconcile (E := api_error) 0 "default" "edge-001" in
  (∃ k, rtc (pstep (Sem0 := calm_sem)) (pass, w)
          (Act (DPanic "assignment to entry in nil map" : act (devS api_error)) k, w)) ∧
  wp (Sem0 := calm_sem) pass (λ _ _, False) w ∧
  each (Sem0 := calm_sem) (λ o _, ∀ d, o ≠ CStatusUpdate d) pass w.
Proof.
  intros H1 H2 s w. apply (bare_credential_wedges 0 "default" "edge-001" w s);
    [by split; vm_compute|reflexivity|reflexivity|discriminate].
Defined.
