(* ===== verification/RolloutController.v ===== *)
(** * internal/controller/fleetrollout_controller.go: the rollout reconciler

    One pass of [Reconcile] as a program over the Kubernetes client: the fleet
    arithmetic in 32 bits, the circuit breaker, the loop that freezes the fleet, the
    loop that pushes the next batch, and the status write; the mapping from a device
    to the rollouts that select it. *)

From S2P Require Import Prelude GoLib Sha256 ApiTypes DeviceController.
Open Scope Z_scope.

(** [sort.Slice] puts the elements in an order in which none is less than an earlier
    one; it promises nothing about elements of which neither is less. *)
Class SliceSort := Slice : list EdgeDevice → (EdgeDevice → EdgeDevice → bool) → list EdgeDevice.

Class SliceSortLaws (H : SliceSort) : Prop := {
    slice_perm l less : Slice l less ≡ₚ l;
    slice_sorted l less :
      (∀ a b c, less b a = false → less c b = false → less c a = false) →
      (∀ a b, less a b = true → less b a = false) →
      StronglySorted (λ a b, less b a = false) (Slice l less);
  }.

(** The client calls and the clock of package meta. *)
Inductive rolop :=
  | RGet (ns name : string)
  | RList (ns : string) (labels : gmap string string)
  | RUpdate (d : EdgeDevice)
  | RStatusUpdate (ro : FleetRollout)
  | RListRollouts (ns : string)
  | RNow.

Section reconciler.
Context {E : Type} `{!ApiErrors E} `{!ConditionHelpers} `{!SliceSort}.

Definition rolres (o : rolop) : Type :=
  match o with
  | RGet _ _ => result E FleetRollout
  | RList _ _ => result E (list EdgeDevice)
  | RListRollouts _ => result E (list FleetRollout)
  | RNow => Z
  | RUpdate _ | RStatusUpdate _ => option E
  end.

Definition rolS : sig := Sig rolop rolres.

Definition rcall (o : rolop) : prog rolS (rolres o) := trigger (o : act rolS).

(** ** Fleet arithmetic *)

Record tally := mkTally {
    targeted : Z;
    succeeded : Z;
    failed : Z;
    untargeted : list EdgeDevice;
  }.

Definition deviceFailed (dev : EdgeDevice) : bool :=
  if decide (Phase (Status dev) = PhaseDegraded) then true
  else
    match FindStatusCondition (Conditions (Status dev)) ConditionFirmwareSynced with
    | Some c => bool_decide (Status' c = ConditionFalse ∧ Reason c ≠ "UpgradeInProgress")
    | None => false
    end.

(** One round of the counting loop; the counters are int32. *)
Definition count_device (ro : FleetRollout) (t : tally) (dev : EdgeDevice) : tally :=
  if decide (CurrentFirmwareVersion (Status dev) = TargetVersion (RSpec ro)) then
    mkTally (int32 (targeted t + 1)) (int32 (succeeded t + 1)) (failed t) (untargeted t)
  else if decide (DesiredFirmwareVersion (Spec dev) ≠ TargetVersion (RSpec ro)) then
    mkTally (targeted t) (succeeded t) (failed t) (untargeted t ++ [dev])
  else
    mkTally (int32 (targeted t + 1)) (succeeded t)
      (if deviceFailed dev then int32 (failed t + 1) else failed t) (untargeted t).

Definition count (ro : FleetRollout) (items : list EdgeDevice) : tally :=
  fold_left (count_device ro) items (mkTally 0 0 0 []).

Definition inFlight (t : tally) : Z := int32 (int32 (targeted t - succeeded t) - failed t).

(** ** The circuit breaker *)

Definition tripped (ro : FleetRollout) (t : tally) : bool :=
  (0 <? targeted t) &&
  (int32 (FailureThresholdPercent (RSpec ro) * targeted t) <=? int32 (failed t * 100)).

(** Freeze the group: stop at the first failing write. *)
Fixpoint pause_all (items : list EdgeDevice) : prog rolS (option E) :=
  match items with
  | [] => Ret None
  | dev :: items =>
      if RolloutPaused (Spec dev) then pause_all items
      else guard rcall (RUpdate (set_paused dev)) catch err => Ret (Some err) ;; pause_all items
  end.

(** ** The next slice of the batch *)

Definition retarget (ro : FleetRollout) (dev : EdgeDevice) : EdgeDevice :=
  let sp := Spec dev in
  mkEdgeDevice (Meta dev)
    (mkEdgeDeviceSpec (TargetVersion (RSpec ro)) (TargetURL (RSpec ro)) (TargetChecksum (RSpec ro))
       (Region sp) (DeviceLabels sp) (RolloutPaused sp))
    (Status dev).

(** The loop over the untargeted devices; it gives the value of [targeted]. *)
Fixpoint push (ro : FleetRollout) (capacity targeted : Z) (devs : list EdgeDevice) :
    prog rolS (result E Z) :=
  match devs with
  | [] => Ret (Ok targeted)
  | dev :: devs =>
      if capacity <=? 0 then Ret (Ok targeted)
      else if RolloutPaused (Spec dev) then push ro capacity targeted devs
      else
        guard rcall (RUpdate (retarget ro dev)) catch err => Ret (Err err) ;;
        push ro (int32 (capacity - 1)) (int32 (targeted + 1)) devs
  end.

(** ** The status *)

Definition rolloutStatusEqual (a b : FleetRolloutStatus) : bool :=
  if decide (RPhase a = RPhase b ∧ Selected a = Selected b ∧ Targeted a = Targeted b ∧
             Succeeded a = Succeeded b ∧ Failed a = Failed b ∧
             RObservedGeneration a = RObservedGeneration b) then
    match FindStatusCondition (RConditions a) ConditionBreakerTripped,
          FindStatusCondition (RConditions b) ConditionBreakerTripped with
    | Some ca, Some cb => bool_decide (Status' ca = Status' cb ∧ Reason ca = Reason cb)
    | None, None => true
    | _, _ => false
    end
  else false.

Definition breaker_condition (ro : FleetRollout) (tripped : bool) : Condition :=
  if tripped then
    mkCondition ConditionBreakerTripped ConditionTrue (Generation (RMeta ro)) 0
      "FailureRateExceeded" "rollout halted; fix the cause and unpause devices to resume"
  else
    mkCondition ConditionBreakerTripped ConditionFalse (Generation (RMeta ro)) 0
      "Healthy" "failure rate below threshold".

Definition write_status (ro : FleetRollout) (phase : string) (n targeted : Z) (t : tally) :
    prog rolS (Result * option E) :=
  now <- rcall RNow ;;
  let newStatus := mkFleetRolloutStatus phase (int32 n) targeted (succeeded t) (failed t)
    (SetStatusCondition now (RConditions (RStatus ro)) (breaker_condition ro (tripped ro t)))
    (Generation (RMeta ro)) in
  if rolloutStatusEqual (RStatus ro) newStatus then Ret (30 * Second, None)
  else
    guard rcall (RStatusUpdate (mkFleetRollout (RMeta ro) (RSpec ro) newStatus))
      catch err => Ret (0, Some err) ;;
    Ret (30 * Second, None).

(** ** One pass *)

(** From the sorted list on. *)
Definition advance (ro : FleetRollout) (items : list EdgeDevice) : prog rolS (Result * option E) :=
  let n := Z.of_nat (length items) in
  let t := count ro items in
  if tripped ro t then
    guard pause_all items catch err => Ret (0, Some err) ;;
    write_status ro RolloutPausedPhase n (targeted t) t
  else if (0 <? n) && (succeeded t =? int32 n) then
    write_status ro RolloutComplete n (targeted t) t
  else
    try targeted <- push ro (int32 (MaxUnavailable (RSpec ro) - inFlight t)) (targeted t) (untargeted t)
      catch err => Ret (0, Some err) ;;
    write_status ro RolloutProgressing n targeted t.

Definition name_less (a b : EdgeDevice) : bool := string_lt (Name (Meta a)) (Name (Meta b)).

Definition Reconcile (ns name : string) : prog rolS (Result * option E) :=
  try ro <- rcall (RGet ns name) catch err => Ret (0, IgnoreNotFound (Some err)) ;;
  try items <- rcall (RList (Namespace (RMeta ro)) (Selector (RSpec ro)))
    catch err => Ret (0, Some err) ;;
  advance ro (Slice items name_less).

(** ** From a device to its rollouts *)

(** The loop over the selector: an absent label reads as the empty string. *)
Definition selects (labels : gmap string string) (ro : FleetRollout) : bool :=
  (0 <? Z.of_nat (size (Selector (RSpec ro)))) &&
  forallb (λ kv, bool_decide (default "" (labels !! kv.1) = kv.2)) (map_to_list (Selector (RSpec ro))).

Definition rolloutsForDevice (obj : ObjectMeta) : prog rolS (list (string * string)) :=
  try ros <- rcall (RListRollouts (Namespace obj)) catch err => Ret [] ;;
  Ret (map (λ ro, (Namespace (RMeta ro), Name (RMeta ro))) (filter (λ ro, selects (Labels obj) ro = true) ros)).
End reconciler.
Global Arguments rolS : clear implicits.
Global Arguments rolres : clear implicits.
