(* ===== verification/RolloutSpec.v ===== *)
(** * The rollout reconciler's arithmetic

    The counters against the sets they count, and the breaker over unbounded integers,
    for fleets whose numbers fit 32 bits. *)

From S2P Require Import Prelude GoLib Sha256 ApiTypes DeviceController RolloutController.
Open Scope Z_scope.

(** ** What the counters count *)

Section sets.
Context `{HC : !ConditionHelpers} (ro : FleetRollout).

(** The device runs the target; it is told to but does not yet; it was not told. *)
Definition reached (d : EdgeDevice) : Prop :=
  CurrentFirmwareVersion (Status d) = TargetVersion (RSpec ro).
Definition aimed (d : EdgeDevice) : Prop :=
  ¬ reached d ∧ DesiredFirmwareVersion (Spec d) = TargetVersion (RSpec ro).
Definition waiting (d : EdgeDevice) : Prop :=
  ¬ reached d ∧ DesiredFirmwareVersion (Spec d) ≠ TargetVersion (RSpec ro).

(** Of the aimed devices, those that failed and those still at it. *)
Definition burned (d : EdgeDevice) : Prop := aimed d ∧ deviceFailed d = true.
Definition underway (d : EdgeDevice) : Prop := aimed d ∧ deviceFailed d = false.
Definition unpaused (d : EdgeDevice) : Prop := RolloutPaused (Spec d) = false.

Global Instance reached_dec d : Decision (reached d).
Proof. unfold reached. apply _. Defined.
Global Instance aimed_dec d : Decision (aimed d).
Proof. unfold aimed. apply _. Defined.
Global Instance waiting_dec d : Decision (waiting d).
Proof. unfold waiting. apply _. Defined.
Global Instance burned_dec d : Decision (burned d).
Proof. unfold burned. apply _. Defined.
Global Instance underway_dec d : Decision (underway d).
Proof. unfold underway. apply _. Defined.
Global Instance unpaused_dec d : Decision (unpaused d).
Proof. unfold unpaused. apply _. Defined.
End sets.

Definition num (P : EdgeDevice → Prop) `{!∀ d, Decision (P d)} (l : list EdgeDevice) : Z :=
  Z.of_nat (length (filter P l)).

Section num.
Context (P : EdgeDevice → Prop) `{!∀ d, Decision (P d)}.

Lemma num_nil : num P [] = 0.
Proof. done. Qed.

Lemma num_cons d l : num P (d :: l) = (if decide (P d) then 1 else 0) + num P l.
Proof. unfold num. rewrite filter_cons. case_decide; simpl; lia. Qed.

Lemma num_app l1 l2 : num P (l1 ++ l2) = num P l1 + num P l2.
Proof. unfold num. rewrite list.filter_app, length_app. lia. Qed.

Lemma num_bounds l : 0 ≤ num P l ≤ Z.of_nat (length l).
Proof. unfold num. pose proof (length_filter P l). lia. Qed.

Lemma num_perm l1 l2 : l1 ≡ₚ l2 → num P l1 = num P l2.
Proof. intros Hp. unfold num. by rewrite Hp. Qed.
End num.

Section classes.
Context `{HC : !ConditionHelpers} (ro : FleetRollout).

(** Every device is in exactly one of four states. *)
Lemma classes d :
  (reached ro d ∧ ¬ aimed ro d ∧ ¬ waiting ro d ∧ ¬ burned ro d ∧ ¬ underway ro d) ∨
  (waiting ro d ∧ ¬ reached ro d ∧ ¬ aimed ro d ∧ ¬ burned ro d ∧ ¬ underway ro d) ∨
  (aimed ro d ∧ ¬ reached ro d ∧ ¬ waiting ro d ∧ burned ro d ∧ ¬ underway ro d) ∨
  (aimed ro d ∧ ¬ reached ro d ∧ ¬ waiting ro d ∧ ¬ burned ro d ∧ underway ro d).
Proof.
  unfold burned, underway, waiting, aimed.
  destruct (decide (reached ro d)); [by left; tauto|].
  destruct (decide (DesiredFirmwareVersion (Spec d) = TargetVersion (RSpec ro))); [|by right; left; tauto].
  destruct (deviceFailed d); right; right; [left|right]; split_and!; try tauto; by intros [_ ?].
Qed.

Lemma reached_spread l :
  num (reached ro) l + num (aimed ro) l + num (waiting ro) l = Z.of_nat (length l) ∧
  num (burned ro) l + num (underway ro) l = num (aimed ro) l.
Proof.
  induction l as [|d l [IH1 IH2]]; [done|]. rewrite !num_cons. simpl length.
  destruct (classes d) as [?|[?|[?|?]]]; destruct_and?;
    repeat case_decide; try contradiction; lia.
Qed.

End classes.

(** The four sets share out the list: everything lia needs to know of their sizes. *)
Ltac shares ro l :=
  let H := fresh in pose proof (reached_spread ro l) as H; destruct H;
  pose proof (num_bounds (reached ro) l); pose proof (num_bounds (aimed ro) l);
  pose proof (num_bounds (waiting ro) l); pose proof (num_bounds (burned ro) l);
  pose proof (num_bounds (underway ro) l).

Section tally.
Context `{HC : !ConditionHelpers} (ro : FleetRollout).

Lemma count_snoc l d : count ro (l ++ [d]) = count_device ro (count ro l) d.
Proof. unfold count. by rewrite fold_left_app. Qed.

Lemma int32_id z : - 2 ^ 31 ≤ z < 2 ^ 31 → int32 z = z.
Proof. intros Hz. by apply wrap_id. Qed.
Lemma int32_small z : 0 ≤ z < 2 ^ 31 → int32 z = z.
Proof. intros Hz. apply int32_id. lia. Qed.

(** A round of the loop in terms of the sets. *)
Lemma count_device_spec t d :
  count_device ro t d =
    mkTally (if decide (waiting ro d) then targeted t else int32 (targeted t + 1))
            (if decide (reached ro d) then int32 (succeeded t + 1) else succeeded t)
            (if decide (burned ro d) then int32 (failed t + 1) else failed t)
            (if decide (waiting ro d) then untargeted t ++ [d] else untargeted t).
Proof.
  pose proof (classes ro d) as Hd. unfold count_device.
  destruct (decide (CurrentFirmwareVersion (Status d) = TargetVersion (RSpec ro))) as [Hc|Hc].
  { assert (reached ro d) by done. by repeat case_decide; try tauto. }
  destruct (decide (DesiredFirmwareVersion (Spec d) = TargetVersion (RSpec ro))) as [Hv|Hv].
  - assert (aimed ro d) by done. rewrite (decide_False (P := _ ≠ _)) by tauto.
    destruct (deviceFailed d) eqn:Hf.
    + assert (burned ro d) by done. by repeat case_decide; try tauto.
    + assert (underway ro d) by done. by repeat case_decide; try tauto.
  - assert (waiting ro d) by done. rewrite (decide_True (P := _ ≠ _)) by done.
    by repeat case_decide; try tauto.
Qed.

(** Up to two billion devices the loop counts what it means to count. *)
Lemma count_spec l :
  Z.of_nat (length l) < 2 ^ 31 →
  count ro l = mkTally (num (reached ro) l + num (aimed ro) l) (num (reached ro) l)
                 (num (burned ro) l) (filter (waiting ro) l).
Proof.
  induction l as [|d l IH] using rev_ind; [done|]. rewrite length_app; simpl length. intros Hl.
  rewrite count_snoc, IH, count_device_spec by lia. clear IH. simpl.
  destruct (reached_spread ro [d]) as [H3 H4]. simpl in H3. rewrite list.filter_app, !num_app. shares ro l.
  rewrite !num_cons, !num_nil, filter_cons, filter_nil, !Z.add_0_r in *.
  f_equal.
  - destruct (decide (waiting ro d)); [|rewrite int32_small]; repeat case_decide; lia.
  - repeat case_decide; try contradiction; rewrite ?int32_small; lia.
  - repeat case_decide; try contradiction; rewrite ?int32_small; lia.
  - repeat case_decide; try contradiction; by rewrite ?app_nil_r.
Qed.

Lemma inFlight_spec l :
  Z.of_nat (length l) < 2 ^ 31 → inFlight (count ro l) = num (underway ro) l.
Proof.
  intros Hl. rewrite count_spec by done. unfold inFlight. simpl.
  shares ro l.
  rewrite (int32_small (num (reached ro) l + _ - _)) by lia. rewrite int32_small; lia.
Qed.

(** The breaker over unbounded integers. *)
Definition rate_exceeded (l : list EdgeDevice) : Prop :=
  0 < num (reached ro) l + num (aimed ro) l ∧
  FailureThresholdPercent (RSpec ro) * (num (reached ro) l + num (aimed ro) l) ≤ 100 * num (burned ro) l.
Global Instance rate_exceeded_dec l : Decision (rate_exceeded l).
Proof. unfold rate_exceeded. apply _. Defined.

Lemma tripped_spec l :
  1 ≤ FailureThresholdPercent (RSpec ro) ≤ 100 → 100 * Z.of_nat (length l) < 2 ^ 31 →
  tripped ro (count ro l) = bool_decide (rate_exceeded l).
Proof.
  intros Hthr Hl. rewrite count_spec by lia. unfold tripped, rate_exceeded. simpl.
  shares ro l. rewrite !int32_small by nia.
  apply eq_true_iff_eq. rewrite andb_true_iff, Z.ltb_lt, Z.leb_le, bool_decide_eq_true.
  by rewrite (Z.mul_comm (num (burned ro) l)).
Qed.
End tally.
