(* ===== verification/RolloutPlan.v ===== *)
(** * What a pass of the rollout reconciler sends

    The plan of a pass over unbounded integers, and the proof that the program sends
    a prefix of it, all of it when it succeeds, and a status derived from the list
    alone. *)

From S2P Require Import Prelude GoLib Sha256 ApiTypes DeviceController RolloutController RolloutSpec.
Open Scope Z_scope.

(** The sizes and settings the API admits, and a fleet whose counters fit. *)
Record in_range (ro : FleetRollout) (items : list EdgeDevice) : Prop := {
    threshold_range : 1 ≤ FailureThresholdPercent (RSpec ro) ≤ 100;
    unavailable_range : 1 ≤ MaxUnavailable (RSpec ro) < 2 ^ 31;
    fleet_range : 100 * Z.of_nat (length items) < 2 ^ 31;
  }.

Section plan.
Context `{HC : !ConditionHelpers} (ro : FleetRollout).

Definition complete (items : list EdgeDevice) : Prop :=
  items ≠ [] ∧ num (reached ro) items = Z.of_nat (length items).
Global Instance complete_dec items : Decision (complete items).
Proof. unfold complete. apply _. Defined.

(** How many more devices may go under way. *)
Definition slots (items : list EdgeDevice) : nat :=
  Z.to_nat (MaxUnavailable (RSpec ro) - num (underway ro) items).

Definition next_batch (items : list EdgeDevice) : list EdgeDevice :=
  take (slots items) (filter unpaused (filter (waiting ro) items)).

Definition plan (items : list EdgeDevice) : list EdgeDevice :=
  if decide (rate_exceeded ro items) then set_paused <$> filter unpaused items
  else if decide (complete items) then []
  else retarget ro <$> next_batch items.

Definition phase_of (items : list EdgeDevice) : string :=
  if decide (rate_exceeded ro items) then RolloutPausedPhase
  else if decide (complete items) then RolloutComplete
  else RolloutProgressing.

(** The status of a pass, from the list alone. *)
Definition derived (items : list EdgeDevice) (st : FleetRolloutStatus) : Prop :=
  RPhase st = phase_of items ∧
  Selected st = Z.of_nat (length items) ∧
  Targeted st = num (reached ro) items + num (aimed ro) items +
    (if decide (rate_exceeded ro items) then 0 else Z.of_nat (length (plan items))) ∧
  Succeeded st = num (reached ro) items ∧
  Failed st = num (burned ro) items ∧
  RObservedGeneration st = Generation (RMeta ro) ∧
  ∃ c, FindStatusCondition (RConditions st) ConditionBreakerTripped = Some c ∧
       Status' c = if decide (rate_exceeded ro items) then ConditionTrue else ConditionFalse.
End plan.

Section sends.
Context {E : Type} `{HE : !ApiErrors E} `{HC : !ConditionHelpers, HCL : !ConditionLaws HC}.
Context (ro : FleetRollout).
Local Instance tsem : Sem (rolS E) (list (event (rolS E))) := traced.

(** The device updates and the status updates of a history, in order. *)
Definition sent (tr : list (event (rolS E))) : list EdgeDevice :=
  omap (λ ev, match projT1 ev with RUpdate d => Some d | _ => None end) tr.
Definition statuses (tr : list (event (rolS E))) : list FleetRollout :=
  omap (λ ev, match projT1 ev with RStatusUpdate r => Some r | _ => None end) tr.

Lemma sent_app tr1 tr2 : sent (tr1 ++ tr2) = sent tr1 ++ sent tr2.
Proof. apply omap_app. Qed.
Lemma statuses_app tr1 tr2 : statuses (tr1 ++ tr2) = statuses tr1 ++ statuses tr2.
Proof. apply omap_app. Qed.

(** From [tr] to [tr'] the updates [ws] were sent and no status. *)
Definition after (tr : list (event (rolS E))) (ws : list EdgeDevice) (tr' : list (event (rolS E))) : Prop :=
  sent tr' = sent tr ++ ws ∧ statuses tr' = statuses tr.

Lemma after_nil tr : after tr [] tr.
Proof. split; [by rewrite app_nil_r|done]. Qed.

(** Nothing was written yet. *)
Definition silent (tr : list (event (rolS E))) : Prop := sent tr = [] ∧ statuses tr = [].

Lemma after_start tr0 ws tr : silent tr0 → after tr0 ws tr → sent tr = ws ∧ statuses tr = [].
Proof. by intros [Hs Hn] [-> ->]; rewrite Hs, Hn. Qed.

Lemma after_cons tr d r ws tr' :
  after (tr ++ [existT (RUpdate d : act (rolS E)) r]) ws tr' → after tr (d :: ws) tr'.
Proof.
  intros [H1 H2]. rewrite sent_app in H1. rewrite statuses_app in H2. split.
  - rewrite H1. simpl. by rewrite <-app_assoc.
  - rewrite H2. simpl. by rewrite app_nil_r.
Qed.

Lemma traced_update d (Q : option E → list (event (rolS E)) → Prop) tr :
  (∀ r, Q r (tr ++ [existT (RUpdate d : act (rolS E)) r])) → wp (rcall (RUpdate d)) Q tr.
Proof. intros HQ. split; [done|]. intros r tr' ->. by split. Qed.

Lemma pause_all_sends items tr :
  let all := set_paused <$> filter unpaused items in
  wp (pause_all items) (λ r tr', ∃ ws, after tr ws tr' ∧ ws `prefix_of` all ∧ (r = None → ws = all)) tr.
Proof.
  revert tr. induction items as [|d items IH]; intros tr; cbn zeta.
  - split; [done|]. exists []. split; [apply after_nil|done].
  - rewrite filter_cons. cbn [pause_all]. destruct (decide (unpaused d)) as [Hu|Hu%not_false_is_true];
      rewrite Hu; [|by apply IH].
    apply wpi_bind, traced_update. intros [e|].
    + split; [done|]. exists [set_paused d]. split; [apply after_cons with (r := Some e), after_nil|].
      split; [by exists (set_paused <$> filter unpaused items)|done].
    + eapply wpi_mono; [apply IH|done|]. intros r tr' _ (ws & Ha & [k Hk] & Hr).
      exists (set_paused d :: ws). split; [by eapply after_cons|]. split.
      * exists k. by rewrite fmap_cons, Hk.
      * intros Hn. by rewrite fmap_cons, (Hr Hn).
Qed.

Lemma push_sends cap t devs tr :
  cap < 2 ^ 31 → 0 ≤ t → t + Z.of_nat (length devs) < 2 ^ 31 →
  let batch := retarget ro <$> take (Z.to_nat cap) (filter unpaused devs) in
  wp (push ro cap t devs) (λ r tr', ∃ ws, after tr ws tr' ∧ ws `prefix_of` batch ∧
     ∀ t', r = Ok t' → ws = batch ∧ t' = t + Z.of_nat (length batch)) tr.
Proof.
  revert cap t tr. induction devs as [|d devs IH]; intros cap t tr Hcap Ht Hlen; cbn zeta; cbn [push].
  - split; [done|]. exists []. rewrite filter_nil, take_nil. split; [apply after_nil|].
    split; [done|]. intros t' [= <-]. split; [done|]. simpl. lia.
  - destruct (cap <=? 0) eqn:Hc.
    { apply Z.leb_le in Hc. replace (Z.to_nat cap) with 0%nat by lia.
      split; [done|]. exists []. split; [apply after_nil|]. split; [done|].
      intros t' [= <-]. split; [done|]. simpl. lia. }
    apply Z.leb_gt in Hc. simpl length in Hlen. rewrite filter_cons.
    destruct (decide (unpaused d)) as [Hu|Hu%not_false_is_true]; rewrite Hu; [|by apply IH; lia].
    replace (Z.to_nat cap) with (Datatypes.S (Z.to_nat (cap - 1))) by lia. cbn [take].
    apply wpi_bind, traced_update. intros [e|].
    + split; [done|]. exists [retarget ro d]. split; [apply after_cons with (r := Some e), after_nil|].
      split; [by exists (retarget ro <$> take (Z.to_nat (cap - 1)) (filter unpaused devs))|done].
    + rewrite !int32_small by lia. eapply wpi_mono; [apply (IH (cap - 1) (t + 1)); lia|done|].
      intros r tr' _ (ws & Ha & [k Hk] & Hr).
      exists (retarget ro d :: ws). split; [by eapply after_cons|]. split.
      * exists k. by rewrite fmap_cons, Hk.
      * intros t' Hn. destruct (Hr t' Hn) as [-> ->]. rewrite fmap_cons. split; [done|]. simpl. lia.
Qed.

(** What the status step adds to a history: nothing, if the stored status already
    says so, or one write of a status with that content. *)
Definition status_step (items : list EdgeDevice) (tr : list (event (rolS E)))
    (r : Result * option E) (tr' : list (event (rolS E))) : Prop :=
  sent tr' = sent tr ∧
  ((statuses tr' = statuses tr ∧ r.2 = None ∧ derived ro items (RStatus ro)) ∨
   (∃ st, statuses tr' = statuses tr ++ [mkFleetRollout (RMeta ro) (RSpec ro) st] ∧
      derived ro items st)).

Lemma derived_equal items a b :
  rolloutStatusEqual a b = true → derived ro items b → derived ro items a.
Proof.
  unfold rolloutStatusEqual, derived. case_decide as Hd; [|done].
  destruct Hd as (-> & -> & -> & -> & -> & ->). intros Heq (? & ? & ? & ? & ? & ? & cb & Hcb & Hs).
  split_and!; try done. rewrite Hcb in Heq.
  destruct (FindStatusCondition (RConditions a) _) as [ca|]; [|done].
  exists ca. split; [done|]. apply bool_decide_eq_true in Heq. by destruct Heq as [-> _].
Qed.

Lemma write_status_sends items phase tgt tr :
  in_range ro items →
  (∀ conds c, FindStatusCondition conds ConditionBreakerTripped = Some c →
     Status' c = (if decide (rate_exceeded ro items) then ConditionTrue else ConditionFalse) →
     derived ro items (mkFleetRolloutStatus phase (Z.of_nat (length items)) tgt
       (num (reached ro) items) (num (burned ro) items) conds (Generation (RMeta ro)))) →
  wp (write_status ro phase (Z.of_nat (length items)) tgt (count ro items)) (status_step items tr) tr.
Proof.
  intros [Hthr _ Hlen] Hd. unfold write_status. apply wpi_bind. split; [done|].
  intros now tr1 ->. split; [done|]. cbn zeta.
  rewrite tripped_spec by done. rewrite int32_small by lia.
  set (cond := breaker_condition _ _).
  assert (Type' cond = ConditionBreakerTripped ∧
    Status' cond = if decide (rate_exceeded ro items) then ConditionTrue else ConditionFalse) as [Hty Hst].
  { subst cond. destruct (decide (rate_exceeded ro items)) as [Hr|Hr];
      [by rewrite bool_decide_eq_true_2|by rewrite bool_decide_eq_false_2]. }
  destruct (set_same now (RConditions (RStatus ro)) cond) as (tt & Hfind & _). rewrite Hty in Hfind.
  rewrite count_spec by lia. cbn [succeeded failed]. specialize (Hd _ _ Hfind Hst).
  destruct (rolloutStatusEqual _ _) eqn:Heq.
  - split; [done|]. split; [by rewrite sent_app, app_nil_r|]. left.
    split; [by rewrite statuses_app, app_nil_r|]. split; [done|]. by eapply derived_equal.
  - apply wpi_bind. split; [done|]. intros r tr2 ->. split; [done|].
    assert (∀ r' : Result * option E, status_step items tr r' ((tr ++ [existT (RNow : act (rolS E)) now]) ++
      [existT (RStatusUpdate (mkFleetRollout (RMeta ro) (RSpec ro)
         (mkFleetRolloutStatus phase (Z.of_nat (length items)) tgt (num (reached ro) items)
            (num (burned ro) items) (SetStatusCondition now (RConditions (RStatus ro)) cond)
            (Generation (RMeta ro)))) : act (rolS E)) r])) as Hstep.
    { intros r'. split; [by rewrite !sent_app, !app_nil_r|]. right. eexists. split; [|exact Hd].
      by rewrite !statuses_app, app_nil_r. }
    destruct r as [e|]; split; auto; done.
Qed.

Definition follows_plan (items : list EdgeDevice) (r : Result * option E)
    (tr : list (event (rolS E))) : Prop :=
  (sent tr `prefix_of` plan ro items ∧ statuses tr = [] ∧ r.2 ≠ None) ∨
  (sent tr = plan ro items ∧ statuses tr = [] ∧ r.2 = None ∧ derived ro items (RStatus ro)) ∨
  (sent tr = plan ro items ∧ ∃ st, statuses tr = [mkFleetRollout (RMeta ro) (RSpec ro) st] ∧
     derived ro items st).

Lemma status_step_follows items tr r tr' :
  sent tr = plan ro items → statuses tr = [] → status_step items tr r tr' → follows_plan items r tr'.
Proof.
  intros Hs Hn [Hs' [(Hn' & Hr & Hd)|(st & Hn' & Hd)]]; right; rewrite Hs, Hn in *.
  - left. by rewrite Hs'.
  - right. split; [done|]. by exists st.
Qed.

Lemma plan_small items :
  in_range ro items → Z.of_nat (length (plan ro items)) ≤ Z.of_nat (length items).
Proof.
  intros _. unfold plan. repeat case_decide; simpl; [|lia|].
  - rewrite length_fmap. pose proof (length_filter unpaused items). lia.
  - rewrite length_fmap. unfold next_batch. rewrite length_take.
    pose proof (length_filter unpaused (filter (waiting ro) items)).
    pose proof (length_filter (waiting ro) items). lia.
Qed.

Lemma complete_spec items :
  Z.of_nat (length items) < 2 ^ 31 →
  ((0 <? Z.of_nat (length items)) &&
   (succeeded (count ro items) =? int32 (Z.of_nat (length items)))) = bool_decide (complete ro items).
Proof.
  intros Hl. rewrite count_spec, int32_small by lia. apply eq_true_iff_eq.
  rewrite andb_true_iff, Z.ltb_lt, Z.eqb_eq, bool_decide_eq_true. cbn [succeeded].
  unfold complete. destruct items; simpl; [split; [lia|by intros [? _]]|split; [|lia]].
  intros [_ ?]. done.
Qed.

Lemma advance_sends items tr0 :
  in_range ro items → silent tr0 → wp (advance ro items) (follows_plan items) tr0.
Proof.
  intros Hrange H0. pose proof Hrange as [Hthr Hmax Hlen]. shares ro items. unfold advance. cbn zeta.
  rewrite tripped_spec by done.
  assert (Hplan := eq_refl (plan ro items)). unfold plan at 2 in Hplan.
  assert (Hderived : ∀ phase tgt conds c, phase = phase_of ro items →
    tgt = num (reached ro) items + num (aimed ro) items +
      (if decide (rate_exceeded ro items) then 0 else Z.of_nat (length (plan ro items))) →
    FindStatusCondition conds ConditionBreakerTripped = Some c →
    Status' c = (if decide (rate_exceeded ro items) then ConditionTrue else ConditionFalse) →
    derived ro items (mkFleetRolloutStatus phase (Z.of_nat (length items)) tgt
      (num (reached ro) items) (num (burned ro) items) conds (Generation (RMeta ro)))).
  { intros phase tgt conds c -> -> Hc Hst. split_and!; try done. by exists c. }
  unfold plan, phase_of in Hderived.
  destruct (decide (rate_exceeded ro items)) as [Hx|Hx].
  - rewrite bool_decide_eq_true_2 by done. apply wpi_bind.
    eapply wpi_mono; [apply pause_all_sends|done|]. intros [e|] tr _ (ws & [Hs Hn]%(after_start _ _ _ H0) & Hp & Hall).
    + split; [done|]. left. by rewrite Hs, Hplan.
    + rewrite (Hall eq_refl) in Hs. rewrite count_spec by lia. cbn [targeted].
      rewrite <-(count_spec ro items) by lia.
      eapply wpi_mono; [apply write_status_sends; [done|]|done|].
      * intros conds c Hc Hst. rewrite decide_True in Hst by done.
        eapply Hderived; [done|lia|done|done].
      * intros r tr' _ Hstep. apply (status_step_follows items tr); [|done|done].
        by rewrite Hplan.
  - rewrite bool_decide_eq_false_2 by done.
    rewrite complete_spec by lia.
    destruct (decide (complete ro items)) as [Hc|Hc].
    + rewrite bool_decide_eq_true_2 by done. rewrite count_spec by lia. cbn [targeted].
      rewrite <-(count_spec ro items) by lia.
      eapply wpi_mono; [apply write_status_sends; [done|]|done|].
      * intros conds c Hcond Hst. rewrite decide_False in Hst by done.
        eapply Hderived; [done|simpl; lia|done|done].
      * intros r tr' _ Hstep. apply (status_step_follows items tr0); [|apply H0|done].
        rewrite Hplan. apply H0.
    + rewrite bool_decide_eq_false_2 by done. apply wpi_bind. rewrite inFlight_spec by lia.
      rewrite int32_id by lia. rewrite count_spec by lia. cbn [targeted untargeted].
      rewrite <-(count_spec ro items) by lia.
      eapply wpi_mono; [apply push_sends|done|].
      * lia.
      * lia.
      * pose proof (num_bounds (waiting ro) items). unfold num in *. lia.
      * intros [t'|e] tr _ (ws & [Hs Hn]%(after_start _ _ _ H0) & Hp & Hall); [|by split; [|left; rewrite Hs, Hplan]].
        destruct (Hall t' eq_refl) as [-> ->].
        eapply wpi_mono; [apply write_status_sends; [done|]|done|].
        -- intros conds c Hcond Hst. rewrite decide_False in Hst by done.
           by eapply Hderived.
        -- intros r tr' _ Hstep. apply (status_step_follows items tr); [|done|done].
           by rewrite Hplan.
Qed.
End sends.
