(* ===== verification/RolloutFleet.v ===== *)
(** * What the rollout's writes do to a fleet

    The effect of a pass on the devices: how many can be under way after it, whichever
    of its writes took effect; a world in which every call succeeds; and the rounds of
    a campaign over willing devices. *)

From S2P Require Import Prelude GoLib Sha256 ApiTypes DeviceController RolloutController RolloutSpec RolloutPlan.
Open Scope Z_scope.

(** ** Storing a write *)

(** The spec is written, the status of the stored object stays. *)
Definition store_one (d w : EdgeDevice) : EdgeDevice :=
  if decide (Name (Meta d) = Name (Meta w)) then mkEdgeDevice (Meta d) (Spec w) (Status d) else d.
Definition store_all (ws : list EdgeDevice) (d : EdgeDevice) : EdgeDevice := fold_left store_one ws d.

Definition name_of (d : EdgeDevice) : string := Name (Meta d).

(** A write the controller derives from the device it read. *)
Definition own_write (f : EdgeDevice → EdgeDevice) : Prop :=
  ∀ d, Meta (f d) = Meta d ∧ Status (f d) = Status d.

Lemma own_pause : own_write set_paused.
Proof. done. Qed.
Lemma own_retarget ro : own_write (retarget ro).
Proof. done. Qed.

Lemma store_one_name d w : name_of (store_one d w) = name_of d.
Proof. unfold store_one, name_of. by case_decide. Qed.

Lemma NoDup_name_inj items d d' :
  NoDup (name_of <$> items) → d ∈ items → d' ∈ items → name_of d = name_of d' → d = d'.
Proof.
  induction items as [|x items IH]; [by intros _ ?%not_elem_of_nil|]. rewrite fmap_cons.
  intros [Hx Hnd]%list.NoDup_cons Hd Hd' Heq.
  apply elem_of_cons in Hd as [->|Hd], Hd' as [->|Hd']; [done|..].
  - destruct Hx. rewrite Heq. by apply list_elem_of_fmap_2.
  - destruct Hx. rewrite <-Heq. by apply list_elem_of_fmap_2.
  - by apply IH.
Qed.

(** Whatever subset of the writes took effect, a device is as it was or as its own
    write made it. *)
Lemma store_all_own f ws items d :
  own_write f → NoDup (name_of <$> items) → d ∈ items →
  (∀ w, w ∈ ws → ∃ d0, d0 ∈ items ∧ w = f d0) →
  (store_all ws d = d ∧ f d ∉ ws) ∨ (store_all ws d = f d ∧ f d ∈ ws).
Proof.
  intros Hf Hnd Hd. assert (∀ ws, (∀ w, w ∈ ws → ∃ d0, d0 ∈ items ∧ w = f d0) →
    store_all ws (f d) = f d) as Hdone.
  { clear ws. intros ws. induction ws as [|w ws IH]; [done|]. intros Hws. simpl.
    destruct (Hws w ltac:(by left)) as (d0 & Hd0 & ->). unfold store_one.
    destruct (Hf d) as [Hm Hs], (Hf d0) as [Hm0 _]. rewrite Hm, Hm0. case_decide as Hn.
    - rewrite (NoDup_name_inj items d0 d) by done. rewrite Hs.
      replace (mkEdgeDevice (Meta d) (Spec (f d)) (Status d)) with (f d); [by apply IH; intros w Hw; apply Hws; right|].
      destruct (f d); simpl in *; congruence.
    - apply IH. intros w Hw. apply Hws. by right. }
  induction ws as [|w ws IH]; [left; split; [done|apply not_elem_of_nil]|]. intros Hws.
  change (store_all (w :: ws) d) with (store_all ws (store_one d w)).
  destruct (Hws w ltac:(by left)) as (d0 & Hd0 & ->).
  assert (∀ w, w ∈ ws → ∃ d0, d0 ∈ items ∧ w = f d0) as Hws' by (intros w Hw; apply Hws; by right).
  destruct (decide (name_of d = name_of d0)) as [Hn|Hn].
  - rewrite (NoDup_name_inj items d0 d) by done. right. split; [|by left].
    destruct (Hf d) as [Hm Hs]. unfold store_one. rewrite Hm, decide_True by done.
    replace (mkEdgeDevice (Meta d) (Spec (f d)) (Status d)) with (f d); [by apply Hdone|].
    destruct (f d); simpl in *; congruence.
  - destruct (Hf d0) as [Hm0 _]. assert (store_one d (f d0) = d) as ->
      by (unfold store_one; by rewrite Hm0, decide_False).
    destruct (IH Hws') as [[? ?]|[? ?]]; [left|right]; split; try done; [|by right].
    rewrite not_elem_of_cons. split; [|done]. intros Heq. apply Hn. unfold name_of.
    destruct (Hf d) as [Hm _]. by rewrite <-Hm, Heq, Hm0.
Qed.

Lemma num_fmap P `{!∀ d, Decision (P d)} f l :
  num P (f <$> l) = num (λ d, P (f d)) l.
Proof.
  induction l as [|d l IH]; [done|]. rewrite fmap_cons, !num_cons, IH. done.
Qed.

Lemma num_mono P Q `{!∀ d, Decision (P d), !∀ d, Decision (Q d)} l :
  (∀ d, d ∈ l → P d → Q d) → num P l ≤ num Q l.
Proof.
  induction l as [|d l IH]; intros HPQ; [done|]. rewrite !num_cons.
  assert (num P l ≤ num Q l) by (apply IH; intros; apply HPQ; [by right|done]).
  repeat case_decide; try lia. exfalso. naive_solver (by left).
Qed.

Lemma num_ext P Q `{!∀ d, Decision (P d), !∀ d, Decision (Q d)} l :
  (∀ d, d ∈ l → P d ↔ Q d) → num P l = num Q l.
Proof.
  intros HPQ. apply Z.le_antisymm; apply num_mono; intros d Hd; by apply HPQ.
Qed.

Lemma num_zero P `{!∀ d, Decision (P d)} l d : num P l = 0 → d ∈ l → ¬ P d.
Proof.
  unfold num. intros Hn Hd HP. assert (d ∈ filter P l) as Hin by by apply list_elem_of_filter.
  destruct (filter P l); [by apply not_elem_of_nil in Hin|done].
Qed.

(** One write changes the state of at most one device. *)
Lemma num_store_one P `{!∀ d, Decision (P d)} items w :
  NoDup (name_of <$> items) → num P ((λ d, store_one d w) <$> items) ≤ num P items + 1.
Proof.
  induction items as [|d items IH]; [by cbn|]. rewrite fmap_cons. intros [Hd Hnd]%list.NoDup_cons.
  rewrite fmap_cons, !num_cons.
  destruct (decide (Name (Meta d) = Name (Meta w))) as [Hn|Hn].
  - assert ((λ d, store_one d w) <$> items = items) as ->.
    { rewrite <-(list_fmap_id items) at 2. apply list_fmap_ext. intros i x Hx. simpl.
      unfold store_one. rewrite decide_False; [done|]. intros Hx'. apply Hd.
      apply list_elem_of_fmap. exists x. split; [unfold name_of; congruence|]. by eapply list_elem_of_lookup_2. }
    repeat case_decide; lia.
  - assert (store_one d w = d) as -> by (unfold store_one; by rewrite decide_False).
    specialize (IH Hnd). repeat case_decide; try contradiction; lia.
Qed.

Lemma num_store_all P `{!∀ d, Decision (P d)} ws items :
  NoDup (name_of <$> items) →
  num P (store_all ws <$> items) ≤ num P items + Z.of_nat (length ws).
Proof.
  revert items. induction ws as [|w ws IH]; intros items Hnd; simpl.
  - unfold store_all. simpl. rewrite list_fmap_id. lia.
  - pose proof (num_store_one P items w Hnd).
    assert (store_all (w :: ws) <$> items = store_all ws <$> ((λ d, store_one d w) <$> items)) as ->
      by by rewrite <-list_fmap_compose.
    assert (name_of <$> ((λ d, store_one d w) <$> items) = name_of <$> items) as Hnames.
    { rewrite <-list_fmap_compose. apply list_fmap_ext. intros. apply store_one_name. }
    specialize (IH ((λ d, store_one d w) <$> items)). rewrite Hnames in IH. specialize (IH Hnd). lia.
Qed.

(** ** The plan, device by device *)

Section effects.
Context `{HC : !ConditionHelpers} (ro : FleetRollout).

(** The devices a pass writes, and what it does to each. *)
Definition chosen (items : list EdgeDevice) : list EdgeDevice :=
  if decide (rate_exceeded ro items) then filter unpaused items
  else if decide (complete ro items) then [] else next_batch ro items.
Definition lever (items : list EdgeDevice) : EdgeDevice → EdgeDevice :=
  if decide (rate_exceeded ro items) then set_paused else retarget ro.

Lemma plan_chosen items : plan ro items = lever items <$> chosen items.
Proof. unfold plan, chosen, lever. by repeat case_decide. Qed.

Lemma lever_own items : own_write (lever items).
Proof. unfold lever. by case_decide. Qed.

Lemma next_batch_in items d : d ∈ next_batch ro items → d ∈ items ∧ waiting ro d ∧ unpaused d.
Proof.
  unfold next_batch. intros Hd%(subseteq_take _ _).
  by rewrite !list_elem_of_filter in Hd; destruct_and?.
Qed.

Lemma chosen_in items d :
  d ∈ chosen items →
  d ∈ items ∧ unpaused d ∧ (rate_exceeded ro items ∨ waiting ro d).
Proof.
  unfold chosen. repeat case_decide.
  - rewrite list_elem_of_filter. tauto.
  - by intros ?%not_elem_of_nil.
  - intros Hd. apply next_batch_in in Hd. tauto.
Qed.

(** After any part [ws] of the plan, a device is as it was, or it is one of the
    chosen ones and the lever was pulled. *)
Lemma after_part items ws d :
  NoDup (name_of <$> items) → ws `sublist_of` plan ro items → d ∈ items →
  (store_all ws d = d ∧ lever items d ∉ ws) ∨
  (store_all ws d = lever items d ∧ lever items d ∈ ws ∧ d ∈ chosen items).
Proof.
  intros Hnd Hws Hd. assert (∀ w, w ∈ ws → ∃ d0, d0 ∈ chosen items ∧ w = lever items d0) as Hin.
  { intros w Hw%(sublist_subseteq _ _ Hws).
    rewrite plan_chosen, list_elem_of_fmap in Hw. destruct Hw as (d0 & -> & ?). by exists d0. }
  destruct (store_all_own (lever items) ws items d) as [?|[? Hl]]; [by apply lever_own|done..| |by left|].
  - intros w Hw. destruct (Hin w Hw) as (d0 & Hd0 & ->). exists d0. by apply chosen_in in Hd0 as [? _].
  - right. split_and!; [done|done|]. destruct (Hin _ Hl) as (d0 & Hd0 & Heq).
    assert (d = d0) as ->; [|done]. apply chosen_in in Hd0 as [? _].
    apply (NoDup_name_inj items); try done. unfold name_of.
    destruct (lever_own items d) as [Hm _], (lever_own items d0) as [Hm0 _]. by rewrite <-Hm, Heq, Hm0.
Qed.

Lemma plan_blast items ws :
  NoDup (name_of <$> items) → ws `sublist_of` plan ro items →
  num (underway ro) (store_all ws <$> items)
    ≤ Z.max (num (underway ro) items) (MaxUnavailable (RSpec ro)).
Proof.
  intros Hnd Hws. destruct (decide (rate_exceeded ro items)) as [Hx|Hx].
  - rewrite num_fmap. rewrite (num_ext _ (underway ro)); [lia|]. intros d Hd.
    destruct (after_part items ws d) as [[-> _]|(-> & _ & _)]; [done..|].
    unfold lever. by rewrite decide_True.
  - pose proof (num_store_all (underway ro) ws items Hnd).
    apply sublist_length in Hws. unfold plan in Hws. rewrite decide_False in Hws by done.
    case_decide; simpl in Hws; [lia|]. rewrite length_fmap in Hws.
    unfold next_batch in Hws. rewrite length_take in Hws. unfold slots in Hws. lia.
Qed.
End effects.

(** ** A willing world *)

(** Between two passes the agents carry out what they were told. *)
Record cooperative `{!ConditionHelpers} (ro : FleetRollout) (respond : EdgeDevice → EdgeDevice) : Prop := {
    coop_own : ∀ d, Meta (respond d) = Meta d ∧ Spec (respond d) = Spec d;
    coop_done : ∀ d, underway ro d → reached ro (respond d);
    coop_else : ∀ d, ¬ underway ro d → Status (respond d) = Status d;
    coop_fine : ∀ d, deviceFailed d = false → deviceFailed (respond d) = false;
  }.

Section willing.
Context {E : Type} `{HE : !ApiErrors E} `{HC : !ConditionHelpers, HCL : !ConditionLaws HC}.
Context `{HS : !SliceSort, HSL : !SliceSortLaws HS} (ro : FleetRollout).

(** Every call succeeds; the list is the fleet. *)
Definition willing_run (o : act (rolS E)) (s : list EdgeDevice) : option (res o * list EdgeDevice) :=
  match o return option (rolres E o * list EdgeDevice) with
  | RGet _ _ => Some (Ok ro, s)
  | RList _ _ => Some (Ok s, s)
  | RListRollouts _ => Some (Ok [ro], s)
  | RUpdate d => Some (None, (λ x, store_one x d) <$> s)
  | RStatusUpdate _ => Some (None, s)
  | RNow => Some (0, s)
  end.

Definition willing : Sem (rolS E) (list EdgeDevice) := λ o s r s', willing_run o s = Some (r, s').
Local Instance wsem : Sem (rolS E) (list EdgeDevice) := willing.

Lemma willing_update d (Q : option E → list EdgeDevice → Prop) s :
  Q None ((λ x, store_one x d) <$> s) → wp (rcall (RUpdate d)) Q s.
Proof. intros HQ. split; [done|]. by intros r s' [= <- <-]. Qed.

Lemma willing_pause items s : wp (pause_all items) (λ r _, r = None) s.
Proof.
  revert s. induction items as [|d items IH]; intros s; [done|]. cbn [pause_all].
  case_match; [apply IH|]. apply wpi_bind, willing_update, IH.
Qed.

Lemma willing_push cap t devs s : wp (push ro cap t devs) (λ r _, ∃ t', r = Ok t') s.
Proof.
  revert cap t s. induction devs as [|d devs IH]; intros cap t s; cbn [push]; [by split; [|eexists]|].
  case_match; [by split; [|eexists]|]. case_match; [apply IH|].
  apply wpi_bind, willing_update, IH.
Qed.

Lemma willing_status phase n t tl s : wp (write_status ro phase n t tl) (λ r _, r.2 = None) s.
Proof.
  unfold write_status. split; [done|]. intros now s' _. cbn [bind]. case_match; [done|].
  split; [done|]. intros r s2 [= <- <-]. done.
Qed.

Lemma willing_advance items s : wp (advance ro items) (λ r _, r.2 = None) s.
Proof.
  unfold advance. cbn zeta. repeat case_match.
  - apply wpi_bind. eapply wpi_mono; [apply willing_pause|done|]. intros r s' _ ->. apply willing_status.
  - apply willing_status.
  - apply wpi_bind. eapply wpi_mono; [apply willing_push|done|].
    intros r s' _ [t ->]. apply willing_status.
Qed.

Lemma replay_sent s tr s' : replay s tr s' → s' = store_all (sent tr) <$> s.
Proof.
  revert s. induction tr as [|[o r] tr IH]; intros s; cbn [replay].
  - intros ->. unfold store_all. simpl. by rewrite list_fmap_id.
  - intros (s1 & Hs & Hr). rewrite (IH _ Hr). clear IH Hr.
    destruct o; injection Hs as _ <-; try done.
    exact (eq_sym (list_fmap_compose (λ x, store_one x d) (store_all (sent tr)) s)).
Qed.

(** A pass in the willing world carries out the plan. *)
Lemma willing_pass items s :
  in_range ro items →
  wp (advance ro items) (λ r s', r.2 = None ∧ s' = store_all (plan ro items) <$> s) s.
Proof.
  intros Hr. pose proof (traced_replay (HS := willing) _ _ [] s (advance_sends (E := E) ro items [] Hr (conj eq_refl eq_refl))) as H1.
  pose proof (wpi_conj _ _ _ _ _ _ H1 (willing_advance items s)) as H2.
  eapply wpi_mono; [exact H2|done|]. intros r s' _ [(tr & Hf & Hrep) Hn]. split; [done|].
  rewrite (replay_sent _ _ _ Hrep). cbn [app] in Hf. by destruct Hf as [(_ & _ & Hne)|[(-> & _)|(-> & _)]].
Qed.

(** ** The campaign *)

(** Nothing stands in the way: no device is paused, none has failed. *)
Record clear_road (s : list EdgeDevice) : Prop := {
    road_names : NoDup (name_of <$> s);
    road_clear : ∀ d, d ∈ s → unpaused d ∧ deviceFailed d = false;
    road_range : in_range ro s;
  }.

Lemma no_burn s : (∀ d, d ∈ s → deviceFailed d = false) → num (burned ro) s = 0.
Proof.
  intros Hs. unfold num. replace (filter (burned ro) s) with (@nil EdgeDevice); [done|].
  symmetry. apply elem_of_nil_inv. intros d. rewrite list_elem_of_filter. intros [[_ Hf] Hd].
  rewrite (Hs d Hd) in Hf. done.
Qed.

Lemma road_chosen s : clear_road s → chosen ro s = next_batch ro s ∧ lever ro s = retarget ro.
Proof.
  intros [_ Hc [Hthr _ _]]. assert (¬ rate_exceeded ro s) as Hx.
  { unfold rate_exceeded. rewrite no_burn; [nia|]. intros d Hd. by apply Hc. }
  unfold chosen, lever. rewrite !(decide_False (P := rate_exceeded _ _)) by done. split; [|done].
  case_decide as Hcomp; [|done]. destruct Hcomp as [_ Hcomp]. shares ro s.
  assert (num (waiting ro) s = 0) as Hw by lia. unfold num in Hw.
  unfold next_batch. destruct (filter (waiting ro) s); [|simpl in Hw; lia]. by rewrite filter_nil, take_nil.
Qed.

Lemma filter_all (P : EdgeDevice → Prop) `{!∀ d, Decision (P d)} (l : list EdgeDevice) : (∀ d, d ∈ l → P d) → filter P l = l.
Proof.
  induction l as [|d l IH]; intros Hl; [done|]. rewrite filter_cons, decide_True by (apply Hl; by left).
  f_equal. apply IH. intros x Hx. apply Hl. by right.
Qed.

Lemma filter_beyond k (l : list EdgeDevice) :
  NoDup l → filter (λ d, d ∉ take k l) l = drop k l.
Proof.
  intros Hnd. rewrite <-(take_drop k l) in Hnd at 1. apply list.NoDup_app in Hnd as (_ & Hd & _).
  transitivity (filter (λ d, d ∉ take k l) (take k l ++ drop k l)); [by rewrite take_drop|].
  rewrite list.filter_app.
  replace (filter _ (take k l)) with (@nil EdgeDevice).
  - apply filter_all. intros d Hd1 Hd2. by apply (Hd d).
  - symmetry. apply elem_of_nil_inv. intros d. rewrite list_elem_of_filter. tauto.
Qed.

Lemma num_beyond s :
  clear_road s →
  num (λ d, (d ∉ next_batch ro s) ∧ waiting ro d) s
    = Z.max 0 (num (waiting ro) s - Z.of_nat (slots ro s)).
Proof.
  intros [Hnd Hc _]. unfold num, next_batch.
  rewrite (filter_all unpaused) by (intros d [_ Hd]%list_elem_of_filter; by apply Hc).
  rewrite <-(list_filter_filter (λ d, d ∉ take (slots ro s) (filter (waiting ro) s)) (waiting ro)).
  rewrite filter_beyond.
  - rewrite length_drop. lia.
  - apply list.NoDup_filter. by eapply NoDup_fmap_1.
Qed.

(** One pass over a clear road, then the agents' answer: everything that was under
    way has arrived, and a full batch has set out and arrived too. *)
Definition carried_out (respond : EdgeDevice → EdgeDevice) (items s : list EdgeDevice) : list EdgeDevice :=
  respond <$> (store_all (plan ro items) <$> s).

Lemma carried_device respond items d :
  cooperative ro respond → clear_road items → d ∈ items →
  let d' := respond (store_all (plan ro items) d) in
  name_of d' = name_of d ∧ unpaused d' ∧ deviceFailed d' = false ∧ ¬ underway ro d' ∧
  (waiting ro d' ↔ (d ∉ next_batch ro items) ∧ waiting ro d).
Proof.
  intros [Hown Hdone Helse Hfine] Hroad Hd d'. pose proof Hroad as [Hnd Hc _].
  destruct (road_chosen _ Hroad) as [Hch Hlev]. destruct (Hc d Hd) as [Hup Hok].
  assert (∀ x, name_of (respond x) = name_of x ∧ (unpaused x → unpaused (respond x))) as Hkeep.
  { intros x. destruct (Hown x) as [Hm Hs]. unfold name_of, unpaused. by rewrite Hm, Hs. }
  subst d'. destruct (after_part ro items (plan ro items) d) as [[-> Hout]|(-> & _ & Hin)]; [done..| |];
    rewrite ?Hch, ?Hlev in *.
  - assert (d ∉ next_batch ro items) as Hnb.
    { intros Hb. apply Hout. rewrite plan_chosen, Hch, Hlev. by apply list_elem_of_fmap_2. }
    destruct (Hkeep d) as [Hn Hu]. split_and!; [done|auto|auto|..].
    + destruct (decide (underway ro d)) as [Huw|Huw].
      * pose proof (Hdone d Huw). destruct (classes ro (respond d)) as [?|[?|[?|?]]]; tauto.
      * intros [[Hr Hdes] Hf]. apply Huw. destruct (Hown d) as [_ Hs]. unfold underway, aimed, reached in *.
        by rewrite (Helse d Huw), Hs in *.
    + destruct (decide (underway ro d)) as [Huw|Huw].
      * pose proof (Hdone d Huw). destruct (classes ro (respond d)) as [?|[?|[?|?]]],
          (classes ro d) as [?|[?|[?|?]]]; tauto.
      * destruct (Hown d) as [_ Hs]. unfold waiting, reached. rewrite (Helse d Huw), Hs. tauto.
  - apply next_batch_in in Hin as Hw. destruct Hw as (_ & [Hnr _] & _).
    assert (underway ro (retarget ro d)) as Huw by done.
    destruct (Hkeep (retarget ro d)) as [Hn Hu]. pose proof (Hdone _ Huw) as Hr.
    split_and!; [done|auto|by apply Hfine|..].
    + by intros [[? _] _].
    + split; [by intros [? _]|by intros [? _]].
Qed.

Lemma in_range_length items s :
  length s = length items → in_range ro items → in_range ro s.
Proof. intros Hl [? ? ?]. split; [done|done|]. by rewrite Hl. Qed.

Lemma clear_road_perm items s : items ≡ₚ s → clear_road s → clear_road items.
Proof.
  intros Hp [Hnd Hc Hr]. split.
  - by rewrite Hp.
  - intros d. rewrite Hp. apply Hc.
  - by eapply in_range_length; [rewrite Hp|].
Qed.

Lemma round_progress respond items s :
  cooperative ro respond → items ≡ₚ s → clear_road s →
  let s' := carried_out respond items s in
  clear_road s' ∧ num (underway ro) s' = 0 ∧
  num (waiting ro) s' = Z.max 0 (num (waiting ro) s - Z.of_nat (slots ro s)).
Proof.
  intros Hco Hp Hs s'. assert (Hi : clear_road items) by by eapply clear_road_perm.
  assert (Hdev : ∀ d, d ∈ s → d ∈ items) by (intros d; by rewrite Hp).
  assert (s' = (λ d, respond (store_all (plan ro items) d)) <$> s) as Hs'.
  { unfold s', carried_out. by rewrite <-list_fmap_compose. }
  split; [|split].
  - rewrite Hs'. split.
    + rewrite <-list_fmap_compose. rewrite (list_fmap_ext _ name_of s); [apply Hs|].
      intros i x Hx. apply (carried_device respond items); [done|done|].
      by eapply Hdev, list_elem_of_lookup_2.
    + intros d (d0 & -> & Hd0)%list_elem_of_fmap.
      destruct (carried_device respond items d0) as (_ & ? & ? & _); auto.
    + eapply in_range_length; [|apply Hs]. by rewrite length_fmap.
  - rewrite Hs', num_fmap. rewrite (num_ext _ (λ _, False)).
    + clear. induction s as [|d s IH]; [done|]. rewrite num_cons, decide_False by tauto. lia.
    + intros d Hd. destruct (carried_device respond items d) as (_ & _ & _ & ? & _); auto; tauto.
  - rewrite Hs', num_fmap. rewrite (num_ext _ (λ d, (d ∉ next_batch ro items) ∧ waiting ro d)).
    + rewrite <-(num_perm _ items) by done. rewrite num_beyond by done.
      unfold slots. by rewrite !(num_perm _ items s).
    + intros d Hd. by destruct (carried_device respond items d) as (_ & _ & _ & _ & ?); auto.
Qed.

(** A number of rounds: a pass, then the agents' answer. *)
Fixpoint campaign (respond : EdgeDevice → EdgeDevice) (ns name : string) (n : nat)
    (s : list EdgeDevice) : option (list EdgeDevice) :=
  match n with
  | O => Some s
  | Datatypes.S n =>
      match run willing_run (Reconcile (E := E) ns name) s with
      | Some (_, s1) => campaign respond ns name n (respond <$> s1)
      | None => None
      end
  end.

Lemma pass_runs ns name s :
  in_range ro s →
  ∃ rq, run willing_run (Reconcile (E := E) ns name) s
    = Some ((rq, None), store_all (plan ro (Slice s name_less)) <$> s).
Proof.
  intros Hr. destruct (run_total willing_run (Reconcile (E := E) ns name) s) as ([rq e] & s' & Hrun).
  { by intros []; eexists. }
  enough (e = None ∧ s' = store_all (plan ro (Slice s name_less)) <$> s) as [-> ->] by eauto.
  refine (wpi_run (Sem0 := willing) willing_run _ always
    (λ r s', r.2 = None ∧ s' = store_all (plan ro (Slice s name_less)) <$> s) _ (rq, e) _ _ _ Hrun);
    [by intros o w r w'|].
  unfold Reconcile. split; [done|]. intros r s1 [= <- <-]. cbn [bind].
  split; [done|]. intros r s1 [= <- <-]. cbn [bind]. apply willing_pass.
  eapply in_range_length; [|done]. by rewrite slice_perm.
Qed.

Lemma campaign_arrives respond ns name n s :
  cooperative ro respond → clear_road s → num (underway ro) s = 0 →
  ∃ s', campaign respond ns name n s = Some s' ∧ clear_road s' ∧ num (underway ro) s' = 0 ∧
    num (waiting ro) s' = Z.max 0 (num (waiting ro) s - Z.of_nat n * MaxUnavailable (RSpec ro)).
Proof.
  intros Hco. revert s. induction n as [|n IH]; intros s Hs Hu.
  - exists s. split_and!; [done|done|done|]. pose proof (num_bounds (waiting ro) s). lia.
  - cbn [campaign]. destruct (pass_runs ns name s) as [rq ->]; [apply Hs|].
    destruct (round_progress respond (Slice s name_less) s) as (Hs1 & Hu1 & Hw1);
      [done|apply slice_perm|done|].
    destruct (IH _ Hs1 Hu1) as (s' & Hc & ? & ? & Hw). exists s'. split_and!; [done..|].
    rewrite Hw, Hw1. unfold slots. rewrite Hu. destruct Hs as [_ _ [_ Hmax _]]. lia.
Qed.

Lemma all_reached s :
  clear_road s → num (underway ro) s = 0 → num (waiting ro) s = 0 → ∀ d, d ∈ s → reached ro d.
Proof.
  intros [_ Hc _] Hu Hw d Hd. pose proof (num_zero _ s d Hu Hd). pose proof (num_zero _ s d Hw Hd).
  destruct (Hc d Hd) as [_ Hf]. destruct (classes ro d) as [?|[?|[(_ & _ & _ & [_ Hb] & _)|?]]]; try tauto.
  congruence.
Qed.
End willing.
