(* ===== verification/Rollout.v ===== *)
(** * Properties of the rollout reconciler

    The theorems about a pass, with their witnesses on a small fleet, and where the
    code falls short of its comments. *)

From S2P Require Import Prelude GoLib Sha256 ApiTypes DeviceController DeviceLife RolloutController RolloutSpec RolloutPlan RolloutFleet.
Open Scope Z_scope.

(** ** The order of the fleet *)

Lemma string_lt_le a b : string_lt b a = false ↔ String.le a b.
Proof.
  unfold string_lt, String.ltb, String.le, String.leb. rewrite (String.compare_antisym b a).
  destruct (a ?= b)%string; simpl; split; try done; by intros [].
Qed.

Lemma name_less_total a b : name_less a b = true → name_less b a = false.
Proof.
  unfold name_less. intros Hab. apply string_lt_le.
  destruct (String.le_total (Name (Meta a)) (Name (Meta b))) as [Hle|Hle]; [done|].
  apply string_lt_le in Hle. congruence.
Qed.

Lemma name_less_trans a b c :
  name_less b a = false → name_less c b = false → name_less c a = false.
Proof. unfold name_less. rewrite !string_lt_le. intros. by etrans. Qed.

(** Names are unique in a namespace, so sorting forgets the order of the list. *)
Lemma slice_order `{HS : !SliceSort, HSL : !SliceSortLaws HS} items items' :
  items ≡ₚ items' → NoDup (name_of <$> items) → Slice items name_less = Slice items' name_less.
Proof.
  intros Hp Hnd. pose proof name_less_trans. pose proof name_less_total.
  apply (StronglySorted_unique_strong (λ a b, name_less b a = false)).
  - intros a b Ha Hb Hab Hba. rewrite slice_perm in Ha, Hb. apply (NoDup_name_inj items); try done.
    + by rewrite Hp.
    + unfold name_less in *. rewrite string_lt_le in *. by apply (anti_symm String.le).
  - by apply slice_sorted.
  - by apply slice_sorted.
  - by rewrite !slice_perm.
Qed.

(** ** An implementation of the sort, and a fleet *)

Definition no_later (less : EdgeDevice → EdgeDevice → bool) (a b : EdgeDevice) : Prop :=
  less b a = false.
Global Instance no_later_dec less a b : Decision (no_later less a b).
Proof. unfold no_later. apply _. Defined.

Definition merging : SliceSort := λ l less, merge_sort (no_later less) l.

Lemma merging_laws : SliceSortLaws merging.
Proof.
  split.
  - intros l less. apply merge_sort_Permutation.
  - intros l less Htr Htot. apply StronglySorted_merge_sort.
    + intros a b c. apply Htr.
    + intros a b. unfold no_later. destruct (less b a) eqn:Hba; [right|by left]. by apply Htot.
Qed.

Definition demo_member (name current desired : string) (conds : list Condition) : EdgeDevice :=
  mkEdgeDevice (mkObjectMeta name "default" name "1" 1 None [deviceFinalizer] ∅ None)
    (mkEdgeDeviceSpec desired "http://fw/v1.bin" "" "" ∅ false)
    (mkEdgeDeviceStatus PhaseReady conds current "A" (Some 0) 1).

Definition demo_fleet : list EdgeDevice :=
  [demo_member "edge-003" "v1" "v1" []; demo_member "edge-001" "v1" "v1" [];
   demo_member "edge-002" "v2" "v2" []].

Definition demo_rollout (threshold : Z) : FleetRollout :=
  mkFleetRollout (mkObjectMeta "campaign" "default" "ro-1" "1" 3 None [] ∅ None)
    (mkFleetRolloutSpec {[ "tier" := "edge" ]} "v2" "http://fw/v2.bin" "abc" 1 threshold)
    (mkFleetRolloutStatus "" 0 0 0 0 [] 0).

Lemma demo_range threshold items :
  1 ≤ threshold ≤ 100 → 100 * Z.of_nat (length items) < 2 ^ 31 → in_range (demo_rollout threshold) items.
Proof. by split. Qed.

Lemma demo_names : NoDup (name_of <$> demo_fleet).
Proof. apply (bool_decide_unpack _). vm_compute. exact I. Qed.

(** ** Properties *)

(** C27. The arithmetic of the status line.  For every fleet below two billion devices
    the 32-bit counters hold the sizes of the sets they stand for, the selected
    devices split into targeted and waiting ones and the targeted ones into
    succeeded, failed and under way; and below 21 474 836 devices the breaker trips
    exactly when something is targeted and the failed share reaches the threshold. *)
Theorem fleet_arithmetic `{HC : !ConditionHelpers} ro items :
  Z.of_nat (length items) < 2 ^ 31 →
  let t := count ro items in
  targeted t = num (reached ro) items + num (aimed ro) items ∧
  succeeded t = num (reached ro) items ∧ failed t = num (burned ro) items ∧
  inFlight t = num (underway ro) items ∧ untargeted t = filter (waiting ro) items ∧
  targeted t = succeeded t + failed t + inFlight t ∧
  targeted t + Z.of_nat (length (untargeted t)) = Z.of_nat (length items) ∧
  (1 ≤ FailureThresholdPercent (RSpec ro) ≤ 100 → Z.of_nat (length items) ≤ 21474836 →
   tripped ro t = true ↔
     0 < targeted t ∧ FailureThresholdPercent (RSpec ro) * targeted t ≤ 100 * failed t).
Proof.
  intros Hl t. assert (Ht : t = count ro items) by done. shares ro items.
  assert (inFlight t = num (underway ro) items) as Hf by by apply inFlight_spec.
  rewrite (count_spec ro items Hl) in Ht. rewrite Hf, Ht. cbn [targeted succeeded failed untargeted].
  split_and!; try done; try (unfold num in *; lia).
  intros Hthr Hsmall. rewrite <-Ht. unfold t. rewrite tripped_spec by (try done; lia).
  by rewrite bool_decide_eq_true.
Qed.

Lemma fleet_arithmetic_witness :
  let H1 := plain_conditions in
  let t := count (demo_rollout 50) demo_fleet in
  targeted t = 1 ∧ (tripped (demo_rollout 50) t = true ↔ 0 < targeted t ∧
    FailureThresholdPercent (RSpec (demo_rollout 50)) * targeted t ≤ 100 * failed t).
Proof.
  intros H1 t. split; [reflexivity|].
  destruct (fleet_arithmetic (demo_rollout 50) demo_fleet) as (_ & _ & _ & _ & _ & _ & _ & Ht).
  - reflexivity.
  - apply Ht; [split; discriminate|discriminate].
Defined.

Section passes.
Context {E : Type} `{HE : !ApiErrors E} `{HC : !ConditionHelpers, HCL : !ConditionLaws HC}.
Context `{HS : !SliceSort, HSL : !SliceSortLaws HS}.

(** The pass is given this rollout and this list; anything may become of its writes. *)
Definition listing (ro : FleetRollout) (items : list EdgeDevice) :
    Sem (rolS E) (list (event (rolS E))) :=
  λ o tr r tr', tr' = tr ++ [existT o r] ∧
    match o return rolres E o → Prop with
    | RGet _ _ => λ r, r = Ok ro
    | RList _ _ => λ r, r = Ok items
    | _ => λ _, True
    end r.

Lemma listing_traced ro items {A} (p : prog (rolS E) A) Q tr :
  wp (Sem0 := traced) p Q tr → wp (Sem0 := listing ro items) p Q tr.
Proof.
  revert tr. induction p as [a|o k IH]; intros tr [_ Hp]; (split; [done|]); [done|].
  intros r tr' [Htr _]. by apply IH, Hp.
Qed.

Lemma slice_range ro items : in_range ro items → in_range ro (Slice items name_less).
Proof. intros Hr. eapply in_range_length; [|done]. by rewrite slice_perm. Qed.

(** One pass, as far as its history of writes goes. *)
Lemma pass_follows ro items ns name :
  in_range ro items →
  wp (Sem0 := listing ro items) (Reconcile (E := E) ns name)
     (follows_plan ro (Slice items name_less)) [].
Proof.
  intros Hr. unfold Reconcile. split; [done|]. intros r1 tr1 [-> ->]. cbn [bind].
  split; [done|]. intros r2 tr2 [-> ->]. cbn [bind].
  apply listing_traced, advance_sends; [by apply slice_range|done].
Qed.

Lemma follows_prefix ro items r (tr : list (event (rolS E))) : follows_plan ro items r tr → sent tr `prefix_of` plan ro items.
Proof. by intros [(? & _)|[(-> & _)|(-> & _)]]. Qed.

Lemma sent_part ro items r (tr : list (event (rolS E))) ws :
  follows_plan ro (Slice items name_less) r tr → ws `sublist_of` sent tr →
  ws `sublist_of` plan ro (Slice items name_less).
Proof.
  intros Hf%follows_prefix Hws. etrans; [exact Hws|]. destruct Hf as [k ->]. apply sublist_inserts_r, reflexivity.
Qed.
End passes.

(** C5. A pass carries out the plan.  Given the rollout and its list in any order, and
    whatever becomes of its calls, the device updates a pass sends are a beginning of
    the plan for the list sorted by name - freeze everything once the rate is
    exceeded, else top the batch up from the waiting, unpaused devices - and all of
    it if the pass succeeds; a status is written only after the whole plan, at most
    once, with the content derived from the list alone; and a successful pass that
    writes none found that content stored. *)
Theorem pass_refines_plan {E : Type} `{HE : !ApiErrors E} `{HC : !ConditionHelpers, HCL : !ConditionLaws HC}
    `{HS : !SliceSort, HSL : !SliceSortLaws HS} ro items ns name :
  in_range ro items →
  let sorted := Slice items name_less in
  wp (Sem0 := listing (E := E) ro items) (Reconcile (E := E) ns name)
     (λ r tr, sent tr `prefix_of` plan ro sorted ∧
        (r.2 = None → sent tr = plan ro sorted) ∧
        (length (statuses tr) ≤ 1)%nat ∧
        (∀ ro', ro' ∈ statuses tr → sent tr = plan ro sorted ∧
           RMeta ro' = RMeta ro ∧ RSpec ro' = RSpec ro ∧ derived ro sorted (RStatus ro')) ∧
        (r.2 = None → statuses tr = [] → derived ro sorted (RStatus ro))) [].
Proof.
  intros Hr sorted. eapply wpi_mono; [by apply (pass_follows (E := E))|done|].
  intros r tr _ Hf. pose proof (follows_prefix _ _ _ _ Hf) as Hpre. split; [done|].
  destruct Hf as [(_ & Hn & He)|[(-> & Hn & He & Hd)|(-> & st & Hn & Hd)]]; rewrite Hn;
    (split; [done|]); (split; [simpl; lia|]); split; try done.
  - by intros ro' ?%not_elem_of_nil.
  - by intros ro' ?%not_elem_of_nil.
  - by intros ro' ->%list_elem_of_singleton.
Qed.

Lemma pass_refines_plan_witness :
  let H1 := plain_conditions in let H2 := merging in
  let ro := demo_rollout 50 in let sorted := Slice demo_fleet name_less in
  name_of <$> plan ro sorted = ["edge-001"] ∧
  wp (Sem0 := listing (E := api_error) ro demo_fleet) (Reconcile (E := api_error) "default" "campaign")
     (λ r tr, sent tr `prefix_of` plan ro sorted ∧
        (r.2 = None → sent tr = plan ro sorted) ∧
        (length (statuses tr) ≤ 1)%nat ∧
        (∀ ro', ro' ∈ statuses tr → sent tr = plan ro sorted ∧
           RMeta ro' = RMeta ro ∧ RSpec ro' = RSpec ro ∧ derived ro sorted (RStatus ro')) ∧
        (r.2 = None → statuses tr = [] → derived ro sorted (RStatus ro))) [].
Proof.
  intros H1 H2 ro sorted. split; [vm_compute; reflexivity|].
  apply (pass_refines_plan (HCL := plain_conditions_laws) (HSL := merging_laws)).
  apply demo_range; [split; discriminate|reflexivity].
Defined.

(** C13. The blast radius.  Whichever of the updates of a pass took effect - the
    last one may have although the call failed - the devices under way are then no
    more than [maxUnavailable], unless they were already; a paused device is as it
    was, and every other one either too, or frozen because the rate is exceeded, or
    retargeted because it was waiting. *)
Theorem blast_radius {E : Type} `{HE : !ApiErrors E} `{HC : !ConditionHelpers, HCL : !ConditionLaws HC}
    `{HS : !SliceSort, HSL : !SliceSortLaws HS} ro items ns name :
  in_range ro items → NoDup (name_of <$> items) →
  wp (Sem0 := listing (E := E) ro items) (Reconcile (E := E) ns name)
     (λ _ tr, ∀ ws, ws `sublist_of` sent tr →
        num (underway ro) (store_all ws <$> items)
          ≤ Z.max (num (underway ro) items) (MaxUnavailable (RSpec ro)) ∧
        ∀ d, d ∈ items → store_all ws d = d ∨
          unpaused d ∧ ((rate_exceeded ro items ∧ store_all ws d = set_paused d) ∨
                        (¬ rate_exceeded ro items ∧ waiting ro d ∧ store_all ws d = retarget ro d))) [].
Proof.
  intros Hr Hnd. eapply wpi_mono; [by apply (pass_follows (E := E))|done|].
  intros r tr _ Hf ws Hws. eapply sent_part in Hws; [|exact Hf].
  pose proof (slice_perm items name_less) as Hp.
  assert (NoDup (name_of <$> Slice items name_less)) as Hnd' by by rewrite Hp.
  assert (rate_exceeded ro (Slice items name_less) ↔ rate_exceeded ro items) as Hx
    by (unfold rate_exceeded; by rewrite !(num_perm _ (Slice items name_less) items)).
  split.
  - rewrite <-(num_perm _ (store_all ws <$> Slice items name_less)) by by rewrite Hp.
    rewrite <-(num_perm _ (Slice items name_less) items) by done. by apply plan_blast.
  - intros d Hd. destruct (after_part ro (Slice items name_less) ws d) as [[? _]|(Hs & _ & Hc)];
      [done|done|by rewrite Hp|by left|]. right. rewrite Hs.
    unfold chosen, lever in *. destruct (decide (rate_exceeded ro (Slice items name_less))) as [Hy|Hy].
    + apply list_elem_of_filter in Hc as [Hu _]. split; [done|]. left. by rewrite <-Hx.
    + case_decide; [by apply not_elem_of_nil in Hc|]. apply next_batch_in in Hc as (_ & Hw & Hu).
      split; [done|]. right. by rewrite <-Hx.
Qed.

Lemma blast_radius_witness :
  let H1 := plain_conditions in let H2 := merging in
  let ro := demo_rollout 50 in
  wp (Sem0 := listing (E := api_error) ro demo_fleet) (Reconcile (E := api_error) "default" "campaign")
     (λ _ tr, ∀ ws, ws `sublist_of` sent tr →
        num (underway ro) (store_all ws <$> demo_fleet)
          ≤ Z.max (num (underway ro) demo_fleet) (MaxUnavailable (RSpec ro)) ∧
        ∀ d, d ∈ demo_fleet → store_all ws d = d ∨
          unpaused d ∧ ((rate_exceeded ro demo_fleet ∧ store_all ws d = set_paused d) ∨
                        (¬ rate_exceeded ro demo_fleet ∧ waiting ro d ∧
                         store_all ws d = retarget ro d))) [].
Proof.
  intros H1 H2 ro. apply (blast_radius (HCL := plain_conditions_laws) (HSL := merging_laws)).
  - apply demo_range; [split; discriminate|reflexivity].
  - apply demo_names.
Defined.

(** The status in force after a pass: the last one written, or the one it found. *)
Definition final_status {E} (ro : FleetRollout) (tr : list (event (rolS E))) : FleetRolloutStatus :=
  default (RStatus ro) (RStatus <$> head (reverse (statuses tr))).

Lemma follows_final {E} `{!ConditionHelpers} ro items r (tr : list (event (rolS E))) :
  follows_plan ro items r tr → r.2 = None →
  sent tr = plan ro items ∧ derived ro items (final_status ro tr).
Proof.
  unfold final_status. intros [(_ & _ & He)|[(-> & Hn & _ & Hd)|(-> & st & Hn & Hd)]] Hr; [done|..];
    by rewrite Hn.
Qed.

(** C18. A tripped breaker freezes the fleet.  When the failed share of the targeted
    devices has reached the threshold, a pass retargets nothing: every update it
    sends pauses one selected device that was not paused; and when it succeeds all
    selected devices are paused, otherwise unchanged, and the status says Paused
    with the breaker condition true. *)
Theorem breaker_freezes {E : Type} `{HE : !ApiErrors E} `{HC : !ConditionHelpers, HCL : !ConditionLaws HC}
    `{HS : !SliceSort, HSL : !SliceSortLaws HS} ro items ns name :
  in_range ro items → NoDup (name_of <$> items) → rate_exceeded ro items →
  wp (Sem0 := listing (E := E) ro items) (Reconcile (E := E) ns name)
     (λ r tr,
        (∀ w, w ∈ sent tr → ∃ d, d ∈ items ∧ unpaused d ∧ w = set_paused d) ∧
        (r.2 = None →
           (∀ d, d ∈ items → store_all (sent tr) d = set_paused d) ∧
           RPhase (final_status ro tr) = RolloutPausedPhase ∧
           ∃ c, FindStatusCondition (RConditions (final_status ro tr)) ConditionBreakerTripped = Some c ∧
                Status' c = ConditionTrue)) [].
Proof.
  intros Hr Hnd Hx. eapply wpi_mono; [by apply (pass_follows (E := E))|done|]. intros r tr _ Hf.
  set (sorted := Slice items name_less) in *. assert (sorted ≡ₚ items) as Hp by apply slice_perm.
  assert (rate_exceeded ro sorted) as Hxs by (unfold rate_exceeded in *; by rewrite !(num_perm _ sorted items)).
  assert (plan ro sorted = set_paused <$> filter unpaused sorted) as Hplan
    by (unfold plan; by rewrite decide_True).
  split.
  - intros w Hw. apply follows_prefix in Hf as [k Hk]. rewrite Hplan in Hk.
    assert (w ∈ set_paused <$> filter unpaused sorted) as Hin by (rewrite Hk; apply elem_of_app; by left).
    apply list_elem_of_fmap in Hin as (d & -> & [Hu Hd]%list_elem_of_filter). rewrite Hp in Hd. by exists d.
  - intros Hn. destruct (follows_final _ _ _ _ Hf Hn) as [Hs (Hph & _ & _ & _ & _ & _ & Hc)]. split; [|split].
    + intros d Hd. rewrite <-Hp in Hd, Hnd. rewrite Hs.
      destruct (after_part ro sorted (plan ro sorted) d) as [[-> Hout]|(-> & _ & _)]; [done..| |].
      * unfold lever in Hout. rewrite decide_True in Hout by done.
        destruct (decide (unpaused d)) as [Hu|Hu%not_false_is_true].
        { exfalso. apply Hout. rewrite Hplan. by apply list_elem_of_fmap_2, list_elem_of_filter. }
        destruct d as [m [] st]; cbn in Hu. by rewrite Hu.
      * unfold lever. by rewrite decide_True.
    + rewrite Hph. unfold phase_of. by rewrite decide_True.
    + destruct Hc as (c & ? & Hc). exists c. split; [done|]. by rewrite decide_True in Hc.
Qed.

(** A device whose upgrade to v2 failed joins the fleet. *)
Definition failing_fleet : list EdgeDevice :=
  demo_member "edge-004" "v1" "v2"
    [mkCondition ConditionFirmwareSynced ConditionFalse 1 0 "ChecksumMismatch" ""] :: demo_fleet.

Lemma breaker_freezes_witness :
  let H1 := plain_conditions in let H2 := merging in
  let ro := demo_rollout 50 in
  wp (Sem0 := listing (E := api_error) ro failing_fleet) (Reconcile (E := api_error) "default" "campaign")
     (λ r tr,
        (∀ w, w ∈ sent tr → ∃ d, d ∈ failing_fleet ∧ unpaused d ∧ w = set_paused d) ∧
        (r.2 = None →
           (∀ d, d ∈ failing_fleet → store_all (sent tr) d = set_paused d) ∧
           RPhase (final_status ro tr) = RolloutPausedPhase ∧
           ∃ c, FindStatusCondition (RConditions (final_status ro tr)) ConditionBreakerTripped = Some c ∧
                Status' c = ConditionTrue)) [].
Proof.
  intros H1 H2 ro. apply (breaker_freezes (HCL := plain_conditions_laws) (HSL := merging_laws)).
  - apply demo_range; [split; discriminate|reflexivity].
  - apply (bool_decide_unpack _). vm_compute. exact I.
  - apply (bool_decide_unpack _). vm_compute. exact I.
Defined.

(** Two statuses that tell the same, whenever they were written. *)
Definition tells_the_same `{!ConditionHelpers} (a b : FleetRolloutStatus) : Prop :=
  RPhase a = RPhase b ∧ Selected a = Selected b ∧ Targeted a = Targeted b ∧
  Succeeded a = Succeeded b ∧ Failed a = Failed b ∧ RObservedGeneration a = RObservedGeneration b ∧
  ∃ ca cb, FindStatusCondition (RConditions a) ConditionBreakerTripped = Some ca ∧
           FindStatusCondition (RConditions b) ConditionBreakerTripped = Some cb ∧ Status' ca = Status' cb.

Lemma derived_same `{!ConditionHelpers} ro items a b :
  derived ro items a → derived ro items b → tells_the_same a b.
Proof.
  intros (H1 & H2 & H3 & H4 & H5 & H6 & ca & ? & Hca) (K1 & K2 & K3 & K4 & K5 & K6 & cb & ? & Hcb).
  split_and!; try congruence. exists ca, cb. split_and!; congruence.
Qed.

(** The status records that the breaker tripped. *)
Definition records_trip `{!ConditionHelpers} (st : FleetRolloutStatus) : Prop :=
  RPhase st = RolloutPausedPhase ∨
  ∃ c, FindStatusCondition (RConditions st) ConditionBreakerTripped = Some c ∧ Status' c = ConditionTrue.

(** C26. No hidden campaign state while the breaker is closed.  The order in which the
    list arrives, and the counters, the phase and the conditions an earlier pass (or a
    lost one, or nobody) left on the rollout, as long as they do not record a tripped
    breaker, are of no consequence: two successful passes over the same devices send
    the same updates in the same order and leave statuses that tell the same (the
    comment on [FleetRolloutStatus]: wipe it and one reconcile rebuilds it).  A recorded
    trip is excluded, though the proof does not need it: the README and the comment on
    the phase [Paused] want it remembered until a human resumes.  That the code forgets
    it is the finding [breaker_resets_itself]. *)
Theorem history_and_order_irrelevant {E : Type} `{HE : !ApiErrors E}
    `{HC : !ConditionHelpers, HCL : !ConditionLaws HC} `{HS : !SliceSort, HSL : !SliceSortLaws HS}
    meta spec st st' items items' ns name r r' tr tr' :
  let ro := mkFleetRollout meta spec st in let ro' := mkFleetRollout meta spec st' in
  ¬ records_trip st → ¬ records_trip st' →
  in_range ro items → NoDup (name_of <$> items) → items ≡ₚ items' →
  rtc (pstep (Sem0 := listing (E := E) ro items)) (Reconcile (E := E) ns name, []) (Ret r, tr) →
  rtc (pstep (Sem0 := listing (E := E) ro' items')) (Reconcile (E := E) ns name, []) (Ret r', tr') →
  r.2 = None → r'.2 = None →
  sent tr = sent tr' ∧ tells_the_same (final_status ro tr) (final_status ro' tr').
Proof.
  intros ro ro' _ _ Hr Hnd Hp Hrun Hrun' Hn Hn'.
  assert (in_range ro' items') as Hr' by (destruct Hr as [? ? ?]; split; [done|done|by rewrite <-Hp]).
  pose proof (wpi_result (Sem0 := listing ro items) _ _ _ _ _ _ (pass_follows (E := E) ro items ns name Hr) Hrun) as Hf.
  pose proof (wpi_result (Sem0 := listing ro' items') _ _ _ _ _ _ (pass_follows (E := E) ro' items' ns name Hr') Hrun') as Hf'.
  destruct (follows_final _ _ _ _ Hf Hn) as [-> Hd], (follows_final _ _ _ _ Hf' Hn') as [-> Hd'].
  rewrite <-(slice_order items items') in * by done. split; [done|]. by eapply derived_same.
Qed.

(** Every call succeeds and is recorded. *)
Definition recorded (ro : FleetRollout) (items : list EdgeDevice) (o : act (rolS api_error))
    (tr : list (event (rolS api_error))) : option (res o * list (event (rolS api_error))) :=
  let answer : rolres api_error o :=
    match o with
    | RGet _ _ => Ok ro
    | RList _ _ => Ok items
    | RListRollouts _ => Ok []
    | RUpdate _ | RStatusUpdate _ => None
    | RNow => 5
    end in
  Some (answer, tr ++ [existT o answer]).

Lemma recorded_handles ro items : handles (Sem0 := listing ro items) (recorded ro items).
Proof. intros o tr r tr' Ho. injection Ho as <- <-. split; [done|]. by destruct o. Qed.

Definition recorded_pass `{!ConditionHelpers, !SliceSort} ro items :=
  run (recorded ro items) (Reconcile (E := api_error) "default" "campaign") [].

Lemma history_and_order_irrelevant_witness :
  let H1 := plain_conditions in let H2 := merging in
  let ro := demo_rollout 50 in
  let ro' := mkFleetRollout (RMeta ro) (RSpec ro) (mkFleetRolloutStatus RolloutComplete 9 9 9 9 [] 1) in
  ∃ r r' tr tr', recorded_pass ro demo_fleet = Some (r, tr) ∧
    recorded_pass ro' (reverse demo_fleet) = Some (r', tr') ∧
    sent tr = sent tr' ∧ tells_the_same (final_status ro tr) (final_status ro' tr').
Proof.
  intros H1 H2 ro ro'.
  eassert (recorded_pass ro demo_fleet = Some (_, _)) as Hrun by reflexivity.
  eassert (recorded_pass ro' (reverse demo_fleet) = Some (_, _)) as Hrun' by reflexivity.
  do 4 eexists. split; [exact Hrun|]. split; [exact Hrun'|].
  apply (history_and_order_irrelevant (HCL := plain_conditions_laws) (HSL := merging_laws)
    (RMeta ro) (RSpec ro) (RStatus ro) (RStatus ro') demo_fleet (reverse demo_fleet) "default" "campaign" _ _ _ _
    ltac:(by intros [[=]|(? & [=] & _)]) ltac:(by intros [[=]|(? & [=] & _)])
    (demo_range 50 demo_fleet ltac:(lia) eq_refl) demo_names (symmetry (reverse_Permutation demo_fleet))
    (run_steps _ _ _ _ _ (recorded_handles ro demo_fleet) Hrun)
    (run_steps _ _ _ _ _ (recorded_handles ro' (reverse demo_fleet)) Hrun') eq_refl eq_refl).
Defined.

(** C16. A campaign comes to its end.  If nothing is paused or failed and the agents
    carry out what they are told, the program's passes - every call succeeding, one
    agents' answer between two of them - bring all devices to the target, in a
    number of rounds given by the batch size: one for the devices already under way
    and one for each [maxUnavailable] devices waiting; one pass more changes nothing. *)
Theorem campaign_terminates {E : Type} `{HE : !ApiErrors E} `{HC : !ConditionHelpers, HCL : !ConditionLaws HC}
    `{HS : !SliceSort, HSL : !SliceSortLaws HS} ro respond ns name n s :
  cooperative ro respond → clear_road ro s →
  num (waiting ro) s ≤ Z.of_nat n * MaxUnavailable (RSpec ro) →
  ∃ s', campaign (E := E) ro respond ns name (Datatypes.S n) s = Some s' ∧
    (∀ d, d ∈ s' → reached ro d) ∧
    ∃ rq, run (willing_run ro) (Reconcile (E := E) ns name) s' = Some ((rq, None), s').
Proof.
  intros Hco Hs Hn. cbn [campaign]. destruct (pass_runs (E := E) ro ns name s) as [rq ->]; [apply Hs|].
  destruct (round_progress ro respond (Slice s name_less) s) as (Hs1 & Hu1 & Hw1);
    [done|apply slice_perm|done|].
  destruct (campaign_arrives (E := E) ro respond ns name n _ Hco Hs1 Hu1) as (s' & Hc & Hs' & Hu' & Hw').
  exists s'. split; [done|]. rewrite Hw1 in Hw'.
  assert (∀ d, d ∈ s' → reached ro d) as Hall.
  { apply (all_reached ro s' Hs' Hu'). rewrite Hw'.
    pose proof (num_bounds (waiting ro) s). destruct Hs as [_ _ [_ Hmax _]]. lia. }
  split; [done|]. destruct (pass_runs (E := E) ro ns name s') as [rq' Hrun]; [apply Hs'|].
  exists rq'. rewrite Hrun. do 2 f_equal.
  transitivity (id <$> s'); [|apply list_fmap_id]. apply list_fmap_ext. intros i d Hd%list_elem_of_lookup_2.
  destruct (after_part ro (Slice s' name_less) (plan ro (Slice s' name_less)) d) as [[-> _]|(_ & _ & Hin)];
    [by rewrite slice_perm; apply Hs'|done|by rewrite slice_perm|done|].
  assert (clear_road ro (Slice s' name_less)) as Hroad by by eapply clear_road_perm; [apply slice_perm|].
  destruct (road_chosen _ _ Hroad) as [Hch _]. rewrite Hch in Hin.
  apply next_batch_in in Hin as (_ & [Hw _] & _). by destruct Hw; apply Hall.
Qed.

(** An agent that does what it is told. *)
Definition obedient `{!ConditionHelpers} (ro : FleetRollout) (d : EdgeDevice) : EdgeDevice :=
  if decide (underway ro d) then
    let st := Status d in
    with_status d (mkEdgeDeviceStatus (Phase st) (Conditions st) (TargetVersion (RSpec ro))
      (ActiveSlot st) (LastHeartbeat st) (ObservedGeneration st))
  else d.

Lemma obedient_cooperates `{!ConditionHelpers} ro : cooperative ro (obedient ro).
Proof.
  unfold obedient. split; intros d; [by case_decide|intros Hd; by rewrite decide_True
    |intros Hd; by rewrite decide_False|by case_decide].
Qed.

Lemma campaign_terminates_witness :
  let H1 := plain_conditions in let H2 := merging in
  let ro := demo_rollout 50 in
  ∃ s', campaign (E := api_error) ro (obedient ro) "default" "campaign" 3 demo_fleet = Some s' ∧
    (∀ d, d ∈ s' → reached ro d) ∧
    ∃ rq, run (willing_run ro) (Reconcile (E := api_error) "default" "campaign") s' = Some ((rq, None), s').
Proof.
  intros H1 H2 ro. apply (campaign_terminates (HCL := plain_conditions_laws) (HSL := merging_laws)
    ro (obedient ro) "default" "campaign" 2 demo_fleet).
  - apply obedient_cooperates.
  - split; [apply demo_names|apply (proj1 (list.Forall_forall _ _)); by repeat constructor|].
    apply demo_range; [split; discriminate|reflexivity].
  - vm_compute. discriminate.
Defined.

(** ** Where the code falls short of its comments *)

Lemma num_repeat P `{!∀ d, Decision (P d)} k d :
  num P (repeat d k) = if decide (P d) then Z.of_nat k else 0.
Proof.
  induction k as [|k IH]; [by case_decide|]. cbn [repeat]. rewrite num_cons, IH. case_decide; lia.
Qed.

(** Finding. Past 21 474 836 failed devices [failed*100] leaves 32 bits: every targeted device
    has failed and the breaker stays closed. *)
Theorem breaker_wraps `{HC : !ConditionHelpers} ro d k :
  FailureThresholdPercent (RSpec ro) = 50 → burned ro d → Z.of_nat k = 21474837 →
  rate_exceeded ro (repeat d k) ∧ tripped ro (count ro (repeat d k)) = false.
Proof.
  intros Hthr Hb Hk.
  assert (num (burned ro) (repeat d k) = 21474837 ∧ num (aimed ro) (repeat d k) = 21474837 ∧
    num (reached ro) (repeat d k) = 0) as (H1 & H2 & H3).
  { rewrite !num_repeat, Hk. destruct Hb as [Ha Hf]. rewrite (decide_True (P := burned ro d)) by done.
    rewrite decide_True by done. rewrite decide_False by apply Ha. done. }
  split.
  - unfold rate_exceeded. rewrite H1, H2, H3, Hthr. lia.
  - rewrite count_spec by (rewrite repeat_length; lia). unfold tripped. cbn [targeted failed].
    by rewrite H1, H2, H3, Hthr.
Qed.

(** Finding. A waiting device whose last upgrade, to some other version, failed: the pass that
    targets it is followed by one that counts the old failure against the new
    target, trips the breaker and freezes the fleet. *)
Theorem stale_failure_trips `{HC : !ConditionHelpers} ro d :
  in_range ro [d] → waiting ro d → unpaused d → deviceFailed d = true →
  plan ro [d] = [retarget ro d] ∧ plan ro [retarget ro d] = [set_paused (retarget ro d)].
Proof.
  intros [Hthr Hmax _] Hw Hu Hf. pose proof (classes ro d) as Hc.
  assert (burned ro (retarget ro d)) as Hb by (split; [|done]; destruct Hw; by split).
  pose proof (classes ro (retarget ro d)) as Hc'. unfold plan.
  assert (¬ rate_exceeded ro [d]) as Hx.
  { intros [Hpos _]. revert Hpos. rewrite !num_cons, !num_nil. repeat case_decide; try tauto; lia. }
  assert (rate_exceeded ro [retarget ro d]) as Hx'.
  { unfold rate_exceeded. rewrite !num_cons, !num_nil. repeat case_decide; try tauto; lia. }
  assert (¬ complete ro [d]) as Hn.
  { unfold complete. rewrite num_cons, num_nil. case_decide; [tauto|]. intros [_ Hl]. simpl in Hl. lia. }
  rewrite decide_False, decide_False, decide_True by done. split.
  - unfold next_batch, slots. rewrite num_cons, num_nil, (decide_False (P := underway ro d)) by tauto.
    rewrite filter_cons, decide_True by done. rewrite filter_nil, filter_cons, decide_True by done.
    rewrite filter_nil. destruct (Z.to_nat _) eqn:Hz; [lia|]. cbn [take]. by rewrite take_nil.
  - by rewrite filter_cons, decide_True.
Qed.

(** Finding. The breaker trips and freezes both devices; the failed one recovers and a new
    device joins.  Nobody unpaused anything, yet the next pass says Progressing and
    pushes the firmware to the newcomer. *)
Theorem breaker_resets_itself :
  let H1 := plain_conditions in let H2 := merging in
  let ro := demo_rollout 50 in
  let dark := with_status (demo_member "edge-001" "v1" "v2" [])
    (mkEdgeDeviceStatus PhaseDegraded [] "v1" "A" (Some 0) 1) in
  let fleet := [dark; demo_member "edge-002" "v1" "v1" []] in
  let frozen := [set_paused (demo_member "edge-001" "v2" "v2" []);
                 set_paused (demo_member "edge-002" "v1" "v1" [])] in
  let newcomer := demo_member "edge-003" "v1" "v1" [] in
  (tripped ro (count ro fleet), plan ro (Slice fleet name_less)) =
    (true, [set_paused dark; set_paused (demo_member "edge-002" "v1" "v1" [])]) ∧
  (phase_of ro (Slice (frozen ++ [newcomer]) name_less), plan ro (Slice (frozen ++ [newcomer]) name_less)) =
    (RolloutProgressing, [retarget ro newcomer]).
Proof. intros H1 H2. split; reflexivity. Qed.

(** Finding. The devices of a rollout: exact labels, but an absent label also matches an empty
    value, which the list of the pass itself does not select. *)
Theorem rolloutsForDevice_selects labels ro :
  selects labels ro = true ↔
  Selector (RSpec ro) ≠ ∅ ∧ ∀ k v, Selector (RSpec ro) !! k = Some v → default "" (labels !! k) = v.
Proof.
  unfold selects. rewrite andb_true_iff, Z.ltb_lt, forallb_forall. split; intros [Hs Hl]; split.
  - intros Hn. rewrite Hn, map_size_empty in Hs. lia.
  - intros k v Hk%elem_of_map_to_list. apply list_elem_of_In, Hl in Hk. by apply bool_decide_eq_true in Hk.
  - apply map_size_non_empty_iff in Hs. lia.
  - intros [k v] Hk%list_elem_of_In%elem_of_map_to_list. apply bool_decide_eq_true. by apply Hl.
Qed.
