(* ===== verification/Replicas.v ===== *)
(** * Several replicas and lagging caches

    The rollout reconciler as it runs in a cluster: several passes at a time, of
    several replicas, each listing devices from a cache that may be arbitrarily far
    behind, device by device; agents and other clients write in between; any call
    fails, with or without its effect.  What keeps the blast radius is the order of
    the batch together with the version check of the API server. *)

From S2P Require Import Prelude GoLib Sha256 ApiTypes DeviceController DeviceLife RolloutController RolloutSpec RolloutPlan RolloutFleet Rollout.
Open Scope Z_scope.

(** The selected devices the server stores, by name, and every revision it ever
    stored. *)
Record fleet := mkFleet {
    stored : gmap string EdgeDevice;
    past : list EdgeDevice;
  }.

Definition put (w : fleet) (d : EdgeDevice) : fleet :=
  mkFleet (<[name_of d := d]> (stored w)) (d :: past w).
Definition remove (w : fleet) (n : string) : fleet := mkFleet (delete n (stored w)) (past w).

Lemma stored_put w d' n e :
  stored (put w d') !! n = Some e ↔
  (name_of d' = n ∧ d' = e) ∨ (name_of d' ≠ n ∧ stored w !! n = Some e).
Proof. apply lookup_insert_Some. Qed.

Lemma stored_remove w m n e :
  stored (remove w m) !! n = Some e ↔ m ≠ n ∧ stored w !! n = Some e.
Proof. apply lookup_delete_Some. Qed.

(** A version no revision of the device has had. *)
Definition fresh (w : fleet) (d : EdgeDevice) : Prop :=
  ∀ v, v ∈ past w → name_of v = name_of d →
       ResourceVersion (Meta v) ≠ ResourceVersion (Meta d).

Section replicas.
Context {E : Type} `{HE : !ApiErrors E} `{HC : !ConditionHelpers, HCL : !ConditionLaws HC}.
Context `{HS : !SliceSort, HSL : !SliceSortLaws HS} (ro : FleetRollout).

(** The device was told to run the target. *)
Definition told (d : EdgeDevice) : Prop :=
  DesiredFirmwareVersion (Spec d) = TargetVersion (RSpec ro).
(** A pass that sees it like this may push to it. *)
Definition candidate (d : EdgeDevice) : Prop := waiting ro d ∧ unpaused d.
(** Told, and neither done nor failed since. *)
Definition in_flight (w : fleet) (d : EdgeDevice) : Prop :=
  underway ro d ∧ ∀ v, v ∈ past w → name_of v = name_of d → told v → underway ro v.

Global Instance told_dec d : Decision (told d).
Proof. unfold told. apply _. Defined.
Global Instance candidate_dec d : Decision (candidate d).
Proof. unfold candidate. apply _. Defined.
Global Instance in_flight_dec w d : Decision (in_flight w d).
Proof.
  refine (cast_if (decide (underway ro d ∧
    Forall (λ v, name_of v = name_of d → told v → underway ro v) (past w))));
    abstract (unfold in_flight; rewrite list.Forall_forall in *; naive_solver).
Defined.

Definition flying (w : fleet) : gset string :=
  dom (filter (λ nd, in_flight w nd.2) (stored w)).

(** ** The cluster *)

(** The other writers - agents, the device reconciler, people: they report, relabel,
    pause and delete, but leave the desired version alone and make no device a
    candidate that was none. *)
Inductive others : fleet → fleet → Prop :=
  | writes w d d' :
    stored w !! name_of d' = Some d → fresh w d' →
    DesiredFirmwareVersion (Spec d') = DesiredFirmwareVersion (Spec d) →
    (candidate d' → candidate d) →
    others w (put w d')
  | leaves w n : others w (remove w n).

(** What a cache may list: of each stored device some revision, and perhaps some of
    devices that are gone. *)
Record view (w : fleet) (items : list EdgeDevice) : Prop := {
    view_names : NoDup (name_of <$> items);
    view_past : ∀ d, d ∈ items → d ∈ past w;
    view_all : ∀ n d, stored w !! n = Some d → n ∈ name_of <$> items;
  }.

(** An update that carries the version of [d]: the spec is replaced, the status kept. *)
Definition updated (w : fleet) (d : EdgeDevice) (w' : fleet) : Prop :=
  ∃ d0 d', stored w !! name_of d = Some d0 ∧
    ResourceVersion (Meta d) = ResourceVersion (Meta d0) ∧
    name_of d' = name_of d ∧ fresh w d' ∧ Spec d' = Spec d ∧ Status d' = Status d0 ∧
    w' = put w d'.

(** One call.  The rollout may be any revision of the object with this spec. *)
Definition answers (o : rolop) (w : fleet) : rolres E o → fleet → Prop :=
  match o return rolres E o → fleet → Prop with
  | RGet _ _ => λ r w', (w' = w) ∧ ∀ ro', r = Ok ro' → RSpec ro' = RSpec ro
  | RList _ _ => λ r w', (w' = w) ∧ ∀ items, r = Ok items → view w items
  | RUpdate d => λ r w', attempt (updated w d) w r w'
  | RStatusUpdate _ | RListRollouts _ | RNow => λ _ w', w' = w
  end.
Local Instance fsem : Sem (rolS E) fleet := answers.

Definition a_pass (ns name : string) (p : prog (rolS E) (Result * option E)) : Prop :=
  p = Reconcile ns name.

(** ** What every step keeps *)

(** The steps a pass takes part in: those of the others, and pushing to a candidate
    that comes before all other candidates while there is room. *)
Inductive moves : fleet → fleet → Prop :=
  | stays w : moves w w
  | elsewhere w w' : others w w' → moves w w'
  | pushes w d d' :
    stored w !! name_of d' = Some d → fresh w d' → candidate d → told d' →
    (∀ n e, stored w !! n = Some e → candidate e →
       n = name_of d' ∨ string_lt (name_of d') n = true) →
    Z.of_nat (size (flying w)) < MaxUnavailable (RSpec ro) →
    moves w (put w d').

Record kept (all : gset string) (w : fleet) : Prop := {
    kept_stored : ∀ n d, stored w !! n = Some d → name_of d = n ∧ d ∈ past w;
    kept_names : ∀ v, v ∈ past w → name_of v ∈ all;
    kept_version : ∀ v d, v ∈ past w → stored w !! name_of v = Some d →
      ResourceVersion (Meta v) = ResourceVersion (Meta d) → v = d;
    kept_told : ∀ v d, v ∈ past w → stored w !! name_of v = Some d → told v → told d;
    kept_candidate : ∀ v d, v ∈ past w → stored w !! name_of v = Some d →
      candidate d → candidate v;
    kept_order : ∀ v d, v ∈ past w → stored w !! name_of v = Some d →
      ¬ told v → told d → candidate v ∧
        ∀ n e, stored w !! n = Some e → candidate e → string_lt (name_of v) n = true;
    kept_room : Z.of_nat (size (flying w)) ≤ MaxUnavailable (RSpec ro);
  }.

Lemma candidate_told d : candidate d → ¬ told d.
Proof. by intros [[_ ?] _]. Qed.
Lemma underway_told d : underway ro d → told d.
Proof. by intros [[_ ?] _]. Qed.

Lemma elem_of_flying w n : n ∈ flying w ↔ ∃ d, stored w !! n = Some d ∧ in_flight w d.
Proof.
  unfold flying. rewrite elem_of_dom. split.
  - intros [d [Hd Hf]%map_lookup_filter_Some]. by exists d.
  - intros (d & Hd & Hf). exists d. by apply map_lookup_filter_Some.
Qed.

(** Later revisions can only end a flight. *)
Lemma in_flight_put w d' d : in_flight (put w d') d → in_flight w d.
Proof. intros [Hu Hv]. split; [done|]. intros v Hp. apply Hv. by right. Qed.

Lemma flying_put w d' : flying (put w d') ⊆ {[ name_of d' ]} ∪ flying w.
Proof.
  intros n (d & Hd & Hf)%elem_of_flying. rewrite elem_of_union, elem_of_singleton.
  destruct (decide (name_of d' = n)) as [->|Hn]; [by left|]. right. apply elem_of_flying.
  exists d. apply stored_put in Hd as [[??]|[_ Hd]]; [done|]. eauto using in_flight_put.
Qed.

Lemma flying_put_told w d d' :
  stored w !! name_of d' = Some d → name_of d = name_of d' → d ∈ past w →
  (told d' → told d) → flying (put w d') ⊆ flying w.
Proof.
  intros Hd Hn Hp Ht n (e & He & Hf)%elem_of_flying. apply elem_of_flying.
  destruct (decide (name_of d' = n)) as [<-|Hne].
  - exists d. split; [done|]. apply stored_put in He as [[_ <-]|[? _]]; [|done].
    destruct Hf as [Hu Hf]. pose proof (Ht (underway_told _ Hu)) as Htd. split.
    + apply Hf; [by right|done|done].
    + intros v Hv Hnv. apply Hf; [by right|by rewrite Hnv].
  - exists e. apply stored_put in He as [[??]|[_ He]]; [done|]. eauto using in_flight_put.
Qed.

Lemma flying_remove w n : flying (remove w n) ⊆ flying w.
Proof.
  intros m (d & Hd & Hf)%elem_of_flying. apply elem_of_flying.
  apply stored_remove in Hd as [_ Hd]. by exists d.
Qed.

Lemma size_flying w w' : flying w' ⊆ flying w → Z.of_nat (size (flying w')) ≤ Z.of_nat (size (flying w)).
Proof. intros H%subseteq_size. lia. Qed.

Lemma kept_put all w d d' :
  kept all w → stored w !! name_of d' = Some d → fresh w d' →
  (told d → told d') → (candidate d' → candidate d) →
  (¬ told d → told d' → candidate d ∧
     ∀ n e, stored w !! n = Some e → candidate e → n = name_of d' ∨ string_lt (name_of d') n = true) →
  Z.of_nat (size (flying (put w d'))) ≤ MaxUnavailable (RSpec ro) →
  kept all (put w d').
Proof.
  intros [Hs Ha Hv Ht Hc Ho _] Hd Hf Htt Hcc Hpush Hroom.
  destruct (Hs _ _ Hd) as [Hnd Hpd].
  assert (Hcases : ∀ v e, v ∈ past (put w d') → stored (put w d') !! name_of v = Some e →
    (v = d' ∧ e = d') ∨ (v ∈ past w ∧ name_of v = name_of d' ∧ e = d') ∨
    (v ∈ past w ∧ name_of v ≠ name_of d' ∧ stored w !! name_of v = Some e)).
  { intros v e [->|Hp]%elem_of_cons [[Hn <-]|[Hn He]]%stored_put; [by left|done|..]; right;
      [left|right]; by split_and!. }
  split; [| | | | | |done].
  - intros n e [[<- <-]|[Hn He]]%stored_put; [split; [done|by left]|].
    destruct (Hs _ _ He). split; [done|by right].
  - cbn. intros v [->|Hp]%elem_of_cons; [|by apply Ha]. rewrite <-Hnd. by apply Ha.
  - intros v e Hp He Hrv. destruct (Hcases v e Hp He) as [[-> ->]|[(Hp' & Hn & ->)|(Hp' & Hn & He')]];
      [done|by apply Hf in Hrv|by apply Hv].
  - intros v e Hp He Hte. destruct (Hcases v e Hp He) as [[-> ->]|[(Hp' & Hn & ->)|(Hp' & Hn & He')]];
      [done| |by eapply Ht].
    apply Htt, (Ht v d); [done|by rewrite Hn|done].
  - intros v e Hp He Hce. destruct (Hcases v e Hp He) as [[-> ->]|[(Hp' & Hn & ->)|(Hp' & Hn & He')]];
      [done| |by eapply Hc].
    apply (Hc v d); [done|by rewrite Hn|by apply Hcc].
  - assert (Hlater : ∀ x n e, stored (put w d') !! n = Some e → candidate e →
      (∀ n e, stored w !! n = Some e → candidate e → string_lt x n = true) → string_lt x n = true).
    { intros x n e [[<- <-]|[Hn He]]%stored_put Hce Hx; eauto. }
    intros v e Hp He Hnt Hte.
    destruct (Hcases v e Hp He) as [[-> ->]|[(Hp' & Hn & ->)|(Hp' & Hn & He')]]; [done| |].
    + destruct (decide (told d)) as [Htd|Htd].
      * destruct (Ho v d) as [? Hlt]; [done|by rewrite Hn|done..|]. eauto.
      * destruct (Hpush Htd Hte) as [Hcd Hfirst]. split; [apply (Hc v d); [done|by rewrite Hn|done]|].
        rewrite Hn. intros n e [[<- <-]|[Hne He']]%stored_put Hce; [by apply candidate_told in Hce|].
        destruct (Hfirst n e He' Hce) as [->|?]; [done|done].
    + destruct (Ho v e) as [? Hlt]; [done..|]. eauto.
Qed.

Lemma kept_moves all w w' : kept all w → moves w w' → kept all w'.
Proof.
  intros Hw Hm. revert Hw.
  destruct Hm as [w1|w1 w2 Ho|w1 d d' Hd Hf Hc Ht Hfirst Hroom]; intros Hw; [done| |].
  - pose proof Hw as [Hs _ _ _ _ _ Hroom]. destruct Ho as [w1 d d' Hd Hf Hv Hcc|w1 n]; cbn.
    + destruct (Hs _ _ Hd) as [Hn Hp]. assert (told d' ↔ told d) as Ht by (unfold told; by rewrite Hv).
      apply (kept_put all w1 d); [done..|tauto|done|tauto|].
      pose proof (flying_put_told w1 d d' Hd Hn Hp (proj1 Ht)) as Hfl%size_flying. lia.
    + destruct Hw as [_ Ha Hv Ht Hc Ho _]. split; [|done|..].
      * intros m d [_ Hd]%stored_remove. auto.
      * intros v d Hp [_ Hd]%stored_remove. auto.
      * intros v d Hp [_ Hd]%stored_remove. eauto.
      * intros v d Hp [_ Hd]%stored_remove. eauto.
      * intros v d Hp [_ Hd]%stored_remove Hnt Htd. destruct (Ho v d Hp Hd Hnt Htd) as [? Hlt].
        split; [done|]. intros m e [_ He]%stored_remove. eauto.
      * pose proof (size_flying _ _ (flying_remove w1 n)). lia.
  - apply (kept_put all w1 d); try done.
    pose proof (subseteq_size _ _ (flying_put w1 d')) as Hsz.
    rewrite size_union_alt, size_singleton in Hsz.
    assert (size (flying w1 ∖ {[ name_of d' ]}) ≤ size (flying w1))%nat 
      by (apply subseteq_size; by intros x [? _]%elem_of_difference).
    lia.
Qed.

(** ** One pass among the others *)

Variable all : gset string.
Hypothesis all_range : Z.of_nat (size all) < 2 ^ 31.
Hypothesis room_range : 1 ≤ MaxUnavailable (RSpec ro) < 2 ^ 31.

Lemma kept_rtc w w' : kept all w → rtc moves w w' → kept all w'.
Proof. induction 2; eauto using kept_moves. Qed.

Lemma past_moves w w' v : rtc moves w w' → v ∈ past w → v ∈ past w'.
Proof.
  induction 1 as [|w1 w2 w3 Hm _ IH]; [done|]. intros Hv. apply IH.
  destruct Hm as [|? ? []|]; cbn; try done; by right.
Qed.

(** Nothing stored is new. *)
Lemma stored_moves w w' n d : rtc moves w w' → stored w' !! n = Some d → is_Some (stored w !! n).
Proof.
  induction 1 as [|w1 w2 w3 Hm _ IH]; [by eexists|]. intros [e He]%IH.
  destruct Hm as [|w1 w2 []|w1 d0 d' Hd0]; [by eexists|..].
  - apply stored_put in He as [[<- _]|[_ ?]]; by eexists.
  - apply stored_remove in He as [_ He]. by eexists.
  - apply stored_put in He as [[<- _]|[_ ?]]; by eexists.
Qed.

Lemma call_rg {A} o (f : rolres E o → prog (rolS E) A) Q w :
  (∀ w1 r w2, rtc moves w w1 → answers o w1 r w2 → moves w1 w2 ∧ rg moves (f r) Q w2) →
  rg moves (bind (rcall o) f) Q w.
Proof. done. Qed.

(** A program that updates no device does not move the fleet. *)
Lemma calm_rg {A} (p : prog (rolS E) A) w :
  calls_only (λ o : act (rolS E), ∀ d, o ≠ RUpdate d) p → rg moves p (λ _ _, True) w.
Proof.
  revert w. induction p as [a|o k IH]; intros w; [done|]. intros [Ho Hk] w1 r w2 _ Ha.
  split; [|by apply IH]. assert (w2 = w1) as ->; [|constructor].
  destruct o; cbn in Ha; first [exact Ha|apply Ha|by destruct (Ho d)].
Qed.

Lemma write_status_rg ro' phase n tg t w : rg moves (write_status ro' phase n tg t) (λ _ _, True) w.
Proof. apply calm_rg. unfold write_status. by_cases. Qed.

(** An update that goes through met the revision that was read. *)
Lemma update_rg {A} d f (k : option E → prog (rolS E) A) Q w :
  own_write f → kept all w → d ∈ past w →
  (∀ w1 d', rtc moves w w1 → kept all w1 → stored w1 !! name_of d = Some d → name_of d' = name_of d →
     fresh w1 d' → Spec d' = Spec (f d) → Status d' = Status d → moves w1 (put w1 d')) →
  (∀ e w', rtc moves w w' → rg moves (k (Some e)) Q w') →
  (∀ w' d', rtc moves w w' → d' ∈ past w' → name_of d' = name_of d → Spec d' = Spec (f d) →
     rg moves (k None) Q w') →
  rg moves (bind (rcall (RUpdate (f d))) k) Q w.
Proof.
  intros Hf Hw Hd Hmove Herr Hok. destruct (Hf d) as [Hmeta Hstatus].
  apply call_rg. intros w1 r w2 H1 [[Hr ->]|(d0 & d' & Hd0 & Hv & Hn & Hfr & Hsp & Hst & ->)].
  - destruct r as [e|]; [|done]. split; [constructor|]. by apply Herr.
  - pose proof (kept_rtc _ _ Hw H1) as Hw1. unfold name_of in Hd0, Hn. rewrite Hmeta in Hd0, Hv, Hn.
    assert (d = d0) as <- by (eapply kept_version; [done|by eapply past_moves|done|done]).
    assert (moves w1 (put w1 d')) as Hm by by apply Hmove.
    split; [done|]. assert (rtc moves w (put w1 d')) by by eapply rtc_r.
    destruct r as [e|]; [by apply Herr|]. eapply Hok; [done|by left|done|done].
Qed.

Lemma pause_all_rg items (k : option E → prog (rolS E) (Result * option E)) w :
  kept all w → (∀ d, d ∈ items → d ∈ past w) →
  (∀ r w', rg moves (k r) (λ _ _, True) w') →
  rg moves (bind (pause_all items) k) (λ _ _, True) w.
Proof.
  intros Hw Hin Hk. apply rg_bind, (rg_mono _ _ (λ _ _, True)); [|intros r w' _; apply Hk].
  clear k Hk. revert w Hw Hin. induction items as [|d items IH]; intros w Hw Hin; [done|].
  assert (∀ w', rtc moves w w' → rg moves (pause_all items) (λ _ _, True) w') as Hrest.
  { intros w' Hs. apply IH; [by eapply kept_rtc|]. intros x Hx. eapply past_moves; [done|].
    apply Hin. by right. }
  cbn [pause_all]. case_match; [by apply Hrest|].
  apply (update_rg d set_paused); [apply own_pause|done|apply Hin; by left|..].
  - intros w1 d' H1 Hw1 Hd Hn Hfr Hsp Hst. apply elsewhere. eapply (writes w1 d); [by rewrite Hn|done|..].
    + by rewrite Hsp.
    + intros [_ Hu]. unfold unpaused in Hu. by rewrite Hsp in Hu.
  - done.
  - intros w' _ Hs _ _ _. by apply Hrest.
Qed.

(** What a pass knows while it pushes: its list [V], the part [pre] of the candidates
    in it that it has pushed to, and the rest. *)
Record briefed (V pre rest : list EdgeDevice) (w : fleet) : Prop := {
    brief_kept : kept all w;
    brief_view : view w V;
    brief_sorted : StronglySorted (λ a b, name_less a b = true) V;
    brief_split : filter candidate V = pre ++ rest;
    brief_told : ∀ d, d ∈ pre → ∃ v, v ∈ past w ∧ name_of v = name_of d ∧ told v;
  }.

Lemma briefed_moves V pre rest w w' : briefed V pre rest w → rtc moves w w' → briefed V pre rest w'.
Proof.
  intros [Hw [Hnd Hin Hall] Hs Hsp Ht] Hm. split; [by eapply kept_rtc|split; [done|..]|done|done|].
  - intros d Hd. eapply past_moves; eauto.
  - intros n d Hd. destruct (stored_moves _ _ _ _ Hm Hd) as [e He]. eauto.
  - intros d Hd. destruct (Ht d Hd) as (v & Hv & ?). exists v. split; [by eapply past_moves|done].
Qed.

(** The revision a pass saw of a device that is stored. *)
Lemma briefed_seen V pre rest w n e :
  briefed V pre rest w → stored w !! n = Some e → ∃ v, v ∈ V ∧ v ∈ past w ∧ name_of v = n.
Proof.
  intros [_ [_ Hin Hall] _ _ _] He. apply Hall, list_elem_of_fmap in He as (v & -> & Hv).
  exists v. auto.
Qed.

Lemma briefed_order V pre d rest w v :
  briefed V pre (d :: rest) w → v ∈ V → candidate v →
  v ∈ pre ∨ v = d ∨ name_less d v = true.
Proof.
  intros [_ _ Hs Hsp _] Hv Hc. assert (v ∈ pre ++ d :: rest) as Hin
    by (rewrite <-Hsp; by apply list_elem_of_filter).
  apply elem_of_app in Hin as [?|[->|Hin]%elem_of_cons]; [by left|by right; left|].
  right; right. apply (StronglySorted_filter _ candidate) in Hs. rewrite Hsp in Hs.
  apply StronglySorted_app_1_r, StronglySorted_inv in Hs as [_ Hs].
  by apply (proj1 (list.Forall_forall _ _) Hs).
Qed.

Lemma briefed_first V pre d rest w n e :
  briefed V pre (d :: rest) w → stored w !! n = Some e → candidate e →
  n = name_of d ∨ string_lt (name_of d) n = true.
Proof.
  intros Hb He Hc. destruct (briefed_seen _ _ _ _ _ _ Hb He) as (v & Hv & Hp & <-).
  pose proof (brief_kept _ _ _ _ Hb) as Hw.
  destruct (briefed_order _ _ _ _ _ v Hb Hv) as [Hpre|[->|?]]; [|exfalso|by left|by right].
  - by eapply (kept_candidate _ _ Hw).
  - destruct (brief_told _ _ _ _ Hb v Hpre) as (v' & Hp' & Hn & Ht).
    apply (candidate_told e Hc). eapply (kept_told _ _ Hw v'); [done|by rewrite Hn|done].
Qed.

(** Whatever is in flight was seen in flight, or was pushed to by this very pass. *)
Lemma briefed_room V pre d rest w :
  briefed V pre (d :: rest) w → stored w !! name_of d = Some d → candidate d →
  Z.of_nat (size (flying w)) ≤ num (underway ro) V + Z.of_nat (length pre).
Proof.
  intros Hb Hd Hc. pose proof (brief_kept _ _ _ _ Hb) as Hw. unfold num.
  pose proof (size_list_to_set_le ((name_of <$> filter (underway ro) V) ++ (name_of <$> pre))) as Hsz.
  rewrite length_app, !length_fmap in Hsz.
  enough (flying w ⊆ list_to_set ((name_of <$> filter (underway ro) V) ++ (name_of <$> pre)))
    as Hsub%subseteq_size by lia.
  intros n (e & He & Hu & Hfl)%elem_of_flying. apply elem_of_list_to_set, elem_of_app.
  destruct (briefed_seen _ _ _ _ _ _ Hb He) as (v & Hv & Hp & <-).
  destruct (kept_stored _ _ Hw _ _ He) as [Hne _].
  destruct (decide (told v)) as [Ht|Ht].
  - left. apply list_elem_of_fmap_2, list_elem_of_filter. split; [|done]. by apply Hfl.
  - right. apply list_elem_of_fmap_2.
    destruct (kept_order _ _ Hw v e Hp He Ht (underway_told _ Hu)) as [Hcv Hlt].
    assert (name_less v d = true) as Hvd by by apply (Hlt (name_of d) d).
    destruct (briefed_order _ _ _ _ _ v Hb Hv Hcv) as [?|[->|Hdv]]; [done|..].
    + pose proof (name_less_total d d Hvd). congruence.
    + pose proof (name_less_total _ _ Hdv). congruence.
Qed.

(** Another revision of the rollout has the same targets. *)
Lemma same_spec ro' d :
  RSpec ro' = RSpec ro → (waiting ro' d ↔ waiting ro d) ∧ (underway ro' d ↔ underway ro d).
Proof. intros Hr. unfold waiting, underway, aimed, reached. by rewrite Hr. Qed.

Lemma push_rg ro' V pre devs cap t w :
  RSpec ro' = RSpec ro → briefed V pre (filter unpaused devs) w →
  cap + Z.of_nat (length pre) ≤ MaxUnavailable (RSpec ro) - num (underway ro) V → cap < 2 ^ 31 →
  rg moves (push ro' cap t devs) (λ _ _, True) w.
Proof.
  intros Hro. revert pre cap t w. induction devs as [|d devs IH]; intros pre cap t w Hb Hcap Hmax; [done|].
  cbn [push]. case_match eqn:Hpos; [done|]. apply Z.leb_gt in Hpos. rewrite filter_cons in Hb.
  destruct (decide (unpaused d)) as [Hu|Hu%not_false_is_true]; rewrite Hu; [|by apply (IH pre)].
  assert (Hd : d ∈ V ∧ candidate d).
  { assert (d ∈ filter candidate V) as [? ?]%list_elem_of_filter; [|done].
    rewrite (brief_split _ _ _ _ Hb). apply elem_of_app. right. by left. }
  destruct Hd as [HdV Hc].
  apply (update_rg d (retarget ro')); [done|apply Hb|by apply Hb|..].
  - intros w1 d' H1 Hw1 Hd Hn Hfr Hsp Hst. pose proof (briefed_moves _ _ _ _ _ Hb H1) as Hb1.
    apply (pushes w1 d); [by rewrite Hn|done|done| |..].
    + unfold told. by rewrite Hsp, <-Hro.
    + intros n e He Hce. rewrite Hn. by eapply briefed_first.
    + pose proof (briefed_room _ _ _ _ _ Hb1 Hd Hc). lia.
  - done.
  - intros w' d' Hs Hd' Hn Hsp. rewrite int32_id by (pose proof (num_bounds (underway ro) V); lia).
    pose proof (briefed_moves _ _ _ _ _ Hb Hs) as [Hk Hv Hsort Hsplit Ht].
    apply (IH (pre ++ [d])); [|rewrite length_app; simpl length; lia|lia]. split; try done.
    + by rewrite <-app_assoc.
    + intros x [Hx| ->%list_elem_of_singleton]%elem_of_app; [by apply Ht|].
      exists d'. split_and!; [done|done|]. unfold told. by rewrite Hsp, <-Hro.
Qed.

Lemma view_length w items : kept all w → view w items → (length items ≤ size all)%nat.
Proof.
  intros Hw [Hnd Hin _]. rewrite <-(length_fmap name_of items).
  rewrite <-(size_list_to_set (C := gset string)) by done. apply subseteq_size.
  intros n Hn. apply elem_of_list_to_set, list_elem_of_fmap in Hn as (d & -> & Hd). by eapply kept_names, Hin.
Qed.

Lemma slice_strict items : NoDup (name_of <$> items) →
  StronglySorted (λ a b, name_less a b = true) (Slice items name_less).
Proof.
  intros Hnd. pose proof (slice_sorted items name_less name_less_trans name_less_total) as Hs.
  rewrite <-(slice_perm items name_less) in Hnd.
  induction Hs as [|d l Hs IH Hd]; [by constructor|]. apply list.NoDup_cons in Hnd as [Hn Hnd].
  constructor; [by apply IH|]. rewrite list.Forall_forall in *. intros x Hx.
  destruct (name_less d x) eqn:Hdx; [done|]. destruct Hn.
  assert (name_of d = name_of x) as ->; [|by apply list_elem_of_fmap_2].
  specialize (Hd x Hx). unfold name_less in *. rewrite string_lt_le in *.
  by apply (anti_symm String.le).
Qed.

Lemma advance_rg ro' items w :
  RSpec ro' = RSpec ro → kept all w → view w items →
  rg moves (advance ro' (Slice items name_less)) (λ _ _, True) w.
Proof.
  intros Hro Hw Hview. pose proof (slice_perm items name_less) as Hp.
  pose proof (view_length _ _ Hw Hview) as Hlen. rewrite <-Hp in Hlen.
  assert (view w (Slice items name_less)) as HV.
  { destruct Hview as [? ? ?]. split; [by rewrite Hp|..].
    - intros d Hd. rewrite Hp in Hd. auto.
    - intros n d Hd. rewrite Hp. eauto. }
  set (V := Slice items name_less) in *. unfold advance. cbn zeta. case_match; [|case_match].
  - apply pause_all_rg; [done|apply HV|]. intros [e|] w'; [done|apply write_status_rg].
  - apply write_status_rg.
  - apply rg_bind, (rg_mono _ _ (λ _ _, True)); [|intros [t'|e] w' _; [apply write_status_rg|done]].
    rewrite inFlight_spec, count_spec by lia. cbn [untargeted].
    assert (num (underway ro') V = num (underway ro) V) as ->
      by (apply num_ext; intros d _; by apply same_spec).
    pose proof (num_bounds (underway ro) V). rewrite Hro, int32_id by lia.
    apply (push_rg ro' V []); [done| |simpl; lia|lia]. split; [done|done|by apply slice_strict, Hview| |].
    + cbn [app]. rewrite list_filter_filter. apply list_filter_iff. intros d. unfold candidate.
      pose proof (same_spec ro' d Hro). tauto.
    + by intros d ?%not_elem_of_nil.
Qed.

Lemma Reconcile_rg ns name w : kept all w → rg moves (Reconcile (E := E) ns name) (λ _ _, True) w.
Proof.
  intros Hw. unfold Reconcile. apply call_rg. intros w1 r w2 H1 [-> Hro]. split; [constructor|].
  destruct r as [ro'|e]; [|done]. apply call_rg. intros w2 r w3 H2 [-> Hview]. split; [constructor|].
  destruct r as [items|e]; [|done]. apply advance_rg; [auto| |auto].
  eapply kept_rtc; [by eapply kept_rtc|done].
Qed.
End replicas.

(** ** A server and caches to run against *)

Section demo.
Context `{HC : !ConditionHelpers} (ro : FleetRollout).

Definition stored_as (d : EdgeDevice) (rv : string) : EdgeDevice :=
  with_meta d rv (Finalizers (Meta d)) (Spec d) (Status d).
Definition next_rv (w : fleet) : string := "rv" +:+ pretty (length (past w)).

Global Instance fresh_dec w d : Decision (fresh w d).
Proof.
  refine (cast_if (decide (Forall (λ v, name_of v = name_of d →
    ResourceVersion (Meta v) ≠ ResourceVersion (Meta d)) (past w))));
    abstract (unfold fresh; by rewrite list.Forall_forall in *).
Defined.

Lemma view_spec w items :
  view w items ↔ NoDup (name_of <$> items) ∧ Forall (λ d, d ∈ past w) items ∧
    map_Forall (λ n _, n ∈ name_of <$> items) (stored w).
Proof. rewrite list.Forall_forall. split; [by intros [? ? ?]|by intros (? & ? & ?)]. Qed.

Global Instance view_dec w items : Decision (view w items).
Proof.
  refine (cast_if (decide (NoDup (name_of <$> items) ∧ Forall (λ d, d ∈ past w) items ∧
    map_Forall (λ n _, n ∈ name_of <$> items) (stored w)))); abstract (by rewrite view_spec).
Defined.

(** Every call succeeds; the cache lists [items]. *)
Definition cache_server (items : list EdgeDevice) (o : act (rolS api_error)) (w : fleet) :
    option (res o * fleet) :=
  match o return option (rolres api_error o * fleet) with
  | RGet _ _ => Some (Ok ro, w)
  | RList _ _ => if decide (view w items) then Some (Ok items, w) else None
  | RListRollouts _ => Some (Ok [ro], w)
  | RNow => Some (0, w)
  | RStatusUpdate _ => Some (None, w)
  | RUpdate d =>
      match stored w !! name_of d with
      | Some d0 =>
          if decide (ResourceVersion (Meta d) = ResourceVersion (Meta d0)) then
            let d' := with_meta d (next_rv w) (Finalizers (Meta d)) (Spec d) (Status d0) in
            if decide (fresh w d') then Some (None, put w d') else None
          else Some (Some Conflict, w)
      | None => Some (Some NotFound, w)
      end
  end.

Lemma cache_server_handles items :
  @handles (rolS api_error) fleet (answers ro) (cache_server items).
Proof.
  intros o w r w'. destruct o as [n m|n l|d|ro'|n|]; cbn.
  - intros [= <- <-]. split; [done|]. by intros ? [= <-].
  - case_decide; [|done]. intros [= <- <-]. split; [done|]. by intros ? [= <-].
  - destruct (stored w !! name_of d) as [d0|] eqn:Hd; [|intros [= <- <-]; by left].
    case_decide; [|intros [= <- <-]; by left]. case_decide; [|done]. intros [= <- <-]. right.
    exists d0, (with_meta d (next_rv w) (Finalizers (Meta d)) (Spec d) (Status d0)). by split_and!.
  - by intros [= <- <-].
  - by intros [= <- <-].
  - by intros [= <- <-].
Qed.

(** The same, but power fails before the first update. *)
Definition before_update (items : list EdgeDevice) (o : act (rolS api_error)) (w : fleet) :
    option (res o * fleet) :=
  match o with RUpdate _ => None | _ => cache_server items o w end.

Lemma before_update_handles (items : list EdgeDevice) :
  @handles (rolS api_error) fleet (answers ro) (before_update items).
Proof. intros o w r w' Ho. apply (cache_server_handles items). by destruct o. Qed.
End demo.

Definition fleet_of (l : list EdgeDevice) : fleet :=
  let m := list_to_map ((λ d, (name_of d, d)) <$> l) in mkFleet m (map_to_list m).*2.

(** The pass [p], or what is left of one, to its end. *)
Definition finish `{!ConditionHelpers} (ro : FleetRollout) (items : list EdgeDevice)
    (p : prog (rolS api_error) (Result * option api_error)) (w : fleet) :
    prog (rolS api_error) (Result * option api_error) * fleet :=
  drive (cache_server ro items) p w.

Definition pair : list EdgeDevice :=
  [demo_member "edge-001" "v1" "v1" []; demo_member "edge-002" "v1" "v1" []].
Definition demo_pass `{!ConditionHelpers, !SliceSort} :
    prog (rolS api_error) (Result * option api_error) := Reconcile "default" "campaign".

Lemma finish_interleaved `{!ConditionHelpers} ro items ps p w start env :
  rtc (@interleaved (rolS api_error) fleet (answers ro) _ start env) (ps ++ [p], w)
    (ps ++ [(finish ro items p w).1], (finish ro items p w).2).
Proof.
  apply (@interleaved_last (rolS api_error) fleet (answers ro)). rewrite <-surjective_pairing.
  apply (@drive_steps (rolS api_error) fleet (answers ro) (cache_server ro items)), cache_server_handles.
Qed.

Lemma pass_interleaved `{!ConditionHelpers} ro items ps p w (start : _ → Prop) env :
  start p →
  rtc (@interleaved (rolS api_error) fleet (answers ro) _ start env) (ps, w)
    (ps ++ [(finish ro items p w).1], (finish ro items p w).2).
Proof. intros Hp. eapply rtc_l; [by apply starts|]. apply finish_interleaved. Qed.

(** Two passes, the second with the list the first had. *)
Definition first_pass `{!ConditionHelpers, !SliceSort} :=
  finish (demo_rollout 50) pair demo_pass (fleet_of pair).
Definition second_pass `{!ConditionHelpers, !SliceSort} :=
  finish (demo_rollout 50) pair demo_pass first_pass.2.

(** ** The properties *)

(** A fleet nobody has written to yet. *)
Definition starting (ro : FleetRollout) `{!ConditionHelpers} (w : fleet) : Prop :=
  past w = (map_to_list (stored w)).*2 ∧
  (∀ n d, stored w !! n = Some d → name_of d = n) ∧
  Z.of_nat (size (stored w)) < 2 ^ 31 ∧
  Z.of_nat (size (flying ro w)) ≤ MaxUnavailable (RSpec ro).

Lemma starting_kept `{HC : !ConditionHelpers} ro w : starting ro w → kept ro (dom (stored w)) w.
Proof.
  intros (Hp & Hn & _ & Hroom).
  assert (Hpast : ∀ v, v ∈ past w → stored w !! name_of v = Some v).
  { intros v Hv. rewrite Hp in Hv. apply list_elem_of_fmap in Hv as ([n d] & -> & Hd).
    apply elem_of_map_to_list in Hd. cbn. by rewrite (Hn n d Hd). }
  assert (Hsame : ∀ v d, v ∈ past w → stored w !! name_of v = Some d → v = d).
  { intros v d Hv%Hpast Hd. congruence. }
  split; [| | | | | |done].
  - intros n d Hd. split; [by apply Hn|]. rewrite Hp. apply list_elem_of_fmap. exists (n, d).
    split; [done|]. by apply elem_of_map_to_list.
  - intros v Hv%Hpast. by apply elem_of_dom_2 in Hv.
  - by intros v d Hv Hd _; apply Hsame.
  - intros v d Hv Hd. by rewrite (Hsame v d Hv Hd).
  - intros v d Hv Hd. by rewrite (Hsame v d Hv Hd).
  - intros v d Hv Hd. by rewrite (Hsame v d Hv Hd).
Qed.

(** C10. The blast radius holds among replicas and behind lagging caches.  Any number
    of passes of any number of replicas run interleaved, each on a list that may show
    every device as it was at some earlier time, with updates that fail, succeed or
    succeed and report failure, while agents and people write: the devices under way
    never exceed maxUnavailable, and the batches are a prefix of the fleet in name
    order - whoever was pushed to comes before everyone still waiting. *)
Theorem replicas_keep_blast_radius {E : Type} `{HE : !ApiErrors E}
    `{HC : !ConditionHelpers, HCL : !ConditionLaws HC} `{HS : !SliceSort, HSL : !SliceSortLaws HS}
    ro ns name w0 ps w :
  1 ≤ MaxUnavailable (RSpec ro) < 2 ^ 31 → starting ro w0 →
  rtc (@interleaved (rolS E) fleet (answers ro) _ (λ p, p = Reconcile ns name) (others ro))
    ([], w0) (ps, w) →
  Z.of_nat (size (flying ro w)) ≤ MaxUnavailable (RSpec ro) ∧
  ∀ v d, v ∈ past w → stored w !! name_of v = Some d → ¬ told ro v → told ro d →
    ∀ n e, stored w !! n = Some e → candidate ro e → string_lt (name_of v) n = true.
Proof.
  intros Hmax Hw0 Hs. pose proof Hw0 as (_ & _ & Hsize & _).
  assert (kept ro (dom (stored w0)) w) as Hw.
  { refine (@rg_sound (rolS E) fleet (answers ro) (moves ro) _ _ _ (kept ro (dom (stored w0))) _ _
      _ _ _ Hs eq_refl _); [apply elsewhere|apply kept_moves| |by apply starting_kept].
    intros p w1 -> Hw1. apply (Reconcile_rg ro (dom (stored w0))); [|done..].
    by rewrite size_dom. }
  split; [apply Hw|]. intros v d Hv Hd Hnt Ht. by apply (kept_order _ _ _ Hw v d).
Qed.

Lemma replicas_keep_blast_radius_witness :
  let H1 := plain_conditions in let H2 := merging in
  let ro := demo_rollout 50 in let w := second_pass.2 in
  flying ro w = {[ "edge-001" ]} ∧ second_pass.1 = Ret (0, Some Conflict) ∧
  Z.of_nat (size (flying ro w)) ≤ MaxUnavailable (RSpec ro) ∧
  ∀ v d, v ∈ past w → stored w !! name_of v = Some d → ¬ told ro v → told ro d →
    ∀ n e, stored w !! n = Some e → candidate ro e → string_lt (name_of v) n = true.
Proof.
  intros H1 H2 ro w. split; [apply (bool_decide_unpack _); vm_compute; exact I|].
  split; [vm_compute; reflexivity|].
  apply (replicas_keep_blast_radius (E := api_error) (HCL := plain_conditions_laws)
    (HSL := merging_laws) ro "default" "campaign" (fleet_of pair)
    (([] ++ [first_pass.1]) ++ [second_pass.1]) w).
  - split; [discriminate|reflexivity].
  - split_and!; [reflexivity| |vm_compute; reflexivity|vm_compute; discriminate].
    apply (map_Forall_to_list (λ n d, name_of d = n)). apply (bool_decide_unpack _). vm_compute. exact I.
  - etrans; [by apply (pass_interleaved ro pair [] demo_pass)|]. by apply pass_interleaved.
Defined.

(** Finding. A device joins with a name before those under way, and the cache shows
    it together with the state from before the last push: the next pass pushes to
    the newcomer, and the blast radius is exceeded. *)
Definition joins (w w' : fleet) : Prop :=
  ∃ d, stored w !! name_of d = None ∧ fresh w d ∧ w' = put w d.

Definition newcomer : EdgeDevice := demo_member "edge-000" "v1" "v1" [].

(** The first pass has listed the pair and is about to push. *)
Definition halfway `{!ConditionHelpers, !SliceSort} :=
  drive (before_update (demo_rollout 50) pair) demo_pass (fleet_of pair).
Definition pushed `{!ConditionHelpers, !SliceSort} :=
  finish (demo_rollout 50) pair halfway.1 (put halfway.2 newcomer).
Definition overshot `{!ConditionHelpers, !SliceSort} :=
  finish (demo_rollout 50) (newcomer :: pair) demo_pass pushed.2.

Theorem newcomer_exceeds_blast_radius :
  let H1 := plain_conditions in let H2 := merging in
  let ro := demo_rollout 50 in
  MaxUnavailable (RSpec ro) = 1 ∧ flying ro (fleet_of pair) = ∅ ∧
  (∃ ps, rtc (@interleaved (rolS api_error) fleet (answers ro) _ (λ p, p = demo_pass) joins)
           ([], fleet_of pair) (ps, overshot.2)) ∧
  flying ro overshot.2 = {[ "edge-000"; "edge-001" ]}.
Proof.
  intros H1 H2 ro. split; [reflexivity|]. split; [apply (bool_decide_unpack _); vm_compute; exact I|].
  split; [|apply (bool_decide_unpack _); vm_compute; exact I].
  exists (([] ++ [pushed.1]) ++ [overshot.1]). etrans; [|by apply pass_interleaved].
  etrans; [|apply (finish_interleaved ro pair [])].
  eapply rtc_l; [by apply starts|]. eapply rtc_r.
  - apply (@interleaved_last (rolS api_error) fleet (answers ro) _ _ _ [] demo_pass halfway.1
      (fleet_of pair) halfway.2). rewrite <-surjective_pairing.
    apply (@drive_steps (rolS api_error) fleet (answers ro) (before_update ro pair)), before_update_handles.
  - apply surroundings. exists newcomer. split_and!; [reflexivity| |reflexivity].
    apply (bool_decide_unpack _). vm_compute. exact I.
Qed.
