(* ===== verification/Contract.v ===== *)
(** * What the fleet learns of an upgrade

    The agent and the controllers share no types: they meet in the JSON of one
    object.  This file relates the two readings of it, and shows that what
    [runUpgrade] reports is true of the device at the moment it is sent and is
    understood by both reconcilers. *)

From S2P Require Import Prelude GoLib Fsm Sha256 Os Download Slot SlotLogic SlotSpec Boot Kube Agent AgentLogic Upgrade System.
From S2P Require ApiTypes DeviceController DeviceStatus RolloutController RolloutSpec.
Open Scope Z_scope.

Implicit Types (s : fs) (d : device).

(** ** Two readings of one object *)

Record same_condition (c : ApiTypes.Condition) (c' : Condition) : Prop := {
    same_type : ApiTypes.Type' c = Type' c';
    same_status : ApiTypes.Status' c = Status' c';
    same_reason : ApiTypes.Reason c = Reason c';
    same_message : ApiTypes.Message c = Message c';
    same_generation : ApiTypes.ObservedGeneration' c = ObservedGeneration' c';
  }.

(** The object the controllers decode is the one the agent encodes; an empty
    heartbeat is omitted, others are parsed by [parse]. *)
Record same_object (parse : string → option Z) (o : ApiTypes.EdgeDevice) (dev : Device) : Prop := {
    same_name : ApiTypes.Name (ApiTypes.Meta o) = Name (Metadata dev);
    same_namespace : ApiTypes.Namespace (ApiTypes.Meta o) = Namespace (Metadata dev);
    same_uid : ApiTypes.UID (ApiTypes.Meta o) = UID (Metadata dev);
    same_desired : ApiTypes.DesiredFirmwareVersion (ApiTypes.Spec o) = DesiredFirmwareVersion (Spec dev);
    same_url : ApiTypes.FirmwareURL (ApiTypes.Spec o) = FirmwareURL (Spec dev);
    same_checksum : ApiTypes.ChecksumSHA256 (ApiTypes.Spec o) = ChecksumSHA256 (Spec dev);
    same_paused : ApiTypes.RolloutPaused (ApiTypes.Spec o) = RolloutPaused (Spec dev);
    same_phase : ApiTypes.Phase (ApiTypes.Status o) = Phase (Status dev);
    same_version : ApiTypes.CurrentFirmwareVersion (ApiTypes.Status o) = CurrentFirmwareVersion (Status dev);
    same_slot : ApiTypes.ActiveSlot (ApiTypes.Status o) = ActiveSlot (Status dev);
    same_observed : ApiTypes.ObservedGeneration (ApiTypes.Status o) = ObservedGeneration (Status dev);
    same_heartbeat : ApiTypes.LastHeartbeat (ApiTypes.Status o) =
      if decide (LastHeartbeat (Status dev) = "") then None else parse (LastHeartbeat (Status dev));
    same_conditions : Forall2 same_condition (ApiTypes.Conditions (ApiTypes.Status o)) (Conditions (Status dev));
  }.

(** A list of conditions has one of each type: both sides find the same one. *)
Lemma same_find `{HC : !ApiTypes.ConditionHelpers, HL : !ApiTypes.ConditionLaws HC} cs cs' ty c' :
  Forall2 same_condition cs cs' → NoDup (Type' <$> cs') → find_condition cs' ty = Some c' →
  ∃ c, ApiTypes.FindStatusCondition cs ty = Some c ∧ same_condition c c'.
Proof.
  intros Hs Hnd Hf.
  assert (c' ∈ cs' ∧ Type' c' = ty) as [Hin Hty].
  { unfold find_condition in Hf. destruct (list_find _ cs') as [[i x]|] eqn:Hx; [|done].
    apply list_find_Some in Hx as (Hi & ? & _). injection Hf as <-.
    split; [by eapply list_elem_of_lookup_2|done]. }
  apply list_elem_of_lookup in Hin as [i Hi].
  destruct (Forall2_lookup_r _ _ _ _ _ Hs Hi) as (c & Hc & Hcc).
  destruct (ApiTypes.FindStatusCondition cs ty) as [x|] eqn:Hx.
  - exists x. split; [done|]. pose proof (ApiTypes.find_type _ _ _ Hx) as Hxt.
    apply ApiTypes.find_in, list_elem_of_lookup in Hx as [j Hj].
    destruct (Forall2_lookup_l _ _ _ _ _ Hs Hj) as (x' & Hx' & Hxx).
    assert (i = j) as <-.
    { eapply (NoDup_lookup (Type' <$> cs')); [done|by rewrite list_lookup_fmap, Hi|].
      rewrite list_lookup_fmap, Hx'. cbn. f_equal. rewrite <-(same_type _ _ Hxx). congruence. }
    by simplify_eq.
  - exfalso. eapply ApiTypes.find_none; [done|by eapply list_elem_of_lookup_2|].
    rewrite (same_type _ _ Hcc). done.
Qed.

(** ** The reports of an upgrade *)

Section reports.
Context (a : agent) (env : dl_env).
Context (HP : ∀ o f, is_read o = true → faults env o f → f = NoFault).
Local Instance Csem : Sem agS (State * fs) := job_sem env.

(** Every request with a body, started in [w], carries a device allowed there. *)
Definition sends (P : Device → State * fs → Prop) (o : act agS) (w : State * fs) : Prop :=
  match o with
  | AKube (KDo rq) => ∀ dev, Payload rq = Some dev → P dev w
  | _ => True
  end.

Definition silent (o : act agS) : Prop :=
  match o with AKube (KDo rq) => Payload rq = None | _ => True end.

Lemma silent_sends {A} P (p : prog agS A) w : calls_only silent p → each (sends P) p w.
Proof.
  intros Hp. apply each_calls_only. eapply calls_only_mono; [|done].
  intros [|[]| | | |] Ho w'; try done. intros dev Hd. cbn in Ho. congruence.
Qed.

Lemma quiet_wp {A} (p : prog agS A) w :
  calls_only quiet p → wp p (λ x w', w' = w ∧ may_return p x) w.
Proof.
  revert w. induction p as [x|o k IH]; intros w Hp; [done|]. destruct Hp as [Ho Hk].
  split; [done|]. intros r w' Hstep. assert (w' = w) as -> by (by destruct o as [| |[]| | |]).
  eapply wpi_mono; [by apply IH, Hk|done|]. intros x w' _ [-> ?]. split; [done|]. by exists r.
Qed.

(** A report sends what the mutation makes of the object it read. *)
Lemma each_report P mutate w :
  (∀ st gen, calls_only (λ o, quiet o ∧ silent o) (mutate st gen)) →
  (∀ dev dev', may_return (mutation mutate dev) dev' → P (stamped dev') w) →
  each (sends P) (reportStatus a mutate) w.
Proof.
  intros Hm HPd. apply each_bind; [|eapply wpi_mono; [apply wpi_true|done|done]].
  unfold UpdateStatus. generalize 5%nat, (@None goerr). intros n.
  induction n as [|n IH]; intros lastErr; cbn [update_loop]; [done|].
  assert (Hmut : ∀ dev, calls_only (λ o, quiet o ∧ silent o) (mutation mutate dev)).
  { intros dev. apply calls_only_bind; [done|]. intros gen. apply calls_only_bind; [apply Hm|done]. }
  apply each_bind; [apply silent_sends, calls_only_lift; unfold Get; by_cases|].
  eapply wpi_mono; [apply quiet_wp, calls_only_lift; unfold Get; by_cases|done|].
  intros [dev|e] w' _ [-> _]; [|done].
  apply each_bind; [apply silent_sends; eapply calls_only_mono; [|apply Hmut]; by intros ? []|].
  eapply wpi_mono; [apply quiet_wp; eapply calls_only_mono; [|apply Hmut]; by intros ? []|done|].
  intros dev' w' _ [-> Hdev]. apply each_bind.
  - unfold PutStatus. split; [done|]. intros r w' Hst. cbn in Hst. subst w'.
    destruct r; cbn; [done|]. split; [|intros r w' _; destruct r; cbn; repeat case_match; done].
    intros x [= <-]. by eapply HPd.
  - eapply wpi_mono; [apply quiet_wp, calls_only_lift; unfold PutStatus; by_cases|done|].
    intros [e|] w' _ [-> _]; [|done]. by destruct (IsConflict e).
Qed.

Lemma all_calls {S : sig} {A} (Q : act S → Prop) (p : prog S A) : (∀ o, Q o) → calls_only Q p.
Proof. intros HQ. induction p as [x|o k IH]; by repeat split. Qed.

Lemma fs_silent {A} (p : prog fsS A) : calls_only silent (onfs p).
Proof. by apply calls_only_lift, all_calls. Qed.
Lemma dl_silent {A} (p : prog dlS A) : calls_only silent (ondl p).
Proof. by apply calls_only_lift, all_calls. Qed.

Definition jeach P {A} (p : prog agS A) st d : Prop := ∀ s, rep s d → each (sends P) p (st, s).

Lemma jeach_bind P {A B} (p : prog agS A) (f : A → prog agS B) J st d :
  calls_only silent p →
  jwp env p J (λ x st' d', may_return p x → jeach P (f x) st' d') st d →
  jeach P (bind p f) st d.
Proof.
  intros Hp Hj s Hs. apply each_bind; [by apply silent_sends|].
  eapply wpi_mono; [apply wpi_conj; [apply (Hj s Hs)|apply wp_may_return]|done|].
  intros x [st' s'] _ [(d' & Hs' & Hx) Hr]. by apply Hx.
Qed.

(** ** What a report says *)

Context (spec : DeviceSpec) (st0 : State) (d0 : device).

Definition announces (c : Condition) : Prop :=
  Status' c = CondFalse ∧ Reason c = "UpgradeInProgress".
Definition gives_up (c : Condition) : Prop :=
  Status' c = CondFalse ∧ Reason c ≠ "UpgradeInProgress".

(** The firmware is announced before the machine moves, given up in [Failed], and
    claimed in [Idle] on a device that runs it, sealed, from the slot named. *)
Definition news (dev : Device) (w : State * fs) : Prop :=
  ∃ c, find_condition (Conditions (Status dev)) CondFirmwareSynced = Some c ∧
  ((announces c ∧ w.1 = st0) ∨ (gives_up c ∧ w.1 = StateFailed) ∨
   (Status' c = CondTrue ∧ w.1 = StateIdle ∧
    CurrentFirmwareVersion (Status dev) = DesiredFirmwareVersion spec ∧
    ∃ d', rep w.2 d' ∧ installed d0 d' (DesiredFirmwareVersion spec) (ChecksumSHA256 spec) ∧
          ActiveSlot (Status dev) = slot_name (active d'))).

(** The condition after a report that sets it. *)
Lemma reported status reason msg (f : DeviceStatus → DeviceStatus) dev dev' :
  may_return (mutation (λ st gen, setCondition (f st) CondFirmwareSynced status reason msg gen) dev) dev' →
  ∃ c, find_condition (Conditions (Status (stamped dev'))) CondFirmwareSynced = Some c ∧
       Status' c = status ∧ Reason c = reason ∧
       CurrentFirmwareVersion (Status dev') = CurrentFirmwareVersion (f (Status dev)) ∧
       ActiveSlot (Status dev') = ActiveSlot (f (Status dev)).
Proof.
  intros (gen & now & <-). cbn. eexists. split; [apply find_set_same|].
  unfold expected_condition. by destruct (find_condition _ _).
Qed.

Lemma jeach_report mutate st d :
  (∀ st gen, calls_only (λ o, quiet o ∧ silent o) (mutate st gen)) →
  (∀ s dev dev', rep s d → may_return (mutation mutate dev) dev' → news (stamped dev') (st, s)) →
  jeach news (reportStatus a mutate) st d.
Proof. intros Hm Hn s Hs. apply each_report; eauto. Qed.

Lemma jeach_fail reason msg st d :
  StateFailed ∈ allowed_from st → reason ≠ "UpgradeInProgress" →
  jeach news (fail a spec reason msg) st d.
Proof.
  intros Hst Hr. apply (jeach_bind _ _ _ (λ _, True)); [done|].
  apply jwp_To; [done|done|]. intros _.
  do 3 (apply (jeach_bind _ _ _ (λ _, True)); [done|apply jwp_quiet; [done|done|intros _ _]]).
  apply jeach_report; [done|]. intros s dev dev' _ H.
  destruct (reported CondFalse reason msg (λ st, st) dev dev' H) as (c & Hc & ? & ? & _).
  exists c. split; [done|]. right; left. split; [|done]. by split; [|congruence].
Qed.

(** The reasons the flash steps give. *)
Lemma flashing_reasons staging e :
  may_return (onfs (flashing staging spec)) (Some e) → e.1 ≠ "UpgradeInProgress".
Proof.
  intros H%may_return_lift. unfold flashing in H.
  apply may_return_bind in H as ([r|] & _ & H); [by simplify_eq/=|].
  apply may_return_bind in H as ([r|] & _ & H); [by simplify_eq/=|].
  apply may_return_bind in H as ([x [r|]] & _ & H); by simplify_eq/=.
Qed.

Lemma confirming_reasons e :
  may_return (onfs confirming) (Some e) → e.1 ≠ "UpgradeInProgress".
Proof.
  intros H%may_return_lift. unfold confirming in H.
  apply may_return_bind in H as (r & _ & H). destruct (not_trial r); [by simplify_eq/=|].
  apply may_return_bind in H as ([r'|] & _ & H).
  - apply may_return_bind in H as (r'' & _ & H). by simplify_eq/=.
  - apply may_return_bind in H as ([r'|] & _ & H); by simplify_eq/=.
Qed.

(** ** The transaction, report by report *)

Let P := faults env.
Let version := DesiredFirmwareVersion spec.
Let sum := ChecksumSHA256 spec.
Let name := staging_name sum.

(** A step of the slot manager that ends as [R] says; a legal move of the machine. *)
Ltac on_fs Post :=
  apply (jeach_bind _ _ _ (λ _, True)); [apply fs_silent|]; eapply (jwp_fs env) with (R := Post).
Ltac legal := apply (bool_decide_unpack _); vm_compute; exact I.
Ltac goes :=
  apply (jeach_bind _ _ _ (λ _, True)); [done|]; apply jwp_To; [legal|done|]; intros _.

Lemma any_dwp {A} (p : prog fsS A) J (R : A → device → Prop) d :
  dwp P p J R d → dwp P p (λ _, True) R d.
Proof. intros H. by eapply dwp_mono. Qed.

(** After [Confirm]. *)
Lemma jeach_end d2 :
  tidy d2 → installed d0 d2 version sum →
  jeach news
    (do onfs (fcall (Remove [name])) ;;
     guard mem (FsmTo StateIdle) catch err => Ret tt ;;
     slot <- onfs Active ;;
     reportStatus a (mark_upgraded version (slot_or_empty slot))) StateConfirming d2.
Proof.
  intros Ht Hi. on_fs (λ (_ : option goerr) d', installed d0 d' version sum).
  { apply (dwp_remove_store env); [done|apply staging_is_store|done|done|].
    intros _. split; [done|]. by destruct Hi. }
  intros _ d3 Hi3 _. goes. on_fs (λ (r : result goerr string) d', d' = d3 ∧ r = Ok (slot_name (active d3))).
  { by apply (dwp_Active P HP). }
  intros r d' [-> ->] _. apply jeach_report; [done|]. intros s dev dev' Hs H.
  destruct (reported _ _ _ (λ st, set_firmware st version (slot_name (active d3))) dev dev' H)
    as (c & Hc & ? & _ & Hv & Hsl).
  exists c. split; [done|]. right; right. split_and!; [done|done|exact Hv|]. by exists d3.
Qed.

(** From the verification of what was downloaded. *)
Lemma jeach_verified d :
  confirmed d (active d) = true → tidy d → active d = active d0 →
  jeach news
    (guard onfs (VerifySHA256 [name] sum)
     catch err => (do onfs (fcall (Remove [name])) ;; fail a spec "ChecksumMismatch" (Error err)) ;;
     guard mem (FsmTo StateFlashing) catch err => Ret tt ;;
     guard onfs (flashing [name] spec) catch err => fail a spec err.1 err.2 ;;
     guard mem (FsmTo StateConfirming) catch err => Ret tt ;;
     guard onfs confirming catch err => fail a spec err.1 err.2 ;;
     do onfs (fcall (Remove [name])) ;;
     guard mem (FsmTo StateIdle) catch err => Ret tt ;;
     slot <- onfs Active ;;
     reportStatus a (mark_upgraded version (slot_or_empty slot))) StateVerifying d.
Proof.
  intros Hc Ht Hact. assert (is_store name) as Hn by apply staging_is_store.
  on_fs (λ (r : option goerr) d', d' = d ∧
    (r = None → ∃ b, stores d name = Some (File b) ∧ sha256hex b = sum)).
  { apply (dwp_verify_store env HP); [done|done|done|by intros|by eauto]. }
  intros [err|] d' [-> Hb] _.
  { on_fs (λ (_ : option goerr) (_ : device), True); [by apply (dwp_remove_store env)|].
    intros _ d' _ _. apply jeach_fail; [legal|done]. }
  destruct (Hb eq_refl) as (b & Hstore & Hsum). goes.
  apply (jeach_bind _ _ _ (λ _, True)); [apply fs_silent|].
  eapply (jwp_fs env); [eapply any_dwp; by apply (flashing_ok P HP d name b)|].
  intros [e|] d1 Hr Hret; [apply jeach_fail; [legal|by eapply flashing_reasons]|]. goes.
  apply (jeach_bind _ _ _ (λ _, True)); [apply fs_silent|].
  eapply (jwp_fs env); [eapply any_dwp; by eapply (confirming_ok P HP d d1)|].
  intros [e|] d2 [Hh Hd2] Hret2; [apply jeach_fail; [legal|by apply confirming_reasons]|].
  destruct Hd2 as (Ha & Hcf & Hpay). apply jeach_end; [by eapply held_tidy|].
  split; [rewrite Ha, <-Hact; apply Hr|done|..]; rewrite Ha.
  - rewrite Hpay by done. apply Hr.
  - exists b. rewrite Hpay by done. split; [apply Hr|done].
Qed.

Lemma jeach_runUpgrade gen :
  settled d0 → at_rest st0 → jeach news (runUpgrade a spec gen) st0 d0.
Proof.
  intros [Hc Ht] Hst s Hs. apply each_bind.
  { apply (jeach_report (mark_started version) st0 d0); [done| |done]. intros s' dev dev' _ H.
    destruct (reported _ _ _ (λ st, st) dev dev' H) as (c & Hcc & ? & ? & _).
    exists c. split; [done|]. by left. }
  eapply wpi_mono; [apply quiet_wp; by apply reportStatus_calls|done|]. intros [] w _ [-> _].
  generalize dependent s. eapply (jeach_bind _ _ _ (λ _, True)); [done|].
  apply jwp_To; [destruct Hst as [-> | ->]; legal|done|]. intros _.
  destruct (_ <? 12)%nat; [intros s Hs; split; [done|]; by intros []|].
  apply (jeach_bind _ _ _ (λ _, True)); [apply dl_silent|].
  apply (jwp_download env _ name); [apply retries_touches|apply staging_is_store|done|done|].
  intros [err|] n Hfn _; [apply jeach_fail; [legal|done]|]. goes.
  by apply jeach_verified; [|apply tidy_put_store|].
Qed.
End reports.

(** ** A run up to its last report *)

(** After an earlier failure: an API server that answers at once, until the new slot runs. *)
Definition api_run (o : act agS) (w : State * fs) : option (res o * (State * fs)) :=
  match o return option (agres o * (State * fs)) with
  | AKube (KNewRequest _ _) => Some (None, w)
  | AKube (KDo rq) =>
      if decide (Payload rq ≠ None ∧ w.2 !! currentPath = Some (Link "slotB")) then None
      else Some (Ok (mkReply 200 "200 OK" "" (Ok target_device)), w)
  | o => job_run o w
  end.

Lemma api_run_handles : handles (Sem0 := job_sem abc_env) api_run.
Proof.
  intros o w r w' H. destruct o as [|[]| | | |]; try exact (job_run_handles _ _ _ _ H).
  - by injection H as _ <-.
  - cbn in H. case_decide; [done|]. by injection H as _ <-.
Qed.

Definition last_report : prog agS unit * (State * fs) :=
  drive api_run (runUpgrade demo_agent abc_spec 1) (StateFailed, factory_fs).

Definition report_of {A} (p : prog agS A) : option Device :=
  match p with Act (AKube (KDo rq)) _ => Payload rq | _ => None end.

(** The object as a controller decodes it. *)
Definition decoded (dev : Device) : ApiTypes.EdgeDevice :=
  let m := Metadata dev in let sp := Spec dev in let st := Status dev in
  ApiTypes.mkEdgeDevice
    (ApiTypes.mkObjectMeta (Name m) (Namespace m) (UID m) (ResourceVersion m) (Generation m)
       None [] ∅ None)
    (ApiTypes.mkEdgeDeviceSpec (DesiredFirmwareVersion sp) (FirmwareURL sp) (ChecksumSHA256 sp)
       (Region sp) (DeviceLabels sp) (RolloutPaused sp))
    (ApiTypes.mkEdgeDeviceStatus (Phase st)
       ((λ c, ApiTypes.mkCondition (Type' c) (Status' c) (ObservedGeneration' c) 0 (Reason c) (Message c))
          <$> Conditions st)
       (CurrentFirmwareVersion st) (ActiveSlot st) None (ObservedGeneration st)).

Lemma decoded_same dev : same_object (λ _, None) (decoded dev) dev.
Proof.
  split; try done; cbn; [by case_decide|]. apply Forall2_fmap_l, Forall_Forall2_diag, list.Forall_forall.
  by intros c _.
Qed.

Definition to_v2 : ApiTypes.FleetRollout :=
  ApiTypes.mkFleetRollout (ApiTypes.mkObjectMeta "campaign" "default" "ro-1" "1" 3 None [] ∅ None)
    (ApiTypes.mkFleetRolloutSpec ∅ "2.0.0" "http://fw/abc.bin" abc_sum 1 50)
    (ApiTypes.mkFleetRolloutStatus "" 0 0 0 0 [] 0).

(** ** The properties *)

(** C11. The fleet learns the truth about an upgrade.  Take any status write that
    [runUpgrade] sends, under failing writes and any network, and the object [o] the
    controllers decode from it.  Either the transaction has only begun: the state
    machine is where it was, and [o] is not a failure to either reconciler (its phase
    apart); or the transaction has failed, the rollout reconciler counts [o] as failed
    and the device reconciler will call it Degraded; or the transaction is over, the
    rollout counts [o] as having reached the target, and the directory does hold the
    wanted image, confirmed, in the slot [o] names. *)
Theorem upgrade_reported_truthfully
    `{HC : !ApiTypes.ConditionHelpers, HL : !ApiTypes.ConditionLaws HC}
    a env spec gen st s d rq k w dev parse o (ro : ApiTypes.FleetRollout) :
  (∀ o f, is_read o = true → faults env o f → f = NoFault) →
  rep s d → confirmed d (active d) = true → tidy d → at_rest st →
  rtc (pstep (Sem0 := job_sem env)) (runUpgrade a spec gen, (st, s))
    (Act (AKube (KDo rq) : act agS) k, w) →
  Payload rq = Some dev →
  same_object parse o dev → NoDup (Type' <$> Conditions (Status dev)) →
  ApiTypes.TargetVersion (ApiTypes.RSpec ro) = DesiredFirmwareVersion spec →
  (w.1 = st ∧ ¬ DeviceStatus.upgrade_over o ∧
   (ApiTypes.Phase (ApiTypes.Status o) ≠ ApiTypes.PhaseDegraded → RolloutController.deviceFailed o = false)) ∨
  (w.1 = StateFailed ∧ RolloutController.deviceFailed o = true ∧
   ∀ T t, ApiTypes.LastHeartbeat (ApiTypes.Status o) ≠ None →
     (DeviceStatus.verdict T o t).1.1 = ApiTypes.PhaseDegraded) ∨
  (w.1 = StateIdle ∧ RolloutSpec.reached ro o ∧ ¬ DeviceStatus.upgrade_over o ∧
   ∃ d', rep w.2 d' ∧ installed d d' (DesiredFirmwareVersion spec) (ChecksumSHA256 spec) ∧
         ApiTypes.ActiveSlot (ApiTypes.Status o) = slot_name (active d')).
Proof.
  intros HP Hs Hc Ht Hst Hsteps Hrq Ho Hnd Hro.
  pose proof (jeach_runUpgrade a env HP spec st d gen (conj Hc Ht) Hst s Hs) as He.
  destruct (each_steps _ _ _ _ _ _ He Hsteps dev Hrq) as (c' & Hc' & Hnews).
  destruct (same_find _ _ _ _ (same_conditions _ _ _ Ho) Hnd Hc') as (c & Hf & Hcc).
  assert (Hfail : ∀ b, bool_decide (ApiTypes.Status' c = ApiTypes.ConditionFalse ∧
    ApiTypes.Reason c ≠ "UpgradeInProgress") = b →
    DeviceController.upgrade_failed (ApiTypes.Conditions (ApiTypes.Status o)) = b ∧
    (ApiTypes.Phase (ApiTypes.Status o) ≠ ApiTypes.PhaseDegraded ∨ b = true →
     RolloutController.deviceFailed o = b)).
  { intros b Hb. unfold DeviceController.upgrade_failed, RolloutController.deviceFailed.
    change ApiTypes.ConditionFirmwareSynced with CondFirmwareSynced. rewrite Hf, Hb.
    split; [done|]. intros Hor. destruct (decide _) as [Hp|Hp]; [|done]. by destruct Hor as [?| ->]. }
  rewrite (same_status _ _ Hcc), (same_reason _ _ Hcc) in Hfail.
  destruct Hnews as [[[Hfa Hr] Hw]|[[[Hfa Hr] Hw]|(Htr & Hw & Hv & d' & Hd' & Hi & Hsl)]].
  - left. destruct (Hfail false) as [Hu Hd]; [by apply bool_decide_eq_false_2; intros [_ ?]|].
    split; [done|]. split; [|auto]. intros Hov%DeviceStatus.upgrade_failed_spec. congruence.
  - right; left. destruct (Hfail true) as [Hu Hd]; [by apply bool_decide_eq_true_2|].
    split_and!; [done|auto|]. intros T t Hhb. unfold DeviceStatus.verdict.
    destruct (ApiTypes.LastHeartbeat (ApiTypes.Status o)); [|done].
    case_match; [done|]. cbn. unfold DeviceController.live_phase. by rewrite Hu.
  - right; right. destruct (Hfail false) as [Hu _].
    { apply bool_decide_eq_false_2. rewrite Htr. by intros [? _]. }
    split_and!; [done| | |].
    + unfold RolloutSpec.reached. by rewrite (same_version _ _ _ Ho), Hro.
    + intros Hov%DeviceStatus.upgrade_failed_spec. congruence.
    + exists d'. by rewrite (same_slot _ _ _ Ho).
Qed.

Lemma upgrade_reported_truthfully_witness :
  let H1 := ApiTypes.plain_conditions in
  match report_of last_report.1 with
  | Some dev => (last_report.2.1 = StateIdle ∧ RolloutSpec.reached to_v2 (decoded dev)) ∧
      ∃ d', rep last_report.2.2 d' ∧ installed factory d' "2.0.0" abc_sum
  | None => False
  end.
Proof.
  intros H1.
  pose proof (drive_steps (Sem0 := job_sem abc_env) api_run
    (runUpgrade demo_agent abc_spec 1) (StateFailed, factory_fs) api_run_handles) as Hs.
  fold last_report in Hs.
  assert (match report_of last_report.1 with
    | Some dev => bool_decide (last_report.2.1 = StateIdle ∧ NoDup (Type' <$> Conditions (Status dev)) ∧
        RolloutController.deviceFailed (decoded dev) = false ∧
        CurrentFirmwareVersion (Status dev) = "2.0.0" ∧
        last_report.2.2 !! currentPath = Some (Link "slotB"))
    | None => false end = true) as Hok by (vm_compute; reflexivity).
  destruct last_report as [p w]. cbn [fst snd] in *.
  destruct p as [|[|[|rq|]| | | |] k]; try done. cbn [report_of] in *.
  destruct (Payload rq) as [dev|] eqn:Hrq; [|done].
  apply bool_decide_eq_true in Hok as (Hidle & Hnd & Hnf & Hv & Hcur).
  split; [by split|].
  destruct (upgrade_reported_truthfully (HL := ApiTypes.plain_conditions_laws) demo_agent abc_env
    abc_spec 1 StateFailed factory_fs factory rq k w dev (λ _, None) (decoded dev) to_v2)
    as [(Hst & _)|[(Hst & _)|(_ & _ & _ & d' & ? & ? & _)]];
    [done|apply factory_rep|done|apply factory_settled|by right|exact Hs|done|apply decoded_same
    |done|done|..].
  - congruence.
  - congruence.
  - by exists d'.
Defined.
