(* ===== verification/Delivery.v ===== *)
(** * One update, from the release to the fleet

    Everything a device needs to be updated, side by side: the agent's transaction, its
    directory, the firmware server of cmd/firmware-server, and an API server to which
    other clients write meanwhile.  The parts were proved each against what it may
    assume of the others; here the others are there. *)

From S2P Require Import Prelude GoLib Fsm Sha256 Os Download Slot SlotLogic SlotSpec Boot Kube Kubeconfig Agent AgentLogic Upgrade Completion FirstBoot Commands FileServer System.
From S2P Require ApiTypes RolloutSpec Contract.
Open Scope Z_scope.

Implicit Types (s : fs) (d : device).

(** ** The world of one update *)

(** The job's machine and directory, and the API server with the writes other clients
    have left to make. *)
Definition site : Type := State * fs * contended.

(** The API server answers the agent's requests; between any two operations the other
    clients may write. *)
Definition site_sem (env : dl_env) : Sem agS site :=
  λ o w r w',
    match o return agres o → Prop with
    | AKube o => λ r, contended_sem o w.2 r w'.2 ∧ w'.1 = w.1
    | o => λ r, job_sem env o w.1 r w'.1 ∧ meddle w.2 w'.2
    end r.

Section site.
Context (env : dl_env).
Local Instance ssem : Sem agS site := site_sem env.

(** What it is for the job, and what it is for the client. *)
Lemma site_job (o : act agS) (w : site) r w' : site_sem env o w r w' → job_sem env o w.1 r w'.1.
Proof. destruct o; [by intros []|by intros [_ ?]|by intros []..]. Qed.

Lemma site_api (o : act kubeS) (w : site) r w' :
  site_sem env (inj o) w r w' → contended_sem o w.2 (back o r) w'.2.
Proof. by intros []. Qed.

Lemma site_writes_left (o : act agS) (w : site) r w' : site_sem env o w r w' → (w'.2.2 ≤ w.2.2)%nat.
Proof.
  assert (∀ x y, meddle x y → (y.2 ≤ x.2)%nat) as Hm by (intros x y [->|[_ ?]]; lia).
  destruct o as [|o| | | |]; try by intros [_ ?%Hm].
  intros [H _]. destruct o; [destruct H as [_ ?]; by apply Hm|destruct H as (s1 & ?%Hm & _ & ->); lia|by apply Hm].
Qed.

Lemma site_budget {A} (p : prog agS A) (n : nat) (w : site) :
  (w.2.2 < n)%nat → wpi p (λ w', (w'.2.2 < n)%nat) (λ _ w', (w'.2.2 < n)%nat) w.
Proof.
  revert w. induction p as [x|o k IH]; intros w Hw; [done|]. split; [done|].
  intros r w' Hs%site_writes_left. apply IH. lia.
Qed.

(** Thinking: no request is sent. *)
Definition thinks (o : act agS) : Prop :=
  match o with AMem LoadGen | AKube KNow => True | _ => False end.

Lemma thinking_site {A} (p : prog agS A) (w : site) :
  calls_only thinks p → wp p (λ _ w', meddle w.2 w'.2) w.
Proof.
  intros Hp. enough (∀ w0 : site, meddle w0.2 w.2 → wp p (λ _ w', meddle w0.2 w'.2) w) as H
    by by apply H; left.
  intros w0. revert w. induction p as [x|o k IH]; intros w Hw; [done|]. destruct Hp as [Ho Hk].
  split; [done|]. intros r w' Hs. apply IH; [done|]. etrans; [done|].
  destruct o as [|[]|[]| | |]; try done; by destruct Hs.
Qed.

(** A report arrives, and what is stored is what the mutation made of what was. *)
Lemma report_arrives a mutate (w : site) :
  (∀ st gen, calls_only thinks (mutate st gen)) → (w.2.2 < 5)%nat →
  wp (reportStatus a mutate) (λ _ w', w'.1 = w.1 ∧
    ∃ dev dev', may_return (mutation mutate dev) dev' ∧ Status w'.2.1.2 = Status dev') w.
Proof.
  intros Hm Hw. eapply wpi_mono; [apply wpi_conj|by intros ? [? _]|by intros r w' _ H; exact H].
  - assert (wp (Sem0 := job_sem env) (reportStatus a mutate) (λ _ w', w' = w.1) w.1) as Hq.
    { eapply wpi_mono; [apply Contract.quiet_wp, reportStatus_calls; [done|done|]|done|by intros ? ? _ []].
      intros st gen. eapply calls_only_mono; [|apply Hm]. by intros [|[]|[]| | |]. }
    exact (wpi_project (job_sem env) (site_sem env) fst _ _ _ w site_job Hq).
  - apply wpi_bind. eapply wpi_mono; [|done|].
    + apply (contended_loop (W := site) snd site_api (kube a) (mutation mutate)
        (λ dev dev', may_return (mutation mutate dev) dev')); [|done].
      intros dev w1. eapply wpi_mono; [apply wpi_conj; [apply thinking_site|apply wp_may_return]|done|].
      * apply calls_only_bind; [done|]. intros gen. by apply calls_only_bind; [apply Hm|].
      * intros dev' w2 _ [Hd Hr]. split_and!; [done| |done].
        apply may_return_bind in Hr as (gen & _ & Hr). by apply may_return_bind in Hr as (st & _ & <-).
    + intros r w' _ (dev & dev' & Hr & _ & Hst). split; [done|]. by exists dev, dev'.
Qed.
End site.

(** ** The update *)

Section update.
Context (multipart : string → list (Z * Z) → string) (dirList : list string → string).
Context (url_path : string → string) (ResolveReference : string → string → string).
Context (a : agent) (spec : DeviceSpec) (gen : Z).
Let opts := withDefaults (CfgDownload (cfg a)).

(** A release: the image is among the files of the firmware server, the object names
    its URL and its digest, the device can fetch it over its own network, and nothing
    fails meanwhile. *)
Record released (images : fs) (f : ServerFlags) (img : string) (env : dl_env) : Prop := {
    faultless_directory : faults env = fault_free;
    stays_up : ¬ cancel env;
    parsed_url : valid_url env (FirmwareURL spec) = true;
    from_server : server env =
      over_lan url_path ResolveReference (firmware_main multipart dirList images f);
    among_images : names_image images (flag_dir f) (url_path (FirmwareURL spec)) img;
    image_size : str_len img < 2 ^ 63;
    image_digest : sha256hex img = ChecksumSHA256 spec;
    two_attempts : 2 ≤ MaxAttempts opts;
    sane_options : sane opts;
  }.

(** What the API server holds of a device that runs the release from [d']. *)
Definition told (api : contended) d' : Prop :=
  let status := Status (fake_stored api.1) in
  CurrentFirmwareVersion status = DesiredFirmwareVersion spec ∧
  ActiveSlot status = slot_name (active d') ∧
  ∃ c, find_condition (Conditions status) CondFirmwareSynced = Some c ∧
       Status' c = CondTrue ∧ Reason c = "Synced".

Section released.
Context (images : fs) (f : ServerFlags) (img : string) (env : dl_env).
Context (H : released images f img env).
Local Instance usem : Sem agS site := site_sem env.

Lemma site_answers (o : act agS) (w : site) : calm o → ∃ r w', site_sem env o w r w'.
Proof.
  destruct w as [[st s] api]. intros Ho. destruct o as [o|o|o| | |]; cbn.
  - destruct o as [o|url|url range|n|t|msg]; cbn.
    + destruct (fs_exec NoFault o s) as [r s'] eqn:E. exists r, (st, s', api). cbn.
      split; [|by left]. split; [|done]. exists NoFault. split; [|done].
      by rewrite (faultless_directory _ _ _ _ H).
    + exists (if valid_url env url then None else Some offline), (st, s, api).
      split; [|by left]. split; [|done]. split; [|done]. by destruct (valid_url env url).
    + eexists _, (st, s, api). split; [|by left]. split; [|done]. split; [|done].
      by rewrite (from_server _ _ _ _ H).
    + exists 0, (st, s, api). split; [|by left]. split; [|done]. split; [cbn in Ho; lia|done].
    + exists None, (st, s, api). split; [|by left]. split; [|done]. by split.
    + done.
  - destruct o as [m u|rq|]; cbn.
    + exists None, (st, s, api). split; [|done]. split; [done|by left].
    + destruct (handler api.1 rq) as [rp api'] eqn:E. exists rp, (st, s, (api', api.2)).
      split; [|done]. exists api. split; [by left|]. by rewrite E.
    + exists "", (st, s, api). split; [|done]. by left.
  - destruct o as [| | |b| |key|g| |next]; cbn;
      try (exists inhabitant, (st, s, api); (split; [done|by left])).
    destruct (To (mkFSM st None) next tt) as [[e m] l] eqn:E. exists e, (state m, s, api).
    split; [done|by left].
  - exists tt, (st, s, api). split; [done|by left].
  - exists false, (st, s, api). split; [done|by left].
  - exists false, (st, s, api). split; [done|by left].
Qed.

(** The last report tells what was done. *)
Lemma told_upgraded dev dev' (api : contended) d' :
  may_return (mutation (mark_upgraded (DesiredFirmwareVersion spec) (slot_name (active d'))) dev) dev' →
  Status api.1.2 = Status dev' → told api d'.
Proof.
  intros Hr Hst.
  destruct (Contract.reported CondTrue "Synced" _
    (λ st, set_firmware st (DesiredFirmwareVersion spec) (slot_name (active d'))) dev dev' Hr)
    as (c & Hc & ? & ? & Hv & Hs).
  unfold told. cbn in Hc |- *. rewrite Hst. split_and!; [exact Hv|exact Hs|]. by exists c.
Qed.

Lemma wpi_delivers st s d (api : contended) :
  rep s d → settled d → at_rest st → leftover d (staging_name (ChecksumSHA256 spec)) img →
  (api.2 < 5)%nat →
  wp (runUpgrade a spec gen) (λ _ w', ∃ d', rep w'.1.2 d' ∧ done_from spec img d tt w'.1.1 d' ∧
    told w'.2 d') (st, s, api).
Proof.
  intros Hs Hd Hst Hleft Hb. destruct H.
  destruct (lan_prompt multipart dirList url_path ResolveReference images f (FirmwareURL spec) img
    among_images0 image_size0 env from_server0) as [Hprompt Hhonest].
  apply wpi_runUpgrade.
  eapply wpi_mono; [apply wpi_conj; [by apply (report_arrives env a _ (st, s, api))|
    by apply (site_budget env _ 5)]|done|].
  intros [] [[st1 s1] api1] _ [(E & _) Hb1]. cbn in E, Hb1. injection E as -> ->.
  assert (wp (Sem0 := job_sem env) (transaction a spec)
    (λ slot w', ∃ d', rep w'.2 d' ∧ found spec img d slot w'.1 d') (st, s)) as Ht.
  { eapply wpi_mono; [by eapply (jwp_transaction a env spec img)|done|done]. }
  eapply wpi_mono; [apply wpi_conj; [|by apply (site_budget env _ 5)]|done|].
  { exact (wpi_project (job_sem env) (site_sem env) fst _ _ _ (st, s, api1) (site_job env) Ht). }
  intros slot [[st2 s2] api2] _ [(d2 & Hs2 & -> & Hdone) Hb2]. cbn in Hs2, Hdone, Hb2.
  eapply wpi_mono; [by apply (report_arrives env a _ (st2, s2, api2))|done|].
  intros [] [[st3 s3] api3] _ (E & dev & dev' & Hr & Hst3). cbn in E. injection E as -> ->.
  exists d2. split; [done|]. split; [done|by eapply told_upgraded].
Qed.
End released.
End update.

(** ** A run of it *)

(** The images "abc" among the files served, the device's object, and one write of a
    controller still to come. *)
Definition demo_images : fs := {[ ["abc.bin"] := File "abc" ]}.
Definition demo_path (url : string) : string := TrimPrefix url "http://fw".
Definition demo_lan : http_server :=
  over_lan demo_path (λ u _, u)
    (firmware_main (λ _ _, "") (λ _, "") demo_images server_flags).
Definition demo_env : dl_env := Build_dl_env fault_free demo_lan (λ _, true) False.

Definition abc_device : Device :=
  mkDevice "" "" (mkObjectMeta "edge-001" "default" "" 1 "uid-1") abc_spec
    (mkDeviceStatus "Ready" [] "1.0.0" "slotA" "" 0).
Definition upgrading_device : Device :=
  with_status abc_device (mkDeviceStatus "Upgrading" [] "1.0.0" "slotA" "" 0).

(** The controller writes the phase between the agent's first read and its write. *)
Definition site_run (o : act agS) (w : site) : option (res o * site) :=
  match o return option (agres o * site) with
  | ADl (HttpDo url range) =>
      Some (fetch demo_path (λ u _, u)
        (firmware_main (λ _ _, "") (λ _, "") demo_images server_flags) 9 url (default "" range), w)
  | AKube (KNewRequest m _) =>
      Some (None, if decide (m = "PUT" ∧ w.2 = ((1%nat, abc_device), 1%nat))
                  then (w.1, ((2%nat, upgrading_device), 0%nat)) else w)
  | AKube (KDo rq) => let (rp, api) := handler w.2.1 rq in Some (rp, (w.1, (api, w.2.2)))
  | AKube KNow => Some ("2026-01-01T00:00:00Z", w)
  | o => match job_run o w.1 with Some (r, w') => Some (r, (w', w.2)) | None => None end
  end.

Lemma site_run_handles : handles (Sem0 := site_sem demo_env) site_run.
Proof.
  intros o [[st s] api] r w' H.
  assert (Hj : ∀ (o : act agS) r w',
    match job_run o (st, s) with Some (r, w1) => Some (r, (w1, api)) | None => None end = Some (r, w') →
    match o with ADl (HttpDo _ _) => False | _ => True end →
    job_sem demo_env o (st, s) r w'.1 ∧ meddle api w'.2).
  { clear. intros o r w' Hr Ho. destruct (job_run o (st, s)) as [[r1 w1]|] eqn:E; [|done].
    injection Hr as -> <-. apply job_run_handles in E. split; [|by left].
    by destruct o as [[]|[]|[]| | |]. }
  destruct o as [o|[m u|rq|]|o| | |]; try by apply Hj.
  - destruct o; try by apply Hj. injection H as <- <-. split; [done|by left].
  - injection H as <- <-. split; [|by case_decide]. split; [done|].
    case_decide as Hd; [|by left]. destruct Hd as [_ Hd]. cbn in Hd. subst api. right. cbn. lia.
  - cbn in H. destruct (handler api.1 rq) as [rp api'] eqn:E. injection H as <- <-. split; [|done].
    exists api. split; [by left|]. by rewrite E.
  - injection H as <- <-. split; [|done]. by left.
Qed.

Definition delivered_site : site :=
  match run site_run (runUpgrade demo_agent abc_spec 1) (StateIdle, factory_fs, ((1%nat, abc_device), 1%nat)) with
  | Some (_, w) => w
  | None => (StateIdle, ∅, ((0%nat, abc_device), 0%nat))
  end.

Lemma demo_delivery :
  run site_run (runUpgrade demo_agent abc_spec 1)
    (StateIdle, factory_fs, ((1%nat, abc_device), 1%nat)) = Some (tt, delivered_site).
Proof. apply (bool_decide_unpack _). vm_compute. exact I. Qed.

Lemma demo_names_image :
  names_image demo_images (flag_dir server_flags) (demo_path (FirmwareURL abc_spec)) "abc".
Proof.
  exists ["abc.bin"]. split_and!; [done| |reflexivity..].
  apply Forall_singleton. split; [|done]. apply (bool_decide_unpack _). vm_compute. exact I.
Qed.

Lemma demo_released :
  released (λ _ _, "") (λ _, "") demo_path (λ u _, u) demo_agent abc_spec demo_images server_flags
    "abc" demo_env.
Proof.
  split; [reflexivity|by intros []|reflexivity|reflexivity|apply demo_names_image|reflexivity
    |vm_compute; reflexivity|by apply Z.leb_le|apply defaults_sane].
Qed.

(** ** Properties *)

(** C4. From the release to the fleet.  An image lies among the files of the firmware
    server, an object names its URL and its digest, and the device is settled, with at
    most a beginning of the image left from before.  Over a link that does not fail, and
    with other clients writing to the object fewer than five times in all, at any
    moments, [runUpgrade] never gets stuck, so it ends; and when it has ended, the
    machine is in [Idle], the device runs exactly that image from the other slot,
    confirmed, and the object at the API server says so: the new version, the slot, and
    FirmwareSynced, so that the rollout reconciler counts the device as updated. *)
Theorem update_delivered multipart dirList url_path ResolveReference a spec gen
    images f img env st s d api p' st' s' api' :
  released multipart dirList url_path ResolveReference a spec images f img env →
  rep s d → confirmed d (active d) = true → tidy d → at_rest st →
  leftover d (staging_name (ChecksumSHA256 spec)) img → (api.2 < 5)%nat →
  rtc (pstep (Sem0 := site_sem env)) (runUpgrade a spec gen, (st, s, api)) (p', (st', s', api')) →
  (∃ c, pstep (Sem0 := site_sem env) (p', (st', s', api')) c) ∨
  (p' = Ret tt ∧ st' = StateIdle ∧ ∃ d', rep s' d' ∧
     installed d d' (DesiredFirmwareVersion spec) (ChecksumSHA256 spec) ∧
     slots d' (active d') !! firmwareFile = Some img ∧ told spec api' d' ∧
     ∀ parse o ro, Contract.same_object parse o (fake_stored api'.1) →
       ApiTypes.TargetVersion (ApiTypes.RSpec ro) = DesiredFirmwareVersion spec →
       RolloutSpec.reached ro o).
Proof.
  intros H Hs Hc Ht Hst Hleft Hb Hsteps.
  assert (calls_only calm (runUpgrade a spec gen)) as Hcalm.
  { apply calm_upgrade; [|apply H]. erewrite <-image_digest, length_sha256hex by exact H. lia. }
  destruct (calls_only_progress (Sem0 := site_sem env) calm (runUpgrade a spec gen) p'
    (st, s, api) (st', s', api')) as [[[] ->]|Hnext]; [|done|done|right|by left].
  { intros o w. by eapply site_answers. }
  split; [done|].
  destruct (wpi_result _ _ _ _ _ _ (wpi_delivers _ _ _ _ a spec gen images f img env H st s d api
    Hs (conj Hc Ht) Hst Hleft Hb) Hsteps) as (d' & Hr & (Hi & Hin & Himg) & Htold).
  split; [exact Hi|]. exists d'. split_and!; [done|done|done|done|].
  intros parse o ro Ho Hro. unfold RolloutSpec.reached.
  rewrite (Contract.same_version _ _ _ Ho), Hro. apply Htold.
Qed.

Lemma update_delivered_witness :
  CurrentFirmwareVersion (Status delivered_site.2.1.2) = "2.0.0" ∧
  Phase (Status delivered_site.2.1.2) = "Upgrading" ∧
  ∃ d', rep delivered_site.1.2 d' ∧ installed factory d' "2.0.0" abc_sum ∧
    slots d' (active d') !! firmwareFile = Some "abc" ∧ told abc_spec delivered_site.2 d'.
Proof.
  pose proof demo_delivery as Hrun.
  split; [vm_compute; reflexivity|]. split; [vm_compute; reflexivity|].
  destruct delivered_site as [[st s] api].
  destruct (update_delivered (λ _ _, "") (λ _, "") demo_path (λ u _, u) demo_agent abc_spec 1
    demo_images server_flags "abc" demo_env StateIdle factory_fs factory
    ((1%nat, abc_device), 1%nat) (Ret tt) st s api)
    as [[c Hstep]|(_ & _ & d' & H1 & H2 & H3 & H4 & _)].
  - apply demo_released.
  - apply factory_rep.
  - done.
  - apply factory_settled.
  - by left.
  - by left.
  - cbn. lia.
  - apply (run_steps site_run _ _ _ _ site_run_handles Hrun).
  - by destruct Hstep.
  - exists d'. exact (conj H1 (conj H2 (conj H3 H4))).
Defined.
