(* ===== verification/Schema.v ===== *)
(** * The schema of what the controllers write

    Every object a reconciler sends passes the validation of its CRD (Crd.v), if what
    it read did, and differs from the object it read only in the fields that controller
    owns. *)

From S2P Require Import Prelude GoLib Sha256 ApiTypes Crd DeviceController DeviceLife RolloutController RolloutSpec RolloutPlan RolloutFleet Rollout.
Open Scope Z_scope.

(** What the API server has stored: valid, with a generation that is an int64. *)
Definition stored_device (d : EdgeDevice) : Prop :=
  device_valid d = true ∧ 0 ≤ Generation (Meta d) ≤ MaxInt64.
Definition stored_rollout (ro : FleetRollout) : Prop :=
  rollout_valid ro = true ∧ 0 ≤ Generation (RMeta ro) ≤ MaxInt64.

(** ** The device reconciler *)

(** A device update touches the finalizers only, a status update the phase and the
    Healthy condition only; both are valid. *)
Definition device_write `{!ConditionHelpers} (d : EdgeDevice) (o : devop) : Prop :=
  match o with
  | CUpdate d' => (∃ fs, d' = with_own_finalizers d fs) ∧ device_valid d' = true
  | CStatusUpdate d' => device_valid d' = true ∧ ∃ phase cs,
      d' = with_status d (mkEdgeDeviceStatus phase cs (CurrentFirmwareVersion (Status d))
             (ActiveSlot (Status d)) (LastHeartbeat (Status d)) (ObservedGeneration (Status d))) ∧
      phase ∈ DevicePhases ∧
      ∀ ty, ty ≠ ConditionHealthy →
        FindStatusCondition cs ty = FindStatusCondition (Conditions (Status d)) ty
  | _ => True
  end.

Section device.
Context {E : Type} `{HE : !ApiErrors E} `{HC : !ConditionHelpers, HCL : !ConditionLaws HC}.
Context `{HF : !FinalizerHelpers} (d : EdgeDevice) (Hd : stored_device d).

(** The pass reads [d]; everything else is answered anyhow. *)
Definition given : Sem (devS E) unit :=
  λ o _ r _, match o return devres E o → Prop with CGet _ _ => λ r, r = Ok d | _ => λ _, True end r.
Local Instance gsem : Sem (devS E) unit := given.

Definition fine_status (st : EdgeDeviceStatus) : Prop :=
  Phase st ∈ DevicePhases ∧ conditions_valid (Conditions st) = true ∧
  ∀ ty, ty ≠ ConditionHealthy →
    FindStatusCondition (Conditions st) ty = FindStatusCondition (Conditions (Status d)) ty.

Lemma given_call o (Q : devres E o → unit → Prop) w :
  (∀ r w', sem (o : act (devS E)) w r w' → Q r w') → wp (call o) Q w.
Proof. intros HQ. split; [done|]. intros r w' Hs. split; [done|]. by apply HQ. Qed.

Lemma stored_parts :
  device_spec_valid (Spec d) = true ∧ conditions_valid (Conditions (Status d)) = true ∧
  int_fits 64 (ObservedGeneration (Status d)) = true.
Proof.
  destruct Hd as [Hv _]. unfold device_valid, device_status_valid in Hv.
  rewrite !andb_true_iff in Hv. tauto.
Qed.

Lemma status_update_valid phase cs :
  phase ∈ DevicePhases → conditions_valid cs = true →
  device_valid (with_status d (mkEdgeDeviceStatus phase cs (CurrentFirmwareVersion (Status d))
    (ActiveSlot (Status d)) (LastHeartbeat (Status d)) (ObservedGeneration (Status d)))) = true.
Proof.
  intros Hph Hcs. destruct stored_parts as (Hs & _ & Hg).
  unfold device_valid, device_status_valid. cbn. rewrite Hs, Hcs, Hg.
  rewrite bool_decide_eq_true_2 by by right. done.
Qed.

(** The Healthy condition is valid whichever case filled it in. *)
Lemma healthy_valid status reason msg :
  status ∈ [ConditionTrue; ConditionFalse; ConditionUnknown] →
  matches reason_pattern reason = true → 1 ≤ characters reason ≤ 1024 → characters msg ≤ 32768 →
  condition_valid (healthy d status reason msg) = true.
Proof.
  intros Hst Hre Hrl Hml. destruct Hd as [_ Hg]. unfold condition_valid, healthy. cbn [Type' Status' Reason Message ObservedGeneration'].
  rewrite Hre, (bool_decide_eq_true_2 _ Hst). rewrite !andb_true_iff, !Z.leb_le.
  split_and!; try done; try lia.
Qed.

Lemma timeout_message_valid T :
  MinInt64 ≤ T ≤ MaxInt64 →
  characters ("no heartbeat for more than " +:+ Duration_text (effective_timeout T)) ≤ 32768.
Proof.
  intros HT. etrans; [apply characters_bounds|]. rewrite length_app_str.
  assert (MinInt64 ≤ effective_timeout T ≤ MaxInt64) as Ht
    by (unfold effective_timeout; case_match; [by vm_compute|done]).
  apply Duration_text_length in Ht. change (String.length "no heartbeat for more than ") with 27%nat. lia.
Qed.

Lemma projectStatus_fine T w :
  MinInt64 ≤ T ≤ MaxInt64 →
  wp (projectStatus T d) (λ p _, fine_status p.1) w ∧
  each (λ o _, device_write d o) (projectStatus T d) w.
Proof.
  intros HT. assert (∀ ph status reason msg rq w, ph ∈ DevicePhases →
    condition_valid (healthy d status reason msg) = true →
    wp (project d ph (healthy d status reason msg) rq) (λ p _, fine_status p.1) w ∧
    each (λ o _, device_write d o) (project d ph (healthy d status reason msg) rq) w) as Hp.
  { intros ph status reason msg rq w1 Hph Hc. split; [|done]. apply wpi_bind, given_call. intros now w' _.
    split; [done|]. split; [done|]. split; [apply set_valid; [apply stored_parts|done]|].
    intros ty Hty. by apply set_other. }
  assert (live_phase d ∈ DevicePhases) as Hlive.
  { unfold live_phase. case_match; [|case_decide]; apply (bool_decide_unpack _); vm_compute; exact I. }
  assert (PhaseProvisioning ∈ DevicePhases ∧ PhaseDegraded ∈ DevicePhases) as [? ?]
    by (split; apply (bool_decide_unpack _); vm_compute; exact I).
  assert (condition_valid (healthy d ConditionUnknown "AwaitingFirstHeartbeat"
      "device has not reported in yet") = true ∧
    condition_valid (healthy d ConditionFalse "HeartbeatTimeout"
      ("no heartbeat for more than " +:+ Duration_text (effective_timeout T))) = true ∧
    condition_valid (healthy d ConditionTrue "HeartbeatFresh" "agent is reporting") = true) as (? & ? & ?).
  { split_and!.
    - apply healthy_valid; [by do 2 right; left|by vm_compute..].
    - apply healthy_valid; [by right; left|by vm_compute|by vm_compute|by apply timeout_message_valid].
    - apply healthy_valid; [by left|by vm_compute..]. }
  unfold projectStatus. destruct (LastHeartbeat _); [|by apply Hp]. split.
  - apply wpi_bind, given_call. intros t w1 _. case_match; [by apply Hp|].
    apply wpi_bind, given_call. intros t2 w2 _. by apply Hp.
  - split; [done|]. intros t w1 _. cbn [bind]. case_match; [by apply Hp|].
    split; [done|]. intros t2 w2 _. by apply Hp.
Qed.

Lemma credential_calls_fine :
  calls_only (λ o : act (devS E), device_write d o) (ensureCredentialSecret (E := E) d).
Proof.
  unfold ensureCredentialSecret, newToken. split; [done|]. intros [s|e]; cbn [bind].
  - case_match; [done|]. destruct (SAnnotations s); [|by split].
    split; [done|]. intros tok. by split.
  - case_match; [|done]. split; [done|]. intros tok. split; [done|]. by intros [e'|].
Qed.

Lemma pass_writes_fine T ns name w :
  MinInt64 ≤ T ≤ MaxInt64 →
  each (λ o _, device_write d o) (DeviceController.Reconcile (E := E) T ns name) w.
Proof.
  intros Hk. unfold DeviceController.Reconcile. split; [done|]. intros r w1 ->. cbn [bind].
  case_match; [|case_match].
  - unfold finalize. case_match; [|done]. split; [done|]. intros e w2 _. cbn [bind].
    destruct (IgnoreNotFound e); [done|]. split; [split; [by eexists|apply Hd]|]. by intros [e'|] w3 _.
  - split; [split; [by eexists|apply Hd]|]. by intros [e|] w2 _.
  - unfold observe. apply each_bind; [apply each_calls_only;
      eapply calls_only_mono; [|apply credential_calls_fine]; auto|].
    eapply wpi_mono; [apply wpi_true|done|].
    intros [e|] w2 _ _; [done|]. destruct (projectStatus_fine T w2 Hk) as [Hp He].
    apply each_bind; [done|]. eapply wpi_mono; [exact Hp|done|]. intros [st rq] w3 _ (H1 & H2 & H3).
    case_match; [done|]. split; [|by intros [e|] w4 _].
    split; [by apply status_update_valid|by eexists _, _].
Qed.
End device.

(** ** The rollout reconciler *)

(** A device update pauses a device of the list or retargets it, a status update
    changes the counters, the phase and the breaker condition of the same rollout;
    both are valid. *)
Definition rollout_write `{!ConditionHelpers} (ro : FleetRollout) (items : list EdgeDevice)
    (o : rolop) : Prop :=
  match o with
  | RUpdate d' => device_valid d' = true ∧ ∃ d, d ∈ items ∧ RolloutPaused (Spec d) = false ∧
      (d' = set_paused d ∨ d' = retarget ro d)
  | RStatusUpdate ro' => rollout_valid ro' = true ∧
      ∃ st, ro' = mkFleetRollout (RMeta ro) (RSpec ro) st ∧ RPhase st ∈ RolloutPhases ∧
      ∀ ty, ty ≠ ConditionBreakerTripped →
        FindStatusCondition (RConditions st) ty = FindStatusCondition (RConditions (RStatus ro)) ty
  | _ => True
  end.

Section rollout.
Context {E : Type} `{HE : !ApiErrors E} `{HC : !ConditionHelpers, HCL : !ConditionLaws HC}.
Context `{HS : !SliceSort, HSL : !SliceSortLaws HS} (ro : FleetRollout) (Hro : stored_rollout ro).

Definition fine (items : list EdgeDevice) (o : act (rolS E)) : Prop := rollout_write ro items o.

Lemma count_device_fits t d :
  fits 32 (targeted t) → fits 32 (succeeded t) → fits 32 (failed t) →
  let t' := count_device ro t d in fits 32 (targeted t') ∧ fits 32 (succeeded t') ∧ fits 32 (failed t').
Proof.
  intros Ht Hs Hf. pose proof (λ z, wrap_fits 32 z ltac:(done)) as Hw. unfold count_device.
  repeat case_match; split_and!; simpl; try done; apply Hw.
Qed.

(** Whatever their number, the counters stay 32-bit integers, and the waiting devices
    come from the list. *)
Lemma count_fits items :
  let t := count ro items in
  (fits 32 (targeted t) ∧ fits 32 (succeeded t) ∧ fits 32 (failed t)) ∧
  ∀ d, d ∈ untargeted t → d ∈ items.
Proof.
  induction items as [|d items IH] using rev_ind.
  - split; [by vm_compute|]. by intros d ?%not_elem_of_nil.
  - cbn zeta. rewrite count_snoc. destruct IH as [(Ht & Hs & Hf) Hu]. split; [exact (count_device_fits _ _ Ht Hs Hf)|].
    intros x Hx. apply elem_of_app. rewrite list_elem_of_singleton. revert Hx. unfold count_device.
    repeat case_match; simpl; [auto| |auto..].
    rewrite elem_of_app, list_elem_of_singleton. intros [?|?]; auto.
Qed.

Lemma retarget_valid d : device_valid d = true → device_valid (retarget ro d) = true.
Proof.
  destruct Hro as [Hv _]. unfold rollout_valid, rollout_spec_valid, device_valid, device_spec_valid in *.
  rewrite !andb_true_iff in *. unfold retarget. cbn. tauto.
Qed.

Lemma breaker_valid b : condition_valid (breaker_condition ro b) = true.
Proof.
  destruct Hro as [_ Hg]. unfold condition_valid, breaker_condition.
  destruct b; cbn [Type' Status' Reason Message ObservedGeneration']; rewrite !andb_true_iff, !Z.leb_le;
    (split_and!; try lia; by vm_compute).
Qed.

Lemma rollout_status_update_valid now phase n tgt t :
  phase ∈ RolloutPhases → fits 32 n → fits 32 tgt → fits 32 (succeeded t) → fits 32 (failed t) →
  rollout_valid (mkFleetRollout (RMeta ro) (RSpec ro) (mkFleetRolloutStatus phase n tgt (succeeded t) (failed t)
    (SetStatusCondition now (RConditions (RStatus ro)) (breaker_condition ro (tripped ro t)))
    (Generation (RMeta ro)))) = true.
Proof.
  intros Hph Hn Ht Hs Hf. destruct Hro as [Hv Hg]. unfold rollout_valid, rollout_status_valid in *.
  rewrite !andb_true_iff, !int_fits_spec in *. cbn. rewrite bool_decide_eq_true_2 by by right.
  split_and!; try tauto.
  - apply set_valid; [tauto|apply breaker_valid].
  - unfold fits. assert (MaxInt64 = 2 ^ (64 - 1) - 1) by done. lia.
Qed.

Lemma pause_all_fine items l :
  (∀ d, d ∈ items → device_valid d = true) → (∀ d, d ∈ l → d ∈ items) → calls_only (fine items) (pause_all (E := E) l).
Proof.
  intros Hv. induction l as [|d l IH]; intros Hl; [done|]. cbn [pause_all].
  assert (calls_only (fine items) (pause_all (E := E) l)) by (apply IH; intros; apply Hl; by right).
  destruct (RolloutPaused (Spec d)) eqn:Hp; [done|]. split; [|by intros [e|]].
  split; [apply (Hv d), Hl; by left|]. exists d. split; [apply Hl; by left|]. split; [done|by left].
Qed.

Lemma push_fine items cap t l :
  (∀ d, d ∈ items → device_valid d = true) → (∀ d, d ∈ l → d ∈ items) → calls_only (fine items) (push (E := E) ro cap t l).
Proof.
  intros Hv. revert cap t. induction l as [|d l IH]; intros cap t Hl; cbn [push]; [done|].
  assert (∀ cap t, calls_only (fine items) (push (E := E) ro cap t l)) as Hrest
    by (intros; apply IH; intros; apply Hl; by right).
  case_match; [done|]. destruct (RolloutPaused (Spec d)) eqn:Hp; [done|].
  split; [|intros [e|]; [done|apply Hrest]].
  split; [apply retarget_valid, Hv, Hl; by left|]. exists d. split; [apply Hl; by left|]. split; [done|by right].
Qed.

Lemma write_status_fine items phase n tgt t :
  phase ∈ RolloutPhases →
  fits 32 tgt → fits 32 (succeeded t) → fits 32 (failed t) →
  calls_only (fine items) (write_status (E := E) ro phase n tgt t).
Proof.
  intros Hph Ht Hs Hf. unfold write_status. split; [done|]. intros now. cbn [bind].
  case_match; [done|]. split; [|by intros [e|]].
  split; [apply rollout_status_update_valid; try done; by apply wrap_fits|].
  eexists. split; [done|]. split; [done|].
  intros ty Hty. apply set_other. unfold breaker_condition. by case_match.
Qed.

(** The pass is given [ro] and the list; everything else is answered anyhow. *)
Definition listed (items : list EdgeDevice) : Sem (rolS E) unit :=
  λ o _ r _, match o return rolres E o → Prop with
    | RGet _ _ => λ r, r = Ok ro
    | RList _ _ => λ r, r = Ok items
    | _ => λ _, True
    end r.

Lemma push_fits items cap t l w :
  fits 32 t →
  wp (Sem0 := listed items) (push (E := E) ro cap t l)
     (λ r _, match r with Ok t' => fits 32 t' | Err _ => True end) w.
Proof.
  revert cap t w. induction l as [|d l IH]; intros cap t w Ht; cbn [push]; [done|].
  case_match; [done|]. case_match; [by apply IH|]. split; [done|]. intros [e|] w1 _; [done|].
  apply IH. by apply wrap_fits.
Qed.

Lemma rollout_pass_fine items ns name w :
  (∀ d, d ∈ items → device_valid d = true) →
  each (Sem0 := listed items) (λ o _, rollout_write ro items o) (Reconcile (E := E) ns name) w.
Proof.
  intros Hv. assert (∀ {A} (p : prog (rolS E) A) w, calls_only (fine items) p →
    each (Sem0 := listed items) (λ o _, rollout_write ro items o) p w) as Hany.
  { intros A p w1 Hp. apply each_calls_only. eapply calls_only_mono; [|exact Hp]. auto. }
  unfold Reconcile. split; [done|]. intros r w1 ->. cbn [bind]. split; [done|]. intros r w2 ->. cbn [bind].
  set (l := Slice items name_less). assert (∀ d, d ∈ l → d ∈ items) as Hl by (intros d; unfold l; by rewrite slice_perm).
  destruct (count_fits l) as [(Ht & Hs & Hf) Hu]. unfold advance. cbn zeta.
  assert (∀ ph tgt, ph ∈ RolloutPhases → fits 32 tgt → ∀ w n, each (Sem0 := listed items)
    (λ o _, rollout_write ro items o) (write_status (E := E) ro ph n tgt (count ro l)) w) as Hst.
  { intros. by apply Hany, write_status_fine. }
  case_match; [|case_match].
  - apply each_bind; [by apply Hany, pause_all_fine|]. eapply wpi_mono; [apply wpi_true|done|].
    intros [e|] w3 _ _; [done|]. apply Hst; [by right; left|done].
  - apply Hst; [by do 2 right; left|done].
  - apply each_bind; [apply Hany, push_fine; auto|].
    eapply wpi_mono; [by apply push_fits|done|]. intros [t'|e] w3 _ Ht'; [|done].
    apply Hst; [by left|done].
Qed.
End rollout.

(** C28. Two controllers, two writers.  Let the API server hold objects that pass the
    validation of their CRDs, with generations that are int64.  Whatever the calls
    answer, everything a pass of either reconciler writes passes it again: phases and
    condition statuses of the enums, reasons and types matching their patterns, texts
    within their lengths (the timeout printed in a message included, for any int64
    timeout), counters within int32, conditions unique by type, and a target that
    matches the patterns of a device's spec.  And a device pass updates nothing of the
    device it read but the finalizers, and of its status the phase and the Healthy
    condition; a rollout pass updates only listed, unpaused devices, by their freeze
    flag or their target, and of its status all but the other conditions. *)
Theorem written_objects_admissible {E : Type} `{HE : !ApiErrors E} `{HC : !ConditionHelpers, HCL : !ConditionLaws HC}
    `{HF : !FinalizerHelpers} `{HS : !SliceSort, HSL : !SliceSortLaws HS} d ro items T ns name campaign :
  stored_device d → stored_rollout ro → (∀ d, d ∈ items → device_valid d = true) →
  MinInt64 ≤ T ≤ MaxInt64 →
  each (Sem0 := given (E := E) d) (λ o _, device_write d o)
    (DeviceController.Reconcile (E := E) T ns name) tt ∧
  each (Sem0 := listed (E := E) ro items) (λ o _, rollout_write ro items o)
    (RolloutController.Reconcile (E := E) ns campaign) tt.
Proof.
  intros Hd Hro Hv HT. split; [by apply pass_writes_fine|by apply rollout_pass_fine].
Qed.

(** A device that reported a failure, and a rollout over two such devices. *)
Definition valid_member (name : string) : EdgeDevice :=
  mkEdgeDevice (mkObjectMeta name "default" name "1" 1 None [deviceFinalizer] ∅ None)
    (mkEdgeDeviceSpec "v1" "https://fw/v1.bin" (sha256hex "abc") "" ∅ false)
    (mkEdgeDeviceStatus PhaseReady
       [mkCondition ConditionFirmwareSynced ConditionFalse 1 5 "DownloadFailed" "no route to host"]
       "v0" "A" (Some 0) 1).

Definition valid_rollout : FleetRollout :=
  mkFleetRollout (mkObjectMeta "campaign" "default" "ro-1" "1" 3 None [] ∅ None)
    (mkFleetRolloutSpec {[ "tier" := "edge" ]} "v2" "https://fw/v2.bin" (sha256hex "v2") 1 50)
    (mkFleetRolloutStatus "" 0 0 0 0 [] 0).

Lemma written_objects_admissible_witness :
  let H1 := plain_conditions in let H2 := plain_finalizers in let H3 := merging in
  let items := [valid_member "edge-001"; valid_member "edge-002"] in
  each (Sem0 := given (E := api_error) (valid_member "edge-001")) (λ o _, device_write (valid_member "edge-001") o)
    (DeviceController.Reconcile (E := api_error) (90 * Second) "default" "edge-001") tt ∧
  each (Sem0 := listed (E := api_error) valid_rollout items)
    (λ o _, rollout_write valid_rollout items o)
    (RolloutController.Reconcile (E := api_error) "default" "campaign") tt.
Proof.
  intros H1 H2 H3 items.
  apply (written_objects_admissible (HCL := plain_conditions_laws) (HSL := merging_laws)
    (valid_member "edge-001") valid_rollout items (90 * Second)).
  - split; [by vm_compute|by split].
  - split; [by vm_compute|by split].
  - intros d Hd. unfold items in Hd. rewrite !elem_of_cons in Hd.
    destruct Hd as [->|[->|Hd]]; [by vm_compute..|by apply not_elem_of_nil in Hd].
  - by split.
Defined.
