(* ===== verification/DeepCopy.v ===== *)
(** * api/v1alpha1/zz_generated.deepcopy.go: copies on Go's heap

    The objects of the API as Go has them: structs whose maps, slices and pointers
    are references into a heap of typed cells.  The generated copying methods are
    programs on that heap; the types of package metav1 they copy through are a
    parameter with the promise their own copying methods make.  The rest of the
    development passes these objects by value: the theorems here are why a
    controller may. *)

From S2P Require Import Prelude.

#[local] Set Implicit Arguments.

(** ** Types *)

(** The types of package metav1 the API's structs embed; [Lib] is whatever else
    those types keep on the heap. *)
Class Metav1 := {
    ObjectMeta : Type;
    ListMeta : Type;
    Condition : Type;
    Time : Type;
    Lib : Type;
    zero_ObjectMeta : ObjectMeta;
    zero_ListMeta : ListMeta;
    zero_Condition : Condition;
    zero_Time : Time;
  }.

Abbreviation loc := positive (only parsing).

Inductive pointer (T : Type) := nil_pointer | addr (l : loc).
Arguments nil_pointer {T}.
Arguments addr {T} l.

(** A slice: a window on an array. *)
Inductive slice (T : Type) := nil_slice | window (array : loc) (offset len cap : nat).
Arguments nil_slice {T}.
Arguments window {T} array offset len cap.

Inductive gomap := nil_map | map_at (l : loc).

Record TypeMeta := mkTypeMeta { Kind : string; APIVersion : string }.

(** The structs, over what stands in their reference fields: references in a
    program, their contents in the value the struct denotes.  Where two structs have
    a field of one name, one of them is renamed: [TargetURL] and [TargetChecksum] are
    FleetRolloutSpec's FirmwareURL and ChecksumSHA256, and FleetRolloutStatus's fields
    Phase, Conditions and ObservedGeneration start with [Rollout]. *)
Record EdgeDeviceSpec (L : Type) := mkEdgeDeviceSpec {
    DesiredFirmwareVersion : string;
    FirmwareURL : string;
    ChecksumSHA256 : string;
    Region : string;
    DeviceLabels : L;
    RolloutPaused : bool;
  }.

Record EdgeDeviceStatus (C H : Type) := mkEdgeDeviceStatus {
    Phase : string;
    Conditions : C;
    CurrentFirmwareVersion : string;
    ActiveSlot : string;
    LastHeartbeat : H;
    ObservedGeneration : Z;
  }.

Record FleetRolloutSpec (L : Type) := mkFleetRolloutSpec {
    Selector : L;
    TargetVersion : string;
    TargetURL : string;
    TargetChecksum : string;
    MaxUnavailable : Z;
    FailureThresholdPercent : Z;
  }.

Record FleetRolloutStatus (C : Type) := mkFleetRolloutStatus {
    RolloutPhase : string;
    Selected : Z;
    Targeted : Z;
    Succeeded : Z;
    Failed : Z;
    RolloutConditions : C;
    RolloutObservedGeneration : Z;
  }.

(** EdgeDevice and FleetRollout have the same shape, and so have their lists. *)
Record resource (M S T : Type) := mkResource {
    Types : TypeMeta;
    Meta : M;
    Spec : S;
    Status : T;
  }.

Record resources (M I : Type) := mkResources {
    ListTypes : TypeMeta;
    ListMetadata : M;
    Items : I;
  }.

#[local] Unset Implicit Arguments.

Section heap.
Context `{lib : Metav1}.

Definition DeviceSpec : Type := EdgeDeviceSpec gomap.
Definition DeviceStatus : Type := EdgeDeviceStatus (slice Condition) (pointer Time).
Definition EdgeDevice : Type := resource ObjectMeta DeviceSpec DeviceStatus.
Definition EdgeDeviceList : Type := resources ListMeta (slice EdgeDevice).
Definition RolloutSpec : Type := FleetRolloutSpec gomap.
Definition RolloutStatus : Type := FleetRolloutStatus (slice Condition).
Definition FleetRollout : Type := resource ObjectMeta RolloutSpec RolloutStatus.
Definition FleetRolloutList : Type := resources ListMeta (slice FleetRollout).

(** ** The heap *)

Inductive cell :=
  | CMap (m : gmap string string)
  | CConditions (l : list Condition) | CTime (t : Time)
  | CDevices (l : list EdgeDevice) | CRollouts (l : list FleetRollout)
  | CDevice (d : EdgeDevice) | CDeviceList (d : EdgeDeviceList)
  | CDeviceSpec (s : DeviceSpec) | CDeviceStatus (s : DeviceStatus)
  | CRollout (r : FleetRollout) | CRolloutList (r : FleetRolloutList)
  | CRolloutSpec (s : RolloutSpec) | CRolloutStatus (s : RolloutStatus)
  | CLib (c : Lib).

Abbreviation heap := (gmap loc cell).
Implicit Types (h : heap) (l : loc).

(** How a value is kept in a cell. *)
Class Stored (T : Type) := {
    store : T → cell;
    seen : cell → option T;
    seen_store x : seen (store x) = Some x;
  }.

#[refine] Global Instance map_stored : Stored (gmap string string) :=
  {| store := CMap; seen c := match c with CMap m => Some m | _ => None end |}.
Proof. done. Defined.
#[refine] Global Instance conditions_stored : Stored (list Condition) :=
  {| store := CConditions; seen c := match c with CConditions x => Some x | _ => None end |}.
Proof. done. Defined.
#[refine] Global Instance time_stored : Stored Time :=
  {| store := CTime; seen c := match c with CTime x => Some x | _ => None end |}.
Proof. done. Defined.
#[refine] Global Instance devices_stored : Stored (list EdgeDevice) :=
  {| store := CDevices; seen c := match c with CDevices x => Some x | _ => None end |}.
Proof. done. Defined.
#[refine] Global Instance rollouts_stored : Stored (list FleetRollout) :=
  {| store := CRollouts; seen c := match c with CRollouts x => Some x | _ => None end |}.
Proof. done. Defined.
#[refine] Global Instance device_stored : Stored EdgeDevice :=
  {| store := CDevice; seen c := match c with CDevice x => Some x | _ => None end |}.
Proof. done. Defined.
#[refine] Global Instance device_list_stored : Stored EdgeDeviceList :=
  {| store := CDeviceList; seen c := match c with CDeviceList x => Some x | _ => None end |}.
Proof. done. Defined.
#[refine] Global Instance device_spec_stored : Stored DeviceSpec :=
  {| store := CDeviceSpec; seen c := match c with CDeviceSpec x => Some x | _ => None end |}.
Proof. done. Defined.
#[refine] Global Instance device_status_stored : Stored DeviceStatus :=
  {| store := CDeviceStatus; seen c := match c with CDeviceStatus x => Some x | _ => None end |}.
Proof. done. Defined.
#[refine] Global Instance rollout_stored : Stored FleetRollout :=
  {| store := CRollout; seen c := match c with CRollout x => Some x | _ => None end |}.
Proof. done. Defined.
#[refine] Global Instance rollout_list_stored : Stored FleetRolloutList :=
  {| store := CRolloutList; seen c := match c with CRolloutList x => Some x | _ => None end |}.
Proof. done. Defined.
#[refine] Global Instance rollout_spec_stored : Stored RolloutSpec :=
  {| store := CRolloutSpec; seen c := match c with CRolloutSpec x => Some x | _ => None end |}.
Proof. done. Defined.
#[refine] Global Instance rollout_status_stored : Stored RolloutStatus :=
  {| store := CRolloutStatus; seen c := match c with CRolloutStatus x => Some x | _ => None end |}.
Proof. done. Defined.

(** Go's zero values. *)
Class Zero (T : Type) := zero : T.
#[global] Instance zero_condition : Zero Condition := zero_Condition.
#[global] Instance zero_time : Zero Time := zero_Time.
#[global] Instance zero_device_spec : Zero DeviceSpec := mkEdgeDeviceSpec "" "" "" "" nil_map false.
#[global] Instance zero_device_status : Zero DeviceStatus :=
  mkEdgeDeviceStatus "" nil_slice "" "" nil_pointer 0%Z.
#[global] Instance zero_device : Zero EdgeDevice :=
  mkResource (mkTypeMeta "" "") zero_ObjectMeta zero zero.
#[global] Instance zero_device_list : Zero EdgeDeviceList :=
  mkResources (mkTypeMeta "" "") zero_ListMeta nil_slice.
#[global] Instance zero_rollout_spec : Zero RolloutSpec :=
  mkFleetRolloutSpec nil_map "" "" "" 0%Z 0%Z.
#[global] Instance zero_rollout_status : Zero RolloutStatus :=
  mkFleetRolloutStatus "" 0%Z 0%Z 0%Z 0%Z nil_slice 0%Z.
#[global] Instance zero_rollout : Zero FleetRollout :=
  mkResource (mkTypeMeta "" "") zero_ObjectMeta zero zero.
#[global] Instance zero_rollout_list : Zero FleetRolloutList :=
  mkResources (mkTypeMeta "" "") zero_ListMeta nil_slice.

(** ** Programs on the heap *)

(** [None] is a panic: a reference to nothing, or an index out of range. *)
Definition M (A : Type) : Type := heap → option (A * heap).

#[global] Instance M_ret : MRet M := λ A a h, Some (a, h).
#[global] Instance M_bind : MBind M := λ A B f p h, '(a, h') ← p h; f a h'.

Definition load {T} `{Stored T} l : M T := λ h, x ← h !! l ≫= seen; Some (x, h).
Definition assign {T} `{Stored T} l (x : T) : M unit :=
  λ h, _ ← h !! l ≫= seen (T := T); Some (tt, <[l := store x]> h).
Definition alloc {T} `{Stored T} (x : T) : M loc :=
  λ h, let l := fresh (dom h) in Some (l, <[l := store x]> h).

Fixpoint each {A} (l : list A) (f : A → M unit) : M unit :=
  match l with [] => mret tt | x :: l => _ ← f x; each l f end.

(** [s[i]] and [s[i] = x]. *)
Definition index {T} `{Stored (list T)} (s : slice T) (i : nat) : M T :=
  match s with
  | nil_slice => λ _, None
  | window a off len _ =>
      xs ← load a;
      if decide (i < len)%nat then λ h, x ← xs !! (off + i); Some (x, h) else λ _, None
  end.

Definition set_index {T} `{Stored (list T)} (s : slice T) (i : nat) (x : T) : M unit :=
  match s with
  | nil_slice => λ _, None
  | window a off len _ =>
      xs ← load a;
      if decide (i < len ∧ off + i < length xs)%nat then assign a (<[off + i := x]> xs)
      else λ _, None
  end.

Definition len {T} (s : slice T) : nat :=
  match s with nil_slice => O | window _ _ n _ => n end.

Definition make_slice {T} `{Zero T, Stored (list T)} (n : nat) : M (slice T) :=
  a ← alloc (replicate n zero); mret (window a 0 n n).

(** ** What a reference denotes *)

(** A type whose values denote something in a heap: [view] reads it, [reach] is
    the set of cells the reading looks at. *)
Class Viewed (T : Type) := {
    View : Type;
    view : heap → T → option View;
    reach : heap → T → gset loc;
    reach_live h x v : view h x = Some v → reach h x ⊆ dom h;
    view_local h h' x v : view h x = Some v → (∀ l, l ∈ reach h x → h' !! l = h !! l) →
      view h' x = Some v ∧ reach h' x = reach h x;
  }.

Arguments view_local {T _} h h' {x v} _ _.
Arguments reach_live {T _ h x v} _.

(** The promise of a copying method: it returns, leaves every cell there was as it
    was, and the copy denotes the same value in cells that are all new. *)
Definition copies {T} `{Viewed T} (f : T → M T) : Prop :=
  ∀ h x v, view h x = Some v →
    ∃ y h', f x h = Some (y, h') ∧ h ⊆ h' ∧ view h' y = Some v ∧ reach h' y ## dom h.

Lemma view_mono {T} `{Viewed T} h h' x v :
  view h x = Some v → h ⊆ h' → view h' x = Some v ∧ reach h' x = reach h x.
Proof.
  intros Hv Hh. apply (view_local _ _ Hv). intros l Hl.
  apply (reach_live Hv), elem_of_dom in Hl as [c Hc]. rewrite Hc. by eapply lookup_weaken.
Qed.

Arguments view_mono {T _ h h' x v} _ _.

(** A type without references. *)
#[refine] Definition viewed_plain (T : Type) : Viewed T :=
  {| View := T; view _ x := Some x; reach _ _ := ∅ |}.
Proof. - set_solver. - done. Defined.

Lemma plain_copies T : @copies T (viewed_plain T) mret.
Proof. intros h x v [= <-]. exists x, h. by split_and!. Qed.

#[refine] Global Instance viewed_prod {A B} `{Viewed A, Viewed B} : Viewed (A * B) := {|
    View := View (T := A) * View (T := B);
    view h x := a ← view h x.1; b ← view h x.2; Some (a, b);
    reach h x := reach h x.1 ∪ reach h x.2;
  |}.
Proof.
  - intros h [a b] v. cbn. intros (v1 & E1 & (v2 & E2 & _)%bind_Some)%bind_Some.
    apply reach_live in E1, E2. set_solver.
  - intros h h' [a b] v. cbn. intros (v1 & E1 & (v2 & E2 & [= <-])%bind_Some)%bind_Some Hl.
    destruct (view_local h h' E1) as [Hv1 Hr1]; [set_solver|].
    destruct (view_local h h' E2) as [Hv2 Hr2]; [set_solver|].
    by rewrite Hv1, Hv2, Hr1, Hr2.
Defined.

(** A struct, by the reference fields it has and the value their contents make. *)
#[refine] Definition viewed_by {T A V : Type} `{Viewed A} (parts : T → A)
    (build : T → View (T := A) → V) : Viewed T := {|
    View := V;
    view h x := build x <$> view h (parts x);
    reach h x := reach h (parts x);
  |}.
Proof.
  - intros h x v (v' & E & ->)%fmap_Some. by eapply reach_live.
  - intros h h' x v (v' & E & ->)%fmap_Some Hl.
    destruct (view_local h h' E Hl) as [-> ->]. done.
Defined.

#[refine] Global Instance viewed_map : Viewed gomap := {|
    View := option (gmap string string);
    view h x := match x with nil_map => Some None | map_at l => Some <$> (h !! l ≫= seen) end;
    reach h x := match x with nil_map => ∅ | map_at l => {[ l ]} end;
  |}.
Proof.
  - intros h [|l] v; cbn; [set_solver|]. intros (m & (c & Hc & _)%bind_Some & ->)%fmap_Some.
    apply elem_of_dom_2 in Hc. set_solver.
  - intros h h' [|l] v; cbn; [done|]. intros Hv Hl. by rewrite Hl by set_solver.
Defined.

#[refine] Global Instance viewed_pointer {T} `{Stored T, Viewed T} : Viewed (pointer T) := {|
    View := option (View (T := T));
    view h p := match p with
                | nil_pointer => Some None
                | addr l => x ← h !! l ≫= seen; Some <$> view h x
                end;
    reach h p := match p with
                 | nil_pointer => ∅
                 | addr l => {[ l ]} ∪ from_option (reach h) ∅ (h !! l ≫= seen)
                 end;
  |}.
Proof.
  - intros h [|l] v; cbn; [set_solver|].
    intros (x & Hx & (v' & E & ->)%fmap_Some)%bind_Some. rewrite Hx. cbn.
    apply bind_Some in Hx as (c & Hc%elem_of_dom_2 & _). apply reach_live in E. set_solver.
  - intros h h' [|l] v; cbn; [done|].
    intros (x & Hx & (v' & E & ->)%fmap_Some)%bind_Some. rewrite Hx. cbn. intros Hl.
    rewrite (Hl l), Hx by set_solver. cbn.
    destruct (view_local h h' E) as [-> ->]; [set_solver|]. done.
Defined.

Definition contents {T} `{Stored (list T)} h (s : slice T) : option (list T) :=
  match s with
  | nil_slice => Some []
  | window a off len _ =>
      xs ← h !! a ≫= seen;
      if decide (off + len ≤ length xs)%nat then Some (take len (drop off xs)) else None
  end.

Definition reach_all {T} `{Viewed T} h (xs : list T) : gset loc := ⋃ (reach h <$> xs).

Arguments reach_all : simpl never.

Lemma reach_all_cons {T} `{Viewed T} h x (xs : list T) :
  reach_all h (x :: xs) = reach h x ∪ reach_all h xs.
Proof. done. Qed.

Lemma reach_all_app {T} `{Viewed T} h (xs ys : list T) :
  reach_all h (xs ++ ys) = reach_all h xs ∪ reach_all h ys.
Proof.
  induction xs as [|x xs IH]; cbn; [symmetry; apply (left_id_L ∅ (∪))|].
  by rewrite !reach_all_cons, IH, (assoc_L (∪)).
Qed.

Lemma reach_all_live {T} `{Viewed T} h (xs : list T) vs :
  mapM (view h) xs = Some vs → reach_all h xs ⊆ dom h.
Proof.
  intros Hv%mapM_Some. induction Hv as [|x v xs vs Hx _ IH]; [apply empty_subseteq|].
  rewrite reach_all_cons. apply reach_live in Hx. set_solver.
Qed.

Lemma view_all_local {T} `{Viewed T} h h' (xs : list T) vs :
  mapM (view h) xs = Some vs → (∀ l, l ∈ reach_all h xs → h' !! l = h !! l) →
  mapM (view h') xs = Some vs ∧ reach_all h' xs = reach_all h xs.
Proof.
  intros Hv%mapM_Some. induction Hv as [|x v xs vs Hx _ IH]; [done|].
  rewrite !reach_all_cons. intros Hl.
  destruct (view_local h h' Hx) as [Hx' Hrx]; [set_solver|].
  destruct IH as [IHv IHr]; [set_solver|]. cbn. rewrite Hx', IHv. by rewrite Hrx, IHr.
Qed.

#[refine] Global Instance viewed_slice {T} `{Stored (list T), Viewed T} : Viewed (slice T) := {|
    View := option (list (View (T := T)));
    view h s := match s with
                | nil_slice => Some None
                | window _ _ _ _ => xs ← contents h s; Some <$> mapM (view h) xs
                end;
    reach h s := match s with
                 | nil_slice => ∅
                 | window a _ _ _ => {[ a ]} ∪ reach_all h (default [] (contents h s))
                 end;
  |}.
Proof.
  - intros h [|a off n cap] v; [set_solver|]. intros (xs & Hx & Hv)%bind_Some. rewrite Hx.
    apply fmap_Some in Hv as (vs & Hv & ->). apply reach_all_live in Hv.
    cbn in Hx. apply bind_Some in Hx as (ys & (c & Hc%elem_of_dom_2 & _)%bind_Some & _).
    cbn. set_solver.
  - intros h h' [|a off n cap] v; [done|]. intros (xs & Hx & Hv)%bind_Some. rewrite Hx. intros Hl.
    apply fmap_Some in Hv as (vs & Hv & ->).
    assert (contents h' (window a off n cap) = Some xs) as Hx'.
    { cbn in *. by rewrite Hl by set_solver. }
    rewrite Hx'. cbn. destruct (view_all_local _ h' _ _ Hv) as [-> ->]; [set_solver|]. done.
Defined.

(** ** The methods *)

(** [if in.M != nil { ... }] for a map field. *)
Definition copy_map (range : gmap string string → list (string * string)) (m : gomap) : M gomap :=
  match m with
  | nil_map => mret nil_map
  | map_at l =>
      out ← alloc (∅ : gmap string string);
      kvs ← load l;
      _ ← each (range kvs) (λ kv, o ← load out; assign out (<[kv.1 := kv.2]> (o : gmap string string)));
      mret (map_at out)
  end.

(** [if in.S != nil { ... }] for a slice field. *)
Definition copy_slice {T} `{Zero T, Stored (list T)} (into : T → M T) (s : slice T) : M (slice T) :=
  match s with
  | nil_slice => mret nil_slice
  | window _ _ _ _ =>
      out ← make_slice (len s);
      _ ← each (seq 0 (len s)) (λ i, x ← index s i; y ← into x; set_index out i y);
      mret out
  end.

(** The body all the [DeepCopy] methods share. *)
Definition new_copy {T} `{Zero T, Stored T} (into : T → M T) (p : pointer T) : M (pointer T) :=
  match p with
  | nil_pointer => mret nil_pointer
  | addr l =>
      out ← alloc zero;
      x ← load l;
      y ← into x;
      _ ← assign out y;
      mret (addr out)
  end.

(** The copying methods of metav1 keep the promise of [copies]; a [range] over a
    map visits every key once, in an order Go leaves open. *)
Class Metav1Copies := {
    viewed_object_meta :: Viewed ObjectMeta;
    viewed_list_meta :: Viewed ListMeta;
    viewed_condition :: Viewed Condition;
    viewed_time :: Viewed Time;
    ObjectMeta_DeepCopyInto : ObjectMeta → M ObjectMeta;
    ListMeta_DeepCopyInto : ListMeta → M ListMeta;
    Condition_DeepCopyInto : Condition → M Condition;
    Time_DeepCopy : pointer Time → M (pointer Time);
    range : gmap string string → list (string * string);
    ObjectMeta_copies : copies ObjectMeta_DeepCopyInto;
    ListMeta_copies : copies ListMeta_DeepCopyInto;
    Condition_copies : copies Condition_DeepCopyInto;
    Time_copies : copies Time_DeepCopy;
    range_all m : range m ≡ₚ map_to_list m;
  }.

Context `{!Metav1Copies}.

(** The receiver is [i], and the result what the method leaves in [*out]. *)
Definition EdgeDeviceSpec_DeepCopyInto (i : DeviceSpec) : M DeviceSpec :=
  labels ← copy_map range (DeviceLabels i);
  mret (mkEdgeDeviceSpec (DesiredFirmwareVersion i) (FirmwareURL i) (ChecksumSHA256 i) (Region i)
    labels (RolloutPaused i)).

Definition EdgeDeviceStatus_DeepCopyInto (i : DeviceStatus) : M DeviceStatus :=
  conditions ← copy_slice Condition_DeepCopyInto (Conditions i);
  heartbeat ← match LastHeartbeat i with
              | nil_pointer => mret nil_pointer
              | addr _ => Time_DeepCopy (LastHeartbeat i)
              end;
  mret (mkEdgeDeviceStatus (Phase i) conditions (CurrentFirmwareVersion i) (ActiveSlot i) heartbeat
    (ObservedGeneration i)).

Definition EdgeDevice_DeepCopyInto (i : EdgeDevice) : M EdgeDevice :=
  meta ← ObjectMeta_DeepCopyInto (Meta i);
  spec ← EdgeDeviceSpec_DeepCopyInto (Spec i);
  status ← EdgeDeviceStatus_DeepCopyInto (Status i);
  mret (mkResource (Types i) meta spec status).

Definition EdgeDeviceList_DeepCopyInto (i : EdgeDeviceList) : M EdgeDeviceList :=
  meta ← ListMeta_DeepCopyInto (ListMetadata i);
  items ← copy_slice EdgeDevice_DeepCopyInto (Items i);
  mret (mkResources (ListTypes i) meta items).

Definition FleetRolloutSpec_DeepCopyInto (i : RolloutSpec) : M RolloutSpec :=
  selector ← copy_map range (Selector i);
  mret (mkFleetRolloutSpec selector (TargetVersion i) (TargetURL i) (TargetChecksum i)
    (MaxUnavailable i) (FailureThresholdPercent i)).

Definition FleetRolloutStatus_DeepCopyInto (i : RolloutStatus) : M RolloutStatus :=
  conditions ← copy_slice Condition_DeepCopyInto (RolloutConditions i);
  mret (mkFleetRolloutStatus (RolloutPhase i) (Selected i) (Targeted i) (Succeeded i) (Failed i)
    conditions (RolloutObservedGeneration i)).

Definition FleetRollout_DeepCopyInto (i : FleetRollout) : M FleetRollout :=
  meta ← ObjectMeta_DeepCopyInto (Meta i);
  spec ← FleetRolloutSpec_DeepCopyInto (Spec i);
  status ← FleetRolloutStatus_DeepCopyInto (Status i);
  mret (mkResource (Types i) meta spec status).

Definition FleetRolloutList_DeepCopyInto (i : FleetRolloutList) : M FleetRolloutList :=
  meta ← ListMeta_DeepCopyInto (ListMetadata i);
  items ← copy_slice FleetRollout_DeepCopyInto (Items i);
  mret (mkResources (ListTypes i) meta items).

Definition EdgeDeviceSpec_DeepCopy : pointer DeviceSpec → M (pointer DeviceSpec) :=
  new_copy EdgeDeviceSpec_DeepCopyInto.
Definition EdgeDeviceStatus_DeepCopy : pointer DeviceStatus → M (pointer DeviceStatus) :=
  new_copy EdgeDeviceStatus_DeepCopyInto.
Definition EdgeDevice_DeepCopy : pointer EdgeDevice → M (pointer EdgeDevice) :=
  new_copy EdgeDevice_DeepCopyInto.
Definition EdgeDeviceList_DeepCopy : pointer EdgeDeviceList → M (pointer EdgeDeviceList) :=
  new_copy EdgeDeviceList_DeepCopyInto.
Definition FleetRolloutSpec_DeepCopy : pointer RolloutSpec → M (pointer RolloutSpec) :=
  new_copy FleetRolloutSpec_DeepCopyInto.
Definition FleetRolloutStatus_DeepCopy : pointer RolloutStatus → M (pointer RolloutStatus) :=
  new_copy FleetRolloutStatus_DeepCopyInto.
Definition FleetRollout_DeepCopy : pointer FleetRollout → M (pointer FleetRollout) :=
  new_copy FleetRollout_DeepCopyInto.
Definition FleetRolloutList_DeepCopy : pointer FleetRolloutList → M (pointer FleetRolloutList) :=
  new_copy FleetRolloutList_DeepCopyInto.

(** [runtime.Object]: an interface value is nil, or a pointer with its type (and
    the pointer in it may be nil, which is not the nil interface). *)
Inductive object :=
  | ADevice (p : pointer EdgeDevice) | ADeviceList (p : pointer EdgeDeviceList)
  | ARollout (p : pointer FleetRollout) | ARolloutList (p : pointer FleetRolloutList).

Definition is_nil {T} (p : pointer T) : bool := match p with nil_pointer => true | addr _ => false end.

Definition EdgeDevice_DeepCopyObject (i : pointer EdgeDevice) : M (option object) :=
  c ← EdgeDevice_DeepCopy i; mret (if negb (is_nil c) then Some (ADevice c) else None).
Definition EdgeDeviceList_DeepCopyObject (i : pointer EdgeDeviceList) : M (option object) :=
  c ← EdgeDeviceList_DeepCopy i; mret (if negb (is_nil c) then Some (ADeviceList c) else None).
Definition FleetRollout_DeepCopyObject (i : pointer FleetRollout) : M (option object) :=
  c ← FleetRollout_DeepCopy i; mret (if negb (is_nil c) then Some (ARollout c) else None).
Definition FleetRolloutList_DeepCopyObject (i : pointer FleetRolloutList) : M (option object) :=
  c ← FleetRolloutList_DeepCopy i; mret (if negb (is_nil c) then Some (ARolloutList c) else None).

(** ** Copies of parts *)

Lemma fresh_dom h : fresh (dom h) ∉ dom h.
Proof. apply is_fresh. Qed.

Lemma grows h l c : l ∉ dom h → h ⊆ <[l:=c]> h.
Proof. intros Hl. apply insert_subseteq. by apply not_elem_of_dom. Qed.

(** Writing a new cell again. *)
Lemma regrows h0 h l c : l ∉ dom h0 → h0 ⊆ h → h0 ⊆ <[l:=c]> h.
Proof. intros Hl Hh. apply insert_subseteq_r; [by apply not_elem_of_dom|done]. Qed.

Lemma load_seen {T} `{Stored T} h l (x : T) : h !! l ≫= seen = Some x → load l h = Some (x, h).
Proof. intros E. unfold load. by rewrite E. Qed.

Lemma seen_insert {T} `{Stored T} h l (x : T) : <[l:=store x]> h !! l ≫= seen = Some x.
Proof. rewrite lookup_insert_eq. cbn. apply seen_store. Qed.

Lemma assign_seen {T} `{Stored T} h l (x y : T) :
  h !! l ≫= seen = Some x → assign l y h = Some (tt, <[l:=store y]> h).
Proof. intros E. unfold assign. by rewrite E. Qed.

Lemma bind_ok {A B} (p : M A) (f : A → M B) h a h' :
  p h = Some (a, h') → (p ≫= f) h = f a h'.
Proof. intros E. unfold mbind, M_bind. by rewrite E. Qed.

Lemma copies_prod {A B} `{Viewed A, Viewed B} (f : A → M A) (g : B → M B) :
  copies f → copies g → copies (λ x, a ← f x.1; b ← g x.2; mret (a, b)).
Proof.
  intros Hf Hg h [a b] v. cbn. intros (v1 & E1 & (v2 & E2 & [= <-])%bind_Some)%bind_Some.
  destruct (Hf _ _ _ E1) as (y & h1 & Ef & Hh1 & Hy & Dy).
  destruct (view_mono E2 Hh1) as [E2' _].
  destruct (Hg _ _ _ E2') as (z & h2 & Eg & Hh2 & Hz & Dz).
  destruct (view_mono Hy Hh2) as [Hy' Ry].
  exists (y, z), h2. erewrite bind_ok, bind_ok by done. split_and!; [done|by etrans|..].
  - cbn. by rewrite Hy', Hz.
  - cbn. rewrite Ry. apply subseteq_dom in Hh1. set_solver.
Qed.

Lemma copies_by {T A V} `{Viewed A} (parts : T → A) (build : T → View (T := A) → V)
    (rebuild : T → A → T) (f : T → M T) (g : A → M A) :
  (∀ x h, f x h = (y ← g (parts x); mret (rebuild x y)) h) →
  (∀ x y, parts (rebuild x y) = y) → (∀ x y v, build (rebuild x y) v = build x v) →
  copies g → @copies T (viewed_by parts build) f.
Proof.
  intros Hf Hp Hb Hg h x v (v' & E & ->)%fmap_Some.
  destruct (Hg _ _ _ E) as (y & h' & Eg & Hh & Hy & Dy).
  exists (rebuild x y), h'. rewrite Hf. erewrite bind_ok by done. cbn. rewrite Hp, Hy. cbn. by rewrite Hb.
Qed.

Lemma copies_pointer {T} `{Zero T, Stored T, Viewed T} (into : T → M T) :
  copies into → copies (new_copy into).
Proof.
  intros Hi h [|l] v; cbn; [intros [= <-]; by exists nil_pointer, h; split_and!|].
  intros (x & Ex & (v' & Ev & ->)%fmap_Some)%bind_Some.
  set (o := fresh (dom h)). assert (o ∉ dom h) as Ho by apply fresh_dom.
  set (h1 := <[o := store zero]> h). assert (h ⊆ h1) as Hh1 by by apply grows.
  destruct (view_mono Ev Hh1) as [Ev1 _].
  destruct (Hi _ _ _ Ev1) as (y & h2 & Ei & Hh2 & Hy & Dy).
  assert (h2 !! o ≫= seen = Some (zero : T)) as Eo.
  { rewrite (lookup_weaken h1 h2 o (store zero)); [apply seen_store|apply lookup_insert_eq|done]. }
  exists (addr o), (<[o := store y]> h2).
  assert (o ∉ reach h2 y) as Hoy.
  { intros Hin. apply (Dy o); [done|]. unfold h1. set_solver. }
  destruct (view_local h2 (<[o := store y]> h2) Hy) as [Hy' Ry].
  { intros k Hk. apply lookup_insert_ne. congruence. }
  assert (h !! l ≫= seen = Some x → h1 !! l ≫= seen = Some x) as Ex1.
  { destruct (h !! l) as [c|] eqn:Ec; [|done]. by rewrite (lookup_weaken _ _ _ _ Ec Hh1). }
  erewrite bind_ok by done. fold o h1.
  erewrite bind_ok by by apply load_seen, Ex1. erewrite bind_ok by done.
  erewrite bind_ok by by eapply assign_seen. cbn. rewrite seen_insert. cbn. rewrite Hy', Ry.
  split_and!; [done|apply regrows; [done|by etrans]|done|].
  assert (dom h ⊆ dom h1) by by apply subseteq_dom. set_solver.
Qed.

(** ** Maps *)

Lemma fill_map l (kvs : list (string * string)) h (o : gmap string string) :
  h !! l ≫= seen = Some o →
  each kvs (λ kv, o ← load l; assign l (<[kv.1 := kv.2]> (o : gmap string string))) h =
  Some (tt, match kvs with
            | [] => h
            | _ => <[l := store (foldl (λ o kv, <[kv.1 := kv.2]> o) o kvs)]> h
            end).
Proof.
  revert h o. induction kvs as [|kv kvs IH]; intros h o E; cbn [each]; [done|].
  erewrite bind_ok.
  2:{ erewrite bind_ok by by apply load_seen. by eapply assign_seen. }
  erewrite IH by apply seen_insert. destruct kvs as [|kv' kvs]; [done|].
  by rewrite insert_insert_eq.
Qed.

Lemma foldl_insert_union (kvs : list (string * string)) (o : gmap string string) :
  NoDup kvs.*1 → foldl (λ o kv, <[kv.1 := kv.2]> o) o kvs = list_to_map kvs ∪ o.
Proof.
  revert o. induction kvs as [|[k v] kvs IH]; cbn; intros o Hn; [by rewrite (left_id_L ∅ (∪))|].
  apply list.NoDup_cons in Hn as [Hk Hn]. rewrite IH by done.
  rewrite <-insert_union_r by by apply not_elem_of_list_to_map_1. by rewrite <-insert_union_l.
Qed.

Lemma foldl_insert (m : gmap string string) (kvs : list (string * string)) :
  kvs ≡ₚ map_to_list m → foldl (λ o kv, <[kv.1 := kv.2]> o) ∅ kvs = m.
Proof.
  intros Hp. assert (NoDup kvs.*1) as Hn by (rewrite Hp; apply NoDup_fst_map_to_list).
  rewrite foldl_insert_union, (right_id_L ∅ (∪)) by done.
  rewrite <-(list_to_map_to_list m). by apply list_to_map_proper.
Qed.

Lemma view_map_at h l (m : gmap string string) :
  h !! l ≫= seen = Some m → view h (map_at l) = Some (Some m).
Proof. intros E. change (Some <$> (h !! l ≫= seen) = Some (Some m)). by rewrite E. Qed.

Lemma copies_map (order : gmap string string → list (string * string)) :
  (∀ m, order m ≡ₚ map_to_list m) → copies (copy_map order).
Proof.
  intros Hall h [|l] v; cbn; [intros [= <-]; by exists nil_map, h; split_and!|].
  intros (m & Em & ->)%fmap_Some. set (o := fresh (dom h)).
  assert (o ∉ dom h) as Ho by apply fresh_dom.
  set (h1 := <[o := store (∅ : gmap string string)]> h). assert (h ⊆ h1) as Hh1 by by apply grows.
  assert (h1 !! l ≫= seen = Some m) as Em1.
  { destruct (h !! l) as [c|] eqn:Ec; [|done]. by rewrite (lookup_weaken _ _ _ _ Ec Hh1). }
  erewrite bind_ok by done. fold o h1. erewrite bind_ok by by apply load_seen.
  erewrite bind_ok by (apply fill_map, seen_insert).
  eexists (map_at o), _. split; [done|].
  pose proof (foldl_insert m _ (Hall m)) as Hm.
  destruct (order m) as [|kv kvs]; (split_and!; [|apply view_map_at|by apply disjoint_singleton_l]).
  - done.
  - unfold h1. rewrite seen_insert. by rewrite <-Hm.
  - by apply regrows.
  - by rewrite seen_insert, Hm.
Qed.

(** ** Slices *)

Lemma seen_mono {T} `{Stored T} h h' l (x : T) :
  h !! l ≫= seen = Some x → h ⊆ h' → h' !! l ≫= seen = Some x.
Proof.
  intros E Hh. destruct (h !! l) as [c|] eqn:Ec; [|done]. by rewrite (lookup_weaken _ _ _ _ Ec Hh).
Qed.

Section slices.
Context {T : Type} `{Zero T, Stored (list T), Viewed T} (into : T → M T) (Hinto : copies into).
Variables (h : heap) (a : loc) (off n c : nat) (xs : list T) (vs : list (View (T := T))).
Hypothesis Hxs : contents h (window a off n c) = Some xs.
Hypothesis Hvs : mapM (view h) xs = Some vs.
Variable o : loc.
Hypothesis Ho : o ∉ dom h.

Lemma length_xs : length xs = n.
Proof.
  clear Hvs. cbn in Hxs. apply bind_Some in Hxs as (ys & _ & E). case_decide; [|done].
  injection E as <-. rewrite length_take, length_drop. lia.
Qed.

Lemma index_copied h' i x :
  h ⊆ h' → xs !! i = Some x → index (window a off n c) i h' = Some (x, h').
Proof.
  clear Hvs. intros Hh Hi. pose proof (lookup_lt_Some _ _ _ Hi) as Hlt. rewrite length_xs in Hlt.
  cbn in Hxs. apply bind_Some in Hxs as (ys & Ea & E). case_decide as Hle; [|done]. injection E as <-.
  unfold index. erewrite bind_ok by by eapply load_seen, seen_mono.
  rewrite decide_True by done. rewrite lookup_take_lt, lookup_drop in Hi by done. by rewrite Hi.
Qed.

(** The copy after its first [k] elements. *)
Definition copied (k : nat) (ys : list T) (h' : heap) : Prop :=
  h ⊆ h' ∧ length ys = k ∧ h' !! o ≫= seen = Some (ys ++ replicate (n - k) zero) ∧
  mapM (view h') ys = Some (take k vs) ∧ reach_all h' ys ## {[ o ]} ∪ dom h.

Lemma view_all_grows (ys : list T) us h1 h2 :
  mapM (view h1) ys = Some us → h1 ⊆ h2 →
  mapM (view h2) ys = Some us ∧ reach_all h2 ys = reach_all h1 ys.
Proof.
  intros Hv Hh. apply (view_all_local _ _ _ _ Hv). intros l Hl.
  apply (reach_all_live _ _ _ Hv), elem_of_dom in Hl as [d Hd]. rewrite Hd. by eapply lookup_weaken.
Qed.

Lemma copied_next k ys h1 :
  copied k ys h1 → (k < n)%nat →
  ∃ y h2, (x ← index (window a off n c) k; y ← into x; set_index (window o 0 n n) k y) h1 =
            Some (tt, h2) ∧ copied (S k) (ys ++ [y]) h2.
Proof.
  intros (Hh & Hk & Eo & Hv & Hr) Hlt.
  destruct (lookup_lt_is_Some_2 xs k) as [x Hx]; [by rewrite length_xs|].
  destruct (Forall2_lookup_l _ _ _ _ _ (proj1 (mapM_Some _ _ _) Hvs) Hx) as (v & Hvk & Hxv).
  destruct (view_mono Hxv Hh) as [Hxv1 _].
  destruct (Hinto _ _ _ Hxv1) as (y & h2 & Ei & Hh2 & Hy & Dy).
  set (zs := ys ++ y :: replicate (n - S k) zero).
  assert (o ∈ dom h1) as Ho1.
  { destruct (h1 !! o) eqn:E1; [by eapply elem_of_dom_2|done]. }
  destruct (view_local h2 (<[o := store zs]> h2) Hy) as [Hy3 Ry3].
  { intros l Hl. apply lookup_insert_ne. set_solver. }
  destruct (view_all_grows _ _ _ _ Hv Hh2) as [Hv2 Rv2].
  destruct (view_all_local _ (<[o := store zs]> h2) _ _ Hv2) as [Hv3 Rv3].
  { intros l Hl. apply lookup_insert_ne. set_solver. }
  exists y, (<[o := store zs]> h2). split.
  - erewrite bind_ok by by apply index_copied. erewrite bind_ok by done.
    pose proof (seen_mono _ _ _ _ Eo Hh2) as Eo2. unfold set_index.
    erewrite bind_ok by by eapply load_seen. rewrite decide_True.
    2:{ rewrite length_app, length_replicate. lia. }
    erewrite assign_seen by exact Eo2. do 3 f_equal. unfold zs. f_equal. cbn.
    rewrite insert_app_r_alt, Hk, Nat.sub_diag by lia. by replace (n - k)%nat with (S (n - S k)) by lia.
  - split_and!.
    + apply regrows; [done|by etrans].
    + rewrite length_app. cbn. lia.
    + rewrite seen_insert. unfold zs. by rewrite <-(assoc_L (++)).
    + rewrite (take_S_r _ _ _ Hvk). apply mapM_Some, Forall2_app; [by apply mapM_Some|].
      by constructor.
    + rewrite reach_all_app, reach_all_cons, Rv3, Rv2, Ry3. apply subseteq_dom in Hh.
      assert (reach_all (<[o:=store zs]> h2) [] = ∅) as -> by done. set_solver.
Qed.

Lemma copied_all m k ys h1 :
  copied k ys h1 → (k + m)%nat = n →
  ∃ zs h2, each (seq k m) (λ i, x ← index (window a off n c) i; y ← into x;
      set_index (window o 0 n n) i y) h1 = Some (tt, h2) ∧ copied n zs h2.
Proof.
  revert k ys h1. induction m as [|m IH]; intros k ys h1 Hc Hm.
  { exists ys, h1. split; [done|]. by replace n with k by lia. }
  destruct (copied_next k ys h1 Hc) as (y & h2 & E & Hc'); [lia|].
  destruct (IH _ _ _ Hc') as (zs & h3 & E3 & Hz); [lia|].
  exists zs, h3. split; [|done]. cbn [seq each]. by erewrite bind_ok by exact E.
Qed.
End slices.

Lemma copies_slice {T} `{Zero T, Stored (list T), Viewed T} (into : T → M T) :
  copies into → copies (copy_slice into).
Proof.
  intros Hi h [|a off n c] v; [intros [= <-]; by exists nil_slice, h; split_and!|].
  intros (xs & Ex & (vs & Ev & ->)%fmap_Some)%bind_Some.
  set (o := fresh (dom h)). assert (o ∉ dom h) as Ho by apply fresh_dom.
  set (h1 := <[o := store (replicate n (zero : T))]> h).
  assert (copied h n vs o 0 [] h1) as Hc.
  { split_and!; [by apply grows|done| |done|apply disjoint_empty_l].
    unfold h1. by rewrite seen_insert, Nat.sub_0_r. }
  destruct (copied_all into Hi h a off n c xs vs Ex Ev o Ho n 0 [] h1 Hc) as (ys & h2 & E & Hcn);
    [done|].
  destruct Hcn as (Hh & Hn & Eo & Hv & Hr).
  rewrite Nat.sub_diag, app_nil_r in Eo. exists (window o 0 n n), h2.
  assert (contents h2 (window o 0 n n) = Some ys) as Hys.
  { cbn. rewrite Eo. cbn. rewrite decide_True by lia. by rewrite drop_0, take_ge by lia. }
  split_and!; [| done | | ].
  - unfold copy_slice, make_slice. erewrite bind_ok by done. fold o h1.
    by erewrite bind_ok by exact E.
  - unfold view, viewed_slice. rewrite Hys. cbn. rewrite Hv. cbn. do 2 f_equal. apply take_ge.
    apply mapM_Some, Forall2_length in Ev. rewrite <-Ev, (length_xs h a off n c xs) by done. lia.
  - change ({[ o ]} ∪ reach_all h2 (default [] (contents h2 (window o 0 n n))) ## dom h).
    rewrite Hys. cbn. set_solver.
Qed.

(** ** The structs *)

#[global] Instance viewed_device_spec : Viewed DeviceSpec :=
  viewed_by (λ i : DeviceSpec, DeviceLabels i) (λ i labels, mkEdgeDeviceSpec (DesiredFirmwareVersion i) (FirmwareURL i)
    (ChecksumSHA256 i) (Region i) labels (RolloutPaused i)).
#[global] Instance viewed_device_status : Viewed DeviceStatus :=
  viewed_by (λ i : DeviceStatus, (Conditions i, LastHeartbeat i)) (λ i v, mkEdgeDeviceStatus (Phase i) v.1
    (CurrentFirmwareVersion i) (ActiveSlot i) v.2 (ObservedGeneration i)).
#[global] Instance viewed_rollout_spec : Viewed RolloutSpec :=
  viewed_by (λ i : RolloutSpec, Selector i) (λ i selector, mkFleetRolloutSpec selector (TargetVersion i) (TargetURL i)
    (TargetChecksum i) (MaxUnavailable i) (FailureThresholdPercent i)).
#[global] Instance viewed_rollout_status : Viewed RolloutStatus :=
  viewed_by (λ i : RolloutStatus, RolloutConditions i) (λ i conditions, mkFleetRolloutStatus (RolloutPhase i) (Selected i)
    (Targeted i) (Succeeded i) (Failed i) conditions (RolloutObservedGeneration i)).
#[global] Instance viewed_resource {S T} `{Viewed S, Viewed T} : Viewed (resource ObjectMeta S T) :=
  viewed_by (λ i : resource ObjectMeta S T, (Meta i, (Spec i, Status i)))
    (λ i v, mkResource (Types i) v.1 v.2.1 v.2.2).
#[global] Instance viewed_resources {I} `{Viewed I} : Viewed (resources ListMeta I) :=
  viewed_by (λ i : resources ListMeta I, (ListMetadata i, Items i)) (λ i v, mkResources (ListTypes i) v.1 v.2).

(** A method is the copy of its reference fields, put back into the struct. *)
Ltac by_fields :=
  intros; unfold mbind, M_bind, mret, M_ret, mbind, option_bind; cbn;
  repeat match goal with |- context [match ?f ?h with _ => _ end] => destruct (f h) as [[??]|]; cbn end;
  done.

Lemma EdgeDeviceSpec_copies : copies EdgeDeviceSpec_DeepCopyInto.
Proof.
  apply (copies_by (λ i : DeviceSpec, DeviceLabels i) _ (λ i labels, mkEdgeDeviceSpec (DesiredFirmwareVersion i)
    (FirmwareURL i) (ChecksumSHA256 i) (Region i) labels (RolloutPaused i))
    _ (copy_map range)); [done..|]. apply copies_map, range_all.
Qed.

Lemma FleetRolloutSpec_copies : copies FleetRolloutSpec_DeepCopyInto.
Proof.
  apply (copies_by (λ i : RolloutSpec, Selector i) _ (λ i selector, mkFleetRolloutSpec selector (TargetVersion i)
    (TargetURL i) (TargetChecksum i) (MaxUnavailable i) (FailureThresholdPercent i))
    _ (copy_map range)); [done..|]. apply copies_map, range_all.
Qed.

Lemma FleetRolloutStatus_copies : copies FleetRolloutStatus_DeepCopyInto.
Proof.
  apply (copies_by (λ i : RolloutStatus, RolloutConditions i) _ (λ i conditions, mkFleetRolloutStatus (RolloutPhase i)
    (Selected i) (Targeted i) (Succeeded i) (Failed i) conditions (RolloutObservedGeneration i))
    _ (copy_slice Condition_DeepCopyInto)); [done..|]. apply copies_slice, Condition_copies.
Qed.

Lemma copies_time : copies (λ p : pointer Time,
  match p with nil_pointer => mret nil_pointer | addr _ => Time_DeepCopy p end).
Proof.
  intros h [|l] v; [intros [= <-]; by exists nil_pointer, h; split_and!|]. apply Time_copies.
Qed.

Lemma EdgeDeviceStatus_copies : copies EdgeDeviceStatus_DeepCopyInto.
Proof.
  eapply (copies_by (λ i : DeviceStatus, (Conditions i, LastHeartbeat i)) _ (λ i v,
    mkEdgeDeviceStatus (Phase i) v.1 (CurrentFirmwareVersion i) (ActiveSlot i) v.2
      (ObservedGeneration i)));
    [|by intros ? []|done|apply (copies_prod _ _ (copies_slice _ Condition_copies) copies_time)].
  unfold EdgeDeviceStatus_DeepCopyInto. by_fields.
Qed.

Lemma resource_copies {S T} `{Viewed S, Viewed T} (into_spec : S → M S) (into_status : T → M T) :
  copies into_spec → copies into_status →
  copies (λ i : resource ObjectMeta S T, meta ← ObjectMeta_DeepCopyInto (Meta i);
    spec ← into_spec (Spec i); status ← into_status (Status i);
    mret (mkResource (Types i) meta spec status)).
Proof.
  intros Hs Ht.
  eapply (copies_by (λ i : resource ObjectMeta S T, (Meta i, (Spec i, Status i))) _
    (λ i v, mkResource (Types i) v.1 v.2.1 v.2.2));
    [|by intros ? [? []]|done|apply (copies_prod _ _ ObjectMeta_copies (copies_prod _ _ Hs Ht))].
  by_fields.
Qed.

Lemma resources_copies {I} `{Viewed I} (into_items : I → M I) :
  copies into_items →
  copies (λ i : resources ListMeta I, meta ← ListMeta_DeepCopyInto (ListMetadata i);
    items ← into_items (Items i); mret (mkResources (ListTypes i) meta items)).
Proof.
  intros Hi.
  eapply (copies_by (λ i : resources ListMeta I, (ListMetadata i, Items i)) _
    (λ i v, mkResources (ListTypes i) v.1 v.2));
    [|by intros ? []|done|apply (copies_prod _ _ ListMeta_copies Hi)].
  by_fields.
Qed.

Lemma EdgeDevice_copies : copies EdgeDevice_DeepCopyInto.
Proof. apply resource_copies; [apply EdgeDeviceSpec_copies|apply EdgeDeviceStatus_copies]. Qed.
Lemma FleetRollout_copies : copies FleetRollout_DeepCopyInto.
Proof. apply resource_copies; [apply FleetRolloutSpec_copies|apply FleetRolloutStatus_copies]. Qed.
Lemma EdgeDeviceList_copies : copies EdgeDeviceList_DeepCopyInto.
Proof. apply resources_copies, copies_slice, EdgeDevice_copies. Qed.
Lemma FleetRolloutList_copies : copies FleetRolloutList_DeepCopyInto.
Proof. apply resources_copies, copies_slice, FleetRollout_copies. Qed.

(** ** Isolation *)

(** [y] in [h'] is a copy of [x] in [h], and neither can be changed through the
    other: whatever is written to memory that was not there before the copy was made
    (all of [y]'s is such) leaves [x] as it was, and whatever is written to memory
    that was there (all of [x]'s is such) leaves [y]. *)
Definition twins {T} `{Viewed T} h (x : T) v (y : T) h' : Prop :=
  view h' x = Some v ∧ view h' y = Some v ∧
  (∀ h2, (∀ l, l ∈ dom h → h2 !! l = h' !! l) → view h2 x = Some v) ∧
  (∀ h2, (∀ l, l ∉ dom h → h2 !! l = h' !! l) → view h2 y = Some v).

Lemma copies_twins {T} `{Viewed T} (f : T → M T) h x v :
  copies f → view h x = Some v → ∃ y h', f x h = Some (y, h') ∧ twins h x v y h'.
Proof.
  intros Hf Hv. destruct (Hf _ _ _ Hv) as (y & h' & E & Hh & Hy & Dy).
  exists y, h'. split; [done|]. split_and!; [by apply (view_mono Hv)|done|..].
  - intros h2 Hl. apply (view_local _ _ Hv). intros l Hlr. apply (reach_live Hv) in Hlr.
    rewrite Hl by done. apply elem_of_dom in Hlr as [c Hc]. rewrite Hc. by eapply lookup_weaken.
  - intros h2 Hl. apply (view_local _ _ Hy). intros l Hlr. apply Hl. set_solver.
Qed.

Definition deep {T} `{Viewed (pointer T)} (f : pointer T → M (pointer T)) : Prop :=
  ∀ h p v, view h p = Some v → ∃ q h', f p h = Some (q, h') ∧ twins h p v q h'.

Definition deep_object {T} `{Viewed (pointer T)} (as_object : pointer T → object)
    (f : pointer T → M (option object)) : Prop :=
  (∀ h, f nil_pointer h = Some (None, h)) ∧
  ∀ h l v, view h (addr l) = Some v →
    ∃ l' h', f (addr l) h = Some (Some (as_object (addr l')), h') ∧
      twins h (addr l) v (addr l') h'.

Lemma object_of {T} `{Zero T, Stored T, Viewed T} (into : T → M T) (as_object : pointer T → object) :
  copies into → deep_object as_object (λ p, c ← new_copy into p;
    mret (if negb (is_nil c) then Some (as_object c) else None)).
Proof.
  intros Hi. split; [done|]. intros h l v Hv.
  destruct (copies_twins _ _ _ _ (copies_pointer into Hi) Hv) as (q & h' & E & Ht).
  erewrite bind_ok by exact E. destruct q as [|l']; [|by exists l', h'].
  destruct Ht as (_ & Hq & _). cbn in Hq, Hv. injection Hq as <-.
  by apply bind_Some in Hv as (x & _ & (v' & _ & [=])%fmap_Some).
Qed.

(** C22. The generated deep copies are deep.  For the four objects of the API, the
    copy [DeepCopyObject] makes has the dynamic type and the value of the original,
    and neither can be changed through the other (so a controller may edit what it
    copied out of the shared cache); a nil object copies to the nil interface.  The
    same holds of the specs and statuses, nil maps, slices and pointers included. *)
Theorem deep_copies_isolated :
  deep_object ADevice EdgeDevice_DeepCopyObject ∧
  deep_object ADeviceList EdgeDeviceList_DeepCopyObject ∧
  deep_object ARollout FleetRollout_DeepCopyObject ∧
  deep_object ARolloutList FleetRolloutList_DeepCopyObject ∧
  deep EdgeDeviceSpec_DeepCopy ∧ deep EdgeDeviceStatus_DeepCopy ∧
  deep FleetRolloutSpec_DeepCopy ∧ deep FleetRolloutStatus_DeepCopy.
Proof.
  split_and!; try (intros h p v; apply copies_twins, copies_pointer).
  - apply object_of, EdgeDevice_copies.
  - apply object_of, EdgeDeviceList_copies.
  - apply object_of, FleetRollout_copies.
  - apply object_of, FleetRolloutList_copies.
  - apply EdgeDeviceSpec_copies.
  - apply EdgeDeviceStatus_copies.
  - apply FleetRolloutSpec_copies.
  - apply FleetRolloutStatus_copies.
Qed.
End heap.

(** ** A concrete metav1 *)

(** Metadata with a name and labels, plain conditions and times. *)
Definition demo_metav1 : Metav1 := {|
    ObjectMeta := string * gomap; ListMeta := string; Condition := string; Time := Z; Lib := unit;
    zero_ObjectMeta := ("", nil_map); zero_ListMeta := ""; zero_Condition := ""; zero_Time := 0%Z;
  |}.
#[local] Existing Instance demo_metav1.

#[local] Instance demo_plain_string : Viewed string := viewed_plain string.
#[local] Instance demo_plain_Z : Viewed Z := viewed_plain Z.

#[refine, local] Instance demo_copies : Metav1Copies := {|
    viewed_object_meta := viewed_prod (H := demo_plain_string);
    viewed_list_meta := demo_plain_string;
    viewed_condition := demo_plain_string;
    viewed_time := demo_plain_Z;
    ObjectMeta_DeepCopyInto i := name ← mret i.1; labels ← copy_map map_to_list i.2; mret (name, labels);
    ListMeta_DeepCopyInto := mret;
    Condition_DeepCopyInto := mret;
    Time_DeepCopy := new_copy mret;
    range := map_to_list;
  |}.
Proof.
  - apply (copies_prod mret (copy_map map_to_list)); [apply plain_copies|]. by apply copies_map.
  - apply plain_copies.
  - apply plain_copies.
  - apply copies_pointer, plain_copies.
  - done.
Defined.

Definition demo_device : EdgeDevice :=
  mkResource (mkTypeMeta "EdgeDevice" "fleet/v1alpha1") ("edge-1", map_at 2)
    (mkEdgeDeviceSpec "2.0.0" "http://fw" "abc" "lab" (map_at 3) false)
    (mkEdgeDeviceStatus "Ready" (window 4 0 1 2) "1.0.0" "A" (addr 5) 1%Z).

Definition demo_heap : gmap loc cell :=
  <[1%positive := CDevice demo_device]> (<[2%positive := CMap {[ "app" := "edge" ]}]>
  (<[3%positive := CMap ∅]> (<[4%positive := CConditions ["Healthy"; "spare"]]>
  {[ 5%positive := CTime (7%Z : Time) ]}))).

Definition demo_value : View (T := pointer EdgeDevice) :=
  Some (mkResource (mkTypeMeta "EdgeDevice" "fleet/v1alpha1") ("edge-1", Some {[ "app" := "edge" ]})
    (mkEdgeDeviceSpec "2.0.0" "http://fw" "abc" "lab" (Some ∅) false)
    (mkEdgeDeviceStatus "Ready" (Some ["Healthy"]) "1.0.0" "A" (Some (7%Z : Time)) 1%Z)).

Lemma deep_copies_isolated_witness :
  ∃ l' h', EdgeDevice_DeepCopyObject (addr 1) demo_heap = Some (Some (ADevice (addr l')), h') ∧
    twins demo_heap (addr (T := EdgeDevice) 1) demo_value (addr l') h'.
Proof.
  apply (proj2 (proj1 (@deep_copies_isolated demo_metav1 demo_copies))).
  cbv. reflexivity.
Defined.
