(* ===== verification/InPlace.v ===== *)
(** * The status gates as they run: copies, then writes in place

    Both reconcilers compute a new status from a deep copy of the one they read, set a
    condition on it in place, compare it with the old one, and assign it.  Everywhere
    else in this development statuses are values; here the code runs on the heap of
    [DeepCopy], where slices share arrays, and is shown to compute what the values say. *)

From S2P Require Import Prelude DeepCopy.
From S2P Require ApiTypes DeviceController RolloutController.

(** ** The types of metav1 *)

(** Conditions and times hold no reference that is ever written through (a time's
    location is immutable); the metadata of objects and of lists, and how they are
    copied, stay parameters. *)
Class MetadataTypes := {
    TMeta : Type;
    TListMeta : Type;
    TLib : Type;
    zero_meta : TMeta;
    zero_list_meta : TListMeta;
  }.

#[global] Instance api_metav1 `{MetadataTypes} : Metav1 := {|
    ObjectMeta := TMeta; ListMeta := TListMeta;
    Condition := ApiTypes.Condition; Time := Z; Lib := TLib;
    zero_ObjectMeta := zero_meta; zero_ListMeta := zero_list_meta;
    zero_Condition := ApiTypes.mkCondition "" "" 0 0 "" ""; zero_Time := 0%Z;
  |}.

Class MetadataCopies `{MetadataTypes} := {
    view_meta :: Viewed TMeta;
    view_list_meta :: Viewed TListMeta;
    copy_meta : TMeta → M TMeta;
    copy_list_meta : TListMeta → M TListMeta;
    map_order : gmap string string → list (string * string);
    copy_meta_ok : copies copy_meta;
    copy_list_meta_ok : copies copy_list_meta;
    map_order_all m : map_order m ≡ₚ map_to_list m;
  }.

#[global] Instance plain_condition `{MetadataTypes} : Viewed ApiTypes.Condition :=
  viewed_plain ApiTypes.Condition.
#[global] Instance plain_time `{MetadataTypes} : Viewed Z := viewed_plain Z.

#[refine, global] Instance api_copies `{MetadataCopies} : Metav1Copies := {|
    viewed_object_meta := view_meta; viewed_list_meta := view_list_meta;
    viewed_condition := plain_condition; viewed_time := plain_time;
    ObjectMeta_DeepCopyInto := copy_meta; ListMeta_DeepCopyInto := copy_list_meta;
    Condition_DeepCopyInto := mret; Time_DeepCopy := new_copy mret; range := map_order;
  |}.
Proof.
  - apply copy_meta_ok.
  - apply copy_list_meta_ok.
  - apply plain_copies.
  - apply copies_pointer, plain_copies.
  - apply map_order_all.
Defined.

(** ** Package meta, on slices *)

Section helpers.
Context `{MetadataCopies} `{HC : !ApiTypes.ConditionHelpers}.

(** What [FindStatusCondition] points to, and [SetStatusCondition] through a pointer to
    the slice, at time [now]. *)
Class SliceHelpers := {
    Find : slice ApiTypes.Condition → string → M (option ApiTypes.Condition);
    SetIn : Z → slice ApiTypes.Condition → ApiTypes.Condition → M (slice ApiTypes.Condition);
  }.

Definition conditions_of (v : option (list ApiTypes.Condition)) : list ApiTypes.Condition := default [] v.

(** They do to a slice what their by-value counterparts do to its conditions; the
    second writes to nothing but the slice's array and new memory. *)
Class SliceLaws (S : SliceHelpers) : Prop := {
    Find_ok h s v ty :
      view h s = Some v → Find s ty h = Some (ApiTypes.FindStatusCondition (conditions_of v) ty, h);
    SetIn_ok now h s v c :
      view h s = Some v → ∃ s' h', SetIn now s c h = Some (s', h') ∧
        view h' s' = Some (Some (ApiTypes.SetStatusCondition now (conditions_of v) c)) ∧
        (∀ l, l ∈ dom h → l ∉ reach h s → h' !! l = h !! l) ∧ reach h' s' ## dom h ∖ reach h s;
  }.
End helpers.
Arguments SliceHelpers {_}.
Arguments SliceLaws {_ _} S.

Section gates.
Context `{MetadataCopies} `{HC : !ApiTypes.ConditionHelpers}.
Context (S : SliceHelpers) (laws : SliceLaws S).
#[local] Existing Instance S.

(** ** The device's status *)

(** The end of [projectStatus], its clock at [now], for the device at [dev]. *)
Definition projectStatus_in (now : Z) (dev : loc) (phase : string) (healthy : ApiTypes.Condition) :
    M DeviceStatus :=
  d ← load (T := EdgeDevice) dev;
  st ← EdgeDeviceStatus_DeepCopyInto (Status d);
  conditions ← SetIn now (Conditions st) healthy;
  mret (mkEdgeDeviceStatus phase conditions (CurrentFirmwareVersion st) (ActiveSlot st)
    (LastHeartbeat st) (ObservedGeneration st)).

Definition statusEqual_in (a b : DeviceStatus) : M bool :=
  if decide (Phase a = Phase b) then
    ca ← Find (Conditions a) ApiTypes.ConditionHealthy;
    cb ← Find (Conditions b) ApiTypes.ConditionHealthy;
    mret match ca, cb with
         | Some ca, Some cb =>
             bool_decide (ApiTypes.Status' ca = ApiTypes.Status' cb ∧
               ApiTypes.Reason ca = ApiTypes.Reason cb ∧
               ApiTypes.ObservedGeneration' ca = ApiTypes.ObservedGeneration' cb)
         | None, None => true
         | _, _ => false
         end
  else mret false.

(** Gate 1, up to the call of [Update]: whether there is one. *)
Definition device_gate (dev : loc) (newStatus : DeviceStatus) : M bool :=
  d ← load (T := EdgeDevice) dev;
  equal ← statusEqual_in (Status d) newStatus;
  if (equal : bool) then mret false
  else
    let st := Status d in
    _ ← assign dev (mkResource (Types d) (Meta d) (Spec d)
          (mkEdgeDeviceStatus (Phase newStatus) (Conditions newStatus) (CurrentFirmwareVersion st)
             (ActiveSlot st) (LastHeartbeat st) (ObservedGeneration st) : DeviceStatus));
    mret true.

Definition device_observed (now : Z) (dev : loc) (phase : string) (healthy : ApiTypes.Condition) : M bool :=
  newStatus ← projectStatus_in now dev phase healthy; device_gate dev newStatus.

(** ** The rollout's status *)

(** The counters of a pass, as [newStatus] receives them. *)
Record counters := mkCounters {
    phase_now : string; selected_now : Z; targeted_now : Z; succeeded_now : Z; failed_now : Z;
    generation_now : Z;
  }.

Definition rollout_newStatus (now : Z) (ro : loc) (k : counters) (cond : ApiTypes.Condition) :
    M RolloutStatus :=
  r ← load (T := FleetRollout) ro;
  st ← FleetRolloutStatus_DeepCopyInto (Status r);
  conditions ← SetIn now (RolloutConditions st) cond;
  mret (mkFleetRolloutStatus (phase_now k) (selected_now k) (targeted_now k) (succeeded_now k)
    (failed_now k) conditions (generation_now k)).

Definition rolloutStatusEqual_in (a b : RolloutStatus) : M bool :=
  if decide (RolloutPhase a = RolloutPhase b ∧ Selected a = Selected b ∧ Targeted a = Targeted b ∧
             Succeeded a = Succeeded b ∧ Failed a = Failed b ∧
             RolloutObservedGeneration a = RolloutObservedGeneration b) then
    ca ← Find (RolloutConditions a) ApiTypes.ConditionBreakerTripped;
    cb ← Find (RolloutConditions b) ApiTypes.ConditionBreakerTripped;
    mret match ca, cb with
         | Some ca, Some cb => bool_decide (ApiTypes.Status' ca = ApiTypes.Status' cb ∧
                                            ApiTypes.Reason ca = ApiTypes.Reason cb)
         | None, None => true
         | _, _ => false
         end
  else mret false.

Definition rollout_observed (now : Z) (ro : loc) (k : counters) (cond : ApiTypes.Condition) : M bool :=
  newStatus ← rollout_newStatus now ro k cond;
  r ← load (T := FleetRollout) ro;
  equal ← rolloutStatusEqual_in (Status r) newStatus;
  if (equal : bool) then mret false
  else _ ← assign ro (mkResource (Types r) (Meta r) (Spec r) newStatus); mret true.

(** ** The values they stand for *)

Definition device_status (v : View (T := DeviceStatus)) : ApiTypes.EdgeDeviceStatus :=
  ApiTypes.mkEdgeDeviceStatus (Phase v) (conditions_of (Conditions v)) (CurrentFirmwareVersion v)
    (ActiveSlot v) (LastHeartbeat v) (ObservedGeneration v).

Definition rollout_status (v : View (T := RolloutStatus)) : ApiTypes.FleetRolloutStatus :=
  ApiTypes.mkFleetRolloutStatus (RolloutPhase v) (Selected v) (Targeted v) (Succeeded v) (Failed v)
    (conditions_of (RolloutConditions v)) (RolloutObservedGeneration v).

(** What [DeviceController.project] gives. *)
Definition projected (now : Z) (st : ApiTypes.EdgeDeviceStatus) (phase : string)
    (healthy : ApiTypes.Condition) : ApiTypes.EdgeDeviceStatus :=
  ApiTypes.mkEdgeDeviceStatus phase
    (ApiTypes.SetStatusCondition now (ApiTypes.Conditions st) healthy)
    (ApiTypes.CurrentFirmwareVersion st) (ApiTypes.ActiveSlot st) (ApiTypes.LastHeartbeat st)
    (ApiTypes.ObservedGeneration st).

Lemma project_projected {E} `{!ApiTypes.ApiErrors E} d phase healthy requeue :
  DeviceController.project (E := E) d phase healthy requeue =
  (now <- DeviceController.call (E := E) DeviceController.Now ;;
   Ret (projected now (ApiTypes.Status d) phase healthy, requeue))%prog.
Proof. done. Qed.

(** ** Setting a condition on a copy *)

Lemma set_on_copy now h h1 s v c :
  h ⊆ h1 → view h1 s = Some v → reach h1 s ## dom h →
  ∃ s' h2, SetIn now s c h1 = Some (s', h2) ∧ h ⊆ h2 ∧
    view h2 s' = Some (Some (ApiTypes.SetStatusCondition now (conditions_of v) c)) ∧
    reach h2 s' ## dom h.
Proof.
  intros Hh Hv Hr. destruct (SetIn_ok now h1 s v c Hv) as (s' & h2 & E & Hv2 & Hkeep & Hr2).
  exists s', h2. split_and!; [done| |done|].
  - apply map_subseteq_spec. intros l x Hl. rewrite Hkeep; [by eapply lookup_weaken| |].
    + apply subseteq_dom in Hh. apply elem_of_dom_2 in Hl. set_solver.
    + apply elem_of_dom_2 in Hl. set_solver.
  - apply subseteq_dom in Hh. set_solver.
Qed.

Lemma view_status h (st : DeviceStatus) t :
  view h st = Some t → ∃ cv hv, view h (Conditions st) = Some cv ∧ view h (LastHeartbeat st) = Some hv ∧
    t = mkEdgeDeviceStatus (Phase st) cv (CurrentFirmwareVersion st) (ActiveSlot st) hv
          (ObservedGeneration st).
Proof.
  intros ([cv hv] & (c & Hc & (b & Hb & [= <- <-])%bind_Some)%bind_Some & ->)%fmap_Some. eauto.
Qed.

Lemma view_device h (d : EdgeDevice) v :
  view h d = Some v → view h (Meta d) = Some (Meta v) ∧ view h (Spec d) = Some (Spec v) ∧
    view h (Status d) = Some (Status v) ∧ Types v = Types d.
Proof.
  intros ([m [i t]] & (m' & Hm & ([i' t'] & (i'' & Hi & (t'' & Ht & E)%bind_Some)%bind_Some & E')%bind_Some)%bind_Some & ->)%fmap_Some.
  by simplify_eq.
Qed.

Lemma view_rollout h (d : FleetRollout) v :
  view h d = Some v → view h (Meta d) = Some (Meta v) ∧ view h (Spec d) = Some (Spec v) ∧
    view h (Status d) = Some (Status v) ∧ Types v = Types d.
Proof.
  intros ([m [i t]] & (m' & Hm & ([i' t'] & (i'' & Hi & (t'' & Ht & E)%bind_Some)%bind_Some & E')%bind_Some)%bind_Some & ->)%fmap_Some.
  by simplify_eq.
Qed.

Lemma view_status_of h (st : DeviceStatus) cv hv :
  view h (Conditions st) = Some cv → view h (LastHeartbeat st) = Some hv →
  view h st = Some (mkEdgeDeviceStatus (Phase st) cv (CurrentFirmwareVersion st) (ActiveSlot st) hv
    (ObservedGeneration st) : View (T := DeviceStatus)).
Proof.
  intros Hc Hh. change ((λ v, mkEdgeDeviceStatus (Phase st) v.1 (CurrentFirmwareVersion st)
    (ActiveSlot st) v.2 (ObservedGeneration st)) <$>
    (a ← view h (Conditions st); b ← view h (LastHeartbeat st); Some (a, b)) = Some
    (mkEdgeDeviceStatus (Phase st) cv (CurrentFirmwareVersion st) (ActiveSlot st) hv
      (ObservedGeneration st))).
  by rewrite Hc, Hh.
Qed.

Lemma view_rollout_status_of h (st : RolloutStatus) cv :
  view h (RolloutConditions st) = Some cv →
  view h st = Some (mkFleetRolloutStatus (RolloutPhase st) (Selected st) (Targeted st) (Succeeded st)
    (Failed st) cv (RolloutObservedGeneration st) : View (T := RolloutStatus)).
Proof.
  intros Hc. change ((λ v, mkFleetRolloutStatus (RolloutPhase st) (Selected st) (Targeted st)
    (Succeeded st) (Failed st) v (RolloutObservedGeneration st)) <$> view h (RolloutConditions st) =
    Some (mkFleetRolloutStatus (RolloutPhase st) (Selected st) (Targeted st) (Succeeded st) (Failed st)
      cv (RolloutObservedGeneration st))).
  by rewrite Hc.
Qed.

Lemma view_device_at h l (d : EdgeDevice) m i t :
  h !! l = Some (CDevice d) → view h (Meta d) = Some m → view h (Spec d) = Some i →
  view h (Status d) = Some t →
  view h (addr (T := EdgeDevice) l) = Some (Some (mkResource (Types d) m i t)).
Proof.
  intros Hl Hm Hi Ht. change ((x ← h !! l ≫= seen (T := EdgeDevice); Some <$>
    ((λ v, mkResource (Types x) v.1 v.2.1 v.2.2) <$> (a ← view h (Meta x);
      b ← (a ← view h (Spec x); b ← view h (Status x); Some (a, b)); Some (a, b)))) =
    Some (Some (mkResource (Types d) m i t))).
  rewrite Hl. cbn [mbind option_bind seen device_stored]. by rewrite Hm, Hi, Ht.
Qed.

Lemma view_rollout_at h l (d : FleetRollout) m i t :
  h !! l = Some (CRollout d) → view h (Meta d) = Some m → view h (Spec d) = Some i →
  view h (Status d) = Some t →
  view h (addr (T := FleetRollout) l) = Some (Some (mkResource (Types d) m i t)).
Proof.
  intros Hl Hm Hi Ht. change ((x ← h !! l ≫= seen (T := FleetRollout); Some <$>
    ((λ v, mkResource (Types x) v.1 v.2.1 v.2.2) <$> (a ← view h (Meta x);
      b ← (a ← view h (Spec x); b ← view h (Status x); Some (a, b)); Some (a, b)))) =
    Some (Some (mkResource (Types d) m i t))).
  rewrite Hl. cbn [mbind option_bind seen rollout_stored]. by rewrite Hm, Hi, Ht.
Qed.

(** The part of [projectStatus] that runs on the copy. *)
Lemma projectStatus_in_ok now dev phase healthy h d t :
  h !! dev = Some (CDevice d) → view h (Status d) = Some t →
  ∃ st h2, projectStatus_in now dev phase healthy h = Some (st, h2) ∧ h ⊆ h2 ∧
    Phase st = phase ∧ reach h2 (Conditions st) ## dom h ∧
    view h2 (Conditions st) =
      Some (Some (ApiTypes.SetStatusCondition now (conditions_of (Conditions t)) healthy)).
Proof.
  intros Hd Ht. destruct (EdgeDeviceStatus_copies h (Status d) t Ht) as (y & h1 & E1 & Hh1 & Hy & Ry).
  destruct (view_status _ _ _ Hy) as (cv & hv & Hcv & _ & Et).
  destruct (set_on_copy now h h1 (Conditions y) cv healthy Hh1 Hcv) as (s' & h2 & E2 & Hh2 & Hv2 & Hr2).
  { assert (reach h1 y = reach h1 (Conditions y) ∪ reach h1 (LastHeartbeat y)) as E by done. set_solver. }
  exists (mkEdgeDeviceStatus phase s' (CurrentFirmwareVersion y) (ActiveSlot y) (LastHeartbeat y)
    (ObservedGeneration y)), h2.
  split_and!; [|done|done|done|by rewrite Et].
  unfold projectStatus_in. erewrite bind_ok by (apply load_seen; by rewrite Hd).
  erewrite bind_ok by exact E1. erewrite bind_ok by exact E2. done.
Qed.

Lemma statusEqual_in_ok h (a b : DeviceStatus) va vb :
  view h (Conditions a) = Some va → view h (Conditions b) = Some vb →
  statusEqual_in a b h = Some (DeviceController.statusEqual
    (ApiTypes.mkEdgeDeviceStatus (Phase a) (conditions_of va) "" "" None 0)
    (ApiTypes.mkEdgeDeviceStatus (Phase b) (conditions_of vb) "" "" None 0), h).
Proof.
  intros Ha Hb. unfold statusEqual_in, DeviceController.statusEqual.
  cbn [ApiTypes.Phase ApiTypes.Conditions]. case_decide; [|done].
  erewrite bind_ok by by apply Find_ok. by erewrite bind_ok by by apply Find_ok.
Qed.

Lemma rolloutStatusEqual_in_ok h (a b : RolloutStatus) va vb :
  view h (RolloutConditions a) = Some va → view h (RolloutConditions b) = Some vb →
  rolloutStatusEqual_in a b h = Some (RolloutController.rolloutStatusEqual
    (ApiTypes.mkFleetRolloutStatus (RolloutPhase a) (Selected a) (Targeted a) (Succeeded a) (Failed a)
       (conditions_of va) (RolloutObservedGeneration a))
    (ApiTypes.mkFleetRolloutStatus (RolloutPhase b) (Selected b) (Targeted b) (Succeeded b) (Failed b)
       (conditions_of vb) (RolloutObservedGeneration b)), h).
Proof.
  intros Ha Hb. unfold rolloutStatusEqual_in, RolloutController.rolloutStatusEqual.
  cbn [ApiTypes.RPhase ApiTypes.Selected ApiTypes.Targeted ApiTypes.Succeeded ApiTypes.Failed
       ApiTypes.RConditions ApiTypes.RObservedGeneration]. case_decide; [|done].
  erewrite bind_ok by by apply Find_ok. by erewrite bind_ok by by apply Find_ok.
Qed.

(** Assigning to a cell a value that was read does not look at. *)
Lemma kept {T} `{vT : @Viewed api_metav1 T} h h2 l c (x : T) v :
  view h x = Some v → h ⊆ h2 → l ∉ reach h x → view (<[l:=c]> h2) x = Some v.
Proof.
  intros Hx Hh Hl. destruct (view_mono h h2 x v Hx Hh) as [Hx2 Rx].
  apply (view_local h2 _ x v Hx2). intros k Hk. apply lookup_insert_ne. rewrite Rx in Hk. congruence.
Qed.

Lemma kept_new {T} `{vT : @Viewed api_metav1 T} (h h2 : gmap positive cell) l c (x : T) v :
  view h2 x = Some v → reach h2 x ## dom h → l ∈ dom h → view (<[l:=c]> h2) x = Some v.
Proof.
  intros Hx Hr Hl. apply (view_local h2 _ x v Hx). intros k Hk. apply lookup_insert_ne. set_solver.
Qed.

Lemma device_assigned h h2 dev d v st cv :
  h !! dev = Some (CDevice d) → view h d = Some v → dev ∉ reach h d → h ⊆ h2 →
  view h2 (Conditions st) = Some cv → reach h2 (Conditions st) ## dom h →
  LastHeartbeat st = LastHeartbeat (Status d) →
  view (<[dev := CDevice (mkResource (Types d) (Meta d) (Spec d) st)]> h2) (addr (T := EdgeDevice) dev) =
  Some (Some (mkResource (Types v) (Meta v) (Spec v)
    (mkEdgeDeviceStatus (Phase st) cv (CurrentFirmwareVersion st) (ActiveSlot st)
       (LastHeartbeat (Status v)) (ObservedGeneration st) : View (T := DeviceStatus)))).
Proof.
  intros Hd Hv Hself Hh Hcv Hr Hhb. pose proof (elem_of_dom_2 _ _ _ Hd) as Hdev.
  destruct (view_device _ _ _ Hv) as (Hm & Hs & Ht & Hty).
  destruct (view_status _ _ _ Ht) as (cv0 & hv & _ & Hhv & Etv).
  assert (reach h d = reach h (Meta d) ∪ (reach h (Spec d) ∪
    (reach h (Conditions (Status d)) ∪ reach h (LastHeartbeat (Status d))))) as Hreach by done.
  rewrite Etv, Hty. cbn [LastHeartbeat].
  apply (view_device_at _ dev (mkResource (Types d) (Meta d) (Spec d) st)); [apply lookup_insert_eq|..].
  - apply (kept h); [done|done|set_solver].
  - apply (kept h); [done|done|set_solver].
  - apply view_status_of; [by apply (kept_new h)|]. cbn [Status]. rewrite Hhb.
    apply (kept h); [done|done|set_solver].
Qed.

Lemma rollout_assigned h h2 ro r v st cv :
  h !! ro = Some (CRollout r) → view h r = Some v → ro ∉ reach h r → h ⊆ h2 →
  view h2 (RolloutConditions st) = Some cv → reach h2 (RolloutConditions st) ## dom h →
  view (<[ro := CRollout (mkResource (Types r) (Meta r) (Spec r) st)]> h2) (addr (T := FleetRollout) ro) =
  Some (Some (mkResource (Types v) (Meta v) (Spec v)
    (mkFleetRolloutStatus (RolloutPhase st) (Selected st) (Targeted st) (Succeeded st) (Failed st) cv
       (RolloutObservedGeneration st) : View (T := RolloutStatus)))).
Proof.
  intros Hd Hv Hself Hh Hcv Hr. pose proof (elem_of_dom_2 _ _ _ Hd) as Hro.
  destruct (view_rollout _ _ _ Hv) as (Hm & Hs & Ht & Hty).
  assert (reach h r = reach h (Meta r) ∪ (reach h (Spec r) ∪ reach h (RolloutConditions (Status r))))
    as Hreach by done.
  rewrite Hty.
  apply (view_rollout_at _ ro (mkResource (Types r) (Meta r) (Spec r) st)); [apply lookup_insert_eq|..].
  - apply (kept h); [done|done|set_solver].
  - apply (kept h); [done|done|set_solver].
  - apply view_rollout_status_of. by apply (kept_new h).
Qed.

Lemma rollout_newStatus_ok now ro k cond h r t :
  h !! ro = Some (CRollout r) → view h (Status r) = Some t →
  ∃ s h2, rollout_newStatus now ro k cond h = Some
      (mkFleetRolloutStatus (phase_now k) (selected_now k) (targeted_now k) (succeeded_now k)
        (failed_now k) s (generation_now k), h2) ∧ h ⊆ h2 ∧ reach h2 s ## dom h ∧
    view h2 s =
      Some (Some (ApiTypes.SetStatusCondition now (conditions_of (RolloutConditions t)) cond)).
Proof.
  intros Hr Ht. destruct (FleetRolloutStatus_copies h (Status r) t Ht) as (y & h1 & E1 & Hh1 & Hy & Ry).
  apply fmap_Some in Hy as Hy'. destruct Hy' as (cv & Hcv & Et).
  destruct (set_on_copy now h h1 (RolloutConditions y) cv cond Hh1 Hcv Ry) as (s' & h2 & E2 & Hh2 & Hv2 & Hr2).
  exists s', h2. split_and!; [|done|done|by rewrite Et].
  unfold rollout_newStatus. erewrite bind_ok by (apply load_seen; by rewrite Hr).
  erewrite bind_ok by exact E1. erewrite bind_ok by exact E2. done.
Qed.

(** What a gate does to the object at [l], that stood for [v]: whether it calls for an
    update, and the object then; nothing else that was there has changed. *)
Definition device_gated (h : gmap positive cell) (dev : loc) (v : View (T := EdgeDevice))
    (same : bool) (after : ApiTypes.EdgeDeviceStatus) (r : option (bool * gmap positive cell)) : Prop :=
  ∃ h' (v' : View (T := EdgeDevice)), r = Some (negb same, h') ∧
    view h' (addr (T := EdgeDevice) dev) = Some (Some v') ∧
    Types v' = Types v ∧ Meta v' = Meta v ∧ Spec v' = Spec v ∧
    device_status (Status v') = (if same then device_status (Status v) else after) ∧
    ∀ k, k ∈ dom h → k ≠ dev → h' !! k = h !! k.

Definition rollout_gated (h : gmap positive cell) (ro : loc) (v : View (T := FleetRollout))
    (same : bool) (after : ApiTypes.FleetRolloutStatus) (r : option (bool * gmap positive cell)) : Prop :=
  ∃ h' (v' : View (T := FleetRollout)), r = Some (negb same, h') ∧
    view h' (addr (T := FleetRollout) ro) = Some (Some v') ∧
    Types v' = Types v ∧ Meta v' = Meta v ∧ Spec v' = Spec v ∧
    rollout_status (Status v') = (if same then rollout_status (Status v) else after) ∧
    ∀ k, k ∈ dom h → k ≠ ro → h' !! k = h !! k.

Lemma kept_cells (h h2 : gmap positive cell) l c k :
  h ⊆ h2 → k ∈ dom h → k ≠ l → <[l:=c]> h2 !! k = h !! k.
Proof.
  intros Hh [x Hx]%elem_of_dom Hk. rewrite lookup_insert_ne, Hx by done. by eapply lookup_weaken.
Qed.

Lemma kept_cells_read (h h2 : gmap positive cell) k : h ⊆ h2 → k ∈ dom h → h2 !! k = h !! k.
Proof. intros Hh [x Hx]%elem_of_dom. rewrite Hx. by eapply lookup_weaken. Qed.

Lemma device_at h l (d : EdgeDevice) v :
  h !! l = Some (CDevice d) → view h d = Some v → view h (addr (T := EdgeDevice) l) = Some (Some v).
Proof.
  intros Hl Hv. change ((x ← h !! l ≫= seen (T := EdgeDevice); Some <$> view h x) = Some (Some v)).
  rewrite Hl. cbn [mbind option_bind seen device_stored]. by rewrite Hv.
Qed.

Lemma rollout_at h l (r : FleetRollout) v :
  h !! l = Some (CRollout r) → view h r = Some v → view h (addr (T := FleetRollout) l) = Some (Some v).
Proof.
  intros Hl Hv. change ((x ← h !! l ≫= seen (T := FleetRollout); Some <$> view h x) = Some (Some v)).
  rewrite Hl. cbn [mbind option_bind seen rollout_stored]. by rewrite Hv.
Qed.

Lemma device_observed_ok now dev phase healthy h d v :
  h !! dev = Some (CDevice d) → view h d = Some v → dev ∉ reach h d →
  let new := projected now (device_status (Status v)) phase healthy in
  device_gated h dev v (DeviceController.statusEqual (device_status (Status v)) new) new
    (device_observed now dev phase healthy h).
Proof.
  intros Hd Hv Hself new. destruct (view_device _ _ _ Hv) as (Hm & Hs & Ht & Hty).
  destruct (view_status _ _ _ Ht) as (cv & hv & Hcv & Hhv & Et).
  destruct (projectStatus_in_ok now dev phase healthy h d _ Hd Ht)
    as (st & h2 & E & Hh2 & Hph & Hr & Hnew).
  assert (h2 !! dev = Some (CDevice d)) as Hd2 by by eapply lookup_weaken.
  destruct (view_mono h h2 _ _ Hcv Hh2) as [Hcv2 _].
  set (same := DeviceController.statusEqual _ _).
  assert (statusEqual_in (Status d) st h2 = Some (same, h2)) as Eq.
  { rewrite (statusEqual_in_ok h2 _ _ _ _ Hcv2 Hnew). unfold same, new. rewrite Et, Hph. done. }
  unfold device_observed. erewrite bind_ok by exact E. unfold device_gate.
  erewrite bind_ok by (apply load_seen; by rewrite Hd2). erewrite bind_ok by exact Eq.
  destruct same.
  - exists h2, v. destruct (view_mono h h2 _ _ Hv Hh2) as [Hv2 _].
    split_and!; [done|by eapply device_at|done..|]. intros k Hk _. by apply kept_cells_read.
  - set (st' := mkEdgeDeviceStatus (Phase st) (Conditions st) (CurrentFirmwareVersion (Status d))
      (ActiveSlot (Status d)) (LastHeartbeat (Status d)) (ObservedGeneration (Status d)) : DeviceStatus).
    eexists _, _. split; [|split; [apply (device_assigned h h2 dev d v st'); [done..|exact Hnew|exact Hr|done]|]].
    + erewrite bind_ok by (eapply assign_seen; by rewrite Hd2). done.
    + split_and!; [done..| |intros k Hk Hne; by apply kept_cells].
      unfold new, projected, st'. rewrite <-Hph, Et. done.
Qed.

Lemma rollout_observed_ok now ro k cond h r v :
  h !! ro = Some (CRollout r) → view h r = Some v → ro ∉ reach h r →
  let old := rollout_status (Status v) in
  let new := ApiTypes.mkFleetRolloutStatus (phase_now k) (selected_now k) (targeted_now k)
    (succeeded_now k) (failed_now k)
    (ApiTypes.SetStatusCondition now (ApiTypes.RConditions old) cond) (generation_now k) in
  rollout_gated h ro v (RolloutController.rolloutStatusEqual old new) new
    (rollout_observed now ro k cond h).
Proof.
  intros Hd Hv Hself old new. destruct (view_rollout _ _ _ Hv) as (Hm & Hs & Ht & Hty).
  apply fmap_Some in Ht as Ht'. destruct Ht' as (cv & Hcv & Et).
  destruct (rollout_newStatus_ok now ro k cond h r _ Hd Ht) as (s & h2 & E & Hh2 & Hr & Hnew).
  set (st := mkFleetRolloutStatus (phase_now k) (selected_now k) (targeted_now k) (succeeded_now k)
    (failed_now k) s (generation_now k)) in E.
  assert (h2 !! ro = Some (CRollout r)) as Hd2 by by eapply lookup_weaken.
  destruct (view_mono h h2 _ _ Hcv Hh2) as [Hcv2 _].
  set (same := RolloutController.rolloutStatusEqual _ _).
  assert (rolloutStatusEqual_in (Status r) st h2 = Some (same, h2)) as Eq.
  { rewrite (rolloutStatusEqual_in_ok h2 (Status r) st _ _ Hcv2 Hnew). unfold same, new, old.
    rewrite Et. done. }
  unfold rollout_observed. erewrite bind_ok by exact E.
  erewrite bind_ok by (apply load_seen; by rewrite Hd2). erewrite bind_ok by exact Eq.
  destruct same.
  - exists h2, v. destruct (view_mono h h2 _ _ Hv Hh2) as [Hv2 _].
    split_and!; [done|by eapply rollout_at|done..|]. intros l Hk _. by apply kept_cells_read.
  - eexists _, _. split; [|split; [eapply (rollout_assigned h h2 ro r v st); [done..|exact Hnew|exact Hr]|]].
    + erewrite bind_ok by (eapply assign_seen; by rewrite Hd2). done.
    + split_and!; [done..|intros l Hk Hne; by apply kept_cells].
Qed.
End gates.

(** ** An executable package meta *)

Section in_place.
Context `{MetadataTypes}.

Definition find_in (s : slice ApiTypes.Condition) (ty : string) : M (option ApiTypes.Condition) :=
  match s with
  | nil_slice => mret None
  | window a off n _ =>
      xs ← load (T := list ApiTypes.Condition) a;
      mret (ApiTypes.find_cond (take n (drop off xs)) ty)
  end.

(** The condition found is overwritten in the array; a new one goes into the array's
    spare room, or into a larger array. *)
Definition set_in (now : Z) (s : slice ApiTypes.Condition) (c : ApiTypes.Condition) :
    M (slice ApiTypes.Condition) :=
  match s with
  | nil_slice => a ← alloc [ApiTypes.merged now None c]; mret (window a 0 1 1)
  | window a off n cap =>
      xs ← load (T := list ApiTypes.Condition) a;
      let cs := take n (drop off xs) in
      match list_find (λ x, ApiTypes.Type' x = ApiTypes.Type' c) cs with
      | Some (i, old) =>
          _ ← assign a (<[(off + i)%nat := ApiTypes.merged now (Some old) c]> xs); mret s
      | None =>
          if decide (n < cap ∧ off + n < length xs)%nat then
            _ ← assign a (<[(off + n)%nat := ApiTypes.merged now None c]> xs); mret (window a off (S n) cap)
          else
            b ← alloc (cs ++ [ApiTypes.merged now None c]); mret (window b 0 (S n) (S n))
      end
  end.

#[global] Instance in_place_helpers : SliceHelpers := {| Find := find_in; SetIn := set_in |}.

Lemma mapM_plain (h : gmap positive cell) (cs : list ApiTypes.Condition) : mapM (view h) cs = Some cs.
Proof. induction cs as [|c cs IH]; [done|]. cbn in *. by rewrite IH. Qed.

Lemma reach_plain (h : gmap positive cell) (cs : list ApiTypes.Condition) : reach_all h cs = ∅.
Proof. induction cs as [|c cs IH]; [done|]. rewrite reach_all_cons, IH. done. Qed.

Lemma view_window (h : gmap positive cell) a off n cap (xs : list ApiTypes.Condition) :
  h !! a ≫= seen = Some xs → (off + n ≤ length xs)%nat →
  view h (window (T := ApiTypes.Condition) a off n cap) = Some (Some (take n (drop off xs))).
Proof.
  intros Hx Hn. assert (contents h (window (T := ApiTypes.Condition) a off n cap) =
    Some (take n (drop off xs))) as Hc.
  { unfold contents. rewrite Hx. cbn [mbind option_bind]. by rewrite decide_True. }
  unfold view, viewed_slice. rewrite Hc. cbn [mbind option_bind]. by rewrite mapM_plain.
Qed.

Lemma view_window_inv (h : gmap positive cell) a off n cap v :
  view h (window (T := ApiTypes.Condition) a off n cap) = Some v →
  ∃ xs : list ApiTypes.Condition, h !! a ≫= seen = Some xs ∧ (off + n ≤ length xs)%nat ∧
    v = Some (take n (drop off xs)).
Proof.
  intros Hv. assert (∃ xs : list ApiTypes.Condition, h !! a ≫= seen = Some xs ∧ (off + n ≤ length xs)%nat) as (xs & Hx & Hn).
  { apply bind_Some in Hv as (ys & Hc & _). cbn in Hc. apply bind_Some in Hc as (xs & Hx & E).
    case_decide; [|done]. eauto. }
  exists xs. split_and!; [done|done|]. rewrite (view_window h a off n cap xs Hx Hn) in Hv. by injection Hv.
Qed.

Lemma reach_window (h : gmap positive cell) a off n cap :
  reach h (window (T := ApiTypes.Condition) a off n cap) = {[ a ]}.
Proof.
  change ({[ a ]} ∪ reach_all h (default [] (contents h (window (T := ApiTypes.Condition) a off n cap)))
    = {[ a ]}). by rewrite reach_plain, (right_id_L ∅ (∪)).
Qed.

Lemma set_cond_found now cs c i old :
  list_find (λ x, ApiTypes.Type' x = ApiTypes.Type' c) cs = Some (i, old) →
  ApiTypes.set_cond now cs c = <[i := ApiTypes.merged now (Some old) c]> cs.
Proof.
  revert i. induction cs as [|x cs IH]; intros i; cbn [list_find ApiTypes.set_cond]; [done|].
  case_decide as Hx; [by intros [= <- <-]|].
  intros ([j y] & E & [= -> ->])%fmap_Some. by rewrite (IH j E).
Qed.

Lemma set_cond_new now cs c :
  list_find (λ x, ApiTypes.Type' x = ApiTypes.Type' c) cs = None →
  ApiTypes.set_cond now cs c = cs ++ [ApiTypes.merged now None c].
Proof.
  induction cs as [|x cs IH]; cbn [list_find ApiTypes.set_cond]; [done|].
  case_decide as Hx; [done|]. intros E%fmap_None. by rewrite IH.
Qed.

Lemma take_drop_insert {A} (xs : list A) off n i x :
  (i < n)%nat → take n (drop off (<[(off + i)%nat := x]> xs)) = <[i := x]> (take n (drop off xs)).
Proof.
  intros Hi. rewrite drop_insert_ge by lia. replace (off + i - off)%nat with i by lia.
  by rewrite take_insert_lt.
Qed.

Lemma take_drop_append {A} (xs : list A) off n x :
  (off + n < length xs)%nat →
  take (S n) (drop off (<[(off + n)%nat := x]> xs)) = take n (drop off xs) ++ [x].
Proof.
  intros Hn. rewrite drop_insert_ge by lia. replace (off + n - off)%nat with n by lia.
  erewrite take_S_r by (apply list_lookup_insert_eq; rewrite length_drop; lia).
  by rewrite take_insert_ge.
Qed.

#[local] Instance plain_helpers : ApiTypes.ConditionHelpers := ApiTypes.plain_conditions.
Context `{!MetadataCopies}.

(** What a run of [set_in] owes its caller. *)
Definition set_ok now (h : gmap positive cell) (s : slice ApiTypes.Condition) cs c
    (r : option (slice ApiTypes.Condition * gmap positive cell)) : Prop :=
  ∃ s' h', r = Some (s', h') ∧ view h' s' = Some (Some (ApiTypes.set_cond now cs c)) ∧
    (∀ l, l ∈ dom h → l ∉ reach h s → h' !! l = h !! l) ∧ reach h' s' ## dom h ∖ reach h s.

(** A new array with these conditions. *)
Lemma set_fresh now (h : gmap positive cell) s cs c n :
  length (ApiTypes.set_cond now cs c) = n →
  set_ok now h s cs c ((b ← alloc (ApiTypes.set_cond now cs c); mret (window b 0 n n)) h).
Proof.
  intros Hn. set (b := fresh (dom h)). assert (b ∉ dom h) as Hb by apply fresh_dom.
  set (h' := <[b := store (ApiTypes.set_cond now cs c)]> h).
  exists (window b 0 n n), h'. split_and!; [done| | |].
  - erewrite (view_window h' b 0 n n (ApiTypes.set_cond now cs c)); [|apply seen_insert|lia].
    by rewrite drop_0, take_ge by lia.
  - intros l Hl _. apply lookup_insert_ne. congruence.
  - rewrite reach_window. set_solver.
Qed.

(** The slice's own array, written to. *)
Lemma set_written now (h : gmap positive cell) a off n cap xs ys m c :
  h !! a ≫= seen = Some xs → (off + m ≤ length ys)%nat →
  take m (drop off ys) = ApiTypes.set_cond now (take n (drop off xs)) c →
  set_ok now h (window a off n cap) (take n (drop off xs)) c
    ((_ ← assign a (ys : list ApiTypes.Condition); mret (window a off m cap)) h).
Proof.
  intros Hx Hm E. eexists _, _. split; [by erewrite bind_ok by by eapply assign_seen|].
  rewrite reach_window. split_and!.
  - by erewrite view_window, E by (first [apply seen_insert|done]).
  - intros l _ Hl. apply lookup_insert_ne. set_solver.
  - rewrite reach_window. set_solver.
Qed.

Lemma set_in_ok now (h : gmap positive cell) s v c :
  view h s = Some v → set_ok now h s (conditions_of v) c (set_in now s c h).
Proof.
  destruct s as [|a off n cap]; intros Hv; [injection Hv as <-; by apply (set_fresh now h nil_slice [])|].
  destruct (view_window_inv h a off n cap v Hv) as (xs & Hx & Hn & ->). cbn [conditions_of].
  unfold set_in. erewrite bind_ok by by apply load_seen. cbv zeta.
  assert (length (take n (drop off xs)) = n) as Hlen by (rewrite length_take, length_drop; lia).
  change (conditions_of (Some ?l)) with l.
  destruct (list_find _ (take n (drop off xs))) as [[i old]|] eqn:E.
  - assert (i < n)%nat as Hi.
    { apply list_find_Some in E as (E & _). apply lookup_lt_Some in E. lia. }
    apply (set_written now h a off n cap xs); [done|by rewrite length_insert|].
    by rewrite take_drop_insert, (set_cond_found _ _ _ _ _ E).
  - pose proof (set_cond_new now _ c E) as Enew. case_decide as Hroom.
    + apply (set_written now h a off n cap xs); [done|rewrite length_insert; lia|].
      by rewrite take_drop_append, Enew by lia.
    + rewrite <-Enew. apply set_fresh. rewrite Enew, length_app, Hlen. cbn. lia.
Qed.

Lemma in_place_laws : SliceLaws in_place_helpers.
Proof.
  split; [|intros now h s v c; apply set_in_ok].
  intros h [|a off n cap] v ty Hv; [by injection Hv as <-|].
  destruct (view_window_inv h a off n cap v Hv) as (xs & Hx & _ & ->).
  change (find_in (window a off n cap) ty h = Some (ApiTypes.find_cond (take n (drop off xs)) ty, h)).
  unfold find_in. by erewrite bind_ok by by apply load_seen.
Qed.
End in_place.

(** C23. The gates compare what was read with what was computed.  A reconciler sets a
    condition in place on its copy of a status, compares, and assigns the copy to the
    object it read.  On Go's heap, with slices that share arrays and any package meta
    that keeps its promise, both gates return, decide as the by-value [statusEqual] and
    [rolloutStatusEqual] of the other files do on the old status and the new one, and
    leave an object that stands for the new status if there is a difference, and for the
    old one if there is none; the rest of the object, and everything else on the heap, is
    as it was. *)
Theorem status_gates_in_place `{MetadataCopies} `{HC : !ApiTypes.ConditionHelpers}
    (S : SliceHelpers) :
  SliceLaws S →
  (∀ now dev phase healthy h d v,
     h !! dev = Some (CDevice d) → view h d = Some v → dev ∉ reach h d →
     let old := device_status (Status v) in
     let new := projected now old phase healthy in
     device_gated h dev v (DeviceController.statusEqual old new) new
       (device_observed S now dev phase healthy h)) ∧
  (∀ now ro k cond h r v,
     h !! ro = Some (CRollout r) → view h r = Some v → ro ∉ reach h r →
     let old := rollout_status (Status v) in
     let new := ApiTypes.mkFleetRolloutStatus (phase_now k) (selected_now k) (targeted_now k)
       (succeeded_now k) (failed_now k)
       (ApiTypes.SetStatusCondition now (ApiTypes.RConditions old) cond) (generation_now k) in
     rollout_gated h ro v (RolloutController.rolloutStatusEqual old new) new
       (rollout_observed S now ro k cond h)).
Proof.
  intros laws. split.
  - intros now dev phase healthy h d v. by apply device_observed_ok.
  - intros now ro k cond h r v. by apply rollout_observed_ok.
Qed.

(** A device whose heartbeat has just expired, in memory with room for more conditions. *)
Definition named_types : MetadataTypes := {|
    TMeta := string; TListMeta := string; TLib := unit; zero_meta := ""; zero_list_meta := "" |}.
#[local] Existing Instance named_types.
#[local] Instance plain_name : Viewed (lib := api_metav1 (H := named_types)) string := viewed_plain string.

#[refine, local] Instance named_copies : MetadataCopies := {|
    view_meta := plain_name; view_list_meta := plain_name; copy_meta := mret;
    copy_list_meta := mret; map_order := map_to_list |}.
Proof. - apply plain_copies. - apply plain_copies. - done. Defined.
#[local] Existing Instance ApiTypes.plain_conditions.

Definition fresh_heartbeat : ApiTypes.Condition :=
  ApiTypes.mkCondition "Healthy" "True" 1 5 "HeartbeatFresh" "agent is reporting".
Definition expired : ApiTypes.Condition :=
  ApiTypes.mkCondition "Healthy" "False" 1 0 "HeartbeatTimeout" "no heartbeat for more than 30s".

Definition read_device : EdgeDevice :=
  mkResource (mkTypeMeta "EdgeDevice" "edge.example.com/v1alpha1") "edge-001"
    (mkEdgeDeviceSpec "2.0.0" "http://fw" "abc" "lab" nil_map false)
    (mkEdgeDeviceStatus "Degraded" (window 2 0 1 2) "2.0.0" "A" (addr 3) 1%Z).

Definition read_heap : gmap positive cell :=
  <[1%positive := CDevice read_device]>
    (<[2%positive := CConditions [fresh_heartbeat; fresh_heartbeat]]> {[ 3%positive := CTime (7%Z : Time) ]}).

Definition read_value : View (T := EdgeDevice) :=
  mkResource (mkTypeMeta "EdgeDevice" "edge.example.com/v1alpha1") "edge-001"
    (mkEdgeDeviceSpec "2.0.0" "http://fw" "abc" "lab" None false)
    (mkEdgeDeviceStatus "Degraded" (Some [fresh_heartbeat]) "2.0.0" "A" (Some 7%Z) 1%Z).

(** The phase is the one stored already: only the condition tells that there is news. *)
Lemma status_gates_in_place_witness :
  DeviceController.statusEqual (device_status (Status read_value))
    (projected 40 (device_status (Status read_value)) "Degraded" expired) = false ∧
  device_gated read_heap 1 read_value false
    (projected 40 (device_status (Status read_value)) "Degraded" expired)
    (device_observed in_place_helpers 40 1 "Degraded" expired read_heap).
Proof.
  split; [vm_compute; reflexivity|].
  refine (proj1 (status_gates_in_place in_place_helpers in_place_laws) 40%Z 1%positive "Degraded"
    expired read_heap read_device read_value _ _ _).
  - vm_compute. reflexivity.
  - vm_compute. reflexivity.
  - apply (bool_decide_unpack _). vm_compute. exact I.
Defined.
