(* ===== verification/Scheme.v ===== *)
(** * The manager's scheme

    groupversion_info.go and the [init] functions of package v1alpha1 and of
    cmd/main.go: the kinds a client can read and write.  Package runtime of apimachinery
    is a class with its laws; the package variables and the order of their
    initialisation are the program's own. *)

From S2P Require Import Prelude GoLib ApiTypes DeviceController RolloutController.
From S2P Require Kube.

Record GroupVersion := mkGroupVersion { Group : string; Version : string }.

Definition core_v1 : GroupVersion := mkGroupVersion "" "v1".

Class SchemeLib := {
    Scheme : Type;
    Builder : Type;
    NewScheme : Scheme;
    NewSchemeBuilder : (Scheme → result goerr Scheme) → Builder;
    builder_register : Builder → (Scheme → result goerr Scheme) → Builder;
    apply_builder : Builder → Scheme → result goerr Scheme;
    AddToGroupVersion : GroupVersion → Scheme → Scheme;
    AddKnownTypes : GroupVersion → list string → Scheme → Scheme;
    clientgo_AddToScheme : Scheme → result goerr Scheme;
    Recognizes : Scheme → GroupVersion → string → bool;
  }.

(** A builder applies the functions it holds in order and stops at an error; the
    registrations add kinds and forget none; client-go's own scheme has the Secrets. *)
Class SchemeLaws (L : SchemeLib) : Prop := {
    apply_new f s : apply_builder (NewSchemeBuilder f) s = f s;
    apply_register b f s :
      apply_builder (builder_register b f) s =
      match apply_builder b s with Ok s => f s | Err e => Err e end;
    group_keeps gv s gv' kind :
      Recognizes s gv' kind = true → Recognizes (AddToGroupVersion gv s) gv' kind = true;
    known_added gv kinds s kind :
      kind ∈ kinds → Recognizes (AddKnownTypes gv kinds s) gv kind = true;
    known_kept gv kinds s gv' kind :
      Recognizes s gv' kind = true → Recognizes (AddKnownTypes gv kinds s) gv' kind = true;
    clientgo_ok : ∃ s, clientgo_AddToScheme NewScheme = Ok s ∧ Recognizes s core_v1 "Secret" = true;
  }.

Section scheme.
Context `{L : SchemeLib}.

(** ** Package v1alpha1 *)

Definition SchemeGroupVersion : GroupVersion := mkGroupVersion "edge.example.com" "v1alpha1".

(** The package's variables that change; those that do not are definitions. *)
Record package := mkPackage { SchemeBuilder : Builder }.

Definition variables : package :=
  mkPackage (NewSchemeBuilder (λ scheme, Ok (AddToGroupVersion SchemeGroupVersion scheme))).

(** The method value [SchemeBuilder.AddToScheme]: its receiver is a pointer, so what it
    applies is the builder at the time of the call, not of the variable's initialisation. *)
Definition AddToScheme (p : package) : Scheme → result goerr Scheme := apply_builder (SchemeBuilder p).

(** [init] of edgedevice_types.go and of fleetrollout_types.go. *)
Definition edgedevice_init (p : package) : package :=
  mkPackage (builder_register (SchemeBuilder p)
    (λ s, Ok (AddKnownTypes SchemeGroupVersion ["EdgeDevice"; "EdgeDeviceList"] s))).
Definition fleetrollout_init (p : package) : package :=
  mkPackage (builder_register (SchemeBuilder p)
    (λ s, Ok (AddKnownTypes SchemeGroupVersion ["FleetRollout"; "FleetRolloutList"] s))).

(** The package as its importers find it: variables first, then the [init] functions,
    file by file. *)
Definition loaded : package := fleetrollout_init (edgedevice_init variables).

(** ** cmd/main.go *)

(** [init]; [utilruntime.Must] panics on an error. *)
Definition main_init (p : package) : option Scheme :=
  match clientgo_AddToScheme NewScheme with
  | Err _ => None
  | Ok scheme => match AddToScheme p scheme with Err _ => None | Ok scheme => Some scheme end
  end.

(** ** The kinds in use *)

(** The Go type a client call is given, as its kind. *)
Definition device_kind (o : devop) : option (GroupVersion * string) :=
  match o with
  | CGet _ _ | CUpdate _ | CStatusUpdate _ => Some (SchemeGroupVersion, "EdgeDevice")
  | SGet _ _ | SCreate _ | SUpdate _ | SDelete _ _ => Some (core_v1, "Secret")
  | Now | RandRead | DPanic _ => None
  end.

Definition rollout_kind (o : rolop) : option (GroupVersion * string) :=
  match o with
  | RGet _ _ | RStatusUpdate _ => Some (SchemeGroupVersion, "FleetRollout")
  | RListRollouts _ => Some (SchemeGroupVersion, "FleetRolloutList")
  | RList _ _ => Some (SchemeGroupVersion, "EdgeDeviceList")
  | RUpdate _ => Some (SchemeGroupVersion, "EdgeDevice")
  | RNow => None
  end.

Context {laws : SchemeLaws L}.

(** The builder has all three registrations, in their order. *)
Lemma loaded_adds s : AddToScheme loaded s = Ok
  (AddKnownTypes SchemeGroupVersion ["FleetRollout"; "FleetRolloutList"]
    (AddKnownTypes SchemeGroupVersion ["EdgeDevice"; "EdgeDeviceList"]
      (AddToGroupVersion SchemeGroupVersion s))).
Proof.
  unfold AddToScheme, loaded, fleetrollout_init, edgedevice_init, variables. cbn [SchemeBuilder].
  by rewrite !apply_register, apply_new.
Qed.

(** C30. The manager's client knows what it is asked for.  Although AddToScheme is bound
    before the types are registered, loading the packages ends without a panic in a scheme
    that has every kind a call of either reconciler names, and the group, version and kind
    that the agent, which shares no code with the operator, writes into its requests and
    their path are those of the scheme. *)
Theorem scheme_covers_calls :
  ∃ s, main_init loaded = Some s ∧
    (∀ o gv kind, device_kind o = Some (gv, kind) → Recognizes s gv kind = true) ∧
    (∀ o gv kind, rollout_kind o = Some (gv, kind) → Recognizes s gv kind = true) ∧
    (∀ d, Recognizes s SchemeGroupVersion (Kube.Kind (Kube.stamped d)) = true ∧
      Kube.APIVersion (Kube.stamped d) = Group SchemeGroupVersion +:+ "/" +:+ Version SchemeGroupVersion) ∧
    (∀ c sub, Kube.url c sub = TrimSuffix (Kube.base c) "/" +:+ "/apis/" +:+ Group SchemeGroupVersion
      +:+ "/" +:+ Version SchemeGroupVersion +:+ "/namespaces/" +:+ Kube.namespace c
      +:+ "/edgedevices/" +:+ Kube.name c +:+ sub).
Proof.
  destruct clientgo_ok as (s0 & E0 & Hsecret). eexists. split.
  { unfold main_init. rewrite E0, loaded_adds. reflexivity. }
  set (s := AddKnownTypes _ _ _).
  assert (∀ kind, kind ∈ ["EdgeDevice"; "EdgeDeviceList"; "FleetRollout"; "FleetRolloutList"] →
    Recognizes s SchemeGroupVersion kind = true) as Hown.
  { intros kind Hk. destruct (decide (kind ∈ ["FleetRollout"; "FleetRolloutList"])) as [Hr|Hr].
    - by apply known_added.
    - apply known_kept, known_added. set_solver. }
  assert (Recognizes s core_v1 "Secret" = true) as Hs by by apply known_kept, known_kept, group_keeps.
  split_and!; [..|done].
  - intros [] gv kind [= <- <-]; first [exact Hs|apply Hown; set_solver].
  - intros [] gv kind [= <- <-]; apply Hown; set_solver.
  - intros d. split; [apply Hown; set_solver|done].
Qed.
End scheme.

(** ** A concrete package runtime *)

Definition listed : SchemeLib := {|
    Scheme := list (GroupVersion * string);
    Builder := list (list (GroupVersion * string) → result goerr (list (GroupVersion * string)));
    NewScheme := [];
    NewSchemeBuilder f := [f];
    builder_register b f := b ++ [f];
    apply_builder b s := foldl (λ r f, match r with Ok s => f s | Err e => Err e end) (Ok s) b;
    AddToGroupVersion gv s := s ++ [(gv, "WatchEvent"); (gv, "ListOptions")];
    AddKnownTypes gv kinds s := s ++ ((λ k, (gv, k)) <$> kinds);
    clientgo_AddToScheme s := Ok (s ++ [(core_v1, "Secret")]);
    Recognizes s gv kind := existsb (λ x, String.eqb (Group x.1) (Group gv) &&
      String.eqb (Version x.1) (Version gv) && String.eqb x.2 kind) s;
  |}.

Lemma listed_laws : SchemeLaws listed.
Proof.
  split; cbn; try done.
  - intros b f s. by rewrite foldl_app.
  - intros gv s gv' kind H. by rewrite existsb_app, H.
  - intros gv kinds s kind Hk. rewrite existsb_app, orb_true_iff. right. apply existsb_exists.
    exists (gv, kind). split; [apply list_elem_of_In; by apply (list_elem_of_fmap_2 (λ k, (gv, k)))|].
    cbn. by rewrite !String.eqb_refl.
  - intros gv kinds s gv' kind H. by rewrite existsb_app, H.
  - by eexists.
Qed.

Lemma scheme_covers_calls_witness :
  ∃ s, main_init (L := listed) loaded = Some s ∧ length (s : list (GroupVersion * string)) = 7%nat ∧
    Recognizes (SchemeLib := listed) s SchemeGroupVersion "EdgeDeviceList" = true.
Proof.
  destruct (@scheme_covers_calls listed listed_laws) as (s & Hs & _ & Hr & _).
  exists s. split; [exact Hs|]. split; [by injection Hs as <-|].
  apply (Hr (RList "default" ∅) SchemeGroupVersion "EdgeDeviceList"). reflexivity.
Defined.
